(* ===== verification/_CoqProject ===== *)
-Q . S2P
Prelude.v
StateMonad.v
Word.v
Strconv.v
Json.v
Geth.v
GoMap.v
Pebble.v
StoreTypes.v
DepositStore.v
BlobStore.v
StorePanics.v
BlobStoreFacts.v
BlobCommit.v
BlobTheorems.v
BlobCodec.v
Frames.v
Beacon.v
BeaconTheorems.v
SpanReader.v
Span.v
SpanFacts.v
SpanTheorems.v
Channels.v
ChannelFacts.v
ChannelTheorems.v
Status.v
Service.v
ServiceFacts.v
Flags.v
Config.v
ConfigArgs.v
ConfigTheorems.v
Logs.v
LogFacts.v
LogTheorems.v
Auth.v
AuthFacts.v
AuthTheorems.v
BlobWorld.v
BlobWorldFacts.v
Scan.v
Submission.v
ScanFacts.v
ScanWalk.v
BlobSync.v
BlobSyncFacts.v
BlobSyncTheorems.v
Ingest.v
IngestFacts.v
IngestTheorems.v
Server.v
ServerTheorems.v
Command.v
CommandTheorems.v
Lifecycle.v
