(* ===== verification/Prelude.v ===== *)
(** * metis-l1dtl: a verification development

    metis-l1dtl is a data transport layer between Ethereum (L1) and the Metis
    L2.  One process follows a confirmed L1 chain and serves what it finds to
    the L2 over HTTP: the deposits that the CanonicalTransactionChain
    announces, and the L2 blocks that a sequencer has published in EIP-4844
    blobs.  This library models the whole program, package by package, and
    proves what makes it correct.  Paths are those of the repository, under
    src/.

    ** The program and its model

    - cmd/metis-l1dtl (main.go, healthcheck.go, service.go): [Command] has
      [run], the exit status, [runHealthcheck], [validateL1] and
      [runService] up to [serve]; [Lifecycle] has [serve] and
      [shutdownHTTP], with their goroutines, as the step relation [step].
    - internal/config (config.go): [Config] has the configuration and
      [Parse]; [Flags] has the part of package flag it uses, and
      [ConfigArgs] what a command line means.
    - internal/store, deposits (types.go, store.go, identity.go, read.go,
      commit.go): [StoreTypes] has the records and their JSON, and
      [DepositStore] the operations and the abstract ledger they implement.
    - internal/store, blobs (blob_types.go, blob.go): [StoreTypes] and
      [BlobStore]; [BlobStoreFacts] and [BlobCommit] have the abstract
      archive (typed tables, and how keys represent them).
    - internal/blob (frames.go, span.go, beacon.go): [BlobCodec]
      (DecodeBlob), [Frames] (ParseFrames), [Channels] (DecodeChannels),
      [SpanReader] and [Span] (decodeChannel, decodeSpan), [Beacon] (the
      client of the beacon node).
    - internal/ingest (status.go, abi.go, decode.go, ingest.go,
      syncer_types.go, syncer_step.go, bootstrap.go): [Status] (health),
      [Logs] (Decode, decodeLogs), [Ingest] (Step, Run and the bootstrap).
    - internal/blobingest (auth.go, scan.go, syncer.go): [Auth] (the
      authorization of Inbox senders), [BlobWorld] (calls to the node,
      backfills, authLogs), [Scan] (submissions, the walk), [BlobSync]
      (prepare, Step, Run).
    - internal/server (server.go, handlers.go, context.go): [Server].

    Names are the code's.  A Go struct is a Record, a Go error a list of the
    sentinels errors.Is finds with a message, a call that returns a value, an
    error or panics is a [result].  Fixed-width integers are [uint w]: an
    integer with its range, whose operations wrap as Go's do.  A map is a
    gmap, or an option of one when it can be nil; [range] over it visits an
    order that an interface leaves open ([GoMap]).  A JSON document is its
    syntax tree ([Json]).  What panics in Go (an index, a slice, a division,
    a closed channel) is [Panic] here, and is proved not to happen.

    ** How the parts interact

    The deposit loop, the blob loop and the HTTP handlers share the database
    and the health status.  [Service] is that shared world: a computation of
    one part reads and writes it, and before every access the others run,
    which the class [Env] leaves open, as it does the answers of the node and
    the expiry of the context.  The environment of a part is restricted only
    by what the part relies on: [Keeps] (ServiceFacts) is that interface.
    For the deposit loop it is that others keep the ledger, for the blob loop
    that others keep the archive; [stores_coexist] shows that each store's
    operations keep what the other relies on.  [wp] (StateMonad) is the
    program logic the parts share: an invariant of the world, a relation
    that composes along a run, no panic, and a postcondition.

    The layers below are used through interfaces too: [Pebble] (the database,
    atomic batches, I/O errors at any operation; [MemKV] implements it),
    [GethText], [ABI] and their laws (go-ethereum's text and event codec;
    [HexText], [AbiWords]), [RLP], [Decompress] and [EthTx] (Span), [Env] and
    [BlobEnv] (the node and the beacon client), [Signer] (signature
    recovery), [BeaconNode] (the beacon API), [ConfigText] and [Outside]
    (texts of configuration values, the start of the process).  The
    theorems' hypotheses are met on concrete instances in the modules named
    [...Witness].

    ** What is shown

    - Deposits: [Commit] implements an append-only ledger and decides it
      ([Commit_refines_ledger], [Commit_decides]); a reachable store answers
      every [Get] ([reachable_Get]); identities are enforced
      ([Open_identity]).  [Decode] and [decodeLogs] accept exactly the logs
      that have a meaning, and compute it ([Decode_exact],
      [decodeLogs_exact]).  A step of the loop commits one complete window,
      anchored in the confirmed chain before and after its logs were read, or
      nothing ([Step_refines]); along a run deposits only grow
      ([Run_append_only]); the backward search ends ([bootstrap_descends]);
      what cannot be retried halts the loop ([Run_halts]).
    - Blob formats: [DecodeBlob_exact] and [ParseFrames_exact] (the decoders
      accept exactly the encoders' images), [decodeSpan_safe],
      [decodeSpan_roundtrip], [decodeChannel_safe], [DecodeChannels_exact],
      [DecodeChannels_order].
    - Blob archive: [CommitBlob_refines] (the retention window),
      [GetBlock_exact], [prune_decides], [stores_coexist], and
      [stores_never_panic] on any file.
    - Blob ingestion: [parseSubmission_exact] and its bounds;
      [decodeAuth_exact], [cloneAuth_roundtrip], [sender_exact],
      [apply_exact], [orderedLogs_exact] (authorization);
      [blob_Step_refines], [blob_Run_invariant], [blob_Run_halts] (the loop:
      what is stored is traced to what the chain announced).
      [Frames_verified]: what the beacon client returns was checked against
      the hashes and the slot.
    - Service: [Status_barrier] (nothing is committed after a fatal error);
      [data_routes_guarded], [enqueue_serves], [l1Context_confirmed] (HTTP);
      [Parse_exact] (a configuration is what the settings of the command line
      mean), [service_starts] (from the command line to the hypotheses of the
      loops' theorems), [serve_closes_last].

    [prune_decides] delimits a fault of the code: [putChannel] accepts a
    channel that lists one block twice, and such a channel can never be
    expired, so every later retention commit fails.

    ** Bounds and fuel

    Loops over input use fuel that provably never runs out: [parse_frames]
    takes the length of the data (a frame has 23 bytes at least),
    [decode_stream] the length of the stream and one more, uvarints ten
    bytes.  Ranges of blocks are explicit lists ([heights]).  The unbounded
    loops [Run] take any fuel: what is stated of a run holds for each number
    of rounds, and each round ends on its own.

    ** Not modelled

    Logging, timers and time limits (a wait is a scheduling point; a context
    may expire at any time, and the contexts of a step and of the run are one
    value), the HTTP transport of net/http and its own 404 and 405 answers,
    signals other than as an environment step, and tests.  The guard for an
    empty text of a stored authorization is no case of the model, where a
    stored document is a syntax tree.  Errors keep their sentinels; their
    texts are abbreviated where no caller reads them.  The beacon client and
    the blob loop are linked by an interface: [src_Frames] of [BlobEnv] may
    answer anything, and [Frames_verified] says what this client answers. *)
From Stdlib Require Export Ascii String ZArith Lia.
From stdpp Require Export base option list strings tactics gmap sorting pretty.

#[export] Set Default Goal Selector "!".
#[export] Set Warnings "-clear-no-such-hyp".
Open Scope Z_scope.
Open Scope list_scope.

(** ** Go errors

    A Go error value is modelled by its message and by the sentinels that
    [errors.Is] finds by unwrapping it.  [fmt.Errorf("%w: ...")] adds the
    wrapped sentinels to the new error, so wrapping is list concatenation. *)
Inductive sentinel : Type :=
  | ErrInvalid            (* blob.ErrInvalid *)
  | ErrMissing            (* blob.ErrMissing *)
  | ErrIntegrity          (* store.ErrIntegrity *)
  | ErrFatal              (* ingest.ErrFatal *)
  | ErrClosed             (* pebble.ErrClosed *)
  | ErrNotFound           (* pebble.ErrNotFound *)
  | ErrBackfillPending    (* blobingest.errBackfillPending *)
  | ErrHelp.              (* flag.ErrHelp *)

#[export] Instance sentinel_eq_dec : EqDecision sentinel.
Proof. solve_decision. Defined.

Record error : Type := Error { err_is : list sentinel; err_msg : string }.

#[export] Instance error_eq_dec : EqDecision error.
Proof. solve_decision. Defined.

(** [errors.Is e s]. *)
Definition errors_Is (e : error) (s : sentinel) : bool :=
  bool_decide (s ∈ err_is e).

(** [fmt.Errorf("%w: msg", s)]. *)
Definition errorf (s : sentinel) (msg : string) : error := Error [s] msg.

(** [fmt.Errorf("%w: %w", s, e)]. *)
Definition wrapf (s : sentinel) (e : error) : error :=
  Error (s :: err_is e) (err_msg e).

(** An error that wraps no sentinel of the program: RPC and I/O failures. *)
Definition plain (msg : string) : error := Error [] msg.

(** ** Results

    A Go call returns a value, returns an error, or panics (an index out of
    range, a failed type assertion, a nil dereference). *)
Inductive result (A : Type) : Type :=
  | Ok (a : A)
  | Err (e : error)
  | Panic.
Arguments Ok {A} a.
Arguments Err {A} e.
Arguments Panic {A}.

#[export] Instance result_eq_dec {A} `{EqDecision A} : EqDecision (result A).
Proof. solve_decision. Defined.

Definition bind {A B} (r : result A) (k : A → result B) : result B :=
  match r with
  | Ok a => k a
  | Err e => Err e
  | Panic => Panic
  end.

Declare Scope go_scope.
Delimit Scope go_scope with go.
Open Scope go_scope.

Notation "'let!' x ':=' r 'in' k" := (bind r (λ x, k))
  (at level 200, x name, r at level 100, k at level 200,
   format "'[v' 'let!'  x  ':='  r  'in' '/' k ']'") : go_scope.
Notation "'let!' ' x ':=' r 'in' k" := (bind r (λ x, k))
  (at level 200, x strict pattern, r at level 100, k at level 200,
   format "'[v' 'let!'  ' x  ':='  r  'in' '/' k ']'") : go_scope.
(** [if c { return err }] followed by the rest of the function. *)
Notation "'fail_if' c 'with' e ';;' k" := (if c then Err e else k)
  (at level 200, c at level 99, e at level 99, k at level 200,
   format "'[v' 'fail_if'  c  'with'  e  ';;' '/' k ']'") : go_scope.

(** [errors.Is(err, s)] on the error of a failed call. *)
Definition fails_with {A} (r : result A) (s : sentinel) : Prop :=
  ∃ e, r = Err e ∧ errors_Is e s = true.

Definition is_ok {A} (r : result A) : bool :=
  match r with Ok _ => true | _ => false end.

Lemma bind_Ok_inv {A B} (r : result A) (k : A → result B) b :
  bind r k = Ok b → ∃ a, r = Ok a ∧ k a = Ok b.
Proof. destruct r; simpl; [eauto | done | done]. Qed.

Lemma bind_Err_inv {A B} (r : result A) (k : A → result B) e :
  bind r k = Err e → r = Err e ∨ ∃ a, r = Ok a ∧ k a = Err e.
Proof. destruct r; simpl; naive_solver. Qed.

Lemma bind_Panic_inv {A B} (r : result A) (k : A → result B) :
  bind r k = Panic → r = Panic ∨ ∃ a, r = Ok a ∧ k a = Panic.
Proof. destruct r; simpl; naive_solver. Qed.

(** As a rewrite rule, for terms that are too big to convert. *)
Lemma bind_Ok {A B} (a : A) (k : A → result B) : bind (Ok a) k = k a.
Proof. done. Qed.

Lemma bind_assoc {A B C} (r : result A) (k : A → result B) (h : B → result C) :
  bind (bind r k) h = bind r (λ a, bind (k a) h).
Proof. by destruct r. Qed.

(** A loop [for _, x := range l] that threads a state and stops at the
    first error. *)
Fixpoint foldM {A S} (f : S → A → result S) (s : S) (l : list A) : result S :=
  match l with
  | [] => Ok s
  | x :: l => let! s' := f s x in foldM f s' l
  end.

Lemma foldM_app {A S} (f : S → A → result S) s l1 l2 :
  foldM f s (l1 ++ l2) = let! s' := foldM f s l1 in foldM f s' l2.
Proof.
  revert s; induction l1 as [|x l1 IH]; intros s; simpl; [done|].
  destruct (f s x); simpl; auto.
Qed.

(** The induction principle of such loops: an invariant over the processed
    prefix. *)
Lemma foldM_inv {A S} (f : S → A → result S) (P : list A → S → Prop) s l s' :
  P [] s →
  (∀ done x s1 s2, P done s1 → x ∈ l → f s1 x = Ok s2 → P (done ++ [x]) s2) →
  foldM f s l = Ok s' → P l s'.
Proof.
  intros H0 Hstep.
  assert (∀ done todo s, l = done ++ todo → P done s →
    foldM f s todo = Ok s' → P l s') as Hgen; [|by intros; eapply (Hgen [] l)].
  intros done todo. revert done.
  induction todo as [|x todo IH]; intros done s1 Hl HP Hf; simpl in Hf.
  - simplify_eq. by rewrite app_nil_r.
  - apply bind_Ok_inv in Hf as (s2 & Hx & Hf).
    apply (IH (done ++ [x]) s2); [by rewrite <-app_assoc | | done].
    apply Hstep with s1; [done | rewrite Hl; set_solver | done].
Qed.

Lemma foldM_preserve {A S} (f : S → A → result S) (P : S → Prop) s l s' :
  P s →
  (∀ x s1 s2, P s1 → x ∈ l → f s1 x = Ok s2 → P s2) →
  foldM f s l = Ok s' → P s'.
Proof. intros H0 Hs. apply (foldM_inv f (λ _, P)); eauto. Qed.

(** ** Absence of panics *)

Lemma fails_bind {A B} (r : result A) (k : A → result B) s :
  fails_with r s → fails_with (bind r k) s.
Proof. intros (e & -> & He). by exists e. Qed.

Lemma fails_no_panic {A} (r : result A) s : fails_with r s → r ≠ Panic.
Proof. by intros (e & -> & _). Qed.

Lemma bind_no_panic {A B} (r : result A) (k : A → result B) :
  r ≠ Panic → (∀ a, r = Ok a → k a ≠ Panic) → bind r k ≠ Panic.
Proof. destruct r; simpl; auto. Qed.

Lemma foldM_no_panic {A S} (f : S → A → result S) l : ∀ s,
  (∀ s x, f s x ≠ Panic) → foldM f s l ≠ Panic.
Proof.
  induction l as [|x l IH]; intros s Hf; cbn [foldM]; [done|].
  apply bind_no_panic; auto.
Qed.

(** A fact about a small range of integers, by evaluation. *)
Lemma check_range (P : Z → bool) (m : Z) :
  forallb P (seqZ 0 m) = true → ∀ z, 0 <= z < m → P z = true.
Proof.
  intros H z Hz. rewrite forallb_forall in H. apply H.
  apply list_elem_of_In, elem_of_seqZ. lia.
Qed.

Lemma check_range2 (P : Z → Z → bool) (m n : Z) :
  forallb (λ a, forallb (P a) (seqZ 0 n)) (seqZ 0 m) = true →
  ∀ a b, 0 <= a < m → 0 <= b < n → P a b = true.
Proof.
  intros H a b Ha Hb.
  pose proof (check_range (λ a, forallb (P a) (seqZ 0 n)) m H a Ha) as H'.
  by apply (check_range (P a) n).
Qed.

(** ** Lists *)

Lemma StronglySorted_impl {A} (R S : relation A) l :
  (∀ a b, R a b → S a b) → StronglySorted R l → StronglySorted S l.
Proof.
  intros HRS. induction 1 as [|x l _ IH Hx]; constructor; [done|].
  eapply Forall_impl; [exact Hx|]. intros y. apply HRS.
Qed.

Lemma StronglySorted_sublist {A} (R : relation A) l k :
  sublist l k → StronglySorted R k → StronglySorted R l.
Proof.
  induction 1 as [|x l k Hs IH|x l k Hs IH]; intros Hk; [constructor| |].
  - apply StronglySorted_inv in Hk as [Hk Hall]. constructor; [by apply IH|].
    apply Forall_forall. intros y Hy. eapply Forall_forall in Hall; [exact Hall|].
    by eapply elem_of_sublist.
  - apply StronglySorted_inv in Hk as [Hk _]. by apply IH.
Qed.

(** ** sort.Slice

    The order of equal elements is unspecified, so sorting is an interface:
    a permutation, sorted whenever [less] is a strict weak order. *)
Class SortSlice : Type :=
  sort_Slice : ∀ {A : Type}, (A → A → bool) → list A → list A.

Definition weak_order {A} (less : A → A → bool) : Prop :=
  (∀ a b c, less b a = false → less c b = false → less c a = false) ∧
  (∀ a b, less a b = true → less b a = false).

Class SortSliceLaws `{SortSlice} : Prop := {
  sort_Slice_Permutation {A} (less : A → A → bool) l : sort_Slice less l ≡ₚ l;
  sort_Slice_sorted {A} (less : A → A → bool) l :
    weak_order less → StronglySorted (λ a b, less b a = false) (sort_Slice less l);
}.

Definition merge_slice : SortSlice := λ A less,
  @merge_sort A (λ a b, less b a = false) (λ a b, decide (less b a = false)).

Lemma merge_slice_laws : @SortSliceLaws merge_slice.
Proof.
  split; intros A less l; unfold sort_Slice, merge_slice.
  - apply merge_sort_Permutation.
  - intros [Htrans Hasym]. apply StronglySorted_merge_sort.
    + intros a b c. apply Htrans.
    + intros a b. destruct (less b a) eqn:E; [right; by apply Hasym | by left].
Qed.

(** ** Tactics *)

(** Split hypotheses about the outcome of a sequence of calls. *)
Ltac inv_bind :=
  repeat match goal with
  | H : bind _ _ = Ok _ |- _ =>
      let x := fresh "v" in let H1 := fresh "Hv" in
      apply bind_Ok_inv in H as (x & H1 & H)
  | H : Ok _ = Ok _ |- _ => injection H as H; try subst
  | H : Err _ = Ok _ |- _ => discriminate H
  | H : Panic = Ok _ |- _ => discriminate H
  | H : Ok _ = Err _ |- _ => discriminate H
  | H : Panic = Err _ |- _ => discriminate H
  | H : Ok _ = Panic |- _ => discriminate H
  | H : Err _ = Panic |- _ => discriminate H
  end.

(** Case split on every test that guards a hypothesis [_ = Ok _]. *)
Ltac inv_guard H :=
  repeat (inv_bind;
    match type of H with
    | (if ?c then _ else _) = _ => let E := fresh "G" in destruct c eqn:E; try discriminate H
    | (match ?c with _ => _ end) = _ => let E := fresh "G" in destruct c eqn:E; try discriminate H
    end); inv_bind.

(** Turn boolean tests in the context into propositions. *)
Ltac bool_to_prop :=
  repeat match goal with
  | H : bool_decide _ = true |- _ => apply bool_decide_eq_true_1 in H
  | H : bool_decide _ = false |- _ => apply bool_decide_eq_false_1 in H
  | H : negb _ = true |- _ => apply negb_true_iff in H
  | H : negb _ = false |- _ => apply negb_false_iff in H
  | H : (_ && _)%bool = true |- _ => apply andb_true_iff in H as [? ?]
  | H : (_ || _)%bool = false |- _ => apply orb_false_iff in H as [? ?]
  | H : (_ && _)%bool = false |- _ => apply andb_false_iff in H
  | H : (_ || _)%bool = true |- _ => apply orb_true_iff in H
  | H : (_ =? _) = true |- _ => apply Z.eqb_eq in H
  | H : (_ =? _) = false |- _ => apply Z.eqb_neq in H
  | H : (_ <? _) = true |- _ => apply Z.ltb_lt in H
  | H : (_ <? _) = false |- _ => apply Z.ltb_ge in H
  | H : (_ <=? _) = true |- _ => apply Z.leb_le in H
  | H : (_ <=? _) = false |- _ => apply Z.leb_gt in H
  end.
