(* ===== verification/StateMonad.v ===== *)
(** * Computations that change a world

    A step of a service reads and writes a world it shares with others, and
    may fail: it changes the world even when it fails.  [safe_with] is the
    reasoning principle the components share: an invariant of the world and a
    relation between the worlds before and after that composes. *)
From S2P Require Import Prelude.

Definition St (W A : Type) : Type := W → W * result A.

Definition ret {W A} (a : A) : St W A := λ w, (w, Ok a).
Definition fail {W A} (e : error) : St W A := λ w, (w, Err e).
Definition lift {W A} (r : result A) : St W A := λ w, (w, r).
Definition mbind {W A B} (m : St W A) (k : A → St W B) : St W B := λ w,
  match m w with
  | (w, Ok a) => k a w
  | (w, Err e) => (w, Err e)
  | (w, Panic) => (w, Panic)
  end.
(** [if err != nil { return f(err) }] *)
Definition wrap_error {W A} (f : error → error) (m : St W A) : St W A := λ w,
  match m w with
  | (w, Err e) => (w, Err (f e))
  | x => x
  end.

(** [x, err := m]: the error is a value. *)
Definition attempt {W A} (m : St W A) : St W (A + error) := λ w,
  match m w with
  | (w, Ok a) => (w, Ok (inl a))
  | (w, Err e) => (w, Ok (inr e))
  | (w, Panic) => (w, Panic)
  end.

Notation "'do!' x ':=' m 'in' k" := (mbind m (λ x, k))
  (at level 200, x name, m at level 100, k at level 200,
   format "'[v' 'do!'  x  ':='  m  'in' '/' k ']'") : go_scope.
Notation "'do!' ' x ':=' m 'in' k" := (mbind m (λ x, k))
  (at level 200, x strict pattern, m at level 100, k at level 200,
   format "'[v' 'do!'  ' x  ':='  m  'in' '/' k ']'") : go_scope.
Notation "'raise_if' c 'with' e ';;' k" := (if c then fail e else k)
  (at level 200, c at level 99, e at level 99, k at level 200,
   format "'[v' 'raise_if'  c  'with'  e  ';;' '/' k ']'") : go_scope.

(** A loop that stops at the first error. *)
Fixpoint forM {W A S} (f : S → A → St W S) (s : S) (l : list A) : St W S :=
  match l with
  | [] => ret s
  | x :: l => do! s := f s x in forM f s l
  end.

(** Where a successful computation went. *)
Lemma mbind_Ok {W A B} (m : St W A) (k : A → St W B) w w' b :
  mbind m k w = (w', Ok b) → ∃ a w1, m w = (w1, Ok a) ∧ k a w1 = (w', Ok b).
Proof. unfold mbind. destruct (m w) as [w1 [a|e|]]; [eauto | done | done]. Qed.

Lemma mbind_Err {W A B} (m : St W A) (k : A → St W B) w w' e :
  mbind m k w = (w', Err e) → m w = (w', Err e) ∨ ∃ a w1, m w = (w1, Ok a) ∧ k a w1 = (w', Err e).
Proof.
  unfold mbind. destruct (m w) as [w1 [a|e'|]]; [eauto | | done]. intros [= <- <-]. by left.
Qed.

(** ** Framed computations *)

Section safety.
Context {W : Type} (I : W → Prop) (R : W → W → Prop).

(** From a good world: related to the world after, and no panic. *)
Definition safe_with {A} (m : St W A) : Prop := ∀ w, I w → R w (m w).1 ∧ (m w).2 ≠ Panic.

Definition frame_laws : Prop :=
  (∀ w, I w → R w w) ∧ (∀ w w', R w w' → I w') ∧ (∀ a b c, R a b → R b c → R a c).

Hypothesis (laws : frame_laws).

Lemma safe_with_ret {A} (a : A) : safe_with (ret a).
Proof. intros w Hw. by split; [apply laws|]. Qed.

Lemma safe_with_fail {A} e : safe_with (fail (A := A) e).
Proof. intros w Hw. by split; [apply laws|]. Qed.

Lemma safe_with_lift {A} (r : result A) : r ≠ Panic → safe_with (lift r).
Proof. intros Hr w Hw. by split; [apply laws|]. Qed.

Lemma safe_with_read {A} (f : W → result A) :
  (∀ w, f w ≠ Panic) → safe_with (λ w, (w, f w)).
Proof. intros Hf w Hw. split; [by apply laws | apply Hf]. Qed.

Lemma safe_with_bind {A B} (m : St W A) (k : A → St W B) :
  safe_with m → (∀ a w w', m w = (w', Ok a) → safe_with (k a)) → safe_with (mbind m k).
Proof.
  intros Hm Hk w Hw. unfold mbind. specialize (Hm w Hw).
  destruct (m w) as [w1 [a|e|]] eqn:E; simpl in *; destruct Hm as [Hq Hp]; [|by split|by destruct Hp].
  destruct laws as (_ & Hi & Ht). destruct (Hk a w w1 E w1 (Hi _ _ Hq)) as [Hq' Hp'].
  split; [by eapply Ht | done].
Qed.

Lemma safe_with_wrap {A} f (m : St W A) : safe_with m → safe_with (wrap_error f m).
Proof.
  intros Hm w Hw. unfold wrap_error. specialize (Hm w Hw).
  destruct (m w) as [w1 [a|e|]]; [done | by destruct Hm | done].
Qed.

Lemma safe_with_forM {A S} (f : S → A → St W S) l : ∀ s,
  (∀ s x, x ∈ l → safe_with (f s x)) → safe_with (forM f s l).
Proof.
  induction l as [|x l IH]; intros s Hf; cbn [forM]; [apply safe_with_ret|].
  apply safe_with_bind; [apply Hf; by left|]. intros s' _ _ _. apply IH.
  intros s'' y Hy. apply Hf. by right.
Qed.

Lemma safe_with_Ok {A} (m : St W A) w w' a :
  safe_with m → I w → m w = (w', Ok a) → R w w'.
Proof. intros Hm Hw E. specialize (Hm w Hw). rewrite E in Hm. apply Hm. Qed.

End safety.

(** ** Weakest preconditions

    [wp I R Q m w]: run from [w] where [I] holds, [m] leads to a world where
    [I] holds and that [R] relates to [w], does not panic, and when it
    returns, [Q] holds of the world and the result.  [R] is reflexive and
    transitive, so it composes along a computation whatever its outcome. *)

Section wp.
Context {W : Type} (I : W → Prop) (R : W → W → Prop).

Definition wp {A} (Q : W → A → Prop) (m : St W A) (w : W) : Prop :=
  I w → I (m w).1 ∧ R w (m w).1 ∧ (m w).2 ≠ Panic ∧ ∀ a, (m w).2 = Ok a → Q (m w).1 a.

Lemma wp_run {A} (Q : W → A → Prop) m w w' r :
  wp Q m w → I w → m w = (w', r) → I w' ∧ R w w' ∧ r ≠ Panic ∧ ∀ a, r = Ok a → Q w' a.
Proof. unfold wp. intros Hm Hw E. specialize (Hm Hw). by rewrite E in Hm. Qed.

Lemma wp_mono {A} (Q Q' : W → A → Prop) m w :
  wp Q m w → (∀ w' a, I w' → R w w' → Q w' a → Q' w' a) → wp Q' m w.
Proof.
  intros Hm Hmono Hw. destruct (Hm Hw) as (Hi & Hr & Hp & HQ). split_and!; [done..|]. auto.
Qed.

Lemma wp_ext {A} (Q : W → A → Prop) m m' w : (∀ w, m w = m' w) → wp Q m' w → wp Q m w.
Proof. intros E. unfold wp. by rewrite E. Qed.

Lemma wp_intro {A} (Q : W → A → Prop) m w : (I w → wp Q m w) → wp Q m w.
Proof. intros Hm Hw. by apply Hm. Qed.

(** A framed computation. *)
Lemma wp_frame {A} (Q : W → A → Prop) (m : St W A) w :
  (I w → I (m w).1 ∧ R w (m w).1 ∧ (m w).2 ≠ Panic) →
  (∀ w' a, m w = (w', Ok a) → I w → I w' → R w w' → Q w' a) → wp Q m w.
Proof.
  intros Hm HQ Hw. destruct (Hm Hw) as (Hi & Hr & Hp). split_and!; [done..|].
  destruct (m w) as [w' r]. simpl in *. intros a ->. auto.
Qed.

Context `{!PreOrder R}.

Lemma wp_ret {A} (Q : W → A → Prop) (a : A) w : (I w → Q w a) → wp Q (ret a) w.
Proof. intros HQ Hw. split_and!; [done..|]. intros ? [= <-]. auto. Qed.

Lemma wp_fail {A} (Q : W → A → Prop) e w : wp Q (fail e) w.
Proof. intros Hw. by split_and!. Qed.

Lemma wp_lift {A} (Q : W → A → Prop) (r : result A) w :
  r ≠ Panic → (∀ a, r = Ok a → I w → Q w a) → wp Q (lift r) w.
Proof. intros Hr HQ Hw. split_and!; [done..|]. intros a Ha. auto. Qed.

Lemma wp_bind {A B} (Q : W → B → Prop) (m : St W A) (k : A → St W B) w :
  wp (λ w1 a, wp Q (k a) w1) m w → wp Q (mbind m k) w.
Proof.
  unfold wp, mbind. intros Hm Hw. specialize (Hm Hw).
  destruct (m w) as [w1 [a|e|]]; simpl in *; destruct Hm as (Hi & Hr & Hp & HQ); [|done..].
  destruct (HQ a eq_refl Hi) as (? & ? & ?). split_and!; [done | by etrans | naive_solver..].
Qed.

Lemma wp_raise {A} (Q : W → A → Prop) (c : bool) e (m : St W A) w :
  (c = false → wp Q m w) → wp Q (raise_if c with e ;; m) w.
Proof. intros Hm. destruct c; [apply wp_fail | by apply Hm]. Qed.

Lemma wp_wrap {A} (Q : W → A → Prop) f (m : St W A) w : wp Q m w → wp Q (wrap_error f m) w.
Proof.
  unfold wp, wrap_error. intros Hm Hw. specialize (Hm Hw).
  by destruct (m w) as [w1 [a|e|]]; simpl in *; destruct Hm as (? & ? & ? & ?).
Qed.

(** The error branch knows no more than the relation. *)
Lemma wp_attempt {A} (Q : W → A + error → Prop) (m : St W A) w :
  wp (λ w' a, Q w' (inl a)) m w → (∀ w' e, I w' → R w w' → m w = (w', Err e) → Q w' (inr e)) →
  wp Q (attempt m) w.
Proof.
  intros Hm HE Hw. destruct (Hm Hw) as (Hi & Hr & Hp & HQ). unfold attempt.
  destruct (m w) as [w' [a|e|]] eqn:E; simpl in *; [| |done]; split_and!; try done; intros ? [= <-]; auto.
Qed.

(** A loop, with an invariant of the processed prefix. *)
Lemma wp_forM {A S} (f : S → A → St W S) (P : list A → W → S → Prop) l s w :
  P [] w s →
  (∀ pre x post s w, l = pre ++ x :: post → P pre w s → wp (P (pre ++ [x])) (f s x) w) →
  wp (P l) (forM f s l) w.
Proof.
  intros HP Hf.
  assert (∀ post pre s w, l = pre ++ post → P pre w s → wp (P l) (forM f s post) w) as Hgen;
    [|by apply (Hgen l [])].
  clear s w HP. intros post. induction post as [|x post IH]; intros pre s w Hl HP; cbn [forM].
  - rewrite app_nil_r in Hl. subst pre. by apply wp_ret.
  - apply wp_bind. eapply wp_mono; [by eapply Hf|]. intros w1 s1 _ _ HP1.
    apply (IH (pre ++ [x])); [by rewrite <-app_assoc | done].
Qed.

End wp.

Lemma wp_weaken {W A} (I : W → Prop) (R R' : W → W → Prop) (Q : W → A → Prop) m w :
  (∀ w w', R' w w' → R w w') → wp I R' Q m w → wp I R Q m w.
Proof. intros HR Hm Hw. destruct (Hm Hw) as (? & ? & ?). split; auto. Qed.
