(* ===== verification/Word.v ===== *)
(** * Machine words and byte strings

    Go's fixed-width integers, hashes and addresses as range-carrying
    integers; big-endian encoding ([encoding/binary]); the lexicographic
    order of byte strings ([bytes.Compare], and the key order of the
    database). *)
From S2P Require Import Prelude.

(** ** Words of [w] bits *)

Definition modulus (w : N) : Z := 2 ^ Z.of_N w.

Definition in_width (w : N) (z : Z) : bool := (0 <=? z) && (z <? modulus w).

(** A value of a [w]-bit type: [uint 64] is Go's uint64 (and uint on the
    64-bit targets), [uint 256] a hash or an EVM word, [uint 160] an
    address, [uint 8] a byte. *)
Record uint (w : N) : Type := Uint {
  uval :> Z;
  uint_ok : in_width w uval = true;
}.
Arguments Uint {w} uval uint_ok.
Arguments uval {w} _.
Arguments uint_ok {w} _.

Lemma modulus_pos w : 0 < modulus w.
Proof. unfold modulus. apply Z.pow_pos_nonneg; lia. Qed.

Lemma wrap_ok w z : in_width w (z mod modulus w) = true.
Proof.
  pose proof (modulus_pos w) as Hp.
  pose proof (Z.mod_pos_bound z (modulus w) Hp).
  unfold in_width. lia.
Qed.

(** Proofs of a boolean fact that compute to [eq_refl], so that evaluated
    words are syntactically equal. *)
Definition canon {b : bool} (p : b = true) : b = true :=
  match b as b' return b' = true → b' = true with
  | true => λ _, eq_refl
  | false => λ q, q
  end p.

(** Conversion to a [w]-bit type: the low [w] bits. *)
Definition wrap (w : N) (z : Z) : uint w :=
  Uint (z mod modulus w) (canon (wrap_ok w z)).

Lemma uint_range {w} (x : uint w) : 0 <= uval x < modulus w.
Proof. destruct x as [z Hz]; simpl. unfold in_width in Hz. lia. Qed.

Lemma uint_eq {w} (x y : uint w) : uval x = uval y → x = y.
Proof.
  destruct x as [a Ha], y as [b Hb]; simpl. intros ->.
  f_equal. apply (Eqdep_dec.UIP_dec bool_dec).
Qed.

Lemma uint_eq_iff {w} (x y : uint w) : x = y ↔ uval x = uval y.
Proof. split; [by intros -> | apply uint_eq]. Qed.

Lemma uval_wrap w z : uval (wrap w z) = z mod modulus w.
Proof. done. Qed.

Lemma uval_wrap_small w z : 0 <= z < modulus w → uval (wrap w z) = z.
Proof. intros. rewrite uval_wrap. by apply Z.mod_small. Qed.

Lemma wrap_uval {w} (x : uint w) : wrap w (uval x) = x.
Proof. apply uint_eq, uval_wrap_small, uint_range. Qed.

#[export] Instance uint_eq_dec w : EqDecision (uint w).
Proof.
  intros x y. destruct (decide (uval x = uval y)) as [H|H].
  - left. by apply uint_eq.
  - right. by intros ->.
Defined.

#[export] Instance uint_countable w : Countable (uint w).
Proof.
  refine (inj_countable' uval (wrap w) _). apply wrap_uval.
Defined.

#[export] Instance uint_inhabited w : Inhabited (uint w) := populate (wrap w 0).

Notation u8 := (uint 8).
Notation u16 := (uint 16).
Notation u64 := (uint 64).
Notation Hash := (uint 256).
Notation Address := (uint 160).
Notation byte := (uint 8).
Notation bytes := (list byte).
Notation "'#64' z" := (wrap 64 z) (at level 9, z at level 9, format "'#64' z") : go_scope.

Definition max_uint64 : u64 := wrap 64 (-1).   (* ^uint64(0) *)

(** Wrap-around arithmetic. *)
Definition uadd {w} (x y : uint w) : uint w := wrap w (uval x + uval y).
Definition usub {w} (x y : uint w) : uint w := wrap w (uval x - uval y).
Definition ult {w} (x y : uint w) : bool := uval x <? uval y.
Definition ule {w} (x y : uint w) : bool := uval x <=? uval y.

(** [lia] with the ranges of all the words in sight. *)
Ltac word_ranges :=
  repeat match goal with
  | |- context [uval ?x] =>
      lazymatch goal with
      | _ : 0 <= uval x < _ |- _ => fail
      | _ => pose proof (uint_range x)
      end
  | H : context [uval ?x] |- _ =>
      lazymatch goal with
      | _ : 0 <= uval x < _ |- _ => fail
      | _ => pose proof (uint_range x)
      end
  end.

Ltac word_simpl :=
  unfold ult, ule, uadd, usub in *; bool_to_prop;
  rewrite ?uint_eq_iff in *; rewrite ?uval_wrap in *;
  word_ranges;
  repeat match goal with
  | H : context [modulus ?w] |- _ =>
      let v := eval vm_compute in (modulus w) in change (modulus w) with v in *
  | |- context [modulus ?w] =>
      let v := eval vm_compute in (modulus w) in change (modulus w) with v in *
  end.

Ltac ulia :=
  word_simpl;
  repeat match goal with
  | |- context [?a mod ?b] => rewrite (Z.mod_small a b) by lia
  | H : context [?a mod ?b] |- _ => rewrite (Z.mod_small a b) in H by lia
  end;
  lia.

Lemma usub_le (a b : u64) : uval b <= uval a → uval (usub a b) = uval a - uval b.
Proof.
  intros Hab. pose proof (uint_range a). pose proof (uint_range b).
  unfold usub. apply uval_wrap_small. lia.
Qed.

Lemma uadd_fit (a b : u64) : uval a + uval b < modulus 64 → uval (uadd a b) = uval a + uval b.
Proof.
  intros Hab. pose proof (uint_range a). pose proof (uint_range b).
  unfold uadd. apply uval_wrap_small. lia.
Qed.

(** A difference that stops at zero. *)
Lemma usub_clamped (a b : u64) :
  uval (if ule b a then usub a b else #64 0) = Z.max 0 (uval a - uval b).
Proof.
  unfold ule. destruct (Z.leb_spec (uval b) (uval a)).
  - rewrite usub_le; lia.
  - change (uval (#64 0)) with 0. lia.
Qed.

Lemma uval_max_uint64 : uval max_uint64 = 2 ^ 64 - 1.
Proof. done. Qed.

(** ** Big-endian encoding ([binary.BigEndian]) *)

Fixpoint be_bytes (n : nat) (z : Z) : bytes :=
  match n with
  | O => []
  | S n' => wrap 8 (z / 256 ^ Z.of_nat n') :: be_bytes n' z
  end.

(** [new(big.Int).SetBytes], [BigEndian.UintN]. *)
Definition be_value (l : bytes) : Z :=
  fold_left (λ acc b, acc * 256 + uval b) l 0.

Lemma length_be_bytes n z : length (be_bytes n z) = n.
Proof. induction n; simpl; congruence. Qed.

Lemma byte_range (b : byte) : 0 <= uval b < 256.
Proof. apply (uint_range b). Qed.

Lemma fold_be_acc l a :
  fold_left (λ acc (b : byte), acc * 256 + uval b) l a =
  a * 256 ^ Z.of_nat (length l) + be_value l.
Proof.
  unfold be_value. revert a.
  induction l as [|b l IH]; intros a; [simpl; lia|].
  cbn [fold_left length]. rewrite IH, (IH (0 * 256 + uval b)).
  rewrite Nat2Z.inj_succ, Z.pow_succ_r by lia. lia.
Qed.

Lemma be_value_cons b l :
  be_value (b :: l) = uval b * 256 ^ Z.of_nat (length l) + be_value l.
Proof.
  unfold be_value at 1. cbn [fold_left]. by rewrite fold_be_acc.
Qed.

Lemma be_value_app l1 l2 :
  be_value (l1 ++ l2) = be_value l1 * 256 ^ Z.of_nat (length l2) + be_value l2.
Proof. unfold be_value at 1. rewrite fold_left_app. apply fold_be_acc. Qed.

Lemma be_value_range l : 0 <= be_value l < 256 ^ Z.of_nat (length l).
Proof.
  induction l as [|b l IH]; [done|].
  rewrite be_value_cons. cbn [length].
  rewrite Nat2Z.inj_succ, Z.pow_succ_r by lia.
  pose proof (byte_range b). nia.
Qed.

Lemma be_value_be_bytes n z : be_value (be_bytes n z) = z mod 256 ^ Z.of_nat n.
Proof.
  induction n as [|n IH]; [by rewrite Z.mod_1_r|].
  cbn [be_bytes]. rewrite be_value_cons, length_be_bytes, IH, uval_wrap.
  change (modulus 8) with 256.
  rewrite Nat2Z.inj_succ, Z.pow_succ_r by lia.
  rewrite (Z.mul_comm 256), Z.rem_mul_r by lia. lia.
Qed.

Lemma be_value_inj l1 l2 :
  length l1 = length l2 → be_value l1 = be_value l2 → l1 = l2.
Proof.
  revert l2. induction l1 as [|b1 l1 IH]; intros [|b2 l2] Hlen Hv;
    simplify_eq/=; [done|].
  rewrite !be_value_cons, Hlen in Hv.
  pose proof (be_value_range l1) as H1. pose proof (be_value_range l2) as H2.
  rewrite Hlen in H1.
  destruct (Z.div_mod_unique (256 ^ Z.of_nat (length l2))
    (uval b1) (uval b2) (be_value l1) (be_value l2)) as [Hb Hr]; [lia.. |].
  f_equal; [by apply uint_eq | by apply IH].
Qed.

Lemma be_bytes_value l n : length l = n → be_bytes n (be_value l) = l.
Proof.
  intros <-. apply be_value_inj; [apply length_be_bytes|].
  rewrite be_value_be_bytes. apply Z.mod_small, be_value_range.
Qed.

Lemma be_bytes_inj {w} n (x y : uint w) :
  modulus w <= 256 ^ Z.of_nat n →
  be_bytes n (uval x) = be_bytes n (uval y) → x = y.
Proof.
  intros Hw H. apply (f_equal be_value) in H.
  rewrite !be_value_be_bytes in H.
  apply uint_eq. pose proof (uint_range x). pose proof (uint_range y).
  rewrite !Z.mod_small in H by lia. done.
Qed.

(** [common.BytesToAddress]: the low 20 bytes, here of a 32-byte word. *)
Definition BytesToAddress (h : Hash) : Address := wrap 160 (uval h).
(** [t[:12]] is all zero. *)
Definition high12_zero (h : Hash) : bool := uval h / 2 ^ 160 =? 0.
(** [IsUint64] of a big.Int. *)
Definition IsUint64 (z : Z) : bool := in_width 64 z.

Definition zero_hash : Hash := wrap 256 0.
Definition zero_address : Address := wrap 160 0.

(** ** The lexicographic order of byte strings ([bytes.Compare]) *)

Fixpoint bytes_lt (a b : bytes) : bool :=
  match a, b with
  | _, [] => false
  | [], _ :: _ => true
  | x :: a, y :: b => (uval x <? uval y) || ((uval x =? uval y) && bytes_lt a b)
  end.

Lemma bytes_lt_irrefl a : bytes_lt a a = false.
Proof.
  induction a as [|x a IH]; simpl; [done|].
  by rewrite IH, Z.ltb_irrefl, andb_false_r.
Qed.

Lemma bytes_lt_trans a b c :
  bytes_lt a b = true → bytes_lt b c = true → bytes_lt a c = true.
Proof.
  revert b c. induction a as [|x a IH]; intros [|y b] [|z c]; simpl; try done.
  rewrite !orb_true_iff, !andb_true_iff, !Z.ltb_lt, !Z.eqb_eq.
  intros [H1|[H1 H1']] [H2|[H2 H2']]; try (left; lia).
  right. split; [lia | eauto].
Qed.

Lemma bytes_lt_total a b : bytes_lt a b = false → bytes_lt b a = false → a = b.
Proof.
  revert b. induction a as [|x a IH]; intros [|y b]; simpl; try done.
  rewrite !orb_false_iff, !andb_false_iff, !Z.ltb_ge, !Z.eqb_neq.
  intros [H1 H1'] [H2 H2'].
  assert (uval x = uval y) by lia.
  f_equal; [by apply uint_eq | apply IH; (destruct H1', H2'; [lia | lia | lia | done])].
Qed.

Lemma bytes_lt_app p a b : bytes_lt (p ++ a) (p ++ b) = bytes_lt a b.
Proof.
  induction p as [|x p IH]; simpl; [done|].
  by rewrite IH, Z.ltb_irrefl, Z.eqb_refl.
Qed.

Lemma bytes_lt_nil_r a : bytes_lt a [] = false.
Proof. by destruct a. Qed.

(** Strings of the same length compare as the numbers they encode, and what
    follows an unequal head does not matter. *)
Lemma bytes_lt_value a b a' b' :
  length a = length b →
  bytes_lt (a ++ a') (b ++ b') =
    (be_value a <? be_value b) || ((be_value a =? be_value b) && bytes_lt a' b').
Proof.
  revert b. induction a as [|x a IH]; intros [|y b] Hlen; simplify_eq/=; [done|].
  rewrite (IH b Hlen), !be_value_cons, Hlen.
  pose proof (be_value_range a) as Ha. rewrite Hlen in Ha.
  pose proof (be_value_range b) as Hb.
  assert (0 < 256 ^ Z.of_nat (length b)) by lia.
  destruct (Z.ltb_spec (uval x) (uval y)); simpl.
  { symmetry. apply orb_true_iff. left. apply Z.ltb_lt. nia. }
  destruct (Z.eqb_spec (uval x) (uval y)) as [->|Hne]; simpl.
  { f_equal; [|f_equal]; apply eq_true_iff_eq;
      rewrite ?Z.ltb_lt, ?Z.eqb_eq; lia. }
  symmetry. apply orb_false_iff. split; [apply Z.ltb_ge; nia|].
  apply andb_false_iff. left. apply Z.eqb_neq. nia.
Qed.

(** What lies between a prefix and an extension of it has that prefix. *)
Lemma bytes_lt_prefix p x k :
  bytes_lt k p = false → bytes_lt k (p ++ x) = true → ∃ s, k = p ++ s.
Proof.
  revert k. induction p as [|b p IH]; intros k; [by exists k|].
  destruct k as [|c k]; simpl; [done|].
  rewrite orb_false_iff, andb_false_iff, orb_true_iff, andb_true_iff,
    Z.ltb_ge, Z.ltb_lt, Z.eqb_eq, Z.eqb_neq.
  intros [H1 H2] [H3|[H3 H4]]; [lia|].
  destruct (IH k) as [s ->]; [by destruct H2 | done |].
  exists s. f_equal. by apply uint_eq.
Qed.

Lemma bytes_lt_app_r p x : bytes_lt (p ++ x) p = false.
Proof.
  rewrite <-(app_nil_r p) at 2. rewrite bytes_lt_app. apply bytes_lt_nil_r.
Qed.

(** The ASCII bytes of a string literal. *)
Fixpoint bytes_of_string (s : string) : bytes :=
  match s with
  | EmptyString => []
  | String c s => wrap 8 (Z.of_N (Ascii.N_of_ascii c)) :: bytes_of_string s
  end.

Lemma byte_of_ascii_inj c d :
  wrap 8 (Z.of_N (Ascii.N_of_ascii c)) = wrap 8 (Z.of_N (Ascii.N_of_ascii d)) → c = d.
Proof.
  rewrite uint_eq_iff, !uval_wrap. change (modulus 8) with 256.
  pose proof (Ascii.N_ascii_bounded c). pose proof (Ascii.N_ascii_bounded d).
  rewrite !Z.mod_small by lia. intros H1%N2Z.inj.
  by rewrite <-(Ascii.ascii_N_embedding c), H1, Ascii.ascii_N_embedding.
Qed.

Lemma bytes_of_string_inj s1 s2 :
  bytes_of_string s1 = bytes_of_string s2 → s1 = s2.
Proof.
  revert s2. induction s1 as [|c s1 IH]; intros [|d s2]; simpl; try done.
  intros [= H1 H2].
  assert (c = d) as ->; [|by f_equal; apply IH].
  apply byte_of_ascii_inj, uint_eq. by rewrite !uval_wrap.
Qed.

Lemma bytes_of_string_app s1 s2 :
  bytes_of_string (s1 +:+ s2) = bytes_of_string s1 ++ bytes_of_string s2.
Proof. induction s1 as [|c s1 IH]; simpl; [done | by rewrite IH]. Qed.

(** ** Slices

    Go indexes and slices with ints and panics out of range.  (A slice
    expression may reach up to the capacity; the bound used here is the
    length, which can only panic more often.) *)

Definition len {A} (l : list A) : Z := Z.of_nat (length l).

(** [l[i]] *)
Definition at_ {A} (l : list A) (i : Z) : result A :=
  if 0 <=? i then
    match l !! Z.to_nat i with Some x => Ok x | None => Panic end
  else Panic.

(** [l[i:j]] *)
Definition slice {A} (l : list A) (i j : Z) : result (list A) :=
  if (0 <=? i) && (i <=? j) && (j <=? len l)
  then Ok (take (Z.to_nat (j - i)) (drop (Z.to_nat i) l)) else Panic.

(** [l[i:]] *)
Definition slice_from {A} (l : list A) (i : Z) : result (list A) := slice l i (len l).

(** [l[i] = x] *)
Definition set_at {A} (l : list A) (i : Z) (x : A) : result (list A) :=
  if (0 <=? i) && (i <? len l) then Ok (<[Z.to_nat i := x]> l) else Panic.

(** [copy(l[i:], src)] *)
Definition copy_at {A} (l : list A) (i : Z) (src : list A) : result (list A) :=
  if (0 <=? i) && (i <=? len l) then
    let n := Nat.min (length src) (length l - Z.to_nat i) in
    Ok (take (Z.to_nat i) l ++ take n src ++ drop (Z.to_nat i + n) l)
  else Panic.

Section slices.
Context {A : Type}.
Implicit Types (l p q s : list A) (x : A).

Lemma len_app l1 l2 : len (l1 ++ l2) = len l1 + len l2.
Proof. unfold len. rewrite length_app. lia. Qed.
Lemma len_cons x l : len (x :: l) = 1 + len l.
Proof. unfold len. simpl. lia. Qed.
Lemma len_nonneg l : 0 <= len l.
Proof. unfold len. lia. Qed.

Lemma at_middle p x q i : i = len p → at_ (p ++ x :: q) i = Ok x.
Proof.
  intros ->. unfold at_, len. rewrite Nat2Z.id.
  destruct (Z.leb_spec 0 (Z.of_nat (length p))); [|lia].
  by rewrite list_lookup_middle.
Qed.

Lemma slice_middle p s q i j :
  i = len p → j = len p + len s → slice (p ++ s ++ q) i j = Ok s.
Proof.
  intros -> ->. pose proof (len_nonneg p). pose proof (len_nonneg s).
  pose proof (len_nonneg q). unfold slice. rewrite !len_app.
  destruct (_ && _) eqn:E; [|lia].
  replace (len p + len s - len p) with (len s) by lia.
  unfold len. rewrite !Nat2Z.id, drop_app_length, take_app_length. done.
Qed.

Lemma set_at_middle p x y q i : i = len p → set_at (p ++ x :: q) i y = Ok (p ++ y :: q).
Proof.
  intros ->. pose proof (len_nonneg p). pose proof (len_nonneg q).
  unfold set_at. rewrite len_app, len_cons.
  destruct (_ && _) eqn:E; [|lia].
  unfold len. rewrite Nat2Z.id. by rewrite insert_app_r_alt, Nat.sub_diag by lia.
Qed.

Lemma copy_at_middle p a q s i :
  i = len p → length a = length s → copy_at (p ++ a ++ q) i s = Ok (p ++ s ++ q).
Proof.
  intros -> Ha. pose proof (len_nonneg p). pose proof (len_nonneg a).
  pose proof (len_nonneg q). unfold copy_at. rewrite !len_app.
  destruct (_ && _) eqn:E; [|lia].
  unfold len. rewrite !length_app, Nat2Z.id, Ha.
  replace (Nat.min (length s) (length p + (length s + length q) - length p))
    with (length s) by lia.
  rewrite take_app_length, firstn_all. do 3 f_equal.
  rewrite app_assoc, drop_app_length'; [done|]. rewrite length_app. lia.
Qed.

Lemma at_no_panic l i : 0 <= i < len l → ∃ x, at_ l i = Ok x ∧ l !! Z.to_nat i = Some x.
Proof.
  intros Hi. unfold at_. destruct (Z.leb_spec 0 i); [|lia].
  destruct (lookup_lt_is_Some_2 l (Z.to_nat i)) as [x Hx]; [unfold len in *; lia|].
  rewrite Hx. eauto.
Qed.

Lemma slice_ok l i j :
  0 <= i <= j → j <= len l → slice l i j = Ok (take (Z.to_nat (j - i)) (drop (Z.to_nat i) l)).
Proof. intros. unfold slice. destruct (_ && _) eqn:E; [done | lia]. Qed.

End slices.
