(* ===== verification/Strconv.v ===== *)
(** * Decimal numbers ([strconv])

    [FormatUint] is stdpp's [pretty]; [ParseUint] in base 10 accepts exactly
    the non-empty digit strings whose value fits 64 bits. *)
From S2P Require Import Prelude Word.

Definition is_digit (c : Ascii.ascii) : bool :=
  (48 <=? Z.of_N (Ascii.N_of_ascii c)) && (Z.of_N (Ascii.N_of_ascii c) <=? 57).
Definition digit_value (c : Ascii.ascii) : Z := Z.of_N (Ascii.N_of_ascii c) - 48.

(** The value of a digit string after what has been read. *)
Fixpoint decimal (acc : Z) (s : string) : Z :=
  match s with
  | EmptyString => acc
  | String c s => decimal (10 * acc + digit_value c) s
  end.

Fixpoint all_digits (s : string) : bool :=
  match s with
  | EmptyString => true
  | String c s => is_digit c && all_digits s
  end.

Definition FormatUint (n : u64) : string := pretty (uval n).

(** [strconv.ParseUint(s, 10, 64)]; the error is a syntax or range error. *)
Definition ParseUint (s : string) : result u64 :=
  fail_if bool_decide (s = "") || negb (all_digits s) with plain "strconv.ParseUint: invalid syntax" ;;
  fail_if negb (IsUint64 (decimal 0 s)) with plain "strconv.ParseUint: value out of range" ;;
  Ok (wrap 64 (decimal 0 s)).

Lemma pretty_char_digit n :
  (n < 10)%N → is_digit (pretty_N_char n) = true ∧ digit_value (pretty_N_char n) = Z.of_N n.
Proof.
  intros Hn. pose proof (check_range (λ z, let c := pretty_N_char (Z.to_N z) in
    is_digit c && (digit_value c =? z)) 10 eq_refl (Z.of_N n) ltac:(lia)) as Hc.
  cbv beta zeta in Hc. rewrite !N2Z.id in Hc. apply andb_true_iff in Hc as [Hd Hv].
  split; [done|]. by apply Z.eqb_eq.
Qed.

Lemma pretty_go_digits (x : N) : ∀ s,
  all_digits (pretty_N_go x s) = all_digits s ∧
  decimal 0 (pretty_N_go x s) = decimal (Z.of_N x) s ∧ (s ≠ "" → pretty_N_go x s ≠ "").
Proof.
  induction (N.lt_wf_0 x) as [x _ IH]. intros s.
  destruct (decide (x = 0%N)) as [->|Hx]; [by rewrite pretty_N_go_0|].
  rewrite pretty_N_go_step by lia.
  destruct (pretty_char_digit (x `mod` 10)) as [Hd Hv]; [by apply N.mod_lt|].
  destruct (IH (x `div` 10)%N) with (s := String (pretty_N_char (x `mod` 10)) s) as (Ha & Hdec & Hne);
    [apply N.div_lt; lia|].
  split_and!.
  - by rewrite Ha; cbn [all_digits]; rewrite Hd.
  - rewrite Hdec. cbn [decimal]. rewrite Hv. f_equal.
    pose proof (N.div_mod x 10). lia.
  - intros _. by apply Hne.
Qed.

Lemma pretty_digits (z : Z) :
  0 <= z → all_digits (pretty z) = true ∧ decimal 0 (pretty z) = z ∧ pretty z ≠ "".
Proof.
  intros Hz. destruct z as [|p|p]; [done | | lia].
  change (pretty (Zpos p)) with (pretty_N_go (Npos p) "").
  destruct (pretty_go_digits (Npos p) "") as (Ha & Hd & _).
  rewrite Ha, Hd. split_and!; [done | done|].
  rewrite pretty_N_go_step by lia.
  apply (pretty_go_digits _ (String _ "")). done.
Qed.

Lemma ParseUint_Format n : ParseUint (FormatUint n) = Ok n.
Proof.
  pose proof (uint_range n) as Hr. destruct (pretty_digits (uval n)) as (Ha & Hd & Hne); [lia|].
  unfold ParseUint, FormatUint. rewrite bool_decide_false, Ha, Hd by done. cbn [negb orb].
  unfold IsUint64, in_width. rewrite (proj2 (Z.leb_le _ _)), (proj2 (Z.ltb_lt _ _)) by lia.
  cbn [negb andb]. by rewrite wrap_uval.
Qed.

(** Exactly the digit strings of 64-bit numbers are accepted. *)
Lemma ParseUint_cases s :
  (∃ n, ParseUint s = Ok n ∧ s ≠ "" ∧ all_digits s = true ∧ decimal 0 s = uval n) ∨
  (∃ msg, ParseUint s = Err (plain msg) ∧
    (s = "" ∨ all_digits s = false ∨ 2 ^ 64 <= decimal 0 s ∨ decimal 0 s < 0)).
Proof.
  unfold ParseUint. case_bool_decide as He; simpl; [right; eauto|].
  destruct (all_digits s) eqn:Ha; simpl; [|right; eauto].
  destruct (IsUint64 (decimal 0 s)) eqn:Hu; simpl.
  - left. eexists. split_and!; [done..|]. rewrite uval_wrap_small; [done|].
    unfold IsUint64, in_width in Hu. by bool_to_prop.
  - right. eexists. split; [done|]. unfold IsUint64, in_width in Hu.
    change (modulus 64) with (2 ^ 64) in Hu. bool_to_prop. destruct Hu; bool_to_prop; lia.
Qed.

(** What follows a digit string is found at the first other character. *)
Lemma digits_split (c : Ascii.ascii) x y s t :
  is_digit c = false → all_digits x = true → all_digits y = true →
  x +:+ String c s = y +:+ String c t → x = y ∧ s = t.
Proof.
  intros Hc. revert y. induction x as [|a x IH]; intros [|b y]; cbn [all_digits]; intros Hx Hy E.
  - change (String c s = String c t) in E. by injection E as ->.
  - change (String c s = String b (y +:+ String c t)) in E. injection E as -> _.
    by rewrite Hc in Hy.
  - change (String a (x +:+ String c s) = String c t) in E. injection E as -> _.
    by rewrite Hc in Hx.
  - change (String a (x +:+ String c s) = String b (y +:+ String c t)) in E. injection E as -> E.
    apply andb_true_iff in Hx as [_ Hx], Hy as [_ Hy].
    by destruct (IH y Hx Hy E) as [-> ->].
Qed.

Lemma pretty_slash_inj (a b : Z) s t :
  0 <= a → 0 <= b → pretty a +:+ "/" +:+ s = pretty b +:+ "/" +:+ t → a = b ∧ s = t.
Proof.
  intros Ha Hb E. destruct (pretty_digits a Ha) as (Da & _), (pretty_digits b Hb) as (Db & _).
  change ("/" +:+ s) with (String "/" s) in E. change ("/" +:+ t) with (String "/" t) in E.
  destruct (digits_split "/" _ _ _ _ eq_refl Da Db E) as [Ep ->]. split; [by apply (inj pretty)|done].
Qed.
