(* ===== verification/Json.v ===== *)
(** * encoding/json

    A JSON document is modelled as its syntax tree; [json.Marshal] and
    [json.Unmarshal] of the program's types are instances of [Codec].  The
    program relies on two things only: a marshalled value reads back as
    itself, and two values of a type have the same bytes only when they are
    equal ([bytes.Equal] on marshalled records).  [CodecLaws] states the first
    and [marshal_inj] derives the second. *)
From S2P Require Import Prelude Word.

#[warnings="-register-all"]
Inductive json : Type :=
  | JNull
  | JBool (b : bool)
  | JNum (z : Z)
  | JStr (s : string)
  | JArr (l : list json)
  | JObj (l : list (string * json)).

Section json_ind.
Context (P : json → Prop).
Hypothesis HNull : P JNull.
Hypothesis HBool : ∀ b, P (JBool b).
Hypothesis HNum : ∀ z, P (JNum z).
Hypothesis HStr : ∀ s, P (JStr s).
Hypothesis HArr : ∀ l, Forall P l → P (JArr l).
Hypothesis HObj : ∀ l, Forall (λ kv, P kv.2) l → P (JObj l).

Fixpoint json_tree_ind (j : json) : P j :=
  match j with
  | JNull => HNull
  | JBool b => HBool b
  | JNum z => HNum z
  | JStr s => HStr s
  | JArr l => HArr l
      ((fix go l : Forall P l :=
          match l with
          | [] => List.Forall_nil _
          | x :: l => List.Forall_cons _ x l (json_tree_ind x) (go l)
          end) l)
  | JObj l => HObj l
      ((fix go l : Forall (λ kv, P kv.2) l :=
          match l with
          | [] => List.Forall_nil _
          | (k, x) :: l => List.Forall_cons _ (k, x) l (json_tree_ind x) (go l)
          end) l)
  end.
End json_ind.

(** Decidable equality of documents: [bytes.Equal] on marshalled values. *)
Fixpoint json_eqb (x y : json) : bool :=
  match x, y with
  | JNull, JNull => true
  | JBool a, JBool b => Bool.eqb a b
  | JNum a, JNum b => a =? b
  | JStr a, JStr b => bool_decide (a = b)
  | JArr a, JArr b =>
      (fix go a b := match a, b with
        | [], [] => true
        | u :: a, v :: b => json_eqb u v && go a b
        | _, _ => false
        end) a b
  | JObj a, JObj b =>
      (fix go a b := match a, b with
        | [], [] => true
        | (k1, u) :: a, (k2, v) :: b => bool_decide (k1 = k2) && json_eqb u v && go a b
        | _, _ => false
        end) a b
  | _, _ => false
  end.

Lemma json_eqb_eq x y : json_eqb x y = true ↔ x = y.
Proof.
  revert y. induction x as [|a|a|a|a IH|a IH] using json_tree_ind;
    intros [|b|b|b|b|b]; simpl; try (split; congruence).
  - rewrite eqb_true_iff. split; congruence.
  - rewrite Z.eqb_eq. split; congruence.
  - rewrite bool_decide_eq_true. split; congruence.
  - transitivity (a = b); [|split; congruence].
    revert b. induction IH as [|u a Hu _ IHa]; intros [|v b]; try (split; congruence).
    rewrite andb_true_iff, Hu, IHa. split; [intros [-> ->]; done | by intros [= -> ->]].
  - transitivity (a = b); [|split; congruence].
    revert b. induction IH as [|[k u] a Hu _ IHa]; intros [|[k2 v] b]; try (split; congruence).
    simpl in Hu. rewrite !andb_true_iff, bool_decide_eq_true, Hu, IHa.
    split; [intros [[-> ->] ->]; done | by intros [= -> -> ->]].
Qed.

#[export] Instance json_eq_dec : EqDecision json.
Proof.
  intros x y. destruct (json_eqb x y) eqn:E.
  - left. by apply json_eqb_eq.
  - right. intros H%json_eqb_eq. congruence.
Defined.

(** ** Codecs *)

(** [unmarshal] decodes into a fresh (zero) variable; a JSON [null] leaves it
    at its zero value. *)
Class Codec (A : Type) : Type := {
  marshal : A → json;
  unmarshal : json → option A;
  zero_value : A;
}.

Class CodecLaws (A : Type) `{Codec A} : Prop :=
  unmarshal_marshal : ∀ a : A, unmarshal (marshal a) = Some a.

Lemma marshal_inj `{CodecLaws A} (a b : A) : marshal a = marshal b → a = b.
Proof.
  intros Hab. apply (f_equal unmarshal) in Hab.
  rewrite !unmarshal_marshal in Hab. congruence.
Qed.

Lemma marshal_inj_iff `{CodecLaws A} (a b : A) : marshal a = marshal b ↔ a = b.
Proof. split; [apply marshal_inj | by intros ->]. Qed.

(** The value of a struct field: absent fields stay zero. *)
Fixpoint assoc (name : string) (l : list (string * json)) : option json :=
  match l with
  | [] => None
  | (k, j) :: l => if String.eqb k name then Some j else assoc name l
  end.

Definition field {A} `{Codec A} (name : string) (l : list (string * json)) : option A :=
  match assoc name l with
  | Some j => unmarshal j
  | None => Some zero_value
  end.

Create HintDb codec discriminated.
#[export] Hint Rewrite @unmarshal_marshal using typeclasses eauto : codec.

(** Closes [unmarshal (marshal s) = Some s] for a struct [s]: unfolds the
    codec of the struct alone, then reads every field back. *)
Ltac read_back :=
  let x := fresh in
  intros x;
  lazymatch goal with
  | |- @unmarshal ?A ?C (@marshal ?A ?C x) = ?y =>
      let c := eval red in C in
      lazymatch c with
      | Build_Codec _ ?m ?u _ => let t := eval cbv beta in (u (m x)) in change (t = y)
      end
  end;
  destruct x; cbn; unfold field; cbn [assoc String.eqb Ascii.eqb Bool.eqb];
  repeat (rewrite unmarshal_marshal; cbn [mbind option_bind]).

Ltac solve_codec := read_back; reflexivity.

(** Numbers. *)
#[export] Instance uint_codec w : Codec (uint w) | 10 := {|
  marshal x := JNum (uval x);
  unmarshal j :=
    match j with
    | JNull => Some (wrap w 0)
    | JNum z => if in_width w z then Some (wrap w z) else None
    | _ => None
    end;
  zero_value := wrap w 0;
|}.

#[export] Instance uint_codec_laws w : CodecLaws (uint w).
Proof.
  intros x. simpl. rewrite (uint_ok x). f_equal. apply wrap_uval.
Qed.

(** Go's int: 64 bits, signed. *)
Definition in_int64 (z : Z) : bool := (- 2 ^ 63 <=? z) && (z <? 2 ^ 63).

Record int : Type := Int { ival : Z; int_ok : in_int64 ival = true }.

#[export] Instance int_eq_dec : EqDecision int.
Proof.
  intros [a Ha] [b Hb]. destruct (decide (a = b)) as [->|H].
  - left. f_equal. apply (Eqdep_dec.UIP_dec bool_dec).
  - right. congruence.
Defined.

#[export] Instance int_codec : Codec int := {|
  marshal x := JNum (ival x);
  unmarshal j :=
    match j with
    | JNull => Some (Int 0 eq_refl)
    | JNum z =>
        match in_int64 z as b return in_int64 z = b → option int with
        | true => λ H, Some (Int z H)
        | false => λ _, None
        end eq_refl
    | _ => None
    end;
  zero_value := Int 0 eq_refl;
|}.

#[export] Instance int_codec_laws : CodecLaws int.
Proof.
  intros [z Hz]. simpl. generalize (eq_refl (in_int64 z)).
  generalize (in_int64 z) at 2 3. intros b H. destruct b; [|congruence].
  do 2 f_equal. apply (Eqdep_dec.UIP_dec bool_dec).
Qed.

#[export] Instance bool_codec : Codec bool := {|
  marshal := JBool;
  unmarshal j :=
    match j with JNull => Some false | JBool b => Some b | _ => None end;
  zero_value := false;
|}.

#[export] Instance bool_codec_laws : CodecLaws bool.
Proof. by intros []. Qed.

#[export] Instance string_codec : Codec string := {|
  marshal := JStr;
  unmarshal j :=
    match j with JNull => Some EmptyString | JStr s => Some s | _ => None end;
  zero_value := EmptyString;
|}.

#[export] Instance string_codec_laws : CodecLaws string.
Proof. done. Qed.

(** Pointers to values that do not themselves marshal to null. *)
Class NonNull (A : Type) `{Codec A} : Prop :=
  marshal_non_null : ∀ a : A, marshal a ≠ JNull.

#[export] Instance uint_non_null w : NonNull (uint w).
Proof. done. Qed.
#[export] Instance string_non_null : NonNull string.
Proof. done. Qed.

#[export] Instance option_codec {A} `{Codec A} : Codec (option A) := {|
  marshal o := match o with None => JNull | Some a => marshal a end;
  unmarshal j := match j with JNull => Some None | _ => Some <$> unmarshal j end;
  zero_value := None;
|}.

#[export] Instance option_codec_laws {A} `{CodecLaws A, !NonNull A} :
  CodecLaws (option A).
Proof.
  intros [a|]; [|done]. simpl.
  pose proof (marshal_non_null a) as Hn. pose proof (unmarshal_marshal a) as Hu.
  by destruct (marshal a); rewrite ?Hu.
Qed.

(** Slices: the nil slice is [null], read back as nil (the empty list). *)
#[export] Instance list_codec {A} `{Codec A} : Codec (list A) := {|
  marshal l := match l with [] => JNull | _ => JArr (marshal <$> l) end;
  unmarshal j :=
    match j with
    | JNull => Some []
    | JArr l => mapM unmarshal l
    | _ => None
    end;
  zero_value := [];
|}.

#[export] Instance list_codec_laws {A} `{CodecLaws A} : CodecLaws (list A).
Proof.
  intros l. destruct l as [|a l]; [done|].
  cbn -[mapM]. change (marshal a :: (marshal <$> l)) with (marshal <$> a :: l).
  generalize (a :: l) as k. intros k.
  induction k as [|b k IH]; [done|].
  cbn. rewrite unmarshal_marshal. cbn. by rewrite IH.
Qed.

(** Slices that the program always allocates: empty is [[]], not null. *)
Definition slice_codec {A} `{Codec A} : Codec (list A) := {|
  marshal l := JArr (marshal <$> l);
  unmarshal j :=
    match j with JNull => Some [] | JArr l => mapM unmarshal l | _ => None end;
  zero_value := [];
|}.

Lemma slice_codec_laws {A} `{CodecLaws A} : @CodecLaws (list A) slice_codec.
Proof.
  intros l. cbn. induction l as [|a l IH]; [done|].
  cbn. rewrite unmarshal_marshal. cbn. by rewrite IH.
Qed.

(** A fixed-size byte array ([[n]byte]) is an array of numbers; decoding
    drops extra elements and leaves missing ones zero. *)
Definition byte_array_codec w (n : nat) : Codec (uint w) := {|
  marshal x := JArr (marshal <$> be_bytes n (uval x));
  unmarshal j :=
    match j with
    | JNull => Some (wrap w 0)
    | JArr l =>
        b ← mapM (unmarshal (A := byte)) l;
        Some (wrap w (be_value (take n (b ++ replicate n (wrap 8 0)))))
    | _ => None
    end;
  zero_value := wrap w 0;
|}.

Lemma byte_array_codec_laws w n :
  modulus w = 256 ^ Z.of_nat n → @CodecLaws (uint w) (byte_array_codec w n).
Proof.
  intros Hw x. cbn -[be_bytes mapM]. 
  pose proof (slice_codec_laws (be_bytes n (uval x))) as Hs. cbn -[mapM] in Hs.
  rewrite Hs. cbn. f_equal. rewrite take_app_length' by (symmetry; apply length_be_bytes).
  apply uint_eq. pose proof (uint_range x).
  rewrite uval_wrap, be_value_be_bytes, <-Hw, (Z.mod_small (uval x)) by lia.
  by apply Z.mod_small.
Qed.

(** ** Byte slices: base64 ([encoding/base64], standard alphabet) *)

Module Base64.

Definition digit (n : Z) : Ascii.ascii :=
  Ascii.ascii_of_N (Z.to_N (
    if n <? 26 then 65 + n else if n <? 52 then 71 + n
    else if n <? 62 then n - 4 else if n =? 62 then 43 else 47)).

Definition undigit (c : Ascii.ascii) : option Z :=
  let n := Z.of_N (Ascii.N_of_ascii c) in
  if (65 <=? n) && (n <=? 90) then Some (n - 65)
  else if (97 <=? n) && (n <=? 122) then Some (n - 71)
  else if (48 <=? n) && (n <=? 57) then Some (n + 4)
  else if n =? 43 then Some 62 else if n =? 47 then Some 63 else None.

Fixpoint encode (b : bytes) : string :=
  match b with
  | [] => EmptyString
  | [x] =>
      let n := uval x * 65536 in
      String (digit (n / 262144)) (String (digit (n / 4096 mod 64))
        (String "=" (String "=" EmptyString)))
  | [x; y] =>
      let n := uval x * 65536 + uval y * 256 in
      String (digit (n / 262144)) (String (digit (n / 4096 mod 64))
        (String (digit (n / 64 mod 64)) (String "=" EmptyString)))
  | x :: y :: z :: b =>
      let n := uval x * 65536 + uval y * 256 + uval z in
      String (digit (n / 262144)) (String (digit (n / 4096 mod 64))
        (String (digit (n / 64 mod 64)) (String (digit (n mod 64)) (encode b))))
  end.

Definition is_pad (c : Ascii.ascii) : bool := bool_decide (c = "="%char).

Fixpoint decode (s : string) : option bytes :=
  match s with
  | EmptyString => Some []
  | String c0 (String c1 (String c2 (String c3 s))) =>
      match undigit c0, undigit c1 with
      | Some d0, Some d1 =>
          if is_pad c2 then
            if is_pad c3 && bool_decide (s = EmptyString) then
              Some [wrap 8 ((d0 * 262144 + d1 * 4096) / 65536)]
            else None
          else
            match undigit c2 with
            | Some d2 =>
                if is_pad c3 then
                  let n := d0 * 262144 + d1 * 4096 + d2 * 64 in
                  if bool_decide (s = EmptyString) then
                    Some [wrap 8 (n / 65536); wrap 8 (n / 256 mod 256)]
                  else None
                else
                  match undigit c3, decode s with
                  | Some d3, Some b =>
                      let n := d0 * 262144 + d1 * 4096 + d2 * 64 + d3 in
                      Some (wrap 8 (n / 65536) :: wrap 8 (n / 256 mod 256)
                              :: wrap 8 (n mod 256) :: b)
                  | _, _ => None
                  end
            | None => None
            end
      | _, _ => None
      end
  | _ => None
  end.

Lemma digit_ok n : 0 <= n < 64 → undigit (digit n) = Some n ∧ is_pad (digit n) = false.
Proof.
  intros Hn.
  apply (bool_decide_eq_true_1 (undigit (digit n) = Some n ∧ is_pad (digit n) = false)).
  revert n Hn.
  apply (check_range (λ n,
    bool_decide (undigit (digit n) = Some n ∧ is_pad (digit n) = false))).
  reflexivity.
Qed.

Lemma undigit_digit n : 0 <= n < 64 → undigit (digit n) = Some n.
Proof. intros. by apply digit_ok. Qed.
Lemma is_pad_digit n : 0 <= n < 64 → is_pad (digit n) = false.
Proof. intros. by apply digit_ok. Qed.

Lemma wrap8_eq z (x : byte) : z = uval x → wrap 8 z = x.
Proof. intros ->. apply wrap_uval. Qed.

Lemma split3 x y z : 0 <= x < 256 → 0 <= y < 256 → 0 <= z < 256 →
  let n := x * 65536 + y * 256 + z in
  (0 <= n / 262144 < 64 ∧ 0 <= n / 4096 mod 64 < 64 ∧
   0 <= n / 64 mod 64 < 64 ∧ 0 <= n mod 64 < 64) ∧
  n / 262144 * 262144 + n / 4096 mod 64 * 4096 + n / 64 mod 64 * 64 + n mod 64 = n ∧
  n / 65536 = x ∧ n / 256 mod 256 = y ∧ n mod 256 = z.
Proof. intros Hx Hy Hz n. subst n. Z.div_mod_to_equations. lia. Qed.

Lemma decode_encode b : decode (encode b) = Some b.
Proof.
  revert b. fix IH 1. intros [|x [|y [|z b]]]; [done| | |].
  - pose proof (split3 (uval x) 0 0 (byte_range x) ltac:(lia) ltac:(lia)) as Hs.
    cbn zeta in Hs. rewrite !Z.add_0_r in Hs.
    destruct Hs as ((?&?&?&?) & Hn & Hx & Hy & Hz).
    cbn [encode decode]. rewrite !undigit_digit by done. simpl.
    do 2 f_equal. apply wrap8_eq. Z.div_mod_to_equations. lia.
  - pose proof (split3 (uval x) (uval y) 0 (byte_range x) (byte_range y) ltac:(lia)) as Hs.
    cbn zeta in Hs. rewrite !Z.add_0_r in Hs.
    destruct Hs as ((?&?&?&?) & Hn & Hx & Hy & Hz).
    cbn [encode decode]. rewrite !undigit_digit, is_pad_digit by done. simpl.
    do 3 f_equal; [|f_equal]; apply wrap8_eq; Z.div_mod_to_equations; lia.
  - pose proof (split3 (uval x) (uval y) (uval z)
      (byte_range x) (byte_range y) (byte_range z)) as Hs.
    cbn zeta in Hs. destruct Hs as ((?&?&?&?) & Hn & Hx & Hy & Hz).
    cbn [encode decode]. rewrite !undigit_digit, !is_pad_digit, IH by done.
    rewrite Hn, Hx, Hy, Hz, !wrap_uval. done.
Qed.

End Base64.

(** A []byte field. *)
Definition bytes_codec : Codec bytes := {|
  marshal b := JStr (Base64.encode b);
  unmarshal j :=
    match j with JNull => Some [] | JStr s => Base64.decode s | _ => None end;
  zero_value := [];
|}.

Lemma bytes_codec_laws : @CodecLaws bytes bytes_codec.
Proof. exact Base64.decode_encode. Qed.

(** [json.RawMessage]: the document itself; a nil one is written as null,
    and null is read back as the text null. *)
#[export] Instance RawMessage_codec : Codec json := {|
  marshal := id;
  unmarshal := Some;
  zero_value := JNull;
|}.

#[export] Instance RawMessage_codec_laws : CodecLaws json.
Proof. done. Qed.

#[global] Arguments marshal : simpl never.
#[global] Arguments unmarshal : simpl never.
