(* ===== verification/Geth.v ===== *)
(** * The go-ethereum interface

    What the program uses of the third-party module go-ethereum, as type
    classes: the textual form of hashes and addresses ([common],
    [common/hexutil]), the execution-layer data it reads ([core/types]) and
    the event codec ([accounts/abi]).  The classes carry the operations, the
    [...Laws] classes their documented behaviour; theorems are proved against
    them.  [HexText] is a concrete implementation that meets the text laws;
    the witnesses run on it. *)
From S2P Require Import Prelude Word Json.

(** ** Text forms *)

Class GethText : Type := {
  hexutil_Encode : bytes → string;             (* hexutil.Encode *)
  Hash_Hex : Hash → string;                    (* Hash.Hex, Hash.MarshalText *)
  Hash_UnmarshalText : string → option Hash;
  Address_MarshalText : Address → string;
  Address_UnmarshalText : string → option Address;
}.

Class GethTextLaws `{GethText} : Prop := {
  hexutil_Encode_inj b1 b2 : hexutil_Encode b1 = hexutil_Encode b2 → b1 = b2;
  Hash_text_roundtrip h : Hash_UnmarshalText (Hash_Hex h) = Some h;
  Hash_Hex_length h : String.length (Hash_Hex h) = 66%nat;
  Address_text_roundtrip a : Address_UnmarshalText (Address_MarshalText a) = Some a;
}.

(** In [encoding/json] both are written as the string of MarshalText; only a
    string is read back ([hexutil.UnmarshalFixedJSON]), not even null. *)
Section text_codecs.
Context `{GethText}.

Definition text_codec {w} (print : uint w → string) (parse : string → option (uint w)) :
  Codec (uint w) := {|
  marshal x := JStr (print x);
  unmarshal j :=
    match j with JStr s => parse s | _ => None end;
  zero_value := wrap w 0;
|}.

#[export] Instance hash_codec : Codec Hash | 0 :=
  text_codec Hash_Hex Hash_UnmarshalText.
#[export] Instance address_codec : Codec Address | 0 :=
  text_codec Address_MarshalText Address_UnmarshalText.

Context `{!GethTextLaws}.

#[export] Instance hash_codec_laws : CodecLaws Hash.
Proof. exact Hash_text_roundtrip. Qed.
#[export] Instance address_codec_laws : CodecLaws Address.
Proof. exact Address_text_roundtrip. Qed.

#[export] Instance hash_non_null : NonNull Hash.
Proof. done. Qed.
#[export] Instance address_non_null : NonNull Address.
Proof. done. Qed.
End text_codecs.

(** *** A lawful implementation: 0x-prefixed lower-case hex *)

Module HexText.

Definition digit (n : Z) : Ascii.ascii :=
  Ascii.ascii_of_N (Z.to_N (if n <? 10 then 48 + n else 87 + n)).

Definition undigit (c : Ascii.ascii) : option Z :=
  let n := Z.of_N (Ascii.N_of_ascii c) in
  if (48 <=? n) && (n <=? 57) then Some (n - 48)
  else if (97 <=? n) && (n <=? 102) then Some (n - 87)
  else if (65 <=? n) && (n <=? 70) then Some (n - 55)
  else None.

Fixpoint digits (b : bytes) : string :=
  match b with
  | [] => EmptyString
  | x :: b => String (digit (uval x / 16)) (String (digit (uval x mod 16)) (digits b))
  end.

Fixpoint undigits (s : string) : option bytes :=
  match s with
  | EmptyString => Some []
  | String c (String d s) =>
      match undigit c, undigit d, undigits s with
      | Some hi, Some lo, Some b => Some (wrap 8 (16 * hi + lo) :: b)
      | _, _, _ => None
      end
  | _ => None
  end.

Definition encode (b : bytes) : string := "0x" +:+ digits b.

Definition decode (n : nat) (s : string) : option bytes :=
  match s with
  | String c (String x s) =>
      if bool_decide (c = "0"%char ∧ (x = "x"%char ∨ x = "X"%char)) then
        match undigits s with
        | Some b => if bool_decide (length b = n) then Some b else None
        | None => None
        end
      else None
  | _ => None
  end.

Lemma hex_undigit_digit n : 0 <= n < 16 → undigit (digit n) = Some n.
Proof.
  intros Hn.
  apply (bool_decide_eq_true_1 (undigit (digit n) = Some n)).
  revert n Hn. apply (check_range (λ n, bool_decide (undigit (digit n) = Some n))).
  reflexivity.
Qed.

Lemma undigits_digits b : undigits (digits b) = Some b.
Proof.
  induction b as [|x b IH]; [done|]. pose proof (byte_range x).
  cbn [digits undigits]. rewrite !hex_undigit_digit, IH.
  - do 2 f_equal. apply uint_eq. rewrite uval_wrap, <-Z_div_mod_eq_full.
    by apply Z.mod_small.
  - apply Z.mod_pos_bound. lia.
  - split; [apply Z.div_pos; lia|]. apply Z.div_lt_upper_bound; lia.
Qed.

Lemma length_digits b : String.length (digits b) = (2 * length b)%nat.
Proof. induction b as [|x b IH]; simpl; [done | rewrite IH; lia]. Qed.

Lemma hex_decode_encode n b : length b = n → decode n (encode b) = Some b.
Proof.
  intros Hlen. unfold decode, encode.
  change ("0x" +:+ digits b) with (String "0" (String "x" (digits b))). cbv iota.
  rewrite bool_decide_true by auto. by rewrite undigits_digits, bool_decide_true.
Qed.

Definition word_text {w} (n : nat) (x : uint w) : string := encode (be_bytes n (uval x)).
Definition word_parse w (n : nat) (s : string) : option (uint w) :=
  (λ b, wrap w (be_value b)) <$> decode n s.

Lemma word_roundtrip {w} n (x : uint w) :
  modulus w = 256 ^ Z.of_nat n → word_parse w n (word_text n x) = Some x.
Proof.
  intros Hw. unfold word_parse, word_text.
  rewrite hex_decode_encode by apply length_be_bytes. simpl. f_equal.
  apply uint_eq. pose proof (uint_range x).
  rewrite uval_wrap, be_value_be_bytes, <-Hw, (Z.mod_small (uval x)) by lia.
  by apply Z.mod_small.
Qed.

Definition text : GethText := {|
  hexutil_Encode := encode;
  Hash_Hex := word_text 32;
  Hash_UnmarshalText := word_parse 256 32;
  Address_MarshalText := word_text 20;
  Address_UnmarshalText := word_parse 160 20;
|}.

Lemma laws : @GethTextLaws text.
Proof.
  split; simpl.
  - intros b1 b2 Hb. unfold encode in Hb.
    change (String "0" (String "x" (digits b1)) = String "0" (String "x" (digits b2))) in Hb.
    injection Hb as E.
    apply (f_equal undigits) in E. rewrite !undigits_digits in E. congruence.
  - intros. by apply word_roundtrip.
  - intros h. unfold word_text, encode. change (S (S (String.length (digits (be_bytes 32 (uval h))))) = 66%nat).
    rewrite length_digits, length_be_bytes. done.
  - intros. by apply word_roundtrip.
Qed.

End HexText.

(** ** Execution-layer data ([core/types]) *)

(** [types.Log]. *)
Record Log : Type := mkLog {
  lAddress : Address;
  lTopics : list Hash;
  lData : bytes;
  lBlockNumber : u64;
  lTxHash : Hash;
  lTxIndex : u64;
  lBlockHash : Hash;
  lIndex : u64;
  lRemoved : bool;
  lBlockTimestamp : u64;
}.

#[export] Instance Log_eq_dec : EqDecision Log.
Proof. solve_decision. Defined.

(** [json.Marshal] of a log writes every field: equal bytes, equal logs. *)
Class LogJSON : Type := Log_MarshalJSON : Log → json.
Class LogJSONLaws `{LogJSON} : Prop := Log_MarshalJSON_inj : ∀ a b,
  Log_MarshalJSON a = Log_MarshalJSON b → a = b.

(** A lawful form, with numbers for the hex strings. *)
Module NumberLog.
Definition log_json : LogJSON := λ l, JArr [
  JNum (uval (lAddress l)); JArr ((λ t, JNum (uval t)) <$> lTopics l);
  JArr ((λ b, JNum (uval b)) <$> lData l); JNum (uval (lBlockNumber l));
  JNum (uval (lTxHash l)); JNum (uval (lTxIndex l)); JNum (uval (lBlockHash l));
  JNum (uval (lIndex l)); JBool (lRemoved l); JNum (uval (lBlockTimestamp l))].

#[local] Instance num_inj w : Inj (=) (=) (λ x : uint w, JNum (uval x)).
Proof. intros x y [= E]. by apply uint_eq. Qed.

Lemma log_json_laws : @LogJSONLaws log_json.
Proof.
  intros [] []. unfold Log_MarshalJSON, log_json. cbn [lAddress lTopics lData lBlockNumber lTxHash
    lTxIndex lBlockHash lIndex lRemoved lBlockTimestamp].
  intros [=]. f_equal; try (by apply uint_eq); try done; by eapply (inj (fmap _)).
Qed.
End NumberLog.

(** [types.Header]: its number (a big.Int, absent when nil), time, slot and
    hash ([Header.Hash] is computed by go-ethereum). *)
Record Header : Type := mkHeader {
  hNumber : option Z;
  hTime : u64;
  hHash : Hash;
  hSlotNumber : option u64;
}.

#[export] Instance Header_eq_dec : EqDecision Header.
Proof. solve_decision. Defined.

(** [types.Transaction], as its accessors show it. *)
Record Transaction : Type := mkTransaction {
  txHash : Hash;
  txType : u8;
  txChainId : Z;
  txTo : option Address;
  txData : bytes;
  txBlobHashes : list Hash;
}.

#[export] Instance Transaction_eq_dec : EqDecision Transaction.
Proof. solve_decision. Defined.

Definition BlobTxType : u8 := wrap 8 3.   (* types.BlobTxType *)

(** [types.Sender] with [types.LatestSignerForChainID]: recovery of the
    signer from the signature, for a chain. *)
Class Signer : Type := types_Sender : u64 → Transaction → Address + error.

(** [types.Block]: its header always has a number. *)
Record EthBlock : Type := mkEthBlock {
  bkNumber : Z;
  bkHash : Hash;
  bkParentHash : Hash;
  bkTime : u64;
  bkSlotNumber : option u64;
  bkTransactions : list Transaction;
}.

Definition bkHeader (b : EthBlock) : Header :=
  mkHeader (Some (bkNumber b)) (bkTime b) (bkHash b) (bkSlotNumber b).
(** [NumberU64] keeps the low 64 bits. *)
Definition NumberU64 (b : EthBlock) : u64 := wrap 64 (bkNumber b).

(** [types.Receipt]. *)
Record Receipt : Type := mkReceipt {
  rcTxHash : Hash;
  rcBlockHash : Hash;
  rcBlockNumber : option Z;
  rcTransactionIndex : u64;
  rcStatus : u64;
}.

Definition ReceiptStatusSuccessful : u64 := #64 1.

(** [ethereum.FilterQuery] as the program fills it. *)
Record FilterQuery : Type := mkQuery {
  qFrom : u64;
  qTo : u64;
  qAddresses : list Address;
  qTopics : list (list Hash);
}.

(** The contract a log query has with its reply is stated where it is used;
    a node may break it, and the program checks the reply. *)

(** ** Event data ([accounts/abi]) *)

(** A decoded argument: what [v.(common.Address)] and the like assert. *)
Inductive abi_value : Type :=
  | AbiUint (z : Z)
  | AbiAddress (a : Address)
  | AbiBytes (b : bytes).

Class ABI : Type := {
  EventID : string → Hash;
  NameHash : string → Hash;                          (* crypto.Keccak256Hash *)
  abi_Unpack : string → bytes → result (list abi_value);
  abi_Pack : string → list abi_value → result bytes;
}.

(** The types of the arguments an event unpacks to, as its ABI declares them. *)
Definition AddressSet_shape (v : list abi_value) : Prop :=
  ∃ new old, v = [AbiAddress new; AbiAddress old].
Definition TransactionEnqueued_shape (v : list abi_value) : Prop :=
  ∃ chain gas data ts, v = [AbiUint chain; AbiUint gas; AbiBytes data; AbiUint ts]
    ∧ 0 <= chain ∧ 0 <= gas ∧ 0 <= ts.

Class ABILaws `{ABI} : Prop := {
  Unpack_AddressSet b v : abi_Unpack "AddressSet" b = Ok v → AddressSet_shape v;
  Unpack_TransactionEnqueued b v :
    abi_Unpack "TransactionEnqueued" b = Ok v → TransactionEnqueued_shape v;
  Unpack_no_panic n b : abi_Unpack n b ≠ Panic;
  Pack_no_panic n v : abi_Pack n v ≠ Panic;
  EventID_distinct : EventID "AddressSet" ≠ EventID "InboxSenderSet";
}.

(** ** A concrete event codec

    The ABI encoding of the two events: 32-byte words, and a dynamic byte
    string as offset, length and padded content.  Event and name hashes are
    stand-ins for the Keccak values. *)
Module AbiWords.

Definition word (z : Z) : bytes := be_bytes 32 z.
Definition padding (n : nat) : nat := (32 - n mod 32) mod 32.

Definition pack (name : string) (v : list abi_value) : result bytes :=
  match v with
  | [AbiAddress a; AbiAddress b] => Ok (word (uval a) ++ word (uval b))
  | [AbiUint c; AbiUint g; AbiBytes d; AbiUint t] =>
      Ok (word c ++ word g ++ word 128 ++ word t ++ word (Z.of_nat (length d)) ++
          d ++ replicate (padding (length d)) (wrap 8 0))
  | _ => Err (plain "abi")
  end.

Definition words_at (b : bytes) (i : nat) : Z := be_value (take 32 (drop (32 * i) b)).

Definition unpack (name : string) (b : bytes) : result (list abi_value) :=
  if bool_decide (name = "AddressSet") then
    if (length b =? 64)%nat && (words_at b 0 <? 2 ^ 160) && (words_at b 1 <? 2 ^ 160)
    then Ok [AbiAddress (wrap 160 (words_at b 0)); AbiAddress (wrap 160 (words_at b 1))]
    else Err (plain "abi")
  else if bool_decide (name = "TransactionEnqueued") then
    let n := words_at b 4 in
    if (160 <=? length b)%nat && (n <=? Z.of_nat (length b) - 160)
    then Ok [AbiUint (words_at b 0); AbiUint (words_at b 1);
             AbiBytes (take (Z.to_nat n) (drop 160 b)); AbiUint (words_at b 3)]
    else Err (plain "abi")
  else Err (plain "abi").

Definition abi : ABI := {|
  EventID s := wrap 256 (2 ^ 200 + Z.of_nat (String.length s));
  NameHash s := wrap 256 (2 ^ 201 + Z.of_nat (String.length s));
  abi_Unpack := unpack;
  abi_Pack := pack;
|}.

Lemma abi_laws : @ABILaws abi.
Proof.
  split; cbn [abi_Unpack abi_Pack abi].
  - intros b v Hu. unfold unpack in Hu. rewrite bool_decide_true in Hu by done.
    destruct (_ && _); [|done]. injection Hu as <-. by eexists _, _.
  - intros b v Hu. unfold unpack in Hu. rewrite bool_decide_false in Hu by done.
    rewrite bool_decide_true in Hu by done. destruct (_ && _); [|done]. injection Hu as <-.
    eexists _, _, _, _. split_and!; [done|..]; apply be_value_range.
  - intros n b. unfold unpack. repeat case_match; done.
  - intros n v. unfold pack. repeat case_match; done.
  - intros E%(f_equal uval). by vm_compute in E.
Qed.

End AbiWords.
