(* ===== verification/GoMap.v ===== *)
(** * Go maps

    A Go map is a [gmap]; a map that can be nil is an [option] of one.  The
    order in which [range] visits a map is unspecified, so it is an interface.
    [encoding/json] writes a map as an object whose keys are the keys' texts,
    in the order of the texts, and reads a nil map as null. *)
From S2P Require Import Prelude Word Strconv Json Geth.

(** ** range *)

Class MapRange : Type :=
  map_range : ∀ {K V : Type} `{Countable K}, gmap K V → list (K * V).

Class MapRangeLaws `{MapRange} : Prop :=
  map_range_Permutation : ∀ {K V : Type} `{Countable K} (m : gmap K V), map_range m ≡ₚ map_to_list m.

Definition map_keys `{MapRange} {K V} `{Countable K} (m : gmap K V) : list K := (map_range m).*1.

(** A lawful order. *)
Definition sorted_range : MapRange := λ K V _ _ m, map_to_list m.
Lemma sorted_range_laws : @MapRangeLaws sorted_range.
Proof. by intros K V ?? m. Qed.

Section ranges.
Context `{MapRangeLaws} {K V : Type} `{Countable K}.
Implicit Types (m : gmap K V).

Lemma elem_of_map_range m k v : (k, v) ∈ map_range m ↔ m !! k = Some v.
Proof. rewrite map_range_Permutation. apply elem_of_map_to_list. Qed.

Lemma elem_of_map_keys m k : k ∈ map_keys m ↔ is_Some (m !! k).
Proof.
  unfold map_keys. rewrite list_elem_of_fmap. split.
  - intros ([k' v] & -> & Hv%elem_of_map_range). eauto.
  - intros [v Hv%elem_of_map_range]. by exists (k, v).
Qed.

Lemma NoDup_map_range m : NoDup (map_range m).*1.
Proof. rewrite map_range_Permutation. apply NoDup_fst_map_to_list. Qed.

(** A boolean test of all entries does not see the order. *)
Lemma forallb_map_range m (P : K * V → bool) :
  forallb P (map_range m) = true ↔ map_Forall (λ k v, P (k, v) = true) m.
Proof.
  rewrite forallb_forall. split.
  - intros Hall k v Hk. apply Hall, list_elem_of_In, elem_of_map_range, Hk.
  - intros Hall [k v] Hin%list_elem_of_In%elem_of_map_range. by apply (Hall k v).
Qed.
End ranges.

(** ** Maps as JSON objects *)

(** The text of a key ([strconv.FormatUint], or [MarshalText]). *)
Class KeyText (K : Type) : Type := { key_text : K → string; key_parse : string → option K }.
Class KeyTextLaws (K : Type) `{KeyText K} : Prop :=
  key_parse_text : ∀ k, key_parse (key_text k) = Some k.

#[export] Instance uint64_key : KeyText u64 | 10 := {|
  key_text := FormatUint;
  key_parse s := match ParseUint s with Ok n => Some n | _ => None end;
|}.
#[export] Instance uint64_key_laws : KeyTextLaws u64.
Proof. intros k. simpl. by rewrite ParseUint_Format. Qed.

#[export] Instance address_key `{GethText} : KeyText Address | 0 := {|
  key_text := Address_MarshalText;
  key_parse := Address_UnmarshalText;
|}.
#[export] Instance address_key_laws `{GethTextLaws} : KeyTextLaws Address.
Proof. exact Address_text_roundtrip. Qed.

Section map_codec.
Context {K V : Type} `{Countable K, !KeyText K, !Codec V}.

(** [strings.Compare] on the texts of the keys. *)
Definition key_le (a b : K * V) : Prop :=
  bytes_lt (bytes_of_string (key_text b.1)) (bytes_of_string (key_text a.1)) = false.
#[local] Instance key_le_dec : RelDecision key_le.
Proof. intros a b. unfold key_le. apply _. Defined.

Definition read_entry (e : string * json) : option (K * V) :=
  k ← key_parse e.1; v ← unmarshal e.2; Some (k, v).

(** A later entry replaces an earlier one with its key. *)
#[export] Instance map_codec : Codec (option (gmap K V)) := {|
  marshal o :=
    match o with
    | None => JNull
    | Some m => JObj ((λ e, (key_text e.1, marshal e.2)) <$> merge_sort key_le (map_to_list m))
    end;
  unmarshal j :=
    match j with
    | JNull => Some None
    | JObj l => es ← mapM read_entry l; Some (Some (list_to_map (reverse es)))
    | _ => None
    end;
  zero_value := None;
|}.

Context `{!KeyTextLaws K, !CodecLaws V}.

Lemma read_entries (l : list (K * V)) :
  mapM read_entry ((λ e, (key_text e.1, marshal e.2)) <$> l) = Some l.
Proof.
  induction l as [|[k v] l IH]; [done|]. rewrite fmap_cons. cbn [mapM].
  assert (read_entry (key_text k, marshal v) = Some (k, v)) as Hr.
  { unfold read_entry. cbn [fst snd]. pose proof (key_parse_text k) as Hk. rewrite Hk. simpl.
    by rewrite unmarshal_marshal. }
  cbn [fst snd]. rewrite Hr. simpl. by rewrite IH.
Qed.

#[export] Instance map_codec_laws : CodecLaws (option (gmap K V)).
Proof.
  intros [m|]; [|done]. unfold unmarshal, marshal. simpl. rewrite read_entries. simpl. do 2 f_equal.
  assert (reverse (merge_sort key_le (map_to_list m)) ≡ₚ map_to_list m) as Hp
    by by rewrite reverse_Permutation, merge_sort_Permutation.
  rewrite <-(list_to_map_to_list m) at 2. apply list_to_map_proper; [|done].
  rewrite Hp. apply NoDup_fst_map_to_list.
Qed.

End map_codec.
