(* ===== verification/Pebble.v ===== *)
(** * The key-value store interface (cockroachdb/pebble)

    Pebble is a third-party package: the store is written against these
    classes, with its documented behaviour as laws.  Every operation may fail
    with an I/O error; the laws say what a successful one did.  [Reliable]
    says that no I/O error happens: what the store does on its own account is
    stated under it.  [MemKV] implements all of it in memory. *)
From S2P Require Import Prelude Word Json.

(** A stored value: the bytes [json.Marshal] printed for a document, or any
    other bytes (the empty values of the expiry keys, or damage). *)
Inductive raw : Type :=
  | RJson (j : json)
  | RBytes (b : bytes).

#[export] Instance raw_eq_dec : EqDecision raw.
Proof. solve_decision. Defined.

(** [json.Unmarshal]. *)
Definition json_Unmarshal {A} `{Codec A} (r : raw) : option A :=
  match r with RJson j => unmarshal j | RBytes _ => None end.

Definition json_Marshal {A} `{Codec A} (a : A) : raw := RJson (marshal a).

Lemma json_Unmarshal_Marshal `{CodecLaws A} (a : A) :
  json_Unmarshal (json_Marshal a) = Some a.
Proof. apply unmarshal_marshal. Qed.

Lemma json_Marshal_inj `{CodecLaws A} (a b : A) :
  json_Marshal a = json_Marshal b ↔ a = b.
Proof.
  split; [|by intros ->]. intros [= Hm]. by apply marshal_inj.
Qed.

#[global] Arguments json_Unmarshal : simpl never.
#[global] Arguments json_Marshal : simpl never.

(** [type getter interface]: what the database and a batch have in common.
    [Get] fails with [ErrNotFound] on an absent key. *)
Class Getter (G : Type) : Type := {
  Get : G → bytes → result raw;
}.

Class Pebble (D B : Type) : Type := {
  db_getter :: Getter D;
  batch_getter :: Getter B;
  NewIndexedBatch : D → B;
  batch_Set : B → bytes → raw → result B;
  batch_Delete : B → bytes → result B;
  (* the keys an iterator over [lower, upper) visits, in order *)
  batch_Iter : B → bytes → bytes → result (list bytes);
  db_Iter : D → option (bytes * bytes) → result (list bytes);
  db_Set : D → bytes → raw → result D;
  batch_Commit : D → B → result D;
}.

(** A batch or database shows a map from keys to values. *)
Class GetterLaws (G : Type) `{Getter G} : Type := {
  contents : G → gmap bytes raw;
  Get_Ok g k v : Get g k = Ok v → contents g !! k = Some v;
  Get_NotFound g k e : Get g k = Err e → errors_Is e ErrNotFound = true →
    contents g !! k = None;
}.

(** The keys of [m] in the half-open interval, in ascending order, each once. *)
Definition keys_in (m : gmap bytes raw) (lower upper : bytes) (l : list bytes) : Prop :=
  StronglySorted (λ a b, bytes_lt a b = true) l ∧
  ∀ k, k ∈ l ↔ is_Some (m !! k) ∧ bytes_lt k lower = false ∧ bytes_lt k upper = true.

Class PebbleLaws (D B : Type) `{Pebble D B} : Type := {
  db_laws :: GetterLaws D;
  batch_laws :: GetterLaws B;
  NewIndexedBatch_contents d : contents (NewIndexedBatch d) = contents d;
  batch_Set_Ok b k v b' :
    batch_Set b k v = Ok b' → contents b' = <[k := v]> (contents b);
  batch_Delete_Ok b k b' :
    batch_Delete b k = Ok b' → contents b' = delete k (contents b);
  batch_Iter_Ok b lo hi l : batch_Iter b lo hi = Ok l → keys_in (contents b) lo hi l;
  db_Iter_range d lo hi l : db_Iter d (Some (lo, hi)) = Ok l → keys_in (contents d) lo hi l;
  db_Iter_all d l : db_Iter d None = Ok l → ∀ k, k ∈ l ↔ is_Some (contents d !! k);
  db_Set_Ok d k v d' : db_Set d k v = Ok d' → contents d' = <[k := v]> (contents d);
  (* a committed batch replaces the database's contents at once; [d] has not
     been written since the batch was opened (the store's lock) *)
  batch_Commit_Ok d b d' : batch_Commit d b = Ok d' → contents d' = contents b;
}.

(** No I/O errors: every operation does what it is asked. *)
Class Reliable (D B : Type) `{PebbleLaws D B} : Prop := {
  db_Get_total (d : D) k :
    match contents d !! k with
    | Some v => Get d k = Ok v
    | None => ∃ e, Get d k = Err e ∧ errors_Is e ErrNotFound = true
    end;
  batch_Get_total (b : B) k :
    match contents b !! k with
    | Some v => Get b k = Ok v
    | None => ∃ e, Get b k = Err e ∧ errors_Is e ErrNotFound = true
    end;
  batch_Set_total b k v : is_ok (batch_Set b k v) = true;
  batch_Delete_total b k : is_ok (batch_Delete b k) = true;
  batch_Iter_total b lo hi : is_ok (batch_Iter b lo hi) = true;
  db_Iter_total d r : is_ok (db_Iter d r) = true;
  db_Set_total d k v : is_ok (db_Set d k v) = true;
  batch_Commit_total d b : is_ok (batch_Commit d b) = true;
}.

(** An open database reports failures as errors (the store's [closed] flag
    keeps it from using a closed one). *)
Class NoPanic (D B : Type) `{Pebble D B} : Prop := {
  db_Get_no_panic (d : D) k : Get d k ≠ Panic;
  batch_Get_no_panic (b : B) k : Get b k ≠ Panic;
  batch_Set_no_panic b k v : batch_Set b k v ≠ Panic;
  batch_Delete_no_panic b k : batch_Delete b k ≠ Panic;
  batch_Iter_no_panic b lo hi : batch_Iter b lo hi ≠ Panic;
  db_Iter_no_panic d r : db_Iter d r ≠ Panic;
  db_Set_no_panic d k v : db_Set d k v ≠ Panic;
  batch_Commit_no_panic d b : batch_Commit d b ≠ Panic;
}.

(** ** Reading a key *)

(** store.readValue: an absent key is nil. *)
Section readValue.
Context {G : Type} `{Getter G}.

Definition readValue (g : G) (key : bytes) : result (option raw) :=
  match Get g key with
  | Ok v => Ok (Some v)
  | Err e => if errors_Is e ErrNotFound then Ok None else Err e
  | Panic => Panic
  end.

Lemma readValue_Ok `{!GetterLaws G} g k v :
  readValue g k = Ok v → contents g !! k = v.
Proof.
  unfold readValue. destruct (Get g k) as [w|e|] eqn:E; intros Hv; simplify_eq.
  - by apply Get_Ok.
  - destruct (errors_Is e ErrNotFound) eqn:En; simplify_eq.
    by apply Get_NotFound with e.
Qed.
End readValue.

Section reliable_reads.
Context {D B : Type} `{Reliable D B}.

Lemma readValue_db (d : D) k : readValue d k = Ok (contents d !! k).
Proof.
  unfold readValue. pose proof (db_Get_total d k) as Ht.
  destruct (contents d !! k) as [v|]; [by rewrite Ht|].
  destruct Ht as (e & -> & ->). done.
Qed.

Lemma readValue_batch (b : B) k : readValue b k = Ok (contents b !! k).
Proof.
  unfold readValue. pose proof (batch_Get_total b k) as Ht.
  destruct (contents b !! k) as [v|]; [by rewrite Ht|].
  destruct Ht as (e & -> & ->). done.
Qed.

Lemma batch_Set_eq (b : B) k v :
  ∃ b', batch_Set b k v = Ok b' ∧ contents b' = <[k := v]> (contents b).
Proof.
  pose proof (batch_Set_total b k v) as Ht.
  destruct (batch_Set b k v) as [b'| |] eqn:E; try done.
  exists b'. split; [done | by apply batch_Set_Ok].
Qed.

Lemma batch_Commit_eq (d : D) (b : B) :
  ∃ d', batch_Commit d b = Ok d' ∧ contents d' = contents b.
Proof.
  pose proof (batch_Commit_total d b) as Ht.
  destruct (batch_Commit d b) as [d'| |] eqn:E; try done.
  exists d'. split; [done | by eapply batch_Commit_Ok].
Qed.
End reliable_reads.

(** ** An in-memory store *)

Module MemKV.

Definition bytes_le (a b : bytes) : Prop := bytes_lt b a = false.

#[export] Instance bytes_le_dec a b : Decision (bytes_le a b).
Proof. unfold bytes_le. apply _. Defined.

#[export] Instance bytes_le_trans : Transitive bytes_le.
Proof.
  intros a b c Hab Hbc. unfold bytes_le in *.
  destruct (bytes_lt c a) eqn:E; [|done]. exfalso.
  destruct (bytes_lt a b) eqn:E2.
  - rewrite (bytes_lt_trans c a b) in Hbc; done.
  - rewrite (bytes_lt_total a b E2 Hab) in E. congruence.
Qed.

#[export] Instance bytes_le_total : Total bytes_le.
Proof.
  intros a b. unfold bytes_le. destruct (bytes_lt b a) eqn:E; [right|by left].
  destruct (bytes_lt a b) eqn:E2; [|done].
  by rewrite <-(bytes_lt_irrefl a), (bytes_lt_trans a b a).
Qed.

Record db : Type := Db { db_map : gmap bytes raw }.
Record batch : Type := Batch { batch_map : gmap bytes raw }.

Definition not_found : error := Error [ErrNotFound] "pebble: not found".

Definition get (m : gmap bytes raw) (k : bytes) : result raw :=
  match m !! k with Some v => Ok v | None => Err not_found end.

Definition sorted_keys (m : gmap bytes raw) : list bytes :=
  merge_sort bytes_le (elements (dom m)).

Definition range (m : gmap bytes raw) (lo hi : bytes) : list bytes :=
  filter (λ k, bytes_lt k lo = false ∧ bytes_lt k hi = true) (sorted_keys m).

Definition db_get : Getter db := {| Get d := get (db_map d) |}.
Definition batch_get : Getter batch := {| Get b := get (batch_map b) |}.

Definition pebble : Pebble db batch := {|
  db_getter := db_get;
  batch_getter := batch_get;
  NewIndexedBatch d := Batch (db_map d);
  batch_Set b k v := Ok (Batch (<[k := v]> (batch_map b)));
  batch_Delete b k := Ok (Batch (delete k (batch_map b)));
  batch_Iter b lo hi := Ok (range (batch_map b) lo hi);
  db_Iter d r :=
    match r with
    | Some (lo, hi) => Ok (range (db_map d) lo hi)
    | None => Ok (sorted_keys (db_map d))
    end;
  db_Set d k v := Ok (Db (<[k := v]> (db_map d)));
  batch_Commit _ b := Ok (Db (batch_map b));
|}.

Lemma elem_of_sorted_keys m k : k ∈ sorted_keys m ↔ is_Some (m !! k).
Proof.
  unfold sorted_keys. rewrite merge_sort_Permutation, elem_of_elements.
  apply elem_of_dom.
Qed.

Lemma sorted_keys_sorted m :
  StronglySorted (λ a b, bytes_lt a b = true) (sorted_keys m).
Proof.
  pose proof (StronglySorted_merge_sort bytes_le (elements (dom m))) as Hs.
  assert (NoDup (sorted_keys m)) as Hd.
  { unfold sorted_keys. rewrite merge_sort_Permutation. apply NoDup_elements. }
  fold (sorted_keys m) in Hs. revert Hd.
  induction Hs as [|k l Hs IH Hall]; [constructor|].
  intros [Hk Hd]%NoDup_cons. constructor; [by apply IH|].
  rewrite Forall_forall in Hall |- *. intros k' Hk'.
  specialize (Hall k' Hk'). destruct (bytes_lt k k') eqn:E; [done|].
  by rewrite (bytes_lt_total k k' E Hall) in Hk.
Qed.

Lemma range_keys m lo hi : keys_in m lo hi (range m lo hi).
Proof.
  split.
  - unfold range. pose proof (sorted_keys_sorted m) as Hs.
    induction Hs as [|k l Hs IH Hall]; [constructor|].
    rewrite filter_cons. case_decide; [|done]. constructor; [done|].
    apply Forall_forall. intros k' [_ Hk']%list_elem_of_filter.
    rewrite Forall_forall in Hall. auto.
  - intros k. unfold range. rewrite list_elem_of_filter, elem_of_sorted_keys. tauto.
Qed.

Lemma get_Ok m k v : get m k = Ok v → m !! k = Some v.
Proof. unfold get. destruct (m !! k); naive_solver. Qed.

Lemma get_NotFound m k e : get m k = Err e → m !! k = None.
Proof. unfold get. by destruct (m !! k). Qed.

Lemma get_total m k :
  match m !! k with
  | Some v => get m k = Ok v
  | None => ∃ e, get m k = Err e ∧ errors_Is e ErrNotFound = true
  end.
Proof. unfold get. destruct (m !! k); [done|]. by eexists. Qed.

Definition db_laws : @GetterLaws db db_get.
Proof.
  refine {| contents := db_map : db → _ |}; simpl; intros g k *;
    [apply get_Ok | by intros ?%get_NotFound].
Defined.

Definition batch_laws : @GetterLaws batch batch_get.
Proof.
  refine {| contents := batch_map : batch → _ |}; simpl; intros g k *;
    [apply get_Ok | by intros ?%get_NotFound].
Defined.

Definition laws : @PebbleLaws _ _ pebble.
Proof.
  refine (Build_PebbleLaws _ _ pebble db_laws batch_laws _ _ _ _ _ _ _ _);
    simpl; intros; simplify_eq/=; try done.
  - apply range_keys.
  - apply range_keys.
  - apply elem_of_sorted_keys.
Defined.

Lemma reliable : @Reliable _ _ pebble laws.
Proof.
  split; try done; simpl.
  - intros. apply get_total.
  - intros. apply get_total.
  - by intros d [[lo hi]|].
Qed.

Lemma no_panic : @NoPanic _ _ pebble.
Proof.
  split; try done; simpl.
  - intros [m] k. cbn. unfold get. by destruct (m !! k).
  - intros [m] k. cbn. unfold get. by destruct (m !! k).
  - by intros d [[lo hi]|].
Qed.

End MemKV.
