(* ===== verification/StoreTypes.v ===== *)
(** * Stored data (internal/store/types.go, internal/store/blob_types.go)

    The records the service keeps in its database, with their JSON form.
    Struct fields keep the order of the Go declarations; a field without a
    tag is written under its Go name. *)
From S2P Require Import Prelude Word Json Geth Pebble.

(** A frame's ID is a [[16]byte] array, kept as the number it encodes. *)
Notation FrameID := (uint 128).

Section types.
Context `{GethText}.

(** ** types.go *)

Definition identityKey : bytes := bytes_of_string "meta/identity".
Definition stateKey : bytes := bytes_of_string "meta/state".

Record Identity : Type := mkIdentity {
  iVersion : int;
  iL1 : u64; iL2 : u64; iStart : u64;
  iManager : Address;
}.

#[export] Instance Identity_eq_dec : EqDecision Identity.
Proof. solve_decision. Defined.

#[export] Instance Identity_codec : Codec Identity := {|
  marshal i := JObj [
    ("Version", marshal (iVersion i)); ("L1", marshal (iL1 i));
    ("L2", marshal (iL2 i)); ("Start", marshal (iStart i));
    ("Manager", marshal (iManager i))];
  unmarshal j :=
    match j with
    | JNull => Some (mkIdentity (Int 0 eq_refl) (#64 0) (#64 0) (#64 0) zero_address)
    | JObj l =>
        v ← field "Version" l; l1 ← field "L1" l; l2 ← field "L2" l;
        s ← field "Start" l; m ← field "Manager" l;
        Some (mkIdentity v l1 l2 s m)
    | _ => None
    end;
  zero_value := mkIdentity (Int 0 eq_refl) (#64 0) (#64 0) (#64 0) zero_address;
|}.

(** The deposit checkpoint. *)
Record State : Type := mkState {
  sHeight : option u64;
  sHash : Hash;
  sCTC : Address;
  sLatest : option u64;
}.

#[export] Instance State_eq_dec : EqDecision State.
Proof. solve_decision. Defined.

Definition zero_State : State := mkState None zero_hash zero_address None.

#[export] Instance State_codec : Codec State := {|
  marshal s := JObj [
    ("Height", marshal (sHeight s)); ("Hash", marshal (sHash s));
    ("CTC", marshal (sCTC s)); ("Latest", marshal (sLatest s))];
  unmarshal j :=
    match j with
    | JNull => Some zero_State
    | JObj l =>
        h ← field "Height" l; x ← field "Hash" l; c ← field "CTC" l;
        n ← field "Latest" l;
        Some (mkState h x c n)
    | _ => None
    end;
  zero_value := zero_State;
|}.

Record Enqueue : Type := mkEnqueue {
  eIndex : u64;
  eTarget : Address;
  eData : string;
  eGasLimit : string;
  eOrigin : Address;
  eBlockNumber : u64;
  eTimestamp : u64;
  eCTCIndex : option u64;
}.

#[export] Instance Enqueue_eq_dec : EqDecision Enqueue.
Proof. solve_decision. Defined.

(** The embedded Enqueue's fields are promoted into the document. *)
Record DepositRecord : Type := mkRecord {
  rEnqueue : Enqueue;
  rBlockHash : Hash;
  rTxHash : Hash;
  rLogIndex : u64;
}.

#[export] Instance DepositRecord_eq_dec : EqDecision DepositRecord.
Proof. solve_decision. Defined.

Definition rIndex (r : DepositRecord) : u64 := eIndex (rEnqueue r).

Definition zero_Enqueue : Enqueue :=
  mkEnqueue (#64 0) zero_address "" "" zero_address (#64 0) (#64 0) None.
Definition zero_Record : DepositRecord :=
  mkRecord zero_Enqueue zero_hash zero_hash (#64 0).

#[export] Instance DepositRecord_codec : Codec DepositRecord := {|
  marshal r :=
    let e := rEnqueue r in
    JObj [
      ("index", marshal (eIndex e)); ("target", marshal (eTarget e));
      ("data", marshal (eData e)); ("gasLimit", marshal (eGasLimit e));
      ("origin", marshal (eOrigin e)); ("blockNumber", marshal (eBlockNumber e));
      ("timestamp", marshal (eTimestamp e)); ("ctcIndex", marshal (eCTCIndex e));
      ("BlockHash", marshal (rBlockHash r)); ("TxHash", marshal (rTxHash r));
      ("LogIndex", marshal (rLogIndex r))];
  unmarshal j :=
    match j with
    | JNull => Some zero_Record
    | JObj l =>
        i ← field "index" l; t ← field "target" l; d ← field "data" l;
        g ← field "gasLimit" l; o ← field "origin" l; b ← field "blockNumber" l;
        ts ← field "timestamp" l; c ← field "ctcIndex" l;
        bh ← field "BlockHash" l; th ← field "TxHash" l; li ← field "LogIndex" l;
        Some (mkRecord (mkEnqueue i t d g o b ts c) bh th li)
    | _ => None
    end;
  zero_value := zero_Record;
|}.

(** ** blob_types.go *)

Definition BlobRetentionSeconds : u64 := wrap 64 (7 * 24 * 60 * 60).

Record BlobIdentity : Type := mkBlobIdentity {
  biVersion : int;
  biInbox : Address; biBatchSender : Address; biBlobSender : Address;
  biStart : u64;
}.

#[export] Instance BlobIdentity_eq_dec : EqDecision BlobIdentity.
Proof. solve_decision. Defined.

Definition zero_BlobIdentity : BlobIdentity :=
  mkBlobIdentity (Int 0 eq_refl) zero_address zero_address zero_address (#64 0).

#[export] Instance BlobIdentity_codec : Codec BlobIdentity := {|
  marshal i := JObj [
    ("Version", marshal (biVersion i)); ("Inbox", marshal (biInbox i));
    ("BatchSender", marshal (biBatchSender i)); ("BlobSender", marshal (biBlobSender i));
    ("Start", marshal (biStart i))];
  unmarshal j :=
    match j with
    | JNull => Some zero_BlobIdentity
    | JObj l =>
        v ← field "Version" l; i ← field "Inbox" l; b ← field "BatchSender" l;
        s ← field "BlobSender" l; n ← field "Start" l;
        Some (mkBlobIdentity v i b s n)
    | _ => None
    end;
  zero_value := zero_BlobIdentity;
|}.

(** The blob checkpoint; [bsAuth] is the raw authorization document. *)
Record BlobState : Type := mkBlobState {
  bsRevision : u64;
  bsHeight : option u64;
  bsHash : Hash;
  bsCutoff : u64;
  bsRetentionHeight : option u64;
  bsRetentionHash : Hash;
  bsLatest : option u64;
  bsAuth : json;
}.

#[export] Instance BlobState_eq_dec : EqDecision BlobState.
Proof. solve_decision. Defined.

Definition zero_BlobState : BlobState :=
  mkBlobState (#64 0) None zero_hash (#64 0) None zero_hash None JNull.

#[export] Instance BlobState_codec : Codec BlobState := {|
  marshal s := JObj [
    ("Revision", marshal (bsRevision s)); ("Height", marshal (bsHeight s));
    ("Hash", marshal (bsHash s)); ("Cutoff", marshal (bsCutoff s));
    ("RetentionHeight", marshal (bsRetentionHeight s));
    ("RetentionHash", marshal (bsRetentionHash s));
    ("Latest", marshal (bsLatest s)); ("Auth", marshal (bsAuth s))];
  unmarshal j :=
    match j with
    | JNull => Some zero_BlobState
    | JObj l =>
        r ← field "Revision" l; h ← field "Height" l; x ← field "Hash" l;
        c ← field "Cutoff" l; rh ← field "RetentionHeight" l;
        rx ← field "RetentionHash" l; n ← field "Latest" l; a ← field "Auth" l;
        Some (mkBlobState r h x c rh rx n a)
    | _ => None
    end;
  zero_value := zero_BlobState;
|}.

Record Frame : Type := mkFrame {
  fID : FrameID;
  fNumber : u16;
  fLast : bool;
  fData : bytes;
}.

#[export] Instance Frame_eq_dec : EqDecision Frame.
Proof. solve_decision. Defined.

Definition zero_Frame : Frame := mkFrame (wrap 128 0) (wrap 16 0) false [].

#[local] Instance FrameID_codec : Codec FrameID := byte_array_codec 128 16.
#[local] Instance FrameData_codec : Codec bytes := bytes_codec.

#[export] Instance Frame_codec : Codec Frame := {|
  marshal f := JObj [
    ("ID", marshal (fID f)); ("Number", marshal (fNumber f));
    ("Last", marshal (fLast f)); ("Data", marshal (fData f))];
  unmarshal j :=
    match j with
    | JNull => Some zero_Frame
    | JObj l =>
        i ← field "ID" l; n ← field "Number" l; e ← field "Last" l;
        d ← field "Data" l;
        Some (mkFrame i n e d)
    | _ => None
    end;
  zero_value := zero_Frame;
|}.

Record BlobTransaction : Type := mkBlobTransaction {
  btHash : Hash; btBlockHash : Hash;
  btHeight : u64; btTimestamp : u64;
  btTxIndex : u64;
  btMissing : bool;
  btFrames : list Frame;
}.

#[export] Instance BlobTransaction_eq_dec : EqDecision BlobTransaction.
Proof. solve_decision. Defined.

Definition zero_BlobTransaction : BlobTransaction :=
  mkBlobTransaction zero_hash zero_hash (#64 0) (#64 0) (#64 0) false [].

#[export] Instance BlobTransaction_codec : Codec BlobTransaction := {|
  marshal t := JObj [
    ("Hash", marshal (btHash t)); ("BlockHash", marshal (btBlockHash t));
    ("Height", marshal (btHeight t)); ("Timestamp", marshal (btTimestamp t));
    ("TxIndex", marshal (btTxIndex t)); ("Missing", marshal (btMissing t));
    ("Frames", marshal (btFrames t))];
  unmarshal j :=
    match j with
    | JNull => Some zero_BlobTransaction
    | JObj l =>
        h ← field "Hash" l; b ← field "BlockHash" l; n ← field "Height" l;
        t ← field "Timestamp" l; i ← field "TxIndex" l; m ← field "Missing" l;
        f ← field "Frames" l;
        Some (mkBlobTransaction h b n t i m f)
    | _ => None
    end;
  zero_value := zero_BlobTransaction;
|}.

Record Signature : Type := mkSignature { sigV : u64; sigR : string; sigS : string }.

#[export] Instance Signature_eq_dec : EqDecision Signature.
Proof. solve_decision. Defined.

Definition zero_Signature : Signature := mkSignature (#64 0) "" "".

#[export] Instance Signature_codec : Codec Signature := {|
  marshal s := JObj [("v", marshal (sigV s)); ("r", marshal (sigR s)); ("s", marshal (sigS s))];
  unmarshal j :=
    match j with
    | JNull => Some zero_Signature
    | JObj l => v ← field "v" l; r ← field "r" l; s ← field "s" l; Some (mkSignature v r s)
    | _ => None
    end;
  zero_value := zero_Signature;
|}.

Record DecodedTransaction : Type := mkDecoded {
  dNonce : string; dGasPrice : string; dGasLimit : string; dValue : string;
  dTarget : option Address;
  dData : string;
  dSig : Signature;
}.

#[export] Instance DecodedTransaction_eq_dec : EqDecision DecodedTransaction.
Proof. solve_decision. Defined.

Definition zero_Decoded : DecodedTransaction :=
  mkDecoded "" "" "" "" None "" zero_Signature.

#[export] Instance DecodedTransaction_codec : Codec DecodedTransaction := {|
  marshal d := JObj [
    ("nonce", marshal (dNonce d)); ("gasPrice", marshal (dGasPrice d));
    ("gasLimit", marshal (dGasLimit d)); ("value", marshal (dValue d));
    ("target", marshal (dTarget d)); ("data", marshal (dData d));
    ("sig", marshal (dSig d))];
  unmarshal j :=
    match j with
    | JNull => Some zero_Decoded
    | JObj l =>
        n ← field "nonce" l; p ← field "gasPrice" l; g ← field "gasLimit" l;
        v ← field "value" l; t ← field "target" l; d ← field "data" l; s ← field "sig" l;
        Some (mkDecoded n p g v t d s)
    | _ => None
    end;
  zero_value := zero_Decoded;
|}.

Record BlockTransaction : Type := mkBlockTx {
  xIndex : u64;
  xBatchIndex : u64;
  xBlockNumber : u64;
  xTimestamp : u64;
  xGasLimit : string;
  xTarget : Address;
  xOrigin : Address;
  xData : string;
  xQueueOrigin : string;
  xValue : string;
  xQueueIndex : option u64;
  xDecoded : option DecodedTransaction;
  xConfirmed : bool;
  xSeqSign : option string;
}.

#[export] Instance BlockTransaction_eq_dec : EqDecision BlockTransaction.
Proof. solve_decision. Defined.

Definition zero_BlockTx : BlockTransaction :=
  mkBlockTx (#64 0) (#64 0) (#64 0) (#64 0) "" zero_address zero_address "" "" ""
    None None false None.

#[export] Instance BlockTransaction_codec : Codec BlockTransaction := {|
  marshal x := JObj [
    ("index", marshal (xIndex x)); ("batchIndex", marshal (xBatchIndex x));
    ("blockNumber", marshal (xBlockNumber x)); ("timestamp", marshal (xTimestamp x));
    ("gasLimit", marshal (xGasLimit x)); ("target", marshal (xTarget x));
    ("origin", marshal (xOrigin x)); ("data", marshal (xData x));
    ("queueOrigin", marshal (xQueueOrigin x)); ("value", marshal (xValue x));
    ("queueIndex", marshal (xQueueIndex x)); ("decoded", marshal (xDecoded x));
    ("confirmed", marshal (xConfirmed x)); ("seqSign", marshal (xSeqSign x))];
  unmarshal j :=
    match j with
    | JNull => Some zero_BlockTx
    | JObj l =>
        i ← field "index" l; bi ← field "batchIndex" l; bn ← field "blockNumber" l;
        ts ← field "timestamp" l; g ← field "gasLimit" l; t ← field "target" l;
        o ← field "origin" l; d ← field "data" l; qo ← field "queueOrigin" l;
        v ← field "value" l; qi ← field "queueIndex" l; de ← field "decoded" l;
        c ← field "confirmed" l; s ← field "seqSign" l;
        Some (mkBlockTx i bi bn ts g t o d qo v qi de c s)
    | _ => None
    end;
  zero_value := zero_BlockTx;
|}.

Record Block : Type := mkBlock {
  bIndex : u64;
  bBatchIndex : u64;
  bTimestamp : u64;
  bExtraData : string;
  bTransactions : list BlockTransaction;
  bConfirmed : bool;
}.

#[export] Instance Block_eq_dec : EqDecision Block.
Proof. solve_decision. Defined.

Definition zero_Block : Block := mkBlock (#64 0) (#64 0) (#64 0) "" [] false.

(** The transactions of a block are an allocated slice. *)
#[local] Instance BlockTransactions_codec : Codec (list BlockTransaction) := slice_codec.

#[export] Instance Block_codec : Codec Block := {|
  marshal b := JObj [
    ("index", marshal (bIndex b)); ("batchIndex", marshal (bBatchIndex b));
    ("timestamp", marshal (bTimestamp b)); ("extraData", marshal (bExtraData b));
    ("transactions", marshal (bTransactions b)); ("confirmed", marshal (bConfirmed b))];
  unmarshal j :=
    match j with
    | JNull => Some zero_Block
    | JObj l =>
        i ← field "index" l; bi ← field "batchIndex" l; ts ← field "timestamp" l;
        x ← field "extraData" l; t ← field "transactions" l; c ← field "confirmed" l;
        Some (mkBlock i bi ts x t c)
    | _ => None
    end;
  zero_value := zero_Block;
|}.

Record BlockBatch : Type := mkBatch {
  baIndex : u64;
  baRoot : Hash;
  baSize : u64;
  baPrevTotalElements : u64;
  baExtraData : string;
  baBlockNumber : u64;
  baTimestamp : u64;
  baSubmitter : Address;
  baL1TransactionHash : Hash;
}.

#[export] Instance BlockBatch_eq_dec : EqDecision BlockBatch.
Proof. solve_decision. Defined.

Definition zero_Batch : BlockBatch :=
  mkBatch (#64 0) zero_hash (#64 0) (#64 0) "" (#64 0) (#64 0) zero_address zero_hash.

#[export] Instance BlockBatch_codec : Codec BlockBatch := {|
  marshal b := JObj [
    ("index", marshal (baIndex b)); ("root", marshal (baRoot b));
    ("size", marshal (baSize b)); ("prevTotalElements", marshal (baPrevTotalElements b));
    ("extraData", marshal (baExtraData b)); ("blockNumber", marshal (baBlockNumber b));
    ("timestamp", marshal (baTimestamp b)); ("submitter", marshal (baSubmitter b));
    ("l1TransactionHash", marshal (baL1TransactionHash b))];
  unmarshal j :=
    match j with
    | JNull => Some zero_Batch
    | JObj l =>
        i ← field "index" l; r ← field "root" l; s ← field "size" l;
        p ← field "prevTotalElements" l; x ← field "extraData" l;
        n ← field "blockNumber" l; t ← field "timestamp" l; a ← field "submitter" l;
        h ← field "l1TransactionHash" l;
        Some (mkBatch i r s p x n t a h)
    | _ => None
    end;
  zero_value := zero_Batch;
|}.

Record BlockResponse : Type := mkResponse {
  respBlock : option Block;
  respBatch : option BlockBatch;
}.

(** A channel with the source transactions it was assembled from and the
    blocks it yields. *)
Record ChannelRecord : Type := mkChannelRecord {
  crID : string;
  crSources : list Hash;
  crBlocks : list u64;
  crBatch : BlockBatch;
  crExpiresAt : u64;
}.

#[export] Instance ChannelRecord_eq_dec : EqDecision ChannelRecord.
Proof. solve_decision. Defined.

Definition zero_ChannelRecord : ChannelRecord :=
  mkChannelRecord "" [] [] zero_Batch (#64 0).

#[export] Instance ChannelRecord_codec : Codec ChannelRecord := {|
  marshal r := JObj [
    ("ID", marshal (crID r)); ("Sources", marshal (crSources r));
    ("Blocks", marshal (crBlocks r)); ("Batch", marshal (crBatch r));
    ("ExpiresAt", marshal (crExpiresAt r))];
  unmarshal j :=
    match j with
    | JNull => Some zero_ChannelRecord
    | JObj l =>
        i ← field "ID" l; s ← field "Sources" l; b ← field "Blocks" l;
        t ← field "Batch" l; e ← field "ExpiresAt" l;
        Some (mkChannelRecord i s b t e)
    | _ => None
    end;
  zero_value := zero_ChannelRecord;
|}.

Record BlobChannel : Type := mkBlobChannel {
  chRecord : ChannelRecord;
  chBlocks : list Block;
}.

#[export] Instance BlobChannel_eq_dec : EqDecision BlobChannel.
Proof. solve_decision. Defined.

Context `{!GethTextLaws}.

#[export] Instance Identity_codec_laws : CodecLaws Identity.
Proof. solve_codec. Qed.
#[export] Instance State_codec_laws : CodecLaws State.
Proof. solve_codec. Qed.
#[export] Instance DepositRecord_codec_laws : CodecLaws DepositRecord.
Proof. read_back. match goal with e : Enqueue |- _ => by destruct e end. Qed.

#[export] Instance BlobIdentity_codec_laws : CodecLaws BlobIdentity.
Proof. solve_codec. Qed.
#[export] Instance BlobState_codec_laws : CodecLaws BlobState.
Proof. solve_codec. Qed.

#[local] Instance FrameID_laws : CodecLaws FrameID.
Proof. by apply byte_array_codec_laws. Qed.
#[local] Instance FrameData_laws : CodecLaws bytes.
Proof. apply bytes_codec_laws. Qed.

#[export] Instance Frame_codec_laws : CodecLaws Frame.
Proof. solve_codec. Qed.
#[export] Instance BlobTransaction_codec_laws : CodecLaws BlobTransaction.
Proof. solve_codec. Qed.
#[export] Instance Signature_codec_laws : CodecLaws Signature.
Proof. solve_codec. Qed.
#[export] Instance DecodedTransaction_codec_laws : CodecLaws DecodedTransaction.
Proof. solve_codec. Qed.
#[export] Instance DecodedTransaction_non_null : NonNull DecodedTransaction.
Proof. done. Qed.
#[export] Instance BlockTransaction_codec_laws : CodecLaws BlockTransaction.
Proof. solve_codec. Qed.

#[local] Instance BlockTransactions_laws : CodecLaws (list BlockTransaction).
Proof. apply slice_codec_laws. Qed.

#[export] Instance Block_codec_laws : CodecLaws Block.
Proof. solve_codec. Qed.
#[export] Instance BlockBatch_codec_laws : CodecLaws BlockBatch.
Proof. solve_codec. Qed.
#[export] Instance ChannelRecord_codec_laws : CodecLaws ChannelRecord.
Proof. solve_codec. Qed.
End types.
