(* ===== verification/DepositStore.v ===== *)
(** * The deposit store (internal/store: store.go, identity.go, read.go, commit.go)

    [Store] is the open database; the operations follow the Go methods, error
    returns included.  The mutex makes each method one step, so a method is a
    function from the store to a result.  An error leaves the database as it
    was: the batch is dropped. *)
From S2P Require Import Prelude Word Json Geth Pebble StoreTypes.

(** ** Keys *)

Definition enqueue_prefix : bytes := bytes_of_string "enqueue/".

(** [key n]: "enqueue/" and the big-endian index. *)
Definition key (n : u64) : bytes := enqueue_prefix ++ be_bytes 8 (uval n).

Lemma key_inj n m : key n = key m → n = m.
Proof. intros H%(inj (app _)). by apply be_bytes_inj in H. Qed.

Lemma key_not_state n : key n ≠ stateKey.
Proof. done. Qed.
Lemma key_not_identity n : key n ≠ identityKey.
Proof. done. Qed.

(** Keys sort as the indices do. *)
Lemma key_lt n m : bytes_lt (key n) (key m) = ult n m.
Proof.
  unfold key. rewrite bytes_lt_app.
  rewrite <-(app_nil_r (be_bytes 8 (uval n))), <-(app_nil_r (be_bytes 8 (uval m))).
  rewrite bytes_lt_value by by rewrite !length_be_bytes.
  rewrite !be_value_be_bytes, bytes_lt_irrefl, andb_false_r, orb_false_r.
  pose proof (uint_range n). pose proof (uint_range m).
  rewrite !Z.mod_small by done. done.
Qed.

(** ** The store *)

Record Store (D : Type) : Type := mkStore {
  st_db : D;
  st_closed : bool;
}.
Arguments mkStore {D} st_db st_closed.
Arguments st_db {D} _.
Arguments st_closed {D} _.

Definition err_closed : error := Error [ErrClosed] "pebble: closed".

Definition set_latest (s : State) (n : option u64) : State :=
  mkState (sHeight s) (sHash s) (sCTC s) n.

Section store.
Context `{GethText}.
Context {D B : Type} `{Pebble D B}.

Definition readState {G} `{Getter G} (g : G) : result State :=
  let! raw := readValue g stateKey in
  match raw with
  | None => Ok zero_State
  | Some r =>
      match json_Unmarshal r with
      | Some st => Ok st
      | None => Err (errorf ErrIntegrity "invalid state")
      end
  end.

(** The database must be empty, or carry the same identity. *)
Definition initIdentity (d : D) (id : Identity) : result D :=
  let raw := json_Marshal id in
  let! old := readValue d identityKey in
  match old with
  | Some o =>
      fail_if negb (bool_decide (o = raw))
        with errorf ErrIntegrity "database identity mismatch" ;;
      Ok d
  | None =>
      let! keys := db_Iter d None in
      fail_if negb (bool_decide (keys = []))
        with errorf ErrIntegrity "missing database identity" ;;
      db_Set d identityKey raw
  end.

(** [Open], after the directory and the database are opened. *)
Definition Open (d : D) (id : Identity) : result (Store D) :=
  let! d' := initIdentity d id in
  Ok (mkStore d' false).

Definition Close (s : Store D) : Store D := mkStore (st_db s) true.

(** One iteration of the loop in [Commit]: the batch and [after] so far. *)
Definition commit_record (acc : B * State) (r : DepositRecord) : result (B * State) :=
  let '(batch, after) := acc in
  let raw := json_Marshal r in
  let! old := readValue batch (key (rIndex r)) in
  match old with
  | Some o =>
      fail_if negb (bool_decide (o = raw))
        with errorf ErrIntegrity "conflicting enqueue" ;;
      Ok (batch, after)
  | None =>
      let! expected :=
        match sLatest after with
        | None => Ok (#64 0)
        | Some n =>
            fail_if bool_decide (n = max_uint64) with Error [ErrIntegrity] "" ;;
            Ok (uadd n (#64 1))
        end in
      fail_if negb (bool_decide (rIndex r = expected))
        with errorf ErrIntegrity "expected queue" ;;
      let! batch' := batch_Set batch (key (rIndex r)) raw in
      Ok (batch', set_latest after (Some (rIndex r)))
  end.

Definition Commit (s : Store D) (before after : State) (records : list DepositRecord) :
    result (Store D) :=
  fail_if st_closed s with err_closed ;;
  let! actual := readState (st_db s) in
  fail_if negb (bool_decide (marshal actual = marshal before))
    with errorf ErrIntegrity "stale checkpoint" ;;
  let batch := NewIndexedBatch (st_db s) in
  let after := set_latest after (sLatest before) in
  let! ' (batch, after) := foldM commit_record (batch, after) records in
  let! batch := batch_Set batch stateKey (json_Marshal after) in
  let! db := batch_Commit (st_db s) batch in
  Ok (mkStore db false).

Definition StoreState (s : Store D) : result State :=
  fail_if st_closed s with err_closed ;;
  readState (st_db s).

(** [readEnqueue]: the deposit at [index], or the latest one when nil. *)
Definition readEnqueue {G} `{Getter G} (g : G) (index : option u64) :
    result (option Enqueue) :=
  let! st := readState g in
  let index := match index with None => sLatest st | Some i => Some i end in
  match index with
  | None => Ok None
  | Some i =>
      let! raw := readValue g (key i) in
      match raw with
      | None =>
          fail_if match sLatest st with Some n => ule i n | None => false end
            with errorf ErrIntegrity "missing committed enqueue" ;;
          Ok None
      | Some v =>
          match json_Unmarshal v with
          | Some r => Ok (Some (rEnqueue r))
          | None => Err (errorf ErrIntegrity "invalid enqueue")
          end
      end
  end.

Definition StoreGet (s : Store D) (index : option u64) : result (option Enqueue) :=
  fail_if st_closed s with err_closed ;;
  readEnqueue (st_db s) index.

End store.

(** ** The abstract ledger

    What the deposit store promises: a checkpoint and an append-only,
    gap-free list of deposits, the i-th at index i. *)

Record ledger : Type := mkLedger {
  lg_state : State;
  lg_records : list DepositRecord;
}.

Definition latest_of (rs : list DepositRecord) : option u64 :=
  match rs with [] => None | _ => Some (wrap 64 (Z.of_nat (length rs) - 1)) end.

(** A known deposit must be the same one; a new one must be the next. *)
Definition ledger_put (rs : list DepositRecord) (r : DepositRecord) :
    option (list DepositRecord) :=
  match rs !! Z.to_nat (uval (rIndex r)) with
  | Some r' => if decide (r' = r) then Some rs else None
  | None =>
      if decide (uval (rIndex r) = Z.of_nat (length rs)) then Some (rs ++ [r]) else None
  end.

Fixpoint ledger_append (rs new : list DepositRecord) : option (list DepositRecord) :=
  match new with
  | [] => Some rs
  | r :: new => rs' ← ledger_put rs r; ledger_append rs' new
  end.

Definition ledger_commit (l : ledger) (before after : State)
    (new : list DepositRecord) : option ledger :=
  if decide (before = lg_state l) then
    rs ← ledger_append (lg_records l) new;
    Some (mkLedger (set_latest after (latest_of rs)) rs)
  else None.

Definition ledger_get (l : ledger) (index : option u64) : option DepositRecord :=
  match index with
  | None => last (lg_records l)
  | Some i => lg_records l !! Z.to_nat (uval i)
  end.

Definition empty_ledger : ledger := mkLedger zero_State [].

(** ** Representation of a ledger in the database *)

Record rep_records `{GethText} (m : gmap bytes raw) (rs : list DepositRecord) : Prop := {
  rep_bound : Z.of_nat (length rs) <= 2 ^ 64;
  rep_lookup (i : u64) : m !! key i = json_Marshal <$> rs !! Z.to_nat (uval i);
  rep_index n r : rs !! n = Some r → uval (rIndex r) = Z.of_nat n;
}.

Record represents `{GethText} (m : gmap bytes raw) (l : ledger) : Prop := {
  rep_state :
    m !! stateKey = Some (json_Marshal (lg_state l)) ∨
    m !! stateKey = None ∧ lg_state l = zero_State;
  rep_latest : sLatest (lg_state l) = latest_of (lg_records l);
  rep_recs : rep_records m (lg_records l);
}.

(** Keys the deposit store does not own. *)
Definition foreign (k : bytes) : Prop :=
  k ≠ stateKey ∧ ∀ i, k ≠ key i.

Section ledger_lemmas.
Context `{GethText, !GethTextLaws}.

Lemma latest_of_Some rs n :
  Z.of_nat (length rs) <= 2 ^ 64 →
  latest_of rs = Some n → Z.of_nat (length rs) = uval n + 1.
Proof.
  intros Hlen. destruct rs as [|r rs]; [done|]. cbn [latest_of length] in *.
  intros [= <-]. rewrite uval_wrap_small; [lia|].
  change (modulus 64) with (2 ^ 64). lia.
Qed.

Lemma latest_of_snoc rs r : latest_of (rs ++ [r]) = Some (wrap 64 (Z.of_nat (length rs))).
Proof.
  unfold latest_of. destruct (rs ++ [r]) eqn:E; [by destruct rs|].
  rewrite <-E, length_app. simpl. do 2 f_equal. lia.
Qed.

Lemma rep_records_empty m : (∀ i, m !! key i = None) → rep_records m [].
Proof. intros Hm. split; [simpl; lia | by intros i; rewrite Hm | done]. Qed.

Lemma rep_records_other m m' rs :
  (∀ i, m' !! key i = m !! key i) → rep_records m rs → rep_records m' rs.
Proof. intros Hm [Hb Hl Hi]. split; [done | by intros i; rewrite Hm | done]. Qed.

(** Storing the next deposit. *)
Lemma rep_records_snoc m rs r :
  rep_records m rs → uval (rIndex r) = Z.of_nat (length rs) →
  rep_records (<[key (rIndex r) := json_Marshal r]> m) (rs ++ [r]).
Proof.
  intros [Hb Hl Hi] Hr. pose proof (uint_range (rIndex r)) as Hrng.
  change (modulus 64) with (2 ^ 64) in Hrng.
  split.
  - rewrite length_app. simpl. lia.
  - intros i. destruct (decide (i = rIndex r)) as [->|Hne].
    + rewrite lookup_insert_eq, Hr, Nat2Z.id. by rewrite list_lookup_middle.
    + rewrite lookup_insert_ne by (intros E%key_inj; done). rewrite Hl. f_equal.
      destruct (decide (Z.to_nat (uval i) < length rs)%nat) as [Hlt|Hge];
        [by rewrite lookup_app_l|].
      assert (uval i ≠ uval (rIndex r)) by (intros E; apply Hne, uint_eq, E).
      pose proof (uint_range i).
      rewrite !lookup_ge_None_2; [done | rewrite length_app; simpl; lia | lia].
  - intros n r' Hn. destruct (decide (n < length rs)%nat) as [Hlt|Hge].
    + rewrite lookup_app_l in Hn by done. eauto.
    + apply lookup_lt_Some in Hn as Hn2. rewrite length_app in Hn2. simpl in Hn2.
      assert (n = length rs) as -> by lia.
      rewrite list_lookup_middle in Hn by done. by simplify_eq.
Qed.

Context {D B : Type} `{PebbleLaws D B}.

Lemma readState_rep {G} `{GetterLaws G} (g : G) l st :
  represents (contents g) l → readState g = Ok st → st = lg_state l.
Proof.
  intros [Hs _ _] Hr. unfold readState in Hr. inv_bind.
  apply readValue_Ok in Hv. rewrite Hv in Hs.
  destruct Hs as [-> | [-> Hz]]; [|by simplify_eq].
  rewrite json_Unmarshal_Marshal in Hr. by simplify_eq.
Qed.

(** The index a new deposit must have is the ledger's length. *)
Lemma expected_index rs (e : u64) :
  Z.of_nat (length rs) <= 2 ^ 64 →
  match latest_of rs with
  | None => Ok (#64 0)
  | Some n =>
      fail_if bool_decide (n = max_uint64) with Error [ErrIntegrity] "" ;;
      Ok (uadd n (#64 1))
  end = Ok e → uval e = Z.of_nat (length rs) ∧ Z.of_nat (length rs) < 2 ^ 64.
Proof.
  intros Hb. destruct (latest_of rs) as [n|] eqn:E.
  - apply latest_of_Some in E; [|done]. case_bool_decide as Hmax; [done|].
    intros [= <-]. rewrite uint_eq_iff, uval_max_uint64 in Hmax.
    pose proof (uint_range n) as Hn. change (modulus 64) with (2 ^ 64) in Hn.
    unfold uadd. rewrite uval_wrap_small; [|change (modulus 64) with (2 ^ 64)].
    all: change (uval (#64 1)) with 1; lia.
  - destruct rs; [|done]. intros [= <-]. done.
Qed.

Lemma commit_record_step (b : B) (after : State) rs r b' after' :
  rep_records (contents b) rs → sLatest after = latest_of rs →
  commit_record (b, after) r = Ok (b', after') →
  ∃ rs', ledger_put rs r = Some rs' ∧ rep_records (contents b') rs' ∧
    after' = set_latest after (latest_of rs') ∧
    ∀ k, foreign k ∨ k = stateKey → contents b' !! k = contents b !! k.
Proof.
  intros Hrep Hlat Hc. unfold commit_record in Hc. inv_bind.
  apply readValue_Ok in Hv. rewrite (rep_lookup _ _ Hrep) in Hv.
  unfold ledger_put.
  destruct (rs !! _) as [rold|] eqn:El; simpl in Hv; subst v; simpl in Hc.
  - case_bool_decide as Heq; [|done]. injection Hc as <- <-.
    apply json_Marshal_inj in Heq as ->.
    rewrite decide_True by done. exists rs. split_and!; [done.. | | done].
    rewrite <-Hlat. by destruct after.
  - inv_bind. rewrite Hlat in Hv.
    apply expected_index in Hv as [He Hlt]; [|apply Hrep].
    case_bool_decide as Hi; [|done]. simpl in Hc. inv_bind.
    apply batch_Set_Ok in Hv as Hb'.
    rewrite decide_True by done.
    exists (rs ++ [r]). rewrite Hb', latest_of_snoc.
    split_and!; [done | by apply rep_records_snoc | |].
    + do 2 f_equal. apply uint_eq. rewrite He, uval_wrap_small; [done|].
      change (modulus 64) with (2 ^ 64). lia.
    + intros k Hk. rewrite lookup_insert_ne; [done|].
      destruct Hk as [[_ Hk]| ->]; [by apply not_eq_sym | apply key_not_state].
Qed.

End ledger_lemmas.


(** ** The operations refine the ledger *)

Section refinement.
Context `{GethText, !GethTextLaws}.
Context {D B : Type} `{PebbleLaws D B}.

(** What a commit leaves alone. *)
Definition same_foreign (m m' : gmap bytes raw) : Prop :=
  ∀ k, foreign k → m' !! k = m !! k.

Lemma sLatest_set_latest s n : sLatest (set_latest s n) = n.
Proof. done. Qed.
Lemma set_latest_twice s n k : set_latest (set_latest s n) k = set_latest s k.
Proof. done. Qed.

Lemma commit_records_step new : ∀ (b : B) after rs b' after',
  rep_records (contents b) rs → sLatest after = latest_of rs →
  foldM commit_record (b, after) new = Ok (b', after') →
  ∃ rs', ledger_append rs new = Some rs' ∧ rep_records (contents b') rs' ∧
    after' = set_latest after (latest_of rs') ∧
    ∀ k, foreign k ∨ k = stateKey → contents b' !! k = contents b !! k.
Proof.
  induction new as [|r new IH]; intros b after rs b' after' Hrep Hlat Hf; simpl in *.
  - injection Hf as <- <-. exists rs. rewrite <-Hlat. by destruct after.
  - apply bind_Ok_inv in Hf as ([b1 a1] & Hc & Hf).
    apply (commit_record_step _ _ rs) in Hc as (rs1 & Hput & Hrep1 & -> & Hk1); [|done..].
    apply (IH _ _ rs1) in Hf as (rs' & Happ & Hrep' & -> & Hk'); [|done..].
    exists rs'. rewrite Hput. split_and!; [done.. |].
    intros k Hk. by rewrite Hk', Hk1.
Qed.

Lemma represents_after_commit m rs after :
  rep_records m rs →
  represents (<[stateKey := json_Marshal (set_latest after (latest_of rs))]> m)
    (mkLedger (set_latest after (latest_of rs)) rs).
Proof.
  intros Hrep. split; simpl.
  - left. apply lookup_insert_eq.
  - done.
  - eapply rep_records_other, Hrep. intros i.
    apply lookup_insert_ne, not_eq_sym, key_not_state.
Qed.

Lemma Commit_step (s s' : Store D) l before after new :
  represents (contents (st_db s)) l →
  Commit s before after new = Ok s' →
  ∃ l', ledger_commit l before after new = Some l' ∧
    represents (contents (st_db s')) l' ∧ st_closed s' = false ∧
    same_foreign (contents (st_db s)) (contents (st_db s')).
Proof.
  intros Hrep Hc. unfold Commit in Hc.
  destruct (st_closed s) eqn:Hclosed; [done|]. inv_bind.
  apply (readState_rep _ l) in Hv as ->; [|done].
  case_bool_decide as Hm; [|done]. simpl in Hc. apply marshal_inj in Hm as <-.
  apply bind_Ok_inv in Hc as ([b1 a1] & Hf & Hc). inv_bind.
  destruct Hrep as [Hs Hlat Hrec].
  rewrite <-(NewIndexedBatch_contents (st_db s)) in Hrec.
  apply (commit_records_step _ _ _ (lg_records l)) in Hf as (rs & Happ & Hr & -> & Hk); [|done..].
  apply batch_Set_Ok in Hv. rewrite set_latest_twice in Hv. apply batch_Commit_Ok in Hv0.
  eexists. split_and!.
  - unfold ledger_commit. rewrite decide_True, Happ by done. done.
  - simpl. rewrite Hv0, Hv. by apply represents_after_commit.
  - done.
  - intros k Hfk. simpl. rewrite Hv0, Hv, lookup_insert_ne by (by apply not_eq_sym, Hfk).
    rewrite Hk by by left. by rewrite NewIndexedBatch_contents.
Qed.

Lemma ledger_put_sound rs r rs' :
  ledger_put rs r = Some rs' →
  (rs' = rs ∨ rs' = rs ++ [r]) ∧ rs' !! Z.to_nat (uval (rIndex r)) = Some r.
Proof.
  unfold ledger_put. destruct (rs !! _) as [r0|] eqn:E.
  - case_decide; [|done]. intros [= <-]. subst. auto.
  - case_decide as Hi; [|done]. intros [= <-]. split; [auto|].
    rewrite Hi, Nat2Z.id. by apply list_lookup_middle.
Qed.

(** Appending keeps what was there and holds every deposit submitted. *)
Lemma ledger_append_sound new : ∀ rs rs',
  ledger_append rs new = Some rs' →
  rs `prefix_of` rs' ∧ ∀ r, r ∈ new → rs' !! Z.to_nat (uval (rIndex r)) = Some r.
Proof.
  induction new as [|r new IH]; intros rs rs' Ha; simpl in Ha.
  - simplify_eq. split; [done|]. by intros r ?%elem_of_nil.
  - destruct (ledger_put rs r) as [rs1|] eqn:Hp; [|done]. simpl in Ha.
    apply ledger_put_sound in Hp as [Hrs Hr]. apply IH in Ha as [[t ->] Hnew].
    split.
    + destruct Hrs as [-> | ->]; [by eexists|]. exists (r :: t). by rewrite <-app_assoc.
    + intros r' [->|Hin]%elem_of_cons; [|by apply Hnew].
      by apply lookup_app_l_Some.
Qed.

End refinement.

(** *** Without I/O errors the refinement is exact *)

Section reliable.
Context `{GethText, !GethTextLaws}.
Context {D B : Type} `{Reliable D B}.

Lemma expected_index_total rs r :
  rs !! Z.to_nat (uval (rIndex r)) = None →
  Z.of_nat (length rs) <= 2 ^ 64 →
  match latest_of rs with
  | None => Ok (#64 0)
  | Some n =>
      fail_if bool_decide (n = max_uint64) with Error [ErrIntegrity] "" ;;
      Ok (uadd n (#64 1))
  end = Ok (wrap 64 (Z.of_nat (length rs))).
Proof.
  intros Hr%lookup_ge_None_1 Hb. pose proof (uint_range (rIndex r)) as Hrng.
  change (modulus 64) with (2 ^ 64) in Hrng.
  destruct (latest_of rs) as [n|] eqn:E; [|by destruct rs].
  apply latest_of_Some in E; [|done]. case_bool_decide as Hmax.
  { apply uint_eq_iff in Hmax. rewrite uval_max_uint64 in Hmax. lia. }
  f_equal. unfold uadd. f_equal. change (uval (#64 1)) with 1. lia.
Qed.

Lemma commit_record_total (b : B) after rs r :
  rep_records (contents b) rs → sLatest after = latest_of rs →
  match ledger_put rs r with
  | Some rs' => ∃ b', commit_record (b, after) r = Ok (b', set_latest after (latest_of rs'))
  | None => fails_with (commit_record (b, after) r) ErrIntegrity
  end.
Proof.
  intros Hrep Hlat. unfold commit_record, ledger_put.
  rewrite readValue_batch, (rep_lookup _ _ Hrep). cbn [bind].
  destruct (rs !! _) as [r0|] eqn:El; simpl.
  - case_decide as Heq.
    + subst. rewrite bool_decide_true by done. simpl. exists b.
      rewrite <-Hlat. by destruct after.
    + rewrite bool_decide_false by by rewrite json_Marshal_inj. simpl. by eexists.
  - rewrite Hlat, (expected_index_total rs r) by (done || apply Hrep). simpl.
    apply lookup_ge_None_1 in El as Hge. pose proof (uint_range (rIndex r)) as Hrng.
    change (modulus 64) with (2 ^ 64) in Hrng.
    assert (uval (wrap 64 (Z.of_nat (length rs))) = Z.of_nat (length rs)) as Hlen.
    { apply uval_wrap_small. change (modulus 64) with (2 ^ 64). lia. }
    case_decide as Hi.
    + rewrite bool_decide_true by (apply uint_eq; by rewrite Hlen). simpl.
      destruct (batch_Set_eq b (key (rIndex r)) (json_Marshal r)) as (b' & -> & _).
      exists b'. simpl. rewrite latest_of_snoc, <-Hi, wrap_uval. done.
    + rewrite bool_decide_false by (rewrite uint_eq_iff, Hlen; done). by eexists.
Qed.

Lemma commit_records_total new : ∀ (b : B) after rs,
  rep_records (contents b) rs → sLatest after = latest_of rs →
  match ledger_append rs new with
  | Some rs' =>
      ∃ b', foldM commit_record (b, after) new = Ok (b', set_latest after (latest_of rs'))
  | None => fails_with (foldM commit_record (b, after) new) ErrIntegrity
  end.
Proof.
  induction new as [|r new IH]; intros b after rs Hrep Hlat; cbn [foldM ledger_append].
  - exists b. rewrite <-Hlat. by destruct after.
  - pose proof (commit_record_total b after rs r Hrep Hlat) as Ht.
    destruct (ledger_put rs r) as [rs1|] eqn:Hp; cbn [mbind option_bind].
    + destruct Ht as [b1 Hc]. rewrite Hc. cbn [bind].
      apply (commit_record_step _ _ rs) in Hc as (rs1' & Hp' & Hrep1 & Ha & _); [|done..].
      simplify_eq. by specialize (IH b1 (set_latest after (latest_of rs1)) rs1 Hrep1 eq_refl).
    + destruct Ht as (e & -> & He). by exists e.
Qed.

Lemma readState_total {d : D} {l} :
  represents (contents d) l → readState d = Ok (lg_state l).
Proof.
  intros Hrep. unfold readState. rewrite readValue_db. simpl.
  destruct (rep_state _ _ Hrep) as [-> | [-> ->]]; [|done].
  by rewrite json_Unmarshal_Marshal.
Qed.

Lemma Commit_total (s : Store D) l before after new :
  represents (contents (st_db s)) l → st_closed s = false →
  match ledger_commit l before after new with
  | Some _ => ∃ s', Commit s before after new = Ok s'
  | None => fails_with (Commit s before after new) ErrIntegrity
  end.
Proof.
  intros Hrep Hopen. unfold Commit, ledger_commit.
  rewrite Hopen, (readState_total Hrep). cbn [bind].
  case_decide as Hb.
  2:{ rewrite bool_decide_false by (rewrite marshal_inj_iff; congruence). by eexists. }
  subst before. rewrite bool_decide_true by done. cbn [negb].
  pose proof (rep_recs _ _ Hrep) as Hrec.
  rewrite <-(NewIndexedBatch_contents (st_db s)) in Hrec.
  pose proof (commit_records_total new _
    (set_latest after (sLatest (lg_state l))) _ Hrec (rep_latest _ _ Hrep)) as Ht.
  destruct (ledger_append (lg_records l) new) as [rs|]; cbn [mbind option_bind].
  - destruct Ht as [b' ->]. cbn [bind].
    destruct (batch_Set_eq b' stateKey
      (json_Marshal (set_latest after (latest_of rs)))) as (b2 & E & _).
    rewrite set_latest_twice, E. cbn [bind].
    destruct (batch_Commit_eq (st_db s) b2) as (d & -> & _). by eexists.
  - destruct Ht as (e & -> & He). by exists e.
Qed.

End reliable.


(** ** Reading, opening, and the reachable stores *)

Section reading.
Context `{GethText, !GethTextLaws}.
Context {D B : Type} `{PebbleLaws D B}.

Lemma ledger_get_latest l :
  match sLatest (lg_state l) with
  | None => lg_records l = []
  | Some n => Z.of_nat (length (lg_records l)) = uval n + 1
  end →
  ledger_get l None =
    match sLatest (lg_state l) with None => None | Some n => ledger_get l (Some n) end.
Proof.
  unfold ledger_get. destruct (sLatest _) as [n|]; [|by intros ->].
  intros Hn. rewrite last_lookup. f_equal. pose proof (uint_range n). lia.
Qed.

Lemma represents_latest m l :
  represents m l →
  match sLatest (lg_state l) with
  | None => lg_records l = []
  | Some n => Z.of_nat (length (lg_records l)) = uval n + 1
  end.
Proof.
  intros [_ Hlat Hrec]. rewrite Hlat.
  destruct (latest_of (lg_records l)) as [n|] eqn:E; [|by destruct (lg_records l)].
  apply latest_of_Some; [apply Hrec | done].
Qed.

(** What [readEnqueue] answers from a database that holds a ledger. *)
Lemma readEnqueue_answer {G} `{GetterLaws G} (g : G) l index o :
  represents (contents g) l → readEnqueue g index = Ok o →
  o = rEnqueue <$> ledger_get l index.
Proof.
  intros Hrep Hr. unfold readEnqueue in Hr. apply bind_Ok_inv in Hr as (st & Hst & Hr).
  apply (readState_rep _ l) in Hst as ->; [|done].
  pose proof (represents_latest _ _ Hrep) as Hlat.
  assert (ledger_get l index =
    match (match index with None => sLatest (lg_state l) | Some i => Some i end) with
    | None => None | Some i => ledger_get l (Some i) end) as ->.
  { destruct index; [done|]. by apply ledger_get_latest. }
  destruct (match index with None => _ | _ => _ end) as [i|]; [|by inv_bind].
  apply bind_Ok_inv in Hr as (v & Hv%readValue_Ok & Hr).
  rewrite (rep_lookup _ _ (rep_recs _ _ Hrep)) in Hv. unfold ledger_get.
  destruct (lg_records l !! _) as [r|] eqn:El; simpl in Hv; subst v.
  - rewrite json_Unmarshal_Marshal in Hr. by inv_bind.
  - by inv_guard Hr.
Qed.

Lemma readEnqueue_total `{!Reliable D B} (d : D) l index :
  represents (contents d) l →
  readEnqueue d index = Ok (rEnqueue <$> ledger_get l index).
Proof.
  intros Hrep.
  assert (is_ok (readEnqueue d index) = true) as Hok.
  { unfold readEnqueue. rewrite (readState_total Hrep). cbn [bind].
    pose proof (represents_latest _ _ Hrep) as Hlat.
    destruct (match index with None => _ | _ => _ end) as [i|] eqn:Ei; [|done].
    rewrite readValue_db. cbn [bind].
    rewrite (rep_lookup _ _ (rep_recs _ _ Hrep)).
    destruct (lg_records l !! _) as [r|] eqn:El; simpl;
      [by rewrite json_Unmarshal_Marshal|].
    destruct (sLatest (lg_state l)) as [n|]; [|done].
    destruct (ule i n) eqn:Hi; [|done]. unfold ule in Hi. bool_to_prop.
    apply lookup_ge_None_1 in El. pose proof (uint_range i). lia. }
  destruct (readEnqueue d index) as [o| |] eqn:E; try done.
  f_equal. by apply (readEnqueue_answer d).
Qed.

(** An empty database holds the empty ledger, and taking an identity keeps it. *)
Lemma represents_identity m id :
  (∀ k, m !! k = None) →
  represents (<[identityKey := json_Marshal (A := Identity) id]> m) empty_ledger.
Proof.
  intros Hm. split; simpl; [|done|].
  - right. by rewrite lookup_insert_ne.
  - apply rep_records_empty. intros i.
    by rewrite lookup_insert_ne by apply not_eq_sym, key_not_identity.
Qed.

Lemma represents_same_owned m m' l :
  m' !! stateKey = m !! stateKey → (∀ i, m' !! key i = m !! key i) →
  represents m l → represents m' l.
Proof.
  intros Hs Hk [Hst Hl Hr]. split; [by rewrite Hs | done |].
  by eapply rep_records_other.
Qed.

(** The life of a store that began as an empty directory: it is opened,
    deposits are committed, other components write under their own keys, it is
    closed and opened again. *)
Inductive reachable (id : Identity) : Store D → Prop :=
  | reach_new d s :
      (∀ k, contents d !! k = None) → Open d id = Ok s → reachable id s
  | reach_commit s before after new s' :
      reachable id s → Commit s before after new = Ok s' → reachable id s'
  | reach_foreign s d' :
      reachable id s →
      (∀ k, ¬ foreign k → contents d' !! k = contents (st_db s) !! k) →
      contents d' !! identityKey = contents (st_db s) !! identityKey →
      reachable id (mkStore d' (st_closed s))
  | reach_close s : reachable id s → reachable id (Close s)
  | reach_reopen s id' s' :
      reachable id s → Open (st_db s) id' = Ok s' → reachable id s'.

Lemma not_foreign_state : ¬ foreign stateKey.
Proof. by intros [? _]. Qed.
Lemma not_foreign_key i : ¬ foreign (key i).
Proof. intros [_ Hk]. by destruct (Hk i). Qed.
Lemma foreign_identity : foreign identityKey.
Proof. split; [done | intros i; apply not_eq_sym, key_not_identity]. Qed.

Lemma initIdentity_Ok d id d' :
  initIdentity d id = Ok d' →
  (d' = d ∧ contents d !! identityKey = Some (json_Marshal id)) ∨
  ((∀ k, contents d !! k = None) ∧
   contents d' = <[identityKey := json_Marshal id]> (contents d)).
Proof.
  intros Hi. unfold initIdentity in Hi.
  apply bind_Ok_inv in Hi as (v & Hv%readValue_Ok & Hi).
  destruct v as [o|].
  - case_bool_decide as Ho; [|done]. simpl in Hi. inv_bind. by left.
  - apply bind_Ok_inv in Hi as (keys & Hk & Hi).
    case_bool_decide as Hnil; [|done]. right.
    split; [|by apply db_Set_Ok].
    intros k. apply eq_None_not_Some. rewrite <-(db_Iter_all _ _ Hk k), Hnil.
    apply not_elem_of_nil.
Qed.

Lemma reachable_inv id s :
  reachable id s →
  contents (st_db s) !! identityKey = Some (json_Marshal id) ∧
  ∃ l, represents (contents (st_db s)) l.
Proof.
  induction 1 as [d s Hd Ho | s before after new s' _ [Hid [l Hl]] Hc
    | s d' _ [Hid [l Hl]] Hd' Hi | s _ IH | s id' s' _ [Hid [l Hl]] Ho].
  - unfold Open in Ho. inv_bind. simpl. apply initIdentity_Ok in Hv as [[-> Hid]|[_ ->]].
    + by rewrite Hd in Hid.
    + rewrite lookup_insert_eq. split; [done|]. eexists. by apply represents_identity.
  - destruct (Commit_step _ _ _ _ _ _ Hl Hc) as (l' & _ & Hl' & _ & Hf).
    rewrite Hf by apply foreign_identity. eauto.
  - simpl. rewrite Hi. split; [done|]. exists l.
    apply (represents_same_owned (contents (st_db s))); [| |done].
    + apply Hd', not_foreign_state.
    + intros i. apply Hd', not_foreign_key.
  - done.
  - unfold Open in Ho. inv_bind. simpl.
    apply initIdentity_Ok in Hv as [[-> _]|[Hn _]]; [eauto|].
    by rewrite Hn in Hid.
Qed.

End reading.


(** ** Properties *)

Section properties.
Context `{GethText, !GethTextLaws}.
Context {D B : Type} `{PebbleLaws D B}.

(** [C3] A successful [Commit] refines the ledger: a database that holds a
    ledger ends up holding the ledger that [ledger_commit] gives (checkpoint
    replaced, deposits appended without gaps, duplicates absorbed), and no key
    of another component changes.  I/O errors may happen. *)
Theorem Commit_refines_ledger (s s' : Store D) l before after new :
  represents (contents (st_db s)) l →
  Commit s before after new = Ok s' →
  ∃ l', ledger_commit l before after new = Some l' ∧
    represents (contents (st_db s')) l' ∧
    same_foreign (contents (st_db s)) (contents (st_db s')).
Proof.
  intros Hl Hc. destruct (Commit_step _ _ _ _ _ _ Hl Hc) as (l' & ? & ? & _ & ?). eauto.
Qed.

(** [C19] Without I/O errors [Commit] succeeds exactly when the abstract ledger
    accepts the commit, that is when [before] is the current checkpoint and
    every deposit is either the next one or equal to the one already stored at
    its index; otherwise it fails with an integrity error. *)
Theorem Commit_decides `{!Reliable D B} (s : Store D) l before after new :
  represents (contents (st_db s)) l → st_closed s = false →
  if decide (is_Some (ledger_commit l before after new))
  then ∃ s', Commit s before after new = Ok s'
  else fails_with (Commit s before after new) ErrIntegrity.
Proof.
  intros Hl Hopen. pose proof (Commit_total s l before after new Hl Hopen) as Ht.
  case_decide as Hd.
  - destruct Hd as [l' E]. by rewrite E in Ht.
  - destruct (ledger_commit l before after new) eqn:E; [|done].
    destruct Hd. by eexists.
Qed.

(** [C30] Every store reachable from an empty directory by opening, committing,
    closing, reopening and foreign writes holds a gap-free ledger: without I/O
    errors [Get] never fails while the store is open, the i-th deposit is
    found at index i exactly when i is at most the latest index, and [Get] of
    nil is the latest deposit. *)
Theorem reachable_Get `{!Reliable D B} id (s : Store D) :
  reachable id s → st_closed s = false →
  ∃ rs : list DepositRecord,
    (∀ n r, rs !! n = Some r → uval (rIndex r) = Z.of_nat n) ∧
    (∀ i, StoreGet s (Some i) = Ok (rEnqueue <$> rs !! Z.to_nat (uval i))) ∧
    StoreGet s None = Ok (rEnqueue <$> last rs).
Proof.
  intros [_ [l Hl]]%reachable_inv Hopen. exists (lg_records l). split_and!.
  - apply (rep_index _ _ (rep_recs _ _ Hl)).
  - intros i. unfold StoreGet. rewrite Hopen. by apply (readEnqueue_total _ l (Some i)).
  - unfold StoreGet. rewrite Hopen. by apply (readEnqueue_total _ l None).
Qed.

(** A committed deposit stays readable, unchanged, after every later
    commit, and a successful commit makes every deposit it was given readable
    at its index. *)
Theorem Commit_append_only `{!Reliable D B} id (s s' : Store D) before after new :
  reachable id s → Commit s before after new = Ok s' →
  (∀ i e, StoreGet s (Some i) = Ok (Some e) → StoreGet s' (Some i) = Ok (Some e)) ∧
  (∀ r, r ∈ new → StoreGet s' (Some (rIndex r)) = Ok (Some (rEnqueue r))).
Proof.
  intros [_ [l Hl]]%reachable_inv Hc.
  destruct (Commit_step _ _ _ _ _ _ Hl Hc) as (l' & Hlc & Hl' & Hopen' & _).
  assert (lg_records l `prefix_of` lg_records l' ∧
    ∀ r, r ∈ new → lg_records l' !! Z.to_nat (uval (rIndex r)) = Some r) as [Hpre Hnew].
  { unfold ledger_commit in Hlc. case_decide; [|done].
    destruct (ledger_append (lg_records l) new) eqn:E; simplify_eq/=.
    by apply ledger_append_sound. }
  unfold StoreGet. rewrite Hopen'. split.
  - intros i e Hg. destruct (st_closed s); [done|].
    rewrite (readEnqueue_total _ l) in Hg by done.
    rewrite (readEnqueue_total _ l') by done. f_equal. injection Hg as Hg.
    unfold ledger_get in *. destruct (lg_records l !! _) as [r|] eqn:E; [|done].
    by rewrite (prefix_lookup_Some _ _ _ _ E Hpre).
  - intros r Hr. rewrite (readEnqueue_total _ l') by done.
    unfold ledger_get. by rewrite Hnew.
Qed.

(** [C34] Opening a database: it is accepted when it carries the same identity
    (and is left as it is) or when it is empty (and takes the identity); any
    other database is refused with an integrity error. *)
Theorem Open_identity `{!Reliable D B} (d : D) id :
  (contents d !! identityKey = Some (json_Marshal id) → Open d id = Ok (mkStore d false)) ∧
  ((∀ k, contents d !! k = None) →
    ∃ s, Open d id = Ok s ∧ st_closed s = false ∧
      contents (st_db s) = <[identityKey := json_Marshal id]> (contents d)) ∧
  ((∃ k, is_Some (contents d !! k)) →
    contents d !! identityKey ≠ Some (json_Marshal id) →
    fails_with (Open d id) ErrIntegrity).
Proof.
  unfold Open, initIdentity. rewrite readValue_db. cbn [bind].
  pose proof (db_Iter_total d None) as Hit.
  destruct (db_Iter d None) as [keys| |] eqn:Hk; try done. cbn [bind].
  pose proof (db_Iter_all _ _ Hk) as Hkeys.
  split_and!.
  - intros ->. by rewrite bool_decide_true.
  - intros Hempty. rewrite Hempty.
    assert (keys = []) as ->.
    { destruct keys as [|k ks]; [done|]. exfalso.
      assert (is_Some (contents d !! k)) as [v Hv] by (apply Hkeys; by left).
      by rewrite Hempty in Hv. }
    rewrite bool_decide_true by done. cbn [negb].
    pose proof (db_Set_total d identityKey (json_Marshal id)) as Ht.
    destruct (db_Set d identityKey _) as [d'| |] eqn:E; try done. cbn [bind].
    eexists. split_and!; [done..|]. by apply db_Set_Ok.
  - intros [k Hk'] Hne. destruct (contents d !! identityKey) as [o|] eqn:Eo.
    + rewrite bool_decide_false by congruence. by eexists.
    + apply Hkeys in Hk'. rewrite bool_decide_false; [by eexists|].
      intros ->. by apply elem_of_nil in Hk'.
Qed.

End properties.

(** ** Witnesses, on the in-memory store and hexadecimal text *)

Module DepositWitness.

#[local] Existing Instance HexText.text.
#[local] Existing Instance HexText.laws.
#[local] Existing Instance MemKV.pebble.
#[local] Existing Instance MemKV.laws.
#[local] Existing Instance MemKV.reliable.

Definition deposit (n : Z) (data : string) : DepositRecord :=
  mkRecord (mkEnqueue (#64 n) (wrap 160 7) data "21000" (wrap 160 9) (#64 (100 + n)) (#64 5) None)
    (wrap 256 (1000 + n)) (wrap 256 (2000 + n)) (#64 n).

Definition id0 : Identity := mkIdentity (Int 1 eq_refl) (#64 1) (#64 1088) (#64 100) (wrap 160 3).

Definition get_ok {A} (d : A) (r : result A) : A := match r with Ok a => a | _ => d end.

Definition s0 : Store MemKV.db := get_ok (mkStore (MemKV.Db ∅) false) (Open (MemKV.Db ∅) id0).
Definition check1 : State := mkState (Some (#64 110)) (wrap 256 77) (wrap 160 9) None.
Definition s1 := get_ok s0 (Commit s0 zero_State check1 [deposit 0 "0x"; deposit 1 "0xff"]).

Lemma opened : Open (MemKV.Db ∅) id0 = Ok s0.
Proof. vm_cast_no_check (eq_refl (Ok s0)). Qed.

Lemma committed : Commit s0 zero_State check1 [deposit 0 "0x"; deposit 1 "0xff"] = Ok s1.
Proof. vm_cast_no_check (eq_refl (Ok s1)). Qed.

Lemma s0_reachable : reachable id0 s0.
Proof. apply (reach_new id0 (MemKV.Db ∅) s0); [exact lookup_empty | exact opened]. Qed.

Lemma s1_reachable : reachable id0 s1.
Proof. apply (reach_commit id0 s0 zero_State check1 _ s1 s0_reachable committed). Qed.

Lemma s0_represents : represents (contents (st_db s0)) empty_ledger.
Proof. apply (represents_identity ∅ id0). exact lookup_empty. Qed.

Lemma Commit_refines_ledger_witness :
  ∃ l', ledger_commit empty_ledger zero_State check1 [deposit 0 "0x"; deposit 1 "0xff"] = Some l' ∧
    represents (contents (st_db s1)) l' ∧
    same_foreign (contents (st_db s0)) (contents (st_db s1)).
Proof.
  apply (Commit_refines_ledger s0 s1 empty_ledger zero_State check1).
  - exact s0_represents.
  - exact committed.
Defined.

Lemma Commit_decides_witness :
  fails_with (Commit s0 zero_State check1 [deposit 1 "0x"]) ErrIntegrity.
Proof.
  apply (Commit_decides s0 empty_ledger zero_State check1 [deposit 1 "0x"]).
  - exact s0_represents.
  - reflexivity.
Defined.

Lemma reachable_Get_witness :
  ∃ rs : list DepositRecord,
    (∀ n r, rs !! n = Some r → uval (rIndex r) = Z.of_nat n) ∧
    (∀ i, StoreGet s1 (Some i) = Ok (rEnqueue <$> rs !! Z.to_nat (uval i))) ∧
    StoreGet s1 None = Ok (rEnqueue <$> last rs).
Proof.
  apply (reachable_Get id0 s1).
  - exact s1_reachable.
  - reflexivity.
Defined.

Lemma Commit_append_only_witness :
  (∀ i e, StoreGet s0 (Some i) = Ok (Some e) → StoreGet s1 (Some i) = Ok (Some e)) ∧
  (∀ r, r ∈ [deposit 0 "0x"; deposit 1 "0xff"] →
    StoreGet s1 (Some (rIndex r)) = Ok (Some (rEnqueue r))).
Proof.
  apply (Commit_append_only id0 s0 s1 zero_State check1).
  - exact s0_reachable.
  - exact committed.
Defined.

Lemma Open_identity_witness :
  fails_with (Open (st_db s1) (mkIdentity (Int 1 eq_refl) (#64 1) (#64 59) (#64 100) (wrap 160 3)))
    ErrIntegrity.
Proof.
  apply (Open_identity (st_db s1)
    (mkIdentity (Int 1 eq_refl) (#64 1) (#64 59) (#64 100) (wrap 160 3))).
  - exists identityKey. vm_compute. by eexists.
  - vm_compute. discriminate.
Defined.

End DepositWitness.
