(* ===== verification/BlobStore.v ===== *)
(** * The blob store (internal/store/blob.go)

    The L2 blocks recovered from blobs live beside the deposits in the same
    database, under "blob/": one record per source transaction, one per
    channel, a pointer and a block per block index, an expiry key per
    transaction and channel, and the checkpoint.  [CommitBlob] adds a scan's
    result and removes what has left the retention window, in one batch. *)
From S2P Require Import Prelude Word Json Geth Pebble StoreTypes DepositStore.

(** ** Keys *)

Definition blobIdentityKey : bytes := bytes_of_string "blob/identity".
Definition blobStateKey : bytes := bytes_of_string "blob/state".

Definition blobKey (kind : string) (suffix : bytes) : bytes :=
  bytes_of_string ("blob/" +:+ kind +:+ "/") ++ suffix.
Definition blobNumberKey (kind : string) (n : u64) : bytes :=
  blobKey kind (be_bytes 8 (uval n)).
Definition expirationKey (kind : string) (ts : u64) (id : bytes) : bytes :=
  blobNumberKey ("expiry/" +:+ kind) ts ++ id.

(** [hash[:]] *)
Definition hash_bytes (h : Hash) : bytes := be_bytes 32 (uval h).

(** [return ErrIntegrity] *)
Definition integrity_error : error := Error [ErrIntegrity] "".

(** [binary.BigEndian.Uint64]: it panics on fewer than eight bytes. *)
Definition BigEndian_Uint64 (b : bytes) : result u64 :=
  let! w := slice b 0 8 in Ok (wrap 64 (be_value w)).

Section blobstore.
Context `{GethText}.

(** ** Reading and writing documents *)

(** [readJSON]: nothing when the key is absent and not required. *)
Definition readJSON {G} `{Getter G} {A} `{Codec A} (g : G) (key : bytes) (required : bool) :
    result (option A) :=
  let! raw := readValue g key in
  match raw with
  | None =>
      fail_if required with errorf ErrIntegrity "missing" ;;
      Ok None
  | Some r =>
      match json_Unmarshal r with
      | None => Err (errorf ErrIntegrity "invalid")
      | Some a =>
          fail_if bool_decide (r = RJson JNull) with errorf ErrIntegrity "invalid" ;;
          Ok (Some a)
      end
  end.

(** A required document, decoded into a fresh variable. *)
Definition required {G} `{Getter G} {A} `{Codec A} (g : G) (key : bytes) : result A :=
  let! o := readJSON g key true in Ok (default zero_value o).

Definition readBlobState {G} `{Getter G} (g : G) : result BlobState := required g blobStateKey.

Context {D B : Type} `{Pebble D B}.

Definition putJSON {A} `{Codec A} (b : B) (key : bytes) (value : A) : result B :=
  batch_Set b key (json_Marshal value).

(** [InitBlob].  Its batch is not indexed; it is only written and committed,
    where that makes no difference. *)
Definition InitBlob (s : Store D) (id : BlobIdentity) : result (Store D) :=
  fail_if st_closed s with err_closed ;;
  let! existing := readJSON (st_db s) blobIdentityKey false in
  match existing with
  | Some existing =>
      fail_if negb (bool_decide (existing = id))
        with errorf ErrIntegrity "Blob database identity mismatch" ;;
      let! _ := readBlobState (st_db s) in
      Ok s
  | None =>
      let! keys := db_Iter (st_db s) (Some (bytes_of_string "blob/", bytes_of_string "blob0")) in
      fail_if negb (bool_decide (keys = [])) with errorf ErrIntegrity "missing Blob identity" ;;
      let b := NewIndexedBatch (st_db s) in
      let! b := putJSON b blobIdentityKey id in
      let! b := putJSON b blobStateKey zero_BlobState in
      let! db := batch_Commit (st_db s) b in
      Ok (mkStore db false)
  end.

(** The method [BlobState]. *)
Definition StoreBlobState (s : Store D) : result BlobState :=
  fail_if st_closed s with err_closed ;;
  readBlobState (st_db s).

(** The method [BlobTransaction]. *)
Definition StoreBlobTransaction (s : Store D) (hash : Hash) : result (option BlobTransaction) :=
  fail_if st_closed s with err_closed ;;
  let! tx := readJSON (st_db s) (blobKey "tx" (hash_bytes hash)) false in
  match tx with
  | None => Ok None
  | Some tx =>
      fail_if negb (bool_decide (btHash tx = hash)) with integrity_error ;;
      Ok (Some tx)
  end.

(** ** Adding records *)

(** A record may be written again only unchanged. *)
Definition putIdentical {A} `{Codec A} (b : B) (key : bytes) (value : A) : result B :=
  let raw := json_Marshal value in
  let! old := readValue b key in
  fail_if match old with Some o => negb (bool_decide (o = raw)) | None => false end
    with errorf ErrIntegrity "conflicting Blob record" ;;
  batch_Set b key raw.

(** An expiry key; its value is empty. *)
Definition put_expiry (b : B) (kind : string) (ts : u64) (id : bytes) : result B :=
  batch_Set b (expirationKey kind ts id) (RBytes []).

(** The loop of [CommitBlob] over the transactions. *)
Definition put_tx (cutoff : u64) (b : B) (tx : BlobTransaction) : result B :=
  if ult (btTimestamp tx) cutoff then Ok b else
  fail_if btMissing tx && negb (bool_decide (btFrames tx = [])) with integrity_error ;;
  let! b := putIdentical b (blobKey "tx" (hash_bytes (btHash tx))) tx in
  put_expiry b "tx" (btTimestamp tx) (hash_bytes (btHash tx)).

(** The oldest timestamp of the sources. *)
Definition check_source (b : B) (oldest : u64) (hash : Hash) : result u64 :=
  let! tx := required b (blobKey "tx" (hash_bytes hash)) in
  fail_if btMissing tx || negb (bool_decide (btHash tx = hash)) with integrity_error ;;
  Ok (if ult (btTimestamp tx) oldest then btTimestamp tx else oldest).

Definition put_block (r : ChannelRecord) (b : B) (ib : u64 * Block) : result B :=
  let '(index, block) := ib in
  fail_if negb (bool_decide (bIndex block = index)) ||
          negb (bool_decide (bBatchIndex block = baIndex (crBatch r)))
    with integrity_error ;;
  let! b := putIdentical b (blobNumberKey "index" (bIndex block)) (crID r) in
  putIdentical b (blobNumberKey "block" (bIndex block)) block.

(** The block list and the index list have the same length here. *)
Definition putChannel (b : B) (ch : BlobChannel) (cutoff : u64) : result B :=
  let r := chRecord ch in
  fail_if bool_decide (crSources r = []) ||
          negb (length (crBlocks r) =? length (chBlocks ch))%nat ||
          bool_decide (chBlocks ch = []) || bool_decide (crID r = "")
    with integrity_error ;;
  let! oldest := foldM (check_source b) max_uint64 (crSources r) in
  fail_if negb (bool_decide (crExpiresAt r = oldest)) with integrity_error ;;
  if ult oldest cutoff then Ok b else
  let! b := putIdentical b (blobKey "channel" (bytes_of_string (crID r))) r in
  let! b := foldM (put_block r) b (zip (crBlocks r) (chBlocks ch)) in
  put_expiry b "channel" oldest (bytes_of_string (crID r)).

(** ** Expiry *)

(** One block of an expired channel. *)
Definition expire_block (id : string) (b : B) (index : u64) : result B :=
  let! pointer := required b (blobNumberKey "index" index) in
  fail_if negb (bool_decide (pointer = id)) with integrity_error ;;
  let! block := required (A := Block) b (blobNumberKey "block" index) in
  fail_if negb (bool_decide (bIndex block = index)) with integrity_error ;;
  let! b := batch_Delete b (blobNumberKey "index" index) in
  batch_Delete b (blobNumberKey "block" index).

Definition expireRecord (b : B) (kind : string) (id : bytes) (timestamp : u64) : result B :=
  let! b :=
    if bool_decide (kind = "channel") then
      let! r := required (A := ChannelRecord) b (blobKey kind id) in
      fail_if negb (bool_decide (bytes_of_string (crID r) = id)) ||
              negb (bool_decide (crExpiresAt r = timestamp))
        with integrity_error ;;
      foldM (expire_block (crID r)) b (crBlocks r)
    else
      let! tx := required (A := BlobTransaction) b (blobKey kind id) in
      fail_if negb (bool_decide (hash_bytes (btHash tx) = id)) ||
              negb (bool_decide (btTimestamp tx = timestamp))
        with integrity_error ;;
      Ok b in
  batch_Delete b (blobKey kind id).

(** One key of the expiry index. *)
Definition expire_key (kind : string) (b : B) (k : bytes) : result B :=
  let n := len (blobKey ("expiry/" +:+ kind) []) in
  fail_if len k <? n + 8 with integrity_error ;;
  let! id := slice_from k (n + 8) in
  let! rest := slice_from k n in
  let! timestamp := BigEndian_Uint64 rest in
  let! b := expireRecord b kind id timestamp in
  batch_Delete b k.

(** The iterator sees the batch as it was when it was opened. *)
Definition pruneKind (b : B) (kind : string) (cutoff : u64) : result B :=
  let! keys := batch_Iter b (blobKey ("expiry/" +:+ kind) [])
                 (blobNumberKey ("expiry/" +:+ kind) cutoff) in
  foldM (expire_key kind) b keys.

Definition pruneBlob (b : B) (cutoff : u64) : result B :=
  foldM (λ b kind, pruneKind b kind cutoff) b ["channel"; "tx"].

Definition latestBlockIndex (b : B) : result (option u64) :=
  let p := blobKey "index" [] in
  let! keys := batch_Iter b p (bytes_of_string "blob/index0") in
  match last keys with
  | None => Ok None
  | Some k =>
      fail_if negb (len k =? len p + 8) with integrity_error ;;
      let! rest := slice_from k (len p) in
      let! n := BigEndian_Uint64 rest in
      Ok (Some n)
  end.

(** ** The commit *)

Definition set_commit (s : BlobState) (latest : option u64) (revision : u64) : BlobState :=
  mkBlobState revision (bsHeight s) (bsHash s) (bsCutoff s) (bsRetentionHeight s)
    (bsRetentionHash s) latest (bsAuth s).

Definition CommitBlob (s : Store D) (before after : BlobState) (txs : list BlobTransaction)
    (channels : list BlobChannel) : result (Store D) :=
  fail_if st_closed s with err_closed ;;
  let! actual := readBlobState (st_db s) in
  fail_if negb (bool_decide (actual = before))
    with errorf ErrIntegrity "stale Blob checkpoint" ;;
  fail_if bool_decide (bsRevision before = max_uint64) || ult (bsCutoff after) (bsCutoff before)
    with integrity_error ;;
  let b := NewIndexedBatch (st_db s) in
  let! b := foldM (put_tx (bsCutoff after)) b txs in
  let! b := foldM (λ b ch, putChannel b ch (bsCutoff after)) b channels in
  let! b := pruneBlob b (bsCutoff after) in
  let! latest := latestBlockIndex b in
  let after := set_commit after latest (uadd (bsRevision before) (#64 1)) in
  let! b := putJSON b blobStateKey after in
  let! db := batch_Commit (st_db s) b in
  Ok (mkStore db false).

(** ** Serving a block *)

(** TypeScript skips the failed deposit 20397. *)
Definition queue_index (q : u64) : u64 := if ule (#64 20397) q then uadd q (#64 1) else q.

Definition fill (tx : BlockTransaction) (q : u64) (e : Enqueue) : BlockTransaction :=
  mkBlockTx (xIndex tx) (xBatchIndex tx) (eBlockNumber e)
    (if bool_decide (xTimestamp tx = #64 0) then eTimestamp e else xTimestamp tx)
    (eGasLimit e) (eTarget e) (eOrigin e) (eData e) (xQueueOrigin tx) (xValue tx)
    (Some q) (xDecoded tx) (xConfirmed tx) (xSeqSign tx).

(** The transactions with their deposits filled in; nothing when a deposit
    is not there yet. *)
Fixpoint fill_deposits (d : D) (txs : list BlockTransaction) :
    result (option (list BlockTransaction)) :=
  match txs with
  | [] => Ok (Some [])
  | tx :: txs =>
      let! tx :=
        if bool_decide (xQueueOrigin tx = "l1") then
          match xQueueIndex tx with
          | None => Err integrity_error
          | Some q =>
              fail_if bool_decide (q = max_uint64) with integrity_error ;;
              let! e := readEnqueue d (Some (queue_index q)) in
              Ok (fill tx (queue_index q) <$> e)
          end
        else Ok (Some tx) in
      match tx with
      | None => Ok None
      | Some tx => let! rest := fill_deposits d txs in Ok (cons tx <$> rest)
      end
  end.

Definition check_served (d : D) (cutoff : u64) (_ : unit) (hash : Hash) : result unit :=
  let! tx := required d (blobKey "tx" (hash_bytes hash)) in
  fail_if negb (bool_decide (btHash tx = hash)) || btMissing tx || ult (btTimestamp tx) cutoff
    with integrity_error ;;
  Ok tt.

Definition no_block : BlockResponse := mkResponse None None.

Definition set_transactions (b : Block) (txs : list BlockTransaction) : Block :=
  mkBlock (bIndex b) (bBatchIndex b) (bTimestamp b) (bExtraData b) txs (bConfirmed b).

Definition GetBlock (s : Store D) (index : option u64) : result BlockResponse :=
  fail_if st_closed s with err_closed ;;
  let! st := readBlobState (st_db s) in
  let latest := bool_decide (index = None) in
  match (if latest then bsLatest st else index) with
  | None => Ok no_block
  | Some index =>
      let! id := readJSON (A := string) (st_db s) (blobNumberKey "index" index) latest in
      match id with
      | None => Ok no_block
      | Some id =>
          let! r := required (A := ChannelRecord) (st_db s)
                      (blobKey "channel" (bytes_of_string id)) in
          let! block := required (A := Block) (st_db s) (blobNumberKey "block" index) in
          fail_if negb (bool_decide (index ∈ crBlocks r)) || negb (bool_decide (crID r = id)) ||
                  negb (bool_decide (bIndex block = index)) ||
                  negb (bool_decide (bBatchIndex block = baIndex (crBatch r))) ||
                  ult (crExpiresAt r) (bsCutoff st)
            with integrity_error ;;
          fail_if bool_decide (crSources r = []) with integrity_error ;;
          let! _ := foldM (check_served (st_db s) (bsCutoff st)) tt (crSources r) in
          let! txs := fill_deposits (st_db s) (bTransactions block) in
          match txs with
          | None => Ok no_block
          | Some txs => Ok (mkResponse (Some (set_transactions block txs)) (Some (crBatch r)))
          end
      end
  end.

End blobstore.
