(* ===== verification/StorePanics.v ===== *)
(** * The stores never panic

    A database file may hold anything.  Whatever it holds, no operation of the
    stores indexes out of range: every slice of a key is guarded. *)
From S2P Require Import Prelude Word Json Geth Pebble StoreTypes DepositStore BlobStore.

Create HintDb no_panic.

(** Down the sequence of steps, each of which cannot panic. *)
Ltac no_panic :=
  repeat first
    [ progress cbv zeta
    | match goal with
      | |- Ok _ ≠ Panic => done
      | |- Err _ ≠ Panic => done
      | |- bind _ _ ≠ Panic => apply bind_no_panic; [|intros ? ?]
      | |- foldM _ _ _ ≠ Panic => apply foldM_no_panic; intros
      | |- _ => solve [auto with no_panic]
      | |- (if ?c then _ else _) ≠ Panic => destruct c eqn:?
      | |- match ?x with _ => _ end ≠ Panic => destruct x eqn:?
      end ].

Section panics.
Context `{GethText}.

Lemma readValue_no_panic {G} `{Getter G} (g : G) k :
  (∀ k, Get g k ≠ Panic) → readValue g k ≠ Panic.
Proof.
  intros Hg. unfold readValue. specialize (Hg k).
  destruct (Get g k) as [v|e|]; [done | by destruct (errors_Is e ErrNotFound) | done].
Qed.

Context {D B : Type} `{!Pebble D B, !NoPanic D B}.

Lemma db_readValue (d : D) k : readValue d k ≠ Panic.
Proof. apply readValue_no_panic, db_Get_no_panic. Qed.
Lemma batch_readValue (b : B) k : readValue b k ≠ Panic.
Proof. apply readValue_no_panic, batch_Get_no_panic. Qed.

#[local] Hint Resolve db_readValue batch_readValue batch_Set_no_panic batch_Delete_no_panic
  batch_Iter_no_panic db_Iter_no_panic db_Set_no_panic batch_Commit_no_panic : no_panic.

Lemma db_readJSON {A} `{Codec A} (d : D) k req : readJSON (A := A) d k req ≠ Panic.
Proof. unfold readJSON. no_panic. Qed.
Lemma batch_readJSON {A} `{Codec A} (b : B) k req : readJSON (A := A) b k req ≠ Panic.
Proof. unfold readJSON. no_panic. Qed.
#[local] Hint Resolve db_readJSON batch_readJSON : no_panic.

Lemma db_required {A} `{Codec A} (d : D) k : required (A := A) d k ≠ Panic.
Proof. unfold required. no_panic. Qed.
Lemma batch_required {A} `{Codec A} (b : B) k : required (A := A) b k ≠ Panic.
Proof. unfold required. no_panic. Qed.
#[local] Hint Resolve db_required batch_required : no_panic.

(** ** Deposits *)

Lemma readState_no_panic (d : D) : readState d ≠ Panic.
Proof. unfold readState. no_panic. Qed.
#[local] Hint Resolve readState_no_panic : no_panic.

Lemma Commit_no_panic (s : Store D) before after rs : Commit s before after rs ≠ Panic.
Proof. unfold Commit, commit_record. no_panic. Qed.

Lemma StoreState_no_panic (s : Store D) : StoreState s ≠ Panic.
Proof. unfold StoreState. no_panic. Qed.

Lemma StoreGet_no_panic (s : Store D) i : StoreGet s i ≠ Panic.
Proof. unfold StoreGet, readEnqueue. no_panic. Qed.

(** ** Blobs *)

Lemma slice_no_panic {A} (l : list A) i j : 0 <= i <= j → j <= len l → slice l i j ≠ Panic.
Proof.
  intros Hij Hj. unfold slice. destruct (_ && _) eqn:E; [done|]. apply andb_false_iff in E as [E|E];
    [apply andb_false_iff in E as [E|E]|]; bool_to_prop; lia.
Qed.

Lemma slice_from_length {A} (l l' : list A) i : slice_from l i = Ok l' → len l' = len l - i.
Proof.
  unfold slice_from, slice. destruct (_ && _) eqn:E; [|done]. intros [= <-]. bool_to_prop.
  unfold len in *. rewrite length_take, length_drop. lia.
Qed.

Lemma Uint64_no_panic b : 8 <= len b → BigEndian_Uint64 b ≠ Panic.
Proof. intros Hb. unfold BigEndian_Uint64. apply bind_no_panic; [by apply slice_no_panic | done]. Qed.

(** A key that is long enough has an identifier and a number. *)
Lemma suffix_no_panic (k : bytes) n : 0 <= n → n + 8 <= len k →
  slice_from k (n + 8) ≠ Panic ∧ slice_from k n ≠ Panic ∧
  ∀ rest, slice_from k n = Ok rest → BigEndian_Uint64 rest ≠ Panic.
Proof.
  intros Hn Hk. split_and!; [apply slice_no_panic; lia..|].
  intros rest Hr%slice_from_length. apply Uint64_no_panic. lia.
Qed.

Lemma expireRecord_no_panic (b : B) kind id ts : expireRecord b kind id ts ≠ Panic.
Proof. unfold expireRecord, expire_block. no_panic. Qed.
#[local] Hint Resolve expireRecord_no_panic : no_panic.

Lemma expire_key_no_panic kind (b : B) k : expire_key kind b k ≠ Panic.
Proof.
  unfold expire_key. cbv zeta. destruct (_ <? _) eqn:E; [done|]. bool_to_prop.
  destruct (suffix_no_panic k (len (blobKey ("expiry/" +:+ kind) [])) (len_nonneg _) E) as (Hi & Hr & Hn).
  apply bind_no_panic; [done|]. intros id _. apply bind_no_panic; [done|]. intros rest Hrest.
  apply bind_no_panic; [by apply Hn|]. intros ts _. no_panic.
Qed.
#[local] Hint Resolve expire_key_no_panic : no_panic.

Lemma latestBlockIndex_no_panic (b : B) : latestBlockIndex b ≠ Panic.
Proof.
  unfold latestBlockIndex. cbv zeta. apply bind_no_panic; [no_panic|]. intros keys _.
  destruct (last keys) as [k|]; [|done]. destruct (negb _) eqn:E; [done|]. bool_to_prop.
  destruct (suffix_no_panic k (len (blobKey "index" [])) (len_nonneg _) ltac:(lia)) as (_ & Hr & Hn).
  apply bind_no_panic; [done|]. intros rest Hrest. apply bind_no_panic; [by apply Hn | done].
Qed.
#[local] Hint Resolve latestBlockIndex_no_panic : no_panic.

Lemma put_block_no_panic r (b : B) x : put_block r b x ≠ Panic.
Proof. unfold put_block, putIdentical. no_panic. Qed.
#[local] Hint Resolve put_block_no_panic : no_panic.

Lemma putChannel_no_panic (b : B) ch cutoff : putChannel b ch cutoff ≠ Panic.
Proof. unfold putChannel, check_source, putIdentical, put_expiry. no_panic. Qed.
#[local] Hint Resolve putChannel_no_panic : no_panic.

Lemma put_tx_no_panic cutoff (b : B) t : put_tx cutoff b t ≠ Panic.
Proof. unfold put_tx, putIdentical, put_expiry. no_panic. Qed.
#[local] Hint Resolve put_tx_no_panic : no_panic.

Lemma readBlobState_no_panic (d : D) : readBlobState d ≠ Panic.
Proof. unfold readBlobState. no_panic. Qed.
#[local] Hint Resolve readBlobState_no_panic : no_panic.

Lemma StoreBlobState_no_panic (s : Store D) : StoreBlobState s ≠ Panic.
Proof. unfold StoreBlobState. no_panic. Qed.

Lemma CommitBlob_no_panic (s : Store D) before after txs chs : CommitBlob s before after txs chs ≠ Panic.
Proof. unfold CommitBlob, pruneBlob, pruneKind, putJSON. no_panic. Qed.

Lemma InitBlob_no_panic (s : Store D) id : InitBlob s id ≠ Panic.
Proof. unfold InitBlob, putJSON. no_panic. Qed.

Lemma fill_deposits_no_panic (d : D) txs : fill_deposits d txs ≠ Panic.
Proof. induction txs as [|tx txs IH]; cbn [fill_deposits]; [done|]. unfold readEnqueue. no_panic. Qed.
#[local] Hint Resolve fill_deposits_no_panic : no_panic.

Lemma GetBlock_no_panic (s : Store D) index : GetBlock s index ≠ Panic.
Proof. unfold GetBlock, check_served. no_panic. Qed.

Lemma StoreBlobTransaction_no_panic (s : Store D) h : StoreBlobTransaction s h ≠ Panic.
Proof. unfold StoreBlobTransaction. no_panic. Qed.

(** [C40] The stores never panic: whatever the database file holds, corrupted
    documents, keys of any length, and whatever the checkpoint and the
    records are, opening, every read and every write returns a value or an
    error.  In particular the slices of [expire_key] and [latestBlockIndex]
    stay inside the key. *)
Theorem stores_never_panic (d : D) (s : Store D) :
  (∀ id, Open d id ≠ Panic) ∧ StoreState s ≠ Panic ∧ (∀ i, StoreGet s i ≠ Panic) ∧
  (∀ before after rs, Commit s before after rs ≠ Panic) ∧
  (∀ id, InitBlob s id ≠ Panic) ∧ StoreBlobState s ≠ Panic ∧
  (∀ h, StoreBlobTransaction s h ≠ Panic) ∧ (∀ i, GetBlock s i ≠ Panic) ∧
  (∀ before after txs chs, CommitBlob s before after txs chs ≠ Panic).
Proof.
  split_and!; intros; [..| apply CommitBlob_no_panic];
    first [ apply StoreState_no_panic | apply StoreGet_no_panic | apply Commit_no_panic | apply InitBlob_no_panic | apply StoreBlobState_no_panic
          | apply StoreBlobTransaction_no_panic | apply GetBlock_no_panic
          | unfold Open, initIdentity; no_panic ].
Qed.

End panics.

Module PanicWitness.

#[local] Existing Instances HexText.text MemKV.pebble MemKV.no_panic.

(** An index entry whose key is too short, and an identity. *)
Definition short_key : Store MemKV.db :=
  mkStore (MemKV.Db (<[blobKey "index" [wrap 8 1] := RBytes []]>
    (<[blobStateKey := json_Marshal zero_BlobState]> ∅))) false.

Definition pruned : result (Store MemKV.db) :=
  CommitBlob (B := MemKV.batch) short_key zero_BlobState zero_BlobState [] [].

Lemma stores_never_panic_witness : pruned = Err integrity_error ∧ pruned ≠ Panic.
Proof.
  split; [vm_compute; reflexivity|].
  apply (stores_never_panic (D := MemKV.db) (B := MemKV.batch) (st_db short_key) short_key).
Defined.

End PanicWitness.
