(* ===== verification/BlobStoreFacts.v ===== *)
(** * The blob archive

    What the blob part of the database holds, as typed tables; how the tables
    are laid out in keys; and what each write does to them. *)
From S2P Require Import Prelude Word Json Geth Pebble StoreTypes DepositStore BlobStore.

(** ** Keys with their meaning *)

Inductive bkey : Type :=
  | KState
  | KTx (hash : Hash)
  | KChannel (id : string)
  | KIndex (n : u64)
  | KBlock (n : u64)
  | KTxExpiry (ts : u64) (hash : Hash)
  | KChannelExpiry (ts : u64) (id : string).

#[export] Instance bkey_eq_dec : EqDecision bkey.
Proof. solve_decision. Defined.

Definition bkey_bytes (k : bkey) : bytes :=
  match k with
  | KState => blobStateKey
  | KTx h => blobKey "tx" (hash_bytes h)
  | KChannel id => blobKey "channel" (bytes_of_string id)
  | KIndex n => blobNumberKey "index" n
  | KBlock n => blobNumberKey "block" n
  | KTxExpiry ts h => expirationKey "tx" ts (hash_bytes h)
  | KChannelExpiry ts id => expirationKey "channel" ts (bytes_of_string id)
  end.

Lemma hash_bytes_inj h h' : hash_bytes h = hash_bytes h' → h = h'.
Proof. intros E. by apply (be_bytes_inj 32) in E. Qed.

Lemma number_bytes_inj (n n' : u64) a b :
  be_bytes 8 (uval n) ++ a = be_bytes 8 (uval n') ++ b → n = n' ∧ a = b.
Proof.
  intros [E ->]%app_inj_1; [|by rewrite !length_be_bytes].
  by apply (be_bytes_inj 8) in E as ->.
Qed.

Lemma bkey_bytes_inj k k' : bkey_bytes k = bkey_bytes k' → k = k'.
Proof.
  destruct k, k'; cbn [bkey_bytes]; try done;
    unfold blobNumberKey, expirationKey, blobNumberKey, blobKey;
    rewrite <-?app_assoc; intros E; apply (inj (app _)) in E.
  - by apply hash_bytes_inj in E as ->.
  - by apply bytes_of_string_inj in E as ->.
  - apply (be_bytes_inj 8) in E; [by subst | done].
  - apply (be_bytes_inj 8) in E; [by subst | done].
  - apply number_bytes_inj in E as [-> ->%hash_bytes_inj]. done.
  - by apply number_bytes_inj in E as [-> ->%bytes_of_string_inj].
Qed.

Lemma bkey_not_identity k : bkey_bytes k ≠ blobIdentityKey.
Proof. by destruct k. Qed.

(** The other components' keys. *)
Definition blob_prefix : bytes := bytes_of_string "blob/".
Definition is_blob (k : bytes) : Prop := blob_prefix `prefix_of` k.

Lemma bkey_is_blob k : is_blob (bkey_bytes k).
Proof. destruct k; by eexists. Qed.
Lemma identity_is_blob : is_blob blobIdentityKey.
Proof. by eexists. Qed.

(** ** Tables *)

(** Blocks are stored with the ID of the channel they came from. *)
Record archive : Type := mkArchive {
  ar_state : BlobState;
  ar_txs : gmap Hash BlobTransaction;
  ar_channels : gmap string ChannelRecord;
  ar_blocks : gmap u64 (string * Block);
  ar_due_txs : gset (u64 * Hash);
  ar_due_channels : gset (u64 * string);
}.

Definition set_state (A : archive) s : archive :=
  mkArchive s (ar_txs A) (ar_channels A) (ar_blocks A) (ar_due_txs A) (ar_due_channels A).
Definition set_txs (A : archive) t d : archive :=
  mkArchive (ar_state A) t (ar_channels A) (ar_blocks A) d (ar_due_channels A).
Definition set_channels (A : archive) c b d : archive :=
  mkArchive (ar_state A) (ar_txs A) c b (ar_due_txs A) d.

Definition empty_archive : archive := mkArchive zero_BlobState ∅ ∅ ∅ ∅ ∅.

Definition marker (present : bool) : option raw := if present then Some (RBytes []) else None.

Section archive.
Context `{GethText}.

Definition stored (A : archive) (k : bkey) : option raw :=
  match k with
  | KState => Some (json_Marshal (ar_state A))
  | KTx h => json_Marshal <$> ar_txs A !! h
  | KChannel id => json_Marshal <$> ar_channels A !! id
  | KIndex n => (λ ib, json_Marshal (A := string) ib.1) <$> ar_blocks A !! n
  | KBlock n => (λ ib, json_Marshal (A := Block) ib.2) <$> ar_blocks A !! n
  | KTxExpiry ts h => marker (bool_decide ((ts, h) ∈ ar_due_txs A))
  | KChannelExpiry ts id => marker (bool_decide ((ts, id) ∈ ar_due_channels A))
  end.

End archive.

(** [m] holds the values of [f] under its blob keys and no other blob keys
    besides the identity; everything else is as in [m0]. *)
Record holds_keys (m0 m : gmap bytes raw) (f : bkey → option raw) : Prop := {
  hk_lookup k : m !! bkey_bytes k = f k;
  hk_known k : is_Some (m !! k) → is_blob k → k = blobIdentityKey ∨ ∃ bk, k = bkey_bytes bk;
  hk_other k : ¬ is_blob k ∨ k = blobIdentityKey → m !! k = m0 !! k;
}.

Definition layout `{GethText} (m0 m : gmap bytes raw) (A : archive) : Prop :=
  holds_keys m0 m (stored A).

Lemma holds_keys_ext m0 m f g :
  holds_keys m0 m f → (∀ k, g k = f k) → holds_keys m0 m g.
Proof. intros [Hl Hk Ho] Hfg. split; [|done..]. intros k. by rewrite Hfg. Qed.

Lemma other_not_bkey k bk : ¬ is_blob k ∨ k = blobIdentityKey → bkey_bytes bk ≠ k.
Proof.
  intros [Hk| ->] E; [subst k; by apply Hk, bkey_is_blob | by eapply bkey_not_identity].
Qed.

Lemma holds_keys_insert m0 m f k v :
  holds_keys m0 m f →
  holds_keys m0 (<[bkey_bytes k := v]> m) (λ k', if decide (k' = k) then Some v else f k').
Proof.
  intros [Hl Hk Ho]. split.
  - intros k'. case_decide as E; [by subst; rewrite lookup_insert_eq|].
    rewrite lookup_insert_ne; [done|]. intros E2%bkey_bytes_inj. by subst.
  - intros k' Hs Hb. destruct (decide (k' = bkey_bytes k)) as [->|Hne]; [eauto|].
    rewrite lookup_insert_ne in Hs by done. by apply Hk.
  - intros k' Hk'. rewrite lookup_insert_ne by by apply other_not_bkey. by apply Ho.
Qed.

Lemma holds_keys_delete m0 m f k :
  holds_keys m0 m f →
  holds_keys m0 (delete (bkey_bytes k) m) (λ k', if decide (k' = k) then None else f k').
Proof.
  intros [Hl Hk Ho]. split.
  - intros k'. case_decide as E; [by subst; rewrite lookup_delete_eq|].
    rewrite lookup_delete_ne; [done|]. intros E2%bkey_bytes_inj. by subst.
  - intros k' Hs Hb. destruct (decide (k' = bkey_bytes k)) as [->|Hne]; [eauto|].
    rewrite lookup_delete_ne in Hs by done. by apply Hk.
  - intros k' Hk'. rewrite lookup_delete_ne by by apply other_not_bkey. by apply Ho.
Qed.

(** ** Reading *)

#[export] Instance BlobIdentity_non_null `{GethText} : NonNull BlobIdentity.
Proof. done. Qed.
#[export] Instance BlobState_non_null `{GethText} : NonNull BlobState.
Proof. done. Qed.
#[export] Instance BlobTransaction_non_null `{GethText} : NonNull BlobTransaction.
Proof. done. Qed.
#[export] Instance ChannelRecord_non_null `{GethText} : NonNull ChannelRecord.
Proof. done. Qed.
#[export] Instance Block_non_null `{GethText} : NonNull Block.
Proof. done. Qed.

Section reading.
Context {G : Type} `{GetterLaws G}.
Context {A : Type} `{CodecLaws A, !NonNull A}.

(** What is read from a key that holds a document or nothing. *)
Lemma readJSON_Ok (g : G) key req (x : option A) (o : option A) :
  contents g !! key = json_Marshal <$> x → readJSON g key req = Ok o → o = x.
Proof.
  intros Hx Hr. unfold readJSON in Hr. apply bind_Ok_inv in Hr as (v & Hv%readValue_Ok & Hr).
  rewrite Hx in Hv. destruct x as [a|]; simpl in Hv; subst v.
  - rewrite json_Unmarshal_Marshal in Hr. by inv_guard Hr.
  - by inv_guard Hr.
Qed.

Lemma readJSON_required (g : G) key (o : option A) : readJSON g key true = Ok o → is_Some o.
Proof. unfold readJSON. intros Hr. by inv_guard Hr. Qed.

Lemma required_Ok (g : G) key (x : option A) a :
  contents g !! key = json_Marshal <$> x → required g key = Ok a → x = Some a.
Proof.
  intros Hx Hr. unfold required in Hr. inv_bind.
  apply readJSON_required in Hv as Hs. apply (readJSON_Ok _ _ _ x) in Hv as ->; [|done].
  by destruct Hs as [a ->].
Qed.

End reading.

Section reliable_documents.
Context {D B : Type} `{Reliable D B}.
Context {A : Type} `{CodecLaws A, !NonNull A}.

Lemma not_null (a : A) : bool_decide (json_Marshal a = RJson JNull) = false.
Proof. apply bool_decide_eq_false_2. intros [= E]. by eapply marshal_non_null. Qed.

Lemma required_db (d : D) key (a : A) :
  contents d !! key = Some (json_Marshal a) → required d key = Ok a.
Proof.
  intros Ha. unfold required, readJSON. rewrite readValue_db, Ha. cbn [bind].
  by rewrite json_Unmarshal_Marshal, not_null.
Qed.

Lemma required_batch (b : B) key (a : A) :
  contents b !! key = Some (json_Marshal a) → required b key = Ok a.
Proof.
  intros Ha. unfold required, readJSON. rewrite readValue_batch, Ha. cbn [bind].
  by rewrite json_Unmarshal_Marshal, not_null.
Qed.

Lemma readJSON_db (d : D) key req (x : option A) :
  contents d !! key = json_Marshal <$> x → req = false ∨ is_Some x →
  readJSON d key req = Ok x.
Proof.
  intros Hx Hreq. unfold readJSON. rewrite readValue_db, Hx. cbn [bind].
  destruct x as [a|]; simpl; [by rewrite json_Unmarshal_Marshal, not_null|].
  by destruct Hreq as [->|[? ?]].
Qed.
End reliable_documents.

(** ** Writing *)

(** A successful write, by key. *)
Section writing.
Context {D B : Type} `{PebbleLaws D B}.
Context (m0 : gmap bytes raw).

Lemma holds_Set b k v b' f :
  holds_keys m0 (contents b) f → batch_Set b (bkey_bytes k) v = Ok b' →
  holds_keys m0 (contents b') (λ k', if decide (k' = k) then Some v else f k').
Proof. intros Hf Hb. apply batch_Set_Ok in Hb as ->. by apply holds_keys_insert. Qed.

Lemma holds_Delete b k b' f :
  holds_keys m0 (contents b) f → batch_Delete b (bkey_bytes k) = Ok b' →
  holds_keys m0 (contents b') (λ k', if decide (k' = k) then None else f k').
Proof. intros Hf Hb. apply batch_Delete_Ok in Hb as ->. by apply holds_keys_delete. Qed.

(** [putIdentical] writes a value where there was none or the same one. *)
Lemma holds_putIdentical `{CodecLaws A} b k (a : A) b' f :
  holds_keys m0 (contents b) f → putIdentical b (bkey_bytes k) a = Ok b' →
  (f k = None ∨ f k = Some (json_Marshal a)) ∧
  holds_keys m0 (contents b') (λ k', if decide (k' = k) then Some (json_Marshal a) else f k').
Proof.
  intros Hf Hb. unfold putIdentical in Hb. inv_bind. apply readValue_Ok in Hv.
  rewrite (hk_lookup _ _ _ Hf) in Hv. subst v.
  destruct (match f k with Some o => _ | None => _ end) eqn:E; [done|].
  split; [|by eapply holds_Set].
  destruct (f k) as [o|]; [right|by left]. bool_to_prop. by subst.
Qed.
End writing.

Lemma marker_insert `{Countable K} (x : K) (X : gset K) y :
  marker (bool_decide (y ∈ {[x]} ∪ X)) =
  if decide (y = x) then Some (RBytes []) else marker (bool_decide (y ∈ X)).
Proof.
  unfold marker. case_decide as E.
  - rewrite bool_decide_true; set_solver.
  - rewrite (bool_decide_ext _ (y ∈ X)) by set_solver. done.
Qed.

Lemma marker_delete `{Countable K} (x : K) (X : gset K) y :
  marker (bool_decide (y ∈ X ∖ {[x]})) =
  if decide (y = x) then None else marker (bool_decide (y ∈ X)).
Proof.
  unfold marker. case_decide as E.
  - rewrite bool_decide_false; set_solver.
  - rewrite (bool_decide_ext _ (y ∈ X)) by set_solver. done.
Qed.

(** Closes an equation between the values of two archives, key by key. *)
Ltac by_key :=
  let k := fresh "k" in
  intros k; destruct k; cbn [stored set_txs set_channels set_state ar_state ar_txs
    ar_channels ar_blocks ar_due_txs ar_due_channels];
  rewrite ?marker_insert, ?marker_delete;
  repeat match goal with
  | |- context [decide (?x = ?y)] => destruct (decide (x = y)); simplify_eq
  end;
  rewrite ?lookup_insert_eq, ?lookup_delete_eq, ?lookup_insert_ne, ?lookup_delete_ne
    by congruence;
  first [reflexivity | congruence].

(** ** The key ranges that are iterated *)

Lemma bytes_lt_le_trans a b c :
  bytes_lt b a = false → bytes_lt c b = false → bytes_lt c a = false.
Proof.
  intros Hab Hbc. destruct (bytes_lt c a) eqn:E; [|done].
  destruct (bytes_lt b c) eqn:E2.
  - by rewrite (bytes_lt_trans b c a) in Hab.
  - rewrite (bytes_lt_total b c E2 Hbc) in Hab. congruence.
Qed.

Lemma range_is_blob k x y :
  bytes_lt k (blob_prefix ++ x) = false → bytes_lt k (blob_prefix ++ y) = true → is_blob k.
Proof.
  intros Hx Hy. destruct (bytes_lt_prefix blob_prefix y k) as [s ->]; [|done|by eexists].
  eapply bytes_lt_le_trans; [apply bytes_lt_app_r | exact Hx].
Qed.

(** Numbered keys sort by their number. *)
Lemma number_lt p (n c : u64) (id : bytes) :
  bytes_lt (p ++ be_bytes 8 (uval n) ++ id) (p ++ be_bytes 8 (uval c)) = ult n c.
Proof.
  rewrite bytes_lt_app. rewrite <-(app_nil_r (be_bytes 8 (uval c))).
  rewrite bytes_lt_value by by rewrite !length_be_bytes.
  rewrite !be_value_be_bytes, bytes_lt_nil_r, andb_false_r, orb_false_r.
  pose proof (uint_range n). pose proof (uint_range c).
  rewrite !Z.mod_small by done. done.
Qed.


(** The expiry keys before a cutoff. *)
Lemma tx_range k cutoff :
  k = blobIdentityKey ∨ (∃ bk, k = bkey_bytes bk) →
  bytes_lt k (blobKey "expiry/tx" []) = false ∧
    bytes_lt k (blobNumberKey "expiry/tx" cutoff) = true ↔
  ∃ ts h, k = bkey_bytes (KTxExpiry ts h) ∧ uval ts < uval cutoff.
Proof.
  intros Hk. split.
  - intros [Hlo Hhi]. destruct Hk as [->|[bk ->]]; [done|].
    destruct bk; cbn [bkey_bytes] in *; try done.
    unfold expirationKey, blobNumberKey, blobKey in Hhi. rewrite <-!app_assoc in Hhi.
    rewrite number_lt in Hhi. unfold ult in Hhi. bool_to_prop. by exists ts, hash.
  - intros (ts & h & -> & Hlt). cbn [bkey_bytes].
    unfold expirationKey, blobNumberKey, blobKey. rewrite <-!app_assoc.
    rewrite bytes_lt_app, bytes_lt_nil_r, number_lt. split; [done|].
    unfold ult. by apply Z.ltb_lt.
Qed.

Lemma channel_range k cutoff :
  k = blobIdentityKey ∨ (∃ bk, k = bkey_bytes bk) →
  bytes_lt k (blobKey "expiry/channel" []) = false ∧
    bytes_lt k (blobNumberKey "expiry/channel" cutoff) = true ↔
  ∃ ts id, k = bkey_bytes (KChannelExpiry ts id) ∧ uval ts < uval cutoff.
Proof.
  intros Hk. split.
  - intros [Hlo Hhi]. destruct Hk as [->|[bk ->]]; [done|].
    destruct bk; cbn [bkey_bytes] in *; try done.
    unfold expirationKey, blobNumberKey, blobKey in Hhi. rewrite <-!app_assoc in Hhi.
    rewrite number_lt in Hhi. unfold ult in Hhi. bool_to_prop. by exists ts, id.
  - intros (ts & id & -> & Hlt). cbn [bkey_bytes].
    unfold expirationKey, blobNumberKey, blobKey. rewrite <-!app_assoc.
    rewrite bytes_lt_app, bytes_lt_nil_r, number_lt. split; [done|].
    unfold ult. by apply Z.ltb_lt.
Qed.

Lemma index_range k :
  k = blobIdentityKey ∨ (∃ bk, k = bkey_bytes bk) →
  bytes_lt k (blobKey "index" []) = false ∧ bytes_lt k (bytes_of_string "blob/index0") = true ↔
  ∃ n, k = bkey_bytes (KIndex n).
Proof.
  intros Hk. split.
  - intros [Hlo Hhi]. destruct Hk as [->|[bk ->]]; [done|].
    destruct bk; cbn [bkey_bytes] in *; try done. by eexists.
  - intros [n ->]. cbn [bkey_bytes]. unfold blobNumberKey, blobKey.
    rewrite bytes_lt_app, bytes_lt_nil_r. by split.
Qed.
