(* ===== verification/BlobCommit.v ===== *)
(** * What a blob commit does to the archive

    The well-formedness of the archive, and the effect of the loops of
    [CommitBlob]: adding transactions and channels, expiring channels, then
    transactions, and finding the latest block. *)
From S2P Require Import Prelude Word Json Geth Pebble StoreTypes DepositStore BlobStore.
From S2P Require Import BlobStoreFacts.

(** ** Well-formed archives *)

(** [ts] is the oldest timestamp of the sources, all of which are there. *)
Record oldest_source (txs : gmap Hash BlobTransaction) (sources : list Hash) (ts : u64) :
    Prop := {
  os_present h : h ∈ sources → ∃ t, txs !! h = Some t ∧ btMissing t = false ∧
    uval ts <= uval (btTimestamp t);
  os_attained : ∃ h t, h ∈ sources ∧ txs !! h = Some t ∧ btTimestamp t = ts;
}.

Record channel_ok (A : archive) (id : string) (r : ChannelRecord) : Prop := {
  co_id : crID r = id;
  co_named : id ≠ "";
  co_blocks : crBlocks r ≠ [];
  co_sources : oldest_source (ar_txs A) (crSources r) (crExpiresAt r);
  co_stored n : n ∈ crBlocks r → ∃ b, ar_blocks A !! n = Some (id, b);
}.

Record block_ok (A : archive) (n : u64) (id : string) (b : Block) : Prop := {
  bo_index : bIndex b = n;
  bo_channel : ∃ r, ar_channels A !! id = Some r ∧ n ∈ crBlocks r ∧
    bBatchIndex b = baIndex (crBatch r);
}.

(** Nothing older than [c] is kept, and the expiry keys are exactly those of
    the records. *)
Record wf (c : u64) (A : archive) : Prop := {
  wf_tx h t : ar_txs A !! h = Some t → btHash t = h ∧ uval c <= uval (btTimestamp t) ∧
    (btMissing t = true → btFrames t = []);
  wf_due_tx ts h : (ts, h) ∈ ar_due_txs A ↔ ∃ t, ar_txs A !! h = Some t ∧ btTimestamp t = ts;
  wf_channel id r : ar_channels A !! id = Some r → channel_ok A id r;
  wf_due_channel ts id : (ts, id) ∈ ar_due_channels A ↔
    ∃ r, ar_channels A !! id = Some r ∧ crExpiresAt r = ts;
  wf_block n id b : ar_blocks A !! n = Some (id, b) → block_ok A n id b;
}.

(** A channel is as young as its oldest source. *)
Lemma wf_channel_cutoff c A id r :
  wf c A → ar_channels A !! id = Some r → uval c <= uval (crExpiresAt r).
Proof.
  intros W Hr. destruct (co_sources _ _ _ (wf_channel _ _ W _ _ Hr)) as [_ (h & t & _ & Ht & <-)].
  by apply (wf_tx _ _ W) in Ht as (_ & ? & _).
Qed.

Lemma wf_set_state c A s : wf c A → wf c (set_state A s).
Proof.
  intros [Wt Wdt Wc Wdc Wb]. split; [done | done | | done |].
  - intros id r Hr. destruct (Wc id r Hr). by split.
  - intros n id b Hb. destruct (Wb n id b Hb). by split.
Qed.

Lemma wf_empty c : wf c empty_archive.
Proof.
  split; cbn; try done; intros ts x; (split; [set_solver | by intros (? & ? & _)]).
Qed.

(** ** Adding a transaction *)

Definition add_record (A : archive) (t : BlobTransaction) : archive :=
  set_txs A (<[btHash t := t]> (ar_txs A)) ({[(btTimestamp t, btHash t)]} ∪ ar_due_txs A).

Lemma oldest_source_insert txs t sources ts :
  txs !! btHash t = None ∨ txs !! btHash t = Some t →
  oldest_source txs sources ts → oldest_source (<[btHash t := t]> txs) sources ts.
Proof.
  intros Hold [Hp (h & x & Hin & Hx & He)].
  assert (∀ h y, txs !! h = Some y → <[btHash t := t]> txs !! h = Some y) as Hmono.
  { intros h' y Hy. destruct (decide (h' = btHash t)) as [->|]; [|by rewrite lookup_insert_ne].
    rewrite lookup_insert_eq. destruct Hold; congruence. }
  split.
  - intros h' Hh'. destruct (Hp h' Hh') as (y & Hy & ?). exists y. auto.
  - exists h, x. auto.
Qed.

Lemma wf_add_record c A t :
  wf c A → uval c <= uval (btTimestamp t) → (btMissing t = true → btFrames t = []) →
  ar_txs A !! btHash t = None ∨ ar_txs A !! btHash t = Some t →
  wf c (add_record A t).
Proof.
  intros W Hc Hm Hold. split; cbn [add_record set_txs ar_txs ar_channels ar_blocks ar_due_txs
    ar_due_channels]; [| | | apply W |].
  - intros h t' [[<- <-]|[Hne Ht']]%lookup_insert_Some; [done | by apply W].
  - intros ts h. rewrite elem_of_union, elem_of_singleton, (wf_due_tx _ _ W).
    destruct (decide (h = btHash t)) as [->|Hne].
    + rewrite lookup_insert_eq. split; [|intros (? & [= <-] & <-); auto].
      intros [[= ->]|(t' & Ht' & <-)]; [eauto|]. destruct Hold; simplify_eq; eauto.
    + rewrite lookup_insert_ne by done. split; [|by right].
      intros [[= -> ->]|?]; done.
  - intros id r Hr. destruct (wf_channel _ _ W _ _ Hr) as [? ? ? Hs ?]. split; [done..| |done].
    by apply oldest_source_insert.
  - intros n id b Hb. destruct (wf_block _ _ W _ _ _ Hb). by split.
Qed.

(** Blocks written for a channel: old entries stay, new ones are its own. *)
Record blocks_added (r : ChannelRecord) (new : list (u64 * Block))
    (old after : gmap u64 (string * Block)) : Prop := {
  ba_checked n b : (n, b) ∈ new → bIndex b = n ∧ bBatchIndex b = baIndex (crBatch r);
  ba_new n b : (n, b) ∈ new → after !! n = Some (crID r, b);
  ba_old n x : old !! n = Some x → after !! n = Some x;
  ba_only n x : after !! n = Some x →
    old !! n = Some x ∨ ∃ b, x = (crID r, b) ∧ (n, b) ∈ new;
}.

Definition set_blocks (A : archive) b : archive :=
  set_channels A (ar_channels A) b (ar_due_channels A).

(** The archive with a channel added. *)
Definition with_channel (A : archive) (r : ChannelRecord) (blocks : gmap u64 (string * Block)) :
    archive :=
  set_channels A (<[crID r := r]> (ar_channels A)) blocks
    ({[(crExpiresAt r, crID r)]} ∪ ar_due_channels A).

Lemma wf_with_channel c A r bs blocks :
  wf c A → crID r ≠ "" → crBlocks r ≠ [] → length (crBlocks r) = length bs →
  oldest_source (ar_txs A) (crSources r) (crExpiresAt r) →
  ar_channels A !! crID r = None ∨ ar_channels A !! crID r = Some r →
  blocks_added r (zip (crBlocks r) bs) (ar_blocks A) blocks →
  wf c (with_channel A r blocks).
Proof.
  intros W Hid Hne Hlen Hs Hold [Hc Hnew Hkeep Honly].
  assert (∀ id r', ar_channels A !! id = Some r' →
    <[crID r := r]> (ar_channels A) !! id = Some r') as Hmono.
  { intros id r' Hr. destruct (decide (id = crID r)) as [->|]; [|by rewrite lookup_insert_ne].
    rewrite lookup_insert_eq. destruct Hold; congruence. }
  split; cbn [with_channel set_channels ar_txs ar_channels ar_blocks ar_due_txs
    ar_due_channels]; [apply W | apply W | | |].
  - intros id r' [[<- <-]|[_ Hr]]%lookup_insert_Some.
    + split; [done..|]. intros n [i Hi]%list_elem_of_lookup.
      destruct (lookup_lt_is_Some_2 bs i) as [b Hb].
      { rewrite <-Hlen. by eapply lookup_lt_Some. }
      exists b. apply Hnew, list_elem_of_lookup. exists i. by apply lookup_zip_Some.
    + destruct (wf_channel _ _ W _ _ Hr) as [? ? ? ? Hst]. split; [done..|].
      intros n Hn. destruct (Hst n Hn) as [b Hb]. eauto.
  - intros ts id. rewrite elem_of_union, elem_of_singleton, (wf_due_channel _ _ W).
    destruct (decide (id = crID r)) as [->|Hne'].
    + rewrite lookup_insert_eq. split; [|intros (? & [= <-] & <-); auto].
      intros [[= ->]|(r' & Hr & <-)]; [eauto|]. destruct Hold; simplify_eq; eauto.
    + rewrite lookup_insert_ne by done. split; [|by right].
      intros [[= -> ->]|?]; done.
  - intros n id b Hb. destruct (Honly _ _ Hb) as [Ho|(b' & [= -> ->] & Hin)].
    + destruct (wf_block _ _ W _ _ _ Ho) as [Hi (r' & Hr & ?)]. split; [done|].
      exists r'. split; [by apply Hmono | done].
    + destruct (Hc _ _ Hin) as [Hi Hbi]. split; [done|]. exists r.
      cbn [with_channel set_channels ar_channels]. rewrite lookup_insert_eq.
      split_and!; [done | by eapply elem_of_zip_l | done].
Qed.

(** The archive without some channels and their blocks. *)
Definition minus_channels (l : list (u64 * string)) (A : archive) : archive :=
  set_channels A (filter (λ kv, kv.1 ∉ l.*2) (ar_channels A))
    (filter (λ kv, kv.2.1 ∉ l.*2) (ar_blocks A)) (ar_due_channels A ∖ list_to_set l).

Lemma minus_channels_nil A : minus_channels [] A = A.
Proof.
  destruct A. unfold minus_channels, set_channels. cbn. f_equal;
    [apply map_eq; intros k; apply option_eq; intros x;
     rewrite map_lookup_filter_Some; set_solver .. | set_solver].
Qed.

Lemma minus_channels_cons x l A :
  minus_channels l (minus_channels [x] A) = minus_channels (x :: l) A.
Proof.
  unfold minus_channels, set_channels. cbn. f_equal;
    [apply map_eq; intros k; apply option_eq; intros y;
     rewrite !map_lookup_filter_Some; set_solver .. | set_solver].
Qed.

Lemma wf_minus_channels c l A :
  wf c A → (∀ x, x ∈ l → x ∈ ar_due_channels A) → wf c (minus_channels l A).
Proof.
  intros W Hl. split; cbn [minus_channels set_channels ar_txs ar_channels ar_blocks ar_due_txs
    ar_due_channels]; [apply W | apply W | | |].
  - intros id r [Hr Hnot]%map_lookup_filter_Some. simpl in Hnot.
    destruct (wf_channel _ _ W _ _ Hr) as [? ? ? ? Hst]. split; [done..|].
    intros n Hn. destruct (Hst n Hn) as [b Hb]. exists b.
    by apply map_lookup_filter_Some.
  - intros ts id. rewrite elem_of_difference, elem_of_list_to_set, (wf_due_channel _ _ W). split.
    + intros [(r & Hr & <-) Hnot]. exists r. rewrite map_lookup_filter_Some. split_and!; [done| |done].
      intros ([ts' id'] & Heq & Hin)%list_elem_of_fmap. apply Hnot. simpl in *. subst id'.
      pose proof (Hl _ Hin) as (r' & Hr' & <-)%(wf_due_channel _ _ W). by simplify_eq.
    + intros (r & [Hr Hnot]%map_lookup_filter_Some & <-). split; [eauto|].
      intros Hin. apply Hnot, list_elem_of_fmap. by exists (crExpiresAt r, id).
  - intros n id b [Hb Hnot]%map_lookup_filter_Some. simpl in Hnot.
    destruct (wf_block _ _ W _ _ _ Hb) as [Hi (r & Hr & ?)]. split; [done|].
    exists r. split; [by apply map_lookup_filter_Some | done].
Qed.

(** The archive without some transactions. *)
Definition minus_txs (l : list (u64 * Hash)) (A : archive) : archive :=
  set_txs A (filter (λ kv, kv.1 ∉ l.*2) (ar_txs A)) (ar_due_txs A ∖ list_to_set l).

Lemma minus_txs_nil A : minus_txs [] A = A.
Proof.
  destruct A. unfold minus_txs, set_txs. cbn. f_equal;
    [apply map_eq; intros k; apply option_eq; intros x;
     rewrite map_lookup_filter_Some; set_solver | set_solver].
Qed.

Lemma minus_txs_cons x l A : minus_txs l (minus_txs [x] A) = minus_txs (x :: l) A.
Proof.
  unfold minus_txs, set_txs. cbn. f_equal;
    [apply map_eq; intros k; apply option_eq; intros y;
     rewrite !map_lookup_filter_Some; set_solver | set_solver].
Qed.

(** Removing transactions that no channel needs. *)
Lemma wf_minus_txs c l A :
  wf c A → (∀ x, x ∈ l → x ∈ ar_due_txs A) →
  (∀ id r x, ar_channels A !! id = Some r → x ∈ l → uval x.1 < uval (crExpiresAt r)) →
  wf c (minus_txs l A).
Proof.
  intros W Hl Hfree. split; cbn [minus_txs set_txs ar_txs ar_channels ar_blocks ar_due_txs
    ar_due_channels]; [| | | apply W |].
  - intros h t [Ht _]%map_lookup_filter_Some. by apply W.
  - intros ts h. rewrite elem_of_difference, elem_of_list_to_set, (wf_due_tx _ _ W). split.
    + intros [(t & Ht & <-) Hnot]. exists t. rewrite map_lookup_filter_Some. split_and!; [done| |done].
      intros ([ts' h'] & Heq & Hin)%list_elem_of_fmap. apply Hnot. simpl in *. subst h'.
      pose proof (Hl _ Hin) as (t' & Ht' & <-)%(wf_due_tx _ _ W). by simplify_eq.
    + intros (t & [Ht Hnot]%map_lookup_filter_Some & <-). split; [eauto|].
      intros Hin. apply Hnot, list_elem_of_fmap. by exists (btTimestamp t, h).
  - intros id r Hr. destruct (wf_channel _ _ W _ _ Hr) as [? ? ? [Hp Ha] ?]. split; [done..| |done].
    assert (∀ h t, ar_txs A !! h = Some t → uval (crExpiresAt r) <= uval (btTimestamp t) →
      filter (λ kv, kv.1 ∉ l.*2) (ar_txs A) !! h = Some t) as Hkeep.
    { intros h t Ht Hge. apply map_lookup_filter_Some. split; [done|].
      intros ([ts' h'] & Heq & Hin)%list_elem_of_fmap. simpl in Heq. subst h'.
      pose proof (Hfree _ _ _ Hr Hin) as Hlt.
      pose proof (Hl _ Hin) as (t' & Ht' & <-)%(wf_due_tx _ _ W). simplify_eq. simpl in Hlt. lia. }
    split.
    + intros h Hh. destruct (Hp h Hh) as (t & Ht & ? & Hge). exists t. eauto.
    + destruct Ha as (h & t & Hh & Ht & He). exists h, t. split_and!; [done| |done].
      apply Hkeep; [done|]. rewrite He. lia.
  - intros n id b Hb. destruct (wf_block _ _ W _ _ _ Hb). by split.
Qed.

(** Removing exactly what is due leaves what is not. *)
Lemma minus_due_channels c (cutoff : u64) l A :
  wf c A →
  (∀ x : u64 * string, x ∈ l ↔ x ∈ ar_due_channels A ∧ uval x.1 < uval cutoff) →
  ∀ id r, ar_channels (minus_channels l A) !! id = Some r ↔
    ar_channels A !! id = Some r ∧ uval cutoff <= uval (crExpiresAt r).
Proof.
  intros W Hl id r. cbn. rewrite map_lookup_filter_Some. simpl.
  split; intros [Hr Hx]; (split; [done|]).
  - apply Z.nlt_ge. intros Hlt. apply Hx, list_elem_of_fmap.
    exists (crExpiresAt r, id). split; [done|]. apply Hl. split; [|done].
    apply (wf_due_channel _ _ W). eauto.
  - intros ([ts id'] & Heq & Hin)%list_elem_of_fmap. simpl in Heq. subst id'.
    apply Hl in Hin as [(r' & Hr' & <-)%(wf_due_channel _ _ W) Hlt]. simplify_eq/=. lia.
Qed.

Lemma minus_due_txs c (cutoff : u64) l A :
  wf c A →
  (∀ x : u64 * Hash, x ∈ l ↔ x ∈ ar_due_txs A ∧ uval x.1 < uval cutoff) →
  ∀ h t, ar_txs (minus_txs l A) !! h = Some t ↔
    ar_txs A !! h = Some t ∧ uval cutoff <= uval (btTimestamp t).
Proof.
  intros W Hl h t. cbn. rewrite map_lookup_filter_Some. simpl.
  split; intros [Ht Hx]; (split; [done|]).
  - apply Z.nlt_ge. intros Hlt. apply Hx, list_elem_of_fmap.
    exists (btTimestamp t, h). split; [done|]. apply Hl. split; [|done].
    apply (wf_due_tx _ _ W). eauto.
  - intros ([ts h'] & Heq & Hin)%list_elem_of_fmap. simpl in Heq. subst h'.
    apply Hl in Hin as [(t' & Ht' & <-)%(wf_due_tx _ _ W) Hlt]. simplify_eq/=. lia.
Qed.

Section steps.
Context `{GethText, !GethTextLaws}.
Context {D B : Type} `{PebbleLaws D B}.
Context (m0 : gmap bytes raw).

Lemma layout_document A m bk : layout m0 m A → m !! bkey_bytes bk = stored A bk.
Proof. intros L. apply L. Qed.

Lemma put_tx_Ok c (b : B) t b' A :
  layout m0 (contents b) A → put_tx c b t = Ok b' →
  (uval (btTimestamp t) < uval c ∧ b' = b) ∨
  (uval c <= uval (btTimestamp t) ∧ (btMissing t = true → btFrames t = []) ∧
   (ar_txs A !! btHash t = None ∨ ar_txs A !! btHash t = Some t) ∧
   layout m0 (contents b') (add_record A t)).
Proof.
  intros L Hp. unfold put_tx in Hp. destruct (ult _ _) eqn:Hc; unfold ult in Hc; bool_to_prop.
  { left. by inv_bind. }
  right. destruct (btMissing t && _) eqn:Hm; [done|]. apply bind_Ok_inv in Hp as (b1 & Hput & Hp).
  apply (holds_putIdentical m0 b (KTx (btHash t))) with (f := stored A) in Hput as [Hold L1];
    [|exact L].
  apply (holds_Set m0 b1 (KTxExpiry (btTimestamp t) (btHash t)) _ _ _ L1) in Hp as L2.
  split_and!; [done | | |].
  - intros E. rewrite E in Hm. simpl in Hm. by bool_to_prop.
  - cbn [stored] in Hold. destruct (ar_txs A !! btHash t) as [t'|]; [right|by left].
    destruct Hold as [|Hold]; [done|].
    apply (inj Some), json_Marshal_inj in Hold as ->. done.
  - apply (holds_keys_ext _ _ _ _ L2). unfold add_record. by_key.
Qed.

(** ** Adding a channel *)

Lemma check_sources_Ok (b : B) sources oldest A c :
  layout m0 (contents b) A → wf c A → sources ≠ [] →
  foldM (check_source b) max_uint64 sources = Ok oldest →
  oldest_source (ar_txs A) sources oldest.
Proof.
  intros L W Hne Hf.
  assert ((∀ h, h ∈ sources → ∃ t, ar_txs A !! h = Some t ∧ btMissing t = false ∧
      uval oldest <= uval (btTimestamp t)) ∧
    ((sources = [] ∧ oldest = max_uint64) ∨
     ∃ h t, h ∈ sources ∧ ar_txs A !! h = Some t ∧ btTimestamp t = oldest)) as [Hp Ha];
    [|by split; [done | destruct Ha as [[? _]|?]]].
  apply (foldM_inv _ (λ done o, (∀ h, h ∈ done → ∃ t, ar_txs A !! h = Some t ∧
      btMissing t = false ∧ uval o <= uval (btTimestamp t)) ∧
    ((done = [] ∧ o = max_uint64) ∨
     ∃ h t, h ∈ done ∧ ar_txs A !! h = Some t ∧ btTimestamp t = o))) in Hf; [done | |].
  { split; [|by left]. by intros h ?%elem_of_nil. }
  intros done h o o' [Hp Ha] _ Hs. unfold check_source in Hs.
  apply bind_Ok_inv in Hs as (t & Ht & Hs).
  apply (required_Ok _ _ (ar_txs A !! h)) in Ht; [|apply (layout_document _ _ (KTx h) L)].
  destruct (btMissing t) eqn:Hm; [done|]. case_bool_decide as Hh; [|done]. simpl in Hs.
  destruct (ult (btTimestamp t) o) eqn:Hlt; unfold ult in Hlt; bool_to_prop; inv_bind; split.
  - intros h' [Hin| ->%list_elem_of_singleton]%elem_of_app; [|exists t; split_and!; [done..|lia]].
    destruct (Hp h' Hin) as (t' & ? & ? & ?). exists t'. split_and!; [done..|lia].
  - right. exists (btHash t), t. split_and!; [set_solver | done..].
  - intros h' [Hin| ->%list_elem_of_singleton]%elem_of_app; [by apply Hp|].
    exists t. split_and!; [done..|lia].
  - right. destruct Ha as [[-> ->]|(h' & t' & ? & ? & ?)].
    + exists (btHash t), t. split_and!; [set_solver | done|]. apply uint_eq.
      rewrite uval_max_uint64 in *. pose proof (uint_range (btTimestamp t)) as Hr.
      change (modulus 64) with (2 ^ 64) in Hr. lia.
    + exists h', t'. split_and!; [set_solver | done..].
Qed.

Lemma put_block_Ok (r : ChannelRecord) (b : B) n blk b' A :
  layout m0 (contents b) A → put_block r b (n, blk) = Ok b' →
  bIndex blk = n ∧ bBatchIndex blk = baIndex (crBatch r) ∧
  (ar_blocks A !! n = None ∨ ar_blocks A !! n = Some (crID r, blk)) ∧
  layout m0 (contents b') (set_blocks A (<[n := (crID r, blk)]> (ar_blocks A))).
Proof.
  intros L Hp. unfold put_block in Hp.
  case_bool_decide as Hn; [|done]. case_bool_decide as Hb; [|done]. subst n. simpl in Hp.
  apply bind_Ok_inv in Hp as (b1 & Hp1 & Hp2).
  apply (holds_putIdentical m0 b (KIndex (bIndex blk))) with (f := stored A) in Hp1 as [O1 L1];
    [|exact L].
  apply (holds_putIdentical m0 b1 (KBlock (bIndex blk))) with (1 := L1) in Hp2 as [O2 L2].
  split_and!; [done | done | |].
  - rewrite decide_False in O2 by done. cbn [stored] in O1, O2.
    destruct (ar_blocks A !! bIndex blk) as [[id blk']|]; [right|by left]. simpl in *.
    destruct O1 as [|O1]; [done|]. apply (inj Some), json_Marshal_inj in O1 as ->.
    destruct O2 as [|O2]; [done|]. by apply (inj Some), json_Marshal_inj in O2 as ->.
  - apply (holds_keys_ext _ _ _ _ L2). unfold set_blocks. by_key.
Qed.

Lemma put_blocks_Ok (r : ChannelRecord) l : ∀ (b : B) b' A,
  layout m0 (contents b) A → foldM (put_block r) b l = Ok b' →
  ∃ after, layout m0 (contents b') (set_blocks A after) ∧ blocks_added r l (ar_blocks A) after.
Proof.
  induction l as [|[n blk] l IH]; intros b b' A L Hf; simpl in Hf.
  - inv_bind. exists (ar_blocks A). split; [by destruct A|].
    split; [by intros ?? ?%elem_of_nil.. | done | auto].
  - apply bind_Ok_inv in Hf as (b1 & Hb1 & Hf).
    apply put_block_Ok with (A := A) in Hb1 as (Hn & Hb & Hold & L1); [|done].
    apply (IH _ _ _ L1) in Hf as (after & L2 & [Hc Hnew Hkeep Honly]).
    exists after. split; [exact L2|]. cbn [set_blocks set_channels ar_blocks] in *.
    split.
    + intros n' b2 [[= -> ->]|Hin]%elem_of_cons; [done | by apply Hc].
    + intros n' b2 [[= -> ->]|Hin]%elem_of_cons; [|by apply Hnew].
      apply Hkeep, lookup_insert_eq.
    + intros n' x Hx. apply Hkeep. destruct (decide (n' = n)) as [->|].
      * rewrite lookup_insert_eq. destruct Hold; congruence.
      * by rewrite lookup_insert_ne.
    + intros n' x Hx. destruct (Honly _ _ Hx) as [Hi|(b2 & -> & Hin)].
      * apply lookup_insert_Some in Hi as [[<- <-]|[_ Hi]]; [|by left].
        right. exists blk. split; [done | by left].
      * right. exists b2. split; [done | by right].
Qed.

Lemma putChannel_Ok c cutoff (b : B) ch b' A :
  layout m0 (contents b) A → wf c A → putChannel b ch cutoff = Ok b' →
  let r := chRecord ch in
  crID r ≠ "" ∧ crBlocks r ≠ [] ∧ length (crBlocks r) = length (chBlocks ch) ∧
  oldest_source (ar_txs A) (crSources r) (crExpiresAt r) ∧
  ((uval (crExpiresAt r) < uval cutoff ∧ b' = b) ∨
   (uval cutoff <= uval (crExpiresAt r) ∧
    (ar_channels A !! crID r = None ∨ ar_channels A !! crID r = Some r) ∧
    ∃ blocks, layout m0 (contents b') (with_channel A r blocks) ∧
      blocks_added r (zip (crBlocks r) (chBlocks ch)) (ar_blocks A) blocks)).
Proof.
  intros L W Hp r. subst r. unfold putChannel in Hp. set (r := chRecord ch) in *.
  destruct (_ || _) eqn:Hg; [done|]. bool_to_prop. apply Nat.eqb_eq in H6.
  apply bind_Ok_inv in Hp as (oldest & Hs & Hp).
  apply (check_sources_Ok _ _ _ A c) in Hs; [|done..].
  case_bool_decide as He; [|done]. simpl in Hp. subst oldest.
  assert (crBlocks r ≠ []) as Hne.
  { intros E. rewrite E in H6. by destruct (chBlocks ch). }
  split_and!; [done..|].
  destruct (ult _ _) eqn:Hc; unfold ult in Hc; bool_to_prop.
  { left. by inv_bind. }
  right. split; [done|].
  apply bind_Ok_inv in Hp as (b1 & Hp1 & Hp). apply bind_Ok_inv in Hp as (b2 & Hp2 & Hp3).
  apply (holds_putIdentical m0 b (KChannel (crID r))) with (f := stored A) in Hp1 as [Ho L1];
    [|exact L].
  assert (layout m0 (contents b1)
    (set_channels A (<[crID r := r]> (ar_channels A)) (ar_blocks A) (ar_due_channels A))) as L1'.
  { apply (holds_keys_ext _ _ _ _ L1). by_key. }
  apply (put_blocks_Ok _ _ _ _ _ L1') in Hp2 as (blocks & L2 & Hb).
  apply (holds_Set m0 b2 (KChannelExpiry (crExpiresAt r) (crID r)) _ _ _ L2) in Hp3 as L3.
  split.
  - cbn [stored] in Ho. destruct (ar_channels A !! crID r); [right|by left].
    destruct Ho as [|Ho]; [done|]. by apply (inj Some), json_Marshal_inj in Ho as ->.
  - exists blocks. split; [|exact Hb]. apply (holds_keys_ext _ _ _ _ L3).
    unfold with_channel. by_key.
Qed.

(** ** Expiry *)

Lemma slice_from_app {A} (p s : list A) : slice_from (p ++ s) (len p) = Ok s.
Proof.
  unfold slice_from. rewrite <-(app_nil_r s) at 1. rewrite len_app.
  rewrite (slice_middle p s []); [done | done | lia].
Qed.

Lemma BigEndian_Uint64_app (n : u64) rest : BigEndian_Uint64 (be_bytes 8 (uval n) ++ rest) = Ok n.
Proof.
  unfold BigEndian_Uint64.
  rewrite <-(app_nil_l (_ ++ rest)), (slice_middle [] (be_bytes 8 (uval n)) rest);
    [| done | unfold len; by rewrite length_be_bytes].
  cbn [bind].
  rewrite be_value_be_bytes. f_equal. apply uint_eq.
  pose proof (uint_range n). rewrite Z.mod_small by done. by rewrite wrap_uval.
Qed.

Lemma expire_key_eq kind (b : B) ts id :
  expire_key kind b (expirationKey kind ts id) =
  let! b := expireRecord b kind id ts in batch_Delete b (expirationKey kind ts id).
Proof.
  unfold expire_key. unfold expirationKey at 1 2 3, blobNumberKey, blobKey.
  rewrite app_nil_r. set (p := bytes_of_string _).
  assert (len (be_bytes 8 (uval ts)) = 8) as Hw by (unfold len; by rewrite length_be_bytes).
  rewrite !len_app, Hw. pose proof (len_nonneg id).
  destruct (Z.ltb_spec (len p + 8 + len id) (len p + 8)); [lia|].
  rewrite <-Hw at 1. rewrite <-len_app, slice_from_app. cbn [bind].
  rewrite <-app_assoc, slice_from_app. cbn [bind]. by rewrite BigEndian_Uint64_app.
Qed.

Lemma expire_block_Ok id (b : B) n b' A :
  layout m0 (contents b) A → expire_block id b n = Ok b' →
  ∃ blk, ar_blocks A !! n = Some (id, blk) ∧
    layout m0 (contents b') (set_blocks A (delete n (ar_blocks A))).
Proof.
  intros L He. unfold expire_block in He.
  apply bind_Ok_inv in He as (p & Hp & He).
  apply (required_Ok _ _ (fst <$> ar_blocks A !! n)) in Hp.
  2:{ etrans; [apply (layout_document _ _ (KIndex n) L)|]. cbn [stored].
      by destruct (ar_blocks A !! n) as [[]|]. }
  case_bool_decide as Hid; [|done]. subst p. simpl in He.
  apply bind_Ok_inv in He as (blk & Hb & He).
  apply (required_Ok _ _ (snd <$> ar_blocks A !! n)) in Hb.
  2:{ etrans; [apply (layout_document _ _ (KBlock n) L)|]. cbn [stored].
      by destruct (ar_blocks A !! n) as [[]|]. }
  case_bool_decide as Hn; [|done]. simpl in He.
  apply bind_Ok_inv in He as (b1 & He1 & He2).
  apply (holds_Delete m0 b (KIndex n)) with (f := stored A) in He1 as L1; [|exact L].
  apply (holds_Delete m0 b1 (KBlock n)) with (1 := L1) in He2 as L2.
  exists blk. split.
  - destruct (ar_blocks A !! n) as [[]|]; [|done]. by simplify_eq/=.
  - apply (holds_keys_ext _ _ _ _ L2). unfold set_blocks. by_key.
Qed.

Lemma expire_blocks_Ok id l : ∀ (b : B) b' A,
  layout m0 (contents b) A → foldM (expire_block id) b l = Ok b' →
  layout m0 (contents b') (set_blocks A (filter (λ kv, kv.1 ∉ l) (ar_blocks A))).
Proof.
  induction l as [|n l IH]; intros b b' A L Hf; simpl in Hf.
  - inv_bind. rewrite map_filter_id by set_solver. by destruct A.
  - apply bind_Ok_inv in Hf as (b1 & Hb1 & Hf).
    apply expire_block_Ok with (A := A) in Hb1 as (blk & Hn & L1); [|done].
    apply (IH _ _ _ L1) in Hf. unfold set_blocks, set_channels in *. cbn in *.
    replace (filter (λ kv, kv.1 ∉ n :: l) (ar_blocks A))
      with (filter (λ kv, kv.1 ∉ l) (delete n (ar_blocks A))); [exact Hf|].
    apply map_eq. intros k. apply option_eq. intros x.
    rewrite !map_lookup_filter_Some, lookup_delete_Some. set_solver.
Qed.

Lemma expire_channel_Ok c (b : B) ts id b' A :
  layout m0 (contents b) A → wf c A → (ts, id) ∈ ar_due_channels A →
  expire_key "channel" b (bkey_bytes (KChannelExpiry ts id)) = Ok b' →
  layout m0 (contents b') (minus_channels [(ts, id)] A).
Proof.
  intros L W Hdue He. cbn [bkey_bytes] in He. rewrite expire_key_eq in He.
  apply bind_Ok_inv in He as (b1 & He & Hd). unfold expireRecord in He.
  rewrite bool_decide_true in He by done. apply bind_Ok_inv in He as (b2 & He & Hd1).
  apply bind_Ok_inv in He as (r & Hr & He).
  apply (required_Ok _ _ (ar_channels A !! id)) in Hr; [|apply (layout_document _ _ (KChannel id) L)].
  destruct (_ || _) in He; [done|].
  apply (expire_blocks_Ok _ _ _ _ _ L) in He as L2.
  apply (holds_Delete m0 b2 (KChannel id)) with (1 := L2) in Hd1 as L3.
  apply (holds_Delete m0 b1 (KChannelExpiry ts id)) with (1 := L3) in Hd as L4.
  apply (holds_keys_ext _ _ _ _ L4).
  assert (filter (λ kv, kv.1 ∉ crBlocks r) (ar_blocks A) =
    filter (λ kv, kv.2.1 ∉ [(ts, id)].*2) (ar_blocks A)) as ->.
  { apply map_filter_ext. intros n [id' blk] Hb. simpl.
    rewrite list_elem_of_singleton. destruct (wf_block _ _ W _ _ _ Hb) as [Hi (r' & Hr' & Hin & _)].
    destruct (wf_channel _ _ W _ _ Hr) as [Hid _ _ _ Hst].
    split; intros Hnot Heq; apply Hnot; [by simplify_eq|].
    apply Hst in Heq as [blk' Hb']. by simplify_eq. }
  unfold set_blocks, minus_channels.
  replace (filter (λ kv : string * ChannelRecord, kv.1 ∉ [(ts, id)].*2) (ar_channels A))
    with (delete id (ar_channels A)).
  2:{ apply map_eq. intros k. apply option_eq. intros x.
      rewrite map_lookup_filter_Some, lookup_delete_Some. set_solver. }
  replace (list_to_set [(ts, id)] : gset (u64 * string)) with ({[(ts, id)]} : gset (u64 * string))
    by set_solver.
  by_key.
Qed.

Lemma expire_tx_Ok (b : B) ts h b' A :
  layout m0 (contents b) A →
  expire_key "tx" b (bkey_bytes (KTxExpiry ts h)) = Ok b' →
  layout m0 (contents b') (minus_txs [(ts, h)] A).
Proof.
  intros L He. cbn [bkey_bytes] in He. rewrite expire_key_eq in He.
  apply bind_Ok_inv in He as (b1 & He & Hd). unfold expireRecord in He.
  rewrite bool_decide_false in He by done. apply bind_Ok_inv in He as (b2 & He & Hd1).
  apply bind_Ok_inv in He as (t & Ht & He). destruct (_ || _) in He; [done|]. inv_bind.
  apply (holds_Delete m0 b2 (KTx h)) with (f := stored A) in Hd1 as L3; [|exact L].
  apply (holds_Delete m0 b1 (KTxExpiry ts h)) with (1 := L3) in Hd as L4.
  apply (holds_keys_ext _ _ _ _ L4). unfold minus_txs.
  replace (filter (λ kv : Hash * BlobTransaction, kv.1 ∉ [(ts, h)].*2) (ar_txs A))
    with (delete h (ar_txs A)).
  2:{ apply map_eq. intros k. apply option_eq. intros x.
      rewrite map_lookup_filter_Some, lookup_delete_Some. set_solver. }
  replace (list_to_set [(ts, h)] : gset (u64 * Hash)) with ({[(ts, h)]} : gset (u64 * Hash))
    by set_solver.
  by_key.
Qed.

(** ** Pruning *)

(** The keys an iterator visits, as expiry entries. *)
Lemma keys_entries {X} (f : X → bkey) (K : list bytes) :
  (∀ k, k ∈ K → ∃ x, k = bkey_bytes (f x)) → ∃ l, K = (λ x, bkey_bytes (f x)) <$> l.
Proof.
  induction K as [|k K IH]; intros HK; [by exists []|].
  destruct (HK k) as [x ->]; [by left|].
  destruct IH as [l ->]; [intros k Hk; apply HK; by right|]. by exists (x :: l).
Qed.

Lemma keys_in_NoDup m lo hi K : keys_in m lo hi K → NoDup K.
Proof.
  intros [Hs _]. induction Hs as [|k K Hs IH Hall]; constructor; [|done].
  rewrite Forall_forall in Hall. intros Hin. pose proof (Hall _ Hin) as E.
  by rewrite bytes_lt_irrefl in E.
Qed.

Lemma marker_Some (p : bool) : is_Some (marker p) ↔ p = true.
Proof. destruct p; simpl; split; [done | eauto | by intros [] | done]. Qed.

Lemma due_entries {X} `{Countable X} (f : X → bkey) (due : gset X) (before : X → Prop)
    m lo hi K A x1 x2 :
  layout m0 m A → keys_in m lo hi K → lo = blob_prefix ++ x1 → hi = blob_prefix ++ x2 →
  (∀ k, k = blobIdentityKey ∨ (∃ bk, k = bkey_bytes bk) →
    bytes_lt k lo = false ∧ bytes_lt k hi = true ↔ ∃ x, k = bkey_bytes (f x) ∧ before x) →
  (∀ x, stored A (f x) = marker (bool_decide (x ∈ due))) → (∀ x y, f x = f y → x = y) →
  ∃ l, K = (λ x, bkey_bytes (f x)) <$> l ∧ NoDup l ∧ ∀ x, x ∈ l ↔ x ∈ due ∧ before x.
Proof.
  intros L HK -> -> Hrange Hst Hinj.
  assert (∀ k, k ∈ K → ∃ x, k = bkey_bytes (f x) ∧ before x) as Hform.
  { intros k (Hs & Hlo & Hhi)%HK. apply Hrange; [|done].
    apply (hk_known _ _ _ L); [done | by eapply range_is_blob]. }
  destruct (keys_entries f K) as [l ->]; [intros k Hk; destruct (Hform k Hk) as (x & ? & _); eauto|].
  exists l. split; [done|]. split; [by eapply NoDup_fmap_1, keys_in_NoDup|].
  intros x. trans (bkey_bytes (f x) ∈ (λ x, bkey_bytes (f x)) <$> l).
  { rewrite list_elem_of_fmap. split; [eauto|].
    intros (y & E%bkey_bytes_inj%Hinj & Hy). by subst. }
  rewrite (proj2 HK). rewrite (hk_lookup _ _ _ L), Hst, marker_Some, bool_decide_eq_true.
  rewrite Hrange by eauto. split; intros [? Hb]; (split; [done|]); [|eauto].
  destruct Hb as (y & E%bkey_bytes_inj%Hinj & Hy). by subst.
Qed.

Lemma channel_entries m cutoff K A :
  layout m0 m A →
  keys_in m (blobKey "expiry/channel" []) (blobNumberKey "expiry/channel" cutoff) K →
  ∃ l, K = (λ x, bkey_bytes (KChannelExpiry x.1 x.2)) <$> l ∧ NoDup l ∧
    ∀ x : u64 * string, x ∈ l ↔ x ∈ ar_due_channels A ∧ uval x.1 < uval cutoff.
Proof.
  intros L HK.
  apply (due_entries (λ x, KChannelExpiry x.1 x.2) (ar_due_channels A)
    (λ x, uval x.1 < uval cutoff) _ _ _ _ A (bytes_of_string "expiry/channel/")
    (bytes_of_string "expiry/channel/" ++ be_bytes 8 (uval cutoff)) L HK);
    [done | done | | by intros [] | by intros [] [] [= -> ->]].
  intros k Hk. etrans; [apply (channel_range k cutoff Hk)|].
  split; [intros (ts & id & ?); by exists (ts, id) | intros ([ts id] & ?); by exists ts, id].
Qed.

Lemma tx_entries m cutoff K A :
  layout m0 m A → keys_in m (blobKey "expiry/tx" []) (blobNumberKey "expiry/tx" cutoff) K →
  ∃ l, K = (λ x, bkey_bytes (KTxExpiry x.1 x.2)) <$> l ∧ NoDup l ∧
    ∀ x : u64 * Hash, x ∈ l ↔ x ∈ ar_due_txs A ∧ uval x.1 < uval cutoff.
Proof.
  intros L HK.
  apply (due_entries (λ x, KTxExpiry x.1 x.2) (ar_due_txs A)
    (λ x, uval x.1 < uval cutoff) _ _ _ _ A (bytes_of_string "expiry/tx/")
    (bytes_of_string "expiry/tx/" ++ be_bytes 8 (uval cutoff)) L HK);
    [done | done | | by intros [] | by intros [] [] [= -> ->]].
  intros k Hk. etrans; [apply (tx_range k cutoff Hk)|].
  split; [intros (ts & h & ?); by exists (ts, h) | intros ([ts h] & ?); by exists ts, h].
Qed.

Lemma expire_channels_Ok c l : ∀ (b : B) b' A,
  layout m0 (contents b) A → wf c A → NoDup l → (∀ x, x ∈ l → x ∈ ar_due_channels A) →
  foldM (expire_key "channel") b ((λ x, bkey_bytes (KChannelExpiry x.1 x.2)) <$> l) = Ok b' →
  layout m0 (contents b') (minus_channels l A) ∧ wf c (minus_channels l A).
Proof.
  induction l as [|[ts id] l IH]; intros b b' A L W Hnd Hl Hf;
    rewrite ?fmap_cons in Hf; cbn [foldM fmap list_fmap] in Hf.
  - inv_bind. by rewrite minus_channels_nil.
  - apply NoDup_cons in Hnd as [Hx Hnd]. apply bind_Ok_inv in Hf as (b1 & Hb1 & Hf).
    apply (expire_channel_Ok c _ _ _ _ A) in Hb1; [|done|done|apply Hl; by left].
    rewrite <-minus_channels_cons. apply (IH b1); [done | | done | | done].
    + apply wf_minus_channels; [done|]. intros x Hin. apply Hl. set_solver.
    + intros x Hin. cbn. apply elem_of_difference. split; [apply Hl; by right|].
      set_solver.
Qed.

Lemma expire_txs_Ok c l : ∀ (b : B) b' A,
  layout m0 (contents b) A → wf c A → NoDup l → (∀ x, x ∈ l → x ∈ ar_due_txs A) →
  (∀ id r x, ar_channels A !! id = Some r → x ∈ l → uval x.1 < uval (crExpiresAt r)) →
  foldM (expire_key "tx") b ((λ x, bkey_bytes (KTxExpiry x.1 x.2)) <$> l) = Ok b' →
  layout m0 (contents b') (minus_txs l A) ∧ wf c (minus_txs l A).
Proof.
  induction l as [|[ts h] l IH]; intros b b' A L W Hnd Hl Hfree Hf;
    rewrite ?fmap_cons in Hf; cbn [foldM fmap list_fmap] in Hf.
  - inv_bind. by rewrite minus_txs_nil.
  - apply NoDup_cons in Hnd as [Hx Hnd]. apply bind_Ok_inv in Hf as (b1 & Hb1 & Hf).
    apply (expire_tx_Ok _ _ _ _ A) in Hb1; [|done].
    rewrite <-minus_txs_cons. apply (IH b1); [done | | done | | | done].
    + apply wf_minus_txs; [done | set_solver|]. intros id r x Hr Hin. apply (Hfree id); set_solver.
    + intros x Hin. cbn. apply elem_of_difference. split; [apply Hl; by right|]. set_solver.
    + intros id r x Hr Hin. apply (Hfree id); [done | by right].
Qed.

(** What pruning to a cutoff keeps. *)
Record pruned (cutoff : u64) (A A' : archive) : Prop := {
  pr_state : ar_state A' = ar_state A;
  pr_txs h t : ar_txs A' !! h = Some t ↔
    ar_txs A !! h = Some t ∧ uval cutoff <= uval (btTimestamp t);
  pr_channels id r : ar_channels A' !! id = Some r ↔
    ar_channels A !! id = Some r ∧ uval cutoff <= uval (crExpiresAt r);
  pr_blocks n id b : ar_blocks A' !! n = Some (id, b) ↔
    ar_blocks A !! n = Some (id, b) ∧ is_Some (ar_channels A' !! id);
}.

Lemma pruneBlob_Ok c cutoff (b : B) b' A :
  layout m0 (contents b) A → wf c A → pruneBlob b cutoff = Ok b' →
  ∃ A', layout m0 (contents b') A' ∧ wf cutoff A' ∧ pruned cutoff A A'.
Proof.
  intros L W Hp. unfold pruneBlob in Hp. cbn [foldM] in Hp.
  apply bind_Ok_inv in Hp as (b1 & Hp1 & Hp). apply bind_Ok_inv in Hp as (b2 & Hp2 & Hp).
  inv_bind. unfold pruneKind in Hp1, Hp2.
  apply bind_Ok_inv in Hp1 as (K1 & HK1%batch_Iter_Ok & Hp1).
  apply bind_Ok_inv in Hp2 as (K2 & HK2%batch_Iter_Ok & Hp2).
  apply (channel_entries _ _ _ _ L) in HK1 as (l1 & -> & Hnd1 & Hl1).
  apply (expire_channels_Ok c _ _ _ _ L W Hnd1) in Hp1 as [L1 W1]; [|by intros x [? _]%Hl1].
  set (A1 := minus_channels l1 A) in *.
  apply (tx_entries _ _ _ _ L1) in HK2 as (l2 & -> & Hnd2 & Hl2).
  pose proof (minus_due_channels c cutoff l1 A W Hl1) as Hch.
  apply (expire_txs_Ok c _ _ _ _ L1 W1 Hnd2) in Hp2 as [L2 W2]; [|by intros x [? _]%Hl2|].
  2:{ intros id r x [_ Hr]%Hch [_ Hx]%Hl2. lia. }
  set (A2 := minus_txs l2 A1) in *.
  pose proof (minus_due_txs c cutoff l2 A1 W1 Hl2) as Htx.
  exists A2. split; [done|]. split.
  - destruct W2 as [V1 V2 V3 V4 V5]. split; [|done..].
    intros h t Ht. pose proof (proj1 (Htx h t) Ht) as [_ ?].
    by apply V1 in Ht as (? & _ & ?).
  - split; [done | done | apply Hch |].
    intros n id blk. cbn. rewrite map_lookup_filter_Some. simpl. split.
    + intros [Hb Hx]. split; [done|].
      destruct (wf_block _ _ W _ _ _ Hb) as [_ (r & Hr & _)]. exists r.
      apply map_lookup_filter_Some. by split.
    + intros [Hb [r [Hr Hx]%map_lookup_filter_Some]]. by split.
Qed.

End steps.
