(* ===== verification/BlobTheorems.v ===== *)
(** * The blob store keeps a retention window (internal/store/blob.go)

    What [InitBlob], [CommitBlob], [BlobTransaction] and [GetBlock] promise,
    in terms of the archive; when pruning works; and that the two stores share
    one database without disturbing each other. *)
From S2P Require Import Prelude Word Json Geth Pebble StoreTypes DepositStore BlobStore.
From S2P Require Import BlobStoreFacts BlobCommit.

(** ** The specification of a commit *)

(** The latest block of an archive. *)
Definition newest (A : archive) (o : option u64) : Prop :=
  match o with
  | None => ar_blocks A = ∅
  | Some n => is_Some (ar_blocks A !! n) ∧
      ∀ n', is_Some (ar_blocks A !! n') → uval n' <= uval n
  end.

(** [m] holds the archive [A]. *)
Record archived `{GethText} (m : gmap bytes raw) (A : archive) : Prop := {
  av_layout : layout m m A;
  av_wf : wf (bsCutoff (ar_state A)) A;
  av_newest : newest A (bsLatest (ar_state A));
}.

(** A block of a channel that has not expired. *)
Definition new_block (cutoff : u64) (chs : list BlobChannel) n id b : Prop :=
  ∃ ch, ch ∈ chs ∧ crID (chRecord ch) = id ∧
    uval cutoff <= uval (crExpiresAt (chRecord ch)) ∧
    (n, b) ∈ zip (crBlocks (chRecord ch)) (chBlocks ch).

(** The archive [A'] is [A] with the scan's result added and everything
    older than the new cutoff removed. *)
Record blob_commit (A : archive) (before after : BlobState) (txs : list BlobTransaction)
    (chs : list BlobChannel) (A' : archive) : Prop := {
  bc_before : before = ar_state A;
  bc_revision : uval (bsRevision before) < 2 ^ 64 - 1;
  bc_cutoff : uval (bsCutoff before) <= uval (bsCutoff after);
  bc_state : ∃ latest, newest A' latest ∧
    ar_state A' = set_commit after latest (uadd (bsRevision before) (#64 1));
  bc_txs h t : ar_txs A' !! h = Some t ↔
    uval (bsCutoff after) <= uval (btTimestamp t) ∧
    (ar_txs A !! h = Some t ∨ t ∈ txs ∧ btHash t = h);
  bc_channels id r : ar_channels A' !! id = Some r ↔
    uval (bsCutoff after) <= uval (crExpiresAt r) ∧
    (ar_channels A !! id = Some r ∨ crID r = id ∧ ∃ ch, ch ∈ chs ∧ chRecord ch = r);
  bc_blocks n id b : ar_blocks A' !! n = Some (id, b) ↔
    is_Some (ar_channels A' !! id) ∧
      (ar_blocks A !! n = Some (id, b) ∨ new_block (bsCutoff after) chs n id b);
}.

(** ** The commit *)

Section commit.
Context `{GethText, !GethTextLaws}.
Context {D B : Type} `{PebbleLaws D B}.
Context (m0 : gmap bytes raw).

(** The transactions added to the archive, those that are young enough. *)
Lemma put_txs_Ok c cutoff txs : ∀ (b : B) b' A,
  layout m0 (contents b) A → wf c A → uval c <= uval cutoff →
  foldM (put_tx cutoff) b txs = Ok b' →
  ∃ A', layout m0 (contents b') A' ∧ wf c A' ∧
    ar_state A' = ar_state A ∧ ar_channels A' = ar_channels A ∧ ar_blocks A' = ar_blocks A ∧
    ∀ h t, ar_txs A' !! h = Some t ↔ ar_txs A !! h = Some t ∨
      t ∈ txs ∧ btHash t = h ∧ uval cutoff <= uval (btTimestamp t).
Proof.
  induction txs as [|t txs IH]; intros b b' A L W Hc Hf; simpl in Hf.
  - inv_bind. exists A. split_and!; [done..|]. set_solver.
  - apply bind_Ok_inv in Hf as (b1 & Hb1 & Hf).
    apply (put_tx_Ok m0 cutoff) with (A := A) in Hb1 as [[Hlt ->]|(Hge & Hm & Hold & L1)];
      [| |done].
    + apply (IH _ _ A) in Hf as (A' & ? & ? & ? & ? & ? & Htx); [|done..].
      exists A'. split_and!; [done..|]. intros h t'. rewrite Htx.
      split; [set_solver|]. intros [?|([->|]%elem_of_cons & ? & ?)]; [by left | lia | by right].
    + apply (IH _ _ (add_record A t)) in Hf as (A' & ? & ? & ? & ? & ? & Htx);
        [|done|apply wf_add_record; (done || lia)|done].
      exists A'. split_and!; [done..|]. intros h t'. rewrite Htx.
      cbn [add_record set_txs ar_txs]. rewrite lookup_insert_Some. split.
      * intros [[[<- <-]|[_ ?]]|(? & ? & ?)]; [right | by left | right].
        -- split_and!; [by left | done..].
        -- split_and!; [by right | done..].
      * intros [Ht|([->|Hin]%elem_of_cons & <- & ?)]; [left | left; by left | right; done].
        destruct (decide (btHash t = h)) as [<-|]; [left | by right].
        split; [done|]. destruct Hold; congruence.
Qed.

Lemma put_channels_Ok c cutoff chs : ∀ (b : B) b' A,
  layout m0 (contents b) A → wf c A → uval c <= uval cutoff →
  foldM (λ b ch, putChannel b ch cutoff) b chs = Ok b' →
  ∃ A', layout m0 (contents b') A' ∧ wf c A' ∧
    ar_state A' = ar_state A ∧ ar_txs A' = ar_txs A ∧
    (∀ id r, ar_channels A' !! id = Some r ↔ ar_channels A !! id = Some r ∨
      ∃ ch, ch ∈ chs ∧ chRecord ch = r ∧ crID r = id ∧ uval cutoff <= uval (crExpiresAt r)) ∧
    (∀ n id blk, ar_blocks A' !! n = Some (id, blk) ↔ ar_blocks A !! n = Some (id, blk) ∨
      ∃ ch, ch ∈ chs ∧ crID (chRecord ch) = id ∧
        uval cutoff <= uval (crExpiresAt (chRecord ch)) ∧
        (n, blk) ∈ zip (crBlocks (chRecord ch)) (chBlocks ch)).
Proof.
  induction chs as [|ch chs IH]; intros b b' A L W Hc Hf; simpl in Hf.
  - inv_bind. exists A. split_and!; [done..| |]; set_solver.
  - apply bind_Ok_inv in Hf as (b1 & Hb1 & Hf).
    apply (putChannel_Ok m0 c) with (A := A) in Hb1
      as (Hid & Hne & Hlen & Hs & [[Hlt ->]|(Hge & Hold & blocks & L1 & Hb)]); [| |done..].
    + apply (IH _ _ A) in Hf as (A' & ? & ? & ? & ? & Hch & Hbl); [|done..].
      exists A'. split_and!; [done..| |].
      * intros id r. rewrite Hch. split; [set_solver|].
        intros [?|(ch' & [->|]%elem_of_cons & <- & ? & ?)]; [by left | lia | right; by eexists].
      * intros n id blk. rewrite Hbl. split; [set_solver|].
        intros [?|(ch' & [->|]%elem_of_cons & ? & ? & ?)]; [by left | lia | right; by eexists].
    + set (r := chRecord ch) in *.
      apply (IH _ _ (with_channel A r blocks)) in Hf as (A' & ? & ? & ? & ? & Hch & Hbl);
        [|done|by eapply wf_with_channel|done].
      exists A'. split_and!; [done..| |].
      * intros id r'. rewrite Hch. cbn [with_channel set_channels ar_channels].
        rewrite lookup_insert_Some. split.
        -- intros [[[<- <-]|[_ ?]]|(ch' & ? & ?)]; [right | by left | right].
           ++ exists ch. split; [by left | done].
           ++ exists ch'. split; [by right | done].
        -- intros [Hr|(ch' & [->|]%elem_of_cons & <- & <- & ?)];
             [left | left; by left | right; by eexists].
           destruct (decide (crID r = id)) as [<-|]; [left | by right].
           split; [done|]. destruct Hold; congruence.
      * intros n id blk. rewrite Hbl. cbn [with_channel set_channels ar_blocks].
        destruct Hb as [_ Hnew Hkeep Honly]. split.
        -- intros [[Ho|(blk' & [= -> ->] & Hin)]%Honly|(ch' & ? & ?)]; [by left | right | right].
           ++ exists ch. split; [by left | done].
           ++ exists ch'. split; [by right | done].
        -- intros [Ho|(ch' & [->|]%elem_of_cons & <- & ? & Hin)];
             [left; by apply Hkeep | left; by apply Hnew | right; by eexists].
Qed.

(** The last index key is the greatest block index. *)
Lemma latestBlockIndex_Ok (b : B) o A :
  layout m0 (contents b) A → latestBlockIndex b = Ok o → newest A o.
Proof.
  intros L Hl. unfold latestBlockIndex in Hl.
  apply bind_Ok_inv in Hl as (K & HK%batch_Iter_Ok & Hl).
  assert (∀ n, bkey_bytes (KIndex n) ∈ K ↔ is_Some (ar_blocks A !! n)) as Hn.
  { intros n. rewrite (proj2 HK), (hk_lookup _ _ _ L). cbn [stored]. rewrite fmap_is_Some.
    split; [by intros [? _]|]. intros Hs. split; [done|]. apply index_range; eauto. }
  destruct (last K) as [k|] eqn:Hk.
  - apply last_Some in Hk as [K' ->].
    assert (∃ n, k = bkey_bytes (KIndex n)) as [n ->].
    { apply index_range.
      - apply (hk_known _ _ _ L); [|eapply range_is_blob]; apply (proj2 HK); set_solver.
      - apply (proj2 HK). set_solver. }
    cbn [bkey_bytes] in Hl. unfold blobNumberKey, blobKey in Hl.
    rewrite app_nil_r in Hl.
    destruct (negb _); [done|]. rewrite slice_from_app in Hl. cbn [bind] in Hl.
    rewrite <-(app_nil_r (be_bytes 8 (uval n))), BigEndian_Uint64_app in Hl. cbn [bind] in Hl.
    inv_bind. simpl. split; [apply Hn; set_solver|].
    intros n' Hn'%Hn. destruct HK as [Hs _].
    apply elem_of_app in Hn' as [Hin|Hin%list_elem_of_singleton%bkey_bytes_inj]; [|by simplify_eq].
    apply StronglySorted_app in Hs as (Hs & _ & _).
    assert (bytes_lt (bkey_bytes (KIndex n')) (bkey_bytes (KIndex n)) = true) as Hlt
      by (apply Hs; [done | by left]).
    cbn [bkey_bytes] in Hlt. unfold blobNumberKey, blobKey in Hlt.
    rewrite <-(app_nil_r (be_bytes 8 (uval n'))), number_lt in Hlt.
    unfold ult in Hlt. bool_to_prop. lia.
  - apply last_None in Hk as ->. inv_bind. simpl. apply map_empty. intros n.
    apply eq_None_not_Some. rewrite <-Hn. apply not_elem_of_nil.
Qed.


Lemma layout_rebase A m : layout m0 m A → layout m m A.
Proof. intros [Hl Hk _]. by split. Qed.

Lemma layout_state A m : layout m0 m A → m !! blobStateKey = Some (json_Marshal (ar_state A)).
Proof. intros L. apply (hk_lookup _ _ _ L KState). Qed.

Lemma readBlobState_Ok {G} `{GetterLaws G} (g : G) st A :
  layout m0 (contents g) A → readBlobState g = Ok st → st = ar_state A.
Proof.
  intros L Hr. apply (required_Ok _ _ (Some (ar_state A))) in Hr; [by simplify_eq|].
  by apply layout_state.
Qed.

End commit.

Section commits.
Context `{GethText, !GethTextLaws}.
Context {D B : Type} `{PebbleLaws D B}.

(** What a blob commit leaves alone. *)
Definition same_other (m m' : gmap bytes raw) : Prop :=
  ∀ k, ¬ is_blob k ∨ k = blobIdentityKey → m' !! k = m !! k.

Lemma CommitBlob_step (s s' : Store D) A before after txs chs :
  archived (contents (st_db s)) A → CommitBlob s before after txs chs = Ok s' →
  ∃ A', blob_commit A before after txs chs A' ∧ archived (contents (st_db s')) A' ∧
    st_closed s' = false ∧ same_other (contents (st_db s)) (contents (st_db s')).
Proof.
  intros [L W _] Hc. set (m0 := contents (st_db s)) in *. unfold CommitBlob in Hc.
  destruct (st_closed s); [done|]. apply bind_Ok_inv in Hc as (st & Hst & Hc).
  apply (readBlobState_Ok m0 _ _ A) in Hst as ->; [|done].
  case_bool_decide as Hb; [|done]. subst before. simpl in Hc.
  destruct (_ || _) eqn:Hg; [done|]. unfold ult in Hg. bool_to_prop.
  pose proof (uint_range (bsRevision (ar_state A))) as Hrev. change (modulus 64) with (2 ^ 64) in Hrev.
  assert (uval (bsRevision (ar_state A)) < 2 ^ 64 - 1).
  { match goal with Hne : bsRevision _ ≠ _ |- _ => rewrite uint_eq_iff, uval_max_uint64 in Hne end. lia. }
  apply bind_Ok_inv in Hc as (b1 & H1c & Hc). apply bind_Ok_inv in Hc as (b2 & H2c & Hc).
  apply bind_Ok_inv in Hc as (b3 & H3c & Hc). apply bind_Ok_inv in Hc as (latest & H4c & Hc).
  apply bind_Ok_inv in Hc as (b4 & H5c & Hc). apply bind_Ok_inv in Hc as (d & H6c & Hc).
  apply batch_Commit_Ok in H6c.
  apply (put_txs_Ok m0 (bsCutoff (ar_state A))) with (A := A) in H1c
    as (A1 & L1 & W1 & S1 & C1 & B1 & T1); [|by rewrite NewIndexedBatch_contents|done|done].
  apply (put_channels_Ok m0 (bsCutoff (ar_state A))) with (A := A1) in H2c
    as (A2 & L2 & W2 & S2 & T2 & C2 & B2); [|done..].
  apply (pruneBlob_Ok m0 (bsCutoff (ar_state A))) with (A := A2) in H3c
    as (A3 & L3 & W3 & [S3 T3 C3 B3]); [|done..].
  apply (latestBlockIndex_Ok m0) with (A := A3) in H4c; [|done].
  set (st' := set_commit _ _ _) in *.
  apply (holds_Set m0 b3 KState) with (f := stored A3) in H5c as L4; [|exact L3].
  assert (layout m0 (contents d) (set_state A3 st')) as L5.
  { rewrite H6c. apply (holds_keys_ext _ _ _ _ L4). by_key. }
  inv_bind. exists (set_state A3 st'). split; [split|split; [split|]].
  - done.
  - done.
  - done.
  - exists latest. by split.
  - intros h t. cbn. rewrite T3, T2, T1. naive_solver.
  - intros id r. cbn. rewrite C3, C2, C1. naive_solver.
  - intros n id blk. cbn. rewrite B3, B2, B1. unfold new_block. naive_solver.
  - by eapply layout_rebase.
  - by apply wf_set_state.
  - done.
  - split; [done|]. intros k Hk. by apply (hk_other _ _ _ L5).
Qed.

End commits.

(** ** Serving blocks *)

(** The deposit a queue index means: the failed deposit 20397 has no L2
    transaction. *)
Definition deposit_index (q q' : u64) : Prop :=
  uval q' = if decide (uval q < 20397) then uval q else uval q + 1.

(** [tx'] is [tx] with the fields of the deposit [e] at [q]. *)
Record filled (tx : BlockTransaction) (q : u64) (e : Enqueue) (tx' : BlockTransaction) : Prop := {
  fd_deposit : xBlockNumber tx' = eBlockNumber e ∧ xGasLimit tx' = eGasLimit e ∧
    xTarget tx' = eTarget e ∧ xOrigin tx' = eOrigin e ∧ xData tx' = eData e;
  fd_queue : xQueueIndex tx' = Some q;
  fd_timestamp :
    xTimestamp tx' = if decide (uval (xTimestamp tx) = 0) then eTimestamp e else xTimestamp tx;
  fd_kept : xIndex tx' = xIndex tx ∧ xBatchIndex tx' = xBatchIndex tx ∧
    xQueueOrigin tx' = xQueueOrigin tx ∧ xValue tx' = xValue tx ∧
    xDecoded tx' = xDecoded tx ∧ xConfirmed tx' = xConfirmed tx ∧ xSeqSign tx' = xSeqSign tx;
}.

(** How a transaction of a stored block is served: one from L1 gets the
    fields of its deposit. *)
Inductive tx_served (l : ledger) (tx : BlockTransaction) : BlockTransaction → Prop :=
  | served_sequencer : xQueueOrigin tx ≠ "l1" → tx_served l tx tx
  | served_deposit q q' r tx' :
      xQueueOrigin tx = "l1" → xQueueIndex tx = Some q → q ≠ max_uint64 → deposit_index q q' →
      ledger_get l (Some q') = Some r → filled tx q' (rEnqueue r) tx' →
      tx_served l tx tx'.

(** Its deposit has not been ingested. *)
Definition tx_awaits (l : ledger) (tx : BlockTransaction) : Prop :=
  xQueueOrigin tx = "l1" ∧ ∃ q q', xQueueIndex tx = Some q ∧ q ≠ max_uint64 ∧
    deposit_index q q' ∧ ledger_get l (Some q') = None.
Definition tx_malformed (tx : BlockTransaction) : Prop :=
  xQueueOrigin tx = "l1" ∧ (xQueueIndex tx = None ∨ xQueueIndex tx = Some max_uint64).

(** The first transaction that cannot be served is of the given kind. *)
Definition first_unserved (l : ledger) (P : BlockTransaction → Prop)
    (txs : list BlockTransaction) : Prop :=
  ∃ done tx rest, txs = done ++ tx :: rest ∧ Forall (λ tx, ∃ tx', tx_served l tx tx') done ∧ P tx.

(** What is served under the block number [n]. *)
Record block_served (A : archive) (l : ledger) (n : u64) (b : Block) (batch : BlockBatch) :
    Prop := {
  bs_stored : ∃ id stored, ar_blocks A !! n = Some (id, stored) ∧
    b = set_transactions stored (bTransactions b) ∧
    Forall2 (tx_served l) (bTransactions stored) (bTransactions b) ∧
    ∃ r, ar_channels A !! id = Some r ∧ batch = crBatch r ∧
      ∀ h, h ∈ crSources r → ∃ t, ar_txs A !! h = Some t ∧ btMissing t = false ∧
        uval (bsCutoff (ar_state A)) <= uval (btTimestamp t);
  bs_index : bIndex b = n;
  bs_batch : bBatchIndex b = baIndex batch;
}.

Section serving.
Context `{GethText, !GethTextLaws}.
Context {D B : Type} `{Reliable D B}.

Lemma queue_index_spec q : q ≠ max_uint64 → deposit_index q (queue_index q).
Proof.
  intros Hq. rewrite uint_eq_iff, uval_max_uint64 in Hq. pose proof (uint_range q) as Hr.
  change (modulus 64) with (2 ^ 64) in Hr.
  unfold deposit_index, queue_index, ule. change (uval (#64 20397)) with 20397.
  destruct (Z.leb_spec 20397 (uval q)); case_decide; try lia.
  unfold uadd. rewrite uval_wrap_small; change (uval (#64 1)) with 1; [done|].
  change (modulus 64) with (2 ^ 64). lia.
Qed.

Lemma fill_spec tx q e : filled tx q e (fill tx q e).
Proof.
  split; try done. cbn. case_bool_decide as E1; case_decide as E2; try done.
  - subst. by rewrite E1 in E2.
  - by destruct E1; apply uint_eq.
Qed.

Lemma fill_deposits_cases (d : D) l txs :
  represents (contents d) l →
  (∃ txs', fill_deposits d txs = Ok (Some txs') ∧ Forall2 (tx_served l) txs txs') ∨
  (fill_deposits d txs = Ok None ∧ first_unserved l (tx_awaits l) txs) ∨
  (fails_with (fill_deposits d txs) ErrIntegrity ∧ first_unserved l tx_malformed txs).
Proof.
  intros Hl. induction txs as [|tx txs IH]; [left; by exists []|].
  assert (∀ tx', tx_served l tx tx' →
    fill_deposits d (tx :: txs) = (let! rest := fill_deposits d txs in Ok (cons tx' <$> rest)) →
    (∃ txs', fill_deposits d (tx :: txs) = Ok (Some txs') ∧
      Forall2 (tx_served l) (tx :: txs) txs') ∨
    (fill_deposits d (tx :: txs) = Ok None ∧ first_unserved l (tx_awaits l) (tx :: txs)) ∨
    (fails_with (fill_deposits d (tx :: txs)) ErrIntegrity ∧
      first_unserved l tx_malformed (tx :: txs))) as Hserved.
  { intros tx' Htx ->.
    assert (∀ P, first_unserved l P txs → first_unserved l P (tx :: txs)) as Hcons.
    { intros P (done & x & rest & -> & Hd & Hx). exists (tx :: done), x, rest.
      split_and!; [done | constructor; eauto | done]. }
    destruct IH as [(txs' & -> & Hall)|[[-> Hu]|[(e & -> & He) Hu]]].
    - left. exists (tx' :: txs'). split; [done | by constructor].
    - right. left. auto.
    - right. right. split; [by exists e | auto]. }
  cbn [fill_deposits] in *. case_bool_decide as Ho.
  2:{ apply (Hserved tx); [by constructor | done]. }
  destruct (xQueueIndex tx) as [q|] eqn:Hq.
  - case_bool_decide as Hm.
    + right. right. split; [by eexists|]. exists [], tx, txs. unfold tx_malformed.
      rewrite Hq, Hm. auto.
    + rewrite (readEnqueue_total d l _ Hl) in *. cbn [bind] in *.
      destruct (ledger_get l (Some (queue_index q))) as [r|] eqn:Hr;
        cbn [fmap option_fmap option_map bind] in *.
      * apply (Hserved (fill tx (queue_index q) (rEnqueue r))); [|done].
        eapply served_deposit; [done..| | done | apply fill_spec]. by apply queue_index_spec.
      * right. left. split; [done|]. exists [], tx, txs. split_and!; [done..|].
        split; [done|]. exists q, (queue_index q). auto using queue_index_spec.
  - right. right. split; [by eexists|]. exists [], tx, txs. unfold tx_malformed. auto.
Qed.

Lemma check_served_total (d : D) A hs :
  layout (contents d) (contents d) A → wf (bsCutoff (ar_state A)) A →
  (∀ h, h ∈ hs → ∃ t, ar_txs A !! h = Some t ∧ btMissing t = false) →
  foldM (check_served d (bsCutoff (ar_state A))) tt hs = Ok tt.
Proof.
  intros L W Hhs. induction hs as [|h hs IH]; [done|]. cbn [foldM].
  destruct (Hhs h) as (t & Ht & Hm); [by left|].
  destruct (wf_tx _ _ W _ _ Ht) as (Hh & Hc & _).
  unfold check_served at 1. rewrite (required_db d _ t).
  2:{ etrans; [apply (layout_document _ _ _ (KTx h) L)|]. cbn [stored]. by rewrite Ht. }
  cbn [bind]. rewrite bool_decide_true, Hm by done. unfold ult. simpl.
  destruct (Z.ltb_spec (uval (btTimestamp t)) (uval (bsCutoff (ar_state A)))); [lia|].
  apply IH. intros h' Hin. apply Hhs. by right.
Qed.

(** Everything up to the deposits. *)
Lemma GetBlock_stored (s : Store D) A index n :
  archived (contents (st_db s)) A → st_closed s = false →
  match index with None => bsLatest (ar_state A) | Some i => Some i end = Some n →
  GetBlock s index =
  match ar_blocks A !! n with
  | None => Ok no_block
  | Some (id, b) =>
      match ar_channels A !! id with
      | None => Ok no_block
      | Some r =>
          let! txs := fill_deposits (st_db s) (bTransactions b) in
          match txs with
          | None => Ok no_block
          | Some txs => Ok (mkResponse (Some (set_transactions b txs)) (Some (crBatch r)))
          end
      end
  end.
Proof.
  intros [L W N] Hcl Hn. unfold GetBlock. rewrite Hcl.
  set (d := st_db s) in *. unfold readBlobState. rewrite (required_db d _ (ar_state A)).
  2:{ apply (layout_state _ _ _ L). }
  cbn [bind].
  assert ((if bool_decide (index = None) then bsLatest (ar_state A) else index) = Some n) as ->.
  { destruct index; by case_bool_decide. }
  rewrite (readJSON_db d _ _ (fst <$> ar_blocks A !! n)).
  2:{ etrans; [apply (layout_document _ _ _ (KIndex n) L)|]. cbn [stored].
      by destruct (ar_blocks A !! n) as [[]|]. }
  2:{ case_bool_decide as Hi; [right|by left]. subst index. rewrite Hn in N.
      destruct N as [[x ->] _]. by eexists. }
  cbn [bind]. destruct (ar_blocks A !! n) as [[id b]|] eqn:Hb; [|done]. cbn.
  destruct (wf_block _ _ W _ _ _ Hb) as [Hbi (r & Hr & Hin & Hba)]. rewrite Hr.
  destruct (wf_channel _ _ W _ _ Hr) as [Hid _ _ [Hp Ha] _].
  rewrite (required_db d _ r).
  2:{ etrans; [apply (layout_document _ _ _ (KChannel id) L)|]. cbn [stored]. by rewrite Hr. }
  cbn [bind]. rewrite (required_db d _ b).
  2:{ etrans; [apply (layout_document _ _ _ (KBlock n) L)|]. cbn [stored]. by rewrite Hb. }
  cbn [bind]. rewrite !bool_decide_true by done. cbn.
  pose proof (wf_channel_cutoff _ _ _ _ W Hr) as Hcut. unfold ult.
  destruct (Z.ltb_spec (uval (crExpiresAt r)) (uval (bsCutoff (ar_state A)))); [lia|].
  rewrite bool_decide_false.
  2:{ intros E. destruct Ha as (h & t & Hh & _). rewrite E in Hh. by apply elem_of_nil in Hh. }
  rewrite (check_served_total d A); [done | done | done |].
  intros h Hh. destruct (Hp h Hh) as (t & ? & ? & _). eauto.
Qed.

Lemma GetBlock_cases (s : Store D) A l index :
  archived (contents (st_db s)) A → represents (contents (st_db s)) l → st_closed s = false →
  let n := match index with None => bsLatest (ar_state A) | Some i => Some i end in
  (∃ i b batch, n = Some i ∧ GetBlock s index = Ok (mkResponse (Some b) (Some batch)) ∧
    block_served A l i b batch) ∨
  (GetBlock s index = Ok no_block ∧
    ∀ i, n = Some i → ar_blocks A !! i = None ∨
      ∃ id b, ar_blocks A !! i = Some (id, b) ∧ first_unserved l (tx_awaits l) (bTransactions b)) ∨
  (fails_with (GetBlock s index) ErrIntegrity ∧
    ∃ i id b, n = Some i ∧ ar_blocks A !! i = Some (id, b) ∧
      first_unserved l tx_malformed (bTransactions b)).
Proof.
  intros HA Hl Hcl. cbn zeta.
  destruct (match index with None => _ | _ => _ end) as [i|] eqn:Hn.
  2:{ right. left. split; [|done]. destruct index; [done|].
      unfold GetBlock. rewrite Hcl. unfold readBlobState.
      rewrite (required_db _ _ (ar_state A)) by apply (layout_state _ _ _ (av_layout _ _ HA)).
      cbn [bind]. rewrite bool_decide_true by done. by rewrite Hn. }
  rewrite (GetBlock_stored s A index i HA Hcl Hn).
  destruct (ar_blocks A !! i) as [[id b]|] eqn:Hb.
  2:{ right. left. split; [done|]. intros ? [= <-]. by left. }
  destruct HA as [_ W _]. destruct (wf_block _ _ W _ _ _ Hb) as [Hbi (r & Hr & Hin & Hba)].
  rewrite Hr. destruct (wf_channel _ _ W _ _ Hr) as [_ _ _ [Hp _] _].
  destruct (fill_deposits_cases (st_db s) l (bTransactions b) Hl)
    as [(txs & -> & Hall)|[[-> Hu]|[(e & -> & He) Hu]]]; cbn.
  - left. exists i, (set_transactions b txs), (crBatch r). split_and!; [done..|].
    split; [|done|done]. exists id, b. split_and!; [done..|].
    exists r. split_and!; [done..|]. intros h Hh. destruct (Hp h Hh) as (t & Ht & ? & _).
    exists t. split_and!; [done..|]. by apply (wf_tx _ _ W) in Ht as (_ & ? & _).
  - right. left. split; [done|]. intros ? [= <-]. right. eauto.
  - right. right. split; [by exists e|]. eauto 10.
Qed.

End serving.

(** ** Pruning always works *)

(** These channels list no block twice. *)
Definition distinct_in (A : archive) (l : list (u64 * string)) : Prop :=
  ∀ x r, x ∈ l → ar_channels A !! x.2 = Some r → NoDup (crBlocks r).
(** No channel that expires at a cutoff lists a block twice. *)
Definition expired_distinct (A : archive) (cutoff : u64) : Prop :=
  ∀ id r, ar_channels A !! id = Some r → uval (crExpiresAt r) < uval cutoff →
    NoDup (crBlocks r).

(** Pruning that succeeds met no block twice. *)
Section once.
Context `{GethText, !GethTextLaws}.
Context {D B : Type} `{PebbleLaws D B}.
Context (m0 : gmap bytes raw).

Lemma expire_blocks_once id l : ∀ (b : B) b' A,
  layout m0 (contents b) A → foldM (expire_block id) b l = Ok b' →
  NoDup l ∧ ∀ n, n ∈ l → is_Some (ar_blocks A !! n).
Proof.
  induction l as [|n l IH]; intros b b' A L Hf; cbn [foldM] in Hf.
  - split; [constructor | by intros n ?%elem_of_nil].
  - apply bind_Ok_inv in Hf as (b1 & Hb1 & Hf).
    apply (expire_block_Ok m0) with (A := A) in Hb1 as (blk & Hn & L1); [|done].
    apply (IH _ _ _ L1) in Hf as [Hnd Hall]. cbn in Hall. split.
    + constructor; [|done]. intros Hin%Hall. rewrite lookup_delete_eq in Hin. by destruct Hin.
    + intros n' [->|Hin]%elem_of_cons; [by eexists|].
      destruct (Hall _ Hin) as [x [_ Hx]%lookup_delete_Some]. by eexists.
Qed.

Lemma expire_channels_once c l : ∀ (b : B) b' A,
  layout m0 (contents b) A → wf c A → NoDup l → (∀ x, x ∈ l → x ∈ ar_due_channels A) →
  foldM (expire_key "channel") b ((λ x, bkey_bytes (KChannelExpiry x.1 x.2)) <$> l) = Ok b' →
  distinct_in A l.
Proof.
  induction l as [|[ts id] l IH]; intros b b' A L W Hnd Hl Hf;
    rewrite ?fmap_cons in Hf; cbn [foldM fmap list_fmap fst snd] in Hf.
  { by intros x r ?%elem_of_nil. }
  apply NoDup_cons in Hnd as [Hx Hnd]. apply bind_Ok_inv in Hf as (b1 & Hb1 & Hf).
  assert ((ts, id) ∈ ar_due_channels A) as Hdue by (apply Hl; by left).
  assert (∀ r, ar_channels A !! id = Some r → NoDup (crBlocks r)) as Hhead.
  { intros r Hr. cbn [bkey_bytes] in Hb1. rewrite expire_key_eq in Hb1.
    apply bind_Ok_inv in Hb1 as (b2 & He & _). unfold expireRecord in He.
    rewrite bool_decide_true in He by done. apply bind_Ok_inv in He as (b3 & He & _).
    apply bind_Ok_inv in He as (r' & Hr' & He).
    apply (required_Ok _ _ (ar_channels A !! id)) in Hr';
      [|apply (layout_document _ _ _ (KChannel id) L)].
    simplify_eq. destruct (_ || _) in He; [done|].
    by apply (expire_blocks_once _ _ _ _ A) in He as [? _]. }
  apply (expire_channel_Ok m0 c _ _ _ _ A) in Hb1; [|done..].
  apply (IH _ _ _ Hb1) in Hf; [|by apply wf_minus_channels; [|set_solver]|done|].
  2:{ intros x Hin. cbn. apply elem_of_difference. split; [apply Hl; by right|]. set_solver. }
  intros [ts' id'] r [[= -> ->]|Hin]%elem_of_cons Hr; [by apply Hhead|].
  apply (Hf (ts', id')); [done|]. apply map_lookup_filter_Some. split; [done|].
  cbn. intros E%list_elem_of_singleton. subst id'. apply Hx.
  assert ((ts', id) ∈ ar_due_channels A) as Hd' by (apply Hl; by right).
  apply (wf_due_channel _ _ W) in Hd' as (r1 & Hr1 & <-).
  apply (wf_due_channel _ _ W) in Hdue as (r2 & Hr2 & <-). cbn in *. by simplify_eq.
Qed.

Lemma pruneBlob_once c cutoff (b : B) b' A :
  layout m0 (contents b) A → wf c A → pruneBlob b cutoff = Ok b' → expired_distinct A cutoff.
Proof.
  intros L W Hp. unfold pruneBlob, pruneKind in Hp. cbn [foldM] in Hp.
  apply bind_Ok_inv in Hp as (b1 & Hp1 & _).
  apply bind_Ok_inv in Hp1 as (K1 & HK1%batch_Iter_Ok & Hp1).
  apply (channel_entries m0 _ _ _ _ L) in HK1 as (l1 & -> & Hnd1 & Hl1).
  apply (expire_channels_once c _ _ _ _ L W Hnd1) in Hp1; [|by intros x [? _]%Hl1].
  intros id r Hr Hlt. apply (Hp1 (crExpiresAt r, id)); [|done].
  apply Hl1. split; [|done]. apply (wf_due_channel _ _ W). eauto.
Qed.
End once.

Section totality.
Context `{GethText, !GethTextLaws}.
Context {D B : Type} `{Reliable D B}.
Context (m0 : gmap bytes raw).

Lemma delete_total (b : B) k : ∃ b', batch_Delete b k = Ok b'.
Proof. pose proof (batch_Delete_total b k) as Ht. destruct (batch_Delete b k); try done. eauto. Qed.

Lemma expire_blocks_total id l : ∀ (b : B) A,
  layout m0 (contents b) A → NoDup l →
  (∀ n, n ∈ l → ∃ blk, ar_blocks A !! n = Some (id, blk) ∧ bIndex blk = n) →
  ∃ b', foldM (expire_block id) b l = Ok b'.
Proof.
  induction l as [|n l IH]; intros b A L Hnd Hl; [by eexists|]. cbn [foldM].
  apply NoDup_cons in Hnd as [Hn Hnd]. destruct (Hl n) as (blk & Hb & Hi); [by left|].
  assert (∃ b1, expire_block id b n = Ok b1) as [b1 Hb1].
  { unfold expire_block. rewrite (required_batch b _ id).
    2:{ etrans; [apply (layout_document _ _ _ (KIndex n) L)|]. cbn [stored]. by rewrite Hb. }
    cbn [bind]. rewrite bool_decide_true by done. cbn [negb]. rewrite (required_batch b _ blk).
    2:{ etrans; [apply (layout_document _ _ _ (KBlock n) L)|]. cbn [stored]. by rewrite Hb. }
    cbn [bind]. rewrite bool_decide_true by done. cbn [negb].
    destruct (delete_total b (blobNumberKey "index" n)) as [b1 ->]. cbn [bind].
    apply delete_total. }
  rewrite Hb1. cbn [bind].
  apply (expire_block_Ok m0) with (A := A) in Hb1 as (_ & _ & L1); [|done].
  apply (IH _ _ L1 Hnd). intros n' Hin. cbn. rewrite lookup_delete_ne by (intros ->; done).
  apply Hl. by right.
Qed.

Lemma expire_channel_total c (b : B) ts id A :
  layout m0 (contents b) A → wf c A → distinct_in A [(ts, id)] → (ts, id) ∈ ar_due_channels A →
  ∃ b', expire_key "channel" b (bkey_bytes (KChannelExpiry ts id)) = Ok b'.
Proof.
  intros L W Hdis (r & Hr & <-)%(wf_due_channel _ _ W).
  destruct (wf_channel _ _ W _ _ Hr) as [Hid _ _ _ Hst].
  cbn [bkey_bytes]. rewrite expire_key_eq. unfold expireRecord. rewrite bool_decide_true by done.
  rewrite (required_batch b _ r).
  2:{ etrans; [apply (layout_document _ _ _ (KChannel id) L)|]. cbn [stored]. by rewrite Hr. }
  cbn [bind]. rewrite Hid, !bool_decide_true by done. cbn [negb orb].
  destruct (expire_blocks_total id (crBlocks r) b A L) as [b1 ->];
    [by eapply (Hdis (crExpiresAt r, id)); [left|] | |].
  { intros n Hn. destruct (Hst n Hn) as [blk Hb]. exists blk. split; [done|].
    by destruct (wf_block _ _ W _ _ _ Hb). }
  cbn [bind]. destruct (delete_total b1 (blobKey "channel" (bytes_of_string id))) as [b2 ->].
  apply delete_total.
Qed.

Lemma expire_tx_total c (b : B) ts h A :
  layout m0 (contents b) A → wf c A → (ts, h) ∈ ar_due_txs A →
  ∃ b', expire_key "tx" b (bkey_bytes (KTxExpiry ts h)) = Ok b'.
Proof.
  intros L W (t & Ht & <-)%(wf_due_tx _ _ W). destruct (wf_tx _ _ W _ _ Ht) as [Hh _].
  cbn [bkey_bytes]. rewrite expire_key_eq. unfold expireRecord. rewrite bool_decide_false by done.
  rewrite (required_batch b _ t).
  2:{ etrans; [apply (layout_document _ _ _ (KTx h) L)|]. cbn [stored]. by rewrite Ht. }
  cbn [bind]. rewrite Hh, !bool_decide_true by done. cbn [negb orb bind].
  destruct (delete_total b (blobKey "tx" (hash_bytes h))) as [b1 ->]. apply delete_total.
Qed.

Lemma expire_channels_total c l : ∀ (b : B) A,
  layout m0 (contents b) A → wf c A → distinct_in A l → NoDup l →
  (∀ x, x ∈ l → x ∈ ar_due_channels A) →
  ∃ b', foldM (expire_key "channel") b ((λ x, bkey_bytes (KChannelExpiry x.1 x.2)) <$> l) = Ok b'.
Proof.
  induction l as [|[ts id] l IH]; intros b A L W Hdis Hnd Hl; [by eexists|].
  rewrite fmap_cons. cbn [foldM]. apply NoDup_cons in Hnd as [Hx Hnd].
  destruct (expire_channel_total c b ts id A L W) as [b1 Hb1];
    [intros x r ->%list_elem_of_singleton; apply Hdis; by left | apply Hl; by left|].
  cbn [fst snd]. rewrite Hb1. cbn [bind].
  apply (expire_channel_Ok m0 c _ _ _ _ A) in Hb1; [|done|done|apply Hl; by left].
  apply (IH _ _ Hb1); [| |done|].
  - apply wf_minus_channels; [done|]. intros x Hin. apply Hl. set_solver.
  - intros x r Hin [Hr _]%map_lookup_filter_Some. apply (Hdis x); [by right | done].
  - intros x Hin. cbn. apply elem_of_difference. split; [apply Hl; by right|]. set_solver.
Qed.

Lemma expire_txs_total c l : ∀ (b : B) A,
  layout m0 (contents b) A → wf c A → NoDup l → (∀ x, x ∈ l → x ∈ ar_due_txs A) →
  (∀ id r x, ar_channels A !! id = Some r → x ∈ l → uval x.1 < uval (crExpiresAt r)) →
  ∃ b', foldM (expire_key "tx") b ((λ x, bkey_bytes (KTxExpiry x.1 x.2)) <$> l) = Ok b'.
Proof.
  induction l as [|[ts h] l IH]; intros b A L W Hnd Hl Hfree; [by eexists|].
  rewrite fmap_cons. cbn [foldM]. apply NoDup_cons in Hnd as [Hx Hnd].
  destruct (expire_tx_total c b ts h A L W) as [b1 Hb1]; [apply Hl; by left|].
  cbn [fst snd]. rewrite Hb1. cbn [bind].
  apply (expire_tx_Ok m0 _ _ _ _ A) in Hb1; [|done].
  apply (IH _ _ Hb1); [|done| |].
  - apply wf_minus_txs; [done | set_solver|]. intros id r x Hr Hin. apply (Hfree id); set_solver.
  - intros x Hin. cbn. apply elem_of_difference. split; [apply Hl; by right|]. set_solver.
  - intros id r x Hr Hin. apply (Hfree id); [done | by right].
Qed.

Lemma Iter_total (b : B) lo hi : ∃ K, batch_Iter b lo hi = Ok K ∧ keys_in (contents b) lo hi K.
Proof.
  pose proof (batch_Iter_total b lo hi) as Ht.
  destruct (batch_Iter b lo hi) as [K| |] eqn:E; try done. exists K. split; [done|].
  by apply batch_Iter_Ok.
Qed.

Lemma pruneBlob_total c cutoff (b : B) A :
  layout m0 (contents b) A → wf c A → expired_distinct A cutoff →
  ∃ b', pruneBlob b cutoff = Ok b'.
Proof.
  intros L W Hdis. unfold pruneBlob, pruneKind. cbn [foldM].
  destruct (Iter_total b (blobKey ("expiry/" +:+ "channel") [])
    (blobNumberKey ("expiry/" +:+ "channel") cutoff)) as (K1 & -> & HK1). cbn [bind].
  apply (channel_entries m0 _ _ _ _ L) in HK1 as (l1 & -> & Hnd1 & Hl1).
  assert (∀ x, x ∈ l1 → x ∈ ar_due_channels A) as Hdue1 by by intros x [? _]%Hl1.
  destruct (expire_channels_total c l1 b A L W) as [b1 Hb1]; [|done..|].
  { intros [ts id] r [Hd Hlt]%Hl1 Hr. apply (Hdis id); [done|].
    apply (wf_due_channel _ _ W) in Hd as (r' & Hr' & <-). by simplify_eq/=. }
  rewrite Hb1. cbn [bind].
  apply (expire_channels_Ok m0 c _ _ _ _ L W Hnd1 Hdue1) in Hb1 as [L1 W1].
  pose proof (minus_due_channels c cutoff l1 A W Hl1) as Hch.
  destruct (Iter_total b1 (blobKey ("expiry/" +:+ "tx") [])
    (blobNumberKey ("expiry/" +:+ "tx") cutoff)) as (K2 & -> & HK2). cbn [bind].
  apply (tx_entries m0 _ _ _ _ L1) in HK2 as (l2 & -> & Hnd2 & Hl2).
  destruct (expire_txs_total c l2 b1 _ L1 W1 Hnd2) as [b2 ->]; [by intros x [? _]%Hl2| |by eexists].
  intros id r x [_ Hr]%Hch [_ Hx]%Hl2. lia.
Qed.

Lemma latestBlockIndex_total (b : B) A :
  layout m0 (contents b) A → ∃ o, latestBlockIndex b = Ok o.
Proof.
  intros L. unfold latestBlockIndex.
  destruct (Iter_total b (blobKey "index" []) (bytes_of_string "blob/index0")) as (K & -> & HK).
  cbn [bind]. destruct (last K) as [k|] eqn:Hk; [|by eexists].
  apply last_Some in Hk as [K' ->].
  assert (k ∈ K' ++ [k]) as Hin by set_solver. apply (proj2 HK) in Hin as (Hs & Hlo & Hhi).
  destruct (proj1 (index_range k (hk_known _ _ _ L k Hs
    ltac:(by eapply (range_is_blob _ (bytes_of_string "index/") (bytes_of_string "index0")))))
    (conj Hlo Hhi)) as [n ->].
  cbn [bkey_bytes]. unfold blobNumberKey, blobKey. rewrite app_nil_r, slice_from_app.
  cbn [bind]. rewrite <-(app_nil_r (be_bytes 8 (uval n))), BigEndian_Uint64_app.
  rewrite app_nil_r, len_app. unfold len at 2. rewrite length_be_bytes.
  rewrite (proj2 (Z.eqb_eq _ _)) by lia. by eexists.
Qed.

End totality.

(** ** Opening, and both components on one database *)

(** Between "blob/" and "blob0" lie exactly the blob keys. *)
Lemma blob_range k :
  bytes_lt k blob_prefix = false ∧ bytes_lt k (bytes_of_string "blob0") = true ↔ is_blob k.
Proof.
  change blob_prefix with (bytes_of_string "blob" ++ [wrap 8 47]).
  change (bytes_of_string "blob0") with (bytes_of_string "blob" ++ [wrap 8 48]).
  split.
  - intros [Hlo Hhi].
    destruct (bytes_lt_prefix (bytes_of_string "blob") [wrap 8 48] k) as [s ->]; [|done|].
    { eapply bytes_lt_le_trans; [apply bytes_lt_app_r | exact Hlo]. }
    rewrite bytes_lt_app in Hlo, Hhi. destruct s as [|c s]; [done|].
    exists s. change blob_prefix with (bytes_of_string "blob" ++ [wrap 8 47]).
    rewrite <-app_assoc. f_equal. cbn [app]. f_equal. apply uint_eq.
    change (uval (wrap 8 47)) with 47.
    cbn [bytes_lt] in Hlo, Hhi. change (uval (wrap 8 47)) with 47 in Hlo.
    change (uval (wrap 8 48)) with 48 in Hhi. rewrite bytes_lt_nil_r in Hhi.
    rewrite andb_false_r, orb_false_r in Hhi. bool_to_prop.
    lia.
  - intros [s ->]. change blob_prefix with (bytes_of_string "blob" ++ [wrap 8 47]).
    rewrite <-app_assoc, !bytes_lt_app. split; [|done].
    cbn [app bytes_lt]. by rewrite bytes_lt_nil_r.
Qed.

Lemma not_blob_state : ¬ is_blob stateKey.
Proof. by intros [s Hs]. Qed.
Lemma not_blob_key i : ¬ is_blob (key i).
Proof. by intros [s Hs]. Qed.
Lemma not_blob_identity : ¬ is_blob identityKey.
Proof. by intros [s Hs]. Qed.
Lemma blob_foreign k : is_blob k → foreign k.
Proof.
  intros Hb. split; [|intros i]; intros ->; [by apply not_blob_state | by eapply not_blob_key].
Qed.

Section independence.
Context `{GethText, !GethTextLaws}.

(** The archive does not see other keys. *)
Lemma archived_blob_keys m m' A :
  (∀ k, is_blob k → m' !! k = m !! k) → archived m A → archived m' A.
Proof.
  intros Hm [[Hl Hk _] W N]. split; [split|done|done].
  - intros k. rewrite Hm by apply bkey_is_blob. apply Hl.
  - intros k Hs Hb. apply Hk; [|done]. by rewrite <-Hm.
  - done.
Qed.

(** The ledger does not see the blob keys. *)
Lemma represents_other_keys m m' l :
  (∀ k, ¬ is_blob k → m' !! k = m !! k) → represents m l → represents m' l.
Proof.
  intros Hm. apply represents_same_owned.
  - apply Hm, not_blob_state.
  - intros i. apply Hm, not_blob_key.
Qed.

Lemma archived_init m id :
  (∀ k, is_blob k → m !! k = None) →
  archived (<[blobStateKey := json_Marshal zero_BlobState]>
    (<[blobIdentityKey := json_Marshal (A := BlobIdentity) id]> m)) empty_archive.
Proof.
  intros Hm. split; [split| |done].
  - intros k. destruct (decide (k = KState)) as [->|Hne]; [by rewrite lookup_insert_eq|].
    rewrite !lookup_insert_ne, Hm; [by destruct k | apply bkey_is_blob | |].
    + by apply not_eq_sym, bkey_not_identity.
    + change blobStateKey with (bkey_bytes KState). by intros ?%bkey_bytes_inj.
  - intros k [v Hv] Hb. apply lookup_insert_Some in Hv as [[<- _]|[_ Hv]]; [right; by exists KState|].
    apply lookup_insert_Some in Hv as [[<- _]|[_ Hv]]; [by left|]. by rewrite Hm in Hv.
  - done.
  - apply wf_empty.
Qed.

Context {D B : Type} `{PebbleLaws D B}.

(** The identity on disk. *)
Definition identified (m : gmap bytes raw) (id : BlobIdentity) : Prop :=
  ∃ r, m !! blobIdentityKey = Some r ∧ json_Unmarshal r = Some id.

(** What a successful [InitBlob] did. *)
Lemma InitBlob_Ok (s s' : Store D) id :
  InitBlob s id = Ok s' →
  st_closed s' = false ∧
  ((s' = s ∧ identified (contents (st_db s)) id) ∨
   ((∀ k, is_blob k → contents (st_db s) !! k = None) ∧
    contents (st_db s') = <[blobStateKey := json_Marshal zero_BlobState]>
      (<[blobIdentityKey := json_Marshal id]> (contents (st_db s))))).
Proof.
  intros Hi. unfold InitBlob in Hi. destruct (st_closed s) eqn:Hcl; [done|].
  apply bind_Ok_inv in Hi as (o & Ho & Hi). destruct o as [id'|].
  - case_bool_decide as He; [|done]. subst id'. simpl in Hi. inv_bind.
    split; [done|]. left. split; [done|].
    unfold readJSON in Ho. apply bind_Ok_inv in Ho as (r & Hr%readValue_Ok & Ho).
    destruct r as [r|]; [|done]. exists r. split; [done|]. by inv_guard Ho.
  - apply bind_Ok_inv in Hi as (K & HK%db_Iter_range & Hi).
    case_bool_decide as Hnil; [|done]. subst K. simpl in Hi. inv_bind.
    apply batch_Set_Ok in Hv, Hv0. apply batch_Commit_Ok in Hv1. cbn.
    split; [done|]. right. split; [|by rewrite Hv1, Hv0, Hv, NewIndexedBatch_contents].
    intros k Hb. apply eq_None_not_Some. intros Hs.
    apply (not_elem_of_nil k), (proj2 HK). split; [done|]. by apply blob_range.
Qed.

Lemma InitBlob_step (s s' : Store D) id :
  InitBlob s id = Ok s' →
  (∀ k, ¬ is_blob k → contents (st_db s') !! k = contents (st_db s) !! k) ∧
  identified (contents (st_db s')) id ∧
  (∀ A, archived (contents (st_db s)) A → archived (contents (st_db s')) A) ∧
  (s' = s ∨ archived (contents (st_db s')) empty_archive).
Proof.
  intros (_ & [[-> Hid]|[Hnone Hc]])%InitBlob_Ok; [by eauto 10|]. rewrite Hc. split_and!.
  - intros k Hk. rewrite !lookup_insert_ne; [done | |].
    + intros <-. by apply Hk, identity_is_blob.
    + intros <-. by apply Hk, (bkey_is_blob KState).
  - exists (json_Marshal id). split; [|apply json_Unmarshal_Marshal].
    by rewrite lookup_insert_ne, lookup_insert_eq.
  - intros A [L _ _]. exfalso. pose proof (layout_state _ _ _ L) as Hst.
    by rewrite Hnone in Hst by apply (bkey_is_blob KState).
  - right. by apply archived_init.
Qed.

(** The life of a database: it is opened with an identity and initialized
    for blobs; both components commit to it; it is closed and opened again. *)
Inductive served_store (id : Identity) (bid : BlobIdentity) : Store D → Prop :=
  | life_new d s s' :
      (∀ k, contents d !! k = None) → Open d id = Ok s → InitBlob s bid = Ok s' →
      served_store id bid s'
  | life_commit s before after new s' :
      served_store id bid s → Commit s before after new = Ok s' → served_store id bid s'
  | life_blobs s before after txs chs s' :
      served_store id bid s → CommitBlob s before after txs chs = Ok s' →
      served_store id bid s'
  | life_close s : served_store id bid s → served_store id bid (Close s)
  | life_reopen s id' bid' s' s'' :
      served_store id bid s → Open (st_db s) id' = Ok s' → InitBlob s' bid' = Ok s'' →
      served_store id bid s''.

(** What holds throughout: both components' data, and both identities. *)
Record both (id : Identity) (bid : BlobIdentity) (m : gmap bytes raw) : Prop := {
  bt_identity : m !! identityKey = Some (json_Marshal id);
  bt_blob_identity : identified m bid;
  bt_ledger : ∃ l, represents m l;
  bt_archive : ∃ A, archived m A;
}.

Lemma served_store_both id bid s : served_store id bid s → both id bid (contents (st_db s)).
Proof.
  induction 1 as [d s s' Hd Ho Hi | s before after new s' _ [I1 I2 [l Hl] [A HA]] Hc
    | s before after txs chs s' _ [I1 I2 [l Hl] [A HA]] Hc | s _ IH
    | s id' bid' s' s'' _ [I1 I2 [l Hl] [A HA]] Ho Hi].
  - unfold Open in Ho. inv_bind.
    apply initIdentity_Ok in Hv as [[-> Hid]|[_ Hc]]; [by rewrite Hd in Hid|].
    apply InitBlob_Ok in Hi as Hi2. destruct Hi2 as [_ [[-> [r [Hr _]]]|[Hnone _]]].
    { simpl in Hr. by rewrite Hc, lookup_insert_ne, Hd in Hr. }
    apply InitBlob_step in Hi as (Ho & Hid & _ & [->|Harch]).
    { destruct Hid as (r & Hr & _). by rewrite Hnone in Hr by apply identity_is_blob. }
    split; [|done| |by eexists].
    + rewrite Ho by apply not_blob_identity. simpl. by rewrite Hc, lookup_insert_eq.
    + eexists. eapply represents_other_keys; [done|]. simpl. rewrite Hc.
      by apply represents_identity.
  - destruct (Commit_step _ _ _ _ _ _ Hl Hc) as (l' & _ & Hl' & _ & Hf). split.
    + rewrite Hf by apply foreign_identity. done.
    + destruct I2 as (r & Hr & Hu). exists r. split; [|done].
      by rewrite Hf by apply blob_foreign, identity_is_blob.
    + eauto.
    + exists A. eapply archived_blob_keys; [|done]. intros k Hb. by apply Hf, blob_foreign.
  - destruct (CommitBlob_step _ _ _ _ _ _ _ HA Hc) as (A' & _ & HA' & _ & Ho). split.
    + rewrite Ho; [done|]. left. apply not_blob_identity.
    + destruct I2 as (r & Hr & Hu). exists r. split; [|done]. rewrite Ho; [done|]. by right.
    + exists l. eapply represents_other_keys; [|done]. intros k Hk. apply Ho. by left.
    + eauto.
  - done.
  - unfold Open in Ho. inv_bind.
    apply initIdentity_Ok in Hv as [[-> _]|[Hn _]]; [|by rewrite Hn in I1].
    apply InitBlob_Ok in Hi as [_ [[-> _]|[Hnone _]]]; [by split; eauto|].
    destruct I2 as (r & Hr & _). simpl in Hnone. by rewrite Hnone in Hr by apply identity_is_blob.
Qed.
End independence.

(** ** Properties *)

Section properties.
Context `{GethText, !GethTextLaws}.
Context {D B : Type} `{PebbleLaws D B}.

(** [C4] A successful [CommitBlob] implements the archive: the database then
    holds the archive with the scan's transactions and channels added and
    everything older than the new cutoff removed, every derived block
    together with the first of its sources to expire; the latest block is the
    greatest index, the revision goes up by one, and no key of another
    component changes.  The sources of a kept channel are all there, the
    expiry index is exact, and every block belongs to one channel.  I/O
    errors may happen. *)
Theorem CommitBlob_refines (s s' : Store D) A before after txs chs :
  archived (contents (st_db s)) A → CommitBlob s before after txs chs = Ok s' →
  ∃ A', blob_commit A before after txs chs A' ∧ archived (contents (st_db s')) A' ∧
    same_other (contents (st_db s)) (contents (st_db s')).
Proof.
  intros HA Hc. destruct (CommitBlob_step _ _ _ _ _ _ _ HA Hc) as (A' & ? & ? & _ & ?).
  by exists A'.
Qed.

(** [C28] The two components share one database without disturbing each
    other: every database that was opened, initialized and then written by
    any sequence of deposit and blob commits, closings and reopenings holds a
    ledger and an archive and keeps both identities; a deposit commit keeps
    the archive as it is and a blob commit keeps the ledger. *)
Theorem stores_coexist id bid (s : Store D) :
  served_store id bid s →
  both id bid (contents (st_db s)) ∧
  (∀ before after new s' A, archived (contents (st_db s)) A →
    Commit s before after new = Ok s' → archived (contents (st_db s')) A) ∧
  (∀ before after txs chs s' l, represents (contents (st_db s)) l →
    CommitBlob s before after txs chs = Ok s' → represents (contents (st_db s')) l).
Proof.
  intros Hs%served_store_both. split; [done|]. destruct Hs as [_ _ [l Hl] [A HA]]. split.
  - intros before after new s' A' HA' Hc.
    destruct (Commit_step _ _ _ _ _ _ Hl Hc) as (_ & _ & _ & _ & Hf).
    eapply archived_blob_keys; [|done]. intros k Hb. by apply Hf, blob_foreign.
  - intros before after txs chs s' l' Hl' Hc.
    destruct (CommitBlob_step _ _ _ _ _ _ _ HA Hc) as (_ & _ & _ & _ & Ho).
    eapply represents_other_keys; [|done]. intros k Hk. apply Ho. by left.
Qed.

Context `{!Reliable D B}.

(** [C24] What [GetBlock] answers, without I/O errors.  The block at the
    index (or the latest one) is served with the batch of its channel when it
    is stored and all its deposits are ingested: all sources of the channel
    are kept, present and inside the retention window, and every transaction
    from L1 carries the fields of the deposit it refers to.  Nothing is
    served when there is no such block or a deposit is still awaited; the
    only integrity error is a stored L1 transaction without a usable queue
    index. *)
Theorem GetBlock_exact (s : Store D) A l index :
  archived (contents (st_db s)) A → represents (contents (st_db s)) l → st_closed s = false →
  let n := match index with None => bsLatest (ar_state A) | Some i => Some i end in
  (∃ i b batch, n = Some i ∧ GetBlock s index = Ok (mkResponse (Some b) (Some batch)) ∧
    block_served A l i b batch) ∨
  (GetBlock s index = Ok no_block ∧
    ∀ i, n = Some i → ar_blocks A !! i = None ∨
      ∃ id b, ar_blocks A !! i = Some (id, b) ∧ first_unserved l (tx_awaits l) (bTransactions b)) ∨
  (fails_with (GetBlock s index) ErrIntegrity ∧
    ∃ i id b, n = Some i ∧ ar_blocks A !! i = Some (id, b) ∧
      first_unserved l tx_malformed (bTransactions b)).
Proof. apply GetBlock_cases. Qed.

(** [C29] Retention always makes progress, but for one case: without I/O
    errors, a commit that only moves the cutoff forward succeeds exactly when
    no channel it expires lists a block twice.  [CommitBlob] accepts such a
    channel when the repeated blocks are equal, and cannot remove it later. *)
Theorem prune_decides (s : Store D) A after :
  archived (contents (st_db s)) A → st_closed s = false →
  uval (bsRevision (ar_state A)) < 2 ^ 64 - 1 →
  uval (bsCutoff (ar_state A)) <= uval (bsCutoff after) →
  (∃ s', CommitBlob s (ar_state A) after [] [] = Ok s') ↔ expired_distinct A (bsCutoff after).
Proof.
  intros [L W _] Hcl Hrev Hcut. unfold CommitBlob. rewrite Hcl. unfold readBlobState.
  rewrite (required_db _ _ (ar_state A)) by apply (layout_state _ _ _ L).
  cbn [bind foldM]. rewrite bool_decide_true by done. cbn [negb].
  rewrite bool_decide_false by (intros E; rewrite E, uval_max_uint64 in Hrev; lia).
  unfold ult. rewrite (proj2 (Z.ltb_ge _ _)) by done. cbn [orb].
  rewrite <-(NewIndexedBatch_contents (st_db s)) in L.
  split.
  - intros [s' Hc]. apply bind_Ok_inv in Hc as (b & Hb & _).
    by eapply pruneBlob_once.
  - intros Hdis. destruct (pruneBlob_total _ _ (bsCutoff after) _ _ L W Hdis) as [b Hb].
    rewrite Hb. cbn [bind].
    apply (pruneBlob_Ok _ _ _ _ _ _ L W) in Hb as (A' & L' & _ & _).
    destruct (latestBlockIndex_total _ _ _ L') as [latest ->]. cbn [bind]. unfold putJSON.
    destruct (batch_Set_eq b blobStateKey (json_Marshal
      (set_commit after latest (uadd (bsRevision (ar_state A)) (#64 1))))) as (b2 & -> & _).
    cbn [bind]. destruct (batch_Commit_eq (st_db s) b2) as (d & -> & _). cbn [bind]. by eexists.
Qed.

(** [InitBlob], without I/O errors: it accepts a database that carries
    the same blob identity and a blob state (and leaves it as it is), or one
    without any blob key (which then holds the empty archive); it refuses
    another identity, and blob keys without an identity. *)
Theorem InitBlob_decides (s : Store D) id :
  st_closed s = false →
  let m := contents (st_db s) in
  (∀ A id', archived m A → m !! blobIdentityKey = Some (json_Marshal id') →
    if decide (id' = id) then InitBlob s id = Ok s else fails_with (InitBlob s id) ErrIntegrity) ∧
  ((∀ k, is_blob k → m !! k = None) →
    ∃ s', InitBlob s id = Ok s' ∧ archived (contents (st_db s')) empty_archive ∧
      identified (contents (st_db s')) id ∧
      ∀ k, ¬ is_blob k → contents (st_db s') !! k = m !! k) ∧
  (m !! blobIdentityKey = None → (∃ k, is_blob k ∧ is_Some (m !! k)) →
    fails_with (InitBlob s id) ErrIntegrity).
Proof.
  intros Hcl m. unfold InitBlob at 1 2. rewrite Hcl. split_and!.
  - intros A id' HA Hid. rewrite (readJSON_db _ _ _ (Some id')) by (done || by left).
    cbn [bind]. case_decide as E.
    + rewrite bool_decide_true by done. cbn [negb]. unfold readBlobState.
      by rewrite (required_db _ _ (ar_state A)) by apply (layout_state _ _ _ (av_layout _ _ HA)).
    + rewrite bool_decide_false by done. by eexists.
  - intros Hnone.
    assert (∃ s', InitBlob s id = Ok s') as [s' Hs'].
    { unfold InitBlob. rewrite Hcl, (readJSON_db _ _ _ None); [| |by left].
      2:{ apply Hnone, identity_is_blob. }
      cbn [bind]. pose proof (db_Iter_total (st_db s)
        (Some (bytes_of_string "blob/", bytes_of_string "blob0"))) as Ht.
      destruct (db_Iter (st_db s) _) as [K| |] eqn:HK; try done. clear Ht. cbn [bind].
      assert (K = []) as ->.
      { apply elem_of_nil_inv. intros k Hk. apply db_Iter_range in HK.
        apply (proj2 HK) in Hk as (Hs & Hb%blob_range). rewrite Hnone in Hs by done.
        by destruct Hs. }
      rewrite bool_decide_true by done. cbn [negb]. unfold putJSON.
      edestruct (batch_Set_eq (NewIndexedBatch (st_db s))) as (b1 & -> & _). cbn [bind].
      edestruct (batch_Set_eq b1) as (b2 & -> & _). cbn [bind].
      destruct (batch_Commit_eq (st_db s) b2) as (d & -> & _). by eexists. }
    exists s'. split; [done|]. apply InitBlob_step in Hs' as (Ho & Hid & _ & [->|Ha]); [|by split_and!].
    destruct Hid as (r & Hr & _). rewrite Hnone in Hr by apply identity_is_blob. done.
  - intros Hnone (k & Hb & Hs). unfold InitBlob.
    rewrite Hcl, (readJSON_db _ _ _ None) by (done || by left). cbn [bind].
    pose proof (db_Iter_total (st_db s)
      (Some (bytes_of_string "blob/", bytes_of_string "blob0"))) as Ht.
    destruct (db_Iter (st_db s) _) as [K| |] eqn:HK; try done. clear Ht. cbn [bind].
    rewrite bool_decide_false; [by eexists|]. intros ->. apply db_Iter_range in HK.
    apply (not_elem_of_nil k), (proj2 HK). split; [done|]. by apply blob_range.
Qed.

End properties.

(** ** A database with one channel *)

Module BlobWitness.

#[local] Existing Instances HexText.text HexText.laws MemKV.pebble MemKV.laws MemKV.reliable.

Definition bid : BlobIdentity :=
  mkBlobIdentity (Int 1 eq_refl) (wrap 160 1) (wrap 160 2) (wrap 160 3) (#64 5).

Definition source (h ts : Z) : BlobTransaction :=
  mkBlobTransaction (wrap 256 h) (wrap 256 7) (#64 10) (#64 ts) (#64 0) false
    [mkFrame (wrap 128 1) (wrap 16 0) true [wrap 8 1]].

(** Block 4 has one transaction from L1, the deposit 0. *)
Definition queued : BlockTransaction :=
  mkBlockTx (#64 4) (#64 2) (#64 0) (#64 0) "0" zero_address zero_address "0x" "l1" "0x0"
    (Some (#64 0)) None true None.
Definition block : Block := mkBlock (#64 4) (#64 2) (#64 0) "0x" [queued] true.
Definition batch : BlockBatch :=
  mkBatch (#64 2) (wrap 256 8) (#64 1) (#64 4) "" (#64 10) (#64 100) (wrap 160 2) (wrap 256 9).
Definition channel : BlobChannel :=
  mkBlobChannel (mkChannelRecord "c" [wrap 256 21; wrap 256 22] [wrap 64 4] batch (#64 50)) [block].
Definition twice : BlobChannel :=
  mkBlobChannel (mkChannelRecord "c" [wrap 256 21; wrap 256 22] [wrap 64 4; wrap 64 4] batch (#64 50))
    [block; block].

Definition at_height (st : BlobState) (n cutoff : Z) : BlobState :=
  mkBlobState (bsRevision st) (Some (#64 n)) (wrap 256 n) (#64 cutoff) None zero_hash None JNull.

Definition get_store (r : result (Store MemKV.db)) : Store MemKV.db :=
  DepositWitness.get_ok DepositWitness.s0 r.

Definition sources : list BlobTransaction := [source 21 60; source 22 50].
Definition b0 : Store MemKV.db := get_store (InitBlob DepositWitness.s1 bid).
Definition b1 : Store MemKV.db :=
  get_store (CommitBlob b0 zero_BlobState (at_height zero_BlobState 10 40) sources [channel]).
Definition b2 : Store MemKV.db :=
  get_store (CommitBlob b0 zero_BlobState (at_height zero_BlobState 10 40) sources [twice]).

Lemma initialized : InitBlob DepositWitness.s1 bid = Ok b0.
Proof. vm_cast_no_check (eq_refl (Ok b0)). Qed.
Lemma scanned :
  CommitBlob b0 zero_BlobState (at_height zero_BlobState 10 40) sources [channel] = Ok b1.
Proof. vm_cast_no_check (eq_refl (Ok b1)). Qed.
Lemma scanned_twice :
  CommitBlob b0 zero_BlobState (at_height zero_BlobState 10 40) sources [twice] = Ok b2.
Proof. vm_cast_no_check (eq_refl (Ok b2)). Qed.

Lemma b0_new : contents (st_db b0) = <[blobStateKey := json_Marshal zero_BlobState]>
  (<[blobIdentityKey := json_Marshal bid]> (contents (st_db DepositWitness.s1))).
Proof. vm_cast_no_check (eq_refl (contents (st_db b0))). Qed.

Lemma no_blobs k : is_blob k → contents (st_db DepositWitness.s1) !! k = None.
Proof.
  intros Hb. destruct (InitBlob_Ok _ _ _ initialized) as [_ [[E _]|[Hn _]]]; [|by apply Hn].
  exfalso. apply (f_equal (λ s, bool_decide (is_Some (contents (st_db s) !! blobStateKey)))) in E.
  revert E. vm_compute. discriminate.
Qed.

Lemma b0_archived : archived (contents (st_db b0)) empty_archive.
Proof. rewrite b0_new. apply archived_init, no_blobs. Qed.

Lemma CommitBlob_refines_witness :
  ∃ A', blob_commit empty_archive zero_BlobState (at_height zero_BlobState 10 40) sources
      [channel] A' ∧
    archived (contents (st_db b1)) A' ∧ same_other (contents (st_db b0)) (contents (st_db b1)).
Proof.
  apply (CommitBlob_refines b0 b1 empty_archive zero_BlobState).
  - exact b0_archived.
  - exact scanned.
Defined.

Definition e0 : Store MemKV.db := get_store (InitBlob DepositWitness.s0 bid).

Lemma stores_coexist_witness : both DepositWitness.id0 bid (contents (st_db e0)).
Proof.
  apply (stores_coexist DepositWitness.id0 bid e0).
  apply (life_new _ _ (MemKV.Db ∅) DepositWitness.s0).
  - exact lookup_empty.
  - exact DepositWitness.opened.
  - vm_cast_no_check (eq_refl (Ok e0)).
Defined.

Lemma b1_archived : ∃ A, archived (contents (st_db b1)) A ∧
  bsLatest (ar_state A) = Some (#64 4).
Proof.
  destruct (CommitBlob_step _ _ _ _ _ _ _ b0_archived scanned) as (A & _ & HA & _).
  exists A. split; [done|]. pose proof (layout_state _ _ _ (av_layout _ _ HA)) as Hs.
  assert (json_Unmarshal (A := BlobState) <$> contents (st_db b1) !! blobStateKey =
    Some (json_Unmarshal (A := BlobState) (json_Marshal (ar_state A)))) as E by by rewrite Hs.
  rewrite json_Unmarshal_Marshal in E.
  assert (bsLatest <$> mjoin (json_Unmarshal (A := BlobState) <$>
    contents (st_db b1) !! blobStateKey) = Some (Some (#64 4))) as E2 by (vm_compute; reflexivity).
  rewrite E in E2. cbn in E2. congruence.
Qed.

Lemma b1_ledger : ∃ l, represents (contents (st_db b1)) l.
Proof.
  destruct (Commit_step _ _ _ _ _ _ DepositWitness.s0_represents DepositWitness.committed)
    as (l & _ & Hl & _).
  exists l. apply (represents_other_keys (contents (st_db b0))).
  - intros k Hk. destruct (CommitBlob_step _ _ _ _ _ _ _ b0_archived scanned) as (_ & _ & _ & _ & Ho).
    apply Ho. by left.
  - apply (represents_other_keys (contents (st_db DepositWitness.s1))); [|done].
    intros k Hk. by apply (InitBlob_step _ _ _ initialized).
Qed.

Definition answered_batch (r : result BlockResponse) : option BlockBatch :=
  match r with Ok o => respBatch o | _ => None end.

Lemma GetBlock_exact_witness :
  ∃ A l b, block_served A l (#64 4) b batch ∧
    GetBlock b1 None = Ok (mkResponse (Some b) (Some batch)).
Proof.
  assert (answered_batch (GetBlock b1 None) = Some batch) as E by (vm_compute; reflexivity).
  destruct b1_archived as (A & HA & Hn). destruct b1_ledger as [l Hl]. exists A, l.
  destruct (GetBlock_exact b1 A l None HA Hl eq_refl)
    as [(i & b & ba & Hi & Hg & Hs)|[[Hg _]|[(e & Hg & _) _]]]; rewrite Hg in E.
  - rewrite Hn in Hi. injection Hi as <-. injection E as ->. exists b. by split.
  - discriminate E.
  - discriminate E.
Defined.

(** Expiring the ordinary channel works; the one with the repeated block
    can never expire. *)
Lemma prune_decides_witness :
  is_ok (CommitBlob b1 (DepositWitness.get_ok zero_BlobState (StoreBlobState b1))
    (at_height zero_BlobState 10 55) [] []) = true ∧
  is_ok (CommitBlob b2 (DepositWitness.get_ok zero_BlobState (StoreBlobState b2))
    (at_height zero_BlobState 10 55) [] []) = false ∧
  ∃ s', CommitBlob b0 zero_BlobState (at_height zero_BlobState 10 55) [] [] = Ok s'.
Proof.
  split; [vm_compute; reflexivity|]. split; [vm_compute; reflexivity|].
  apply (prune_decides b0 empty_archive (at_height zero_BlobState 10 55)).
  - exact b0_archived.
  - reflexivity.
  - vm_compute. reflexivity.
  - vm_compute. discriminate.
  - intros id r Hr. discriminate Hr.
Defined.

Lemma InitBlob_decides_witness :
  fails_with (InitBlob b0 (mkBlobIdentity (Int 1 eq_refl) (wrap 160 1) (wrap 160 2)
    (wrap 160 3) (#64 6))) ErrIntegrity.
Proof.
  pose proof (InitBlob_decides b0 (mkBlobIdentity (Int 1 eq_refl) (wrap 160 1) (wrap 160 2)
    (wrap 160 3) (#64 6)) eq_refl) as [Hi _].
  specialize (Hi empty_archive bid b0_archived). rewrite decide_False in Hi; [apply Hi|].
  - rewrite b0_new. reflexivity.
  - discriminate.
Defined.

End BlobWitness.
