(* ===== verification/BlobCodec.v ===== *)
(** * The blob field-element codec (internal/blob/frames.go, DecodeBlob)

    A blob is 4096 field elements of 32 bytes; the encoding stores 254 bits in
    each: four elements carry 127 bytes, 31 in the body of each element and
    three spread over the low six bits of the four head bytes.  [DecodeBlob]
    follows the Go code index by index, with a panic where Go would panic;
    [encode_blob] is the reference encoder the decoder inverts. *)
From S2P Require Import Prelude Word Json Geth StoreTypes.

Definition MaxChannelBytes : Z := 100000000.

Definition invalid {A} (msg : string) : result A := Err (errorf ErrInvalid msg).

(** The variables of the loop: [out], [op], [ip] and [encoded]. *)
Record dstate : Type := mkD {
  d_out : bytes;
  d_op : Z;
  d_ip : Z;
  d_encoded : list byte;
}.

(** [b & 0xc0 != 0] *)
Definition high_bits (b : byte) : bool := negb (Z.land (uval b) 192 =? 0).

(** The body of the inner loop: one field element. *)
Definition decode_element (raw : bytes) (st : dstate) (j : Z) : result dstate :=
  let! b := at_ raw (d_ip st) in
  let! encoded := set_at (d_encoded st) j b in
  if high_bits b then invalid "field element" else
  let! src := slice raw (d_ip st + 1) (d_ip st + 32) in
  let! out := copy_at (d_out st) (d_op st) src in
  Ok (mkD out (d_op st + 32) (d_ip st + 32) encoded).

(** The three bytes reassembled from the head bytes of a group. *)
Definition reassemble (e0 e1 e2 e3 : byte) : byte * byte * byte :=
  (wrap 8 (Z.lor (Z.land (uval e0) 63) (Z.shiftl (Z.land (uval e1) 48) 2)),
   wrap 8 (Z.lor (Z.land (uval e1) 15) (Z.shiftl (Z.land (uval e3) 15) 4)),
   wrap 8 (Z.lor (Z.land (uval e2) 63) (Z.shiftl (Z.land (uval e3) 48) 2))).

(** The end of a round: the group's three bytes, and whether to [break]. *)
Definition decode_group_end (length : Z) (st : dstate) : result (dstate * bool) :=
  let op := d_op st - 1 in
  let! e0 := at_ (d_encoded st) 0 in
  let! e1 := at_ (d_encoded st) 1 in
  let! e2 := at_ (d_encoded st) 2 in
  let! e3 := at_ (d_encoded st) 3 in
  let '(x, y, z) := reassemble e0 e1 e2 e3 in
  let! out := set_at (d_out st) (op - 96) x in
  let! out := set_at out (op - 64) y in
  let! out := set_at out (op - 32) z in
  Ok (mkD out op (d_ip st) (d_encoded st), length <=? op).

(** One round of the outer loop. *)
Definition decode_round (raw : bytes) (length : Z) (st : dstate) (round : nat) :
    result (dstate * bool) :=
  let elements := if (round =? 0)%nat then [1; 2; 3] else [0; 1; 2; 3] in
  let! st := foldM (decode_element raw) st elements in
  decode_group_end length st.

Fixpoint decode_rounds (raw : bytes) (length : Z) (st : dstate) (rounds : list nat) :
    result dstate :=
  match rounds with
  | [] => Ok st
  | round :: rounds =>
      let! ' (st, stop) := decode_round raw length st round in
      if stop : bool then Ok st else decode_rounds raw length st rounds
  end.

Definition is_zero (b : byte) : bool := uval b =? 0.

Definition zeros (n : nat) : bytes := replicate n (wrap 8 0).

Definition DecodeBlob (raw : bytes) : result bytes :=
  if negb (len raw =? 131072) then invalid "Blob size/version" else
  let! version := at_ raw 1 in
  if negb (is_zero version) then invalid "Blob size/version" else
  let! b2 := at_ raw 2 in
  let! b3 := at_ raw 3 in
  let! b4 := at_ raw 4 in
  let length := Z.lor (Z.lor (Z.shiftl (uval b2) 16) (Z.shiftl (uval b3) 8)) (uval b4) in
  if 130044 <? length then invalid "Blob payload length" else
  let! src := slice raw 5 32 in
  let! out := copy_at (zeros (Z.to_nat 130044)) 0 src in
  let! b0 := at_ raw 0 in
  let encoded := [b0; wrap 8 0; wrap 8 0; wrap 8 0] in
  if high_bits b0 then invalid "field element" else
  let! st := decode_rounds raw length (mkD out 28 32 encoded) (seq 0 1024) in
  let! tail := slice_from (d_out st) length in
  if negb (forallb is_zero tail) then invalid "Blob output padding" else
  let! rest := slice_from raw (d_ip st) in
  if negb (forallb is_zero rest) then invalid "Blob padding" else
  slice (d_out st) 0 length.

(** ** The reference encoder *)

(** [k] chunks of [n] bytes. *)
Fixpoint chunks (k n : nat) (l : bytes) : list bytes :=
  match k with
  | O => []
  | S k => take n l :: chunks k n (drop n l)
  end.

Definition nth_byte (l : bytes) (i : nat) : byte := default (wrap 8 0) (l !! i).

(** 127 bytes into four field elements. *)
Definition pack (c : bytes) : bytes :=
  let x := uval (nth_byte c 31) in
  let y := uval (nth_byte c 63) in
  let z := uval (nth_byte c 95) in
  (wrap 8 (x mod 64) :: take 31 c) ++
  (wrap 8 (y mod 16 + 16 * (x / 64)) :: take 31 (drop 32 c)) ++
  (wrap 8 (z mod 64) :: take 31 (drop 64 c)) ++
  (wrap 8 (y / 16 + 16 * (z / 64)) :: drop 96 c).

(** The byte stream of a blob: version, length, payload, zero padding. *)
Definition blob_stream (payload : bytes) : bytes :=
  [wrap 8 0] ++ be_bytes 3 (len payload) ++ payload
    ++ zeros (Z.to_nat 130044 - length payload).

Definition encode_blob (payload : bytes) : bytes :=
  concat (pack <$> chunks 1024 127 (blob_stream payload)).

(** ** Head bytes *)

Lemma high_bits_false b : high_bits b = false ↔ uval b < 64.
Proof.
  assert (∀ z, 0 <= z < 256 →
    Bool.eqb (negb (Z.land z 192 =? 0)) (negb (z <? 64)) = true) as Hall.
  { apply check_range. reflexivity. }
  specialize (Hall (uval b) (byte_range b)). apply eqb_prop in Hall.
  unfold high_bits. rewrite Hall, negb_false_iff. apply Z.ltb_lt.
Qed.

Lemma lor_top a b : 0 <= a < 64 → 0 <= b < 64 →
  Z.lor (Z.land a 63) (Z.shiftl (Z.land b 48) 2) = a + 64 * (b / 16).
Proof.
  intros Ha Hb. apply Z.eqb_eq. revert a b Ha Hb.
  apply (check_range2 (λ a b,
    Z.lor (Z.land a 63) (Z.shiftl (Z.land b 48) 2) =? a + 64 * (b / 16))).
  vm_compute. reflexivity.
Qed.

Lemma lor_nibbles a b : 0 <= a < 64 → 0 <= b < 64 →
  Z.lor (Z.land a 15) (Z.shiftl (Z.land b 15) 4) = a mod 16 + 16 * (b mod 16).
Proof.
  intros Ha Hb. apply Z.eqb_eq. revert a b Ha Hb.
  apply (check_range2 (λ a b,
    Z.lor (Z.land a 15) (Z.shiftl (Z.land b 15) 4) =? a mod 16 + 16 * (b mod 16))).
  vm_compute. reflexivity.
Qed.

Lemma uval_byte z : 0 <= z < 256 → uval (wrap 8 z) = z.
Proof. apply (uval_wrap_small 8). Qed.

Ltac byte_arith :=
  repeat match goal with
  | x : byte |- _ =>
      lazymatch goal with
      | _ : 0 <= uval x < 256 |- _ => fail
      | _ => pose proof (byte_range x)
      end
  end;
  repeat (rewrite uval_byte by (Z.div_mod_to_equations; lia));
  Z.div_mod_to_equations; lia.

(** The head bytes [pack] writes. *)
Definition heads (x y z : byte) : byte * byte * byte * byte :=
  (wrap 8 (uval x mod 64), wrap 8 (uval y mod 16 + 16 * (uval x / 64)),
   wrap 8 (uval z mod 64), wrap 8 (uval y / 16 + 16 * (uval z / 64))).

Lemma reassemble_heads x y z :
  let '(e0, e1, e2, e3) := heads x y z in
  (uval e0 < 64 ∧ uval e1 < 64 ∧ uval e2 < 64 ∧ uval e3 < 64) ∧
  reassemble e0 e1 e2 e3 = (x, y, z).
Proof.
  unfold heads, reassemble. split; [split_and!; byte_arith|].
  assert (∀ v : byte, uval (wrap 8 (uval v mod 64)) = uval v mod 64) as Hm by
    (intros v; apply uval_byte; pose proof (byte_range v); Z.div_mod_to_equations; lia).
  rewrite !Hm, !uval_byte, !lor_top, !lor_nibbles by byte_arith.
  apply f_equal2; [apply f_equal2|]; apply uint_eq; byte_arith.
Qed.

Lemma heads_reassemble e0 e1 e2 e3 :
  uval e0 < 64 → uval e1 < 64 → uval e2 < 64 → uval e3 < 64 →
  let '(x, y, z) := reassemble e0 e1 e2 e3 in heads x y z = (e0, e1, e2, e3).
Proof.
  intros. pose proof (byte_range e0). pose proof (byte_range e1).
  pose proof (byte_range e2). pose proof (byte_range e3).
  unfold heads, reassemble. rewrite !lor_top, !lor_nibbles by lia.
  rewrite (uval_byte (uval e0 + _)), (uval_byte (uval e1 mod _ + _)),
    (uval_byte (uval e2 + _)) by byte_arith.
  apply f_equal2; [apply f_equal2; [apply f_equal2|]|]; apply uint_eq; byte_arith.
Qed.

(** ** Groups of four elements *)

(** A 128-byte group: four heads and four bodies. *)
Definition group (e0 e1 e2 e3 : byte) (s0 s1 s2 s3 : bytes) : bytes :=
  (e0 :: s0) ++ (e1 :: s1) ++ (e2 :: s2) ++ (e3 :: s3).

(** The 127 bytes it carries. *)
Definition carried (x y z : byte) (s0 s1 s2 s3 : bytes) : bytes :=
  s0 ++ x :: s1 ++ y :: s2 ++ z :: s3.

Lemma pack_carried x y z s0 s1 s2 s3 :
  length s0 = 31%nat → length s1 = 31%nat → length s2 = 31%nat → length s3 = 31%nat →
  pack (carried x y z s0 s1 s2 s3) =
    let '(e0, e1, e2, e3) := heads x y z in group e0 e1 e2 e3 s0 s1 s2 s3.
Proof.
  intros H0 H1 H2 H3. unfold pack, carried.
  set (c := s0 ++ x :: s1 ++ y :: s2 ++ z :: s3).
  assert (c = (s0 ++ x :: s1) ++ y :: s2 ++ z :: s3) as E1.
  { unfold c. by rewrite <-app_assoc. }
  assert (c = (s0 ++ x :: s1 ++ y :: s2) ++ z :: s3) as E2.
  { unfold c. rewrite <-app_assoc. simpl. by rewrite <-app_assoc. }
  assert (nth_byte c 31 = x) as ->.
  { unfold nth_byte, c. by rewrite list_lookup_middle. }
  assert (nth_byte c 63 = y) as ->.
  { unfold nth_byte. rewrite E1, list_lookup_middle; [done|].
    rewrite length_app. simpl. lia. }
  assert (nth_byte c 95 = z) as ->.
  { unfold nth_byte. rewrite E2, list_lookup_middle; [done|].
    rewrite !length_app. simpl. rewrite length_app. simpl. lia. }
  assert (take 31 c = s0) as ->.
  { unfold c. by rewrite take_app_length'. }
  assert (take 31 (drop 32 c) = s1) as ->.
  { unfold c. rewrite cons_middle, app_assoc, drop_app_length'
      by (rewrite length_app; simpl; lia).
    by rewrite take_app_length'. }
  assert (take 31 (drop 64 c) = s2) as ->.
  { rewrite E1, cons_middle, app_assoc, drop_app_length'
      by (rewrite !length_app; simpl; lia).
    by rewrite take_app_length'. }
  assert (drop 96 c = s3) as ->.
  { rewrite E2, cons_middle, app_assoc, drop_app_length'; [done|].
    rewrite !length_app. simpl. rewrite length_app. simpl. lia. }
  done.
Qed.

Lemma split_at (n : nat) (l : bytes) :
  (n <= length l)%nat → ∃ a b, l = a ++ b ∧ length a = n ∧ length b = (length l - n)%nat.
Proof.
  intros Hn. exists (take n l), (drop n l).
  rewrite take_drop, length_take, length_drop. split_and!; [done | lia | done].
Qed.

Lemma split_head (n : nat) (l : bytes) :
  (n < length l)%nat →
  ∃ a x b, l = a ++ x :: b ∧ length a = n ∧ length b = (length l - n - 1)%nat.
Proof.
  intros Hn. destruct (split_at n l) as (a & b & -> & Ha & Hb); [lia|].
  rewrite length_app in *. destruct b as [|x b]; [simpl in *; lia|].
  exists a, x, b. simpl in *. split_and!; [done | done | lia].
Qed.

(** Every 128-byte group and every 127-byte chunk has that shape. *)
Lemma group_shape (g : bytes) :
  length g = 128%nat → ∃ e0 e1 e2 e3 s0 s1 s2 s3,
    g = group e0 e1 e2 e3 s0 s1 s2 s3 ∧ length s0 = 31%nat ∧ length s1 = 31%nat ∧
    length s2 = 31%nat ∧ length s3 = 31%nat.
Proof.
  intros Hg.
  destruct (split_at 32 g) as (a & g1 & -> & Ha & Hg1); [lia|].
  destruct (split_at 32 g1) as (b & g2 & -> & Hb & Hg2); [lia|].
  destruct (split_at 32 g2) as (c & d & -> & Hc & Hd); [lia|].
  rewrite !length_app in *.
  destruct a as [|e0 s0], b as [|e1 s1], c as [|e2 s2], d as [|e3 s3]; try (simpl in *; lia).
  exists e0, e1, e2, e3, s0, s1, s2, s3. simpl in *. split_and!; [done | lia..].
Qed.

Lemma carried_shape (c : bytes) :
  length c = 127%nat → ∃ x y z s0 s1 s2 s3,
    c = carried x y z s0 s1 s2 s3 ∧ length s0 = 31%nat ∧ length s1 = 31%nat ∧
    length s2 = 31%nat ∧ length s3 = 31%nat.
Proof.
  intros Hc.
  destruct (split_head 31 c) as (s0 & x & c1 & -> & H0 & Hc1); [lia|].
  rewrite length_app in *. simpl in *.
  destruct (split_head 31 c1) as (s1 & y & c2 & -> & H1 & Hc2); [lia|].
  rewrite length_app in *. simpl in *.
  destruct (split_head 31 c2) as (s2 & z & s3 & -> & H2 & Hc3); [lia|].
  rewrite length_app in *. simpl in *.
  exists x, y, z, s0, s1, s2, s3. split_and!; [done | lia..].
Qed.

(** A group whose heads use six bits, and its inverse packing. *)
Definition good_group (g : bytes) : Prop :=
  ∃ c, length c = 127%nat ∧ g = pack c.

Lemma length_group e0 e1 e2 e3 s0 s1 s2 s3 :
  length s0 = 31%nat → length s1 = 31%nat → length s2 = 31%nat → length s3 = 31%nat →
  length (group e0 e1 e2 e3 s0 s1 s2 s3) = 128%nat.
Proof. intros. unfold group. rewrite !length_app. simpl. lia. Qed.

Lemma length_pack c : length c = 127%nat → length (pack c) = 128%nat.
Proof.
  intros (x & y & z & s0 & s1 & s2 & s3 & -> & ? & ? & ? & ?)%carried_shape.
  rewrite pack_carried by done. unfold heads. by apply length_group.
Qed.

(** ** One round *)

Section round.
Context (raw : bytes).
Implicit Types (p pre post q o s t : bytes) (e x y z : byte).

Lemma decode_element_step pre e s post o1 a o2 op ip enc j enc' :
  raw = pre ++ (e :: s) ++ post → ip = len pre → length s = 31%nat →
  op = len o1 → length a = 31%nat → set_at enc j e = Ok enc' →
  decode_element raw (mkD (o1 ++ a ++ o2) op ip enc) j =
    if high_bits e then invalid "field element"
    else Ok (mkD (o1 ++ s ++ o2) (op + 32) (ip + 32) enc').
Proof.
  intros Hraw -> Hs -> Ha Henc. unfold decode_element. cbn [d_ip d_op d_out d_encoded].
  rewrite Hraw at 1. cbn [app]. rewrite at_middle by done. cbn [bind].
  rewrite Henc. cbn [bind]. destruct (high_bits e); [done|].
  rewrite Hraw. cbn [app]. rewrite cons_middle, app_assoc.
  rewrite slice_middle by (rewrite len_app; unfold len; simpl; lia). cbn [bind].
  rewrite copy_at_middle by (done || congruence). done.
Qed.

(** The last three elements of a group. *)
Lemma three_elements p e1 s1 e2 s2 e3 s3 post q t1 y t2 z t3 o2 op ip a b c d :
  raw = p ++ (e1 :: s1) ++ (e2 :: s2) ++ (e3 :: s3) ++ post → ip = len p →
  length s1 = 31%nat → length s2 = 31%nat → length s3 = 31%nat →
  op = len q → length t1 = 31%nat → length t2 = 31%nat → length t3 = 31%nat →
  foldM (decode_element raw)
    (mkD (q ++ t1 ++ y :: t2 ++ z :: t3 ++ o2) op ip [a; b; c; d]) [1; 2; 3] =
  if high_bits e1 || high_bits e2 || high_bits e3 then invalid "field element"
  else Ok (mkD (q ++ s1 ++ y :: s2 ++ z :: s3 ++ o2) (op + 96) (ip + 96) [a; e1; e2; e3]).
Proof.
  intros Hraw Hip H1 H2 H3 Hop L1 L2 L3. cbn [foldM].
  rewrite (decode_element_step p e1 s1 ((e2 :: s2) ++ (e3 :: s3) ++ post)
    q t1 _ op ip _ _ [a; e1; c; d]) by done.
  destruct (high_bits e1); [done|]. cbn [bind orb].
  replace (q ++ s1 ++ y :: t2 ++ z :: t3 ++ o2)
    with ((q ++ s1 ++ [y]) ++ t2 ++ (z :: t3 ++ o2)) by by rewrite <-!app_assoc.
  rewrite (decode_element_step (p ++ (e1 :: s1)) e2 s2 ((e3 :: s3) ++ post)
    _ t2 _ _ _ _ _ [a; e1; e2; d]).
  2:{ by rewrite Hraw, <-!app_assoc. }
  2:{ rewrite len_app, len_cons. unfold len in *. lia. }
  2:{ done. }
  2:{ rewrite !len_app. unfold len in *. simpl. lia. }
  2,3: done.
  destruct (high_bits e2); [done|]. cbn [bind orb].
  replace ((q ++ s1 ++ [y]) ++ s2 ++ z :: t3 ++ o2)
    with ((q ++ s1 ++ y :: s2 ++ [z]) ++ t3 ++ o2)
    by (repeat (rewrite <-!app_assoc; simpl); done).
  rewrite (decode_element_step (p ++ (e1 :: s1) ++ (e2 :: s2)) e3 s3 post
    _ t3 _ _ _ _ _ [a; e1; e2; e3]).
  2:{ by rewrite Hraw, <-!app_assoc. }
  2:{ rewrite !len_app, !len_cons. unfold len in *. lia. }
  2:{ done. }
  2:{ rewrite !len_app, !len_cons, !len_app. unfold len in *. simpl. lia. }
  2,3: done.
  destruct (high_bits e3); [done|]. cbn [bind].
  do 2 f_equal; [|lia|lia].
  repeat (rewrite <-!app_assoc; simpl). done.
Qed.

(** Writing the three reassembled bytes. *)
Lemma write_reassembled q x' s1 y' s2 z' s3 o2 op x y z :
  op = len q + 96 → length s1 = 31%nat → length s2 = 31%nat →
  (let! out := set_at (q ++ x' :: s1 ++ y' :: s2 ++ z' :: s3 ++ o2) (op - 96) x in
   let! out := set_at out (op - 64) y in
   set_at out (op - 32) z) = Ok (q ++ x :: s1 ++ y :: s2 ++ z :: s3 ++ o2).
Proof.
  intros -> H1 H2. rewrite set_at_middle by lia. cbn [bind].
  replace (q ++ x :: s1 ++ y' :: s2 ++ z' :: s3 ++ o2)
    with ((q ++ x :: s1) ++ y' :: s2 ++ z' :: s3 ++ o2) by by rewrite <-!app_assoc.
  rewrite set_at_middle by (rewrite len_app, len_cons; unfold len in *; lia). cbn [bind].
  replace ((q ++ x :: s1) ++ y :: s2 ++ z' :: s3 ++ o2)
    with ((q ++ x :: s1 ++ y :: s2) ++ z' :: s3 ++ o2)
    by (repeat (rewrite <-!app_assoc; simpl); done).
  rewrite set_at_middle by
    (rewrite !len_app, !len_cons, !len_app, !len_cons; unfold len in *; lia).
  repeat (rewrite <-!app_assoc; simpl). done.
Qed.

(** From the elements of a group to the end of the round. *)
Lemma finish_round q x' s1 y' s2 z' s3 o2 op ip e0 e1 e2 e3 n :
  op = len q + 97 → length s1 = 31%nat → length s2 = 31%nat →
  let '(x, y, z) := reassemble e0 e1 e2 e3 in
  decode_group_end n
    (mkD (q ++ x' :: s1 ++ y' :: s2 ++ z' :: s3 ++ o2) op ip [e0; e1; e2; e3]) =
  Ok (mkD (q ++ x :: s1 ++ y :: s2 ++ z :: s3 ++ o2) (op - 1) ip [e0; e1; e2; e3],
      n <=? op - 1).
Proof.
  intros Hop H1 H2. unfold decode_group_end. cbn [d_out d_op d_ip d_encoded].
  change (at_ [e0; e1; e2; e3] 0) with (Ok e0). change (at_ [e0; e1; e2; e3] 1) with (Ok e1).
  change (at_ [e0; e1; e2; e3] 2) with (Ok e2). change (at_ [e0; e1; e2; e3] 3) with (Ok e3).
  cbn [bind]. destruct (reassemble e0 e1 e2 e3) as [[x y] z].
  pose proof (write_reassembled q x' s1 y' s2 z' s3 o2 (op - 1) x y z) as Hw.
  specialize (Hw ltac:(lia) H1 H2).
  apply bind_Ok_inv in Hw as (o & -> & Hw). cbn [bind].
  apply bind_Ok_inv in Hw as (o' & -> & Hw). cbn [bind].
  by rewrite Hw.
Qed.

End round.

Lemma high_bits_true b : high_bits b = true → ¬ uval b < 64.
Proof. intros H Hlt. apply high_bits_false in Hlt. congruence. Qed.

(** A group with all head bytes below 64 packs the bytes it carries. *)
Lemma group_pack e0 e1 e2 e3 s0 s1 s2 s3 :
  high_bits e0 || (high_bits e1 || high_bits e2 || high_bits e3) = false →
  length s0 = 31%nat → length s1 = 31%nat → length s2 = 31%nat → length s3 = 31%nat →
  let '(x, y, z) := reassemble e0 e1 e2 e3 in
  group e0 e1 e2 e3 s0 s1 s2 s3 = pack (carried x y z s0 s1 s2 s3).
Proof.
  rewrite !orb_false_iff, !high_bits_false. intros (Q0 & (Q1 & Q2) & Q3) H0 H1 H2 H3.
  pose proof (heads_reassemble e0 e1 e2 e3) as Hh.
  destruct (reassemble e0 e1 e2 e3) as [[x y] z].
  rewrite pack_carried, Hh by done. done.
Qed.

(** A packed group has clean heads. *)
Lemma pack_clean e0 e1 e2 e3 s0 s1 s2 s3 :
  good_group (group e0 e1 e2 e3 s0 s1 s2 s3) → length s0 = 31%nat →
  length s1 = 31%nat → length s2 = 31%nat → length s3 = 31%nat →
  high_bits e0 || (high_bits e1 || high_bits e2 || high_bits e3) = false.
Proof.
  intros (c & Hc & Hg) H0 H1 H2 H3.
  apply carried_shape in Hc as (x & y & z & t0 & t1 & t2 & t3 & -> & ? & ? & ? & ?).
  rewrite pack_carried in Hg by done.
  pose proof (reassemble_heads x y z) as Hr.
  destruct (heads x y z) as [[[f0 f1] f2] f3]. destruct Hr as [(?&?&?&?) _].
  unfold group in Hg.
  apply app_inj_1 in Hg as [[= -> ->] Hg]; [|simpl; congruence].
  apply app_inj_1 in Hg as [[= -> ->] Hg]; [|simpl; congruence].
  apply app_inj_1 in Hg as [[= -> ->] Hg]; [|simpl; congruence].
  injection Hg as -> ->. rewrite !orb_false_iff, !high_bits_false. auto.
Qed.

Lemma length_carried x y z s0 s1 s2 s3 :
  length s0 = 31%nat → length s1 = 31%nat → length s2 = 31%nat → length s3 = 31%nat →
  length (carried x y z s0 s1 s2 s3) = 127%nat.
Proof. intros. unfold carried. repeat (rewrite length_app; simpl). lia. Qed.

(** The effect of a round after the first. *)
Lemma decode_round_step raw pre g post o1 w o2 op ip enc n k :
  raw = pre ++ g ++ post → ip = len pre → length g = 128%nat →
  op = len o1 → length w = 127%nat → length enc = 4%nat →
  let r := decode_round raw n (mkD (o1 ++ w ++ o2) op ip enc) (S k) in
  (¬ good_group g ∧ r = invalid "field element") ∨
  ∃ c enc', length c = 127%nat ∧ g = pack c ∧ length enc' = 4%nat ∧
    r = Ok (mkD (o1 ++ c ++ o2) (op + 127) (ip + 128) enc', n <=? op + 127).
Proof.
  intros Hraw Hip Hg Hop Hw Henc r. subst r.
  apply group_shape in Hg as (e0 & e1 & e2 & e3 & s0 & s1 & s2 & s3 & -> & H0 & H1 & H2 & H3).
  apply carried_shape in Hw as (x' & y' & z' & t0 & t1 & t2 & t3 & -> & L0 & L1 & L2 & L3).
  destruct enc as [|a [|b [|c [|d [|]]]]]; try done.
  assert (foldM (decode_element raw)
    (mkD (o1 ++ carried x' y' z' t0 t1 t2 t3 ++ o2) op ip [a; b; c; d]) [0; 1; 2; 3] =
    if high_bits e0 || (high_bits e1 || high_bits e2 || high_bits e3)
    then invalid "field element"
    else Ok (mkD ((o1 ++ s0) ++ x' :: s1 ++ y' :: s2 ++ z' :: s3 ++ o2) (op + 128) (ip + 128)
               [e0; e1; e2; e3])) as Hf.
  { change (foldM (decode_element raw) ?st [0; 1; 2; 3]) with
      (bind (decode_element raw st 0) (λ st', foldM (decode_element raw) st' [1; 2; 3])).
    replace (o1 ++ carried x' y' z' t0 t1 t2 t3 ++ o2)
      with (o1 ++ t0 ++ (x' :: t1 ++ y' :: t2 ++ z' :: t3 ++ o2))
      by (unfold carried; repeat (rewrite <-!app_assoc; simpl); done).
    rewrite (decode_element_step raw pre e0 s0 ((e1 :: s1) ++ (e2 :: s2) ++ (e3 :: s3) ++ post)
      o1 t0 _ op ip _ _ [e0; b; c; d]); [|by rewrite Hraw; unfold group; rewrite <-!app_assoc|done..].
    destruct (high_bits e0); [done|]. cbn [bind orb].
    replace (o1 ++ s0 ++ x' :: t1 ++ y' :: t2 ++ z' :: t3 ++ o2)
      with ((o1 ++ s0 ++ [x']) ++ t1 ++ y' :: t2 ++ z' :: t3 ++ o2)
      by (repeat (rewrite <-!app_assoc; simpl); done).
    rewrite (three_elements raw (pre ++ e0 :: s0) e1 s1 e2 s2 e3 s3 post); try done.
    - destruct (_ || _); [done|]. do 2 f_equal; [|lia|lia].
      repeat (rewrite <-!app_assoc; simpl). done.
    - rewrite Hraw. unfold group. by rewrite <-!app_assoc.
    - rewrite len_app, len_cons. unfold len in *. lia.
    - rewrite !len_app. unfold len in *. simpl. lia. }
  unfold decode_round. cbn [Nat.eqb]. rewrite Hf.
  destruct (high_bits e0 || _) eqn:Hclean.
  - left. split; [|done]. intros Hgood. by rewrite (pack_clean _ _ _ _ _ _ _ _ Hgood) in Hclean.
  - right. cbn [bind].
    pose proof (finish_round (o1 ++ s0) x' s1 y' s2 z' s3 o2 (op + 128) (ip + 128)
      e0 e1 e2 e3 n) as Hfin.
    pose proof (group_pack e0 e1 e2 e3 s0 s1 s2 s3 Hclean H0 H1 H2 H3) as Hp.
    destruct (reassemble e0 e1 e2 e3) as [[x y] z].
    exists (carried x y z s0 s1 s2 s3), [e0; e1; e2; e3].
    split_and!; [by apply length_carried | done | done |].
    rewrite Hfin; [|rewrite len_app; unfold len in *; lia|done..].
    replace (op + 128 - 1) with (op + 127) by lia. do 3 f_equal.
    unfold carried. repeat (rewrite <-!app_assoc; simpl). done.
Qed.

(** The first round: the body of the first element is already copied, and its
    first four bytes are the header. *)
Lemma decode_round_first raw b0 hdr h s1 s2 s3 e1 e2 e3 post w o2 n :
  raw = group b0 e1 e2 e3 (hdr ++ h) s1 s2 s3 ++ post →
  high_bits b0 = false → length hdr = 4%nat → length h = 27%nat →
  length s1 = 31%nat → length s2 = 31%nat → length s3 = 31%nat → length w = 96%nat →
  let g := group b0 e1 e2 e3 (hdr ++ h) s1 s2 s3 in
  let r := decode_round raw n (mkD (h ++ w ++ o2) 28 32 [b0; wrap 8 0; wrap 8 0; wrap 8 0]) 0 in
  (¬ good_group g ∧ r = invalid "field element") ∨
  ∃ rest enc', length (hdr ++ rest) = 127%nat ∧ g = pack (hdr ++ rest) ∧
    length enc' = 4%nat ∧ r = Ok (mkD (rest ++ o2) 123 128 enc', n <=? 123).
Proof.
  intros Hraw Hb0 Hhdr Hh H1 H2 H3 Hw g r. subst g r.
  assert (length (hdr ++ h) = 31%nat) as H0 by (rewrite length_app; lia).
  destruct w as [|x' w]; [done|].
  destruct (split_head 31 w) as (t1 & y' & w1 & -> & L1 & Hw1); [simpl in Hw; lia|].
  simpl in Hw. rewrite length_app in *. simpl in *.
  destruct (split_head 31 w1) as (t2 & z' & t3 & -> & L2 & Hw2); [lia|].
  rewrite length_app in *. simpl in *.
  assert (length t3 = 31%nat) as L3 by lia.
  unfold decode_round. cbn [Nat.eqb].
  replace (h ++ x' :: (t1 ++ y' :: t2 ++ z' :: t3) ++ o2)
    with ((h ++ [x']) ++ t1 ++ y' :: t2 ++ z' :: t3 ++ o2)
    by (repeat (rewrite <-!app_assoc; simpl); done).
  rewrite (three_elements raw (b0 :: hdr ++ h) e1 s1 e2 s2 e3 s3 post); try done.
  2:{ rewrite Hraw. unfold group. repeat (rewrite <-?app_assoc; simpl). done. }
  2:{ rewrite len_cons. unfold len. rewrite length_app. lia. }
  2:{ rewrite len_app. unfold len. rewrite Hh. done. }
  destruct (high_bits e1 || _ || _) eqn:Hclean.
  - left. split; [|done]. intros Hgood.
    apply pack_clean in Hgood; [|rewrite ?length_app; lia..].
    rewrite Hb0, orb_false_l, Hclean in Hgood. done.
  - right. cbn [bind].
    replace ((h ++ [x']) ++ s1 ++ y' :: s2 ++ z' :: s3 ++ o2)
      with (h ++ x' :: s1 ++ y' :: s2 ++ z' :: s3 ++ o2) by by rewrite <-!app_assoc.
    pose proof (finish_round h x' s1 y' s2 z' s3 o2 (28 + 96) (32 + 96) b0 e1 e2 e3 n) as Hfin.
    pose proof (group_pack b0 e1 e2 e3 (hdr ++ h) s1 s2 s3) as Hp.
    rewrite Hb0, orb_false_l in Hp.
    specialize (Hp Hclean ltac:(rewrite length_app; lia) H1 H2 H3).
    destruct (reassemble b0 e1 e2 e3) as [[x y] z].
    exists (h ++ x :: s1 ++ y :: s2 ++ z :: s3), [b0; e1; e2; e3].
    assert (hdr ++ h ++ x :: s1 ++ y :: s2 ++ z :: s3 = carried x y z (hdr ++ h) s1 s2 s3) as ->.
    { unfold carried. by rewrite <-app_assoc. }
    split_and!; [apply length_carried; rewrite ?length_app; lia | done | done |].
    rewrite Hfin; [|unfold len; rewrite Hh; done|done..].
    do 3 f_equal. repeat (rewrite <-!app_assoc; simpl). done.
Qed.

(** ** The loop *)

Lemma decode_rounds_spec raw n m : ∀ k pre gs o1 o2 op ip enc,
  raw = pre ++ concat gs → ip = len pre → length gs = m →
  Forall (λ g, length g = 128%nat) gs →
  op = len o1 → length o2 = (127 * m)%nat → length enc = 4%nat →
  let r := decode_rounds raw n (mkD (o1 ++ o2) op ip enc) (seq (S k) m) in
  (Exists (λ g, ¬ good_group g) gs ∧ r = invalid "field element") ∨
  ∃ cs gs2 enc', gs = (pack <$> cs) ++ gs2 ∧ Forall (λ c, length c = 127%nat) cs ∧
    (gs2 = [] ∨ n <= op + 127 * len cs) ∧
    r = Ok (mkD (o1 ++ concat cs ++ drop (127 * length cs) o2)
              (op + 127 * len cs) (ip + 128 * len cs) enc').
Proof.
  induction m as [|m IH]; intros k pre gs o1 o2 op ip enc Hraw Hip Hm Hgs Hop Ho2 Henc r; subst r.
  { right. destruct gs; [|done]. exists [], [], enc.
    split_and!; [done | constructor | by left |]. simpl.
    by rewrite !Z.add_0_r, drop_0. }
  destruct gs as [|g gs]; [done|]. injection Hm as Hm.
  apply Forall_cons in Hgs as [Hg Hgs].
  destruct (split_at 127 o2) as (w & o2' & -> & Hw & Ho2'); [lia|].
  rewrite length_app in *. cbn [seq decode_rounds].
  destruct (decode_round_step raw pre g (concat gs) o1 w o2' op ip enc n k)
    as [[Hbad ->]|(c & enc1 & Hc & Hgc & He1 & ->)]; try done.
  { left. split; [by left | done]. }
  cbn [bind]. destruct (Z.leb_spec n (op + 127)) as [Hstop|Hgo].
  - right. exists [c], gs, enc1. rewrite Hgc.
    split_and!; [done | by constructor | right; unfold len; simpl; lia |].
    unfold len. simpl. rewrite app_nil_r, drop_app_length' by lia. do 2 f_equal; lia.
  - replace (o1 ++ c ++ o2') with ((o1 ++ c) ++ o2') by by rewrite app_assoc.
    destruct (IH (S k) (pre ++ g) gs (o1 ++ c) o2' (op + 127) (ip + 128) enc1)
      as [[Hbad ->]|(cs & gs2 & enc2 & -> & Hcs & Hend & ->)]; try done.
    + by rewrite Hraw, <-app_assoc.
    + rewrite len_app. unfold len in *. lia.
    + rewrite len_app. unfold len in *. lia.
    + lia.
    + left. split; [by right | done].
    + right. exists (c :: cs), gs2, enc2. rewrite len_cons, Hgc.
      split_and!; [done | by constructor | destruct Hend; [by left | right; lia] |].
      do 2 f_equal; [|lia|lia].
      rewrite drop_app_ge by (cbn [length]; lia). cbn [concat length].
      rewrite <-!app_assoc. do 4 f_equal. lia.
Qed.

(** ** Chunks and padding *)

Lemma chunks_concat n (cs : list bytes) :
  Forall (λ c, length c = n) cs → chunks (length cs) n (concat cs) = cs.
Proof.
  induction 1 as [|c cs Hc _ IH]; [done|]. simpl.
  by rewrite take_app_length', drop_app_length', IH.
Qed.

Lemma concat_chunks k n (l : bytes) :
  length l = (k * n)%nat →
  concat (chunks k n l) = l ∧ length (chunks k n l) = k ∧
  Forall (λ c, length c = n) (chunks k n l).
Proof.
  revert l. induction k as [|k IH]; intros l Hl; simpl in *.
  - split_and!; [by destruct l | done | constructor].
  - destruct (IH (drop n l)) as (H1 & H2 & H3); [rewrite length_drop; lia|].
    rewrite H1, H2, take_drop. split_and!; [done | done |].
    constructor; [rewrite length_take; lia | done].
Qed.

Lemma zeros_app a b : zeros (a + b) = zeros a ++ zeros b.
Proof. apply replicate_add. Qed.

Lemma length_zeros n : length (zeros n) = n.
Proof. apply length_replicate. Qed.

Lemma forallb_zeros l : forallb is_zero l = true ↔ l = zeros (length l).
Proof.
  induction l as [|b l IH]; [done|]. simpl. rewrite andb_true_iff, IH.
  unfold is_zero. rewrite Z.eqb_eq. unfold zeros. simpl. split.
  - intros [Hb Hl]. f_equal; [by apply uint_eq | done].
  - intros [= -> Hl]. done.
Qed.

Lemma zeros_prefix a b n : a ++ b = zeros n → a = zeros (length a) ∧ b = zeros (length b).
Proof.
  intros Hab. rewrite <-!forallb_zeros, <-andb_true_iff, <-forallb_app, Hab.
  apply forallb_zeros. by rewrite length_zeros.
Qed.

Lemma pack_zeros : pack (zeros 127) = zeros 128.
Proof. vm_compute. reflexivity. Qed.

Lemma concat_zero_chunks (cs : list bytes) :
  Forall (λ c, length c = 127%nat) cs → concat cs = zeros (127 * length cs) →
  concat (pack <$> cs) = zeros (128 * length cs).
Proof.
  induction 1 as [|c cs Hc Hcs IH]; [done|]. intros Hz. simpl in Hz.
  pose proof Hz as Hz'. apply zeros_prefix in Hz as [Hc0 Hcs0].
  cbn [fmap list_fmap concat length]. rewrite IH.
  - rewrite Hc0, Hc, pack_zeros, <-zeros_app. f_equal. lia.
  - rewrite Hcs0. f_equal. apply (f_equal length) in Hz'.
    rewrite length_app, length_zeros in Hz'. lia.
Qed.

Lemma concat_zero_packed m :
  concat (pack <$> replicate m (zeros 127)) = zeros (128 * m).
Proof.
  rewrite concat_zero_chunks, length_replicate; [done | |].
  - apply Forall_replicate. apply length_zeros.
  - rewrite length_replicate. induction m as [|m IH]; [done|].
    rewrite replicate_S. cbn [concat]. rewrite IH, <-zeros_app. f_equal. lia.
Qed.

Lemma pack_inj c1 c2 :
  length c1 = 127%nat → length c2 = 127%nat → pack c1 = pack c2 → c1 = c2.
Proof.
  intros (x & y & z & s0 & s1 & s2 & s3 & -> & ? & ? & ? & ?)%carried_shape
    (x' & y' & z' & t0 & t1 & t2 & t3 & -> & ? & ? & ? & ?)%carried_shape.
  rewrite !pack_carried by done.
  pose proof (reassemble_heads x y z) as Hr. pose proof (reassemble_heads x' y' z') as Hr'.
  destruct (heads x y z) as [[[f0 f1] f2] f3], (heads x' y' z') as [[[f0' f1'] f2'] f3'].
  destruct Hr as [_ Hr], Hr' as [_ Hr']. intros Hg. unfold group in Hg.
  apply app_inj_1 in Hg as [[= -> ->] Hg]; [|simpl; congruence].
  apply app_inj_1 in Hg as [[= -> ->] Hg]; [|simpl; congruence].
  apply app_inj_1 in Hg as [[= -> ->] Hg]; [|simpl; congruence].
  injection Hg as -> ->. rewrite Hr in Hr'. by injection Hr' as -> -> ->.
Qed.

Lemma fmap_pack_prefix cs1 cs : ∀ gs2,
  Forall (λ c, length c = 127%nat) cs1 → Forall (λ c, length c = 127%nat) cs →
  pack <$> cs = (pack <$> cs1) ++ gs2 →
  ∃ cs2, cs = cs1 ++ cs2 ∧ gs2 = pack <$> cs2.
Proof.
  revert cs. induction cs1 as [|c1 cs1 IH]; intros cs gs2 H1 H2 Heq; [by exists cs|].
  destruct cs as [|c cs]; [done|]. apply cons_eq_inj in Heq as [Hc Heq].
  apply Forall_cons in H1 as [H1 H1'], H2 as [H2 H2'].
  apply pack_inj in Hc as ->; [|done..].
  destruct (IH cs gs2) as (cs2 & -> & ->); [done..|]. by exists cs2.
Qed.

(** ** The whole decoder *)

#[local] Arguments pack : simpl never.
#[local] Arguments group : simpl never.


Lemma lor_shiftl_add a b n : 0 <= n → 0 <= b < 2 ^ n → Z.lor (Z.shiftl a n) b = a * 2 ^ n + b.
Proof.
  intros Hn Hb.
  assert (Z.land (Z.shiftl a n) b = 0) as H0.
  { apply Z.bits_inj'. intros i Hi. rewrite Z.land_spec, Z.bits_0.
    destruct (Z.lt_ge_cases i n).
    - by rewrite Z.shiftl_spec_low.
    - rewrite <-(Z.mod_small b (2 ^ n)), Z.mod_pow2_bits_high by lia. apply andb_false_r. }
  rewrite <-Z.lxor_lor, <-Z.add_nocarry_lxor by done.
  by rewrite Z.shiftl_mul_pow2.
Qed.

Lemma length_field a b c :
  Z.lor (Z.lor (Z.shiftl (uval a) 16) (Z.shiftl (uval b) 8)) (uval c) = be_value [a; b; c].
Proof.
  pose proof (byte_range a). pose proof (byte_range b). pose proof (byte_range c).
  assert (Z.shiftl (uval a) 16 = Z.shiftl (Z.shiftl (uval a) 8) 8) as ->.
  { by rewrite Z.shiftl_shiftl. }
  rewrite <-Z.shiftl_lor, (lor_shiftl_add (uval a)), lor_shiftl_add by lia.
  unfold be_value. cbn [fold_left]. lia.
Qed.

(** What decoding [raw] established when it got through all the groups. *)
Record decoded_groups (hdr g0 : bytes) (gs : list bytes) (n : Z)
    (rest : bytes) (cs gs2 : list bytes) : Prop := {
  dg_first : length (hdr ++ rest) = 127%nat;
  dg_chunks : Forall (λ c, length c = 127%nat) cs;
  dg_split : g0 :: gs = (pack <$> (hdr ++ rest) :: cs) ++ gs2;
  dg_enough : gs2 = [] ∨ n <= 123 + 127 * len cs;
}.

(** [out] after the loop. *)
Definition loop_out (rest : bytes) (cs gs2 : list bytes) : bytes :=
  rest ++ concat cs ++ zeros (127 * length gs2).

Lemma decode_loop b0 hdr h e1 s1 e2 s2 e3 s3 gs n :
  length hdr = 4%nat → length h = 27%nat →
  length s1 = 31%nat → length s2 = 31%nat → length s3 = 31%nat →
  length gs = 1023%nat → Forall (λ g, length g = 128%nat) gs → high_bits b0 = false →
  let g0 := group b0 e1 e2 e3 (hdr ++ h) s1 s2 s3 in
  let raw := g0 ++ concat gs in
  let r := decode_rounds raw n
    (mkD (h ++ zeros (Z.to_nat 130017)) 28 32 [b0; wrap 8 0; wrap 8 0; wrap 8 0]) (seq 0 1024) in
  (Exists (λ g, ¬ good_group g) (g0 :: gs) ∧ r = invalid "field element") ∨
  ∃ rest cs gs2 enc, decoded_groups hdr g0 gs n rest cs gs2 ∧
    r = Ok (mkD (loop_out rest cs gs2) (123 + 127 * len cs) (128 + 128 * len cs) enc).
Proof.
  intros Hhdr Hh H1 H2 H3 Hgs Hall Hb0 g0 raw r. subst r.
  change (seq 0 1024) with (0%nat :: seq 1 1023). cbn [decode_rounds].
  replace (zeros (Z.to_nat 130017)) with (zeros 96 ++ zeros (127 * 1023))
    by (rewrite <-zeros_app; f_equal; lia).
  destruct (decode_round_first raw b0 hdr h s1 s2 s3 e1 e2 e3 (concat gs) (zeros 96)
    (zeros (127 * 1023)) n) as [[Hbad ->]|(rest & enc & Hc & Hg & He & ->)]; try done.
  { left. split; [by left | done]. }
  cbn [bind]. destruct (Z.leb_spec n 123) as [Hstop|Hgo].
  - right. exists rest, [], gs, enc. split.
    + split; [done | apply List.Forall_nil | by cbn; rewrite <-Hg | right; unfold len; simpl; lia].
    + unfold loop_out. by rewrite Hgs.
  - destruct (decode_rounds_spec raw n 1023 0 g0 gs rest (zeros (127 * 1023)) 123 128 enc)
      as [[Hbad ->]|(cs & gs2 & enc2 & Hsplit & Hcs & Hend & ->)]; try done.
    + unfold len, g0. rewrite length_group; rewrite ?length_app; lia.
    + rewrite length_app in Hc. unfold len. lia.
    + left. split; [by right | done].
    + right. exists rest, cs, gs2, enc2. split; [split; try done|].
      * cbn. by rewrite <-Hg, Hsplit.
      * do 2 f_equal. unfold loop_out. do 2 f_equal.
        apply (f_equal length) in Hsplit. rewrite Hgs, length_app, length_fmap in Hsplit.
        unfold zeros. rewrite drop_replicate. f_equal. lia.
Qed.

(** The outcome of [DecodeBlob] on 131072 bytes cut into groups. *)
Lemma DecodeBlob_cases b0 v l2 l3 l4 h e1 s1 e2 s2 e3 s3 gs :
  length h = 27%nat → length s1 = 31%nat → length s2 = 31%nat → length s3 = 31%nat →
  length gs = 1023%nat → Forall (λ g, length g = 128%nat) gs →
  let hdr := [v; l2; l3; l4] in
  let g0 := group b0 e1 e2 e3 (hdr ++ h) s1 s2 s3 in
  let raw := g0 ++ concat gs in
  let n := be_value [l2; l3; l4] in
  (fails_with (DecodeBlob raw) ErrInvalid ∧
    (v ≠ wrap 8 0 ∨ 130044 < n ∨ Exists (λ g, ¬ good_group g) (g0 :: gs))) ∨
  ∃ rest cs gs2, v = wrap 8 0 ∧ n <= 130044 ∧ decoded_groups hdr g0 gs n rest cs gs2 ∧
    let out := loop_out rest cs gs2 in
    let tail := drop (Z.to_nat n) out in
    if forallb is_zero tail && forallb is_zero (concat gs2)
    then DecodeBlob raw = Ok (take (Z.to_nat n) out)
    else fails_with (DecodeBlob raw) ErrInvalid.
Proof.
  intros Hh H1 H2 H3 Hgs Hall hdr g0 raw n.
  assert (length g0 = 128%nat) as Hg0.
  { unfold g0. apply length_group; rewrite ?length_app; simpl; lia. }
  assert (len raw = 131072) as Hlen.
  { unfold raw. rewrite len_app. unfold len. rewrite Hg0.
    enough (length (concat gs) = (128 * length gs)%nat) by lia.
    clear -Hall. induction Hall as [|g gs Hg _ IH]; [done|].
    cbn [concat length]. rewrite length_app. lia. }
  unfold DecodeBlob. rewrite Hlen. cbn [Z.eqb Pos.eqb negb].
  pose proof (at_middle [b0] v (l2 :: l3 :: l4 :: h ++ (e1 :: s1) ++ (e2 :: s2) ++ (e3 :: s3)
    ++ concat gs) 1 eq_refl) as A1.
  pose proof (at_middle [b0; v] l2 (l3 :: l4 :: h ++ (e1 :: s1) ++ (e2 :: s2) ++ (e3 :: s3)
    ++ concat gs) 2 eq_refl) as A2.
  pose proof (at_middle [b0; v; l2] l3 (l4 :: h ++ (e1 :: s1) ++ (e2 :: s2) ++ (e3 :: s3)
    ++ concat gs) 3 eq_refl) as A3.
  pose proof (at_middle [b0; v; l2; l3] l4 (h ++ (e1 :: s1) ++ (e2 :: s2) ++ (e3 :: s3)
    ++ concat gs) 4 eq_refl) as A4.
  pose proof (at_middle [] b0 (v :: l2 :: l3 :: l4 :: h ++ (e1 :: s1) ++ (e2 :: s2) ++ (e3 :: s3)
    ++ concat gs) 0 eq_refl) as A0.
  pose proof (slice_middle [b0; v; l2; l3; l4] h ((e1 :: s1) ++ (e2 :: s2) ++ (e3 :: s3)
    ++ concat gs) 5 32 eq_refl) as As.
  assert (b0 :: v :: l2 :: l3 :: l4 :: h ++ (e1 :: s1) ++ (e2 :: s2) ++ (e3 :: s3)
    ++ concat gs = raw) as Eraw.
  { unfold raw, g0, group, hdr. repeat (rewrite <-?app_assoc; simpl). done. }
  cbn [app] in A0, A1, A2, A3, A4, As. cbn [app] in Eraw.
  rewrite Eraw in A0, A1, A2, A3, A4, As.
  specialize (As ltac:(unfold len; rewrite Hh; done)).
  rewrite A1. cbn [bind]. destruct (is_zero v) eqn:Hv; cbn [negb].
  2:{ left. split; [by eexists|]. left. intros ->. done. }
  apply Z.eqb_eq in Hv.
  rewrite A2, A3, A4. cbn [bind]. rewrite length_field. fold n.
  destruct (Z.ltb_spec 130044 n) as [Hbig|Hn].
  { left. split; [by eexists | by right; left]. }
  rewrite As, bind_Ok.
  replace (zeros (Z.to_nat 130044)) with ([] ++ zeros 27 ++ zeros (Z.to_nat 130017))
    by (rewrite app_nil_l, <-zeros_app; f_equal; lia).
  rewrite copy_at_middle by (done || by rewrite length_zeros). rewrite bind_Ok, !app_nil_l.
  rewrite A0, bind_Ok.
  destruct (high_bits b0) eqn:Hb0.
  { left. split; [by eexists|]. right. right. left. intros Hgood.
    apply pack_clean in Hgood; [|by rewrite ?length_app, ?Hh..]. by rewrite Hb0 in Hgood. }
  destruct (decode_loop b0 hdr h e1 s1 e2 s2 e3 s3 gs n)
    as [[Hbad Hr]|(rest & cs & gs2 & enc & Hdg & Hr)]; try done.
  { left. split; [|by right; right]. fold g0 in Hr. fold raw in Hr. rewrite Hr. by eexists. }
  right. exists rest, cs, gs2. fold g0 in Hr. fold raw in Hr. fold g0 in Hdg.
  split_and!; [by apply uint_eq | lia | done |]. rewrite Hr, bind_Ok. cbn [d_out d_ip].
  destruct Hdg as [D1 D2 D3 D4].
  assert (len (loop_out rest cs gs2) = 130044) as Hout.
  { unfold loop_out, len. rewrite !length_app, length_zeros. rewrite length_app in D1.
    apply (f_equal length) in D3. rewrite length_app, length_fmap in D3. simpl in D1, D3.
    enough (length (concat cs) = (127 * length cs)%nat) by lia.
    clear -D2. induction D2 as [|c cs Hc _ IH]; [done|].
    cbn [concat length]. rewrite length_app. lia. }
  pose proof (be_value_range [l2; l3; l4]) as Hn0. fold n in Hn0.
  unfold slice_from. rewrite (slice_ok (loop_out rest cs gs2) n) by lia. rewrite bind_Ok.
  assert (∀ z, take (Z.to_nat (len (loop_out rest cs gs2) - z))
    (drop (Z.to_nat z) (loop_out rest cs gs2)) = drop (Z.to_nat z) (loop_out rest cs gs2)) as Ht.
  { intros z. apply take_ge. rewrite length_drop. unfold len. lia. }
  rewrite Ht. destruct (forallb is_zero (drop _ _)); cbn [negb andb]; [|by eexists].
  assert (slice raw (128 + 128 * len cs) (len raw) = Ok (concat gs2)) as ->.
  { unfold raw. change (g0 ++ concat gs) with (concat (g0 :: gs)). rewrite D3, concat_app.
    rewrite <-(app_nil_r (concat gs2)) at 1 2.
    assert (len (concat (pack <$> (hdr ++ rest) :: cs)) = 128 + 128 * len cs) as Hp.
    { clear -D1 D2. cbn. unfold len. rewrite length_app, length_pack by done.
      enough (length (concat (pack <$> cs)) = (128 * length cs)%nat) as ->; [lia|].
      induction D2 as [|c cs Hc _ IH]; [done|]. cbn. rewrite length_app, length_pack by done. lia. }
    apply slice_middle; [done | rewrite !len_app; unfold len at 3; simpl; lia]. }
  cbn [bind]. destruct (forallb is_zero (concat gs2)); cbn [negb]; [|by eexists].
  rewrite slice_ok by lia. by rewrite Z.sub_0_r, drop_0.
Qed.

(** Any 131072 bytes are 1024 groups, the first one starting with a header. *)
Lemma raw_shape (raw : bytes) :
  len raw = 131072 →
  ∃ b0 v l2 l3 l4 h e1 s1 e2 s2 e3 s3 gs,
    raw = group b0 e1 e2 e3 ([v; l2; l3; l4] ++ h) s1 s2 s3 ++ concat gs ∧
    length h = 27%nat ∧ length s1 = 31%nat ∧ length s2 = 31%nat ∧ length s3 = 31%nat ∧
    length gs = 1023%nat ∧ Forall (λ g, length g = 128%nat) gs.
Proof.
  intros Hlen. destruct (concat_chunks 1024 128 raw) as (Hc & Hn & Hall);
    [unfold len in Hlen; lia|].
  destruct (chunks 1024 128 raw) as [|g0 gs]; [done|].
  apply Forall_cons in Hall as [Hg0 Hgs].
  apply group_shape in Hg0 as (b0 & e1 & e2 & e3 & s0 & s1 & s2 & s3 & -> & H0 & H1 & H2 & H3).
  destruct s0 as [|v [|l2 [|l3 [|l4 h]]]]; try done.
  exists b0, v, l2, l3, l4, h, e1, s1, e2, s2, e3, s3, gs.
  rewrite <-Hc. injection H0 as H0. injection Hn as Hn. done.
Qed.

Lemma length_blob_stream p :
  len p <= 130044 → length (blob_stream p) = (1024 * 127)%nat.
Proof.
  intros Hp. unfold blob_stream. rewrite !length_app, length_be_bytes, length_zeros.
  cbn [length]. unfold len in Hp. lia.
Qed.

Lemma app_zeros_tail (a b p : bytes) k :
  a ++ b = p ++ zeros k → (length p <= length a)%nat → b = zeros (length b).
Proof.
  intros Hab Hle.
  assert (b = drop (length a) (p ++ zeros k)) as Hb by by rewrite <-Hab, drop_app_length.
  rewrite drop_app_ge in Hb by done. unfold zeros in Hb at 1. rewrite drop_replicate in Hb.
  rewrite Hb. by rewrite length_replicate.
Qed.

Lemma all_good cs :
  Forall (λ c, length c = 127%nat) cs → ¬ Exists (λ g, ¬ good_group g) (pack <$> cs).
Proof.
  intros Hcs Hex. induction Hcs as [|c cs Hc _ IH]; inversion Hex as [? ? Hbad|]; [|auto].
  apply Hbad. by exists c.
Qed.

Lemma length_concat n (l : list bytes) :
  Forall (λ c, length c = n) l → length (concat l) = (n * length l)%nat.
Proof.
  induction 1 as [|c l Hc _ IH]; [cbn; lia|].
  cbn [concat length]. rewrite length_app. lia.
Qed.

Lemma DecodeBlob_encode_blob p : len p <= 130044 → DecodeBlob (encode_blob p) = Ok p.
Proof.
  intros Hp. destruct (concat_chunks 1024 127 (blob_stream p)) as (Hc & Hn & Hall);
    [by apply length_blob_stream|].
  unfold encode_blob. destruct (chunks 1024 127 (blob_stream p)) as [|c0 cs]; [done|].
  apply Forall_cons in Hall as [Hc0 Hcs]. injection Hn as Hn.
  pose proof (length_be_bytes 3 (len p)) as Hb3.
  destruct (be_bytes 3 (len p)) as [|l2 [|l3 [|l4 [|]]]] eqn:Eb; try done.
  assert (be_value [l2; l3; l4] = len p) as Hv.
  { rewrite <-Eb, be_value_be_bytes. apply Z.mod_small. pose proof (len_nonneg p). lia. }
  set (hdr := [wrap 8 0; l2; l3; l4]) in *.
  assert (blob_stream p = hdr ++ p ++ zeros (Z.to_nat 130044 - length p)) as Hstream.
  { unfold blob_stream. by rewrite Eb. }
  (* the first chunk starts with the header *)
  pose proof Hc0 as Hc0'.
  apply carried_shape in Hc0' as (x & y & z & t0 & s1 & s2 & s3 & Ec0 & H0 & H1 & H2 & H3).
  assert (∃ h, t0 = hdr ++ h ∧ length h = 27%nat) as (h & -> & Hh).
  { rewrite Hstream in Hc. cbn [concat] in Hc. rewrite Ec0 in Hc. unfold carried in Hc.
    destruct t0 as [|u0 [|u1 [|u2 [|u3 h]]]]; try done.
    exists h. rewrite <-!app_assoc in Hc. injection Hc as -> -> -> -> _.
    injection H0 as H0. done. }
  cbn [fmap list_fmap concat]. rewrite Ec0, pack_carried by done.
  pose proof (pack_carried x y z (hdr ++ h) s1 s2 s3 H0 H1 H2 H3) as Hpk.
  rewrite <-Ec0 in Hpk. destruct (heads x y z) as [[[b0 e1] e2] e3].
  destruct (DecodeBlob_cases b0 (wrap 8 0) l2 l3 l4 h e1 s1 e2 s2 e3 s3 (pack <$> cs))
    as [[_ [?|[?|Hbad]]]|(rest & cs1 & gs2 & _ & Hle & [D1 D2 D3 D4] & Hif)]; try done.
  { by rewrite length_fmap. }
  { apply Forall_fmap. eapply Forall_impl; [exact Hcs|]. apply length_pack. }
  { lia. }
  { exfalso. fold hdr in Hbad. rewrite <-Hpk in Hbad. revert Hbad.
    apply (all_good (c0 :: cs)). by constructor. }
  fold hdr in D3, D1, Hif. rewrite Hv in *. rewrite <-Hpk in D3.
  apply (fmap_pack_prefix _ (c0 :: cs)) in D3 as (cs2 & Ecs & ->); [|by constructor..].
  assert ((rest ++ concat cs1) ++ concat cs2 =
    p ++ zeros (Z.to_nat 130044 - length p)) as Happ.
  { rewrite Ecs, Hstream, concat_app in Hc. cbn [concat] in Hc.
    rewrite <-!app_assoc in Hc. apply app_inv_head in Hc. by rewrite <-app_assoc. }
  assert (Forall (λ c, length c = 127%nat) cs2) as Hcs2.
  { assert (Forall (λ c, length c = 127%nat) (((hdr ++ rest) :: cs1) ++ cs2)) as Hf
      by (rewrite <-Ecs; by constructor).
    by apply Forall_app in Hf as [_ ?]. }
  assert (concat cs2 = zeros (127 * length cs2)) as Hz.
  { rewrite <-(length_concat 127) by done. destruct D4 as [D4|D4].
    - by destruct cs2.
    - eapply app_zeros_tail; [exact Happ|].
      rewrite length_app, (length_concat 127) by done. rewrite length_app in D1.
      change (length hdr) with 4%nat in D1.
      unfold len in *. lia. }
  assert (loop_out rest cs1 (pack <$> cs2) = p ++ zeros (Z.to_nat 130044 - length p)) as Hout.
  { unfold loop_out. by rewrite length_fmap, <-Hz, app_assoc. }
  rewrite Hout, (concat_zero_chunks cs2) in Hif by done.
  unfold len in Hif. rewrite Nat2Z.id, drop_app_length, take_app_length in Hif.
  rewrite (proj2 (forallb_zeros _)), (proj2 (forallb_zeros _)) in Hif
    by by rewrite length_zeros.
  exact Hif.
Qed.

Lemma DecodeBlob_Ok_len raw p : DecodeBlob raw = Ok p → len raw = 131072.
Proof. unfold DecodeBlob. by destruct (Z.eqb_spec (len raw) 131072). Qed.

Lemma DecodeBlob_Ok_inv raw p :
  DecodeBlob raw = Ok p → len p <= 130044 ∧ raw = encode_blob p.
Proof.
  intros Hd. pose proof (DecodeBlob_Ok_len raw p Hd) as Hlen.
  apply raw_shape in Hlen as (b0 & v & l2 & l3 & l4 & h & e1 & s1 & e2 & s2 & e3 & s3 & gs
    & -> & Hh & H1 & H2 & H3 & Hgs & Hall).
  destruct (DecodeBlob_cases b0 v l2 l3 l4 h e1 s1 e2 s2 e3 s3 gs)
    as [[[e [He _]] _]|(rest & cs & gs2 & -> & Hn & [D1 D2 D3 D4] & Hif)]; try done.
  { by rewrite He in Hd. }
  cbn zeta in Hif. set (hdr := [wrap 8 0; l2; l3; l4]) in *.
  set (n := be_value [l2; l3; l4]) in *.
  destruct (forallb is_zero (drop _ _)) eqn:Htail; cbn [andb] in Hif;
    [|destruct Hif as (e & He & _); by rewrite He in Hd].
  destruct (forallb is_zero (concat gs2)) eqn:Hrest;
    [|destruct Hif as (e & He & _); by rewrite He in Hd].
  rewrite Hif in Hd. injection Hd as <-.
  apply forallb_zeros in Htail, Hrest.
  set (out := loop_out rest cs gs2) in *.
  pose proof (be_value_range [l2; l3; l4]) as Hn0. fold n in Hn0.
  assert (Forall (λ g, length g = 128%nat) gs2) as Hgs2.
  { assert (Forall (λ g, length g = 128%nat)
      ((pack <$> (hdr ++ rest) :: cs) ++ gs2)) as Hf.
    { rewrite <-D3. constructor; [|done].
      apply length_group; rewrite ?length_app, ?Hh; done. }
    by apply Forall_app in Hf as [_ ?]. }
  assert (length out = Z.to_nat 130044) as Hout.
  { apply (f_equal length) in D3. rewrite length_app, length_fmap in D3.
    cbn [length] in D3. rewrite Hgs in D3. rewrite length_app in D1. change (length hdr) with 4%nat in D1.
    unfold out, loop_out.
    rewrite !length_app, length_zeros, (length_concat 127) by done. lia. }
  assert (len (take (Z.to_nat n) out) = n) as Hlen.
  { unfold len. rewrite length_take. lia. }
  split; [lia|]. unfold encode_blob.
  assert (blob_stream (take (Z.to_nat n) out) =
    concat (((hdr ++ rest) :: cs) ++ replicate (length gs2) (zeros 127))) as Hs.
  { unfold blob_stream. rewrite Hlen. unfold n at 1. rewrite (be_bytes_value [l2; l3; l4] 3) by done.
    rewrite concat_app. cbn [concat]. rewrite <-!app_assoc.
    assert (concat (replicate (length gs2) (zeros 127)) = zeros (127 * length gs2)) as ->.
    { generalize (length gs2) as m. intros m. induction m as [|m IH]; [done|].
      cbn [replicate concat]. rewrite IH, <-zeros_app. f_equal. lia. }
    change (rest ++ concat cs ++ zeros (127 * length gs2)) with out.
    assert (take (Z.to_nat n) out ++ zeros (Z.to_nat 130044 - length (take (Z.to_nat n) out))
      = out) as ->; [|done].
    rewrite <-(take_drop (Z.to_nat n) out) at 3. f_equal. rewrite Htail. f_equal.
    rewrite length_take, length_drop, Hout. lia. }
  rewrite Hs.
  assert (1024%nat = length (((hdr ++ rest) :: cs) ++ replicate (length gs2) (zeros 127))) as ->.
  { rewrite length_app, length_replicate. apply (f_equal length) in D3.
    rewrite length_app, length_fmap in D3. rewrite <-D3. cbn [length]. by rewrite Hgs. }
  rewrite chunks_concat.
  2:{ apply Forall_app. split; [by constructor|]. apply Forall_replicate, length_zeros. }
  change (group ?a ?b ?c ?d ?e ?f ?g ?h ++ concat gs) with (concat (group a b c d e f g h :: gs)).
  rewrite D3, fmap_app, !concat_app, concat_zero_packed. f_equal.
  rewrite Hrest. f_equal. by apply length_concat.
Qed.

Lemma DecodeBlob_total raw :
  fails_with (DecodeBlob raw) ErrInvalid ∨ ∃ p, DecodeBlob raw = Ok p.
Proof.
  destruct (Z.eqb_spec (len raw) 131072) as [Hlen|Hlen].
  - apply raw_shape in Hlen as (b0 & v & l2 & l3 & l4 & h & e1 & s1 & e2 & s2 & e3 & s3 & gs
      & -> & Hh & H1 & H2 & H3 & Hgs & Hall).
    destruct (DecodeBlob_cases b0 v l2 l3 l4 h e1 s1 e2 s2 e3 s3 gs)
      as [[? _]|(rest & cs & gs2 & _ & _ & _ & Hif)]; try done; [by left|].
    cbn zeta in Hif. destruct (_ && _); [right; eauto | by left].
  - left. unfold DecodeBlob. apply Z.eqb_neq in Hlen. rewrite Hlen. by eexists.
Qed.

(** ** Properties *)

(** [C18] [DecodeBlob] decides, for every byte string, whether it is the
    encoding of a payload: it returns the payload exactly for the blobs
    [encode_blob] produces, rejects everything else with ErrInvalid, and never
    indexes out of range.  In particular decoding inverts encoding, no two
    blobs decode to the same payload, and every unused bit is checked. *)
Theorem DecodeBlob_exact raw :
  (∃ p, len p <= 130044 ∧ raw = encode_blob p ∧ DecodeBlob raw = Ok p) ∨
  ((∀ p, len p <= 130044 → raw ≠ encode_blob p) ∧ fails_with (DecodeBlob raw) ErrInvalid).
Proof.
  destruct (DecodeBlob_total raw) as [Hf|[p Hd]].
  - right. split; [|done]. intros p Hp ->. destruct Hf as (e & He & _).
    by rewrite DecodeBlob_encode_blob in He.
  - left. exists p. destruct (DecodeBlob_Ok_inv raw p Hd). done.
Qed.
