(* ===== verification/Frames.v ===== *)
(** * Frame parsing (internal/blob/frames.go, ParseFrames)

    A blob payload is a version byte 0 followed by frames: a 16-byte channel
    ID, a 2-byte number, a 4-byte length, the data and a flag byte.  The loop
    consumes at least 23 bytes per frame, so as many rounds as there are bytes
    are enough; [ParseFrames] never runs out of them. *)
From S2P Require Import Prelude Word Json Geth StoreTypes BlobCodec.

(** The body of the loop: one frame and the rest of the data. *)
Definition parse_frame (data : bytes) : result (Frame * bytes) :=
  if len data <? 23 then invalid "truncated frame" else
  let! id := slice data 0 16 in
  let! number := slice data 16 18 in
  let! size := slice data 18 22 in
  let n := be_value size in
  if (1000000 <? n) || (len data <? n + 23) then invalid "frame length" else
  let! flag := at_ data (22 + n) in
  if 1 <? uval flag then invalid "frame end flag" else
  let! payload := slice data 22 (22 + n) in
  let! rest := slice_from data (23 + n) in
  Ok (mkFrame (wrap 128 (be_value id)) (wrap 16 (be_value number))
        (uval flag =? 1) payload, rest).

Fixpoint parse_frames (fuel : nat) (data : bytes) : result (list Frame) :=
  match data with
  | [] => Ok []
  | _ =>
      match fuel with
      | O => Panic
      | S fuel =>
          let! ' (f, rest) := parse_frame data in
          let! fs := parse_frames fuel rest in
          Ok (f :: fs)
      end
  end.

Definition ParseFrames (data : bytes) : result (list Frame) :=
  match data with
  | [] => invalid "derivation version"
  | version :: data =>
      if negb (is_zero version) then invalid "derivation version" else
      let! out := parse_frames (length data) data in
      if bool_decide (out = []) then invalid "no frames" else Ok out
  end.

(** ** The reference encoder *)

Definition flag_byte (b : bool) : byte := wrap 8 (if b then 1 else 0).

Definition encode_frame (f : Frame) : bytes :=
  be_bytes 16 (uval (fID f)) ++ be_bytes 2 (uval (fNumber f)) ++
  be_bytes 4 (len (fData f)) ++ fData f ++ [flag_byte (fLast f)].

Definition encode_frames (fs : list Frame) : bytes :=
  wrap 8 0 :: concat (encode_frame <$> fs).

Definition frame_ok (f : Frame) : Prop := len (fData f) <= 1000000.

(** ** One frame *)

Lemma uval_flag b : uval (flag_byte b) = if b then 1 else 0.
Proof. by destruct b. Qed.

Lemma be_word w n (x : uint w) :
  modulus w = 256 ^ Z.of_nat n → wrap w (be_value (be_bytes n (uval x))) = x.
Proof.
  intros Hw. rewrite be_value_be_bytes, <-Hw, (Z.mod_small _ _ (uint_range x)).
  apply wrap_uval.
Qed.

Lemma parse_frame_encode f rest :
  frame_ok f → parse_frame (encode_frame f ++ rest) = Ok (f, rest).
Proof.
  intros Hf. destruct f as [id num last data]. unfold frame_ok in Hf.
  unfold encode_frame. cbn [fID fNumber fLast fData] in *.
  pose proof (len_nonneg data) as Hn0. pose proof (len_nonneg rest) as Hr0.
  set (I := be_bytes 16 (uval id)). set (N := be_bytes 2 (uval num)).
  set (L := be_bytes 4 (len data)).
  assert (len I = 16) as HI by (unfold len, I; by rewrite length_be_bytes).
  assert (len N = 2) as HN by (unfold len, N; by rewrite length_be_bytes).
  assert (len L = 4) as HL by (unfold len, L; by rewrite length_be_bytes).
  assert (be_value L = len data) as HLv.
  { unfold L. rewrite be_value_be_bytes. apply Z.mod_small. lia. }
  rewrite <-!app_assoc. unfold parse_frame.
  set (whole := I ++ N ++ L ++ data ++ [flag_byte last] ++ rest).
  assert (len whole = 23 + len data + len rest) as Hw.
  { unfold whole. rewrite !len_app, HI, HN, HL, len_cons.
    change (len (@nil byte)) with 0. lia. }
  rewrite Hw. destruct (Z.ltb_spec (23 + len data + len rest) 23); [lia|].
  assert (slice whole 0 16 = Ok I) as ->.
  { apply (slice_middle [] I); [done|]. by rewrite HI. }
  assert (slice whole 16 18 = Ok N) as ->.
  { apply (slice_middle I N); [done|]. by rewrite HI, HN. }
  assert (slice whole 18 22 = Ok L) as ->.
  { unfold whole. rewrite app_assoc. apply (slice_middle (I ++ N) L);
      rewrite len_app, HI, HN; [done | by rewrite HL]. }
  rewrite !bind_Ok, HLv.
  destruct (Z.ltb_spec 1000000 (len data)); [lia|].
  destruct (Z.ltb_spec (23 + len data + len rest) (len data + 23)); [lia|]. cbn [orb].
  assert (whole = (I ++ N ++ L ++ data) ++ flag_byte last :: rest) as Hwhole.
  { unfold whole. by rewrite <-!app_assoc. }
  assert (len (I ++ N ++ L ++ data) = 22 + len data) as Hpre.
  { rewrite !len_app. lia. }
  rewrite Hwhole at 1. rewrite at_middle by done. rewrite bind_Ok, uval_flag.
  assert (slice whole 22 (22 + len data) = Ok data) as ->.
  { unfold whole. rewrite !app_assoc, <-(app_assoc _ _ rest), <-(app_assoc _ data).
    apply slice_middle; rewrite !len_app; lia. }
  assert (slice_from whole (23 + len data) = Ok rest) as ->.
  { unfold slice_from. rewrite Hw, Hwhole, cons_middle, app_assoc.
    rewrite <-(app_nil_r rest) at 1. apply slice_middle;
      rewrite len_app, Hpre, len_cons; change (len (@nil byte)) with 0; lia. }
  rewrite !bind_Ok. unfold I, N.
  rewrite (be_word 128 16), (be_word 16 2) by done. by destruct last.
Qed.

(** Whatever [parse_frame] accepts is an encoded frame; otherwise it fails
    with ErrInvalid. *)
Lemma parse_frame_inv data :
  fails_with (parse_frame data) ErrInvalid ∨
  ∃ f rest, parse_frame data = Ok (f, rest) ∧ frame_ok f ∧ data = encode_frame f ++ rest.
Proof.
  destruct (Z.ltb_spec (len data) 23) as [Hs|Hlen].
  { left. unfold parse_frame. apply Z.ltb_lt in Hs. rewrite Hs. by eexists. }
  destruct (split_at 16 data) as (I & d1 & Ed & HI & H1); [unfold len in Hlen; lia|].
  destruct (split_at 2 d1) as (N & d2 & Ed1 & HN & H2); [unfold len in Hlen; lia|].
  destruct (split_at 4 d2) as (L & d3 & Ed2 & HL & H3); [unfold len in Hlen; lia|].
  pose proof (be_value_range L) as HLr. rewrite HL in HLr.
  set (n := be_value L) in *.
  destruct ((1000000 <? n) || (len data <? n + 23)) eqn:Hguard.
  - left. unfold parse_frame. destruct (Z.ltb_spec (len data) 23); [lia|].
    assert (slice data 0 16 = Ok I) as ->.
    { rewrite Ed. apply (slice_middle [] I); [done | unfold len; by rewrite HI]. }
    assert (slice data 16 18 = Ok N) as ->.
    { rewrite Ed, Ed1. apply slice_middle; unfold len; rewrite HI, ?HN; done. }
    assert (slice data 18 22 = Ok L) as ->.
    { rewrite Ed, Ed1, Ed2, app_assoc. apply slice_middle;
        rewrite len_app; unfold len; rewrite HI, HN, ?HL; done. }
    rewrite !bind_Ok. fold n. rewrite Hguard. by eexists.
  - bool_to_prop. unfold len in *.
    destruct (split_head (Z.to_nat n) d3) as (p & b & rest & Ed3 & Hp & _); [lia|].
    assert (data = I ++ N ++ L ++ p ++ b :: rest) as Hdata.
    { by rewrite Ed, Ed1, Ed2, Ed3. }
    set (f := mkFrame (wrap 128 (be_value I)) (wrap 16 (be_value N)) (uval b =? 1) p).
    destruct (Z.ltb_spec 1 (uval b)) as [Hflag|Hflag].
    + left. unfold parse_frame. unfold len at 1.
      destruct (Z.ltb_spec (Z.of_nat (length data)) 23); [lia|].
      assert (slice data 0 16 = Ok I) as ->.
      { rewrite Ed. apply (slice_middle [] I); [done | unfold len; by rewrite HI]. }
      assert (slice data 16 18 = Ok N) as ->.
      { rewrite Ed, Ed1. apply slice_middle; unfold len; rewrite HI, ?HN; done. }
      assert (slice data 18 22 = Ok L) as ->.
      { rewrite Ed, Ed1, Ed2, app_assoc. apply slice_middle;
          rewrite len_app; unfold len; rewrite HI, HN, ?HL; done. }
      rewrite !bind_Ok. fold n. unfold len at 1.
      destruct (Z.ltb_spec 1000000 n); [lia|].
      destruct (Z.ltb_spec (Z.of_nat (length data)) (n + 23)); [lia|]. cbn [orb].
      rewrite Hdata, !app_assoc, at_middle
        by (rewrite !len_app; unfold len; lia).
      rewrite bind_Ok. apply Z.ltb_lt in Hflag. rewrite Hflag. by eexists.
    + right. exists f, rest.
      assert (frame_ok f) as Hok by (unfold frame_ok, len; simpl; lia).
      assert (data = encode_frame f ++ rest) as Hd.
      { rewrite Hdata. unfold encode_frame, f. cbn [fID fNumber fLast fData].
        pose proof (be_value_range I) as HIr. rewrite HI in HIr.
        pose proof (be_value_range N) as HNr. rewrite HN in HNr.
        rewrite (uval_wrap_small 128), (uval_wrap_small 16) by done.
        rewrite (be_bytes_value I 16), (be_bytes_value N 2) by done.
        assert (len p = n) as -> by (unfold len; lia).
        unfold n. rewrite (be_bytes_value L 4) by done. rewrite <-!app_assoc.
        assert (flag_byte (uval b =? 1) = b) as ->; [|done].
        apply uint_eq. rewrite uval_flag. pose proof (byte_range b).
        destruct (Z.eqb_spec (uval b) 1); lia. }
      split_and!; [|done..]. rewrite Hd at 1. by apply parse_frame_encode.
Qed.

(** ** All frames *)

Lemma length_encode_frame f : (23 <= length (encode_frame f))%nat.
Proof.
  unfold encode_frame. rewrite !length_app, !length_be_bytes. simpl. lia.
Qed.

Lemma parse_frames_encode fs : ∀ fuel,
  Forall frame_ok fs → (length (concat (encode_frame <$> fs)) <= fuel)%nat →
  parse_frames fuel (concat (encode_frame <$> fs)) = Ok fs.
Proof.
  induction fs as [|f fs IH]; intros fuel Hok Hfuel; [by destruct fuel|].
  apply Forall_cons in Hok as [Hf Hok].
  cbn [fmap list_fmap concat] in *. rewrite length_app in Hfuel.
  pose proof (length_encode_frame f) as H23.
  destruct fuel as [|fuel]; [lia|]. pose proof (parse_frame_encode f
    (concat (encode_frame <$> fs)) Hf) as Hp.
  destruct (encode_frame f) as [|b l] eqn:E; [simpl in H23; lia|].
  cbn [parse_frames app] in *. rewrite Hp. cbn [bind].
  rewrite IH; [done..|]. simpl in Hfuel. lia.
Qed.

Lemma parse_frames_inv fuel : ∀ data,
  (length data <= fuel)%nat →
  fails_with (parse_frames fuel data) ErrInvalid ∨
  ∃ fs, parse_frames fuel data = Ok fs ∧ Forall frame_ok fs ∧
    data = concat (encode_frame <$> fs).
Proof.
  induction fuel as [|fuel IH]; intros [|b data] Hlen; simpl in Hlen; try lia.
  - right. by exists [].
  - right. by exists [].
  - destruct (parse_frame_inv (b :: data)) as [Hf|(f & rest & Hp & Hok & Hd)].
    + left. destruct Hf as (e & He & Hi). exists e. cbn [parse_frames]. by rewrite He.
    + assert (length rest <= fuel)%nat as Hl.
      { apply (f_equal length) in Hd. rewrite length_app in Hd.
        pose proof (length_encode_frame f). simpl in Hd. lia. }
      cbn [parse_frames]. rewrite Hp. cbn [bind].
      destruct (IH rest Hl) as [(e & He & Hi)|(fs & Hfs & Hoks & ->)].
      * left. exists e. by rewrite He.
      * right. exists (f :: fs). rewrite Hfs. cbn [bind].
        split_and!; [done | by constructor | done].
Qed.

Lemma ParseFrames_cases data :
  (∃ fs, fs ≠ [] ∧ Forall frame_ok fs ∧ data = encode_frames fs ∧
    ParseFrames data = Ok fs) ∨
  ((∀ fs, fs ≠ [] → Forall frame_ok fs → data ≠ encode_frames fs) ∧
    fails_with (ParseFrames data) ErrInvalid).
Proof.
  destruct data as [|v data]; [right; split; [done | by eexists]|].
  unfold ParseFrames, encode_frames. destruct (is_zero v) eqn:Hv; cbn [negb].
  2:{ right. split; [|by eexists]. by intros fs _ _ [= ->]. }
  assert (v = wrap 8 0) as -> by (apply uint_eq; by apply Z.eqb_eq in Hv).
  assert (∀ fs, Forall frame_ok fs → data = concat (encode_frame <$> fs) →
    parse_frames (length data) data = Ok fs) as Hcomplete.
  { intros fs Hok ->. by apply parse_frames_encode. }
  destruct (parse_frames_inv (length data) data) as [(e & He & Hi)|(fs & Hfs & Hok & Hd)];
    [done| |].
  - right. rewrite He. split; [|by exists e]. intros fs Hne Hok [= Hd].
    by rewrite (Hcomplete fs) in He.
  - rewrite Hfs. cbn [bind]. case_bool_decide as Hnil.
    + right. subst fs. split; [|by eexists]. intros fs Hne Hok' [= Hd'].
      rewrite (Hcomplete fs) in Hfs by done. by injection Hfs as ->.
    + left. exists fs. split_and!; [done.. | by rewrite Hd | done].
Qed.

(** ** Properties *)

(** [C20] [ParseFrames] decides whether its input is the version byte followed
    by one or more encoded frames of at most 1,000,000 bytes: it returns
    exactly those frames, rejects everything else with ErrInvalid, never
    indexes out of range and always terminates. *)
Theorem ParseFrames_exact data :
  (∃ fs, fs ≠ [] ∧ Forall frame_ok fs ∧ data = encode_frames fs ∧
    ParseFrames data = Ok fs) ∨
  ((∀ fs, fs ≠ [] → Forall frame_ok fs → data ≠ encode_frames fs) ∧
    fails_with (ParseFrames data) ErrInvalid).
Proof. apply ParseFrames_cases. Qed.
