(* ===== verification/Beacon.v ===== *)
(** * The beacon client (internal/blob/beacon.go)

    [Frames] asks the beacon node for the blobs of a transaction and returns
    their frames, once every blob was checked against its versioned hash.
    HTTP, the syntax of JSON text, hexutil and KZG commitments are parameters;
    everything the client decides from their answers is modelled. *)
From S2P Require Import Prelude StateMonad Word Strconv Json Geth StoreTypes BlobCodec Frames.

(** An answer: the status, and what reading at most one byte more than the
    limit of its body gives, if that does not fail. *)
Record http_response : Type := mkHttp { hrStatus : Z; hrBody : option bytes }.

Class BeaconNode : Type := {
  url_Parse_ok : string → bool;                                  (* url.Parse *)
  NewRequest_ok : string → string → bool;                        (* http.NewRequestWithContext *)
  Client_Do : nat → string → string → list Hash → option http_response;
  json_Text : bytes → option json;                               (* the syntax of JSON text *)
  hexutil_Bytes : string → option bytes;                         (* hexutil.Bytes *)
  KZG_blob_hash : bytes → option Hash;    (* BlobToCommitment, then CalcBlobHashV1 *)
}.

(** The client's fields, and the time of its requests. *)
Record Beacon : Type := mkBeacon {
  bcURL : string;
  bcGenesis : u64;
  bcSeconds : u64;
  bcClockReady : bool;
}.
Record client : Type := mkClient { clBeacon : Beacon; clClock : nat }.
Notation BM := (St client).

Definition NewBeacon (endpoint : string) : Beacon := mkBeacon endpoint (#64 0) (#64 0) false.

Definition invalid (msg : string) : error := errorf ErrInvalid msg.
Definition err_missing : error := Error [ErrMissing] "blob data unavailable".

(** ** JSON replies *)

Definition lower (c : Ascii.ascii) : Ascii.ascii :=
  let n := Ascii.N_of_ascii c in
  if ((65 <=? n) && (n <=? 90))%N then Ascii.ascii_of_N (n + 32) else c.
(** The letters s and k have a third form in Unicode, U+017F and U+212A, here
    in UTF-8; no other letter outside ASCII folds to one of ASCII. *)
Fixpoint lower_case (s : string) : string :=
  match s with
  | String "197" (String "191" s) => String "s" (lower_case s)
  | String "226" (String "132" (String "170" s)) => String "k" (lower_case s)
  | String c s => String (lower c) (lower_case s)
  | EmptyString => EmptyString
  end.

(** A struct with one field: its key matches in any case, the last one wins,
    and null changes nothing. *)
Definition one_field {A} (name : string) (dec : A → json → option A) (old : A) (j : json) : option A :=
  match j with
  | JNull => Some old
  | JObj l =>
      foldr (λ '(k, v) next a,
          if bool_decide (lower_case k = lower_case name)
          then match dec a v with Some a => next a | None => None end else next a)
        Some l old
  | _ => None
  end.

Definition string_value (old : string) (j : json) : option string :=
  match j with JNull => Some old | JStr s => Some s | _ => None end.

Definition genesis_reply (j : json) : option string :=
  one_field "data" (one_field "genesis_time" string_value) "" j.
Definition spec_reply (j : json) : option string :=
  one_field "data" (one_field "SECONDS_PER_SLOT" string_value) "" j.

(** [json.RawMessage]: any value, null included. *)
Definition blobs_reply (j : json) : option (option json) :=
  one_field "data" (λ _ v, Some (Some v)) None j.

Section beacon.
Context `{BeaconNode}.

(** [[]hexutil.Bytes] *)
Definition hex_list (j : json) : option (list bytes) :=
  match j with
  | JArr l => mapM (λ v, match v with JStr s => hexutil_Bytes s | _ => None end) l
  | _ => None
  end.

(** ** Requests *)

Definition get_beacon : BM Beacon := λ w, (w, Ok (clBeacon w)).
Definition set_beacon (b : Beacon) : BM unit := λ w, (mkClient b (clClock w), Ok tt).

(** [b.Client.Do], one scheduling point later. *)
Definition do_request (url path : string) (query : list Hash) : BM (option http_response) := λ w,
  let w := mkClient (clBeacon w) (S (clClock w)) in
  (w, Ok (Client_Do (clClock w) url path query)).

Definition max_response : Z := Z.shiftl 32 20.

Definition request {A} (path : string) (query : list Hash) (dst : json → option A) : BM A :=
  do! b := get_beacon in
  raise_if negb (url_Parse_ok (bcURL b)) with invalid "invalid Beacon URL" ;;
  raise_if negb (NewRequest_ok (bcURL b) path) with plain "Beacon request construction failed" ;;
  do! resp := do_request (bcURL b) path query in
  match resp with
  | None => fail (plain "Beacon request failed")
  | Some resp =>
      raise_if (hrStatus resp =? 404) && String.prefix "/eth/v1/beacon/blobs/" path with err_missing ;;
      match hrBody resp with
      | None => fail (plain "Beacon response read failed")
      | Some raw =>
          raise_if max_response <? len raw with invalid "oversized Beacon response" ;;
          if (hrStatus resp <? 200) || (300 <=? hrStatus resp) then
            raise_if (hrStatus resp =? 429) || (500 <=? hrStatus resp) with plain "Beacon HTTP; retry" ;;
            fail (invalid "Beacon HTTP (configuration or unsupported API)")
          else
          match (j ← json_Text raw; dst j) with
          | None => fail (invalid "malformed Beacon JSON")
          | Some a => ret a
          end
      end
  end.

(** ** Slots *)

(** [/], which panics on zero. *)
Definition udiv (x y : u64) : result u64 :=
  if bool_decide (y = #64 0) then Panic else Ok (wrap 64 (uval x / uval y)).

(** The clock is read once. *)
Definition load_clock : BM unit :=
  do! genesis := request "/eth/v1/beacon/genesis" [] genesis_reply in
  do! spec := request "/eth/v1/config/spec" [] spec_reply in
  match ParseUint genesis, ParseUint spec with
  | Ok g, Ok s =>
      raise_if bool_decide (s = #64 0) with invalid "invalid Beacon clock" ;;
      do! b := get_beacon in
      set_beacon (mkBeacon (bcURL b) g s true)
  | Panic, _ | _, Panic => lift Panic
  | _, _ => fail (invalid "invalid Beacon clock")
  end.

Definition Slot (header : option Header) : BM u64 :=
  match header with
  | None => fail (invalid "missing Blob header")
  | Some header =>
      match hSlotNumber header with
      | Some n => ret n
      | None =>
          do! b := get_beacon in
          do! _ := if bcClockReady b then ret tt else load_clock in
          do! b := get_beacon in
          raise_if ult (hTime header) (bcGenesis b) with invalid "timestamp precedes Beacon genesis" ;;
          lift (udiv (usub (hTime header) (bcGenesis b)) (bcSeconds b))
      end
  end.

(** ** Frames *)

(** The hashes that are asked for, each once, and their set. *)
Definition want (st : list Hash * gset Hash) (hash : Hash) : list Hash * gset Hash :=
  let '(query, wanted) := st in
  if bool_decide (hash ∈ wanted) then st else (query ++ [hash], {[hash]} ∪ wanted).

Definition check_blob (wanted : gset Hash) (byHash : gmap Hash (list Frame)) (raw : bytes) :
    result (gmap Hash (list Frame)) :=
  fail_if negb (len raw =? 131072) with invalid "wrong Blob length" ;;
  match KZG_blob_hash raw with
  | None => Err (invalid "invalid KZG Blob")
  | Some hash =>
      fail_if negb (bool_decide (hash ∈ wanted)) with invalid "unexpected Blob hash" ;;
      fail_if bool_decide (is_Some (byHash !! hash)) with invalid "duplicate returned Blob" ;;
      let! payload := DecodeBlob raw in
      let! frames := ParseFrames payload in
      Ok (<[hash := frames]> byHash)
  end.

Definition collect (byHash : gmap Hash (list Frame)) (frames : list Frame) (hash : Hash) :
    result (list Frame) :=
  match byHash !! hash with
  | None => Err err_missing
  | Some f => Ok (frames ++ f)
  end.

Definition Frames (h : option Header) (hashes : list Hash) : BM (list Frame) :=
  do! slot := Slot h in
  let '(query, wanted) := fold_left want hashes ([], ∅) in
  do! data := request ("/eth/v1/beacon/blobs/" +:+ FormatUint slot) query blobs_reply in
  match data with
  | None | Some JNull => fail (invalid "missing blobs array")
  | Some data =>
      match hex_list data with
      | None => fail (invalid "malformed blobs array")
      | Some blobs =>
          do! byHash := lift (foldM (check_blob wanted) ∅ blobs) in
          lift (foldM (collect byHash) [] hashes)
      end
  end.

End beacon.
