(* ===== verification/BeaconTheorems.v ===== *)
(** * What the beacon client promises

    Whatever the beacon node answers, [Frames] returns only the frames of the
    blobs with the requested hashes, checked one by one, or an error. *)
From S2P Require Import Prelude StateMonad Word Strconv Json Geth StoreTypes BlobCodec Frames Beacon.

Section facts.
Context `{BeaconNode}.

(** The clock is usable once it was read. *)
Definition clock_ok (w : client) : Prop :=
  bcClockReady (clBeacon w) = true → 0 < uval (bcSeconds (clBeacon w)).

(** Time passes, and a clock that was read stays. *)
Record later (w w' : client) : Prop := {
  lt_clock : (clClock w <= clClock w')%nat;
  lt_url : bcURL (clBeacon w') = bcURL (clBeacon w);
  lt_ready : bcClockReady (clBeacon w) = true → clBeacon w' = clBeacon w;
}.

#[export] Instance later_preorder : PreOrder later.
Proof.
  split; [by split|]. intros w1 w2 w3 [C1 U1 R1] [C2 U2 R2]. split; [lia | congruence|].
  intros Hr. rewrite <-(R1 Hr). apply R2. by rewrite (R1 Hr).
Qed.

Notation wp := (wp clock_ok later).

(** The node answered the request with a document that reads as [a]. *)
Definition replied {A} (t1 t2 : nat) (url path : string) (query : list Hash) (dst : json → option A)
    (a : A) : Prop :=
  ∃ t r raw j, (t1 < t <= t2)%nat ∧ Client_Do t url path query = Some r ∧
    200 <= hrStatus r < 300 ∧ hrBody r = Some raw ∧ len raw <= 32 * 2 ^ 20 ∧
    json_Text raw = Some j ∧ dst j = Some a.

Lemma wp_get_beacon (Q : client → Beacon → Prop) w : Q w (clBeacon w) → wp Q get_beacon w.
Proof. intros HQ Hw. split_and!; [done | reflexivity | done|]. by intros ? [= <-]. Qed.

Lemma wp_do_request (Q : client → option http_response → Prop) url path query w :
  (∀ w', clBeacon w' = clBeacon w → clClock w' = S (clClock w) →
     Q w' (Client_Do (S (clClock w)) url path query)) →
  wp Q (do_request url path query) w.
Proof.
  intros HQ Hw. split_and!; [done | | done|].
  - split; simpl; [lia | done..].
  - intros ? [= <-]. by apply HQ.
Qed.

Lemma wp_request {A} (Q : client → A → Prop) path query dst w :
  (∀ w' a, replied (clClock w) (clClock w') (bcURL (clBeacon w)) path query dst a →
     (clClock w <= clClock w')%nat → clBeacon w' = clBeacon w → Q w' a) →
  wp Q (request path query dst) w.
Proof.
  intros HQ. apply wp_bind; [apply _|]. apply wp_get_beacon.
  apply wp_raise; [apply _|]. intros _. apply wp_raise; [apply _|]. intros _.
  apply wp_bind; [apply _|]. apply wp_do_request. intros w1 B1 C1.
  destruct (Client_Do _ _ _ _) as [r|] eqn:Er; [|apply wp_fail, _].
  apply wp_raise; [apply _|]. intros _.
  destruct (hrBody r) as [raw|] eqn:Eb; [|apply wp_fail, _].
  apply wp_raise; [apply _|]. intros Hlen.
  destruct (_ || _) eqn:Es; [by apply wp_raise; [apply _|]; intros _; apply wp_fail, _|].
  destruct (json_Text raw) as [j|] eqn:Ej; simpl; [|apply wp_fail, _].
  destruct (dst j) as [a|] eqn:Ed; [|apply wp_fail, _].
  apply wp_ret; [apply _|]. intros _. apply HQ; [|lia | done].
  apply orb_false_iff in Es as [Es1 Es2]. bool_to_prop.
  exists (S (clClock w)), r, raw, j. split_and!; try done; unfold max_response in *; lia.
Qed.

(** ** Slots *)

Definition clock_replied (t1 t2 : nat) (url : string) (g s : u64) : Prop :=
  ∃ gs ss, replied t1 t2 url "/eth/v1/beacon/genesis" [] genesis_reply gs ∧
    replied t1 t2 url "/eth/v1/config/spec" [] spec_reply ss ∧
    ParseUint gs = Ok g ∧ ParseUint ss = Ok s.

Lemma ParseUint_no_panic s : ParseUint s ≠ Panic.
Proof. destruct (ParseUint_cases s) as [(n & -> & _)|(msg & -> & _)]; done. Qed.

Lemma replied_mono {A} t1 t1' t2 t2' url path query (dst : json → option A) a :
  (t1' <= t1)%nat → (t2 <= t2')%nat →
  replied t1 t2 url path query dst a → replied t1' t2' url path query dst a.
Proof. intros ?? (t & r & raw & j & ? & Hr). exists t, r, raw, j. split; [lia | done]. Qed.

Lemma wp_load_clock (Q : client → unit → Prop) w :
  bcClockReady (clBeacon w) = false →
  (∀ w' g s, clock_replied (clClock w) (clClock w') (bcURL (clBeacon w)) g s → 0 < uval s →
     clBeacon w' = mkBeacon (bcURL (clBeacon w)) g s true → (clClock w <= clClock w')%nat → Q w' tt) →
  wp Q load_clock w.
Proof.
  intros Hn HQ. apply wp_bind; [apply _|]. apply wp_request. intros w1 gs Hg T1 B1.
  apply wp_bind; [apply _|]. apply wp_request. intros w2 ss Hs T2 B2.
  pose proof (ParseUint_no_panic gs) as Pg. pose proof (ParseUint_no_panic ss) as Ps.
  destruct (ParseUint gs) as [g|e|] eqn:Eg; [| |done].
  2:{ destruct (ParseUint ss); [apply wp_fail, _ | apply wp_fail, _ | done]. }
  destruct (ParseUint ss) as [s|e|] eqn:Es; [|apply wp_fail, _|done].
  apply wp_raise; [apply _|]. intros Hz. bool_to_prop.
  assert (0 < uval s) as Hpos.
  { pose proof (uint_range s). destruct (decide (uval s = 0)) as [E|]; [|lia]. destruct Hz. by apply uint_eq. }
  intros Hw2. unfold mbind, get_beacon, set_beacon. cbn [clBeacon clClock].
  split_and!.
  - intros _. done.
  - split; simpl; [done | done|]. rewrite B2, B1, Hn. done.
  - done.
  - intros [] _. rewrite B2, B1. apply (HQ _ g s); [|done | done | simpl; lia].
    exists gs, ss. simpl. rewrite B1 in Hs. split_and!; [| |done..]; (eapply replied_mono; [| |done]; lia).
Qed.

(** The slot of the header, by its own number or by the node's clock. *)
Definition slot_of (b : Beacon) (h : Header) (slot : u64) : Prop :=
  match hSlotNumber h with
  | Some n => slot = n
  | None => bcClockReady b = true ∧ uval (bcGenesis b) <= uval (hTime h) ∧
      uval slot = (uval (hTime h) - uval (bcGenesis b)) / uval (bcSeconds b)
  end.

Lemma udiv_Ok (x y : u64) : 0 < uval y → ∃ q, udiv x y = Ok q ∧ uval q = uval x / uval y.
Proof.
  intros Hy. unfold udiv. rewrite bool_decide_false by (by intros ->).
  eexists. split; [done|]. apply uval_wrap_small. pose proof (uint_range x).
  split; [apply Z.div_pos; lia|]. apply Z.div_lt_upper_bound; [done|]. nia.
Qed.

(** Where the clock came from. *)
Definition clock_from (w w' : client) : Prop :=
  clBeacon w' = clBeacon w ∨
  bcClockReady (clBeacon w) = false ∧
    clock_replied (clClock w) (clClock w') (bcURL (clBeacon w)) (bcGenesis (clBeacon w')) (bcSeconds (clBeacon w')).

Lemma wp_Slot (Q : client → u64 → Prop) h w :
  (∀ w' slot h', h = Some h' → slot_of (clBeacon w') h' slot → clock_from w w' →
     (clClock w <= clClock w')%nat → bcURL (clBeacon w') = bcURL (clBeacon w) → Q w' slot) →
  wp Q (Slot h) w.
Proof.
  intros HQ. destruct h as [h|]; cbn [Slot]; [|apply wp_fail, _].
  destruct (hSlotNumber h) as [n|] eqn:En.
  { apply wp_ret; [apply _|]. intros _. apply (HQ w n h); [done | | by left | done..].
    unfold slot_of. by rewrite En. }
  assert (∀ w', bcClockReady (clBeacon w') = true → clock_from w w' → (clClock w <= clClock w')%nat →
    bcURL (clBeacon w') = bcURL (clBeacon w) →
    wp Q (do! b := get_beacon in
          raise_if ult (hTime h) (bcGenesis b) with invalid "timestamp precedes Beacon genesis" ;;
          lift (udiv (usub (hTime h) (bcGenesis b)) (bcSeconds b))) w') as Htail.
  { intros w' Hr Hf Ht Hu. apply wp_intro. intros Hok. specialize (Hok Hr).
    unfold wp, get_beacon, mbind. cbn beta iota.
    cut (wp Q (raise_if ult (hTime h) (bcGenesis (clBeacon w')) with invalid "timestamp precedes Beacon genesis" ;;
      lift (udiv (usub (hTime h) (bcGenesis (clBeacon w'))) (bcSeconds (clBeacon w')))) w'); [done|].
    apply wp_raise; [apply _|]. unfold ult. intros Hlt. bool_to_prop.
    destruct (udiv_Ok (usub (hTime h) (bcGenesis (clBeacon w'))) (bcSeconds (clBeacon w')) Hok) as (q & -> & Hq).
    rewrite usub_le in Hq by done. apply wp_lift; [apply _ | done|]. intros ? [= <-] _.
    apply (HQ w' q h); [done | | done..]. unfold slot_of. rewrite En. by split_and!. }
  cut (wp Q (do! _ := if bcClockReady (clBeacon w) then ret tt else load_clock in
    do! b := get_beacon in
    raise_if ult (hTime h) (bcGenesis b) with invalid "timestamp precedes Beacon genesis" ;;
    lift (udiv (usub (hTime h) (bcGenesis b)) (bcSeconds b))) w); [done|].
  apply wp_bind; [apply _|]. destruct (bcClockReady (clBeacon w)) eqn:Er.
  - apply wp_ret; [apply _|]. intros _. apply Htail; [done | by left | done..].
  - apply wp_load_clock; [done|]. intros w1 g s Hc Hs B1 T1. apply Htail; [by rewrite B1 | | done | by rewrite B1].
    right. split; [done|]. by rewrite B1.
Qed.

(** ** Blobs *)

(** [raw] is the encoding of the frames [fs], and has the hash [h]. *)
Definition blob_of (raw : bytes) (h : Hash) (fs : list Frame) : Prop :=
  KZG_blob_hash raw = Some h ∧ fs ≠ [] ∧ Forall frame_ok fs ∧
  len (encode_frames fs) <= 130044 ∧ raw = encode_blob (encode_frames fs).

Lemma blob_of_unique raw h1 h2 fs1 fs2 : blob_of raw h1 fs1 → blob_of raw h2 fs2 → h1 = h2 ∧ fs1 = fs2.
Proof.
  intros (E1 & N1 & F1 & L1 & R1) (E2 & N2 & F2 & L2 & R2). split; [congruence|].
  assert (encode_frames fs1 = encode_frames fs2) as E.
  { rewrite R1 in R2. pose proof (DecodeBlob_encode_blob (encode_frames fs1) L1) as D1.
    rewrite R2, DecodeBlob_encode_blob in D1 by done. congruence. }
  assert (∀ fs, fs ≠ [] → Forall frame_ok fs → ParseFrames (encode_frames fs) = Ok fs) as Hp.
  { intros fs Hne Hok. unfold ParseFrames, encode_frames. cbn [is_zero]. simpl.
    rewrite parse_frames_encode by done. cbn [bind]. by rewrite bool_decide_false. }
  pose proof (Hp fs1 N1 F1) as P1. rewrite E, Hp in P1 by done. congruence.
Qed.

(** The blobs checked so far. *)
Record checked (wanted : gset Hash) (blobs : list bytes) (m : gmap Hash (list Frame)) : Prop := {
  ck_from h fs : m !! h = Some fs → h ∈ wanted ∧ ∃ raw, raw ∈ blobs ∧ blob_of raw h fs;
  ck_all raw : raw ∈ blobs → ∃ h fs, blob_of raw h fs ∧ m !! h = Some fs;
  ck_once : NoDup blobs;
}.

Lemma check_blob_cases wanted blobs m raw :
  checked wanted blobs m →
  (∃ h fs, check_blob wanted m raw = Ok (<[h := fs]> m) ∧ checked wanted (blobs ++ [raw]) (<[h := fs]> m)) ∨
  fails_with (check_blob wanted m raw) ErrInvalid.
Proof.
  intros C. unfold check_blob. destruct (negb (len raw =? 131072)); [right; by eexists|].
  destruct (KZG_blob_hash raw) as [h|] eqn:Eh; [|right; by eexists].
  case_bool_decide as Hw; cbn [negb]; [|right; by eexists].
  case_bool_decide as Hd; [right; by eexists|].
  destruct (DecodeBlob_total raw) as [Hf|[p Hp]]; [right; by apply fails_bind|].
  rewrite Hp. cbn [bind]. destruct (DecodeBlob_Ok_inv raw p Hp) as [Hl Hraw].
  destruct (ParseFrames_cases p) as [(fs & Hne & Hok & Efs & ->)|[_ Hf]]; [left | right; by apply fails_bind].
  exists h, fs. split; [done|].
  assert (blob_of raw h fs) as Hb by (split_and!; [done | done | done | by rewrite <-Efs | by rewrite <-Efs]).
  assert (m !! h = None) as Hnone by (by apply eq_None_not_Some).
  destruct C as [Cf Ca Cn]. split.
  - intros h' fs' [[<- <-]|[Hne' Hm]]%lookup_insert_Some; [split; [done|]; exists raw; set_solver|].
    destruct (Cf h' fs' Hm) as [? (r & ? & ?)]. split; [done|]. exists r. set_solver.
  - intros r [Hr|Hr%list_elem_of_singleton]%elem_of_app.
    + destruct (Ca r Hr) as (h' & fs' & Hb' & Hm). exists h', fs'. split; [done|].
      rewrite lookup_insert_ne; [done|]. congruence.
    + subst r. exists h, fs. split; [done|]. apply lookup_insert_eq.
  - apply NoDup_app. split_and!; [done | | apply NoDup_singleton].
    intros r Hr Hs%list_elem_of_singleton. subst r. destruct (Ca raw Hr) as (h' & fs' & [Eh' _] & Hm). congruence.
Qed.

Lemma check_blobs_cases wanted blobs : ∀ before m,
  checked wanted before m →
  (∃ m', foldM (check_blob wanted) m blobs = Ok m' ∧ checked wanted (before ++ blobs) m') ∨
  fails_with (foldM (check_blob wanted) m blobs) ErrInvalid.
Proof.
  induction blobs as [|raw blobs IH]; intros before m C; cbn [foldM].
  { left. exists m. by rewrite app_nil_r. }
  rewrite (cons_middle raw), app_assoc.
  destruct (check_blob_cases _ _ _ raw C) as [(h & fs & -> & C')|Hf].
  - cbn [bind]. by apply IH.
  - right. by apply fails_bind.
Qed.

Lemma collect_cases m hashes : ∀ acc,
  (∃ parts, Forall2 (λ h fs, m !! h = Some fs) hashes parts ∧
     foldM (collect m) acc hashes = Ok (acc ++ concat parts)) ∨
  (∃ h, h ∈ hashes ∧ m !! h = None ∧ foldM (collect m) acc hashes = Err err_missing).
Proof.
  induction hashes as [|h hashes IH]; intros acc; cbn [foldM].
  { left. exists []. simpl. rewrite app_nil_r. by split; [constructor|]. }
  unfold collect at 1 3. destruct (m !! h) as [fs|] eqn:Eh; cbn [bind].
  - destruct (IH (acc ++ fs)) as [(parts & Hp & ->)|(h' & Hin & Hn & ->)]; [left | right].
    + exists (fs :: parts). split; [by constructor|]. simpl. by rewrite app_assoc.
    + exists h'. split_and!; [by right | done..].
  - right. exists h. split_and!; [by left | done..].
Qed.

(** The query has every hash once; the set is theirs. *)
Lemma want_spec hashes : ∀ query wanted,
  (∀ h, h ∈ wanted ↔ h ∈ query) → NoDup query →
  let '(query', wanted') := fold_left want hashes (query, wanted) in
  (∀ h, h ∈ wanted' ↔ h ∈ query') ∧ NoDup query' ∧ (∀ h, h ∈ query' ↔ h ∈ query ∨ h ∈ hashes).
Proof.
  induction hashes as [|h hashes IH]; intros query wanted Hw Hn; cbn [fold_left].
  { split_and!; [done | done|]. intros h. split; [by left|]. by intros [?|?%elem_of_nil]. }
  unfold want at 2. case_bool_decide as Hh.
  - specialize (IH query wanted Hw Hn). destruct (fold_left want hashes _) as [q' w'].
    destruct IH as (? & ? & Hq). split_and!; [done | done|]. intros x. rewrite Hq. set_solver.
  - specialize (IH (query ++ [h]) ({[h]} ∪ wanted)). destruct (fold_left want hashes _) as [q' w'].
    destruct IH as (? & ? & Hq).
    + intros x. set_solver.
    + apply NoDup_app. split_and!; [done | | apply NoDup_singleton].
      intros x Hx Hs%list_elem_of_singleton. subst x. by apply Hh, Hw.
    + split_and!; [done | done|]. intros x. rewrite Hq. set_solver.
Qed.

(** ** Frames *)

(** The frames of [hashes], out of blobs the node answered for this slot and
    these hashes: each blob is asked for, and there once. *)
Record served_by (t1 t2 : nat) (url : string) (slot : u64) (hashes query : list Hash)
    (data : json) (blobs : list bytes) (parts : list (list Frame)) : Prop := {
  sv_once : NoDup query;
  sv_same x : x ∈ query ↔ x ∈ hashes;
  sv_reply : replied t1 t2 url ("/eth/v1/beacon/blobs/" +:+ FormatUint slot) query blobs_reply (Some data);
  sv_blobs : hex_list data = Some blobs;
  sv_each : Forall2 (λ x fs, ∃ raw, raw ∈ blobs ∧ blob_of raw x fs) hashes parts;
  sv_wanted raw : raw ∈ blobs → ∃ x fs, x ∈ hashes ∧ blob_of raw x fs;
  sv_distinct : NoDup blobs;
}.
Definition served (t1 t2 : nat) (url : string) (slot : u64) (hashes : list Hash) (frames : list Frame) : Prop :=
  ∃ query data blobs parts,
    served_by t1 t2 url slot hashes query data blobs parts ∧ frames = concat parts.

Lemma clock_from_mono w w1 w2 :
  clock_from w w1 → clBeacon w2 = clBeacon w1 → (clClock w1 <= clClock w2)%nat → clock_from w w2.
Proof.
  unfold clock_from. intros Hf -> Ht. destruct Hf as [->|[Hr (gs & ss & Hg & Hs & ? & ?)]]; [by left|].
  right. split; [done|]. exists gs, ss. split_and!; [| |done..]; (eapply replied_mono; [| |done]; lia).
Qed.

Lemma wp_Frames (Q : client → list Frame → Prop) h hashes w :
  (∀ w' frames h' slot, h = Some h' → slot_of (clBeacon w') h' slot → clock_from w w' →
     served (clClock w) (clClock w') (bcURL (clBeacon w)) slot hashes frames → Q w' frames) →
  wp Q (Frames h hashes) w.
Proof.
  intros HQ. apply wp_bind; [apply _|]. apply wp_Slot. intros w1 slot h' Hh Hs Hf T1 U1.
  pose proof (want_spec hashes [] ∅ ltac:(set_solver) (NoDup_nil_2)) as Hw.
  destruct (fold_left want hashes ([], ∅)) as [query wanted]. destruct Hw as (Hwq & Hnd & Hq).
  apply wp_bind; [apply _|]. apply wp_request. intros w2 data Hr T2 B2.
  destruct data as [data|]; [|apply wp_fail, _].
  destruct (decide (data = JNull)) as [->|Hdata]; [apply wp_fail, _|].
  cut (wp Q match hex_list data with
      | None => fail (invalid "malformed blobs array")
      | Some blobs => do! byHash := lift (foldM (check_blob wanted) ∅ blobs) in
                      lift (foldM (collect byHash) [] hashes)
      end w2); [by destruct data|].
  destruct (hex_list data) as [blobs|] eqn:Eb; [|apply wp_fail, _].
  assert (checked wanted [] ∅) as C0 by (split; [by intros ?? ?%lookup_empty_Some | by intros ? ?%elem_of_nil | constructor]).
  apply wp_bind; [apply _|].
  destruct (check_blobs_cases wanted blobs [] ∅ C0) as [(m & -> & C)|(e & -> & _)]; [|apply wp_fail, _].
  apply wp_lift; [apply _ | done|]. intros ? [= <-] _.
  destruct (collect_cases m hashes []) as [(parts & Hp & ->)|(x & _ & _ & ->)]; [|apply wp_fail, _].
  apply wp_lift; [apply _ | done|]. intros ? [= <-] _. destruct C as [Cf Ca Cn]. simpl in Ca, Cf, Cn.
  apply (HQ w2 (concat parts) h' slot); [done | by rewrite B2 | by eapply clock_from_mono|].
  exists query, data, blobs, parts. split; [|done]. split; try done.
  - intros x. rewrite Hq. set_solver.
  - rewrite U1 in Hr. (eapply replied_mono; [| |done]; lia).
  - eapply Forall2_impl; [done|]. intros x fs Hm. by apply Cf in Hm as [_ ?].
  - intros raw Hraw. destruct (Ca raw Hraw) as (x & fs & Hb & Hm). exists x, fs.
    split; [|done]. apply Cf in Hm as [Hm _]. rewrite Hwq, Hq in Hm. set_solver.
Qed.

End facts.

(** ** Properties *)

Section properties.
Context `{BeaconNode}.

(** [C12] Whatever the beacon node answers, [Frames] does not panic, keeps a
    clock it has read, and leaves it usable.  When it returns frames, the slot
    is the header's own or the one its time falls in by the genesis time and
    the non-zero slot length the node has sent; a 2xx answer of at most 32 MiB
    to the request for exactly the distinct requested hashes at that slot
    holds blobs that are distinct, were all asked for, and have the requested
    hashes; and the frames are, hash by hash in the requested order, the ones
    that those blobs encode. *)
Theorem Frames_verified h hashes (w w' : client) r (Hw : clock_ok w) (Hrun : Frames h hashes w = (w', r)) :
  clock_ok w' ∧ later w w' ∧ r ≠ Panic ∧
  ∀ frames, r = Ok frames → ∃ h' slot,
    h = Some h' ∧ slot_of (clBeacon w') h' slot ∧ clock_from w w' ∧
    served (clClock w) (clClock w') (bcURL (clBeacon w)) slot hashes frames.
Proof.
  refine (wp_run clock_ok later (λ w' frames, ∃ h' slot,
    h = Some h' ∧ slot_of (clBeacon w') h' slot ∧ clock_from w w' ∧
    served (clClock w) (clClock w') (bcURL (clBeacon w)) slot hashes frames) _ w w' r _ Hw Hrun).
  apply wp_Frames. intros w1 frames h' slot ????. by exists h', slot.
Qed.

End properties.

Module BeaconWitness.

Definition frame1 : Frame := mkFrame (wrap 128 7) (wrap 16 0) true [wrap 8 1; wrap 8 2].
Definition blob1 : bytes := encode_blob (encode_frames [frame1]).

(** A node whose genesis is at 1000, with slots of 12 seconds. *)
#[local] Instance node : BeaconNode := {|
  url_Parse_ok _ := true;
  NewRequest_ok _ _ := true;
  Client_Do _ _ path query :=
    Some (mkHttp 200 (Some [wrap 8
      (if bool_decide (path = "/eth/v1/beacon/genesis") then 1
       else if bool_decide (path = "/eth/v1/config/spec") then 2
       else if bool_decide (path = "/eth/v1/beacon/blobs/5") && bool_decide (query = [wrap 256 9]) then 3
       else 4)]));
  json_Text raw :=
    if bool_decide (raw = [wrap 8 1]) then Some (JObj [("data", JObj [("genesis_time", JStr "1000")])])
    else if bool_decide (raw = [wrap 8 2]) then Some (JObj [("data", JObj [("SECONDS_PER_SLOT", JStr "12")])])
    else if bool_decide (raw = [wrap 8 3]) then Some (JObj [("data", JArr [JStr "0xb10b"])])
    else None;
  hexutil_Bytes s := if bool_decide (s = "0xb10b") then Some blob1 else None;
  KZG_blob_hash raw := Some (wrap 256 9);
|}.

Definition w0 : client := mkClient (NewBeacon "http://beacon") 0.
Definition header : Header := mkHeader (Some 2) (#64 1065) (wrap 256 3) None.
Definition got := Frames (Some header) [wrap 256 9; wrap 256 9] w0.

Definition w1 : client := mkClient (mkBeacon "http://beacon" (#64 1000) (#64 12) true) 2.
Definition w2 : client := mkClient (mkBeacon "http://beacon" (#64 1000) (#64 12) true) 3.

Lemma slot5 : Slot (Some header) w0 = (w1, Ok (#64 5)).
Proof. vm_compute. reflexivity. Qed.
Lemma wanted9 : fold_left want [wrap 256 9; wrap 256 9] ([], ∅) = ([wrap 256 9], {[wrap 256 9]} ∪ ∅).
Proof.
  cbn [fold_left]. unfold want at 2. rewrite bool_decide_false by set_solver.
  unfold want. by rewrite bool_decide_true by set_solver.
Qed.
Lemma replied5 :
  request ("/eth/v1/beacon/blobs/" +:+ FormatUint (#64 5)) [wrap 256 9] blobs_reply w1 =
    (w2, Ok (Some (JArr [JStr "0xb10b"]))).
Proof. vm_compute. reflexivity. Qed.
Lemma listed : hex_list (JArr [JStr "0xb10b"]) = Some [blob1].
Proof. reflexivity. Qed.

Lemma checks_raw raw : DecodeBlob raw = Ok (encode_frames [frame1]) →
  foldM (check_blob ({[wrap 256 9]} ∪ ∅)) ∅ [raw] = Ok {[wrap 256 9 := [frame1]]}.
Proof.
  intros Hd. assert (ParseFrames (encode_frames [frame1]) = Ok [frame1]) as Hp by (vm_compute; reflexivity).
  cbn [foldM]. unfold check_blob. rewrite (DecodeBlob_Ok_len _ _ Hd). cbn [Z.eqb Pos.eqb negb KZG_blob_hash node].
  rewrite bool_decide_true by set_solver. rewrite bool_decide_false by (by intros [? ?%lookup_empty_Some]).
  rewrite Hd. cbn [negb bind]. by rewrite Hp.
Qed.

Lemma checked9 : foldM (check_blob ({[wrap 256 9]} ∪ ∅)) ∅ [blob1] = Ok {[wrap 256 9 := [frame1]]}.
Proof. apply checks_raw, DecodeBlob_encode_blob. by vm_compute. Qed.

Lemma got_frames : got.2 = Ok [frame1; frame1].
Proof.
  unfold got, Frames, mbind at 1. rewrite slot5, wanted9. unfold mbind at 1. rewrite replied5, listed.
  unfold mbind, lift. rewrite checked9. cbn [foldM collect]. unfold collect.
  by rewrite lookup_singleton_eq.
Qed.

Lemma Frames_verified_witness : ∃ h' slot,
  Some header = Some h' ∧ slot_of (clBeacon got.1) h' slot ∧ clock_from w0 got.1 ∧
  served 0 (clClock got.1) "http://beacon" slot [wrap 256 9; wrap 256 9] [frame1; frame1].
Proof.
  assert (clock_ok w0) as Hw by done.
  destruct (Frames_verified (Some header) [wrap 256 9; wrap 256 9] w0 got.1 got.2 Hw (surjective_pairing got)) as (_ & _ & _ & Hf).
  exact (Hf _ got_frames).
Defined.

End BeaconWitness.
