(* ===== verification/SpanReader.v ===== *)
(** * Reading a span (internal/blob/span.go, spanReader)

    A reader over the bytes of a span batch that remembers its first error:
    after an error every read returns a zero value and consumes nothing.
    [ReadUvarint] is [encoding/binary]'s; bit fields are big.Ints; raw
    transactions are delimited by go-ethereum's RLP stream, a parameter. *)
From S2P Require Import Prelude Word BlobCodec.

(** ** RLP *)

(** What a stream yields next: the content of a byte string and the rest of
    the input, the end of the input, or an error. *)
Inductive rlp_item : Type :=
  | RlpBytes (content rest : bytes)
  | RlpEOF
  | RlpError.

(** [rlp.Stream] over a byte reader: [Raw] returns the next encoded value,
    header included, and what follows it. *)
Class RLP : Type := {
  Stream_Raw : bytes → option (bytes * bytes);
  Stream_Bytes : bytes → rlp_item;
}.

Class RLPLaws `{RLP} : Prop := {
  Raw_prefix b p rest : Stream_Raw b = Some (p, rest) → b = p ++ rest ∧ p ≠ [];
  Bytes_consumes b c rest : Stream_Bytes b = RlpBytes c rest → (length rest < length b)%nat;
}.

(** ** The reader *)

Record reader : Type := mkReader { rd_buf : bytes; rd_err : option error }.

(** [spanReader.fail]: the first error stays. *)
Definition reader_fail (r : reader) (message : string) : reader :=
  match rd_err r with
  | None => mkReader (rd_buf r) (Some (errorf ErrInvalid message))
  | Some _ => r
  end.

Definition reader_Len (r : reader) : Z := len (rd_buf r).

(** [spanReader.data]; [io.ReadFull] cannot fail within [Len]. *)
Definition read_data (r : reader) (n : u64) : bytes * reader :=
  match rd_err r with
  | Some _ => ([], r)
  | None =>
      if reader_Len r <? uval n then ([], reader_fail r "truncated span")
      else (take (Z.to_nat (uval n)) (rd_buf r),
            mkReader (drop (Z.to_nat (uval n)) (rd_buf r)) None)
  end.

(** binary.ReadUvarint: at most ten bytes, little endian groups of seven
    bits; on an error the bits read so far come back with it. *)
Fixpoint uvarint_loop (rounds : nat) (x : u64) (s : Z) (buf : bytes) : u64 * bool * bytes :=
  match rounds, buf with
  | O, _ => (x, false, buf)
  | _, [] => (x, false, [])
  | S rounds, b :: buf =>
      if uval b <? 128 then
        if (rounds =? 0)%nat && (1 <? uval b) then (x, false, buf)
        else (wrap 64 (Z.lor (uval x) (Z.shiftl (uval b) s)), true, buf)
      else uvarint_loop rounds (wrap 64 (Z.lor (uval x) (Z.shiftl (Z.land (uval b) 127) s)))
             (s + 7) buf
  end.

Definition ReadUvarint (buf : bytes) : u64 * bool * bytes := uvarint_loop 10 (#64 0) 0 buf.

(** [spanReader.u64] *)
Definition read_u64 (r : reader) : u64 * reader :=
  match rd_err r with
  | Some _ => (#64 0, r)
  | None =>
      let '(v, ok, buf) := ReadUvarint (rd_buf r) in
      let r := mkReader buf None in
      (v, if ok then r else reader_fail r "invalid span varint")
  end.

(** [big.Int.BitLen] of a non-negative integer. *)
Definition BitLen (v : Z) : Z := if v =? 0 then 0 else Z.log2 v + 1.

(** [spanReader.bits] *)
Definition read_bits (r : reader) (n : u64) : Z * reader :=
  let '(b, r) := read_data r (wrap 64 (uval (uadd n (#64 7)) / 8)) in
  let v := be_value b in
  (v, if uval n <? BitLen v then reader_fail r "nonzero unused bits" else r).

(** [for range n { out = append(out, read()) }] *)
Fixpoint read_n {A} (read : reader → A * reader) (n : nat) (r : reader) : list A * reader :=
  match n with
  | O => ([], r)
  | S n =>
      let '(x, r) := read r in
      let '(xs, r) := read_n read n r in
      (x :: xs, r)
  end.

(** [spanReader.numbers]: [make] panics when [int(n)] is negative. *)
Definition read_numbers (r : reader) (n : u64) : result (list u64 * reader) :=
  if 2 ^ 63 <=? uval n then Panic else Ok (read_n read_u64 (Z.to_nat (uval n)) r).

(** [spanReader.rawTx] *)
Definition read_rawTx `{RLP} (r : reader) : bytes * reader :=
  match rd_err r with
  | Some _ => ([], r)
  | None =>
      match rd_buf r with
      | [] => ([], reader_fail r "missing transaction payload")
      | prefix :: rest =>
          if (uval prefix <=? 127) && negb ((uval prefix =? 1) || (uval prefix =? 2))
          then ([], reader_fail (mkReader rest None) "unsupported transaction type")
          else
            let typed := uval prefix <=? 127 in
            let r := mkReader (if typed then rest else prefix :: rest) None in
            match Stream_Raw (rd_buf r) with
            | None => ([], reader_fail r "invalid transaction RLP")
            | Some (payload, rest) =>
                (if typed then prefix :: payload else payload, mkReader rest None)
            end
      end
  end.

(** ** Errors stay and are ErrInvalid *)

Definition reader_ok (r : reader) : Prop :=
  match rd_err r with Some e => errors_Is e ErrInvalid = true | None => True end.

(** A read keeps an error, and only fails with ErrInvalid. *)
Definition sound {A} (read : reader → A * reader) : Prop := ∀ r,
  (rd_err r ≠ None → (read r).2 = r) ∧ (reader_ok r → reader_ok (read r).2).

Lemma reader_fail_ok r m : reader_ok r → reader_ok (reader_fail r m).
Proof. unfold reader_fail, reader_ok. by destruct (rd_err r) eqn:E; rewrite ?E. Qed.

Lemma reader_fail_err r m : rd_err (reader_fail r m) ≠ None.
Proof. unfold reader_fail. by destruct (rd_err r) eqn:E; rewrite ?E. Qed.

Lemma reader_fail_stuck r m : rd_err r ≠ None → reader_fail r m = r.
Proof. unfold reader_fail. by destruct (rd_err r). Qed.

Lemma reader_fail_id r m : rd_err (reader_fail r m) = None → reader_fail r m = r.
Proof. unfold reader_fail. by destruct (rd_err r) eqn:E; rewrite ?E. Qed.

Lemma read_data_sound n : sound (λ r, read_data r n).
Proof.
  intros [buf [e|]]; unfold read_data; simpl; [by split|].
  split; [done|]. intros _. by destruct (_ <? _).
Qed.

Lemma read_u64_sound : sound read_u64.
Proof.
  intros [buf [e|]]; unfold read_u64; simpl; [by split|].
  split; [done|]. intros _. by destruct (ReadUvarint buf) as [[v []] rest].
Qed.

Lemma read_bits_sound n : sound (λ r, read_bits r n).
Proof.
  intros r. unfold read_bits.
  destruct (read_data_sound (wrap 64 (uval (uadd n (#64 7)) / 8)) r) as [H1 H2].
  destruct (read_data r _) as [b r']. simpl in *. split; intros Hr.
  - rewrite H1 in * by done. destruct (_ <? _); [by apply reader_fail_stuck | done].
  - destruct (_ <? _); auto using reader_fail_ok.
Qed.

Lemma read_rawTx_sound `{RLP} : sound read_rawTx.
Proof.
  intros [buf [e|]]; unfold read_rawTx; simpl; [by split|].
  split; [done|]. intros _. destruct buf as [|b buf]; [done|].
  destruct (_ && _); [done|]. destruct (Stream_Raw _) as [[]|]; [|done].
  by destruct (_ <=? _).
Qed.

Lemma read_n_sound {A} (read : reader → A * reader) n : sound read → sound (read_n read n).
Proof.
  intros Hs. induction n as [|n IH]; intros r; [by split|]. simpl.
  destruct (Hs r) as [H1 H2]. destruct (read r) as [x r']. simpl in *.
  destruct (IH r') as [H3 H4]. destruct (read_n read n r') as [xs r'']. simpl in *.
  split; [intros Hr; rewrite H1 in * by done; auto | auto].
Qed.

(** A read that ends without an error started without one. *)
Lemma sound_None {A} (read : reader → A * reader) r x r' :
  sound read → read r = (x, r') → rd_err r' = None → rd_err r = None.
Proof.
  intros Hs Hr Hn. destruct (rd_err r) as [e|] eqn:E; [|done].
  destruct (Hs r) as [H1 _]. rewrite Hr in H1. simpl in H1.
  rewrite H1 in Hn by (by rewrite E). congruence.
Qed.

Lemma sound_ok {A} (read : reader → A * reader) r x r' :
  sound read → read r = (x, r') → reader_ok r → reader_ok r'.
Proof. intros Hs Hr Ho. destruct (Hs r) as [_ H]. rewrite Hr in H. auto. Qed.

(** ** What a successful read returns *)

Lemma read_n_length {A} (read : reader → A * reader) n r :
  length (read_n read n r).1 = n.
Proof.
  revert r. induction n as [|n IH]; intros r; [done|]. simpl.
  destruct (read r) as [x r']. specialize (IH r').
  destruct (read_n read n r') as [xs r'']. simpl in *. by rewrite IH.
Qed.

Lemma read_n_Forall {A} (read : reader → A * reader) (P : A → Prop) n r xs r' :
  sound read →
  (∀ r1 x r2, read r1 = (x, r2) → rd_err r2 = None → P x) →
  read_n read n r = (xs, r') → rd_err r' = None → Forall P xs.
Proof.
  intros Hs HP. revert r xs. induction n as [|n IH]; intros r xs; simpl.
  - intros [= <- <-]. constructor.
  - destruct (read r) as [x r1] eqn:E1. destruct (read_n read n r1) as [ys r2] eqn:E2.
    intros [= <- <-] Hn. constructor; [|by eapply IH].
    apply (HP r x r1); [done|].
    by apply (sound_None (read_n read n) r1 ys r2); [apply read_n_sound| |].
Qed.

Lemma read_rawTx_payload `{RLPLaws} r p r' :
  read_rawTx r = (p, r') → rd_err r' = None → p ≠ [].
Proof.
  unfold read_rawTx. destruct r as [buf [e|]]; simpl; [by intros [= <- <-]|].
  destruct buf as [|b buf]; [by intros [= <- <-]|].
  destruct (_ && _); [by intros [= <- <-]|].
  destruct (Stream_Raw _) as [[q rest]|] eqn:E; [|by intros [= <- <-]].
  apply Raw_prefix in E as [_ Hq]. destruct (_ <=? _); by intros [= <- <-].
Qed.

(** ** The wire format *)

(** binary.PutUvarint *)
Fixpoint put_uvarint_aux (rounds : nat) (v : Z) : bytes :=
  match rounds with
  | O => []
  | S rounds =>
      if v <? 128 then [wrap 8 v]
      else wrap 8 (v mod 128 + 128) :: put_uvarint_aux rounds (v / 128)
  end.

Definition put_uvarint (v : u64) : bytes := put_uvarint_aux 10 (uval v).

Lemma low7 b : 0 <= b < 128 → Z.land (b + 128) 127 = b.
Proof.
  intros Hb. apply Z.eqb_eq.
  by apply (check_range (λ b, Z.land (b + 128) 127 =? b) 128); [vm_compute|].
Qed.

Lemma lor_add_shiftl a b n :
  0 <= n → 0 <= a < 2 ^ n → Z.lor a (Z.shiftl b n) = a + b * 2 ^ n.
Proof. intros Hn Ha. rewrite Z.lor_comm, lor_shiftl_add by done. lia. Qed.

Lemma uvarint_roundtrip rounds : ∀ acc s v rest,
  (1 <= rounds <= 10)%nat → s = 7 * (10 - Z.of_nat rounds) →
  0 <= acc < 2 ^ s → 0 <= v < 2 ^ (64 - s) →
  uvarint_loop rounds (#64 acc) s (put_uvarint_aux rounds v ++ rest)
  = (#64 (acc + v * 2 ^ s), true, rest).
Proof.
  induction rounds as [|k IH]; intros acc s v rest Hk Hs Hacc Hv; [lia|].
  assert (2 ^ s * 2 ^ (64 - s) = modulus 64) as Hpow.
  { rewrite <-Z.pow_add_r by lia. by replace (s + (64 - s)) with 64 by lia. }
  cbn [put_uvarint_aux]. destruct (Z.ltb_spec v 128) as [Hsmall|Hbig].
  - cbn [app uvarint_loop]. assert (uval (wrap 8 v) = v) as -> by
      (apply uval_wrap_small; change (modulus 8) with 256; lia).
    destruct (Z.ltb_spec v 128); [|lia].
    assert ((k =? 0)%nat && (1 <? v) = false) as ->.
    { destruct (Nat.eqb_spec k 0) as [->|]; [|done]. simpl in Hs.
      replace (64 - s) with 1 in Hv by lia. apply Z.ltb_ge. lia. }
    rewrite uval_wrap_small by nia. by rewrite lor_add_shiftl by lia.
  - assert (128 <= v < 2 ^ (64 - s)) as Hv' by lia.
    assert (1 <= k)%nat as Hk1.
    { destruct k; [|lia]. replace (64 - s) with 1 in Hv' by lia. lia. }
    pose proof (Z.mod_pos_bound v 128 eq_refl) as Hmod.
    pose proof (Z.div_mod v 128 ltac:(done)) as Hdiv.
    assert (2 ^ (64 - s) = 2 ^ (64 - (s + 7)) * 128) as Hsplit.
    { change 128 with (2 ^ 7). rewrite <-Z.pow_add_r by lia. f_equal. lia. }
    assert (2 ^ (s + 7) = 2 ^ s * 128) as Hs7 by (rewrite Z.pow_add_r; lia).
    cbn [app]. cbn [uvarint_loop]. assert (uval (wrap 8 (v mod 128 + 128)) = v mod 128 + 128) as ->.
    { apply uval_wrap_small. change (modulus 8) with 256. lia. }
    destruct (Z.ltb_spec (v mod 128 + 128) 128); [lia|].
    rewrite low7, uval_wrap_small, lor_add_shiftl by nia.
    rewrite (IH (acc + v mod 128 * 2 ^ s) (s + 7) (v / 128)).
    + do 3 f_equal. rewrite Hs7. nia.
    + lia.
    + lia.
    + nia.
    + split; [by apply Z.div_pos; lia|]. apply Z.div_lt_upper_bound; lia.
Qed.

Lemma ReadUvarint_put v rest : ReadUvarint (put_uvarint v ++ rest) = (v, true, rest).
Proof.
  unfold ReadUvarint, put_uvarint. pose proof (uint_range v) as Hv.
  rewrite (uvarint_roundtrip 10 0 0 (uval v)); [| lia | done | done | done].
  by rewrite Z.pow_0_r, Z.mul_1_r, Z.add_0_l, wrap_uval.
Qed.

Lemma length_put_uvarint v : (1 <= length (put_uvarint v))%nat.
Proof. unfold put_uvarint. cbn [put_uvarint_aux]. destruct (_ <? _); simpl; lia. Qed.

(** Reading back what was written, with any continuation. *)
Definition reads_back {A} (read : reader → A * reader) (wire : bytes) (x : A) : Prop :=
  ∀ rest, read (mkReader (wire ++ rest) None) = (x, mkReader rest None).

Lemma read_u64_back v : reads_back read_u64 (put_uvarint v) v.
Proof. intros rest. unfold read_u64. simpl. by rewrite ReadUvarint_put. Qed.

Lemma read_data_back b n : uval n = len b → reads_back (λ r, read_data r n) b b.
Proof.
  intros Hn rest. unfold read_data, reader_Len. cbn [rd_err rd_buf].
  rewrite len_app, Hn. pose proof (len_nonneg rest).
  destruct (Z.ltb_spec (len b + len rest) (len b)); [lia|].
  unfold len. rewrite Nat2Z.id. by rewrite take_app_length, drop_app_length.
Qed.

Lemma read_n_back {A} (read : reader → A * reader) (wire : A → bytes) xs :
  (∀ x, x ∈ xs → reads_back read (wire x) x) →
  reads_back (read_n read (length xs)) (concat (wire <$> xs)) xs.
Proof.
  induction xs as [|x xs IH]; intros Hx rest; [done|].
  cbn [length read_n fmap list_fmap concat]. rewrite <-app_assoc, Hx by set_solver.
  rewrite IH; [done | set_solver].
Qed.

(** [n] bits as a big-endian integer in whole bytes. *)
Definition bits_width (n : Z) : nat := Z.to_nat ((n + 7) / 8).
Definition put_bits (n v : Z) : bytes := be_bytes (bits_width n) v.

Lemma BitLen_le v n : 0 <= v → 0 <= n → BitLen v <= n ↔ v < 2 ^ n.
Proof.
  intros Hv Hn. unfold BitLen. destruct (Z.eqb_spec v 0) as [->|].
  { split; [intros; apply Z.pow_pos_nonneg; lia | lia]. }
  rewrite Z.log2_lt_pow2 by lia. lia.
Qed.

Lemma read_bits_back n v :
  0 <= uval n < 2 ^ 63 → 0 <= v < 2 ^ uval n →
  reads_back (λ r, read_bits r n) (put_bits (uval n) v) v.
Proof.
  intros Hn Hv rest. unfold read_bits.
  assert (uval (wrap 64 (uval (uadd n (#64 7)) / 8)) = (uval n + 7) / 8) as Hw.
  { unfold uadd. change (uval (#64 7)) with 7.
    rewrite (uval_wrap_small 64 (uval n + 7)) by (change (modulus 64) with (2 ^ 63 * 2); lia).
    apply uval_wrap_small. change (modulus 64) with (2 ^ 63 * 2).
    split; [apply Z.div_pos; lia|]. apply Z.div_lt_upper_bound; lia. }
  rewrite read_data_back.
  2:{ rewrite Hw. unfold len, put_bits, bits_width. rewrite length_be_bytes, Z2Nat.id; [done|].
      apply Z.div_pos; lia. }
  unfold put_bits. rewrite be_value_be_bytes, Z.mod_small.
  - by rewrite (proj2 (Z.ltb_ge _ _)) by (apply BitLen_le; lia).
  - split; [lia|]. eapply Z.lt_le_trans; [apply Hv|].
    change 256 with (2 ^ 8). rewrite <-Z.pow_mul_r by lia.
    apply Z.pow_le_mono_r; [lia|]. unfold bits_width.
    rewrite Z2Nat.id by (apply Z.div_pos; lia).
    pose proof (Z.div_mod (uval n + 7) 8). pose proof (Z.mod_pos_bound (uval n + 7) 8). lia.
Qed.

(** A raw transaction on the wire: a legacy list, or a type byte 1 or 2 and
    an encoded value. *)
Definition wire_tx `{RLP} (p : bytes) : Prop :=
  match p with
  | [] => False
  | b :: q =>
      (127 < uval b ∧ ∀ rest, Stream_Raw (p ++ rest) = Some (p, rest)) ∨
      ((uval b = 1 ∨ uval b = 2) ∧ ∀ rest, Stream_Raw (q ++ rest) = Some (q, rest))
  end.

Lemma read_rawTx_back `{RLP} p : wire_tx p → reads_back read_rawTx p p.
Proof.
  destruct p as [|b q]; [done|]. intros [[Hb Hraw]|[Hb Hraw]] rest;
    unfold read_rawTx; cbn [rd_err rd_buf app].
  - destruct (Z.leb_spec (uval b) 127); [lia|]. simpl. specialize (Hraw rest). simpl in Hraw. by rewrite Hraw.
  - destruct (Z.leb_spec (uval b) 127); [|lia].
    assert ((uval b =? 1) || (uval b =? 2) = true) as -> by lia. simpl. by rewrite Hraw.
Qed.
