(* ===== verification/Span.v ===== *)
(** * Span batches (internal/blob/span.go)

    A compressed channel is a stream of RLP byte strings, each a version-1
    span batch; a span batch yields consecutive L2 blocks with their
    transactions.  Decompression, RLP and the transaction types of
    go-ethereum are parameters; the order of the wire fields, the bit fields
    and all index arithmetic are the program's own. *)
From S2P Require Import Prelude Word Geth StoreTypes BlobCodec SpanReader.

Definition maxElements : Z := 10000000.

(** ** Transactions (core/types) *)

Record TxCommon : Type := mkTxCommon {
  tcNonce : u64;
  tcGas : u64;
  tcTo : option Address;
  tcValue : Z;
  tcData : bytes;
  tcV : Z;
  tcR : Z;
  tcS : Z;
}.

(** The argument of [types.NewTx]: LegacyTx, AccessListTx, DynamicFeeTx. *)
Inductive TxData (AccessList : Type) : Type :=
  | LegacyTx (c : TxCommon) (gasPrice : Z)
  | AccessListTx (chainID : Z) (c : TxCommon) (gasPrice : Z) (al : AccessList)
  | DynamicFeeTx (chainID : Z) (c : TxCommon) (gasTipCap gasFeeCap : Z) (al : AccessList).
Arguments LegacyTx {_} c gasPrice.
Arguments AccessListTx {_} chainID c gasPrice al.
Arguments DynamicFeeTx {_} chainID c gasTipCap gasFeeCap al.

Definition tx_common {AL} (tx : TxData AL) : TxCommon :=
  match tx with
  | LegacyTx c _ | AccessListTx _ c _ _ | DynamicFeeTx _ c _ _ _ => c
  end.

(** [Transaction.Type]. *)
Definition tx_type {AL} (tx : TxData AL) : Z :=
  match tx with
  | LegacyTx _ _ => 0 | AccessListTx _ _ _ _ => 1 | DynamicFeeTx _ _ _ _ _ => 2
  end.

(** What the decoder uses of go-ethereum: [rlp.DecodeBytes] into the three
    payload structs, sender recovery, the canonical encoding, and text. *)
Class EthTx : Type := {
  AccessList : Type;
  Decode_Legacy : bytes → option (Z * Z * bytes);
  Decode_AccessList : bytes → option (Z * Z * bytes * AccessList);
  Decode_DynamicFee : bytes → option (Z * Z * Z * bytes * AccessList);
  Sender : u64 → TxData AccessList → option Address;
  MarshalBinary : TxData AccessList → result bytes;
  tx_GasPrice : TxData AccessList → Z;
  hexutil_EncodeBig : Z → string;
}.

(** What a decompressor yields: bytes, and whether it ends with an error. *)
Class Decompress : Type := {
  brotli : bytes → bytes * bool;
  zlib_NewReader : bytes → option (bytes * bool);
}.

(** [fmt] with %x: lower-case hexadecimal without leading zeros. *)
Fixpoint hex_digits (fuel : nat) (z : Z) (acc : string) : string :=
  match fuel with
  | O => acc
  | S fuel =>
      let acc := String (HexText.digit (z mod 16)) acc in
      if z / 16 =? 0 then acc else hex_digits fuel (z / 16) acc
  end.
Definition format_x (z : Z) : string := hex_digits (S (Z.to_nat (Z.log2 z / 4))) z "".

(** [big.Int.FillBytes] panics when the value does not fit. *)
Definition FillBytes (n : nat) (z : Z) : result bytes :=
  if z <? 256 ^ Z.of_nat n then Ok (be_bytes n z) else Panic.

(** ** The transaction columns *)

Record txFields : Type := mkFields {
  tfCreation : Z; tfParity : Z; tfProtected : Z; tfQueue : Z; tfSeqParity : Z;
  tfSigR : list Z; tfSigS : list Z; tfSeqR : list Z; tfSeqS : list Z;
  tfTos : list Address;
  tfPayloads : list bytes;
  tfNonces : list u64; tfGases : list u64;
  tfOrigins : list Address;
}.

Definition read_word (r : reader) : Z * reader :=
  let '(b, r) := read_data r (#64 32) in (be_value b, r).

Definition read_sig (r : reader) : (Z * Z) * reader :=
  let '(x, r) := read_word r in
  let '(y, r) := read_word r in
  ((x, y), r).

Definition read_address (r : reader) : Address * reader :=
  let '(b, r) := read_data r (#64 20) in (wrap 160 (be_value b), r).

(** [for i := range int(n) { if want(i) { append(BytesToAddress(data(20))) } }] *)
Fixpoint read_addresses (want : Z → bool) (i : Z) (n : nat) (r : reader) :
    list Address * reader :=
  match n with
  | O => ([], r)
  | S n =>
      if want i then
        let '(a, r) := read_address r in
        let '(l, r) := read_addresses want (i + 1) n r in
        (a :: l, r)
      else read_addresses want (i + 1) n r
  end.

(** [len(p) > 0 && p[0] > 0x7f] *)
Definition is_legacy (p : bytes) : bool :=
  match p with b :: _ => 127 <? uval b | [] => false end.

(** [extras[i] = r.data(r.u64())] *)
Definition read_extra (r : reader) : bytes * reader :=
  let '(n, r) := read_u64 r in read_data r n.

Section span.
Context `{RLP, EthTx, GethText}.

Definition readTransactions (r : reader) (n : u64) : result (txFields * reader) :=
  let times := Z.to_nat (uval n) in
  let '(creation, r) := read_bits r n in
  let '(parity, r) := read_bits r n in
  let '(sigs, r) := read_n read_sig times r in
  let '(tos, r) := read_addresses (λ i, negb (Z.testbit creation i)) 0 times r in
  let '(payloads, r) := read_n read_rawTx times r in
  let legacy := wrap 64 (len (filter is_legacy payloads)) in
  let! ' (nonces, r) := read_numbers r n in
  let! ' (gases, r) := read_numbers r n in
  let '(protected, r) := read_bits r legacy in
  let '(queue, r) := read_bits r n in
  let '(seqParity, r) := read_bits r n in
  let '(seqs, r) := read_n read_sig times r in
  let '(origins, r) := read_addresses (Z.testbit queue) 0 times r in
  Ok (mkFields creation parity protected queue seqParity
        sigs.*1 sigs.*2 seqs.*1 seqs.*2 tos payloads nonces gases origins, r).

Definition restoreTransaction (payload : bytes) (nonce gas : u64) (to : option Address)
    (chainID : u64) (r s : Z) (parity : Z) (protected : bool) :
    result (TxData AccessList) :=
  let id := uval chainID in
  let! p0 := at_ payload 0 in
  if 127 <? uval p0 then
    match Decode_Legacy payload with
    | None => Err (plain "rlp")
    | Some (value, gasPrice, data) =>
        let v := if protected then parity + (Z.shiftl id 1 + 35) else parity + 27 in
        Ok (LegacyTx (mkTxCommon nonce gas to value data v r s) gasPrice)
    end
  else if uval p0 =? 1 then
    let! body := slice_from payload 1 in
    match Decode_AccessList body with
    | None => Err (plain "rlp")
    | Some (value, gasPrice, data, al) =>
        Ok (AccessListTx id (mkTxCommon nonce gas to value data parity r s) gasPrice al)
    end
  else if uval p0 =? 2 then
    let! body := slice_from payload 1 in
    match Decode_DynamicFee body with
    | None => Err (plain "rlp")
    | Some (value, tip, fee, data, al) =>
        Ok (DynamicFeeTx id (mkTxCommon nonce gas to value data parity r s) tip fee al)
    end
  else Err (plain "unsupported transaction type").

(** The indices of [deriveBlocks] into the columns. *)
Record cursor : Type := mkCursor {
  cuTx : Z; cuTo : Z; cuOrigin : Z; cuLegacy : Z;
}.

(** One round of the inner loop. *)
Definition derive_tx (batchIndex chainID : u64) (f : txFields) (index timestamp origin : u64)
    (c : cursor) : result (BlockTransaction * cursor) :=
  let i := cuTx c in
  let! ' (to, toIndex) :=
    if negb (Z.testbit (tfCreation f) i)
    then let! a := at_ (tfTos f) (cuTo c) in Ok (Some a, cuTo c + 1)
    else Ok (None, cuTo c) in
  let! p := at_ (tfPayloads f) i in
  let! p0 := at_ p 0 in
  let '(protected, legacyIndex) :=
    if 127 <? uval p0 then (Z.testbit (tfProtected f) (cuLegacy c), cuLegacy c + 1)
    else (true, cuLegacy c) in
  let! nonce := at_ (tfNonces f) i in
  let! gas := at_ (tfGases f) i in
  let! r := at_ (tfSigR f) i in
  let! s := at_ (tfSigS f) i in
  let parity := Z.b2z (Z.testbit (tfParity f) i) in
  match restoreTransaction p nonce gas to chainID r s parity protected with
  | Panic => Panic
  | Err e => Err (wrapf ErrInvalid e)
  | Ok tx =>
      let gasLimit := pretty (uval (tcGas (tx_common tx))) in
      if Z.testbit (tfQueue f) i then
        let! o := at_ (tfOrigins f) (cuOrigin c) in
        Ok (mkBlockTx index batchIndex origin timestamp gasLimit zero_address o
              (hexutil_Encode (tcData (tx_common tx))) "l1" "0x0"
              (Some (tcNonce (tx_common tx))) None true None,
            mkCursor (i + 1) toIndex (cuOrigin c + 1) legacyIndex)
      else
        match Sender chainID tx with
        | None => Err (errorf ErrInvalid "invalid transaction signature")
        | Some _ =>
            let! raw := MarshalBinary tx in
            let value := hexutil_EncodeBig (tcValue (tx_common tx)) in
            let v := wrap 64 (if (tx_type tx =? 0) && negb protected
                              then parity + 27 else parity) in
            let! rb := FillBytes 32 r in
            let! sb := FillBytes 32 s in
            let! seqR := at_ (tfSeqR f) i in
            let! seqS := at_ (tfSeqS f) i in
            let sign := "0x" +:+ format_x seqR +:+ ",0x" +:+ format_x seqS +:+ ",0x" +:+
                        format_x (Z.b2z (Z.testbit (tfSeqParity f) i)) in
            let decoded :=
              mkDecoded (pretty (uval (tcNonce (tx_common tx)))) (pretty (tx_GasPrice tx))
                gasLimit value (tcTo (tx_common tx)) (hexutil_Encode (tcData (tx_common tx)))
                (mkSignature v (hexutil_Encode rb) (hexutil_Encode sb)) in
            Ok (mkBlockTx index batchIndex origin timestamp gasLimit zero_address zero_address
                  (hexutil_Encode raw) "sequencer" value None (Some decoded) true (Some sign),
                mkCursor (i + 1) toIndex (cuOrigin c) legacyIndex)
        end
  end.

Fixpoint derive_txs (batchIndex chainID : u64) (f : txFields) (index timestamp origin : u64)
    (n : nat) (c : cursor) : result (list BlockTransaction * cursor) :=
  match n with
  | O => Ok ([], c)
  | S n =>
      let! ' (x, c) := derive_tx batchIndex chainID f index timestamp origin c in
      let! ' (xs, c) := derive_txs batchIndex chainID f index timestamp origin n c in
      Ok (x :: xs, c)
  end.

(** One round of the outer loop. *)
Definition derive_block (start batchIndex chainID : u64) (origins times counts : list u64)
    (extras : list bytes) (f : txFields) (st : list Block * cursor) (i : nat) :
    result (list Block * cursor) :=
  let '(blocks, c) := st in
  let index := usub (uadd start (wrap 64 (Z.of_nat i))) (#64 1) in
  let! timestamp := at_ times (Z.of_nat i) in
  let! extra := at_ extras (Z.of_nat i) in
  let! n := at_ counts (Z.of_nat i) in
  (* origins[i] is read once per transaction; all the columns have one length *)
  let! origin := at_ origins (Z.of_nat i) in
  let! ' (txs, c) :=
    derive_txs batchIndex chainID f index timestamp origin (Z.to_nat (uval n)) c in
  let timestamp := if bool_decide (txs = []) then #64 0 else timestamp in
  Ok (blocks ++ [mkBlock index batchIndex timestamp (hexutil_Encode extra) txs true], c).

Definition deriveBlocks (start batchIndex chainID : u64) (origins times counts : list u64)
    (extras : list bytes) (f : txFields) : result (list Block) :=
  let! ' (blocks, _) :=
    foldM (derive_block start batchIndex chainID origins times counts extras f)
      ([], mkCursor 0 0 0 0) (seq 0 (length counts)) in
  Ok blocks.

(** The running total of the transaction counts. *)
Definition add_count (total n : u64) : result u64 :=
  fail_if uval (usub (wrap 64 maxElements) total) <? uval n
    with errorf ErrInvalid "span transaction count" ;;
  Ok (uadd total n).

Definition reader_check (r : reader) : result unit :=
  match rd_err r with Some e => Err e | None => Ok tt end.

Definition decodeSpan (data : bytes) (batchIndex chainID : u64) : result (list Block) :=
  let r := mkReader data None in
  let '(start, r) := read_u64 r in
  let '(_, r) := read_data r (#64 40) in
  let '(count, r) := read_u64 r in
  let! _ := reader_check r in
  fail_if (uval start =? 0) || (uval count =? 0) || (maxElements <? uval count)
          || (reader_Len r / 4 <? uval count)
          || ult (usub max_uint64 start) (usub count (#64 1))
    with errorf ErrInvalid "span block count/start" ;;
  let '(_, r) := read_bits r count in
  let! ' (origins, r) := read_numbers r count in
  let! ' (times, r) := read_numbers r count in
  let! ' (counts, r) := read_numbers r count in
  let! total := foldM add_count (#64 0) counts in
  let '(extras, r) := read_n read_extra (Z.to_nat (uval count)) r in
  let! _ := reader_check r in
  fail_if reader_Len r / 128 <? uval total
    with errorf ErrInvalid "truncated transaction signatures" ;;
  let! ' (fields, r) := readTransactions r total in
  let! _ := reader_check r in
  fail_if negb (reader_Len r =? 0) with errorf ErrInvalid "trailing span bytes" ;;
  deriveBlocks start batchIndex chainID origins times counts extras fields.

(** [io.ReadAll(io.LimitReader(reader, n))]: an error after the limit is
    never reached. *)
Definition read_limited (stream : bytes * bool) (n : Z) : result bytes :=
  let '(out, failed) := stream in
  if n <=? len out then Ok (take (Z.to_nat n) out)
  else if failed then Err (plain "read") else Ok out.

(** The loop over the RLP stream; every item consumes input. *)
Fixpoint decode_stream (fuel : nat) (payload : bytes) (batchIndex chainID : u64) :
    result (list Block) :=
  match fuel with
  | O => Panic
  | S fuel =>
      match Stream_Bytes payload with
      | RlpEOF => Ok []
      | RlpError => Err (errorf ErrInvalid "channel RLP")
      | RlpBytes raw rest =>
          match raw with
          | [] => Err (errorf ErrInvalid "unsupported batch type")
          | t :: data =>
              fail_if negb (uval t =? 1) with errorf ErrInvalid "unsupported batch type" ;;
              let! decoded := decodeSpan data batchIndex chainID in
              let! blocks := decode_stream fuel rest batchIndex chainID in
              Ok (decoded ++ blocks)
          end
      end
  end.

Definition decodeChannel `{Decompress} (data : bytes) (batchIndex chainID : u64) :
    result (list Block) :=
  match data with
  | [] => Err (errorf ErrInvalid "empty compressed channel")
  | b :: rest =>
      let! stream :=
        if uval b =? 1 then Ok (brotli rest)
        else match zlib_NewReader data with
             | None => Err (errorf ErrInvalid "invalid zlib channel")
             | Some s => Ok s
             end in
      match read_limited stream (MaxChannelBytes + 1) with
      | Ok payload =>
          fail_if MaxChannelBytes <? len payload
            with errorf ErrInvalid "invalid or oversized compressed channel" ;;
          decode_stream (S (length payload)) payload batchIndex chainID
      | _ => Err (errorf ErrInvalid "invalid or oversized compressed channel")
      end
  end.

End span.
