(* ===== verification/SpanFacts.v ===== *)
(** * Correctness of span decoding

    The decoder reads columns and then indexes them with four cursors.  The
    lengths of the columns and the cursors are both ranks of bit fields, so
    no index is ever out of range; block numbers are consecutive and do not
    wrap; every failure is ErrInvalid. *)
From S2P Require Import Prelude Word Geth StoreTypes BlobCodec SpanReader Span.

Class EthTxLaws `{EthTx} : Prop := {
  MarshalBinary_no_panic tx : MarshalBinary tx ≠ Panic;
}.

(** ** Ranks *)

(** How many of [i .. i+n-1] satisfy [P]. *)
Fixpoint rank (P : Z → bool) (i : Z) (n : nat) : nat :=
  match n with
  | O => O
  | S n => (if P i then 1 else 0) + rank P (i + 1) n
  end.

Lemma rank_snoc P i n :
  rank P i (S n) = (rank P i n + (if P (i + Z.of_nat n)%Z then 1 else 0))%nat.
Proof.
  revert i. induction n as [|n IH]; intros i.
  - simpl. rewrite Z.add_0_r. lia.
  - cbn [rank] in *. rewrite IH.
    replace (i + 1 + Z.of_nat n) with (i + Z.of_nat (S n)) by lia. lia.
Qed.

Lemma rank_le P n m : (n <= m)%nat → (rank P 0 n <= rank P 0 m)%nat.
Proof. induction 1 as [|m Hm IH]; [done|]. rewrite rank_snoc. lia. Qed.

Lemma rank_lt P k n : (k < n)%nat → P (Z.of_nat k) = true → (rank P 0 k < rank P 0 n)%nat.
Proof.
  intros Hk HP. pose proof (rank_le P (S k) n Hk) as Hle.
  rewrite rank_snoc, Z.add_0_l, HP in Hle. lia.
Qed.

Lemma length_read_addresses want i n r :
  length (read_addresses want i n r).1 = rank want i n.
Proof.
  revert i r. induction n as [|n IH]; intros i r; [done|]. simpl.
  destruct (want i); [|apply IH].
  destruct (read_address r) as [a r1]. specialize (IH (i + 1) r1).
  destruct (read_addresses want (i + 1) n r1). simpl in *. by rewrite IH.
Qed.

(** ** The columns *)

Definition word_range (z : Z) : Prop := 0 <= z < 256 ^ 32.

Record columns (n : nat) (f : txFields) : Prop := {
  col_payloads : length (tfPayloads f) = n;
  col_nonces : length (tfNonces f) = n;
  col_gases : length (tfGases f) = n;
  col_sigR : length (tfSigR f) = n;
  col_sigS : length (tfSigS f) = n;
  col_seqR : length (tfSeqR f) = n;
  col_seqS : length (tfSeqS f) = n;
  col_tos : length (tfTos f) = rank (λ i, negb (Z.testbit (tfCreation f) i)) 0 n;
  col_origins : length (tfOrigins f) = rank (Z.testbit (tfQueue f)) 0 n;
  col_payload : Forall (λ p, p ≠ []) (tfPayloads f);
  col_R : Forall word_range (tfSigR f);
  col_S : Forall word_range (tfSigS f);
}.

Lemma read_word_sound : sound read_word.
Proof.
  intros r. unfold read_word. destruct (read_data_sound (#64 32) r) as [H1 H2].
  by destruct (read_data r (#64 32)).
Qed.

Lemma read_sig_sound : sound read_sig.
Proof.
  intros r. unfold read_sig.
  destruct (read_word_sound r) as [H1 H2]. destruct (read_word r) as [x r1]. simpl in *.
  destruct (read_word_sound r1) as [H3 H4]. destruct (read_word r1) as [y r2]. simpl in *.
  split; [intros Hr; rewrite H1 in * by done; auto | auto].
Qed.

Lemma read_address_sound : sound read_address.
Proof.
  intros r. unfold read_address. destruct (read_data_sound (#64 20) r) as [H1 H2].
  by destruct (read_data r (#64 20)).
Qed.

Lemma read_extra_sound : sound read_extra.
Proof.
  intros r. unfold read_extra.
  destruct (read_u64_sound r) as [H1 H2]. destruct (read_u64 r) as [n r1]. simpl in *.
  destruct (read_data_sound n r1) as [H3 H4].
  split; [intros Hr; rewrite H1 in * by done; auto | auto].
Qed.

Lemma read_addresses_sound want i n : sound (read_addresses want i n).
Proof.
  revert i. induction n as [|n IH]; intros i r; [by split|]. simpl.
  destruct (want i); [|apply IH].
  destruct (read_address_sound r) as [H1 H2]. destruct (read_address r) as [a r1]. simpl in *.
  destruct (IH (i + 1) r1) as [H3 H4]. destruct (read_addresses want (i + 1) n r1). simpl in *.
  split; [intros Hr; rewrite H1 in * by done; auto | auto].
Qed.

#[export] Hint Resolve read_data_sound read_u64_sound read_bits_sound read_rawTx_sound
  read_n_sound read_sig_sound read_addresses_sound read_extra_sound : span.

Lemma read_word_range r x r' : read_word r = (x, r') → word_range x.
Proof.
  unfold read_word. destruct (read_data r (#64 32)) as [b r1] eqn:E. intros [= <- <-].
  assert (length b <= 32)%nat as Hb.
  { unfold read_data in E. destruct (rd_err r); [injection E as <- <-; simpl; lia|].
    destruct (_ <? _).
    - injection E as <- <-. simpl. lia.
    - injection E as <- <-. rewrite length_take.
      apply Nat.le_min_l. }
  pose proof (be_value_range b) as Hr. split; [by apply Hr|].
  eapply Z.lt_le_trans; [apply Hr|]. apply Z.pow_le_mono_r; [done | lia].
Qed.

Lemma read_sigs_range n r l r' :
  read_n read_sig n r = (l, r') → Forall (λ p, word_range p.1 ∧ word_range p.2) l.
Proof.
  revert r l. induction n as [|n IH]; intros r l; simpl; [intros [= <- <-]; constructor|].
  destruct (read_sig r) as [p r1] eqn:E1. destruct (read_n read_sig n r1) as [l' r2] eqn:E2.
  intros [= <- <-]. constructor; [|by eapply IH].
  unfold read_sig in E1. destruct (read_word r) as [x ra] eqn:Ex.
  destruct (read_word ra) as [y rb] eqn:Ey. simplify_eq/=. split; eapply read_word_range; eassumption.
Qed.

Lemma read_n_length_eq {A} (read : reader → A * reader) n r l r' :
  read_n read n r = (l, r') → length l = n.
Proof. intros E. pose proof (read_n_length read n r) as Hl. by rewrite E in Hl. Qed.

Section columns_read.
Context `{RLPLaws}.

Lemma readTransactions_columns r n f r' :
  readTransactions r n = Ok (f, r') → rd_err r' = None →
  columns (Z.to_nat (uval n)) f.
Proof.
  unfold readTransactions, read_numbers. intros Hf Hn.
  destruct (read_bits r n) as [creation r1] eqn:E1.
  destruct (read_bits r1 n) as [parity r2] eqn:E2.
  set (k := Z.to_nat (uval n)) in *.
  destruct (read_n read_sig k r2) as [sigs r3] eqn:E3.
  destruct (read_addresses _ 0 k r3) as [tos r4] eqn:E4.
  destruct (read_n read_rawTx k r4) as [payloads r5] eqn:E5.
  destruct (2 ^ 63 <=? uval n); [done|]. cbn [bind] in Hf.
  destruct (read_n read_u64 k r5) as [nonces r6] eqn:E6.
  destruct (read_n read_u64 k r6) as [gases r7] eqn:E7.
  set (leg := wrap 64 (len (filter is_legacy payloads))) in *.
  destruct (read_bits r7 leg) as [protected r8] eqn:E8.
  destruct (read_bits r8 n) as [queue r9] eqn:E9.
  destruct (read_bits r9 n) as [seqParity r10] eqn:E10.
  destruct (read_n read_sig k r10) as [seqs r11] eqn:E11.
  destruct (read_addresses (Z.testbit queue) 0 k r11) as [origins r12] eqn:E12.
  injection Hf as <- <-.
  pose proof (read_sigs_range _ _ _ _ E3) as Hrange.
  pose proof (length_read_addresses (λ i, negb (Z.testbit creation i)) 0 k r3) as Htos.
  rewrite E4 in Htos.
  pose proof (length_read_addresses (Z.testbit queue) 0 k r11) as Horg. rewrite E12 in Horg.
  pose proof (sound_None (read_addresses (Z.testbit queue) 0 k) _ _ _ ltac:(eauto with span) E12 Hn) as N11.
  pose proof (sound_None (read_n read_sig k) _ _ _ ltac:(eauto with span) E11 N11) as N10.
  pose proof (sound_None (λ r, read_bits r n) _ _ _ ltac:(eauto with span) E10 N10) as N9.
  pose proof (sound_None (λ r, read_bits r n) _ _ _ ltac:(eauto with span) E9 N9) as N8.
  pose proof (sound_None (λ r, read_bits r leg) _ _ _ ltac:(eauto with span) E8 N8) as N7.
  pose proof (sound_None (read_n read_u64 k) _ _ _ ltac:(eauto with span) E7 N7) as N6.
  pose proof (sound_None (read_n read_u64 k) _ _ _ ltac:(eauto with span) E6 N6) as N5.
  apply read_n_length_eq in E3, E6, E7, E11. pose proof (read_n_length_eq _ _ _ _ _ E5).
  constructor; simpl in *; rewrite ?length_fmap; try done.
  - eapply (read_n_Forall read_rawTx); [eauto with span | | exact E5 | exact N5].
    intros ???. apply read_rawTx_payload.
  - apply Forall_fmap. eapply Forall_impl; [exact Hrange|]. by intros ? [].
  - apply Forall_fmap. eapply Forall_impl; [exact Hrange|]. by intros ? [].
Qed.

(** Run one read of a sequence, keeping that the reader is sound. *)
Ltac read_step Hok :=
  match goal with
  | |- context [let '(_, _) := ?x in _] =>
      let E := fresh "E" in let r := fresh "r" in
      destruct x as [? r] eqn:E;
      lazymatch type of E with
      | read_bits _ ?n = _ =>
          apply (sound_ok (λ r, read_bits r n)) in E; [|eauto with span|exact Hok]
      | ?read _ = _ => apply (sound_ok read) in E; [|eauto with span|exact Hok]
      end; clear Hok; rename E into Hok
  end.

Lemma readTransactions_ok r n :
  uval n < 2 ^ 63 → reader_ok r →
  ∃ f r', readTransactions r n = Ok (f, r') ∧ reader_ok r'.
Proof.
  intros Hn Hr. unfold readTransactions, read_numbers. apply Z.leb_gt in Hn. rewrite Hn.
  repeat (cbn [bind]; read_step Hr). eauto.
Qed.

End columns_read.

(** ** Deriving blocks *)

Section derive.
Context `{EthTxLaws, GethText}.

(** An error of the decoder: ErrInvalid, or the encoder refused a
    transaction. *)
Definition span_error (e : error) : Prop :=
  errors_Is e ErrInvalid = true ∨ ∃ tx, MarshalBinary tx = Err e.

(** What the decoder promises of one transaction. *)
Definition tx_ok (chainID index batchIndex timestamp origin : u64) (x : BlockTransaction) : Prop :=
  xIndex x = index ∧ xBatchIndex x = batchIndex ∧ xTimestamp x = timestamp ∧
  xBlockNumber x = origin ∧ xConfirmed x = true ∧
  ((xQueueOrigin x = "l1" ∧ is_Some (xQueueIndex x) ∧ xDecoded x = None ∧ xSeqSign x = None) ∨
   (xQueueOrigin x = "sequencer" ∧ xQueueIndex x = None ∧ is_Some (xSeqSign x) ∧
    ∃ tx raw d, is_Some (Sender chainID tx) ∧ MarshalBinary tx = Ok raw ∧
      xData x = hexutil_Encode raw ∧ xDecoded x = Some d ∧
      dNonce d = pretty (uval (tcNonce (tx_common tx))) ∧
      dTarget d = tcTo (tx_common tx) ∧ dGasLimit d = xGasLimit x)).

(** The cursors after [k] transactions. *)
Definition cursor_at (f : txFields) (k : nat) (c : cursor) : Prop :=
  cuTx c = Z.of_nat k ∧
  cuTo c = Z.of_nat (rank (λ i, negb (Z.testbit (tfCreation f) i)) 0 k) ∧
  cuOrigin c = Z.of_nat (rank (Z.testbit (tfQueue f)) 0 k).

Lemma column_at {A} (l : list A) n k :
  length l = n → (k < n)%nat → ∃ x, at_ l (Z.of_nat k) = Ok x ∧ x ∈ l.
Proof.
  intros Hl Hk. destruct (at_no_panic l (Z.of_nat k)) as (x & Hx & Hin); [unfold len; lia|].
  exists x. split; [done|]. by eapply list_elem_of_lookup_2.
Qed.

Lemma restoreTransaction_cases payload nonce gas to chainID r s parity protected :
  payload ≠ [] →
  (∃ tx, restoreTransaction payload nonce gas to chainID r s parity protected = Ok tx) ∨
  (∃ e, restoreTransaction payload nonce gas to chainID r s parity protected = Err e).
Proof.
  intros Hp. destruct payload as [|b p]; [done|]. unfold restoreTransaction.
  change (at_ (b :: p) 0) with (Ok b). cbn [bind].
  assert (slice_from (b :: p) 1 = Ok p) as Hbody.
  { unfold slice_from. pose proof (len_nonneg p).
    rewrite slice_ok by (rewrite ?len_cons; lia).
    change (drop (Z.to_nat 1) (b :: p)) with p. f_equal. apply take_ge.
    rewrite len_cons. unfold len. lia. }
  repeat case_match; rewrite ?Hbody; cbn [bind]; repeat case_match; eauto.
Qed.

Lemma FillBytes_ok z : word_range z → FillBytes 32 z = Ok (be_bytes 32 z).
Proof. intros Hz. unfold FillBytes. destruct Hz as [_ Hz].
  change (256 ^ 32) with (256 ^ Z.of_nat 32) in Hz. apply Z.ltb_lt in Hz. by rewrite Hz.
Qed.

Lemma derive_tx_cases batchIndex chainID f index timestamp origin n k c :
  columns n f → (k < n)%nat → cursor_at f k c →
  (∃ x c', derive_tx batchIndex chainID f index timestamp origin c = Ok (x, c') ∧
    cursor_at f (S k) c' ∧ tx_ok chainID index batchIndex timestamp origin x) ∨
  (∃ e, derive_tx batchIndex chainID f index timestamp origin c = Err e ∧ span_error e).
Proof.
  intros [] Hk (Htx & Hto & Horg). unfold derive_tx. rewrite Htx.
  destruct (column_at _ _ _ col_payloads0 Hk) as (p & -> & Hp).
  destruct (column_at _ _ _ col_nonces0 Hk) as (nonce & -> & _).
  destruct (column_at _ _ _ col_gases0 Hk) as (gas & -> & _).
  destruct (column_at _ _ _ col_sigR0 Hk) as (r & -> & Hr).
  destruct (column_at _ _ _ col_sigS0 Hk) as (s & -> & Hs).
  destruct (column_at _ _ _ col_seqR0 Hk) as (sr & -> & _).
  destruct (column_at _ _ _ col_seqS0 Hk) as (ss & -> & _).
  assert (p ≠ []) as Hne by (by eapply Forall_forall in col_payload0).
  assert (word_range r) as HR by (by eapply Forall_forall in col_R0).
  assert (word_range s) as HS by (by eapply Forall_forall in col_S0).
  (* the target *)
  assert (∃ to, (if negb (Z.testbit (tfCreation f) (Z.of_nat k))
    then let! a := at_ (tfTos f) (cuTo c) in Ok (Some a, cuTo c + 1)
    else Ok (None, cuTo c)) =
    Ok (to, Z.of_nat (rank (λ i, negb (Z.testbit (tfCreation f) i)) 0 (S k)))) as [to ->].
  { rewrite rank_snoc, Z.add_0_l, Hto.
    destruct (negb (Z.testbit (tfCreation f) (Z.of_nat k))) eqn:Eb.
    - edestruct (column_at (tfTos f)) as (a & -> & _); [exact col_tos0 | by apply rank_lt |].
      exists (Some a). simpl. do 2 f_equal. lia.
    - exists None. do 2 f_equal. lia. }
  cbn [bind]. destruct (at_ p 0) as [p0| |] eqn:Ep0.
  2,3: destruct p; by rewrite ?(at_middle []) in Ep0.
  cbn [bind].
  destruct (if 127 <? uval p0 then _ else _) as [protected leg].
  destruct (restoreTransaction_cases p nonce gas to chainID r s
    (Z.b2z (Z.testbit (tfParity f) (Z.of_nat k))) protected Hne)
    as [[tx ->]|[e ->]].
  2:{ right. eexists. split; [done|]. left. done. }
  destruct (Z.testbit (tfQueue f) (Z.of_nat k)) eqn:Eq.
  - left. rewrite Horg. edestruct (column_at (tfOrigins f)) as (o & -> & _);
      [exact col_origins0 | by apply rank_lt |]. cbn [bind].
    eexists _, _. split; [done|]. split.
    + repeat split; cbn [cuTx cuTo cuOrigin]; [lia | rewrite rank_snoc, Z.add_0_l, Eq; lia].
    + repeat split. left. by repeat split.
  - destruct (Sender chainID tx) as [a|] eqn:Es.
    2:{ right. eexists. split; [done|]. by left. }
    destruct (MarshalBinary tx) as [raw|e|] eqn:Em; cbn [bind].
    3:{ by destruct (MarshalBinary_no_panic tx). }
    2:{ right. exists e. split; [done|]. right. by exists tx. }
    rewrite !FillBytes_ok by done. cbn [bind]. left. eexists _, _. split; [done|]. split.
    + repeat split; cbn [cuTx cuTo cuOrigin]; [lia | rewrite Horg, rank_snoc, Z.add_0_l, Eq; lia].
    + repeat split. right. repeat split; [done|]. exists tx, raw. eexists.
      repeat split; [by rewrite Es | done].
Qed.

Lemma derive_txs_cases batchIndex chainID f index timestamp origin n m : ∀ k c,
  columns n f → (k + m <= n)%nat → cursor_at f k c →
  (∃ xs c', derive_txs batchIndex chainID f index timestamp origin m c = Ok (xs, c') ∧
    cursor_at f (k + m) c' ∧ length xs = m ∧
    Forall (tx_ok chainID index batchIndex timestamp origin) xs) ∨
  (∃ e, derive_txs batchIndex chainID f index timestamp origin m c = Err e ∧ span_error e).
Proof.
  induction m as [|m IH]; intros k c Hf Hk Hc; simpl.
  { left. exists [], c. rewrite Nat.add_0_r. by split_and!. }
  destruct (derive_tx_cases batchIndex chainID f index timestamp origin n k c Hf)
    as [(x & c1 & -> & Hc1 & Hx)|(e & -> & He)]; [lia | done | | right; by exists e].
  cbn [bind]. destruct (IH (S k) c1 Hf) as [(xs & c2 & -> & Hc2 & Hl & Hxs)|(e & -> & He)];
    [lia | done | | right; by exists e].
  left. exists (x :: xs), c2. cbn [bind]. rewrite Nat.add_succ_r.
  split_and!; [done | done | simpl; by rewrite Hl | by constructor].
Qed.

(** What the decoder promises of the block at position [i]. *)
Definition block_ok (chainID start batchIndex : u64) (i : nat) (b : Block) : Prop :=
  uval (bIndex b) = uval start - 1 + Z.of_nat i ∧ bBatchIndex b = batchIndex ∧
  bConfirmed b = true ∧ (bTransactions b = [] → bTimestamp b = #64 0) ∧
  ∃ origin, Forall (tx_ok chainID (bIndex b) batchIndex (bTimestamp b) origin) (bTransactions b).

(** Consecutive blocks from [start - 1] on with as many transactions as the
    counts say. *)
Definition blocks_ok (chainID start batchIndex : u64) (counts : list u64)
    (blocks : list Block) : Prop :=
  length blocks = length counts ∧
  ∀ i b, blocks !! i = Some b → block_ok chainID start batchIndex i b ∧
    ∃ n, counts !! i = Some n ∧ length (bTransactions b) = Z.to_nat (uval n).

Definition txs_in (counts : list u64) : nat := sum_list_with (λ n, Z.to_nat (uval n)) counts.

Lemma txs_in_take counts i n :
  counts !! i = Some n → txs_in (take (S i) counts) = (txs_in (take i counts) + Z.to_nat (uval n))%nat.
Proof.
  intros Hn. rewrite (take_S_r _ _ _ Hn). unfold txs_in.
  rewrite sum_list_with_app. simpl. lia.
Qed.

Lemma txs_in_take_le counts i : (txs_in (take i counts) <= txs_in counts)%nat.
Proof.
  rewrite <-(take_drop i counts) at 2. unfold txs_in. rewrite sum_list_with_app. lia.
Qed.

Lemma derive_index start i :
  1 <= uval start → uval start + Z.of_nat i < modulus 64 →
  uval (usub (uadd start (wrap 64 (Z.of_nat i))) (#64 1)) = uval start - 1 + Z.of_nat i.
Proof.
  intros Hs Hi. pose proof (uint_range start). unfold usub, uadd. change (uval (#64 1)) with 1.
  rewrite !uval_wrap, (Z.mod_small (Z.of_nat i)) by lia.
  rewrite (Z.mod_small (uval start + Z.of_nat i)) by lia. rewrite Z.mod_small; lia.
Qed.

Section blocks.
Context (chainID start batchIndex : u64) (origins times counts : list u64)
  (extras : list bytes) (f : txFields).
Hypothesis Horigins : length origins = length counts.
Hypothesis Htimes : length times = length counts.
Hypothesis Hextras : length extras = length counts.
Hypothesis Hstart : 1 <= uval start.
Hypothesis Hrange : uval start + len counts <= modulus 64.
Hypothesis Hcolumns : columns (txs_in counts) f.

Lemma derive_block_cases i blocks c :
  (i < length counts)%nat → length blocks = i →
  (∀ j b, blocks !! j = Some b → block_ok chainID start batchIndex j b ∧
    ∃ n, counts !! j = Some n ∧ length (bTransactions b) = Z.to_nat (uval n)) →
  cursor_at f (txs_in (take i counts)) c →
  (∃ b c', derive_block start batchIndex chainID origins times counts extras f (blocks, c) i
      = Ok (blocks ++ [b], c') ∧
    block_ok chainID start batchIndex i b ∧
    (∃ n, counts !! i = Some n ∧ length (bTransactions b) = Z.to_nat (uval n)) ∧
    cursor_at f (txs_in (take (S i) counts)) c') ∨
  (∃ e, derive_block start batchIndex chainID origins times counts extras f (blocks, c) i
      = Err e ∧ span_error e).
Proof.
  intros Hi Hl Hb Hc. unfold derive_block.
  destruct (column_at times _ _ Htimes Hi) as (ts & -> & _).
  destruct (column_at extras _ _ Hextras Hi) as (ex & -> & _).
  destruct (column_at origins _ _ Horigins Hi) as (o & -> & _).
  destruct (lookup_lt_is_Some_2 counts i Hi) as [n Hn].
  assert (at_ counts (Z.of_nat i) = Ok n) as ->.
  { unfold at_. destruct (Z.leb_spec 0 (Z.of_nat i)); [|lia]. by rewrite Nat2Z.id, Hn. }
  cbn [bind]. set (index := usub _ _).
  assert (uval index = uval start - 1 + Z.of_nat i) as Hindex.
  { apply derive_index; [done|]. unfold len in Hrange. lia. }
  pose proof (txs_in_take counts i n Hn) as Htake.
  pose proof (txs_in_take_le counts (S i)) as Hle.
  destruct (derive_txs_cases batchIndex chainID f index ts o (txs_in counts)
    (Z.to_nat (uval n)) (txs_in (take i counts)) c Hcolumns ltac:(lia) Hc)
    as [(xs & c' & -> & Hc' & Hlen & Hxs)|(e & -> & He)]; [|right; by exists e].
  left. cbn [bind]. eexists _, c'. split; [done|]. split_and!.
  - split_and!; simpl; [done..| |].
    + intros Hnil. by rewrite bool_decide_true by done.
    + exists o. case_bool_decide as E; [rewrite E; constructor | done].
  - by exists n.
  - by rewrite Htake.
Qed.

Lemma deriveBlocks_cases :
  (∃ blocks, deriveBlocks start batchIndex chainID origins times counts extras f = Ok blocks ∧
    blocks_ok chainID start batchIndex counts blocks) ∨
  (∃ e, deriveBlocks start batchIndex chainID origins times counts extras f = Err e ∧
    span_error e).
Proof.
  unfold deriveBlocks.
  assert (∀ m i blocks c, (i + m = length counts)%nat → length blocks = i →
    (∀ j b, blocks !! j = Some b → block_ok chainID start batchIndex j b ∧
      ∃ n, counts !! j = Some n ∧ length (bTransactions b) = Z.to_nat (uval n)) →
    cursor_at f (txs_in (take i counts)) c →
    (∃ bs c', foldM (derive_block start batchIndex chainID origins times counts extras f)
       (blocks, c) (seq i m) = Ok (bs, c') ∧ blocks_ok chainID start batchIndex counts bs) ∨
    (∃ e, foldM (derive_block start batchIndex chainID origins times counts extras f)
       (blocks, c) (seq i m) = Err e ∧ span_error e)) as Hgen.
  { induction m as [|m IH]; intros i blocks c Him Hl Hb Hc; cbn [foldM seq].
    { left. exists blocks, c. split; [done|]. split; [lia | done]. }
    destruct (derive_block_cases i blocks c ltac:(lia) Hl Hb Hc)
      as [(b & c' & Hd & Hok & Hn & Hc')|(e & Hd & He)]; rewrite Hd; cbn [bind];
      [|right; by exists e].
    apply IH; [lia | rewrite length_app; simpl; lia | | done].
    intros j x [Hj|[Hj Hx]]%lookup_app_Some; [by apply Hb|].
    apply list_lookup_singleton_Some in Hx as [Hj0 <-].
    by replace j with i by lia. }
  destruct (Hgen (length counts) 0%nat [] (mkCursor 0 0 0 0))
    as [(bs & c' & -> & Hbs)|(e & -> & He)]; try done.
  - left. by exists bs.
  - right. by exists e.
Qed.
End blocks.

End derive.
