(* ===== verification/SpanTheorems.v ===== *)
(** * What span decoding guarantees

    Totality and well-formedness of the decoded blocks, and the round trip
    of the wire format. *)
From S2P Require Import Prelude Word Geth StoreTypes BlobCodec SpanReader Span SpanFacts.

Lemma add_count_spec counts : ∀ total : u64,
  uval total <= maxElements →
  (∃ t, foldM add_count total counts = Ok t ∧ uval t <= maxElements ∧
    uval t = uval total + Z.of_nat (txs_in counts)) ∨
  (maxElements < uval total + Z.of_nat (txs_in counts) ∧ ∃ e, foldM add_count total counts = Err e ∧ errors_Is e ErrInvalid = true).
Proof.
  assert (maxElements = 10000000) as Hmax by done.
  induction counts as [|n counts IH]; intros total Ht; cbn [foldM].
  { left. exists total. unfold txs_in. simpl. split_and!; [done | done | lia]. }
  unfold add_count at 1 3. pose proof (uint_range total). pose proof (uint_range n).
  assert (uval (usub (wrap 64 maxElements) total) = maxElements - uval total) as ->.
  { unfold usub. rewrite (uval_wrap_small 64 maxElements) by (rewrite Hmax; done).
    apply uval_wrap_small. change (modulus 64) with 18446744073709551616. lia. }
  destruct (Z.ltb_spec (maxElements - uval total) (uval n)); cbn [bind].
  { right. unfold txs_in. simpl. split; [lia|]. by eexists. }
  assert (uval (uadd total n) = uval total + uval n) as Hadd.
  { apply uval_wrap_small. change (modulus 64) with 18446744073709551616. lia. }
  destruct (IH (uadd total n)) as [(t & -> & Hle & Hv)|(Hlt & e & -> & He)]; [lia| |].
  - left. exists t. split_and!; [done | done |]. rewrite Hv, Hadd. unfold txs_in. simpl. lia.
  - right. unfold txs_in in *. simpl. split; [lia|]. by exists e.
Qed.

Section total.
Context `{RLPLaws, EthTxLaws, GethText}.

Lemma reader_check_err r :
  reader_ok r → (rd_err r = None ∧ reader_check r = Ok tt) ∨
  (∃ e, reader_check r = Err e ∧ span_error e).
Proof.
  unfold reader_check, reader_ok. destruct (rd_err r) as [e|]; [|by left].
  intros He. right. exists e. split; [done | by left].
Qed.

(** The outcome of decoding one span. *)
Definition span_result (batchIndex chainID : u64) (blocks : list Block) : Prop :=
  ∃ start counts, counts ≠ [] ∧ 1 <= uval start ∧
    uval start - 1 + len counts < modulus 64 ∧
    blocks_ok chainID start batchIndex counts blocks.

Lemma decodeSpan_cases data batchIndex chainID :
  (∃ blocks, decodeSpan data batchIndex chainID = Ok blocks ∧
    span_result batchIndex chainID blocks) ∨
  (∃ e, decodeSpan data batchIndex chainID = Err e ∧ span_error e).
Proof.
  assert (maxElements = 10000000) as Hmax by done.
  assert (∀ msg, errors_Is (errorf ErrInvalid msg) ErrInvalid = true) as Hinv by done.
  unfold decodeSpan.
  assert (reader_ok (mkReader data None)) as Hr by done.
  destruct (read_u64 (mkReader data None)) as [start r1] eqn:E1.
  apply (sound_ok read_u64) in E1; [|eauto with span|done].
  destruct (read_data r1 (#64 40)) as [x r2] eqn:E2.
  apply (sound_ok (λ r, read_data r (#64 40))) in E2; [|eauto with span|done].
  destruct (read_u64 r2) as [count r3] eqn:E3.
  apply (sound_ok read_u64) in E3; [|eauto with span|done].
  destruct (reader_check_err r3) as [[_ ->]|(e & -> & He)]; [done| |by right; exists e].
  cbn [bind].
  destruct (_ || _) eqn:Hg; [right; eexists; split; [done | by left]|].
  unfold ult in Hg. bool_to_prop.
  pose proof (uint_range start) as Hsr. pose proof (uint_range count) as Hcr.
  destruct (read_bits r3 count) as [y r4] eqn:E4.
  apply (sound_ok (λ r, read_bits r count)) in E4; [|eauto with span|done].
  unfold read_numbers.
  destruct (Z.leb_spec (2 ^ 63) (uval count)); [lia|]. cbn [bind].
  set (k := Z.to_nat (uval count)).
  destruct (read_n read_u64 k r4) as [origins r5] eqn:E5.
  pose proof (read_n_length_eq _ _ _ _ _ E5) as L5.
  apply (sound_ok (read_n read_u64 k)) in E5; [|eauto with span|done].
  destruct (read_n read_u64 k r5) as [times r6] eqn:E6.
  pose proof (read_n_length_eq _ _ _ _ _ E6) as L6.
  apply (sound_ok (read_n read_u64 k)) in E6; [|eauto with span|done].
  destruct (read_n read_u64 k r6) as [counts r7] eqn:E7.
  pose proof (read_n_length_eq _ _ _ _ _ E7) as L7.
  apply (sound_ok (read_n read_u64 k)) in E7; [|eauto with span|done].
  destruct (add_count_spec counts (#64 0)) as [(total & -> & Htm & Ht)|(_ & e & -> & He)];
    [by rewrite Hmax| |right; exists e; split; [done | by left]].
  cbn [bind]. change (uval (#64 0)) with 0 in Ht. rewrite Z.add_0_l in Ht.
  destruct (read_n read_extra k r7) as [extras r8] eqn:E8.
  pose proof (read_n_length_eq _ _ _ _ _ E8) as L8.
  apply (sound_ok (read_n read_extra k)) in E8; [|eauto with span|done].
  destruct (reader_check_err r8) as [[_ ->]|(e & -> & He)]; [done| |by right; exists e].
  cbn [bind].
  destruct (_ <? uval total); [right; eexists; split; [done | by left]|].
  destruct (readTransactions_ok r8 total) as (f & r9 & Ef & E9); [lia | done |].
  rewrite Ef. cbn [bind].
  destruct (reader_check_err r9) as [[N9 ->]|(e & -> & He)]; [done| |by right; exists e].
  cbn [bind].
  apply readTransactions_columns in Ef; [|done].
  rewrite Ht, Nat2Z.id in Ef.
  destruct (negb _); [right; eexists; split; [done | by left]|].
  assert (uval (usub max_uint64 start) = modulus 64 - 1 - uval start) as Hsub.
  { unfold usub. rewrite uval_max_uint64, uval_wrap_small; change (modulus 64) with (2 ^ 64) in *; lia. }
  assert (uval (usub count (#64 1)) = uval count - 1) as Hc1.
  { unfold usub. change (uval (#64 1)) with 1. by rewrite uval_wrap_small by lia. }
  assert (len counts = uval count) as Hlen by (unfold len; lia).
  destruct (deriveBlocks_cases chainID start batchIndex origins times counts extras f)
    as [(blocks & -> & Hb)|(e & -> & He)]; [lia..| done | |].
  - left. exists blocks. split; [done|]. exists start, counts. split_and!; [|lia|lia|done].
    intros ->. simpl in L7. lia.
  - right. by exists e.
Qed.

(** [C8] Span decoding is total: on every input it returns blocks or an
    error, it never indexes a column out of range, never calls [make] with a
    negative length and [big.Int.FillBytes] always fits.  The blocks it
    returns are numbered consecutively from [start - 1] without wrap-around,
    carry the batch index, hold as many transactions as announced (each with
    the fields of its block, from L1 with a queue index or from the sequencer
    with a recovered sender and the re-encoded transaction), and an empty
    block has timestamp zero.  An error is ErrInvalid unless go-ethereum
    refused to encode a transaction. *)
Theorem decodeSpan_safe data batchIndex chainID :
  (∃ blocks, decodeSpan data batchIndex chainID = Ok blocks ∧
    span_result batchIndex chainID blocks) ∨
  (∃ e, decodeSpan data batchIndex chainID = Err e ∧ span_error e).
Proof. apply decodeSpan_cases. Qed.

Lemma decode_stream_cases batchIndex chainID fuel : ∀ payload,
  (length payload < fuel)%nat →
  (∃ spans, decode_stream fuel payload batchIndex chainID = Ok (concat spans) ∧
    Forall (span_result batchIndex chainID) spans) ∨
  (∃ e, decode_stream fuel payload batchIndex chainID = Err e ∧ span_error e).
Proof.
  induction fuel as [|fuel IH]; intros payload Hf; [lia|]. simpl.
  destruct (Stream_Bytes payload) as [raw rest| |] eqn:E.
  - apply Bytes_consumes in E. destruct raw as [|t data].
    { right. eexists. split; [done | by left]. }
    destruct (negb _); [right; eexists; split; [done | by left]|].
    destruct (decodeSpan_cases data batchIndex chainID) as [(bs & -> & Hbs)|(e & -> & He)];
      cbn [bind]; [|right; by exists e].
    destruct (IH rest) as [(spans & -> & Hs)|(e & -> & He)]; [lia| |right; by exists e].
    left. exists (bs :: spans). split; [done | by constructor].
  - left. exists []. split; [done | constructor].
  - right. eexists. split; [done | by left].
Qed.

Lemma decodeChannel_cases `{Decompress} data batchIndex chainID :
  (∃ spans, decodeChannel data batchIndex chainID = Ok (concat spans) ∧
    Forall (span_result batchIndex chainID) spans) ∨
  (∃ e, decodeChannel data batchIndex chainID = Err e ∧ span_error e).
Proof.
  assert (∀ msg, span_error (errorf ErrInvalid msg)) as Hinv by (by left).
  unfold decodeChannel. destruct data as [|b rest]; [right; by eexists|].
  assert ((∃ s, (if uval b =? 1 then Ok (brotli rest) else
     match zlib_NewReader (b :: rest) with
     | None => Err (errorf ErrInvalid "invalid zlib channel") | Some s => Ok s end) = Ok s) ∨
    ∃ e, (if uval b =? 1 then Ok (brotli rest) else
     match zlib_NewReader (b :: rest) with
     | None => Err (errorf ErrInvalid "invalid zlib channel") | Some s => Ok s end) = Err e ∧
     span_error e) as [[s ->]|(e & -> & He)].
  { repeat case_match; eauto. }
  2:{ right. by exists e. }
  rewrite bind_Ok. destruct (read_limited s _) as [payload| |]; [|right; by eexists..].
  destruct (MaxChannelBytes <? len payload); [right; by eexists|].
  apply decode_stream_cases. lia.
Qed.

(** [C33] Decoding a compressed channel terminates and is total: it returns
    the blocks of a sequence of well-formed spans or an error, whatever the
    decompressor produces; the amount it reads from the decompressor is
    bounded by [MaxChannelBytes + 1]. *)
Theorem decodeChannel_safe `{Decompress} data batchIndex chainID :
  (∃ spans, decodeChannel data batchIndex chainID = Ok (concat spans) ∧
    Forall (span_result batchIndex chainID) spans) ∨
  (∃ e, decodeChannel data batchIndex chainID = Err e ∧ span_error e).
Proof. apply decodeChannel_cases. Qed.
End total.

(** ** The wire format *)

Definition put_sig (p : Z * Z) : bytes := be_bytes 32 p.1 ++ be_bytes 32 p.2.
Definition put_address (a : Address) : bytes := be_bytes 20 (uval a).
Definition legacy_count (f : txFields) : nat := length (filter is_legacy (tfPayloads f)).

(** The transaction columns in wire order. *)
Definition encode_columns (n : Z) (f : txFields) : bytes :=
  put_bits n (tfCreation f) ++ put_bits n (tfParity f) ++
  concat (put_sig <$> zip (tfSigR f) (tfSigS f)) ++
  concat (put_address <$> tfTos f) ++
  concat (tfPayloads f) ++
  concat (put_uvarint <$> tfNonces f) ++ concat (put_uvarint <$> tfGases f) ++
  put_bits (Z.of_nat (legacy_count f)) (tfProtected f) ++
  put_bits n (tfQueue f) ++ put_bits n (tfSeqParity f) ++
  concat (put_sig <$> zip (tfSeqR f) (tfSeqS f)) ++
  concat (put_address <$> tfOrigins f).

Record span_wire : Type := mkSpan {
  swStart : u64;
  swSkipped : bytes;
  swBits : Z;
  swOrigins : list u64; swTimes : list u64; swCounts : list u64;
  swExtras : list bytes;
  swFields : txFields;
}.

Definition put_extra (b : bytes) : bytes := put_uvarint (wrap 64 (len b)) ++ b.

Definition encode_span (w : span_wire) : bytes :=
  put_uvarint (swStart w) ++ swSkipped w ++ put_uvarint (wrap 64 (len (swCounts w))) ++
  put_bits (len (swCounts w)) (swBits w) ++
  concat (put_uvarint <$> swOrigins w) ++ concat (put_uvarint <$> swTimes w) ++
  concat (put_uvarint <$> swCounts w) ++ concat (put_extra <$> swExtras w) ++
  encode_columns (Z.of_nat (txs_in (swCounts w))) (swFields w).

Definition bits_ok (n : nat) (v : Z) : Prop := 0 <= v < 2 ^ Z.of_nat n.

Record columns_wf `{RLP} (n : nat) (f : txFields) : Prop := {
  cw_columns : columns n f;
  cw_creation : bits_ok n (tfCreation f);
  cw_parity : bits_ok n (tfParity f);
  cw_queue : bits_ok n (tfQueue f);
  cw_seqParity : bits_ok n (tfSeqParity f);
  cw_protected : bits_ok (legacy_count f) (tfProtected f);
  cw_payloads : Forall wire_tx (tfPayloads f);
  cw_seqR : Forall word_range (tfSeqR f);
  cw_seqS : Forall word_range (tfSeqS f);
}.

(** A span a batcher may write. *)
Record span_wf `{RLP} (w : span_wire) : Prop := {
  sw_start : 1 <= uval (swStart w);
  sw_count : 1 <= len (swCounts w) <= maxElements;
  sw_last : uval (swStart w) + len (swCounts w) <= modulus 64;
  sw_txs : Z.of_nat (txs_in (swCounts w)) <= maxElements;
  sw_skipped : length (swSkipped w) = 40%nat;
  sw_bits : bits_ok (length (swCounts w)) (swBits w);
  sw_origins : length (swOrigins w) = length (swCounts w);
  sw_times : length (swTimes w) = length (swCounts w);
  sw_extras : length (swExtras w) = length (swCounts w);
  sw_extra_len : Forall (λ b, len b < modulus 64) (swExtras w);
  sw_columns : columns_wf (txs_in (swCounts w)) (swFields w);
}.

Lemma read_word_back z : word_range z → reads_back read_word (be_bytes 32 z) z.
Proof.
  intros Hz rest. unfold read_word. rewrite (read_data_back (be_bytes 32 z)).
  2:{ unfold len. by rewrite length_be_bytes. }
  rewrite be_value_be_bytes. by rewrite Z.mod_small.
Qed.

Lemma read_sig_back p : word_range p.1 → word_range p.2 → reads_back read_sig (put_sig p) p.
Proof.
  intros H1 H2 rest. unfold read_sig, put_sig. rewrite <-app_assoc.
  rewrite read_word_back, read_word_back by done. by destruct p.
Qed.

Lemma read_address_back a : reads_back read_address (put_address a) a.
Proof.
  intros rest. unfold read_address, put_address. rewrite (read_data_back (be_bytes 20 (uval a))).
  2:{ unfold len. by rewrite length_be_bytes. }
  rewrite be_value_be_bytes. change (256 ^ Z.of_nat 20) with (modulus 160).
  rewrite Z.mod_small by apply uint_range. by rewrite wrap_uval.
Qed.

Lemma read_extra_back b : len b < modulus 64 → reads_back read_extra (put_extra b) b.
Proof.
  intros Hb rest. unfold read_extra, put_extra. rewrite <-app_assoc, read_u64_back.
  apply read_data_back. apply uval_wrap_small. pose proof (len_nonneg b). lia.
Qed.

Lemma read_addresses_back want n : ∀ i l,
  length l = rank want i n →
  reads_back (read_addresses want i n) (concat (put_address <$> l)) l.
Proof.
  induction n as [|n IH]; intros i l Hl rest; simpl in *.
  { by destruct l. }
  destruct (want i).
  - destruct l as [|a l]; [done|]. cbn [fmap list_fmap concat].
    rewrite <-app_assoc, read_address_back. rewrite IH; [done|]. simpl in Hl. lia.
  - by apply IH.
Qed.

Lemma zip_sigs_back n (rs ss : list Z) :
  length rs = n → length ss = n → Forall word_range rs → Forall word_range ss →
  reads_back (read_n read_sig n) (concat (put_sig <$> zip rs ss)) (zip rs ss).
Proof.
  intros Hr Hs HR HS rest.
  assert (length (zip rs ss) = n) as <- by (rewrite length_zip_with; lia).
  apply read_n_back. intros [x y] Hxy. apply read_sig_back; simpl.
  - eapply Forall_forall in HR; [exact HR|]. by eapply elem_of_zip_l.
  - eapply Forall_forall in HS; [exact HS|]. by eapply elem_of_zip_r.
Qed.

Lemma words_back n (l : list u64) :
  length l = n → reads_back (read_n read_u64 n) (concat (put_uvarint <$> l)) l.
Proof. intros <-. apply read_n_back. intros. apply read_u64_back. Qed.

Lemma bits_back (n : nat) (u : u64) v :
  uval u = Z.of_nat n → Z.of_nat n < 2 ^ 63 → bits_ok n v →
  reads_back (λ r, read_bits r u) (put_bits (Z.of_nat n) v) v.
Proof. intros Hu Hn Hv. rewrite <-Hu. apply read_bits_back; [lia | by rewrite Hu]. Qed.

Section roundtrip.
Context `{RLP, EthTx, GethText}.

Lemma readTransactions_back n (u : u64) f rest :
  uval u = Z.of_nat n → Z.of_nat n <= maxElements → columns_wf n f →
  readTransactions (mkReader (encode_columns (Z.of_nat n) f ++ rest) None) u
  = Ok (f, mkReader rest None).
Proof.
  assert (maxElements = 10000000) as Hmax by done.
  intros Hu Hn [[] ????????].
  assert (Z.of_nat n < 2 ^ 63) as Hn63 by lia.
  assert (legacy_count f <= n)%nat as Hleg.
  { unfold legacy_count. rewrite <-col_payloads. apply length_filter. }
  unfold readTransactions, read_numbers, encode_columns. rewrite <-!app_assoc.
  rewrite Hu, Nat2Z.id.
  rewrite (bits_back n u (tfCreation f)) by done.
  rewrite (bits_back n u (tfParity f)) by done.
  rewrite (zip_sigs_back n) by done.
  rewrite (read_addresses_back _ n 0 (tfTos f)) by done.
  assert (reads_back (read_n read_rawTx n) (concat (tfPayloads f)) (tfPayloads f)) as Hp.
  { pose proof (read_n_back read_rawTx id (tfPayloads f)) as Hp.
    rewrite list_fmap_id, col_payloads in Hp. apply Hp.
    intros p Hin. apply read_rawTx_back.
    eapply Forall_forall in cw_payloads0; [exact cw_payloads0 | done]. }
  rewrite Hp. destruct (Z.leb_spec (2 ^ 63) (Z.of_nat n)); [lia|]. cbn [bind].
  rewrite (words_back n (tfNonces f)), (words_back n (tfGases f)) by done.
  change (len (filter is_legacy (tfPayloads f))) with (Z.of_nat (legacy_count f)).
  rewrite (bits_back (legacy_count f)).
  2:{ apply uval_wrap_small. change (modulus 64) with (2 ^ 64). lia. }
  2:{ lia. }
  2:{ done. }
  rewrite (bits_back n u (tfQueue f)), (bits_back n u (tfSeqParity f)) by done.
  rewrite (zip_sigs_back n) by done.
  rewrite (read_addresses_back _ n 0 (tfOrigins f)) by done.
  rewrite !fst_zip, !snd_zip by lia. by destruct f.
Qed.

Lemma len_concat_ge {A} (wire : A → bytes) k l :
  (∀ x, k <= len (wire x)) → k * len l <= len (concat (wire <$> l)).
Proof.
  intros Hk. induction l as [|x l IH]; [unfold len; simpl; lia|].
  rewrite fmap_cons. cbn [concat]. rewrite len_cons, len_app. specialize (Hk x). lia.
Qed.

Lemma len_put_uvarint v : 1 <= len (put_uvarint v).
Proof. unfold len. pose proof (length_put_uvarint v). lia. Qed.

Lemma len_put_sig p : 64 <= len (put_sig p).
Proof. unfold put_sig. rewrite len_app. unfold len. rewrite !length_be_bytes. lia. Qed.

Lemma len_encode_columns n f : columns n f → 128 * Z.of_nat n <= len (encode_columns (Z.of_nat n) f).
Proof.
  intros []. unfold encode_columns. rewrite !len_app.
  pose proof (len_concat_ge put_sig 64 (zip (tfSigR f) (tfSigS f)) len_put_sig) as Hl1.
  pose proof (len_concat_ge put_sig 64 (zip (tfSeqR f) (tfSeqS f)) len_put_sig) as Hl2.
  assert (len (zip (tfSigR f) (tfSigS f)) = Z.of_nat n) as E1
    by (unfold len; rewrite length_zip_with; lia).
  assert (len (zip (tfSeqR f) (tfSeqS f)) = Z.of_nat n) as E2
    by (unfold len; rewrite length_zip_with; lia).
  rewrite E1 in Hl1. rewrite E2 in Hl2.
  repeat match goal with |- context [len ?x] =>
    lazymatch goal with
    | _ : 0 <= len x |- _ => fail
    | _ : 64 * Z.of_nat n <= len x |- _ => fail
    | _ => pose proof (len_nonneg x)
    end end.
  lia.
Qed.

(** The guard on the number of blocks. *)
Lemma span_guard w :
  span_wf w →
  let rest := put_bits (len (swCounts w)) (swBits w) ++
    concat (put_uvarint <$> swOrigins w) ++ concat (put_uvarint <$> swTimes w) ++
    concat (put_uvarint <$> swCounts w) ++ concat (put_extra <$> swExtras w) ++
    encode_columns (Z.of_nat (txs_in (swCounts w))) (swFields w) in
  len rest / 4 <? len (swCounts w) = false.
Proof.
  intros [] rest. apply Z.ltb_ge. apply Z.div_le_lower_bound; [lia|].
  unfold rest. rewrite !len_app.
  pose proof (len_concat_ge put_uvarint 1 (swOrigins w) len_put_uvarint).
  pose proof (len_concat_ge put_uvarint 1 (swTimes w) len_put_uvarint).
  pose proof (len_concat_ge put_uvarint 1 (swCounts w) len_put_uvarint).
  assert (1 * len (swExtras w) <= len (concat (put_extra <$> swExtras w))).
  { apply len_concat_ge. intros b. unfold put_extra. rewrite len_app.
    pose proof (len_put_uvarint (wrap 64 (len b))). pose proof (len_nonneg b). lia. }
  pose proof (len_nonneg (put_bits (len (swCounts w)) (swBits w))).
  pose proof (len_nonneg (encode_columns (Z.of_nat (txs_in (swCounts w))) (swFields w))).
  unfold len in *. lia.
Qed.

Lemma decodeSpan_encode_eq w batchIndex chainID :
  span_wf w →
  decodeSpan (encode_span w) batchIndex chainID =
  deriveBlocks (swStart w) batchIndex chainID (swOrigins w) (swTimes w) (swCounts w)
    (swExtras w) (swFields w).
Proof.
  intros Hw. pose proof (span_guard w Hw) as Hguard. destruct Hw.
  assert (maxElements = 10000000) as Hmax by done.
  set (u := wrap 64 (len (swCounts w))).
  assert (uval u = len (swCounts w)) as Hu.
  { apply uval_wrap_small. change (modulus 64) with (2 ^ 64). lia. }
  unfold decodeSpan, encode_span. fold u.
  rewrite <-(app_nil_r (encode_columns _ _)).
  rewrite read_u64_back, (read_data_back (swSkipped w)).
  2:{ unfold len. by rewrite sw_skipped0. }
  rewrite read_u64_back. unfold reader_check. cbn [rd_err bind].
  assert (uval (usub max_uint64 (swStart w)) = modulus 64 - 1 - uval (swStart w)) as Hsub.
  { pose proof (uint_range (swStart w)). unfold usub.
    rewrite uval_max_uint64, uval_wrap_small; change (modulus 64) with (2 ^ 64) in *; lia. }
  assert (uval (usub u (#64 1)) = len (swCounts w) - 1) as Hc1.
  { unfold usub. change (uval (#64 1)) with 1. rewrite Hu.
    apply uval_wrap_small. change (modulus 64) with (2 ^ 64). lia. }
  match goal with |- (if ?c then _ else _) = _ => assert (c = false) as -> end.
  { unfold ult. rewrite Hsub, Hc1, Hu. unfold reader_Len. cbn [rd_buf].
    rewrite app_nil_r. rewrite Hguard.
    destruct (Z.eqb_spec (uval (swStart w)) 0); [lia|].
    destruct (Z.eqb_spec (len (swCounts w)) 0); [lia|].
    destruct (Z.ltb_spec maxElements (len (swCounts w))); [lia|].
    destruct (Z.ltb_spec (modulus 64 - 1 - uval (swStart w)) (len (swCounts w) - 1)); [lia|].
    done. }
  unfold read_numbers. rewrite Hu.
  change (len (swCounts w)) with (Z.of_nat (length (swCounts w))) in *.
  rewrite Nat2Z.id, (bits_back (length (swCounts w)) u) by (done || lia).
  destruct (Z.leb_spec (2 ^ 63) (Z.of_nat (length (swCounts w)))); [lia|].
  cbn [bind].
  rewrite (words_back _ (swOrigins w)) by done. cbn [bind].
  rewrite (words_back _ (swTimes w)) by done. cbn [bind].
  rewrite (words_back _ (swCounts w)) by done. cbn [bind].
  destruct (add_count_spec (swCounts w) (#64 0))
    as [(total & Etot & Htm & Ht)|(Hbig & _)]; [by rewrite Hmax| |].
  2:{ change (uval (#64 0)) with 0 in Hbig. lia. }
  change (uval (#64 0)) with 0 in Ht. rewrite Z.add_0_l in Ht.
  rewrite Etot. cbn [bind]. rewrite <-sw_extras0 at 1.
  rewrite (read_n_back read_extra put_extra).
  2:{ intros b Hb. apply read_extra_back. by eapply Forall_forall in sw_extra_len0. }
  cbn [rd_err bind]. unfold reader_Len. cbn [rd_buf]. rewrite app_nil_r.
  pose proof (len_encode_columns _ _ (cw_columns _ _ sw_columns0)) as H128.
  destruct (Z.ltb_spec (len (encode_columns (Z.of_nat (txs_in (swCounts w))) (swFields w)) / 128)
    (uval total)) as [Hlt|_].
  { exfalso. apply (Z.lt_irrefl (uval total)). eapply Z.le_lt_trans; [|exact Hlt].
    apply Z.div_le_lower_bound; lia. }
  rewrite <-(app_nil_r (encode_columns _ _)).
  rewrite (readTransactions_back _ total _ [] Ht) by (done || lia). done.
Qed.

(** [C21] The wire format round trips: a span of at most 10,000,000 blocks and
    transactions whose columns fit together, written field by field (start,
    40 skipped bytes, block count, block bits, origins, timestamps and
    transaction counts as varints, extra data, then the transaction columns),
    is read back exactly; what [decodeSpan] returns is what [deriveBlocks]
    makes of those columns, with nothing left over and no guard in the way. *)
Theorem decodeSpan_roundtrip w batchIndex chainID :
  span_wf w →
  decodeSpan (encode_span w) batchIndex chainID =
  deriveBlocks (swStart w) batchIndex chainID (swOrigins w) (swTimes w) (swCounts w)
    (swExtras w) (swFields w).
Proof. apply decodeSpan_encode_eq. Qed.

End roundtrip.

(** ** Concrete instances *)

Module SpanWitness.

(** RLP items of at most 55 bytes: a byte, a string or a list. *)
Definition short_raw (b : bytes) : option (bytes * bytes) :=
  match b with
  | [] => None
  | h :: _ =>
      let n := if uval h <? 128 then 1%nat
               else if uval h <? 184 then Z.to_nat (uval h - 127)
               else if uval h <? 192 then O
               else if uval h <? 248 then Z.to_nat (uval h - 191) else O in
      if (n =? 0)%nat || (length b <? n)%nat then None else Some (take n b, drop n b)
  end.

Definition short_bytes (b : bytes) : rlp_item :=
  match b with
  | [] => RlpEOF
  | h :: t =>
      if uval h <? 128 then RlpBytes [h] t
      else let n := Z.to_nat (uval h - 128) in
        if (uval h <? 184) && (n <=? length t)%nat then RlpBytes (take n t) (drop n t) else RlpError
  end.

#[local] Instance rlp0 : RLP := {| Stream_Raw := short_raw; Stream_Bytes := short_bytes |}.

#[local] Instance rlp0_laws : RLPLaws.
Proof.
  split.
  - intros [|h t] p rest Hr; [done|]. cbn [Stream_Raw rlp0 short_raw] in Hr.
    set (n := if uval h <? 128 then _ else _) in Hr.
    destruct (Nat.eqb_spec n 0) as [|Hn]; [done|]. simpl in Hr.
    destruct (Nat.ltb_spec (S (length t)) n) as [|Hl]; [done|].
    injection Hr as <- <-. rewrite take_drop. split; [done|].
    destruct n; [lia | done].
  - intros [|h t] c rest Hr; [done|]. cbn [Stream_Bytes rlp0 short_bytes] in Hr.
    destruct (uval h <? 128); [injection Hr as <- <-; simpl; lia|].
    destruct (_ && _); [|done]. injection Hr as <- <-. simpl.
    rewrite length_drop. lia.
Qed.

(** Legacy payloads of four bytes; every sender recovers. *)
#[local] Instance eth0 : EthTx := {|
  AccessList := unit;
  Decode_Legacy p :=
    match p with [_; v; g; d] => Some (uval v, uval g, [d]) | _ => None end;
  Decode_AccessList _ := None;
  Decode_DynamicFee _ := None;
  Sender _ _ := Some zero_address;
  MarshalBinary tx := Ok (tcData (tx_common tx));
  tx_GasPrice _ := 0;
  hexutil_EncodeBig z := "0x" +:+ format_x z;
|}.

#[local] Instance eth0_laws : EthTxLaws.
Proof. by split. Qed.

#[local] Instance zip0 : Decompress := {| brotli b := (b, false); zlib_NewReader _ := None |}.

#[local] Existing Instance HexText.text.

Definition payload0 : bytes := [wrap 8 195; wrap 8 1; wrap 8 2; wrap 8 128].

(** Two blocks; the second is empty, the first has a sequencer transaction
    and one from the queue. *)
Definition fields0 : txFields :=
  mkFields 2 1 2 2 1 [5; 6] [7; 8] [9; 10] [11; 12] [wrap 160 77] [payload0; payload0]
    [(#64 300); (#64 4)] [(#64 21000); (#64 5)] [wrap 160 99].
Definition span0 : span_wire :=
  mkSpan (#64 12) (zeros 40) 1 [(#64 100); (#64 101)] [(#64 1700000000); (#64 3)] [(#64 2); (#64 0)]
    [[]; [wrap 8 1]] fields0.

Lemma fields0_columns : columns 2 fields0.
Proof. split; try reflexivity; repeat constructor; done. Qed.

Lemma span0_wf : span_wf span0.
Proof.
  assert (∀ rest, Stream_Raw (payload0 ++ rest) = Some (payload0, rest)) as Hraw.
  { intros rest. reflexivity. }
  split; [by vm_compute | by vm_compute | by vm_compute | by vm_compute | done | by vm_compute
    | done | done | done | by repeat constructor |].
  split; [exact fields0_columns | by vm_compute | by vm_compute | by vm_compute
    | by vm_compute | by vm_compute | | by repeat constructor | by repeat constructor].
  constructor; [by left|]. constructor; [by left | constructor].
Qed.

(** A compressed channel with one span of one empty block. *)
Definition span1 : span_wire :=
  mkSpan (#64 12) (zeros 40) 0 [(#64 100)] [(#64 5)] [(#64 0)] [[]]
    (mkFields 0 0 0 0 0 [] [] [] [] [] [] [] [] []).
Definition channel0 : bytes :=
  let raw := wrap 8 1 :: encode_span span1 in
  wrap 8 1 :: wrap 8 (128 + len raw) :: raw.

Lemma decodeSpan_roundtrip_witness :
  is_ok (decodeSpan (encode_span span0) (#64 7) (#64 1088)) = true ∧
  decodeSpan (encode_span span0) (#64 7) (#64 1088) =
  deriveBlocks (#64 12) (#64 7) (#64 1088) (swOrigins span0) (swTimes span0)
    (swCounts span0) (swExtras span0) fields0.
Proof.
  split; [vm_compute; reflexivity|]. apply (decodeSpan_roundtrip span0). exact span0_wf.
Defined.

Lemma decodeSpan_safe_witness :
  is_ok (decodeSpan (encode_span span0) (#64 7) (#64 1088)) = true ∧
  ((∃ blocks, decodeSpan (encode_span span0) (#64 7) (#64 1088) = Ok blocks ∧
     span_result (#64 7) (#64 1088) blocks) ∨
   (∃ e, decodeSpan (encode_span span0) (#64 7) (#64 1088) = Err e ∧ span_error e)).
Proof. split; [vm_compute; reflexivity|]. apply decodeSpan_safe. Defined.

Lemma decodeChannel_safe_witness :
  is_ok (decodeChannel channel0 (#64 7) (#64 1088)) = true ∧
  ((∃ spans, decodeChannel channel0 (#64 7) (#64 1088) = Ok (concat spans) ∧
     Forall (span_result (#64 7) (#64 1088)) spans) ∨
   (∃ e, decodeChannel channel0 (#64 7) (#64 1088) = Err e ∧ span_error e)).
Proof. split; [vm_compute; reflexivity|]. apply decodeChannel_safe. Defined.

End SpanWitness.
