(* ===== verification/Channels.v ===== *)
(** * Channel assembly (internal/blob/frames.go, DecodeChannels)

    Frames of one Inbox submission are collected per channel until a channel
    has its closing frame and every frame before it; the frames in order are
    the compressed channel.  Channels are decoded in the order of their
    IDs. *)
From S2P Require Import Prelude Word Geth StoreTypes BlobCodec SpanReader Span.

Record frameSource : Type := mkSource {
  fsFrame : Frame;
  fsHash : Hash;
  fsTimestamp : u64;
}.

(** [channelInput]; [size] is the number of data bytes in [frames]. *)
Record channelInput : Type := mkInput {
  ciFrames : gmap u16 frameSource;
  ciEnd : option u16;
  ciSize : Z;
}.

Definition new_channel : channelInput := mkInput ∅ None 0.

(** The data bytes of a set of frames. *)
Definition data_size (m : gmap u16 frameSource) : Z :=
  map_fold (λ _ s n, len (fData (fsFrame s)) + n) 0 m.

(** The frames a closing frame [n] leaves. *)
Definition within (n : u16) (m : gmap u16 frameSource) : gmap u16 frameSource :=
  filter (λ kv, uval kv.1 <= uval n) m.
Definition beyond (n : u16) (m : gmap u16 frameSource) : gmap u16 frameSource :=
  filter (λ kv, ¬ uval kv.1 <= uval n) m.

(** [channelInput.add] *)
Definition add (c : channelInput) (f : Frame) (tx : BlobTransaction) : result channelInput :=
  fail_if bool_decide (is_Some (ciFrames c !! fNumber f))
    with errorf ErrInvalid "duplicate channel frame" ;;
  fail_if fLast f && bool_decide (is_Some (ciEnd c))
    with errorf ErrInvalid "duplicate closing frame" ;;
  fail_if match ciEnd c with Some e => ule e (fNumber f) | None => false end
    with errorf ErrInvalid "frame beyond channel end" ;;
  let c :=
    if fLast f then
      let n := fNumber f in
      mkInput (within n (ciFrames c)) (Some n)
        (ciSize c - data_size (beyond n (ciFrames c)))
    else c in
  let size := ciSize c + len (fData f) in
  fail_if MaxChannelBytes <? size with errorf ErrInvalid "channel too large" ;;
  Ok (mkInput (<[fNumber f := mkSource f (btHash tx) (btTimestamp tx)]> (ciFrames c))
        (ciEnd c) size).

(** One frame: the channel map holds a pointer per ID, so [add] updates the
    channel in place. *)
Definition add_frame (tx : BlobTransaction) (channels : gmap FrameID channelInput) (f : Frame) :
    result (gmap FrameID channelInput) :=
  let c := default new_channel (channels !! fID f) in
  let! c := add c f tx in
  Ok (<[fID f := c]> channels).

Definition add_tx (channels : gmap FrameID channelInput) (tx : BlobTransaction) :
    result (gmap FrameID channelInput) :=
  if btMissing tx then Ok channels else foldM (add_frame tx) channels (btFrames tx).

(** The state of the loop of [decodeReadyChannel]. *)
Record assembly : Type := mkAssembly {
  asData : bytes;
  asSources : list Hash;
  asSeen : gset Hash;
  asOldest : u64;
}.

Definition assemble_step (c : channelInput) (a : assembly) (n : nat) : result assembly :=
  match ciFrames c !! wrap 16 (Z.of_nat n) with
  | None => Err (errorf ErrInvalid "channel gap")
  | Some f =>
      let data := asData a ++ fData (fsFrame f) in
      let oldest := if ult (fsTimestamp f) (asOldest a) then fsTimestamp f else asOldest a in
      if bool_decide (fsHash f ∈ asSeen a)
      then Ok (mkAssembly data (asSources a) (asSeen a) oldest)
      else Ok (mkAssembly data (asSources a ++ [fsHash f]) ({[fsHash f]} ∪ asSeen a) oldest)
  end.

(** A block inside the Inbox commitment. *)
Definition in_batch (batch : BlockBatch) (b : Block) : bool :=
  negb (ult (bIndex b) (baPrevTotalElements batch) ||
        ule (baSize batch) (usub (bIndex b) (baPrevTotalElements batch))).

Definition id_less (a b : FrameID) : bool :=
  bytes_lt (be_bytes 16 (uval a)) (be_bytes 16 (uval b)).

Section channels.
Context `{RLP, EthTx, GethText, Decompress, SortSlice}.

Definition channel_name (batch : BlockBatch) (id : FrameID) : string :=
  Hash_Hex (baL1TransactionHash batch) +:+ "/" +:+ HexText.digits (be_bytes 16 (uval id)).

Definition check_block (batch : BlockBatch) (indexes : list u64) (b : Block) :
    result (list u64) :=
  fail_if negb (in_batch batch b) with errorf ErrInvalid "block outside Inbox commitment" ;;
  Ok (indexes ++ [bIndex b]).

Definition decodeReadyChannel (c : channelInput) (id : FrameID) (batch : BlockBatch)
    (chainID : u64) : result (option BlobChannel) :=
  match ciEnd c with
  | None => Ok None
  | Some e =>
      if negb (Z.of_nat (size (ciFrames c)) =? uval e + 1) then Ok None else
      let! a := foldM (assemble_step c) (mkAssembly [] [] ∅ max_uint64)
                  (seq 0 (Z.to_nat (uval e + 1))) in
      let! blocks := decodeChannel (asData a) (baIndex batch) chainID in
      fail_if bool_decide (blocks = []) with errorf ErrInvalid "empty channel" ;;
      let! indexes := foldM (check_block batch) [] blocks in
      Ok (Some (mkBlobChannel
        (mkChannelRecord (channel_name batch id) (asSources a) indexes batch (asOldest a))
        blocks))
  end.

Definition decode_ready (channels : gmap FrameID channelInput) (batch : BlockBatch)
    (chainID : u64) (out : list BlobChannel) (id : FrameID) : result (list BlobChannel) :=
  let! ch := decodeReadyChannel (default new_channel (channels !! id)) id batch chainID in
  Ok (match ch with Some ch => out ++ [ch] | None => out end).

Definition DecodeChannels (txs : list BlobTransaction) (batch : BlockBatch) (chainID : u64) :
    result (list BlobChannel) :=
  let! channels := foldM add_tx ∅ txs in
  let ids := sort_Slice id_less (elements (dom channels)) in
  foldM (decode_ready channels batch chainID) [] ids.

End channels.
