(* ===== verification/ChannelFacts.v ===== *)
(** * Correctness of channel assembly

    [add] keeps a channel in step with the frames that arrived for it, so a
    channel that is complete by its counters really has every frame, and its
    data is the concatenation of the frames in order, whatever the order of
    arrival. *)
From stdpp Require Import fin_sets.
From S2P Require Import Prelude Word Geth StoreTypes BlobCodec SpanReader Span SpanFacts.
From S2P Require Import SpanTheorems Channels.

(** A frame and the transaction that carried it. *)
Notation arrival := (Frame * BlobTransaction)%type.

Definition source (p : arrival) : frameSource :=
  mkSource p.1 (btHash p.2) (btTimestamp p.2).
Definition number (p : arrival) : Z := uval (fNumber p.1).

(** ** The size counter *)

Lemma data_size_insert k s m :
  m !! k = None → data_size (<[k := s]> m) = len (fData (fsFrame s)) + data_size m.
Proof. intros Hk. unfold data_size. rewrite map_fold_insert_L; [done | intros; lia | done]. Qed.

Lemma data_size_split n m : data_size m = data_size (within n m) + data_size (beyond n m).
Proof.
  induction m as [|k s m Hk IH] using map_ind; [done|].
  rewrite data_size_insert by done. unfold within, beyond in *.
  rewrite !map_filter_insert.
  destruct (decide (uval k <= uval n)) as [Hle|Hle].
  - rewrite decide_True by done. rewrite decide_False by (simpl; tauto).
    rewrite (delete_id m k Hk).
    rewrite data_size_insert; [lia|]. apply map_lookup_filter_None. by left.
  - rewrite decide_False by done. rewrite decide_True by done.
    rewrite (delete_id m k Hk).
    rewrite data_size_insert; [lia|]. apply map_lookup_filter_None. by left.
Qed.

Lemma data_size_nonneg m : 0 <= data_size m.
Proof.
  induction m as [|k s m Hk IH] using map_ind; [done|].
  rewrite data_size_insert by done. pose proof (len_nonneg (fData (fsFrame s))). lia.
Qed.

(** ** The invariant *)

(** The channel [c] after the arrivals [l]. *)
Record collected (l : list arrival) (c : channelInput) : Prop := {
  co_from n s : ciFrames c !! n = Some s → ∃ p, p ∈ l ∧ fNumber p.1 = n ∧ s = source p;
  co_kept p : p ∈ l → (∀ e, ciEnd c = Some e → number p <= uval e) →
    ciFrames c !! fNumber p.1 = Some (source p);
  co_end e : ciEnd c = Some e →
    (∃ p, p ∈ l ∧ fLast p.1 = true ∧ fNumber p.1 = e) ∧
    ∀ n, is_Some (ciFrames c !! n) → uval n <= uval e;
  co_last p : p ∈ l → fLast p.1 = true → ciEnd c = Some (fNumber p.1);
  co_size : ciSize c = data_size (ciFrames c);
  co_max : ciSize c <= MaxChannelBytes;
}.

Lemma collected_nil : collected [] new_channel.
Proof.
  split; try done.
  - intros p Hp. by apply not_elem_of_nil in Hp.
  - intros p Hp. by apply not_elem_of_nil in Hp.
Qed.

Lemma within_lookup n m k s :
  within n m !! k = Some s ↔ m !! k = Some s ∧ uval k <= uval n.
Proof. unfold within. by rewrite map_lookup_filter_Some. Qed.

Lemma elem_snoc {A} (x y : A) l : x ∈ l → x ∈ l ++ [y].
Proof. intros. apply elem_of_app. by left. Qed.

Lemma elem_snoc_new {A} (y : A) l : y ∈ l ++ [y].
Proof. apply elem_of_app. right. by apply list_elem_of_singleton. Qed.

Lemma add_collected l c p c' :
  collected l c → add c p.1 p.2 = Ok c' → collected (l ++ [p]) c'.
Proof.
  intros [Hfrom Hkept Hend Hlast Hsize Hmax] Hadd. unfold add in Hadd.
  destruct (bool_decide (is_Some _)) eqn:Hfresh; [done|].
  apply bool_decide_eq_false_1, eq_None_not_Some in Hfresh.
  destruct (fLast p.1) eqn:El; cbn [andb] in Hadd.
  - destruct (ciEnd c) as [e|] eqn:Ee; [done|]. cbn in Hadd.
    destruct (MaxChannelBytes <? _) eqn:Hm; [done|]. injection Hadd as <-. bool_to_prop.
    assert (within (fNumber p.1) (ciFrames c) !! fNumber p.1 = None) as Hn.
    { apply map_lookup_filter_None. by left. }
    split; cbn [ciFrames ciEnd ciSize].
    + intros k s [[<- <-]|[Hk Hs]]%lookup_insert_Some.
      * exists p. split; [auto using elem_snoc, elem_snoc_new | done].
      * apply within_lookup in Hs as [Hs _]. destruct (Hfrom k s Hs) as (q & Hq & <- & ->).
        exists q. split; [auto using elem_snoc, elem_snoc_new | done].
    + intros q [Hq| ->%list_elem_of_singleton]%elem_of_app Hle; [|by rewrite lookup_insert_eq].
      assert (ciFrames c !! fNumber q.1 = Some (source q)) as Hin by (by apply Hkept).
      rewrite lookup_insert_ne by congruence.
      apply within_lookup. split; [done|]. by apply (Hle (fNumber p.1)).
    + intros e [= <-]. split; [exists p; split; [auto using elem_snoc, elem_snoc_new | done]|].
      intros k [s [[<- <-]|[Hk Hs]]%lookup_insert_Some]; [lia|].
      apply within_lookup in Hs as [_ Hs]. done.
    + intros q [Hq| ->%list_elem_of_singleton]%elem_of_app Hq'; [|done].
      pose proof (Hlast q Hq Hq'). congruence.
    + rewrite data_size_insert by done. cbn [fsFrame].
      rewrite Hsize, (data_size_split (fNumber p.1) (ciFrames c)). lia.
    + lia.
  - set (c0 := c) in Hadd. destruct (match ciEnd c with Some e => _ | None => _ end) eqn:Hb; [done|].
    destruct (MaxChannelBytes <? _) eqn:Hm; [done|]. injection Hadd as <-. unfold c0 in *.
    bool_to_prop. split; cbn [ciFrames ciEnd ciSize].
    + intros k s [[<- <-]|[Hk Hs]]%lookup_insert_Some.
      * exists p. split; [auto using elem_snoc, elem_snoc_new | done].
      * destruct (Hfrom k s Hs) as (q & Hq & <- & ->). exists q. split; [auto using elem_snoc, elem_snoc_new | done].
    + intros q [Hq| ->%list_elem_of_singleton]%elem_of_app Hle; [|by rewrite lookup_insert_eq].
      assert (ciFrames c !! fNumber q.1 = Some (source q)) as Hin by (by apply Hkept).
      rewrite lookup_insert_ne by congruence. done.
    + intros e He. destruct (Hend e He) as ((q & Hq & Hq') & Hle). split.
      { exists q. split; [auto using elem_snoc, elem_snoc_new | done]. }
      intros k [s [[<- <-]|[Hk Hs]]%lookup_insert_Some].
      * rewrite He in Hb. unfold ule in Hb. bool_to_prop. lia.
      * by apply Hle.
    + intros q [Hq| ->%list_elem_of_singleton]%elem_of_app Hq'; [by apply Hlast | congruence].
    + rewrite data_size_insert by done. cbn [fsFrame]. lia.
    + lia.
Qed.

(** The arrivals of one channel, folded into it. *)
Definition collect (c : channelInput) (l : list arrival) : result channelInput :=
  foldM (λ c p, add c p.1 p.2) c l.

Lemma collect_collected l c : collect new_channel l = Ok c → collected l c.
Proof.
  unfold collect. intros H.
  apply (foldM_inv (λ c p, add c p.1 p.2) collected new_channel l c); [apply collected_nil| |done].
  intros l' p c1 c2 H1 _ H2. by apply (add_collected l' c1).
Qed.

(** The channel is a function of the set of its frames. *)
Lemma collected_unique l1 l2 c1 c2 :
  l1 ≡ₚ l2 → collected l1 c1 → collected l2 c2 → c1 = c2.
Proof.
  intros Hl H1 H2.
  assert (ciEnd c1 = ciEnd c2) as He.
  { destruct (ciEnd c1) as [e|] eqn:E1.
    - destruct (co_end _ _ H1 e E1) as ((p & Hp & Hpl & <-) & _). rewrite Hl in Hp.
      symmetry. by apply (co_last _ _ H2).
    - destruct (ciEnd c2) as [e|] eqn:E2; [|done].
      destruct (co_end _ _ H2 e E2) as ((p & Hp & Hpl & <-) & _). rewrite <-Hl in Hp.
      by rewrite (co_last _ _ H1 p Hp Hpl) in E1. }
  assert (∀ l l' c c', l ≡ₚ l' → ciEnd c = ciEnd c' → collected l c → collected l' c' →
    ∀ n s, ciFrames c !! n = Some s → ciFrames c' !! n = Some s) as Hsub.
  { intros l l' c c' Hll Hee Hc Hc' n s Hs.
    destruct (co_from _ _ Hc n s Hs) as (p & Hp & <- & ->).
    apply (co_kept _ _ Hc'); [by rewrite <-Hll|]. intros e Hes. rewrite <-Hee in Hes.
    apply (co_end _ _ Hc e Hes). by eexists. }
  assert (ciFrames c1 = ciFrames c2) as Hf.
  { apply map_eq. intros n. apply option_eq. intros s. split.
    - by apply (Hsub l1 l2 c1 c2).
    - by apply (Hsub l2 l1 c2 c1). }
  pose proof (co_size _ _ H1) as S1. pose proof (co_size _ _ H2) as S2.
  destruct c1, c2; simpl in *. congruence.
Qed.

(** ** Completeness *)

(** [ps] are all the frames of a channel, in order: frame [n] is numbered
    [n] and exactly the last one closes the channel. *)
Definition complete (l ps : list arrival) : Prop :=
  ps ≠ [] ∧ ∀ n p, ps !! n = Some p →
    p ∈ l ∧ number p = Z.of_nat n ∧ (fLast p.1 = true ↔ S n = length ps).

Definition ready (c : channelInput) (e : u16) : Prop :=
  ciEnd c = Some e ∧ Z.of_nat (size (ciFrames c)) = uval e + 1.

Definition frame_numbers (k : nat) : gset u16 :=
  list_to_set ((λ n, wrap 16 (Z.of_nat n)) <$> seq 0 k).

Lemma wrap16_number (n : nat) : Z.of_nat n < 65536 → uval (wrap 16 (Z.of_nat n)) = Z.of_nat n.
Proof. intros. apply uval_wrap_small. change (modulus 16) with 65536. lia. Qed.

Lemma elem_of_frame_numbers k x :
  Z.of_nat k <= 65536 → x ∈ frame_numbers k ↔ uval x < Z.of_nat k.
Proof.
  intros Hk. unfold frame_numbers. rewrite elem_of_list_to_set, list_elem_of_fmap. split.
  - intros (n & -> & Hn%elem_of_seq). rewrite wrap16_number; lia.
  - intros Hx. pose proof (uint_range x). exists (Z.to_nat (uval x)).
    rewrite Z2Nat.id, wrap_uval by lia. split; [done|]. apply elem_of_seq. lia.
Qed.

Lemma size_frame_numbers k : Z.of_nat k <= 65536 → size (frame_numbers k) = k.
Proof.
  intros Hk. unfold frame_numbers. rewrite size_list_to_set, length_fmap, length_seq; [done|].
  apply NoDup_fmap_2_strong; [|apply NoDup_seq].
  intros x y Hx%elem_of_seq Hy%elem_of_seq E%(f_equal uval).
  rewrite !wrap16_number in E; lia.
Qed.

Lemma list_choice {A} (R : nat → A → Prop) k :
  (∀ n, (n < k)%nat → ∃ p, R n p) →
  ∃ ps, length ps = k ∧ ∀ n p, ps !! n = Some p → R n p.
Proof.
  induction k as [|k IH]; intros H; [by exists []|].
  destruct IH as (ps & Hl & Hps); [intros; apply H; lia|].
  destruct (H k) as [p Hp]; [lia|]. exists (ps ++ [p]).
  split; [rewrite length_app; simpl; lia|].
  intros n q [Hq|[Hn Hq]]%lookup_app_Some; [by apply Hps|].
  apply list_lookup_singleton_Some in Hq as [Hz <-]. by replace n with k by lia.
Qed.

Lemma ready_all l c e n :
  collected l c → ready c e → (n < Z.to_nat (uval e + 1))%nat →
  is_Some (ciFrames c !! wrap 16 (Z.of_nat n)).
Proof.
  intros Hc [He Hs] Hn. pose proof (uint_range e) as Hr. change (modulus 16) with 65536 in Hr.
  assert (dom (ciFrames c) = frame_numbers (Z.to_nat (uval e + 1))) as Hdom.
  { apply set_subseteq_size_eq.
    - intros x Hx%elem_of_dom. apply elem_of_frame_numbers; [lia|].
      pose proof (proj2 (co_end _ _ Hc e He) x Hx). lia.
    - rewrite size_frame_numbers, size_dom by lia. lia. }
  apply elem_of_dom. rewrite Hdom. apply elem_of_frame_numbers; [lia|].
  rewrite wrap16_number; lia.
Qed.

Lemma ready_complete l c e :
  collected l c → ready c e →
  ∃ ps, complete l ps ∧ length ps = Z.to_nat (uval e + 1) ∧
    ∀ n p, ps !! n = Some p → ciFrames c !! wrap 16 (Z.of_nat n) = Some (source p).
Proof.
  intros Hc Hr. pose proof (uint_range e) as He. change (modulus 16) with 65536 in He.
  destruct (list_choice (λ n p, p ∈ l ∧ fNumber p.1 = wrap 16 (Z.of_nat n) ∧
    ciFrames c !! wrap 16 (Z.of_nat n) = Some (source p)) (Z.to_nat (uval e + 1)))
    as (ps & Hl & Hps).
  { intros n Hn. destruct (ready_all l c e n Hc Hr Hn) as [s Hs].
    destruct (co_from _ _ Hc _ _ Hs) as (p & Hp & Hnum & ->). by exists p. }
  exists ps. split; [|split; [done | by intros n p Hp; apply Hps]].
  split; [intros ->; simpl in Hl; lia|].
  intros n p Hp. destruct (Hps n p Hp) as (Hin & Hnum & Hf).
  apply lookup_lt_Some in Hp. destruct Hr as [Hend Hsz].
  assert (number p = Z.of_nat n) as Hn.
  { unfold number. rewrite Hnum. apply wrap16_number. lia. }
  split_and!; [done | done |]. split.
  - intros Hlast. pose proof (co_last _ _ Hc p Hin Hlast) as E.
    assert (e = fNumber p.1) as -> by congruence. unfold number in Hn. lia.
  - intros Hlen. destruct (co_end _ _ Hc e Hend) as ((q & Hq & Hql & Hqn) & _).
    assert (fNumber p.1 = fNumber q.1) as E.
    { rewrite Hqn. apply uint_eq. unfold number in Hn. lia. }
    assert (ciFrames c !! fNumber q.1 = Some (source q)) as Hf2.
    { apply (co_kept _ _ Hc q Hq). intros e' He'. unfold number. rewrite Hqn.
      assert (e' = e) as -> by congruence. lia. }
    rewrite <-E, Hnum, Hf in Hf2. injection Hf2 as E2 _ _. by rewrite E2.
Qed.

Lemma complete_ready l c ps :
  collected l c → complete l ps →
  ∃ e, ready c e ∧ length ps = Z.to_nat (uval e + 1).
Proof.
  intros Hc [Hne Hps].
  destruct (last ps) as [p|] eqn:Elast; [|by apply last_None in Elast].
  rewrite last_lookup in Elast. pose proof (lookup_lt_Some _ _ _ Elast) as Hlt.
  destruct (Hps _ _ Elast) as (Hin & Hn & Hl).
  assert (ciEnd c = Some (fNumber p.1)) as He.
  { apply (co_last _ _ Hc); [done|]. apply Hl. lia. }
  unfold number in Hn. exists (fNumber p.1). split; [|lia].
  split; [done|]. pose proof (uint_range (fNumber p.1)) as Hr.
  change (modulus 16) with 65536 in Hr.
  assert (dom (ciFrames c) = frame_numbers (length ps)) as Hdom.
  { apply set_eq. intros x. rewrite elem_of_frame_numbers, elem_of_dom by lia. split.
    - intros Hx. pose proof (proj2 (co_end _ _ Hc _ He) x Hx). lia.
    - intros Hx. pose proof (uint_range x).
      destruct (lookup_lt_is_Some_2 ps (Z.to_nat (uval x))) as [q Hq]; [lia|].
      destruct (Hps _ _ Hq) as (Hqin & Hqn & _). unfold number in Hqn.
      assert (x = fNumber q.1) as -> by (apply uint_eq; lia).
      eexists. apply (co_kept _ _ Hc q Hqin). intros e' He'. unfold number.
      assert (e' = fNumber p.1) as -> by congruence. lia. }
  rewrite <-size_dom, Hdom, size_frame_numbers; lia.
Qed.
