(* ===== verification/ChannelTheorems.v ===== *)
(** * What channel assembly guarantees *)
From stdpp Require Import fin_sets.
From S2P Require Import Prelude Word Geth StoreTypes BlobCodec SpanReader Span SpanFacts.
From S2P Require Import SpanTheorems Channels ChannelFacts.

(** ** From transactions to channels *)

(** The frames of the submission in order of arrival. *)
Definition tx_arrivals (tx : BlobTransaction) : list arrival :=
  if btMissing tx then [] else (λ f, (f, tx)) <$> btFrames tx.
Definition arrivals (txs : list BlobTransaction) : list arrival := txs ≫= tx_arrivals.

Definition of_channel (id : FrameID) (l : list arrival) : list arrival :=
  filter (λ p, fID p.1 = id) l.

Definition add_arrival (channels : gmap FrameID channelInput) (p : arrival) :
    result (gmap FrameID channelInput) := add_frame p.2 channels p.1.

Lemma add_tx_arrivals channels tx : add_tx channels tx = foldM add_arrival channels (tx_arrivals tx).
Proof.
  unfold add_tx, tx_arrivals. destruct (btMissing tx); [done|].
  revert channels. induction (btFrames tx) as [|f fs IH]; intros channels; [done|].
  cbn [foldM fmap list_fmap]. unfold add_arrival at 1. cbn [fst snd].
  destruct (add_frame tx channels f); [apply IH | done | done].
Qed.

Lemma add_txs_arrivals txs : ∀ channels,
  foldM add_tx channels txs = foldM add_arrival channels (arrivals txs).
Proof.
  induction txs as [|tx txs IH]; intros channels; [done|].
  cbn [foldM]. unfold arrivals in *. cbn [mbind list_bind]. rewrite foldM_app, <-add_tx_arrivals.
  destruct (add_tx channels tx); [apply IH | done | done].
Qed.

(** Each channel is the fold of its own arrivals. *)
Lemma channels_collect l : ∀ m m',
  foldM add_arrival m l = Ok m' → ∀ id,
  collect (default new_channel (m !! id)) (of_channel id l) =
    Ok (default new_channel (m' !! id)) ∧
  (m' !! id = None ↔ m !! id = None ∧ of_channel id l = []).
Proof.
  induction l as [|p l IH]; intros m m' Hm id; cbn [foldM] in Hm.
  { injection Hm as <-. unfold collect, of_channel. simpl. split; [done | tauto]. }
  unfold add_arrival at 1, add_frame in Hm.
  destruct (add (default new_channel (m !! fID p.1)) p.1 p.2) as [c| |] eqn:Hv; [|done..].
  cbn [bind] in Hm.
  destruct (IH _ _ Hm id) as [H1 H2]. unfold of_channel in *. rewrite filter_cons.
  destruct (decide (fID p.1 = id)) as [<-|Hne].
  - rewrite lookup_insert_eq in H1, H2. unfold collect in *. cbn [foldM].
    rewrite Hv. cbn [bind]. split; [done|]. rewrite H2. by split; [intros [? _] | intros [_ ?]].
  - by rewrite lookup_insert_ne in H1, H2.
Qed.

Lemma channels_collected l m id c :
  foldM add_arrival ∅ l = Ok m → m !! id = Some c → collected (of_channel id l) c.
Proof.
  intros Hm Hid. destruct (channels_collect l ∅ m Hm id) as [H1 _].
  rewrite lookup_empty, Hid in H1. by apply collect_collected.
Qed.

Lemma channels_dom l m id :
  foldM add_arrival ∅ l = Ok m → m !! id = None ↔ of_channel id l = [].
Proof.
  intros Hm. destruct (channels_collect l ∅ m Hm id) as [_ H2].
  rewrite H2, lookup_empty. tauto.
Qed.

Lemma of_channel_perm id l1 l2 : l1 ≡ₚ l2 → of_channel id l1 ≡ₚ of_channel id l2.
Proof. intros Hl. unfold of_channel. by rewrite Hl. Qed.

Lemma channels_unique l1 l2 m1 m2 :
  l1 ≡ₚ l2 → foldM add_arrival ∅ l1 = Ok m1 → foldM add_arrival ∅ l2 = Ok m2 → m1 = m2.
Proof.
  intros Hl H1 H2. apply map_eq. intros id.
  pose proof (of_channel_perm id l1 l2 Hl) as Hp.
  pose proof (channels_dom l1 m1 id H1) as D1. pose proof (channels_dom l2 m2 id H2) as D2.
  destruct (m1 !! id) as [c1|] eqn:E1, (m2 !! id) as [c2|] eqn:E2; [| | |done].
  - f_equal. eapply collected_unique; [exact Hp | by eapply channels_collected..].
  - destruct D2 as [D2 _]. rewrite D2 in Hp by done. apply Permutation_nil_r in Hp.
    by apply D1 in Hp.
  - destruct D1 as [D1 _]. rewrite D1 in Hp by done. symmetry in Hp.
    apply Permutation_nil_r in Hp. by apply D2 in Hp.
Qed.

(** ** The order of channels *)

Lemma id_less_iff a b : id_less a b = (uval a <? uval b).
Proof.
  unfold id_less. rewrite <-(app_nil_r (be_bytes 16 (uval a))), <-(app_nil_r (be_bytes 16 (uval b))).
  rewrite bytes_lt_value by (by rewrite !length_be_bytes).
  rewrite bytes_lt_irrefl, andb_false_r, orb_false_r, !be_value_be_bytes. change (256 ^ Z.of_nat 16) with (modulus 128).
  by rewrite !Z.mod_small by apply uint_range.
Qed.

Lemma id_less_weak : weak_order id_less.
Proof.
  split.
  - intros a b c. rewrite !id_less_iff, !Z.ltb_ge. lia.
  - intros a b. rewrite !id_less_iff, Z.ltb_lt, Z.ltb_ge. lia.
Qed.

Lemma StronglySorted_strict (l : list FrameID) :
  NoDup l → StronglySorted (λ a b, id_less b a = false) l →
  StronglySorted (λ a b, id_less a b = true) l.
Proof.
  induction 2 as [|a l Hs IH Ha]; [constructor|]. apply NoDup_cons in H as [Hnin Hnd].
  constructor; [by apply IH|]. apply Forall_forall. intros b Hb.
  eapply Forall_forall in Ha; [|exact Hb]. rewrite id_less_iff in *. bool_to_prop.
  apply Z.ltb_lt. assert (uval a ≠ uval b); [|lia].
  intros E%uint_eq. by subst.
Qed.

(** ** Assembling one channel *)

(** What the loop over the frames computes. *)
Definition assembled (ps : list arrival) (a : assembly) : Prop :=
  asData a = concat ((λ p, fData p.1) <$> ps) ∧
  NoDup (asSources a) ∧
  (∀ h, h ∈ asSources a ↔ h ∈ (λ p, btHash p.2) <$> ps) ∧
  (∀ p, p ∈ ps → uval (asOldest a) <= uval (btTimestamp p.2)) ∧
  (ps ≠ [] → asOldest a ∈ (λ p, btTimestamp p.2) <$> ps).

Definition loop_inv (ps : list arrival) (a : assembly) : Prop :=
  asData a = concat ((λ p, fData p.1) <$> ps) ∧
  NoDup (asSources a) ∧
  (∀ h, h ∈ asSources a ↔ h ∈ (λ p, btHash p.2) <$> ps) ∧
  (∀ h, h ∈ asSeen a ↔ h ∈ asSources a) ∧
  (∀ p, p ∈ ps → uval (asOldest a) <= uval (btTimestamp p.2)) ∧
  (asOldest a = max_uint64 ∨ asOldest a ∈ (λ p, btTimestamp p.2) <$> ps).

Lemma assemble_step_inv c a ps p (n : nat) :
  ciFrames c !! wrap 16 (Z.of_nat n) = Some (source p) → loop_inv ps a →
  ∃ a', assemble_step c a n = Ok a' ∧ loop_inv (ps ++ [p]) a'.
Proof.
  intros Hp (Hd & Hnd & Hs & Hseen & Hle & Hin). unfold assemble_step. rewrite Hp.
  cbn [source fsFrame fsHash fsTimestamp].
  set (oldest := if ult _ _ then _ else _).
  assert (∀ q, q ∈ ps ++ [p] → uval oldest <= uval (btTimestamp q.2)) as Hle'.
  { intros q [Hq| ->%list_elem_of_singleton]%elem_of_app; unfold oldest, ult.
    - specialize (Hle q Hq). destruct (Z.ltb_spec (uval (btTimestamp p.2)) (uval (asOldest a))); lia.
    - destruct (Z.ltb_spec (uval (btTimestamp p.2)) (uval (asOldest a))); lia. }
  assert (oldest = max_uint64 ∨ oldest ∈ (λ p, btTimestamp p.2) <$> ps ++ [p]) as Hin'.
  { rewrite fmap_app, elem_of_app. unfold oldest. destruct (ult _ _).
    - right. right. by apply list_elem_of_singleton.
    - destruct Hin; auto. }
  assert (asData a ++ fData p.1 = concat ((λ p, fData p.1) <$> ps ++ [p])) as Hd'.
  { rewrite fmap_app, concat_app, <-Hd. simpl. by rewrite app_nil_r. }
  case_bool_decide as Hseen'.
  - eexists. split; [done|]. split_and!; cbn [asData asSources asSeen asOldest]; try done.
    intros h. rewrite Hs, fmap_app, elem_of_app. split; [by left|].
    intros [?| ->%list_elem_of_singleton]; [done|]. by apply Hs, Hseen.
  - eexists. split; [done|]. split_and!; cbn [asData asSources asSeen asOldest]; try done.
    + apply NoDup_app. split_and!; [done | | apply NoDup_singleton].
      intros h Hh ->%list_elem_of_singleton. by apply Hseen in Hh.
    + intros h. rewrite fmap_app, !elem_of_app, Hs. simpl. done.
    + intros h. rewrite elem_of_union, elem_of_app, Hseen, elem_of_singleton,
        list_elem_of_singleton. tauto.
Qed.

Lemma assemble_loop c ps :
  (∀ n p, ps !! n = Some p → ciFrames c !! wrap 16 (Z.of_nat n) = Some (source p)) →
  ∃ a, foldM (assemble_step c) (mkAssembly [] [] ∅ max_uint64) (seq 0 (length ps)) = Ok a ∧
    loop_inv ps a.
Proof.
  induction ps as [|p ps IH] using rev_ind; intros Hps.
  { eexists. split; [done|]. split_and!; simpl; try done.
    all: first [apply NoDup_nil_2 | set_solver | by left]. }
  destruct IH as (a & Ha & Hinv).
  { intros n q Hq. apply Hps. by apply lookup_app_l_Some. }
  destruct (assemble_step_inv c a ps p (length ps)) as (a' & Ha' & Hinv').
  { apply Hps. by rewrite lookup_app_r, Nat.sub_diag by lia. }
  { done. }
  exists a'. split; [|done]. rewrite length_app, Nat.add_1_r, seq_S, foldM_app, Ha.
  cbn [bind foldM]. rewrite Nat.add_0_l, Ha'. done.
Qed.

Lemma loop_assembled ps a : loop_inv ps a → assembled ps a.
Proof.
  intros (? & ? & ? & ? & Hle & Hin). split_and!; try done.
  intros Hne. destruct Hin as [Hmax|]; [|done].
  destruct ps as [|p ps]; [done|]. specialize (Hle p ltac:(set_solver)).
  rewrite Hmax in *. apply list_elem_of_fmap. exists p. split; [|set_solver].
  apply uint_eq. rewrite uval_max_uint64 in *. pose proof (uint_range (btTimestamp p.2)) as Hr.
  change (modulus 64) with (2 ^ 64) in Hr. lia.
Qed.

(** ** The commitment check *)

Definition inside (batch : BlockBatch) (b : Block) : Prop :=
  uval (baPrevTotalElements batch) <= uval (bIndex b) <
  uval (baPrevTotalElements batch) + uval (baSize batch).

Lemma in_batch_iff batch b : in_batch batch b = true ↔ inside batch b.
Proof.
  unfold in_batch, inside, ult, ule. rewrite negb_true_iff, orb_false_iff, Z.ltb_ge, Z.leb_gt.
  pose proof (uint_range (bIndex b)). pose proof (uint_range (baPrevTotalElements batch)).
  destruct (Z.le_gt_cases (uval (baPrevTotalElements batch)) (uval (bIndex b))).
  - unfold usub. rewrite uval_wrap_small by lia. lia.
  - lia.
Qed.

Lemma check_blocks batch blocks : ∀ acc,
  (foldM (check_block batch) acc blocks = Ok (acc ++ (bIndex <$> blocks)) ∧
    Forall (inside batch) blocks) ∨
  (∃ e, foldM (check_block batch) acc blocks = Err e ∧ errors_Is e ErrInvalid = true).
Proof.
  induction blocks as [|b blocks IH]; intros acc; cbn [foldM].
  { left. split; [by rewrite app_nil_r | constructor]. }
  unfold check_block at 1 3. destruct (in_batch batch b) eqn:Hb; cbn [negb bind].
  2:{ right. by eexists. }
  apply in_batch_iff in Hb. destruct (IH (acc ++ [bIndex b])) as [[-> Hall]|He]; [left|by right].
  split; [by rewrite <-app_assoc | by constructor].
Qed.

(** ** Decoding the channels *)

Section decode.
Context `{RLPLaws, EthTxLaws, GethText, Decompress, SortSliceLaws}.

(** The channel record the frames [ps] give. *)
Definition channel_spec (batch : BlockBatch) (chainID : u64) (id : FrameID)
    (ps : list arrival) (ch : BlobChannel) : Prop :=
  ∃ sources blocks oldest,
    ch = mkBlobChannel (mkChannelRecord (channel_name batch id) sources (bIndex <$> blocks)
           batch oldest) blocks ∧
    decodeChannel (concat ((λ p, fData p.1) <$> ps)) (baIndex batch) chainID = Ok blocks ∧
    blocks ≠ [] ∧ Forall (inside batch) blocks ∧
    NoDup sources ∧ (∀ h, h ∈ sources ↔ h ∈ (λ p, btHash p.2) <$> ps) ∧
    oldest ∈ (λ p, btTimestamp p.2) <$> ps ∧
    ∀ p, p ∈ ps → uval oldest <= uval (btTimestamp p.2).

Lemma decodeReadyChannel_incomplete l c id batch chainID :
  collected l c → (∀ ps, ¬ complete l ps) →
  decodeReadyChannel c id batch chainID = Ok None.
Proof.
  intros Hc Hn. unfold decodeReadyChannel. destruct (ciEnd c) as [e|] eqn:He; [|done].
  destruct (Z.eqb_spec (Z.of_nat (size (ciFrames c))) (uval e + 1)) as [Hs|]; [|done].
  destruct (ready_complete l c e Hc) as (ps & Hps & _); [by split|]. by destruct (Hn ps).
Qed.

Lemma decodeReadyChannel_complete l c id batch chainID ps0 :
  collected l c → complete l ps0 →
  (∃ ps ch, decodeReadyChannel c id batch chainID = Ok (Some ch) ∧ complete l ps ∧
    channel_spec batch chainID id ps ch) ∨
  (∃ e, decodeReadyChannel c id batch chainID = Err e ∧ span_error e).
Proof.
  intros Hc Hps0. destruct (complete_ready l c ps0 Hc Hps0) as (e & Hr & _).
  destruct (ready_complete l c e Hc Hr) as (ps & Hps & Hlen & Hlook).
  destruct Hr as [He Hs]. unfold decodeReadyChannel. rewrite He, Hs, Z.eqb_refl.
  cbn [negb]. rewrite <-Hlen.
  destruct (assemble_loop c ps Hlook) as (a & -> & Ha%loop_assembled).
  destruct Ha as (Hd & Hnd & Hsrc & Hle & Hin). cbn [bind].
  destruct (decodeChannel_cases (asData a) (baIndex batch) chainID)
    as [(spans & Hdec & _)|(err & Hdec & Herr)]; rewrite Hdec; cbn [bind].
  2:{ right. by exists err. }
  case_bool_decide as Hnil; [right; eexists; split; [done | by left]|].
  destruct (check_blocks batch (concat spans) []) as [[-> Hall]|(err & -> & Herr)]; cbn [bind].
  2:{ right. exists err. split; [done | by left]. }
  left. eexists ps, _. split; [done|]. split; [done|].
  exists (asSources a), (concat spans), (asOldest a).
  rewrite <-Hd. split_and!; try done. apply Hin, Hps.
Qed.

Lemma add_cases c f tx :
  (∃ c', add c f tx = Ok c') ∨ (∃ e, add c f tx = Err e ∧ errors_Is e ErrInvalid = true).
Proof.
  assert (∀ msg, errors_Is (errorf ErrInvalid msg) ErrInvalid = true) as He by done.
  unfold add. destruct (bool_decide _); [right; by eexists|].
  destruct (fLast f && _); [right; by eexists|].
  destruct (match ciEnd c with Some e => _ | None => _ end); [right; by eexists|].
  destruct (MaxChannelBytes <? _); [right; by eexists | left; by eexists].
Qed.

Lemma add_arrivals_cases l : ∀ m,
  (∃ m', foldM add_arrival m l = Ok m') ∨
  (∃ e, foldM add_arrival m l = Err e ∧ errors_Is e ErrInvalid = true).
Proof.
  induction l as [|p l IH]; intros m; cbn [foldM]; [left; by eexists|].
  assert ((∃ m', add_arrival m p = Ok m') ∨
    ∃ e, add_arrival m p = Err e ∧ errors_Is e ErrInvalid = true) as [[m' ->]|(e & -> & He)].
  { unfold add_arrival, add_frame.
    destruct (add_cases (default new_channel (m !! fID p.1)) p.1 p.2) as [[c ->]|(e & -> & He)];
      [left; by eexists | right; by exists e]. }
  - apply IH.
  - right. by exists e.
Qed.

(** The channels of a submission that are decoded, and in which order. *)
Definition ready_ids (l : list arrival) (ids : list FrameID) : Prop :=
  StronglySorted (λ a b, id_less a b = true) ids ∧
  ∀ id, id ∈ ids ↔ ∃ ps, complete (of_channel id l) ps.

Definition decoded_as (l : list arrival) (batch : BlockBatch) (chainID : u64)
    (id : FrameID) (ch : BlobChannel) : Prop :=
  ∃ ps, complete (of_channel id l) ps ∧ channel_spec batch chainID id ps ch.

Lemma decodeReadyChannel_cases l c id batch chainID :
  collected l c →
  ((∀ ps, ¬ complete l ps) ∧ decodeReadyChannel c id batch chainID = Ok None) ∨
  (∃ ps ch, decodeReadyChannel c id batch chainID = Ok (Some ch) ∧ complete l ps ∧
    channel_spec batch chainID id ps ch) ∨
  (∃ e, decodeReadyChannel c id batch chainID = Err e ∧ span_error e).
Proof.
  intros Hc.
  assert ((∃ e, ready c e) ∨ ¬ ∃ e, ready c e) as [[e Hr]|Hnr].
  { unfold ready. destruct (ciEnd c) as [e|]; [|right; by intros (? & ? & _)].
    destruct (Z.eq_dec (Z.of_nat (size (ciFrames c))) (uval e + 1)); [left; by exists e|].
    right. intros (? & [= <-] & ?). done. }
  - right. destruct (ready_complete l c e Hc Hr) as (ps & Hps & _).
    by apply (decodeReadyChannel_complete l c id batch chainID ps).
  - left. assert (∀ ps, ¬ complete l ps) as Hn.
    { intros ps Hps. destruct (complete_ready l c ps Hc Hps) as (e & Hr & _).
      apply Hnr. by exists e. }
    split; [done|]. by apply decodeReadyChannel_incomplete with l.
Qed.

Lemma decode_loop_cases l m batch chainID ids : ∀ out,
  foldM add_arrival ∅ l = Ok m → NoDup ids →
  (∀ id, id ∈ ids → is_Some (m !! id)) →
  (∃ chs ready, foldM (decode_ready m batch chainID) out ids = Ok (out ++ chs) ∧
    sublist ready ids ∧
    (∀ id, id ∈ ids → (id ∈ ready ↔ ∃ ps, complete (of_channel id l) ps)) ∧
    Forall2 (decoded_as l batch chainID) ready chs) ∨
  (∃ e, foldM (decode_ready m batch chainID) out ids = Err e ∧ span_error e).
Proof.
  intros out Hm. revert out. induction ids as [|id ids IH]; intros out Hnd Hids; cbn [foldM].
  { left. exists [], []. rewrite app_nil_r. split_and!; [done | constructor | | constructor].
    intros id Hid. by apply not_elem_of_nil in Hid. }
  apply NoDup_cons in Hnd as [Hnin Hnd].
  destruct (Hids id) as [c Hc]; [by left|].
  pose proof (channels_collected l m id c Hm Hc) as Hco.
  assert (∀ id, id ∈ ids → is_Some (m !! id)) as Hids' by (intros x Hx; apply Hids; by right).
  unfold decode_ready at 1 3. rewrite Hc. change (default new_channel (Some c)) with c.
  destruct (decodeReadyChannel_cases _ c id batch chainID Hco)
    as [[Hn ->]|[(ps & ch & -> & Hps & Hch)|(e & -> & He)]]; cbn [bind];
    [| |right; by exists e].
  - destruct (IH out Hnd Hids') as [(chs & rd & -> & Hsub & Hiff & Hall)|He]; [left|by right].
    exists chs, rd. split_and!; [done | by constructor | | done].
    intros x [->|Hx]%elem_of_cons; [|by apply Hiff]. split.
    + intros Hx. destruct Hnin. by eapply elem_of_sublist.
    + intros [ps Hps]. by destruct (Hn ps).
  - destruct (IH (out ++ [ch]) Hnd Hids') as [(chs & rd & -> & Hsub & Hiff & Hall)|He];
      [left|by right].
    exists (ch :: chs), (id :: rd). rewrite <-app_assoc.
    split_and!; [done | by constructor | | constructor; [by exists ps | done]].
    intros x [->|Hx]%elem_of_cons.
    + split; [by exists ps | by left].
    + rewrite elem_of_cons, Hiff by done. split; [|by right].
      intros [->|?]; [by exists ps | done].
Qed.

Lemma DecodeChannels_cases txs batch chainID :
  (∃ ids chs, DecodeChannels txs batch chainID = Ok chs ∧ ready_ids (arrivals txs) ids ∧
    Forall2 (decoded_as (arrivals txs) batch chainID) ids chs) ∨
  (∃ e, DecodeChannels txs batch chainID = Err e ∧ span_error e).
Proof.
  unfold DecodeChannels. rewrite add_txs_arrivals.
  destruct (add_arrivals_cases (arrivals txs) ∅) as [[m Hm]|(e & -> & He)]; [rewrite Hm|].
  2:{ right. exists e. split; [done | by left]. }
  cbn [bind]. set (ids := sort_Slice id_less (elements (dom m))).
  assert (ids ≡ₚ elements (dom m)) as Hperm by apply sort_Slice_Permutation.
  assert (NoDup ids) as Hnd by (rewrite Hperm; apply NoDup_elements).
  assert (∀ id, id ∈ ids ↔ is_Some (m !! id)) as Hin.
  { intros id. rewrite Hperm, elem_of_elements. apply elem_of_dom. }
  destruct (decode_loop_cases (arrivals txs) m batch chainID ids [] Hm Hnd)
    as [(chs & rd & -> & Hsub & Hiff & Hall)|He]; [intros id; apply Hin | left | by right].
  exists rd, chs. split_and!; [done | split | done].
  - apply (StronglySorted_sublist _ rd ids Hsub), StronglySorted_strict; [done|].
    apply sort_Slice_sorted, id_less_weak.
  - intros id. destruct (decide (id ∈ ids)) as [Hid|Hid]; [by apply Hiff|]. split.
    + intros Hrd. destruct Hid. by eapply elem_of_sublist.
    + intros [ps [Hne Hps]]. destruct Hid. apply Hin.
      destruct (m !! id) eqn:E; [done|]. apply (channels_dom _ _ _ Hm) in E.
      destruct ps as [|p ps]; [done|]. destruct (Hps 0%nat p eq_refl) as [Hp _].
      rewrite E in Hp. by apply not_elem_of_nil in Hp.
Qed.

(** ** Properties *)

(** [C7] What [DecodeChannels] returns.  It never panics and fails only with
    ErrInvalid (or when go-ethereum cannot encode a transaction).  On success
    it decodes exactly the channels all of whose frames arrived, in the order
    of their IDs: the data of a channel is the concatenation of its frames
    0 .. end, its sources are the transactions of those frames without
    repetition, it expires with the oldest of them, and its blocks are
    non-empty and lie inside the Inbox commitment.  The "channel gap" error is
    unreachable. *)
Theorem DecodeChannels_exact txs batch chainID :
  (∃ ids chs, DecodeChannels txs batch chainID = Ok chs ∧ ready_ids (arrivals txs) ids ∧
    Forall2 (decoded_as (arrivals txs) batch chainID) ids chs) ∨
  (∃ e, DecodeChannels txs batch chainID = Err e ∧ span_error e).
Proof. apply DecodeChannels_cases. Qed.

(** [C32] The order in which the frames of a submission arrive does not
    matter: two sequences of transactions that carry the same frames and are
    both accepted give the same result.  (A frame beyond the end of its
    channel is dropped when it arrives before the closing frame and refused
    after it, so acceptance itself depends on the order.) *)
Theorem DecodeChannels_order txs1 txs2 m1 m2 batch chainID :
  arrivals txs1 ≡ₚ arrivals txs2 →
  foldM add_tx ∅ txs1 = Ok m1 → foldM add_tx ∅ txs2 = Ok m2 →
  DecodeChannels txs1 batch chainID = DecodeChannels txs2 batch chainID.
Proof.
  intros Hperm E1 E2. unfold DecodeChannels. rewrite E1, E2. cbn [bind].
  rewrite add_txs_arrivals in E1, E2.
  by rewrite (channels_unique _ _ m1 m2 Hperm E1 E2).
Qed.

End decode.

(** ** A concrete submission *)

Module ChannelWitness.

#[local] Existing Instances SpanWitness.rlp0 SpanWitness.rlp0_laws SpanWitness.eth0
  SpanWitness.eth0_laws SpanWitness.zip0 HexText.text merge_slice merge_slice_laws.

(** One channel in two frames, carried by two transactions. *)
Definition frame (n : Z) (last : bool) (d : bytes) : Frame :=
  mkFrame (wrap 128 5) (wrap 16 n) last d.
Definition tx (h t : Z) (f : Frame) : BlobTransaction :=
  mkBlobTransaction (wrap 256 h) (wrap 256 70) (#64 100) (#64 t) (#64 0) false [f].
Definition first : BlobTransaction := tx 1 1000 (frame 0 false (take 20 SpanWitness.channel0)).
Definition second : BlobTransaction := tx 2 900 (frame 1 true (drop 20 SpanWitness.channel0)).
Definition batch0 : BlockBatch :=
  mkBatch (#64 7) zero_hash (#64 1) (#64 11) "" (#64 100) (#64 1000) zero_address (wrap 256 8).

Lemma DecodeChannels_exact_witness :
  is_ok (DecodeChannels [first; second] batch0 (#64 1088)) = true ∧
  ((∃ ids chs, DecodeChannels [first; second] batch0 (#64 1088) = Ok chs ∧
     ready_ids (arrivals [first; second]) ids ∧
     Forall2 (decoded_as (arrivals [first; second]) batch0 (#64 1088)) ids chs) ∨
   (∃ e, DecodeChannels [first; second] batch0 (#64 1088) = Err e ∧ span_error e)).
Proof. split; [vm_compute; reflexivity|]. apply DecodeChannels_exact. Defined.

Definition get_channels (txs : list BlobTransaction) : gmap FrameID channelInput :=
  match foldM add_tx ∅ txs with Ok m => m | _ => ∅ end.

Lemma get_channels_ok txs :
  is_ok (foldM add_tx ∅ txs) = true → foldM add_tx ∅ txs = Ok (get_channels txs).
Proof. unfold get_channels. by destruct (foldM add_tx ∅ txs). Qed.

Lemma DecodeChannels_order_witness :
  DecodeChannels [first; second] batch0 (#64 1088) =
  DecodeChannels [second; first] batch0 (#64 1088).
Proof.
  apply (DecodeChannels_order _ _ (get_channels [first; second]) (get_channels [second; first])).
  - apply Permutation_swap.
  - apply get_channels_ok. vm_compute. reflexivity.
  - apply get_channels_ok. vm_compute. reflexivity.
Defined.

End ChannelWitness.
