(* ===== verification/Status.v ===== *)
(** * Service health (internal/ingest/status.go)

    Both ingestion loops and the HTTP handlers share one [Status]; its mutex
    makes every method one atomic step.  The channel of [Done] is closed by
    the first fatal error.  [commitIfHealthy] runs a durable commit under the
    lock, so fatal publication is a barrier: what has started finishes before
    it, nothing starts after it. *)
From S2P Require Import Prelude.

(** [halted]: nil, or a channel that is open or closed. *)
Inductive chan : Type := ChanOpen | ChanClosed.

Record Status : Type := mkStatus {
  stReady : bool;
  stBlobEnabled : bool;
  stBlobReady : bool;
  stFatal : option error;
  stHalted : option chan;
}.

(** [&Status{}] *)
Definition new_Status : Status := mkStatus false false false None None.

(** [s.fatal == nil] *)
Definition is_nil {A} (o : option A) : bool := match o with None => true | Some _ => false end.

Definition Snapshot (s : Status) : bool * option error :=
  (stReady s && (negb (stBlobEnabled s) || stBlobReady s), stFatal s).

Definition EnableBlob (s : Status) : Status :=
  mkStatus (stReady s) true false (stFatal s) (stHalted s).

Definition SetBlobReady (ready : bool) (s : Status) : Status :=
  mkStatus (stReady s) (stBlobEnabled s) (ready && is_nil (stFatal s)) (stFatal s) (stHalted s).

(** [close] panics on a closed channel. *)
Definition close_chan (c : chan) : result chan :=
  match c with ChanOpen => Ok ChanClosed | ChanClosed => Panic end.

(** [Set]; the first error is published and closes the channel. *)
Definition Set_ (ready : bool) (err : option error) (s : Status) : result Status :=
  let! s :=
    match err, stFatal s with
    | Some e, None =>
        let! c := close_chan (match stHalted s with None => ChanOpen | Some c => c end) in
        Ok (mkStatus (stReady s) (stBlobEnabled s) (stBlobReady s) (Some e) (Some c))
    | _, _ => Ok s
    end in
  Ok (mkStatus (ready && is_nil (stFatal s)) (stBlobEnabled s) (stBlobReady s) (stFatal s)
        (stHalted s)).

(** [Done] returns the channel, which it creates on first use. *)
Definition Done (s : Status) : Status * chan :=
  let c := match stHalted s with None => ChanOpen | Some c => c end in
  (mkStatus (stReady s) (stBlobEnabled s) (stBlobReady s) (stFatal s) (Some c), c).

(** [commitIfHealthy]: a commit is a function of the state it writes. *)
Definition commitIfHealthy {S} (s : Status) (commit : S → result S) (x : S) : result S :=
  match stFatal s with
  | Some e => Err e
  | None => commit x
  end.
Definition CommitIfHealthy {S} := @commitIfHealthy S.

(** ** The operations other goroutines perform *)

Inductive status_op : Type :=
  | OpEnableBlob
  | OpSetBlobReady (ready : bool)
  | OpSet (ready : bool) (err : option error)
  | OpDone.

Definition run_op (s : Status) (o : status_op) : result Status :=
  match o with
  | OpEnableBlob => Ok (EnableBlob s)
  | OpSetBlobReady b => Ok (SetBlobReady b s)
  | OpSet b e => Set_ b e s
  | OpDone => Ok (Done s).1
  end.

Definition run_ops : Status → list status_op → result Status := foldM run_op.

(** ** The invariant *)

Record status_ok (s : Status) : Prop := {
  so_ready : stReady s = true → stFatal s = None;
  so_halted : stHalted s = Some ChanClosed ↔ stFatal s ≠ None;
}.

Lemma new_Status_ok : status_ok new_Status.
Proof. by split. Qed.

(** A step keeps a published error, whatever it sets. *)
Definition keeps_fatal (s s' : Status) : Prop :=
  ∀ e, stFatal s = Some e → stFatal s' = Some e.

Lemma Set_total ready err s :
  status_ok s →
  ∃ s', Set_ ready err s = Ok s' ∧ status_ok s' ∧ keeps_fatal s s' ∧
    stFatal s' = match stFatal s with Some e => Some e | None => err end ∧
    stReady s' = ready && is_nil (stFatal s') ∧
    stBlobEnabled s' = stBlobEnabled s ∧ stBlobReady s' = stBlobReady s.
Proof.
  destruct s as [r be br f h]. intros [Hr [Hh1 Hh2]]. simpl in *.
  unfold Set_, keeps_fatal. cbn [stFatal stHalted].
  destruct err as [e|], f as [e0|]; cbn [bind stFatal stHalted];
    try (eexists; split_and!; [done | split; simpl; [by destruct ready | done] | done..]).
  assert (close_chan (match h with None => ChanOpen | Some c => c end) = Ok ChanClosed) as ->.
  { destruct h as [[]|]; [done | by destruct Hh1 | done]. }
  cbn [bind]. eexists. split_and!; [done | split; simpl; [by destruct ready | by split] | done..].
Qed.

Lemma run_op_total s o :
  status_ok s → ∃ s', run_op s o = Ok s' ∧ status_ok s' ∧ keeps_fatal s s'.
Proof.
  intros Hs. destruct o as [|b|b e|]; simpl.
  - eexists. split; [done|]. split; [by destruct Hs | by intros ?].
  - eexists. split; [done|]. split; [by destruct Hs | by intros ?].
  - destruct (Set_total b e s Hs) as (s' & H1 & H2 & H3 & _). eauto.
  - eexists. split; [done|]. split; [|by intros ?]. destruct Hs as [Hr Hh].
    split; [done|]. simpl. destruct (stHalted s) as [c|]; [done|]. rewrite <-Hh. done.
Qed.

Lemma run_ops_total ops : ∀ s,
  status_ok s → ∃ s', run_ops s ops = Ok s' ∧ status_ok s' ∧ keeps_fatal s s'.
Proof.
  induction ops as [|o ops IH]; intros s Hs; unfold run_ops; cbn [foldM]; fold run_ops.
  - exists s. split_and!; [done | done | by intros ?].
  - destruct (run_op_total s o Hs) as (s1 & -> & H1 & K1). cbn [bind].
    destruct (IH s1 H1) as (s2 & -> & H2 & K2). exists s2. split_and!; [done..|].
    intros e He. by apply K2, K1.
Qed.

(** ** Interleavings *)

(** What the goroutines of the service do to the status and the data they
    commit: an operation, or a guarded commit. *)
Inductive event (S : Type) : Type :=
  | EvOp (o : status_op)
  | EvCommit (commit : S → result S).
Arguments EvOp {S} o.
Arguments EvCommit {S} commit.

(** The callback with its call made visible: the flag of the state becomes
    true when it runs; a failed commit leaves the data alone. *)
Definition observed {S} (commit : S → result S) (xb : S * bool) : result (S * bool) :=
  Ok (match commit xb.1 with Ok x' => x' | _ => xb.1 end, true).

(** One atomic step, with whether a commit ran in it. *)
Definition status_step {S} (st : Status * S) (ev : event S) : result (Status * S * bool) :=
  let '(s, x) := st in
  match ev with
  | EvOp o => let! s := run_op s o in Ok (s, x, false)
  | EvCommit commit =>
      match commitIfHealthy s (observed commit) (x, false) with
      | Ok (x, ran) => Ok (s, x, ran)
      | Err _ => Ok (s, x, false)
      | Panic => Panic
      end
  end.

(** Sequences of atomic steps, and which of them ran a commit. *)
Inductive status_run {S} : Status * S → list (event S) → list bool → Status * S → Prop :=
  | run_nil st : status_run st [] [] st
  | run_cons s x ev evs b bs s' x' st :
      status_step (s, x) ev = Ok (s', x', b) →
      status_run (s', x') evs bs st →
      status_run (s, x) (ev :: evs) (b :: bs) st.

#[local] Arguments run_op : simpl never.

Lemma status_step_total {S} (s : Status) (x : S) ev :
  status_ok s →
  ∃ s' x' b, status_step (s, x) ev = Ok (s', x', b) ∧ status_ok s' ∧ keeps_fatal s s' ∧
    (stFatal s ≠ None → x' = x ∧ b = false).
Proof.
  intros Hs. destruct ev as [o|commit]; simpl.
  - destruct (run_op_total s o Hs) as (s' & -> & Hok & Hk). by exists s', x, false.
  - unfold commitIfHealthy. destruct (stFatal s) as [e|] eqn:E.
    + exists s, x, false. split_and!; [done | done | by intros ? | done].
    + unfold observed. simpl. eexists _, _, true. by split_and!; [| | intros ? |].
Qed.

Lemma status_run_ok {S} st evs bs st' :
  status_run (S := S) st evs bs st' → status_ok st.1 →
  status_ok st'.1 ∧ keeps_fatal st.1 st'.1 ∧
  (stFatal st.1 ≠ None → st'.2 = st.2 ∧ Forall (λ b, b = false) bs).
Proof.
  induction 1 as [st|s x ev evs b bs s1 x1 st Hstep _ IH]; intros Hok.
  { split_and!; [done | by intros ? | ]. intros _. by split. }
  destruct (status_step_total s x ev Hok) as (s' & x' & b' & Hst & Hok' & Hk & Hf).
  rewrite Hst in Hstep. injection Hstep as <- <- <-. simpl in *.
  destruct (IH Hok') as (Hok2 & Hk2 & Hf2). split_and!; [done | |].
  - intros e He. by apply Hk2, Hk.
  - intros Hne. destruct (Hf Hne) as [-> ->]. destruct Hf2 as [-> Hall].
    { destruct (stFatal s) as [e|] eqn:E; [|done]. by rewrite (Hk e E). }
    split; [done | by constructor].
Qed.

(** ** Properties *)

(** [C5] The fatal barrier.  In every interleaving of status operations and
    guarded commits, from a fresh [Status]: nothing panics (the channel is
    closed once); the first fatal error stays published; once one is
    published the data is never written again and no commit starts; the
    channel of [Done] is closed exactly then; and [Snapshot] reports ready
    only without a fatal error and, with blobs enabled, only when blob
    ingestion is ready too. *)
Theorem Status_barrier {S} (x : S) evs1 bs1 s1 x1 evs2 bs2 s2 x2 :
  status_run (new_Status, x) evs1 bs1 (s1, x1) →
  status_run (s1, x1) evs2 bs2 (s2, x2) →
  (∀ ev, ∃ r, status_step (s2, x2) ev = Ok r) ∧
  (∀ e, (Snapshot s1).2 = Some e →
    (Snapshot s2).2 = Some e ∧ x2 = x1 ∧ Forall (λ b, b = false) bs2) ∧
  ((Done s2).2 = ChanClosed ↔ (Snapshot s2).2 ≠ None) ∧
  ((Snapshot s2).1 = true → (Snapshot s2).2 = None ∧
    (stBlobEnabled s2 = true → stBlobReady s2 = true)).
Proof.
  intros R1 R2.
  destruct (status_run_ok _ _ _ _ R1 new_Status_ok) as (Hok1 & _ & _).
  destruct (status_run_ok _ _ _ _ R2 Hok1) as (Hok2 & Hk & Hf). simpl in *.
  split_and!.
  - intros ev. destruct (status_step_total s2 x2 ev Hok2) as (? & ? & ? & H & _). eauto.
  - intros e He. split; [by apply Hk|]. apply Hf. by rewrite He.
  - destruct Hok2 as [_ Hh]. rewrite <-Hh. destruct (stHalted s2) as [[]|]; by split.
  - destruct Hok2 as [Hr _]. intros [H1 H2]%andb_true_iff. split; [by apply Hr|].
    intros Hb. by rewrite Hb in H2.
Qed.

Module StatusWitness.

(** A commit that adds one; a fatal error arrives before the second. *)
Definition incr (n : Z) : result Z := Ok (n + 1).
Definition lost : error := plain "lost".
Definition before : list (event Z) := [EvOp OpDone; EvCommit incr; EvOp (OpSet false (Some lost))].
Definition after : list (event Z) := [EvOp (OpSet true None); EvCommit incr].
Definition halted_status : Status := mkStatus false false false (Some lost) (Some ChanClosed).

Lemma Status_barrier_witness :
  (halted_status, 1).2 = 1 ∧ (Snapshot halted_status).2 = Some lost ∧
  ∀ ev, ∃ r, status_step (halted_status, 1) ev = Ok r.
Proof.
  assert (status_run (new_Status, 0) before [false; true; false] (halted_status, 1)) as R1.
  { repeat (eapply run_cons; [reflexivity|]). apply run_nil. }
  assert (status_run (halted_status, 1) after [false; false] (halted_status, 1)) as R2.
  { repeat (eapply run_cons; [reflexivity|]). apply run_nil. }
  split; [done|]. split; [done|].
  exact (proj1 (Status_barrier 0 before _ _ _ after _ _ _ R1 R2)).
Defined.

End StatusWitness.
