(* ===== verification/Service.v ===== *)
(** * The world of an ingestion loop

    Two loops run in the service: deposits (internal/ingest) and blobs
    (internal/blobingest).  Each talks to an L1 node that answers as it likes
    and shares the database and the health status with the other loop and
    with the HTTP handlers, under a context that may expire.  A world is the
    store, the status, the loop's own state and a clock that counts
    scheduling points; before every access to shared state the others run. *)
From S2P Require Import Prelude StateMonad Word Json Geth Pebble StoreTypes DepositStore Status.

(** What is outside a loop, by time: the replies of the node (the [RPC]
    interface), the context, and the other goroutines. *)
Class Env (D : Type) : Type := {
  rpc_Header : nat → option u64 → option Header + error;
  rpc_FilterLogs : nat → FilterQuery → list Log + error;
  ctx_Err : nat → option error;
  env_status : nat → list status_op;
  env_store : nat → Store D → Store D;
}.

Record world (D P : Type) : Type := mkWorld {
  wStore : Store D;
  wStatus : Status;
  wPriv : P;
  wClock : nat;
}.
Arguments mkWorld {D P} wStore wStatus wPriv wClock.
Arguments wStore {D P} _.
Arguments wStatus {D P} _.
Arguments wPriv {D P} _.
Arguments wClock {D P} _.

Definition M (D P A : Type) : Type := St (world D P) A.

Section service.
Context {D P : Type} `{Env D}.

(** ** Shared state *)

(** The other goroutines run. *)
Definition yield : M D P unit := λ w,
  match run_ops (wStatus w) (env_status (wClock w)) with
  | Ok s => (mkWorld (env_store (wClock w) (wStore w)) s (wPriv w) (S (wClock w)), Ok tt)
  | Err e => (w, Err e)
  | Panic => (w, Panic)
  end.

Definition status_Snapshot : M D P (bool * option error) :=
  do! _ := yield in λ w, (w, Ok (Snapshot (wStatus w))).

Definition status_Set (ready : bool) (err : option error) : M D P unit :=
  do! _ := yield in λ w,
    match Set_ ready err (wStatus w) with
    | Ok s => (mkWorld (wStore w) s (wPriv w) (wClock w), Ok tt)
    | Err e => (w, Err e)
    | Panic => (w, Panic)
    end.

Definition status_SetBlobReady (ready : bool) : M D P unit :=
  do! _ := yield in λ w,
    (mkWorld (wStore w) (SetBlobReady ready (wStatus w)) (wPriv w) (wClock w), Ok tt).

Definition status_Done : M D P chan :=
  do! _ := yield in λ w,
    let '(s, c) := Done (wStatus w) in (mkWorld (wStore w) s (wPriv w) (wClock w), Ok c).

(** A read of the database. *)
Definition read_store {A} (f : Store D → result A) : M D P A :=
  do! _ := yield in λ w, (w, f (wStore w)).

(** A call that is answered from outside. *)
Definition answer {A} (f : nat → A + error) : M D P A :=
  do! _ := yield in λ w,
    match f (wClock w) with inl a => (w, Ok a) | inr e => (w, Err e) end.

Definition HeaderByNumber (n : option u64) : M D P (option Header) := answer (λ t, rpc_Header t n).
Definition FilterLogs (q : FilterQuery) : M D P (list Log) := answer (λ t, rpc_FilterLogs t q).

(** The loop's own state, which only the loop uses. *)
Definition get_priv : M D P P := λ w, (w, Ok (wPriv w)).
Definition set_priv (p : P) : M D P unit := λ w,
  (mkWorld (wStore w) (wStatus w) p (wClock w), Ok tt).

(** A commit under the status lock: the context is checked, then [f] writes
    the database; an error of it is an integrity error. *)
Definition commit_with (f : Store D → result (Store D)) : M D P unit :=
  do! _ := yield in λ w,
    let commit (s : Store D) : result (Store D) :=
      match ctx_Err (wClock w) with
      | Some e => Err e
      | None => match f s with Err e => Err (wrapf ErrIntegrity e) | r => r end
      end in
    match commitIfHealthy (wStatus w) commit (wStore w) with
    | Ok s => (mkWorld s (wStatus w) (wPriv w) (wClock w), Ok tt)
    | Err e => (w, Err e)
    | Panic => (w, Panic)
    end.

(** ** Headers *)

(** A usable header: its number is known and fits 64 bits. *)
Definition header_number (h : option Header) : option u64 :=
  match h with
  | Some h =>
      match hNumber h with
      | Some z => if IsUint64 z then Some (wrap 64 z) else None
      | None => None
      end
  | None => None
  end.

(** The header of block [n], and a complaint when the node shows another. *)
Definition checked_header (complaint : error) (n : u64) : M D P Header :=
  do! h := HeaderByNumber (Some n) in
  match h with
  | None => fail complaint
  | Some h =>
      raise_if negb (bool_decide (header_number (Some h) = Some n)) with complaint ;;
      ret h
  end.

End service.

(** One round of a loop ends it, repeats it at once, or waits for the timer. *)
Inductive next : Type := Stop | Continue | Wait.
