(* ===== verification/ServiceFacts.v ===== *)
(** * Reasoning about an ingestion loop

    [safe]: a computation never panics, keeps a published fatal error, lets
    time pass only forwards and preserves what the loop relies on in the
    database, whatever the node and the other goroutines do.  [saw_header] is
    what a loop knows of the node: a reply it received at some time. *)
From S2P Require Import Prelude StateMonad Word Json Geth Pebble StoreTypes DepositStore Status.
From S2P Require Import Service.

(** A relation between stores that the other goroutines preserve. *)
Class Keeps {D} `{Env D} (K : Store D → Store D → Prop) : Prop := {
  keeps_refl s : K s s;
  keeps_trans s1 s2 s3 : K s1 s2 → K s2 s3 → K s1 s3;
  keeps_env t s : K s (env_store t s);
}.

Create HintDb safe.

Section facts.
Context {D P : Type} `{!Env D} {K : Store D → Store D → Prop} `{!Keeps K}.

Notation world := (world D P).
Notation M := (M D P).

(** What a step without a commit does to the world. *)
Record quiet_with (R : Store D → Store D → Prop) (w w' : world) : Prop := {
  q_ok : status_ok (wStatus w');
  q_fatal : keeps_fatal (wStatus w) (wStatus w');
  q_clock : (wClock w <= wClock w')%nat;
  q_kept : R (wStore w) (wStore w');
}.
#[local] Notation quiet := (quiet_with K).

Lemma quiet_refl w : status_ok (wStatus w) → quiet w w.
Proof. intros Hw. split; [done | by intros ? | lia | apply keeps_refl]. Qed.

Lemma quiet_trans w1 w2 w3 : quiet w1 w2 → quiet w2 w3 → quiet w1 w3.
Proof.
  intros [] []. split; [done | | lia | by eapply keeps_trans].
  intros e He. auto.
Qed.

Definition healthy (w : world) : Prop := status_ok (wStatus w).

Lemma quiet_laws : frame_laws healthy quiet.
Proof.
  split; [|split].
  - apply quiet_refl.
  - intros w w' Hq. apply Hq.
  - apply quiet_trans.
Qed.

Definition safe_for (R : Store D → Store D → Prop) {A} (m : M A) : Prop :=
  safe_with healthy (quiet_with R) m.
#[local] Notation safe := (safe_for K).

Lemma safe_ret {A} (a : A) : safe (ret a).
Proof. apply safe_with_ret, quiet_laws. Qed.

Lemma safe_fail {A} e : safe (fail (A := A) e).
Proof. apply safe_with_fail, quiet_laws. Qed.

Lemma safe_lift {A} (r : result A) : r ≠ Panic → safe (lift r).
Proof. apply safe_with_lift, quiet_laws. Qed.

Lemma safe_bind {A A'} (m : M A) (k : A → M A') :
  safe m → (∀ a w w', m w = (w', Ok a) → safe (k a)) → safe (mbind m k).
Proof. apply safe_with_bind, quiet_laws. Qed.

Lemma safe_wrap {A} f (m : M A) : safe m → safe (wrap_error f m).
Proof. apply safe_with_wrap. Qed.

Lemma safe_forM {A S} (f : S → A → M S) l s :
  (∀ s x, x ∈ l → safe (f s x)) → safe (forM f s l).
Proof. apply safe_with_forM, quiet_laws. Qed.

Lemma safe_yield : safe yield.
Proof.
  intros w Hw. unfold yield.
  destruct (run_ops_total (env_status (wClock w)) _ Hw) as (s & -> & Hs & Hk). simpl.
  split; [|done]. split; [done | done | simpl; lia | apply keeps_env].
Qed.

(** A computation that only reads the world. *)
Lemma safe_read {A} (f : world → result A) :
  (∀ w, f w ≠ Panic) → safe (λ w, (w, f w)).
Proof. apply safe_with_read, quiet_laws. Qed.

Lemma safe_after_yield {A} (m : M A) : safe m → safe (do! _ := yield in m).
Proof. intros Hm. apply safe_bind; [apply safe_yield | done]. Qed.

Lemma safe_Snapshot : safe status_Snapshot.
Proof. by apply safe_after_yield, safe_read. Qed.

(** A step that changes the status alone. *)
Lemma quiet_status w s :
  status_ok s → keeps_fatal (wStatus w) s →
  quiet w (mkWorld (wStore w) s (wPriv w) (wClock w)).
Proof. intros Hs Hk. split; [done | done | done | apply keeps_refl]. Qed.

Lemma safe_Set ready err : safe (status_Set ready err).
Proof.
  apply safe_after_yield. intros w Hw.
  destruct (Set_total ready err _ Hw) as (s & -> & Hs & Hk & _).
  split; [by apply quiet_status | done].
Qed.

Lemma safe_SetBlobReady ready : safe (status_SetBlobReady ready).
Proof.
  apply safe_after_yield. intros w Hw.
  destruct (run_op_total _ (OpSetBlobReady ready) Hw) as (s & [= <-] & Hs & Hk).
  split; [by apply quiet_status | done].
Qed.

Lemma safe_Done : safe status_Done.
Proof.
  apply safe_after_yield. intros w Hw.
  destruct (run_op_total _ OpDone Hw) as (s & [= <-] & Hs & Hk).
  split; [by apply quiet_status | done].
Qed.

Lemma safe_read_store {A} (f : Store D → result A) : (∀ s, f s ≠ Panic) → safe (read_store f).
Proof. intros Hf. apply safe_after_yield, safe_read. intros w. apply Hf. Qed.

Lemma safe_answer {A} (f : nat → A + error) : safe (answer f).
Proof.
  apply safe_after_yield. intros w Hw.
  destruct (f (wClock w)); split; (by apply quiet_refl) || done.
Qed.

Lemma safe_HeaderByNumber n : safe (HeaderByNumber n).
Proof. apply safe_answer. Qed.

Lemma safe_FilterLogs q : safe (FilterLogs q).
Proof. apply safe_answer. Qed.

Lemma safe_get_priv : safe get_priv.
Proof. by apply safe_read. Qed.

Lemma safe_set_priv p : safe (set_priv p).
Proof.
  intros w Hw. split; [|done]. split; simpl; [done | by intros ? | lia | apply keeps_refl].
Qed.

Lemma safe_Ok {A} (m : M A) w w' a :
  safe m → status_ok (wStatus w) → m w = (w', Ok a) → quiet w w'.
Proof. intros Hm Hw. exact (safe_with_Ok healthy quiet m w w' a Hm Hw). Qed.

(** The same from one world. *)
Definition safe_at_for (R : Store D → Store D → Prop) {A} (m : M A) (w : world) : Prop :=
  status_ok (wStatus w) → quiet_with R w (m w).1 ∧ (m w).2 ≠ Panic.
#[local] Notation safe_at := (safe_at_for K).

Lemma safe_at_bind {A A'} (m : M A) (k : A → M A') w :
  safe m → (∀ a w', m w = (w', Ok a) → safe_at (k a) w') → safe_at (mbind m k) w.
Proof.
  intros Hm Hk Hw. unfold mbind. specialize (Hm w Hw).
  destruct (m w) as [w1 [a|e|]] eqn:E; simpl in *; destruct Hm as [Hq Hp];
    [|by split|by destruct Hp].
  destruct (Hk a w1 eq_refl (q_ok _ _ _ Hq)) as [Hq' Hp'].
  split; [by eapply quiet_trans | done].
Qed.

Lemma safe_safe_at {A} (m : M A) w : safe m → safe_at m w.
Proof. intros Hm. exact (Hm w). Qed.

(** ** A run, step by step *)

(** A safe computation that did not return: it failed, quietly. *)
Definition gave_up_for (R : Store D → Store D → Prop) {A} (w w' : world) (r : result A) : Prop :=
  quiet_with R w w' ∧ r ≠ Panic ∧ ∀ a, r ≠ Ok a.
#[local] Notation gave_up := (gave_up_for K).

Lemma gave_up_trans {A} w1 w2 w3 (r : result A) :
  quiet w1 w2 → gave_up w2 w3 r → gave_up w1 w3 r.
Proof. intros Hq (Hq' & Hr). split; [by eapply quiet_trans | done]. Qed.

Lemma mbind_cases {A A'} (m : M A) (k : A → M A') w w' r :
  safe m → status_ok (wStatus w) → mbind m k w = (w', r) →
  gave_up w w' r ∨ ∃ a w1, m w = (w1, Ok a) ∧ quiet w w1 ∧ k a w1 = (w', r).
Proof.
  intros Hm Hw Hc. unfold mbind in Hc. specialize (Hm w Hw).
  destruct (m w) as [w1 [a|e|]]; destruct Hm as [Hq Hp].
  - right. by exists a, w1.
  - left. injection Hc as <- <-. by split_and!.
  - done.
Qed.

Lemma raise_if_cases {A} (c : bool) e (m : M A) w w' r :
  status_ok (wStatus w) → (raise_if c with e ;; m) w = (w', r) →
  gave_up w w' r ∨ (c = false ∧ m w = (w', r)).
Proof.
  intros Hw. destruct c; [|by right]. intros [= <- <-]. left.
  split; [by apply quiet_refl | done].
Qed.

Lemma wrap_error_Ok {A} f (m : M A) w w' a :
  wrap_error f m w = (w', Ok a) → m w = (w', Ok a).
Proof. unfold wrap_error. by destruct (m w) as [w1 [|e|]]. Qed.

Lemma yield_Ok (w : world) : status_ok (wStatus w) → ∃ w', yield w = (w', Ok tt) ∧ quiet w w'.
Proof.
  intros Hw. pose proof (safe_yield w Hw) as [Hq _]. unfold yield in *.
  destruct (run_ops_total (env_status (wClock w)) _ Hw) as (s & E & _). rewrite E in *. eauto.
Qed.

(** The world after the other goroutines have run once. *)
Definition next_status (w : world) : Status :=
  match run_ops (wStatus w) (env_status (wClock w)) with Ok s => s | _ => wStatus w end.
Definition next_store (w : world) : Store D := env_store (wClock w) (wStore w).
Definition elapse (w : world) : world :=
  mkWorld (next_store w) (next_status w) (wPriv w) (S (wClock w)).

Lemma yield_elapse (w : world) : status_ok (wStatus w) → yield w = (elapse w, Ok tt) ∧ quiet w (elapse w).
Proof.
  intros Hw. destruct (yield_Ok w Hw) as (w' & E & Hq).
  assert (w' = elapse w) as ->; [|done].
  unfold yield, elapse, next_status in *. by destruct (run_ops _ _); injection E as <-.
Qed.

Lemma Snapshot_elapse (w : world) :
  status_ok (wStatus w) → status_Snapshot w = (elapse w, Ok (Snapshot (next_status w))).
Proof. intros Hw. unfold status_Snapshot, mbind. by rewrite (proj1 (yield_elapse w Hw)). Qed.

(** [Set] publishes its error unless another one was published before. *)
Lemma status_Set_elapse ready err (w : world) :
  status_ok (wStatus w) →
  ∃ w', status_Set ready err w = (w', Ok tt) ∧ quiet w w' ∧
    stFatal (wStatus w') = match stFatal (next_status w) with Some e => Some e | None => err end ∧
    stReady (wStatus w') = ready && is_nil (stFatal (wStatus w')).
Proof.
  intros Hw. destruct (yield_elapse w Hw) as [Ey Hq]. unfold status_Set, mbind. rewrite Ey.
  destruct (Set_total ready err _ (q_ok _ _ _ Hq)) as (s & -> & Hs & Hk & Hf & Hr & _).
  eexists. split; [done|]. split; [|by split].
  eapply quiet_trans; [done|]. by apply quiet_status.
Qed.

(** [Done] gives a channel that is closed exactly after a fatal error. *)
Lemma status_Done_open (w : world) :
  status_ok (wStatus w) → stFatal (next_status w) = None →
  ∃ w', status_Done w = (w', Ok ChanOpen) ∧ quiet w w'.
Proof.
  intros Hw Hf. destruct (yield_elapse w Hw) as [Ey Hq].
  pose proof (safe_Done w Hw) as [Hq' _]. unfold status_Done, mbind in *. rewrite Ey in *.
  unfold Done in *. cbn [wStatus elapse] in *.
  pose proof (so_halted _ (q_ok _ _ _ Hq)) as Hh. cbn [wStatus elapse] in Hh.
  destruct (stHalted (next_status w)) as [[]|]; [by eexists | | by eexists].
  by destruct (proj1 Hh eq_refl).
Qed.

Lemma status_Set_Ok ready err (w : world) :
  status_ok (wStatus w) → ∃ w', status_Set ready err w = (w', Ok tt) ∧ quiet w w'.
Proof.
  intros Hw. destruct (yield_Ok w Hw) as (w1 & Ey & Hq). unfold status_Set, mbind. rewrite Ey.
  destruct (Set_total ready err _ (q_ok _ _ _ Hq)) as (s & -> & Hs & Hk & _).
  eexists. split; [done|]. eapply quiet_trans; [done|]. by apply quiet_status.
Qed.

Lemma status_Set_no_error ready err (w : world) w' e :
  status_ok (wStatus w) → status_Set ready err w ≠ (w', Err e).
Proof. intros Hw E. by destruct (status_Set_Ok ready err w Hw) as (w1 & E1 & _); rewrite E in E1. Qed.

Lemma status_SetBlobReady_Ok ready (w : world) :
  status_ok (wStatus w) → ∃ w', status_SetBlobReady ready w = (w', Ok tt) ∧ quiet w w'.
Proof.
  intros Hw. destruct (yield_Ok w Hw) as (w1 & Ey & Hq). pose proof (safe_SetBlobReady ready w Hw) as [Hs _].
  unfold status_SetBlobReady, mbind in *. rewrite Ey in *. eauto.
Qed.

Lemma Snapshot_total (w : world) :
  status_ok (wStatus w) →
  ∃ w1 b, status_Snapshot w = (w1, Ok (b, stFatal (wStatus w1))) ∧ quiet w w1.
Proof.
  intros Hw. destruct (yield_Ok w Hw) as (w1 & Ey & Hq). unfold status_Snapshot, mbind.
  rewrite Ey. by eexists _, _.
Qed.

Lemma status_Set_total ready err (w : world) :
  status_ok (wStatus w) →
  ∃ w1, status_Set ready err w = (w1, Ok tt) ∧ quiet w w1 ∧
    (∀ e, err = Some e → stFatal (wStatus w1) ≠ None).
Proof.
  intros Hw. destruct (yield_Ok w Hw) as (w1 & Ey & Hq). unfold status_Set, mbind. rewrite Ey.
  destruct (Set_total ready err _ (q_ok _ _ _ Hq)) as (s & -> & Hs & Hk & Hf & _).
  eexists. split; [done|]. split; [eapply quiet_trans; [done | by apply quiet_status]|].
  intros e ->. cbn [wStatus]. rewrite Hf. by destruct (stFatal (wStatus w1)).
Qed.

Lemma yield_clock (w : world) w' u : yield w = (w', Ok u) → wClock w' = S (wClock w).
Proof. unfold yield. destruct (run_ops _ _); by intros [= <-]. Qed.

Lemma answer_Ok {A} (f : nat → A + error) (w : world) w' a :
  answer f w = (w', Ok a) → (wClock w < wClock w')%nat ∧ f (wClock w') = inl a.
Proof.
  intros (u & w1 & Hy%yield_clock & E)%mbind_Ok.
  destruct (f (wClock w1)) eqn:Er; [|done]. injection E as <- <-. split; [lia | done].
Qed.

Lemma read_store_Ok {A} (f : Store D → result A) (w : world) w' a :
  status_ok (wStatus w) → read_store f w = (w', Ok a) →
  quiet w w' ∧ (wClock w < wClock w')%nat ∧ f (wStore w') = Ok a.
Proof.
  intros Hw (u & w1 & Hy & E)%mbind_Ok. injection E as <- <-.
  pose proof (yield_clock _ _ _ Hy). split_and!; [|lia | done].
  exact (safe_Ok yield w w1 u safe_yield Hw Hy).
Qed.

(** ** The commit *)

(** Nothing happens, or [f] wrote the database: never after a fatal error or
    when the context is done. *)
Lemma commit_with_cases f (w : world) w' r :
  (∀ s, f s ≠ Panic) → status_ok (wStatus w) → commit_with f w = (w', r) →
  gave_up w w' r ∨
  (r = Ok tt ∧ status_ok (wStatus w') ∧ keeps_fatal (wStatus w) (wStatus w') ∧
   (wClock w < wClock w')%nat ∧ stFatal (wStatus w') = None ∧ ctx_Err (D := D) (wClock w') = None ∧
   ∃ s, K (wStore w) s ∧ f s = Ok (wStore w')).
Proof.
  intros Hf Hw Hc. unfold commit_with, mbind in Hc.
  destruct (yield_Ok w Hw) as (w1 & Ey & Hq). rewrite Ey in Hc.
  pose proof (yield_clock _ _ _ Ey) as Hclk.
  unfold commitIfHealthy in Hc. destruct (stFatal (wStatus w1)) as [e|] eqn:Ef.
  { injection Hc as <- <-. left. by split_and!. }
  destruct (ctx_Err (wClock w1)) as [e|] eqn:Ectx.
  { injection Hc as <- <-. left. by split_and!. }
  pose proof (Hf (wStore w1)) as Hnp.
  destruct (f (wStore w1)) as [s|e|] eqn:Ec; [| |done].
  2:{ injection Hc as <- <-. left. by split_and!. }
  injection Hc as <- <-. right. cbn [wStatus wClock wStore].
  split_and!; [done | apply Hq | apply Hq | lia | done | done |].
  exists (wStore w1). split; [apply Hq | done].
Qed.

(** ** The loop's own state *)

Definition keeps_priv {A} (m : M A) : Prop := ∀ w, wPriv (m w).1 = wPriv w.

Lemma keeps_priv_bind {A A'} (m : M A) (k : A → M A') :
  keeps_priv m → (∀ a, keeps_priv (k a)) → keeps_priv (mbind m k).
Proof.
  intros Hm Hk w. unfold mbind. specialize (Hm w).
  destruct (m w) as [w1 [a|e|]]; simpl in *; [|done..]. by rewrite Hk.
Qed.

Lemma keeps_priv_yield : keeps_priv yield.
Proof. intros w. unfold yield. by destruct (run_ops _ _). Qed.

Lemma keeps_priv_after {A} (m : M A) : keeps_priv m → keeps_priv (do! _ := yield in m).
Proof. intros Hm. apply keeps_priv_bind; [apply keeps_priv_yield | done]. Qed.

Lemma keeps_priv_simple {A} (m : M A) : (∀ w, (m w).1 = w) → keeps_priv m.
Proof. intros Hm w. by rewrite Hm. Qed.

Lemma keeps_priv_Set ready err : keeps_priv (status_Set ready err).
Proof. apply keeps_priv_after. intros w. by destruct (Set_ _ _ _). Qed.

Lemma keeps_priv_SetBlobReady ready : keeps_priv (status_SetBlobReady ready).
Proof. by apply keeps_priv_after. Qed.

Lemma keeps_priv_answer {A} (f : nat → A + error) : keeps_priv (answer f).
Proof. apply keeps_priv_after. intros w. by destruct (f _). Qed.

Lemma keeps_priv_read_store {A} (f : Store D → result A) : keeps_priv (read_store f).
Proof. by apply keeps_priv_after. Qed.

Lemma keeps_priv_commit f : keeps_priv (commit_with f).
Proof. apply keeps_priv_after. intros w. cbv zeta. by case_match. Qed.

Lemma keeps_priv_wrap {A} f (m : M A) : keeps_priv m → keeps_priv (wrap_error f m).
Proof. intros Hm w. specialize (Hm w). unfold wrap_error. by destruct (m w) as [w1 [|e|]]. Qed.

Lemma keeps_priv_header c n : keeps_priv (checked_header c n).
Proof.
  apply keeps_priv_bind; [apply keeps_priv_answer|]. intros [h|]; [|done].
  by destruct (negb _).
Qed.

Lemma keeps_priv_forM {A S} (f : S → A → M S) l : ∀ s,
  (∀ s x, keeps_priv (f s x)) → keeps_priv (forM f s l).
Proof.
  induction l as [|x l IH]; intros s Hf; cbn [forM]; [done|].
  apply keeps_priv_bind; [done|]. intros s'. by apply IH.
Qed.

Lemma keeps_priv_Ok {A} (m : M A) w w' a : keeps_priv m → m w = (w', Ok a) → wPriv w' = wPriv w.
Proof. intros Hm E. specialize (Hm w). by rewrite E in Hm. Qed.

(** ** Headers *)

(** The node showed the header [h] of block [n] in the time [(t1, t2]]. *)
Definition saw_header (t1 t2 : nat) (n : u64) (h : Header) : Prop :=
  ∃ t, (t1 < t <= t2)%nat ∧ rpc_Header (D := D) t (Some n) = inl (Some h) ∧
    header_number (Some h) = Some n.

Lemma saw_header_mono t1 t1' t2 t2' n h :
  (t1' <= t1)%nat → (t2 <= t2')%nat → saw_header t1 t2 n h → saw_header t1' t2' n h.
Proof. intros ?? (t & ? & ?). exists t. split; [lia | done]. Qed.

Lemma header_number_Some h n : header_number (Some h) = Some n ↔ hNumber h = Some (uval n).
Proof.
  assert (∀ z, IsUint64 z = true ↔ 0 <= z < modulus 64) as Hfit.
  { intros z. unfold IsUint64, in_width. lia. }
  unfold header_number. destruct (hNumber h) as [z|]; [|done].
  destruct (IsUint64 z) eqn:E.
  - apply Hfit in E. split; intros [= Hz]; f_equal.
    + rewrite <-Hz. symmetry. by apply uval_wrap_small.
    + rewrite Hz. apply wrap_uval.
  - split; [done|]. intros [= ->]. pose proof (uint_range n) as Hr.
    apply not_true_iff_false in E. destruct E. by apply Hfit.
Qed.

Lemma safe_checked_header c n : safe (checked_header c n).
Proof.
  apply safe_bind; [apply safe_HeaderByNumber|]. intros [h|] _ _ _; [|apply safe_fail].
  destruct (negb _); [apply safe_fail | apply safe_ret].
Qed.

Lemma checked_header_Ok c n (w : world) w' h :
  checked_header c n w = (w', Ok h) →
  saw_header (wClock w) (wClock w') n h ∧ (wClock w < wClock w')%nat.
Proof.
  intros (o & w1 & [Hc Hr]%answer_Ok & E)%mbind_Ok. destruct o as [h'|]; [|done].
  destruct (negb _) eqn:Hn; [done|]. injection E as <- <-. bool_to_prop.
  split; [|done]. exists (wClock w1). split_and!; [lia | done | done | done].
Qed.

(** ** Weakest preconditions of the service's calls

    [J] is an invariant of the loop's own state. *)
Section calls.
Context (J : P → Prop).

Definition good (w : world) : Prop := status_ok (wStatus w) ∧ J (wPriv w).

Record calm_with (R : Store D → Store D → Prop) (w w' : world) : Prop := {
  c_fatal : keeps_fatal (wStatus w) (wStatus w');
  c_clock : (wClock w <= wClock w')%nat;
  c_kept : R (wStore w) (wStore w');
}.
#[local] Notation calm := (calm_with K).
#[local] Notation wp := (wp good calm).

#[export] Instance calm_preorder : PreOrder calm.
Proof.
  split.
  - intros w. split; [by intros ? | lia | apply keeps_refl].
  - intros w1 w2 w3 [] []. split; [|lia | by eapply keeps_trans]. intros e He. auto.
Qed.

Lemma quiet_calm w w' : quiet w w' → calm w w'.
Proof. intros []. by split. Qed.

(** A safe call that leaves the loop's own state alone. *)
Lemma wp_safe {A} (Q : world → A → Prop) (m : M A) w :
  safe m → keeps_priv m →
  (∀ w' a, m w = (w', Ok a) → good w → good w' → calm w w' → wPriv w' = wPriv w → Q w' a) →
  wp Q m w.
Proof.
  intros Hs Hk HQ. apply wp_frame.
  - intros [Hw HJ]. destruct (Hs w Hw) as [Hq Hp]. split_and!; [|by apply quiet_calm|done].
    split; [apply Hq|]. by rewrite Hk.
  - intros w' a E Hw Hw' Hc. apply HQ; [done..|]. by eapply keeps_priv_Ok.
Qed.

Lemma wp_answer {A} (Q : world → A → Prop) (f : nat → A + error) w :
  (∀ w' a, (wClock w < wClock w')%nat → f (wClock w') = inl a → calm w w' →
     wPriv w' = wPriv w → Q w' a) →
  wp Q (answer f) w.
Proof.
  intros HQ. apply wp_safe; [apply safe_answer | apply keeps_priv_answer|].
  intros w' a [Hc Hf]%answer_Ok _ _ Hcalm Hp. by apply HQ.
Qed.

Lemma wp_read_store {A} (Q : world → A → Prop) (f : Store D → result A) w :
  (∀ s, f s ≠ Panic) →
  (∀ w' a, f (wStore w') = Ok a → calm w w' → wPriv w' = wPriv w → Q w' a) →
  wp Q (read_store f) w.
Proof.
  intros Hf HQ. apply wp_safe; [by apply safe_read_store | apply keeps_priv_read_store|].
  intros w' a E [Hw _] _ Hc Hp. apply HQ; [|done..].
  by apply read_store_Ok in E as (_ & _ & E).
Qed.

Lemma wp_header (Q : world → Header → Prop) c n w :
  (∀ w' h, saw_header (wClock w) (wClock w') n h → (wClock w < wClock w')%nat → calm w w' →
     wPriv w' = wPriv w → Q w' h) →
  wp Q (checked_header c n) w.
Proof.
  intros HQ. apply wp_safe; [apply safe_checked_header | apply keeps_priv_header|].
  intros w' h [Hs Hc]%checked_header_Ok _ _ Hcalm Hp. by apply HQ.
Qed.

Lemma wp_get_priv (Q : world → P → Prop) w : (J (wPriv w) → Q w (wPriv w)) → wp Q get_priv w.
Proof.
  intros HQ. apply wp_intro. intros [_ HJ]. apply wp_safe; [apply safe_get_priv | done|].
  intros w' a [= <- <-] _ _ _ _. auto.
Qed.

Lemma wp_set_priv (Q : world → unit → Prop) p w :
  J p → (∀ w', calm w w' → wClock w' = wClock w → wPriv w' = p → Q w' tt) →
  wp Q (set_priv p) w.
Proof.
  intros HJ HQ [Hw _]. destruct (safe_set_priv p w Hw) as [Hq _].
  split_and!; [by split | by apply quiet_calm | done|].
  intros [] _. apply HQ; [by apply quiet_calm | done | done].
Qed.

Lemma wp_SetBlobReady (Q : world → unit → Prop) b w :
  (∀ w', calm w w' → wPriv w' = wPriv w → Q w' tt) → wp Q (status_SetBlobReady b) w.
Proof.
  intros HQ. apply wp_safe; [apply safe_SetBlobReady | apply keeps_priv_SetBlobReady|].
  intros w' [] _ _ _ Hc Hp. by apply HQ.
Qed.

End calls.

End facts.

Arguments q_ok {D P R} w w' _.
Arguments q_fatal {D P R} w w' _.
Arguments q_clock {D P R} w w' _.
Arguments q_kept {D P R} w w' _.
Arguments c_fatal {D P R w w'} _.
Arguments c_clock {D P R w w'} _.
Arguments c_kept {D P R w w'} _.

(** [apply], unlike the hints of [eauto], finds the instance of [Keeps]. *)
#[export] Hint Extern 1 (safe_for _ _) =>
  first [ apply safe_ret | apply safe_fail | apply safe_Snapshot | apply safe_Set
        | apply safe_SetBlobReady | apply safe_Done | apply safe_HeaderByNumber
        | apply safe_FilterLogs | apply safe_answer | apply safe_get_priv | apply safe_set_priv
        | apply safe_checked_header ] : safe.
#[export] Hint Resolve safe_wrap : safe.

(** Compose the safety of the parts. *)
Ltac solve_safe :=
  repeat match goal with
  | |- safe_for _ (mbind _ _) => apply safe_bind; [|intros]
  | |- safe_for _ (if ?c then _ else _) => destruct c
  | |- safe_for _ (match ?x with _ => _ end) => destruct x
  | |- safe_for _ _ => solve [eauto with safe]
  | |- safe_for _ (let '(_, _) := ?x in _) => destruct x
  end.
