(* ===== verification/Flags.v ===== *)
(** * Command line flags (package [flag] of the Go standard library)

    [FlagSet.Parse] over flags that all take a value, and the values of the
    kinds the program uses: strings, numbers in any base ([strconv.ParseUint]
    with base 0), and durations, whose syntax is a parameter. *)
From S2P Require Import Prelude Word Strconv.

(** ** Numbers in base 0 *)

Definition lower (c : Ascii.ascii) : N := N.lor (Ascii.N_of_ascii c) 32.
Definition is_char (c : Ascii.ascii) (d : Ascii.ascii) : bool := bool_decide (c = d).

(** The prefix that gives the base, and what follows. *)
Definition base_of (s : string) : Z * string :=
  match s with
  | String "0" (String b (String _ _ as rest)) =>
      if (lower b =? 98)%N then (2, rest)
      else if (lower b =? 111)%N then (8, rest)
      else if (lower b =? 120)%N then (16, rest)
      else (8, String b rest)
  | String "0" rest => (8, rest)
  | _ => (10, s)
  end.

Definition digit_in (base : Z) (c : Ascii.ascii) : option Z :=
  let d :=
    if is_digit c then digit_value c
    else if ((97 <=? lower c) && (lower c <=? 122))%N then Z.of_N (lower c) - 87
    else base in
  if d <? base then Some d else None.

(** The value, and whether an underscore was seen. *)
Fixpoint digits_in (base acc : Z) (seen : bool) (s : string) : option (Z * bool) :=
  match s with
  | EmptyString => Some (acc, seen)
  | String "_" s => digits_in base acc true s
  | String c s => match digit_in base c with Some d => digits_in base (base * acc + d) seen s | None => None end
  end.

(** Underscores separate digits, or a prefix from digits. *)
Inductive seen_last : Type := Begin | Digit | Underscore | Other.
Fixpoint underscores_ok (hex : bool) (saw : seen_last) (s : string) : bool :=
  match s with
  | EmptyString => match saw with Underscore => false | _ => true end
  | String c s =>
      if is_digit c || (hex && ((97 <=? lower c) && (lower c <=? 102))%N) then underscores_ok hex Digit s
      else if is_char c "_" then match saw with Digit => underscores_ok hex Underscore s | _ => false end
      else match saw with Underscore => false | _ => underscores_ok hex Other s end
  end.
Definition underscoreOK (s : string) : bool :=
  let s := match s with String "-" s | String "+" s => s | _ => s end in
  match s with
  | String "0" (String b rest) =>
      if (lower b =? 98)%N || (lower b =? 111)%N || (lower b =? 120)%N
      then underscores_ok (lower b =? 120)%N Digit rest
      else underscores_ok false Begin s
  | _ => underscores_ok false Begin s
  end.

(** [strconv.ParseUint(s, 0, 64)]; it fails with a syntax or a range error. *)
Definition ParseUint0 (s : string) : result u64 :=
  fail_if bool_decide (s = "") with plain "parse error" ;;
  let '(base, rest) := base_of s in
  match digits_in base 0 false rest with
  | None => Err (plain "parse error")
  | Some (n, underscores) =>
      fail_if negb (IsUint64 n) with plain "value out of range" ;;
      fail_if underscores && negb (underscoreOK s) with plain "parse error" ;;
      Ok (wrap 64 n)
  end.

(** ** Flag sets *)

(** The name and the value of an argument that is a flag. *)
Fixpoint cut_equals (s : string) : string * option string :=
  match s with
  | EmptyString => (EmptyString, None)
  | String "=" s => (EmptyString, Some s)
  | String c s => let '(name, value) := cut_equals s in (String c name, value)
  end.

Inductive argument : Type :=
  | Positional
  | Terminator
  | BadSyntax
  | Flag (name : string) (value : option string).

Definition read_argument (s : string) : argument :=
  match s with
  | String "-" (String c s) =>
      let name := if is_char c "-" then s else String c s in
      if is_char c "-" && bool_decide (s = "") then Terminator else
      match name with
      | EmptyString | String "-" _ | String "=" _ => BadSyntax
      | String c name => let '(name, value) := cut_equals name in Flag (String c name) value
      end
  | _ => Positional
  end.

Section flagset.
Context {V : Type}.

(** The defined flags, with the [Set] of their values. *)
Definition FlagSet : Type := list (string * (string → V → result V)).

Fixpoint formal (f : FlagSet) (name : string) : option (string → V → result V) :=
  match f with
  | [] => None
  | (n, set) :: f => if bool_decide (n = name) then Some set else formal f name
  end.

(** The values, the names that were set (each once) and the other arguments. *)
Record parsed : Type := mkParsed { fsVars : V; fsActual : list string; fsArgs : list string }.

Definition add_name (name : string) (l : list string) : list string :=
  if bool_decide (name ∈ l) then l else l ++ [name].

Fixpoint Parse_flags (f : FlagSet) (v : V) (actual : list string) (args : list string) : result parsed :=
  match args with
  | [] => Ok (mkParsed v actual [])
  | s :: rest =>
      match read_argument s with
      | Positional => Ok (mkParsed v actual args)
      | Terminator => Ok (mkParsed v actual rest)
      | BadSyntax => Err (plain "bad flag syntax")
      | Flag name value =>
          match formal f name with
          | None =>
              fail_if bool_decide (name = "help") || bool_decide (name = "h") with errorf ErrHelp "flag: help requested" ;;
              Err (plain "flag provided but not defined")
          | Some set =>
              match value, rest with
              | Some value, _ => let! v := set value v in Parse_flags f v (add_name name actual) rest
              | None, value :: rest => let! v := set value v in Parse_flags f v (add_name name actual) rest
              | None, [] => Err (plain "flag needs an argument")
              end
          end
      end
  end.

End flagset.

(** ** Decimal numbers are read back *)

Lemma pretty_go_head (x : N) : ∀ s,
  (0 < x)%N → ∃ c t, pretty_N_go x s = String c t ∧ c ≠ "0"%char.
Proof.
  induction (N.lt_wf_0 x) as [x _ IH]. intros s Hx. rewrite pretty_N_go_step by done.
  destruct (decide (x / 10 = 0)%N) as [E|E]; [|apply IH; [apply N.div_lt; lia | by apply N.neq_0_lt_0]].
  rewrite E, pretty_N_go_0. eexists _, _. split; [done|]. intros Hc.
  assert (x < 10)%N as Hlt by (by apply N.div_small_iff in E).
  rewrite N.mod_small in Hc by done. destruct (pretty_char_digit x Hlt) as [_ Hv]. rewrite Hc in Hv.
  change (0 = Z.of_N x) in Hv. lia.
Qed.

Lemma base_of_decimal c t : c ≠ "0"%char → base_of (String c t) = (10, String c t).
Proof. by destruct c as [[] [] [] [] [] [] [] []]. Qed.

Lemma digits_in_decimal s : ∀ acc seen,
  all_digits s = true → digits_in 10 acc seen s = Some (decimal acc s, seen).
Proof.
  induction s as [|c s IH]; intros acc seen; [done|]. cbn [all_digits decimal]. intros [Hc Hs]%andb_true_iff.
  assert (digits_in 10 acc seen (String c s) =
    match digit_in 10 c with Some d => digits_in 10 (10 * acc + d) seen s | None => None end) as ->.
  { by destruct c as [[] [] [] [] [] [] [] []]. }
  unfold digit_in. rewrite Hc. unfold is_digit in Hc. unfold digit_value. bool_to_prop.
  rewrite (proj2 (Z.ltb_lt _ _)) by lia. by apply IH.
Qed.

Lemma ParseUint0_Format n : ParseUint0 (FormatUint n) = Ok n.
Proof.
  pose proof (uint_range n) as Hr. unfold ParseUint0, FormatUint.
  destruct (pretty_digits (uval n)) as (Ha & Hd & Hne); [lia|]. rewrite bool_decide_false by done.
  assert (IsUint64 (uval n) = true) as Hu.
  { unfold IsUint64, in_width. rewrite (proj2 (Z.leb_le _ _)), (proj2 (Z.ltb_lt _ _)) by lia. done. }
  destruct (decide (uval n = 0)) as [E|E].
  { rewrite E. apply f_equal, uint_eq. by rewrite E. }
  assert (∃ c t, pretty (uval n) = String c t ∧ c ≠ "0"%char) as (c & t & Hp & Hc).
  { destruct (uval n) as [|p|p]; [done | by apply pretty_go_head | lia]. }
  rewrite Hp in *. rewrite base_of_decimal by done. rewrite digits_in_decimal, Hd, Hu by done.
  cbn [negb andb]. by rewrite wrap_uval.
Qed.

(** ** Runs of the parser *)

Section runs.
Context {V : Type} (f : FlagSet (V := V)).

Lemma formal_elem name set : formal f name = Some set → (name, set) ∈ f.
Proof.
  induction f as [|[n s] g IH]; cbn [formal]; [done|].
  case_bool_decide as E; [intros [= ->]; subst; by left | intros Hf; right; by apply IH].
Qed.

(** What every setting keeps holds of the values and the names at the end. *)
Lemma Parse_flags_inv (P : V → list string → Prop) args v actual p :
  (∀ name set value v v' actual, (name, set) ∈ f → set value v = Ok v' →
     P v actual → P v' (add_name name actual)) →
  P v actual → Parse_flags f v actual args = Ok p → P (fsVars p) (fsActual p).
Proof.
  intros Hset. remember (length args) as n eqn:Hn. assert (length args <= n)%nat as Hle by lia. clear Hn.
  revert args v actual Hle. induction n as [|n IH]; intros [|s args] v actual Hle HP E; simpl in Hle;
    [| lia | |]; [by injection E as <-..|].
  cbn [Parse_flags] in E. destruct (read_argument s) as [| | |name value];
    [by injection E as <- | by injection E as <- | done|].
  destruct (formal f name) as [set|] eqn:Ef; [|by destruct (_ || _)].
  apply formal_elem in Ef. destruct value as [value|]; [|destruct args as [|value args]; [done|]];
    destruct (set value v) as [v'| |] eqn:Es; try done; cbn [bind] in E;
    (eapply IH; [| |exact E]; [simpl in *; lia | by eapply Hset]).
Qed.

(** A flag and its value as the next argument. *)
Lemma Parse_flags_pair s name set value v v' actual args :
  read_argument s = Flag name None → formal f name = Some set → set value v = Ok v' →
  Parse_flags f v actual (s :: value :: args) = Parse_flags f v' (add_name name actual) args.
Proof. intros Hs Hf Hv. cbn [Parse_flags]. by rewrite Hs, Hf, Hv. Qed.

End runs.
