(* ===== verification/Config.v ===== *)
(** * Configuration (internal/config/config.go)

    The record every component reads, and its parser.  The syntax of
    durations and URLs and go-ethereum's address text are parameters. *)
From S2P Require Import Prelude Word Strconv Json Geth Flags.

(** [time.Duration] is a signed 64-bit number of nanoseconds. *)
Record Config : Type := mkConfig {
  cRPC : string;
  cL1ChainID : u64;
  cL2ChainID : u64;
  cAddressManager : Address;
  cStart : u64;
  cConfirmations : u64;
  cBatchSize : u64;
  cPoll : Z;
  cDB : string;
  cListen : string;
  cBeacon : string;
  cInbox : Address;
  cInboxSender : Address;
  cBlobSender : Address;
  cInboxStart : u64;
}.

Definition BlobEnabled (c : Config) : bool := negb (bool_decide (cBeacon c = "")).

(** ** The text of the values *)

Record URL : Type := mkURL { urlScheme : string; urlHost : string; urlFragment : string }.

Class ConfigText : Type := {
  time_ParseDuration : string → option Z;
  url_Parse : string → option URL;
  IsHexAddress : string → bool;                  (* common.IsHexAddress *)
  HexToAddress : string → Address;               (* common.HexToAddress *)
}.

(** A duration fits its width, and [n] nanoseconds can be written; the empty
    URL has no host; every address can be written. *)
Class ConfigTextLaws `{ConfigText} : Prop := {
  duration_range s d : time_ParseDuration s = Some d → - 2 ^ 63 <= d < 2 ^ 63;
  duration_ns d : 0 <= d < 2 ^ 63 → time_ParseDuration (pretty d +:+ "ns") = Some d;
  url_empty u : url_Parse "" = Some u → urlHost u = "";
  address_text a : ∃ s, IsHexAddress s = true ∧ HexToAddress s = a;
}.

(** ** Parse *)

(** The variables the flags write. *)
Record variables : Type := mkVariables {
  vConfig : Config;
  vManager : string;
  vInbox : string;
  vSender : string;
  vBlobSender : string;
}.

Section parse.
Context `{ConfigText}.

Definition set_config (f : Config → Config) (v : variables) : variables :=
  mkVariables (f (vConfig v)) (vManager v) (vInbox v) (vSender v) (vBlobSender v).

Definition StringVar (upd : string → variables → variables) (s : string) (v : variables) : result variables :=
  Ok (upd s v).
Definition Uint64Var (upd : u64 → variables → variables) (s : string) (v : variables) : result variables :=
  let! n := ParseUint0 s in Ok (upd n v).
Definition DurationVar (upd : Z → variables → variables) (s : string) (v : variables) : result variables :=
  match time_ParseDuration s with
  | Some d => Ok (upd d v)
  | None => Err (plain "parse error")
  end.

Definition with_RPC s c := mkConfig s (cL1ChainID c) (cL2ChainID c) (cAddressManager c) (cStart c)
  (cConfirmations c) (cBatchSize c) (cPoll c) (cDB c) (cListen c) (cBeacon c) (cInbox c) (cInboxSender c)
  (cBlobSender c) (cInboxStart c).
Definition with_L1 n c := mkConfig (cRPC c) n (cL2ChainID c) (cAddressManager c) (cStart c)
  (cConfirmations c) (cBatchSize c) (cPoll c) (cDB c) (cListen c) (cBeacon c) (cInbox c) (cInboxSender c)
  (cBlobSender c) (cInboxStart c).
Definition with_L2 n c := mkConfig (cRPC c) (cL1ChainID c) n (cAddressManager c) (cStart c)
  (cConfirmations c) (cBatchSize c) (cPoll c) (cDB c) (cListen c) (cBeacon c) (cInbox c) (cInboxSender c)
  (cBlobSender c) (cInboxStart c).
Definition with_Manager a c := mkConfig (cRPC c) (cL1ChainID c) (cL2ChainID c) a (cStart c)
  (cConfirmations c) (cBatchSize c) (cPoll c) (cDB c) (cListen c) (cBeacon c) (cInbox c) (cInboxSender c)
  (cBlobSender c) (cInboxStart c).
Definition with_Start n c := mkConfig (cRPC c) (cL1ChainID c) (cL2ChainID c) (cAddressManager c) n
  (cConfirmations c) (cBatchSize c) (cPoll c) (cDB c) (cListen c) (cBeacon c) (cInbox c) (cInboxSender c)
  (cBlobSender c) (cInboxStart c).
Definition with_Confirmations n c := mkConfig (cRPC c) (cL1ChainID c) (cL2ChainID c) (cAddressManager c)
  (cStart c) n (cBatchSize c) (cPoll c) (cDB c) (cListen c) (cBeacon c) (cInbox c) (cInboxSender c)
  (cBlobSender c) (cInboxStart c).
Definition with_BatchSize n c := mkConfig (cRPC c) (cL1ChainID c) (cL2ChainID c) (cAddressManager c)
  (cStart c) (cConfirmations c) n (cPoll c) (cDB c) (cListen c) (cBeacon c) (cInbox c) (cInboxSender c)
  (cBlobSender c) (cInboxStart c).
Definition with_Poll d c := mkConfig (cRPC c) (cL1ChainID c) (cL2ChainID c) (cAddressManager c)
  (cStart c) (cConfirmations c) (cBatchSize c) d (cDB c) (cListen c) (cBeacon c) (cInbox c) (cInboxSender c)
  (cBlobSender c) (cInboxStart c).
Definition with_DB s c := mkConfig (cRPC c) (cL1ChainID c) (cL2ChainID c) (cAddressManager c)
  (cStart c) (cConfirmations c) (cBatchSize c) (cPoll c) s (cListen c) (cBeacon c) (cInbox c) (cInboxSender c)
  (cBlobSender c) (cInboxStart c).
Definition with_Listen s c := mkConfig (cRPC c) (cL1ChainID c) (cL2ChainID c) (cAddressManager c)
  (cStart c) (cConfirmations c) (cBatchSize c) (cPoll c) (cDB c) s (cBeacon c) (cInbox c) (cInboxSender c)
  (cBlobSender c) (cInboxStart c).
Definition with_Beacon s c := mkConfig (cRPC c) (cL1ChainID c) (cL2ChainID c) (cAddressManager c)
  (cStart c) (cConfirmations c) (cBatchSize c) (cPoll c) (cDB c) (cListen c) s (cInbox c) (cInboxSender c)
  (cBlobSender c) (cInboxStart c).
Definition with_InboxStart n c := mkConfig (cRPC c) (cL1ChainID c) (cL2ChainID c) (cAddressManager c)
  (cStart c) (cConfirmations c) (cBatchSize c) (cPoll c) (cDB c) (cListen c) (cBeacon c) (cInbox c)
  (cInboxSender c) (cBlobSender c) n.
Definition with_senders inbox sender blob c := mkConfig (cRPC c) (cL1ChainID c) (cL2ChainID c)
  (cAddressManager c) (cStart c) (cConfirmations c) (cBatchSize c) (cPoll c) (cDB c) (cListen c) (cBeacon c)
  inbox sender blob (cInboxStart c).

Definition set_vManager s v := mkVariables (vConfig v) s (vInbox v) (vSender v) (vBlobSender v).
Definition set_vInbox s v := mkVariables (vConfig v) (vManager v) s (vSender v) (vBlobSender v).
Definition set_vSender s v := mkVariables (vConfig v) (vManager v) (vInbox v) s (vBlobSender v).
Definition set_vBlobSender s v := mkVariables (vConfig v) (vManager v) (vInbox v) (vSender v) s.

(** Five seconds. *)
Definition default_poll : Z := 5 * 1000000000.

Definition defaults : variables :=
  mkVariables (mkConfig "" (#64 0) (#64 0) zero_address (#64 0) (#64 35) (#64 2000) default_poll
    "data" "0.0.0.0:7878" "" zero_address zero_address zero_address (#64 0)) "" "" "" "".

Definition flags : FlagSet (V := variables) := [
  ("l1-rpc", StringVar (λ s, set_config (with_RPC s)));
  ("l1-chain-id", Uint64Var (λ n, set_config (with_L1 n)));
  ("l2-chain-id", Uint64Var (λ n, set_config (with_L2 n)));
  ("address-manager", StringVar set_vManager);
  ("l1-start-height", Uint64Var (λ n, set_config (with_Start n)));
  ("confirmations", Uint64Var (λ n, set_config (with_Confirmations n)));
  ("batch-size", Uint64Var (λ n, set_config (with_BatchSize n)));
  ("poll-interval", DurationVar (λ d, set_config (with_Poll d)));
  ("db", StringVar (λ s, set_config (with_DB s)));
  ("listen", StringVar (λ s, set_config (with_Listen s)));
  ("l1-beacon", StringVar (λ s, set_config (with_Beacon s)));
  ("batch-inbox-address", StringVar set_vInbox);
  ("batch-inbox-l1-height", Uint64Var (λ n, set_config (with_InboxStart n)));
  ("batch-inbox-sender", StringVar set_vSender);
  ("batch-inbox-blob-sender", StringVar set_vBlobSender)].

Definition blob_flags : list string :=
  ["l1-beacon"; "batch-inbox-address"; "batch-inbox-l1-height"; "batch-inbox-sender"; "batch-inbox-blob-sender"].

(** [f.Visit]: the blob flags that were set, and whether the start was. *)
Definition blobFlags (actual : list string) : nat :=
  length (filter (λ name, name ∈ blob_flags) actual).
Definition startSet (actual : list string) : bool := bool_decide ("l1-start-height" ∈ actual).

Definition http_url (u : option URL) : bool :=
  match u with
  | None => false
  | Some u => negb (bool_decide (urlHost u = "")) &&
      (bool_decide (urlScheme u = "http") || bool_decide (urlScheme u = "https")) &&
      bool_decide (urlFragment u = "")
  end.

Definition bad_address (s : string) : bool :=
  negb (IsHexAddress s) || bool_decide (HexToAddress s = zero_address).

Definition Parse (args : list string) : result Config :=
  let! f := Parse_flags flags defaults [] args in
  let v := fsVars f in
  let c := vConfig v in
  fail_if negb (bool_decide (fsArgs f = [])) || bool_decide (cRPC c = "") ||
      bool_decide (cL1ChainID c = #64 0) || bool_decide (cL2ChainID c = #64 0) ||
      negb (IsHexAddress (vManager v)) || negb (startSet (fsActual f)) ||
      bool_decide (cBatchSize c = #64 0) || (cPoll c <=? 0) ||
      bool_decide (cDB c = "") || bool_decide (cListen c = "")
    with plain "require --l1-rpc, --l1-chain-id, --l2-chain-id, --address-manager, --l1-start-height" ;;
  let c := with_Manager (HexToAddress (vManager v)) c in
  fail_if bool_decide (cAddressManager c = zero_address) with plain "zero AddressManager" ;;
  if (blobFlags (fsActual f) =? 0)%nat then Ok c else
  fail_if negb (blobFlags (fsActual f) =? 5)%nat || negb (http_url (url_Parse (cBeacon c)))
    with plain "blob ingestion requires all five flags and an HTTP(S) Beacon URL" ;;
  fail_if existsb bad_address [vInbox v; vSender v; vBlobSender v]
    with plain "blob addresses must be nonzero addresses" ;;
  Ok (with_senders (HexToAddress (vInbox v)) (HexToAddress (vSender v)) (HexToAddress (vBlobSender v)) c).

End parse.
