(* ===== verification/ConfigArgs.v ===== *)
(** * What a command line means (internal/config/config.go)

    A command line is a sequence of settings, a flag and its value; the last
    setting of a flag counts, and a flag that is not set has its default.
    [Parse_flags] reads exactly the settings, and the variables of [Parse] are
    what they mean. *)
From S2P Require Import Prelude Word Strconv Json Geth Flags Config.

(** A decidable fact about constants. *)
Ltac compute_elem := apply (bool_decide_unpack _); vm_compute; exact I.

(** ** The grammar *)

Definition settings : Type := list (string * string).

(** The flags whose values are numbers, and all of them. *)
Definition number_names : list string :=
  ["l1-chain-id"; "l2-chain-id"; "l1-start-height"; "confirmations"; "batch-size"; "batch-inbox-l1-height"].
Definition blob_names : list string :=
  ["l1-beacon"; "batch-inbox-address"; "batch-inbox-l1-height"; "batch-inbox-sender"; "batch-inbox-blob-sender"].
Definition names : list string :=
  ["l1-rpc"; "l1-chain-id"; "l2-chain-id"; "address-manager"; "l1-start-height"; "confirmations";
   "batch-size"; "poll-interval"; "db"; "listen"] ++ blob_names.

(** [given args kvs]: the arguments are the settings [kvs], each "-name=value"
    or "-name" "value" with one dash or two; "--" may end them. *)
Inductive given : list string → settings → Prop :=
  | gv_none : given [] []
  | gv_end : given ["--"] []
  | gv_equals dash name value args kvs :
      dash ∈ ["-"; "--"] → name ∈ names → given args kvs →
      given ((dash +:+ name +:+ "=" +:+ value) :: args) ((name, value) :: kvs)
  | gv_next dash name value args kvs :
      dash ∈ ["-"; "--"] → name ∈ names → given args kvs →
      given ((dash +:+ name) :: value :: args) ((name, value) :: kvs).

(** The last value of a flag. *)
Fixpoint last_of (kvs : settings) (name : string) : option string :=
  match kvs with
  | [] => None
  | (n, v) :: kvs =>
      match last_of kvs name with
      | Some v' => Some v'
      | None => if decide (n = name) then Some v else None
      end
  end.

(** The value of a flag with the default [d]. *)
Definition text_of (kvs : settings) (name d : string) : string := default d (last_of kvs name).
Definition number_of (kvs : settings) (name : string) (d n : u64) : Prop :=
  match last_of kvs name with None => n = d | Some s => ParseUint0 s = Ok n end.
Definition duration_of `{ConfigText} (kvs : settings) (name : string) (d z : Z) : Prop :=
  match last_of kvs name with None => z = d | Some s => time_ParseDuration s = Some z end.

(** Every value can be read, also one that is set again later. *)
Definition readable `{ConfigText} (kvs : settings) : Prop :=
  Forall (λ '(name, v), (name ∈ number_names → ∃ n, ParseUint0 v = Ok n) ∧
    (name = "poll-interval" → ∃ d, time_ParseDuration v = Some d)) kvs.

Lemma text_cons n v kvs name d :
  text_of ((n, v) :: kvs) name d = text_of kvs name (if decide (n = name) then v else d).
Proof. unfold text_of. simpl. destruct (last_of kvs name); [done|]. by case_decide. Qed.

Lemma number_cons n v kvs name d d' x :
  (if decide (n = name) then ParseUint0 v = Ok d' else d' = d) →
  number_of kvs name d' x → number_of ((n, v) :: kvs) name d x.
Proof.
  unfold number_of. simpl. destruct (last_of kvs name); [done|]. case_decide; by intros ? ->; subst.
Qed.

Lemma duration_cons `{ConfigText} n v kvs name d d' x :
  (if decide (n = name) then time_ParseDuration v = Some d' else d' = d) →
  duration_of kvs name d' x → duration_of ((n, v) :: kvs) name d x.
Proof.
  unfold duration_of. simpl. destruct (last_of kvs name); [done|]. case_decide; by intros ? ->; subst.
Qed.

Lemma last_cons n v kvs name :
  is_Some (last_of ((n, v) :: kvs) name) ↔ n = name ∨ is_Some (last_of kvs name).
Proof.
  simpl. destruct (last_of kvs name) as [x|]; [split; [by right | by eexists]|].
  case_decide; [split; [by left | by eexists]|]. split; [by intros [? ?] | by intros [?|[? ?]]].
Qed.

Lemma number_unique kvs name d x y : number_of kvs name d x → number_of kvs name d y → x = y.
Proof. unfold number_of. destruct (last_of kvs name); congruence. Qed.

(** ** Reading arguments *)

Lemma append_empty (s : string) : s +:+ "" = s.
Proof. induction s as [|c s IH]; [done|]. change (String c s +:+ "") with (String c (s +:+ "")). by rewrite IH. Qed.

Lemma cut_equals_eq s name value :
  cut_equals s = (name, value) → s = name +:+ match value with None => "" | Some v => "=" +:+ v end.
Proof.
  revert name value. induction s as [|c s IH]; intros name value; [by intros [= <- <-]|].
  assert (cut_equals (String c s) = (EmptyString, Some s) ∧ c = "="%char ∨
    cut_equals (String c s) = (let '(n, v) := cut_equals s in (String c n, v))) as [[-> ->]| ->].
  { destruct c as [[] [] [] [] [] [] [] []]; (by left) || by right. }
  - by intros [= <- <-].
  - destruct (cut_equals s) as [n v]. intros [= <- <-].
    change (String c n +:+ ?x) with (String c (n +:+ x)). f_equal. by apply IH.
Qed.

Definition read_name (name : string) : argument :=
  match name with
  | EmptyString | String "-" _ | String "=" _ => BadSyntax
  | String c name => let '(name, value) := cut_equals name in Flag (String c name) value
  end.

Lemma read_name_Flag s name value :
  read_name s = Flag name value → s = name +:+ match value with None => "" | Some v => "=" +:+ v end.
Proof.
  destruct s as [|c s]; [done|]. intros E.
  assert ((let '(n, v) := cut_equals s in Flag (String c n) v) = Flag name value) as E'
    by by destruct c as [[] [] [] [] [] [] [] []].
  destruct (cut_equals s) as [n v] eqn:Ec. injection E' as <- <-.
  change (String c n +:+ ?x) with (String c (n +:+ x)). f_equal. by apply cut_equals_eq.
Qed.

Lemma read_argument_cases s :
  (read_argument s = Positional) ∨ (read_argument s = Terminator ∧ s = "--") ∨
  ∃ dash rest, dash ∈ ["-"; "--"] ∧ s = dash +:+ rest ∧ read_argument s = read_name rest.
Proof.
  destruct s as [|c0 s]; [by left|]. destruct (decide (c0 = "-"%char)) as [->|Hc].
  2:{ left. by destruct c0 as [[] [] [] [] [] [] [] []]. }
  destruct s as [|c s]; [by left|]. right. cbn [read_argument]. unfold is_char.
  case_bool_decide as Hd; cbn [andb].
  - subst c. case_bool_decide as Hs; [left; by subst|]. right. exists "--", s.
    split_and!; [by right; left | done | done].
  - right. exists "-", (String c s). split_and!; [by left | done | done].
Qed.

Section parse.
Context `{ConfigText}.

(** The settings, one after the other. *)
Fixpoint set_all (kvs : settings) (v : variables) (actual : list string) : result (variables * list string) :=
  match kvs with
  | [] => Ok (v, actual)
  | (name, value) :: kvs =>
      match formal flags name with
      | None => Err (plain "unknown")
      | Some set => bind (set value v) (λ v, set_all kvs v (add_name name actual))
      end
  end.

Lemma formal_names name set : formal flags name = Some set → name ∈ names.
Proof.
  intros Hf%formal_elem. unfold flags in Hf.
  repeat (apply elem_of_cons in Hf as [[= -> _]|Hf]; [compute_elem|]).
  by apply elem_of_nil in Hf.
Qed.

Lemma Parse_flags_given args v actual p :
  Parse_flags flags v actual args = Ok p → fsArgs p = [] →
  ∃ kvs, given args kvs ∧ set_all kvs v actual = Ok (fsVars p, fsActual p).
Proof.
  remember (length args) as n eqn:Hn. assert (length args <= n)%nat as Hle by lia. clear Hn.
  revert args v actual Hle. induction n as [|n IH]; intros [|s args] v actual Hle E Hp; simpl in Hle;
    [|lia| |]; [exists []; injection E as <-; by split; [constructor|]..|].
  cbn [Parse_flags] in E. destruct (read_argument_cases s) as [Er|[[Er ->]|(dash & rest & Hd & -> & Er)]]; rewrite Er in E.
  - injection E as <-. done.
  - injection E as <-. simpl in Hp. subst args. exists []. by split; [constructor|].
  - destruct (read_name rest) as [| | |name value] eqn:En; [injection E as <-; done| |done|].
    { by destruct rest as [|[[] [] [] [] [] [] [] []] ?]; try done; cbn in En; destruct (cut_equals _). }
    apply read_name_Flag in En as ->.
    destruct (formal flags name) as [set|] eqn:Ef; [|by destruct (_ || _)].
    pose proof (formal_names _ _ Ef) as Hname.
    destruct value as [value|]; [|destruct args as [|value args]; [done|]];
      destruct (set value v) as [v'| |] eqn:Es; try done; cbn [bind] in E;
      (apply IH in E as (kvs & Hg & Hs); [|simpl in *; lia | done]);
      exists ((name, value) :: kvs); cbn [set_all]; rewrite Ef, Es; (split; [|exact Hs]).
    + by constructor.
    + rewrite append_empty. by constructor.
Qed.

(** The same, the other way: every flag reads its setting in both forms. *)
Lemma read_setting dash name value :
  dash ∈ ["-"; "--"] → name ∈ names →
  read_argument (dash +:+ name) = Flag name None ∧
  read_argument (dash +:+ name +:+ "=" +:+ value) = Flag name (Some value) ∧
  is_Some (formal flags name).
Proof.
  intros Hd Hn. unfold names, blob_names in Hn. cbn [app] in Hn.
  apply elem_of_cons in Hd as [->|Hd]; [|apply list_elem_of_singleton in Hd as ->];
    repeat (apply elem_of_cons in Hn as [->|Hn];
      [split; [reflexivity|]; split; [reflexivity | by eexists]|]); by apply elem_of_nil in Hn.
Qed.

Lemma given_Parse_flags args kvs v actual v' actual' :
  given args kvs → set_all kvs v actual = Ok (v', actual') →
  Parse_flags flags v actual args = Ok (mkParsed v' actual' []).
Proof.
  intros Hg. revert v actual. induction Hg as [| |dash name value args kvs Hd Hn _ IH|dash name value args kvs Hd Hn _ IH];
    intros v actual Hs; cbn [set_all] in Hs; [by injection Hs as -> ->..| |];
    destruct (read_setting dash name value Hd Hn) as (E1 & E2 & [set Ef]);
    cbn [Parse_flags]; rewrite ?E1, ?E2, Ef; rewrite Ef in Hs;
    destruct (set value v) as [v1| |]; try done; by apply IH.
Qed.

(** ** What the settings leave in the variables *)

Record settled (v0 : variables) (actual0 : list string) (kvs : settings) (v : variables) (actual : list string) : Prop := {
  st_RPC : cRPC (vConfig v) = text_of kvs "l1-rpc" (cRPC (vConfig v0));
  st_L1 : number_of kvs "l1-chain-id" (cL1ChainID (vConfig v0)) (cL1ChainID (vConfig v));
  st_L2 : number_of kvs "l2-chain-id" (cL2ChainID (vConfig v0)) (cL2ChainID (vConfig v));
  st_vManager : vManager v = text_of kvs "address-manager" (vManager v0);
  st_Start : number_of kvs "l1-start-height" (cStart (vConfig v0)) (cStart (vConfig v));
  st_Confirmations : number_of kvs "confirmations" (cConfirmations (vConfig v0)) (cConfirmations (vConfig v));
  st_BatchSize : number_of kvs "batch-size" (cBatchSize (vConfig v0)) (cBatchSize (vConfig v));
  st_Poll : duration_of kvs "poll-interval" (cPoll (vConfig v0)) (cPoll (vConfig v));
  st_DB : cDB (vConfig v) = text_of kvs "db" (cDB (vConfig v0));
  st_Listen : cListen (vConfig v) = text_of kvs "listen" (cListen (vConfig v0));
  st_Beacon : cBeacon (vConfig v) = text_of kvs "l1-beacon" (cBeacon (vConfig v0));
  st_vInbox : vInbox v = text_of kvs "batch-inbox-address" (vInbox v0);
  st_InboxStart : number_of kvs "batch-inbox-l1-height" (cInboxStart (vConfig v0)) (cInboxStart (vConfig v));
  st_vSender : vSender v = text_of kvs "batch-inbox-sender" (vSender v0);
  st_vBlobSender : vBlobSender v = text_of kvs "batch-inbox-blob-sender" (vBlobSender v0);
  st_rest : cAddressManager (vConfig v) = cAddressManager (vConfig v0) ∧ cInbox (vConfig v) = cInbox (vConfig v0) ∧
    cInboxSender (vConfig v) = cInboxSender (vConfig v0) ∧ cBlobSender (vConfig v) = cBlobSender (vConfig v0);
  st_set x : x ∈ actual ↔ x ∈ actual0 ∨ is_Some (last_of kvs x);
  st_once : NoDup actual0 → NoDup actual;
}.

Lemma add_name_elem name x l : x ∈ add_name name l ↔ x = name ∨ x ∈ l.
Proof. unfold add_name. case_bool_decide; set_solver. Qed.
Lemma add_name_NoDup name l : NoDup l → NoDup (add_name name l).
Proof.
  intros Hl. unfold add_name. case_bool_decide as Hn; [done|].
  apply NoDup_app. split_and!; [done | | apply NoDup_singleton]. set_solver.
Qed.

Lemma settled_cons name value kvs set v0 v1 actual0 v actual :
  formal flags name = Some set → set value v0 = Ok v1 →
  settled v1 (add_name name actual0) kvs v actual →
  settled v0 actual0 ((name, value) :: kvs) v actual.
Proof.
  intros Hf%formal_elem Hs [S1 S2 S3 S4 S5 S6 S7 S8 S9 S10 S11 S12 S13 S14 S15 S16 S17 S18].
  assert (∀ x, x ∈ actual ↔ x ∈ actual0 ∨ is_Some (last_of ((name, value) :: kvs) x)) as H17.
  { intros x. rewrite S17, add_name_elem, last_cons. naive_solver. }
  assert (NoDup actual0 → NoDup actual) as H18 by (intros Hn; by apply S18, add_name_NoDup).
  clear S17 S18. unfold flags in Hf.
  repeat (apply elem_of_cons in Hf as [[= -> ->]|Hf]); [..|by apply elem_of_nil in Hf].
  all: unfold StringVar, Uint64Var, DurationVar in Hs.
  all: try (destruct (ParseUint0 value) as [n| |] eqn:En; [|done..]).
  all: try (destruct (time_ParseDuration value) as [d|] eqn:Ed; [|done]).
  all: injection Hs as <-; cbn in S1, S2, S3, S4, S5, S6, S7, S8, S9, S10, S11, S12, S13, S14, S15, S16.
  all: split; try done;
    lazymatch goal with
    | |- _ = text_of _ _ _ => rewrite text_cons; by case_decide
    | |- number_of _ _ _ _ => eapply number_cons; [|eassumption]; by case_decide
    | |- duration_of _ _ _ _ => eapply duration_cons; [|eassumption]; by case_decide
    end.
Qed.

Lemma set_all_settled kvs : ∀ v0 actual0 v actual,
  set_all kvs v0 actual0 = Ok (v, actual) → settled v0 actual0 kvs v actual.
Proof.
  induction kvs as [|[name value] kvs IH]; intros v0 actual0 v actual; cbn [set_all].
  { intros [= <- <-]. split; try done. intros x. split; [by left|]. by intros [?|[? ?]]. }
  destruct (formal flags name) as [set|] eqn:Ef; [|done].
  destruct (set value v0) as [v1| |] eqn:Es; try done. cbn [bind]. intros Hk.
  by eapply settled_cons, IH.
Qed.

(** Readable settings of known flags can all be set. *)
Lemma set_all_readable kvs : ∀ v0 actual0,
  readable kvs → Forall (λ kv, kv.1 ∈ names) kvs →
  ∃ v actual, set_all kvs v0 actual0 = Ok (v, actual).
Proof.
  induction kvs as [|[name value] kvs IH]; intros v0 actual0 Hr Hn; cbn [set_all]; [by eexists _, _|].
  apply Forall_cons in Hr as [[Hnum Hdur] Hr], Hn as [Hname Hn]. simpl in Hname.
  assert (∃ set v1, formal flags name = Some set ∧ set value v0 = Ok v1) as (set & v1 & -> & ->); [|by apply IH].
  assert (name ∈ number_names → ∃ upd, formal flags name = Some (Uint64Var upd)) as Hu.
  { intros Hx. unfold number_names in Hx.
    repeat (apply elem_of_cons in Hx as [->|Hx]; [by eexists|]). by apply elem_of_nil in Hx. }
  destruct (decide (name ∈ number_names)) as [Hx|Hx].
  { destruct (Hu Hx) as [upd Ef], (Hnum Hx) as [n En]. eexists _, _. split; [exact Ef|].
    unfold Uint64Var. by rewrite En. }
  destruct (decide (name = "poll-interval")) as [->|Hp].
  { destruct (Hdur eq_refl) as [d Ed]. eexists _, _. split; [reflexivity|]. unfold DurationVar. by rewrite Ed. }
  clear Hu Hnum Hdur. unfold names, blob_names in Hname. cbn [app] in Hname.
  repeat (apply elem_of_cons in Hname as [->|Hname];
    [first [by destruct Hp | by destruct Hx; compute_elem | by eexists _, _]|]).
  by apply elem_of_nil in Hname.
Qed.

(** Settings that were set are readable. *)
Lemma readable_set_all kvs : ∀ v0 actual0 v actual,
  set_all kvs v0 actual0 = Ok (v, actual) → readable kvs.
Proof.
  induction kvs as [|[name value] kvs IH]; intros v0 actual0 v actual; cbn [set_all]; [by constructor|].
  destruct (formal flags name) as [set|] eqn:Ef; [|done].
  destruct (set value v0) as [v1| |] eqn:Es; try done. cbn [bind]. intros Hk%IH. constructor; [|done].
  split.
  - intros Hx. unfold number_names in Hx.
    assert (∃ upd, formal flags name = Some (Uint64Var upd)) as [upd Ef'].
    { repeat (apply elem_of_cons in Hx as [->|Hx]; [by eexists|]). by apply elem_of_nil in Hx. }
    rewrite Ef in Ef'. injection Ef' as ->. unfold Uint64Var in Es.
    destruct (ParseUint0 value) as [n| |]; [by exists n | done..].
  - intros ->. injection Ef as <-. unfold DurationVar in Es.
    destruct (time_ParseDuration value) as [d|]; [by exists d | done].
Qed.

Lemma given_names args kvs : given args kvs → Forall (λ kv, kv.1 ∈ names) kvs.
Proof. by induction 1; constructor. Qed.

(** ** Counting the blob flags *)

Lemma blobFlags_count actual :
  NoDup actual →
  (blobFlags actual = 0%nat ↔ ∀ x, x ∈ blob_names → x ∉ actual) ∧
  (blobFlags actual = 5%nat ↔ ∀ x, x ∈ blob_names → x ∈ actual).
Proof.
  intros Hnd. unfold blobFlags. change blob_flags with blob_names.
  set (l := filter (λ name, name ∈ blob_names) actual).
  assert (∀ x, x ∈ l ↔ x ∈ blob_names ∧ x ∈ actual) as Hl by (intros x; unfold l; by rewrite list_elem_of_filter).
  assert (NoDup l) as Hndl by by apply NoDup_filter.
  assert (l ⊆+ blob_names) as Hsub by (apply NoDup_submseteq; [done|]; intros x Hx; by apply Hl in Hx as [? _]).
  split; split.
  - intros Hz%nil_length_inv x Hx Ha. assert (x ∈ l) as Hxl by by apply Hl. rewrite Hz in Hxl. by apply elem_of_nil in Hxl.
  - intros Hn. destruct l as [|x l'] eqn:El; [done|]. assert (x ∈ blob_names ∧ x ∈ actual) as [? ?] by (apply Hl; left).
    by destruct (Hn x).
  - intros H5 x Hx. assert (l ≡ₚ blob_names) as Hp by (apply submseteq_length_Permutation; [done|]; by rewrite H5).
    rewrite <-Hp in Hx. by apply Hl in Hx as [_ ?].
  - intros Ha. assert (blob_names ≡ₚ l) as <-; [|done]. apply submseteq_length_Permutation; [|by apply submseteq_length].
    apply NoDup_submseteq; [compute_elem|]. intros x Hx. apply Hl. auto.
Qed.

End parse.
