(* ===== verification/ConfigTheorems.v ===== *)
(** * What [Parse] promises

    It returns exactly what the settings of the command line mean, when they
    are complete and valid; and every valid configuration can be given. *)
From S2P Require Import Prelude Word Strconv Json Geth Flags Config ConfigArgs.

Section facts.
Context `{ConfigText}.

(** Without blob ingestion nothing of it is configured; with it, everything. *)
Definition blob_off (c : Config) : Prop :=
  cBeacon c = "" ∧ cInbox c = zero_address ∧ cInboxSender c = zero_address ∧
  cBlobSender c = zero_address ∧ cInboxStart c = #64 0.
Definition blob_on (c : Config) : Prop :=
  (∃ u, url_Parse (cBeacon c) = Some u ∧ urlHost u ≠ "" ∧ urlFragment u = "" ∧
     (urlScheme u = "http" ∨ urlScheme u = "https")) ∧
  cInbox c ≠ zero_address ∧ cInboxSender c ≠ zero_address ∧ cBlobSender c ≠ zero_address.

Record valid (c : Config) : Prop := {
  va_RPC : cRPC c ≠ "";
  va_L1 : 0 < uval (cL1ChainID c);
  va_L2 : 0 < uval (cL2ChainID c);
  va_Manager : cAddressManager c ≠ zero_address;
  va_BatchSize : 0 < uval (cBatchSize c);
  va_Poll : 0 < cPoll c < 2 ^ 63;
  va_DB : cDB c ≠ "";
  va_Listen : cListen c ≠ "";
  va_Blob : blob_off c ∨ blob_on c;
}.

Lemma u64_pos (n : u64) : n ≠ #64 0 ↔ 0 < uval n.
Proof.
  pose proof (uint_range n). split; [|by intros Hlt ->; vm_compute in Hlt].
  intros Hn. destruct (decide (uval n = 0)) as [E|]; [|lia]. by destruct Hn; apply uint_eq.
Qed.

(** ** What was not set has its default *)

Record parsing (v : variables) (actual : list string) : Prop := {
  ps_poll : - 2 ^ 63 <= cPoll (vConfig v) < 2 ^ 63;
  ps_beacon : "l1-beacon" ∉ actual → cBeacon (vConfig v) = "";
  ps_start : "batch-inbox-l1-height" ∉ actual → cInboxStart (vConfig v) = #64 0;
  ps_inbox : cInbox (vConfig v) = zero_address;
  ps_sender : cInboxSender (vConfig v) = zero_address;
  ps_blob : cBlobSender (vConfig v) = zero_address;
}.

Lemma add_name_not name x l : x ∉ add_name name l → x ≠ name ∧ x ∉ l.
Proof. unfold add_name. case_bool_decide; set_solver. Qed.

Lemma parsing_set `{!ConfigTextLaws} name set value v v' actual :
  (name, set) ∈ flags → set value v = Ok v' → parsing v actual → parsing v' (add_name name actual).
Proof.
  intros Hin Hset [Pp Pb Ps Pi Pq Pr].
  unfold flags in Hin. repeat (apply elem_of_cons in Hin as [[= -> ->]|Hin]); [..|by apply elem_of_nil in Hin].
  all: unfold StringVar, Uint64Var, DurationVar in Hset.
  all: try (destruct (ParseUint0 value); [|done..]).
  all: try (destruct (time_ParseDuration value) as [d|] eqn:Ed; [|done]; apply duration_range in Ed).
  all: injection Hset as <-; split; try done; intros [Hne Hn]%add_name_not; by auto.
Qed.

Lemma parsing_defaults : parsing defaults [].
Proof. by split. Qed.

Lemma blobFlags_none actual x : blobFlags actual = 0%nat → x ∈ blob_flags → x ∉ actual.
Proof.
  unfold blobFlags. intros Hn%nil_length_inv Hx Ha.
  assert (x ∈ filter (λ name, name ∈ blob_flags) actual) as Hf by (by apply list_elem_of_filter).
  rewrite Hn in Hf. by apply elem_of_nil in Hf.
Qed.

Lemma http_url_true s : http_url (url_Parse s) = true ↔
  ∃ u, url_Parse s = Some u ∧ urlHost u ≠ "" ∧ urlFragment u = "" ∧ (urlScheme u = "http" ∨ urlScheme u = "https").
Proof.
  unfold http_url. destruct (url_Parse s) as [u|]; [|naive_solver].
  rewrite !andb_true_iff, orb_true_iff, negb_true_iff, bool_decide_eq_false, !bool_decide_eq_true.
  split; [intros [[? ?] ?]; by exists u | intros (u' & [= <-] & ?); tauto].
Qed.

Lemma bad_addresses l : existsb bad_address l = false ↔
  Forall (λ s, IsHexAddress s = true ∧ HexToAddress s ≠ zero_address) l.
Proof.
  induction l as [|s l IH]; simpl; [done|]. rewrite Forall_cons, orb_false_iff, IH.
  unfold bad_address. by rewrite orb_false_iff, negb_false_iff, bool_decide_eq_false.
Qed.

Lemma Parse_valid `{!ConfigTextLaws} args c : Parse args = Ok c → valid c.
Proof.
  unfold Parse. destruct (Parse_flags flags defaults [] args) as [p| |] eqn:Ep; cbn [bind]; try done.
  pose proof (Parse_flags_inv flags parsing args defaults [] p parsing_set parsing_defaults Ep) as [Pp Pb Ps Pi Pq Pr].
  cbv zeta. destruct (_ || _) eqn:E1; [done|]. destruct (bool_decide (cAddressManager _ = _)) eqn:E2; [done|].
  repeat (apply orb_false_iff in E1 as [E1 ?]). bool_to_prop. cbn [cAddressManager with_Manager] in E2.
  assert (∀ c, cRPC c = cRPC (vConfig (fsVars p)) → cL1ChainID c = cL1ChainID (vConfig (fsVars p)) →
    cL2ChainID c = cL2ChainID (vConfig (fsVars p)) → cAddressManager c = HexToAddress (vManager (fsVars p)) →
    cBatchSize c = cBatchSize (vConfig (fsVars p)) → cPoll c = cPoll (vConfig (fsVars p)) →
    cDB c = cDB (vConfig (fsVars p)) → cListen c = cListen (vConfig (fsVars p)) →
    blob_off c ∨ blob_on c → valid c) as Hv.
  { intros c' R1 R2 R3 R4 R5 R6 R7 R8 Hb. split; try congruence; try (apply u64_pos; congruence). rewrite R6. lia. }
  destruct (Nat.eqb_spec (blobFlags (fsActual p)) 0) as [Hb|Hb].
  { intros [= <-]. apply Hv; try done. left. split_and!; try done; [apply Pb | apply Ps];
      (eapply blobFlags_none; [done|]); unfold blob_flags; set_solver. }
  destruct (_ || _) eqn:E3; [done|]. apply orb_false_iff in E3 as [_ E3].
  apply negb_false_iff, http_url_true in E3.
  destruct (existsb _ _) eqn:E4; [done|]. apply bad_addresses in E4.
  rewrite !Forall_cons in E4. destruct E4 as ([_ ?] & [_ ?] & [_ ?] & _).
  intros [= <-]. apply Hv; try done. by right.
Qed.

(** ** Every valid configuration can be given *)

Lemma Uint64Var_Format upd n v : Uint64Var upd (FormatUint n) v = Ok (upd n v).
Proof. unfold Uint64Var. by rewrite ParseUint0_Format. Qed.

Lemma DurationVar_ns `{!ConfigTextLaws} upd d v :
  0 <= d < 2 ^ 63 → DurationVar upd (pretty d +:+ "ns") v = Ok (upd d v).
Proof. intros Hd. unfold DurationVar. by rewrite duration_ns. Qed.

(** The command line of a configuration; addresses by their text. *)
Definition base_args (manager : string) (c : Config) : list string := [
  "--l1-rpc"; cRPC c; "--l1-chain-id"; FormatUint (cL1ChainID c); "--l2-chain-id"; FormatUint (cL2ChainID c);
  "--address-manager"; manager; "--l1-start-height"; FormatUint (cStart c);
  "--confirmations"; FormatUint (cConfirmations c); "--batch-size"; FormatUint (cBatchSize c);
  "--poll-interval"; pretty (cPoll c) +:+ "ns"; "--db"; cDB c; "--listen"; cListen c].
Definition blob_args (inbox sender blob : string) (c : Config) : list string := [
  "--l1-beacon"; cBeacon c; "--batch-inbox-address"; inbox;
  "--batch-inbox-l1-height"; FormatUint (cInboxStart c); "--batch-inbox-sender"; sender;
  "--batch-inbox-blob-sender"; blob].

Ltac step_flag :=
  erewrite Parse_flags_pair;
  [| vm_compute; reflexivity | reflexivity
   | first [reflexivity | apply Uint64Var_Format | by apply DurationVar_ns]].

Definition base_names : list string :=
  ["l1-rpc"; "l1-chain-id"; "l2-chain-id"; "address-manager"; "l1-start-height"; "confirmations";
   "batch-size"; "poll-interval"; "db"; "listen"].
Definition base_vars (manager : string) (c : Config) : variables :=
  mkVariables (mkConfig (cRPC c) (cL1ChainID c) (cL2ChainID c) zero_address (cStart c) (cConfirmations c)
    (cBatchSize c) (cPoll c) (cDB c) (cListen c) "" zero_address zero_address zero_address (#64 0))
    manager "" "" "".
Definition blob_vars (manager inbox sender blob : string) (c : Config) : variables :=
  mkVariables (mkConfig (cRPC c) (cL1ChainID c) (cL2ChainID c) zero_address (cStart c) (cConfirmations c)
    (cBatchSize c) (cPoll c) (cDB c) (cListen c) (cBeacon c) zero_address zero_address zero_address (cInboxStart c))
    manager inbox sender blob.

Lemma Parse_base `{!ConfigTextLaws} manager c rest :
  0 <= cPoll c < 2 ^ 63 →
  Parse_flags flags defaults [] (base_args manager c ++ rest) =
    Parse_flags flags (base_vars manager c) base_names rest.
Proof. intros Hd. unfold base_args. cbn [app]. do 10 step_flag. reflexivity. Qed.

Lemma Parse_blob manager inbox sender blob c :
  Parse_flags flags (base_vars manager c) base_names (blob_args inbox sender blob c) =
    Ok (mkParsed (blob_vars manager inbox sender blob c) (base_names ++ blob_flags) []).
Proof. unfold blob_args. do 5 step_flag. reflexivity. Qed.

Ltac show := cbn [bind fsVars fsArgs fsActual vConfig vManager vInbox vSender vBlobSender cRPC cL1ChainID
  cL2ChainID cAddressManager cStart cConfirmations cBatchSize cPoll cDB cListen cBeacon cInbox cInboxSender
  cBlobSender cInboxStart base_vars blob_vars with_Manager with_senders negb orb existsb] in *.

Lemma valid_Parse `{!ConfigTextLaws} c : valid c → ∃ args, Parse args = Ok c.
Proof.
  intros [R1 R2 R3 R4 R5 R6 R7 R8 Rb].
  destruct (address_text (cAddressManager c)) as (m & Hm & Em).
  apply u64_pos, (bool_decide_eq_false_2 _) in R2, R3, R5.
  apply (bool_decide_eq_false_2 _) in R1, R4, R7, R8.
  assert ((cPoll c <=? 0) = false) as Ep by (apply Z.leb_gt; lia).
  assert (∀ l, startSet (base_names ++ l) = true) as Hst by (intros l; by apply bool_decide_eq_true_2; set_solver).
  destruct Rb as [(B1 & B2 & B3 & B4 & B5)|(Hu & B2 & B3 & B4)].
  - exists (base_args m c). unfold Parse. rewrite <-(app_nil_r (base_args m c)), Parse_base by lia.
    cbn [Parse_flags]. show. rewrite <-(app_nil_r base_names), Hst.
    rewrite R1, R2, R3, R5, R7, R8, Hm, Em, Ep, R4, bool_decide_true by done. show.
    change (blobFlags (base_names ++ [])) with 0%nat. cbn [Nat.eqb].
    destruct c; show; by subst.
  - destruct (address_text (cInbox c)) as (i & Hi & Ei), (address_text (cInboxSender c)) as (s & Hs & Es),
      (address_text (cBlobSender c)) as (b & Hb & Eb).
    exists (base_args m c ++ blob_args i s b c). unfold Parse. rewrite Parse_base, Parse_blob by lia.
    apply http_url_true in Hu. apply (bool_decide_eq_false_2 _) in B2, B3, B4. show.
    rewrite Hst, R1, R2, R3, R5, R7, R8, Hm, Em, Ep, R4, bool_decide_true by done. show.
    change (blobFlags (base_names ++ blob_flags)) with 5%nat. cbn [Nat.eqb]. unfold bad_address.
    rewrite Hu, Hi, Hs, Hb, Ei, Es, Eb, B2, B3, B4. show. by destruct c.
Qed.

(** ** What the settings mean *)

(** The five blob flags are set together or not at all. *)
Definition blob_configured (kvs : settings) (c : Config) : Prop :=
  (∀ name, name ∈ blob_names → last_of kvs name = None) ∧ blob_off c ∨
  (∀ name, name ∈ blob_names → is_Some (last_of kvs name)) ∧ blob_on c ∧
    cBeacon c = text_of kvs "l1-beacon" "" ∧
    number_of kvs "batch-inbox-l1-height" (#64 0) (cInboxStart c) ∧
    (∀ name, name ∈ ["batch-inbox-address"; "batch-inbox-sender"; "batch-inbox-blob-sender"] →
       IsHexAddress (text_of kvs name "") = true) ∧
    cInbox c = HexToAddress (text_of kvs "batch-inbox-address" "") ∧
    cInboxSender c = HexToAddress (text_of kvs "batch-inbox-sender" "") ∧
    cBlobSender c = HexToAddress (text_of kvs "batch-inbox-blob-sender" "").

(** The configuration the settings [kvs] give: every value is readable, each
    field is what the last setting of its flag says or has its default, the
    start height is set, the five blob flags are set together or not at all,
    and the whole is valid. *)
Record configured (kvs : settings) (c : Config) : Prop := {
  cf_readable : readable kvs;
  cf_RPC : cRPC c = text_of kvs "l1-rpc" "";
  cf_L1 : number_of kvs "l1-chain-id" (#64 0) (cL1ChainID c);
  cf_L2 : number_of kvs "l2-chain-id" (#64 0) (cL2ChainID c);
  cf_Manager : IsHexAddress (text_of kvs "address-manager" "") = true ∧
    cAddressManager c = HexToAddress (text_of kvs "address-manager" "");
  cf_Start : ∃ s, last_of kvs "l1-start-height" = Some s ∧ ParseUint0 s = Ok (cStart c);
  cf_Confirmations : number_of kvs "confirmations" (#64 35) (cConfirmations c);
  cf_BatchSize : number_of kvs "batch-size" (#64 2000) (cBatchSize c);
  cf_Poll : duration_of kvs "poll-interval" 5000000000 (cPoll c);
  cf_DB : cDB c = text_of kvs "db" "data";
  cf_Listen : cListen c = text_of kvs "listen" "0.0.0.0:7878";
  cf_Blob : blob_configured kvs c;
  cf_valid : valid c;
}.

Lemma not_set_None (kvs : settings) (actual : list string) name :
  (∀ x, x ∈ actual ↔ x ∈ ([] : list string) ∨ is_Some (last_of kvs x)) → (name ∉ actual ↔ last_of kvs name = None).
Proof.
  intros Hs. rewrite eq_None_not_Some, Hs. split; [naive_solver|]. intros Hn [Hx|?]; [by apply elem_of_nil in Hx | done].
Qed.

Lemma number_given kvs name d n s : last_of kvs name = Some s → number_of kvs name d n → ParseUint0 s = Ok n.
Proof. unfold number_of. by intros ->. Qed.

Lemma Parse_configured `{!ConfigTextLaws} args c :
  Parse args = Ok c → ∃ kvs, given args kvs ∧ configured kvs c.
Proof.
  intros HP. pose proof (Parse_valid args c HP) as Hvalid. revert HP. unfold Parse.
  destruct (Parse_flags flags defaults [] args) as [p| |] eqn:Ep; cbn [bind]; try done. cbv zeta.
  destruct (_ || _) eqn:E1; [done|]. destruct (bool_decide (cAddressManager _ = _)); [done|].
  repeat (apply orb_false_iff in E1 as [E1 ?]). bool_to_prop.
  destruct (Parse_flags_given _ _ _ _ Ep E1) as (kvs & Hg & Hs).
  pose proof (set_all_settled _ _ _ _ _ Hs) as S. pose proof (st_set _ _ _ _ _ S) as Hset.
  destruct (blobFlags_count (fsActual p) (st_once _ _ _ _ _ S (NoDup_nil_2))) as [Hnone Hall].
  assert (∃ s, last_of kvs "l1-start-height" = Some s) as [s Hstart].
  { match goal with Hx : startSet _ = true |- _ => apply bool_decide_eq_true_1, Hset in Hx end.
    match goal with Hx : _ ∨ is_Some _ |- _ => destruct Hx as [Hx|[s Hx]]; [by apply elem_of_nil in Hx | by exists s] end. }
  pose proof (readable_set_all _ _ _ _ _ Hs) as Hread.
  destruct S as [S1 S2 S3 S4 S5 S6 S7 S8 S9 S10 S11 S12 S13 S14 S15 _ _ _].
  cbn [vConfig vManager vInbox vSender vBlobSender cRPC cL1ChainID cL2ChainID cStart cConfirmations cBatchSize cPoll
    cDB cListen cBeacon cInboxStart defaults] in *.
  assert (∀ c', c = c' → cRPC c' = cRPC (vConfig (fsVars p)) → cL1ChainID c' = cL1ChainID (vConfig (fsVars p)) →
    cL2ChainID c' = cL2ChainID (vConfig (fsVars p)) → cAddressManager c' = HexToAddress (vManager (fsVars p)) →
    cStart c' = cStart (vConfig (fsVars p)) → cConfirmations c' = cConfirmations (vConfig (fsVars p)) →
    cBatchSize c' = cBatchSize (vConfig (fsVars p)) → cPoll c' = cPoll (vConfig (fsVars p)) →
    cDB c' = cDB (vConfig (fsVars p)) → cListen c' = cListen (vConfig (fsVars p)) → blob_configured kvs c → configured kvs c) as Hv.
  { intros c' <- R1 R2 R3 R4 R5 R6 R7 R8 R9 R10 Hb. split; rewrite ?R1, ?R2, ?R3, ?R4, ?R5, ?R6, ?R7, ?R8, ?R9, ?R10;
      try done; [by rewrite <-S4 | exists s; split; [done | by eapply number_given]]. }
  destruct (Nat.eqb_spec (blobFlags (fsActual p)) 0) as [Hb|Hb].
  { intros [= <-]. exists kvs. split; [done|]. eapply Hv; try done. left. split.
    - intros name Hn. apply (not_set_None kvs (fsActual p)); [done|]. by apply Hnone.
    - destruct (va_Blob _ Hvalid) as [?|[(u & Hu & Hh & _) _]]; [done|]. exfalso. apply Hh.
      apply (url_empty u). rewrite <-Hu. f_equal. cbn [cBeacon with_Manager]. rewrite S11. unfold text_of.
      by rewrite (proj1 (not_set_None kvs (fsActual p) "l1-beacon" Hset)) by (apply Hnone; [done | compute_elem]). }
  destruct (negb _ || _) eqn:E3; [done|]. apply orb_false_iff in E3 as [E3 E3'].
  apply negb_false_iff, Nat.eqb_eq in E3. apply negb_false_iff, http_url_true in E3'.
  destruct (existsb _ _) eqn:E4; [done|]. apply bad_addresses in E4.
  rewrite !Forall_cons in E4. destruct E4 as ([A1 N1] & [A2 N2] & [A3 N3] & _).
  intros [= <-]. exists kvs. split; [done|]. eapply Hv; try done. right.
  cbn [cBeacon cInboxStart cInbox cInboxSender cBlobSender with_senders with_Manager].
  rewrite <-S12, <-S14, <-S15. split_and!; try done.
  - intros name Hn. destruct (proj1 (Hset name) (proj1 Hall E3 name Hn)) as [Hx|?]; [by apply elem_of_nil in Hx | done].
  - intros name Hn. apply elem_of_cons in Hn as [->|Hn]; [by rewrite <-S12|].
    apply elem_of_cons in Hn as [->|Hn]; [by rewrite <-S14|].
    apply list_elem_of_singleton in Hn as ->. by rewrite <-S15.
Qed.

Lemma duration_unique kvs name d x y : duration_of kvs name d x → duration_of kvs name d y → x = y.
Proof. unfold duration_of. destruct (last_of kvs name); congruence. Qed.

(** The settings of a configuration are parsed to it. *)
Lemma configured_Parse `{!ConfigTextLaws} args kvs c :
  given args kvs → configured kvs c → Parse args = Ok c.
Proof.
  intros Hg [C0 C1 C2 C3 [C4a C4] (s & C5s & C5) C6 C7 C8 C9 C10 Cb Hvalid].
  destruct (set_all_readable kvs defaults [] C0 (given_names _ _ Hg)) as (v & actual & Hs).
  pose proof (set_all_settled _ _ _ _ _ Hs) as S. pose proof (st_set _ _ _ _ _ S) as Hset.
  destruct (blobFlags_count actual (st_once _ _ _ _ _ S (NoDup_nil_2))) as [Hnone Hall].
  destruct S as [S1 S2 S3 S4 S5 S6 S7 S8 S9 S10 S11 S12 S13 S14 S15 (S16 & S17 & S18 & S19) _ _].
  unfold Parse. rewrite (given_Parse_flags args kvs _ _ v actual Hg Hs). cbn [bind fsVars fsArgs fsActual]. cbv zeta.
  unfold defaults in S1, S2, S3, S4, S5, S6, S7, S8, S9, S10, S11, S12, S13, S14, S15, S16, S17, S18, S19. show.
  rewrite <-C1 in S1. pose proof (number_unique _ _ _ _ _ S2 C2) as E2. pose proof (number_unique _ _ _ _ _ S3 C3) as E3.
  pose proof (number_unique _ _ _ _ _ S6 C6) as E6. pose proof (number_unique _ _ _ _ _ S7 C7) as E7.
  pose proof (duration_unique _ _ _ _ _ S8 C8) as E8. rewrite <-C9 in S9. rewrite <-C10 in S10. rewrite <-S4 in C4a, C4.
  assert (cStart (vConfig v) = cStart c) as E5.
  { apply (number_given _ _ _ _ s) in S5; [|done]. congruence. }
  assert (startSet actual = true) as Hstart by (apply bool_decide_eq_true_2, Hset; right; by exists s).
  pose proof Hvalid as [R1 R2 R3 R4 R5 R6 R7 R8 _].
  apply u64_pos, (bool_decide_eq_false_2 _) in R2, R3, R5.
  apply (bool_decide_eq_false_2 _) in R1, R4, R7, R8.
  assert ((cPoll c <=? 0) = false) as Ep by (apply Z.leb_gt; lia).
  rewrite S1, E2, E3, E7, E8, S9, S10, R1, R2, R3, R5, R7, R8, C4a, Hstart, Ep, <-C4, R4, bool_decide_true by done. show.
  destruct Cb as [[Hno (B1 & B2 & B3 & B4 & B5)]|(Hyes & [Hu (B2 & B3 & B4)] & D1 & D2 & D3 & D4 & D5 & D6)].
  - assert (blobFlags actual = 0%nat) as -> by (apply Hnone; intros x Hx; apply (not_set_None kvs); auto).
    cbn [Nat.eqb].
    assert (cBeacon (vConfig v) = "" ∧ cInboxStart (vConfig v) = #64 0) as [E11 E13].
    { unfold text_of in S11. unfold number_of in S13. rewrite Hno in S11, S13 by compute_elem. done. }
    rewrite <-B1 in E11. rewrite <-B2 in S17. rewrite <-B3 in S18. rewrite <-B4 in S19. rewrite <-B5 in E13.
    unfold with_Manager. rewrite S1, E2, E3, E5, E6, E7, E8, S9, S10, E11, S17, S18, S19, E13. by destruct c.
  - assert (blobFlags actual = 5%nat) as -> by (apply Hall; intros x Hx; apply Hset; auto).
    pose proof (number_unique _ _ _ _ _ S13 D2) as E13. rewrite <-D1 in S11.
    apply http_url_true in Hu. apply (bool_decide_eq_false_2 _) in B2, B3, B4.
    pose proof (D3 "batch-inbox-address" ltac:(compute_elem)) as A1.
    pose proof (D3 "batch-inbox-sender" ltac:(compute_elem)) as A2.
    pose proof (D3 "batch-inbox-blob-sender" ltac:(compute_elem)) as A3.
    rewrite <-S12 in A1, D4. rewrite <-S14 in A2, D5. rewrite <-S15 in A3, D6.
    cbn [Nat.eqb negb orb existsb]. unfold bad_address.
    rewrite S11, Hu, A1, A2, A3, <-D4, <-D5, <-D6, B2, B3, B4. cbn [negb orb].
    unfold with_senders, with_Manager. show. rewrite S1, E2, E3, E5, E6, E7, E8, S9, S10, S11, E13. by destruct c.
Qed.

(** ** Properties *)

(** [C27] A command line is parsed to a configuration exactly when it is a
    sequence of settings ("-name value" or "-name=value", one dash or two) that
    gives it: each field is what the last setting of its flag says, or its
    default; every value is readable; the start height is set; the five blob
    flags are set together or not at all; addresses are well-formed and not
    zero.  And every valid configuration can be given. *)
Theorem Parse_exact `{!ConfigTextLaws} c :
  (∀ args, Parse args = Ok c ↔ ∃ kvs, given args kvs ∧ configured kvs c) ∧
  ((∃ args, Parse args = Ok c) ↔ valid c).
Proof.
  split.
  - intros args. split; [apply Parse_configured|]. intros (kvs & Hg & Hc). by eapply configured_Parse.
  - split; [intros [args HP]; by eapply Parse_valid | apply valid_Parse].
Qed.

End facts.


Module ConfigWitness.

(** Decimal nanoseconds and decimal addresses; every URL is a host. *)
Fixpoint ns_value (acc : Z) (s : string) : option Z :=
  match s with
  | EmptyString => None
  | String c t => if bool_decide (s = "ns") then Some acc
                  else if is_digit c then ns_value (10 * acc + digit_value c) t else None
  end.
#[local] Instance text : ConfigText := {|
  time_ParseDuration s :=
    match ns_value 0 s with Some d => if (0 <=? d) && (d <? 2 ^ 63) then Some d else None | None => None end;
  url_Parse s := Some (mkURL "http" s "");
  IsHexAddress s := true;
  HexToAddress s := wrap 160 (decimal 0 s);
|}.

Lemma ns_value_digits s : ∀ acc, all_digits s = true → ns_value acc (s +:+ "ns") = Some (decimal acc s).
Proof.
  induction s as [|c s IH]; intros acc; [done|]. cbn [all_digits]. intros [Hc Hs]%andb_true_iff.
  change (String c s +:+ "ns") with (String c (s +:+ "ns")). cbn [ns_value decimal].
  rewrite bool_decide_false by (by intros [= -> _]). rewrite Hc. by apply IH.
Qed.

#[local] Instance text_laws : ConfigTextLaws.
Proof.
  split.
  - intros s d. cbn. destruct (ns_value 0 s); [|done]. destruct (_ && _) eqn:E; [|done].
    intros [= <-]. bool_to_prop. lia.
  - intros d Hd. cbn. destruct (pretty_digits d) as (Ha & Hv & _); [lia|].
    rewrite ns_value_digits, Hv by done. by rewrite (proj2 (Z.leb_le _ _)), (proj2 (Z.ltb_lt _ _)) by lia.
  - by intros u [= <-].
  - intros a. exists (pretty (uval a)). split; [done|]. cbn.
    destruct (pretty_digits (uval a)) as (_ & Hv & _); [apply uint_range|]. by rewrite Hv, wrap_uval.
Qed.

Definition args : list string := [
  "--l1-rpc=http://l1"; "-l1-chain-id=0x1"; "--l2-chain-id"; "1_088"; "--address-manager=7";
  "--l1-start-height=0"; "--poll-interval"; "9ns"; "--l1-beacon=beacon"; "--batch-inbox-address=1";
  "--batch-inbox-l1-height=5"; "--batch-inbox-sender=2"; "--batch-inbox-blob-sender=3"].
Definition parsed_args : Config :=
  mkConfig "http://l1" (#64 1) (#64 1088) (wrap 160 7) (#64 0) (#64 35) (#64 2000) 9 "data" "0.0.0.0:7878"
    "beacon" (wrap 160 1) (wrap 160 2) (wrap 160 3) (#64 5).

(** The arguments mean one configuration; without the start height, or with
    four of the blob flags, they mean none. *)
Definition no_start : list string := take 5 args ++ drop 6 args.
Definition four_flags : list string := take 12 args.

Lemma Parse_exact_witness :
  Parse args = Ok parsed_args ∧ (∃ kvs, given args kvs ∧ configured kvs parsed_args) ∧ valid parsed_args ∧
  (∀ c, Parse no_start ≠ Ok c ∧ Parse four_flags ≠ Ok c).
Proof.
  assert (Parse args = Ok parsed_args) as E by (vm_compute; reflexivity).
  destruct (Parse_exact parsed_args) as [Hm [Hv _]].
  split_and!; [exact E | by apply Hm | by apply Hv; exists args |]. intros c. split; by vm_compute.
Defined.

End ConfigWitness.
