(* ===== verification/Logs.v ===== *)
(** * Deposit logs (internal/ingest: abi.go, decode.go, decodeLogs of syncer_step.go)

    A window's logs are sorted, repeated logs are dropped, conflicting ones
    refused, and the rest is interpreted in order: an AddressSet event moves
    the CanonicalTransactionChain, a log of the chain's current address is a
    deposit. *)
From S2P Require Import Prelude Word Json Geth Pebble StoreTypes Config.

Definition fatal (msg : string) : error := errorf ErrFatal msg.

Definition AddressSet : string := "AddressSet".
Definition TransactionEnqueued : string := "TransactionEnqueued".

Definition equalTopics (a b : list Hash) : bool :=
  (length a =? length b)%nat && forallb (λ p, bool_decide (p.1 = p.2)) (zip a b).

Definition validateLog (l : Log) (from end_ : u64) : result unit :=
  fail_if lRemoved l || ult (lBlockNumber l) from || ult end_ (lBlockNumber l)
          || bool_decide (lTopics l = [])
    with fatal "invalid log range or metadata" ;;
  Ok tt.

(** The order of the logs in a chain. *)
Definition log_less (a b : Log) : bool :=
  if negb (bool_decide (lBlockNumber a = lBlockNumber b)) then ult (lBlockNumber a) (lBlockNumber b)
  else if negb (bool_decide (lTxIndex a = lTxIndex b)) then ult (lTxIndex a) (lTxIndex b)
  else ult (lIndex a) (lIndex b).

(** Type assertions on decoded arguments. *)
Definition as_address (v : abi_value) : result Address :=
  match v with AbiAddress a => Ok a | _ => Panic end.
Definition as_uint (v : abi_value) : result Z :=
  match v with AbiUint z => Ok z | _ => Panic end.
Definition as_bytes (v : abi_value) : result bytes :=
  match v with AbiBytes b => Ok b | _ => Panic end.

(** Two reports of the same log. *)
Definition same_log (old l : Log) : bool :=
  bool_decide (lBlockNumber old = lBlockNumber l) && bool_decide (lAddress old = lAddress l) &&
  bool_decide (lTxHash old = lTxHash l) && bool_decide (lTxIndex old = lTxIndex l) &&
  bool_decide (lData old = lData l) && equalTopics (lTopics old) (lTopics l).

Section logs.
Context `{ABI, GethText}.

Definition nameHash : Hash := NameHash "CanonicalTransactionChain".

(** Decoding must be canonical: packing the values again gives the data. *)
Definition unpack (name : string) (data : bytes) : result (list abi_value) :=
  match abi_Unpack name data with
  | Panic => Panic
  | Err e => Err (wrapf ErrFatal e)
  | Ok v =>
      match abi_Pack name v with
      | Panic => Panic
      | Err _ => Err (fatal "noncanonical event data")
      | Ok raw =>
          fail_if negb (bool_decide (raw = data)) with fatal "noncanonical event data" ;;
          Ok v
      end
  end.

(** An address topic has 12 leading zero bytes. *)
Definition check_topic (_ : unit) (t : Hash) : result unit :=
  fail_if negb (high12_zero t) with fatal "invalid address topic" ;; Ok tt.

Definition Decode (l : Log) : result (DepositRecord * Z) :=
  fail_if negb (len (lTopics l) =? 4) with fatal "invalid enqueue topics" ;;
  let! t0 := at_ (lTopics l) 0 in
  fail_if negb (bool_decide (t0 = EventID TransactionEnqueued))
    with fatal "invalid enqueue topics" ;;
  let! ts := slice (lTopics l) 1 3 in
  let! _ := foldM check_topic tt ts in
  let! v := unpack TransactionEnqueued (lData l) in
  let! v0 := at_ v 0 in let! chain := as_uint v0 in
  let! v1 := at_ v 1 in let! gas := as_uint v1 in
  let! v3 := at_ v 3 in let! timestamp := as_uint v3 in
  let! t3 := at_ (lTopics l) 3 in
  let idx := uval t3 in
  fail_if negb (IsUint64 gas) || negb (IsUint64 timestamp) || negb (IsUint64 idx)
    with fatal "enqueue integer overflow" ;;
  let! t2 := at_ (lTopics l) 2 in
  let! t1 := at_ (lTopics l) 1 in
  let! v2 := at_ v 2 in let! data := as_bytes v2 in
  Ok (mkRecord
        (mkEnqueue (wrap 64 idx) (BytesToAddress t2) (hexutil_Encode data) (pretty gas)
           (BytesToAddress t1) (lBlockNumber l) (wrap 64 timestamp) None)
        (lBlockHash l) (lTxHash l) (lIndex l), chain).

(** [fmt.Sprintf("%s/%d", l.BlockHash, l.Index)] *)
Definition log_id (l : Log) : string :=
  Hash_Hex (lBlockHash l) +:+ "/" +:+ pretty (uval (lIndex l)).

(** The variables of the loop in [decodeLogs]. *)
Record decoding : Type := mkDecoding {
  dcRecords : list DepositRecord;
  dcCTC : Address;
  dcSeen : gmap string Log;
}.

Definition is_address_set (cfg : Config) (l : Log) : result bool :=
  if bool_decide (lAddress l = cAddressManager cfg) then
    let! t0 := at_ (lTopics l) 0 in Ok (bool_decide (t0 = EventID AddressSet))
  else Ok false.

Definition decode_log (cfg : Config) (from end_ : u64) (d : decoding) (l : Log) :
    result decoding :=
  let! _ := validateLog l from end_ in
  let id := log_id l in
  match dcSeen d !! id with
  | Some old =>
      fail_if negb (same_log old l) with fatal "conflicting log" ;;
      Ok d
  | None =>
      let d := mkDecoding (dcRecords d) (dcCTC d) (<[id := l]> (dcSeen d)) in
      let! address := is_address_set cfg l in
      if address then
        let! v := unpack AddressSet (lData l) in
        let! v1 := at_ v 1 in let! old := as_address v1 in
        fail_if negb (bool_decide (old = dcCTC d)) with fatal "address history mismatch" ;;
        let! v0 := at_ v 0 in let! new := as_address v0 in
        Ok (mkDecoding (dcRecords d) new (dcSeen d))
      else if negb (bool_decide (lAddress l = dcCTC d)) then Ok d
      else
        let! ' (r, chain) := Decode l in
        Ok (if chain =? uval (cL2ChainID cfg)
            then mkDecoding (dcRecords d ++ [r]) (dcCTC d) (dcSeen d) else d)
  end.

Definition decodeLogs `{SortSlice} (cfg : Config) (logs : list Log) (ctc : Address)
    (from end_ : u64) : result (list DepositRecord * Address) :=
  let! d := foldM (decode_log cfg from end_) (mkDecoding [] ctc ∅) (sort_Slice log_less logs) in
  Ok (dcRecords d, dcCTC d).

End logs.
