(* ===== verification/LogFacts.v ===== *)
(** * What the interpretation of a window's logs guarantees

    [history] says, event by event, what a sequence of distinct logs means;
    [decodeLogs] computes exactly that for the sorted logs of a window, and
    refuses a window it has no meaning for. *)
From S2P Require Import Prelude Word Json Geth Pebble StoreTypes Config Logs.

(** ** Decoding one deposit *)

Lemma equalTopics_iff a b : equalTopics a b = true ↔ a = b.
Proof.
  unfold equalTopics. rewrite andb_true_iff, Nat.eqb_eq. split.
  - intros [Hl Hf]. revert b Hl Hf. induction a as [|x a IH]; intros [|y b] Hl Hf;
      simpl in *; try done.
    apply andb_true_iff in Hf as [E Hf]. apply bool_decide_eq_true_1 in E as ->.
    f_equal. apply IH; [lia | done].
  - intros ->. split; [done|]. induction b as [|y b IH]; simpl; [done|].
    by rewrite bool_decide_true.
Qed.

(** A call returns, or fails with ErrFatal. *)
Definition total_fatal {A} (r : result A) : Prop := (∃ a, r = Ok a) ∨ fails_with r ErrFatal.

Lemma fails_fatal {A} msg : fails_with (Err (A := A) (fatal msg)) ErrFatal.
Proof. by eexists. Qed.

#[export] Hint Resolve fails_fatal : core.

Lemma total_no_panic {A} (r : result A) : total_fatal r → r ≠ Panic.
Proof. intros [[a ->]|Hf]; [done | by eapply fails_no_panic]. Qed.

Section facts.
Context `{ABILaws, GethTextLaws}.

Lemma unpack_total name data : total_fatal (unpack name data).
Proof.
  unfold unpack. destruct (abi_Unpack name data) as [v|e|] eqn:E.
  - destruct (abi_Pack name v) as [raw|e|] eqn:Ep; [|by right..|by destruct (Pack_no_panic name v)].
    destruct (negb _); [by right | left; by eexists].
  - right. eexists. split; [done|]. by apply bool_decide_eq_true_2; left.
  - by destruct (Unpack_no_panic name data).
Qed.

Lemma unpack_Ok name data v :
  unpack name data = Ok v ↔ abi_Unpack name data = Ok v ∧ abi_Pack name v = Ok data.
Proof.
  unfold unpack. split.
  - destruct (abi_Unpack name data) as [w|e|] eqn:E; [|done..].
    destruct (abi_Pack name w) as [raw|e|] eqn:Ep; [|done..].
    destruct (negb _) eqn:Hb; [done|]. intros [= <-]. bool_to_prop. by subst.
  - intros [-> ->]. by rewrite bool_decide_true.
Qed.

Lemma unpack_AddressSet data v :
  unpack AddressSet data = Ok v → ∃ new old, v = [AbiAddress new; AbiAddress old].
Proof. intros [E _]%unpack_Ok. by apply Unpack_AddressSet in E. Qed.

Lemma unpack_TransactionEnqueued data v :
  unpack TransactionEnqueued data = Ok v → TransactionEnqueued_shape v.
Proof. intros [E _]%unpack_Ok. by apply Unpack_TransactionEnqueued in E. Qed.

(** The log that announces the deposit [r] for [chain]: its topics and its
    data carry the fields of [r], and nothing else. *)
Definition announces (l : Log) (r : DepositRecord) (chain : Z) : Prop :=
  let e := rEnqueue r in
  lTopics l = [EventID TransactionEnqueued; wrap 256 (uval (eOrigin e));
               wrap 256 (uval (eTarget e)); wrap 256 (uval (eIndex e))] ∧
  ∃ gas data,
    let v := [AbiUint chain; AbiUint gas; AbiBytes data; AbiUint (uval (eTimestamp e))] in
    abi_Unpack TransactionEnqueued (lData l) = Ok v ∧
    abi_Pack TransactionEnqueued v = Ok (lData l) ∧
    0 <= gas < 2 ^ 64 ∧ eGasLimit e = pretty gas ∧ eData e = hexutil_Encode data ∧
    eBlockNumber e = lBlockNumber l ∧ eCTCIndex e = None ∧
    rBlockHash r = lBlockHash l ∧ rTxHash r = lTxHash l ∧ rLogIndex r = lIndex l.

Lemma IsUint64_iff z : IsUint64 z = true ↔ 0 <= z < 2 ^ 64.
Proof. unfold IsUint64, in_width. change (modulus 64) with (2 ^ 64). lia. Qed.

Lemma topic_address t :
  high12_zero t = true ↔ wrap 256 (uval (BytesToAddress t)) = t.
Proof.
  unfold high12_zero, BytesToAddress. rewrite Z.eqb_eq, uint_eq_iff, !uval_wrap.
  pose proof (uint_range t) as Ht. change (modulus 160) with (2 ^ 160).
  pose proof (Z.mod_pos_bound (uval t) (2 ^ 160) ltac:(done)).
  rewrite (Z.mod_small (uval t `mod` 2 ^ 160)) by
    (change (modulus 256) with (2 ^ 160 * 2 ^ 96); nia).
  pose proof (Z.div_mod (uval t) (2 ^ 160) ltac:(done)). split; intros E.
  - rewrite E in *. lia.
  - assert (2 ^ 160 * (uval t / 2 ^ 160) = 0) as Hz by lia.
    apply Z.mul_eq_0 in Hz as [Hz|Hz]; [done | lia].
Qed.

Lemma topic_index t :
  IsUint64 (uval t) = true ↔ wrap 256 (uval (wrap 64 (uval t))) = t.
Proof.
  rewrite IsUint64_iff, uint_eq_iff, !uval_wrap. pose proof (uint_range t) as Ht.
  pose proof (Z.mod_pos_bound (uval t) (modulus 64) (modulus_pos 64)).
  rewrite (Z.mod_small (uval t `mod` modulus 64)) by
    (change (modulus 256) with (modulus 64 * 2 ^ 192); nia).
  change (modulus 64) with (2 ^ 64) in *. split; intros E.
  - by apply Z.mod_small.
  - lia.
Qed.

Lemma Decode_four l t0 t1 t2 t3 :
  lTopics l = [t0; t1; t2; t3] →
  Decode l =
    (fail_if negb (bool_decide (t0 = EventID TransactionEnqueued))
       with fatal "invalid enqueue topics" ;;
     fail_if negb (high12_zero t1) with fatal "invalid address topic" ;;
     fail_if negb (high12_zero t2) with fatal "invalid address topic" ;;
     let! v := unpack TransactionEnqueued (lData l) in
     let! v0 := at_ v 0 in let! chain := as_uint v0 in
     let! v1 := at_ v 1 in let! gas := as_uint v1 in
     let! v3 := at_ v 3 in let! timestamp := as_uint v3 in
     fail_if negb (IsUint64 gas) || negb (IsUint64 timestamp) || negb (IsUint64 (uval t3))
       with fatal "enqueue integer overflow" ;;
     let! v2 := at_ v 2 in let! data := as_bytes v2 in
     Ok (mkRecord
        (mkEnqueue (wrap 64 (uval t3)) (BytesToAddress t2) (hexutil_Encode data) (pretty gas)
           (BytesToAddress t1) (lBlockNumber l) (wrap 64 timestamp) None)
        (lBlockHash l) (lTxHash l) (lIndex l), chain)).
Proof.
  intros Ht. unfold Decode. rewrite Ht.
  change (negb (len [t0; t1; t2; t3] =? 4)) with false. cbv iota.
  change (at_ [t0; t1; t2; t3] 0) with (Ok t0).
  change (slice [t0; t1; t2; t3] 1 3) with (Ok [t1; t2]).
  change (at_ [t0; t1; t2; t3] 3) with (Ok t3).
  change (at_ [t0; t1; t2; t3] 2) with (Ok t2).
  change (at_ [t0; t1; t2; t3] 1) with (Ok t1). cbn [bind foldM].
  destruct (negb (bool_decide _)); [done|]. unfold check_topic.
  destruct (negb (high12_zero t1)); [done|]. cbn [bind].
  by destruct (negb (high12_zero t2)).
Qed.

Lemma topics_four (ts : list Hash) :
  negb (len ts =? 4) = false ↔ ∃ t0 t1 t2 t3, ts = [t0; t1; t2; t3].
Proof.
  rewrite negb_false_iff, Z.eqb_eq. unfold len. split.
  - destruct ts as [|t0 [|t1 [|t2 [|t3 [|t4 ts]]]]]; simpl; try lia. by eexists _, _, _, _.
  - by intros (? & ? & ? & ? & ->).
Qed.

(** Read the four arguments of a deposit event. *)
Lemma enqueue_args c g d ts :
  let v := [AbiUint c; AbiUint g; AbiBytes d; AbiUint ts] in
  at_ v 0 = Ok (AbiUint c) ∧ at_ v 1 = Ok (AbiUint g) ∧ at_ v 2 = Ok (AbiBytes d) ∧
  at_ v 3 = Ok (AbiUint ts).
Proof. done. Qed.

Lemma Decode_total l : total_fatal (Decode l).
Proof.
  destruct (negb (len (lTopics l) =? 4)) eqn:Hn.
  { right. unfold Decode. rewrite Hn. done. }
  apply topics_four in Hn as (t0 & t1 & t2 & t3 & Ht).
  rewrite (Decode_four l t0 t1 t2 t3 Ht).
  destruct (negb (bool_decide _)); [by right|]. destruct (negb (high12_zero t1)); [by right|].
  destruct (negb (high12_zero t2)); [by right|].
  destruct (unpack_total TransactionEnqueued (lData l)) as [[v Hv]|Hf].
  2:{ right. by apply fails_bind. }
  rewrite Hv. apply unpack_TransactionEnqueued in Hv as (c & g & d & ts & -> & _).
  destruct (enqueue_args c g d ts) as (E0 & E1 & E2 & E3).
  rewrite bind_Ok, E0, E1, E2, E3. cbn [bind as_uint as_bytes].
  destruct (negb (IsUint64 g) || _ || _); [by right | left; by eexists].
Qed.

Lemma Decode_sound l r chain : Decode l = Ok (r, chain) → announces l r chain.
Proof.
  destruct (negb (len (lTopics l) =? 4)) eqn:Hn; [unfold Decode; by rewrite Hn|].
  apply topics_four in Hn as (t0 & t1 & t2 & t3 & Ht).
  rewrite (Decode_four l t0 t1 t2 t3 Ht).
  destruct (negb (bool_decide _)) eqn:E0; [done|]. destruct (negb (high12_zero t1)) eqn:E1; [done|].
  destruct (negb (high12_zero t2)) eqn:E2; [done|]. bool_to_prop.
  intros Hd. apply bind_Ok_inv in Hd as (v & Hv & Hd).
  pose proof (unpack_TransactionEnqueued _ _ Hv) as (c & g & d & ts & -> & Hc & Hg & Hts).
  destruct (enqueue_args c g d ts) as (A0 & A1 & A2 & A3). rewrite A0, A1, A2, A3 in Hd.
  cbn [bind as_uint as_bytes] in Hd.
  destruct (negb (IsUint64 g) || _ || _) eqn:Eu; [done|]. bool_to_prop.
  injection Hd as <- <-. apply unpack_Ok in Hv as [Hu Hp].
  match goal with H : IsUint64 g = true |- _ => apply IsUint64_iff in H end.
  match goal with H : IsUint64 ts = true |- _ => apply IsUint64_iff in H end.
  split; cbn [rEnqueue eOrigin eTarget eIndex].
  - assert (wrap 256 (uval (BytesToAddress t1)) = t1) as -> by by apply topic_address.
    assert (wrap 256 (uval (BytesToAddress t2)) = t2) as -> by by apply topic_address.
    assert (wrap 256 (uval (wrap 64 (uval t3))) = t3) as -> by by apply topic_index.
    by rewrite Ht, E0.
  - exists g, d. cbn [eTimestamp]. rewrite (uval_wrap_small 64 ts) by done.
    split_and!; first [done | lia].
Qed.

Lemma wrap_address (a : Address) :
  high12_zero (wrap 256 (uval a)) = true ∧ BytesToAddress (wrap 256 (uval a)) = a.
Proof.
  pose proof (uint_range a) as Ha. change (modulus 160) with (2 ^ 160) in Ha.
  assert (uval (wrap 256 (uval a)) = uval a) as E.
  { apply uval_wrap_small. change (modulus 256) with (2 ^ 160 * 2 ^ 96). nia. }
  split.
  - unfold high12_zero. rewrite E, Z.div_small by lia. done.
  - unfold BytesToAddress. by rewrite E, wrap_uval.
Qed.

Lemma Decode_complete l r chain : announces l r chain → Decode l = Ok (r, chain).
Proof.
  intros (Ht & g & d & Hu & Hp & Hg & Egas & Edata & Eblock & Ectc & Ebh & Eth & Eli).
  rewrite (Decode_four l _ _ _ _ Ht). rewrite bool_decide_true by done. cbn [negb].
  destruct (wrap_address (eOrigin (rEnqueue r))) as [-> Eo].
  destruct (wrap_address (eTarget (rEnqueue r))) as [-> Eta]. cbn [negb].
  rewrite (proj2 (unpack_Ok TransactionEnqueued (lData l) _) (conj Hu Hp)).
  set (ts := uval (eTimestamp (rEnqueue r))) in *.
  destruct (enqueue_args chain g d ts) as (A0 & A1 & A2 & A3). rewrite bind_Ok, A0, A1, A2, A3.
  cbn [bind as_uint as_bytes].
  pose proof (uint_range (eIndex (rEnqueue r))) as Hi.
  assert (uval (wrap 256 (uval (eIndex (rEnqueue r)))) = uval (eIndex (rEnqueue r))) as Ei.
  { apply uval_wrap_small. change (modulus 256) with (modulus 64 * 2 ^ 192). nia. }
  rewrite Ei. rewrite (proj2 (IsUint64_iff g) Hg).
  rewrite (proj2 (IsUint64_iff ts)) by exact (uint_range (eTimestamp (rEnqueue r))).
  rewrite (proj2 (IsUint64_iff (uval (eIndex (rEnqueue r))))) by done. cbn [negb orb].
  rewrite Eo, Eta, !wrap_uval. unfold ts. rewrite wrap_uval.
  rewrite <-Egas, <-Edata, <-Eblock, <-Ebh, <-Eth, <-Eli, <-Ectc. by destruct r as [[]].
Qed.
(** ** The meaning of a sequence of logs *)

(** What a log says, apart from where it is reported. *)
Definition log_content (l : Log) :=
  (lBlockNumber l, lAddress l, lTxHash l, lTxIndex l, lData l, lTopics l).
Definition log_ref (l : Log) : Hash * u64 := (lBlockHash l, lIndex l).

Lemma same_log_iff a b : same_log a b = true ↔ log_content a = log_content b.
Proof.
  unfold same_log, log_content. rewrite !andb_true_iff, equalTopics_iff, !bool_decide_eq_true.
  split; [by intros [[[[[-> ->] ->] ->] ->] ->] | by intros [= -> -> -> -> -> ->]].
Qed.

Lemma append_inj_length s1 s2 t1 t2 :
  String.length s1 = String.length s2 → s1 +:+ t1 = s2 +:+ t2 → s1 = s2 ∧ t1 = t2.
Proof.
  revert s2. induction s1 as [|c s1 IH]; intros [|d s2] Hl Hs; try done.
  change (String c (s1 +:+ t1) = String d (s2 +:+ t2)) in Hs.
  injection Hs as -> Hs. injection Hl as Hl. by destruct (IH s2 Hl Hs) as [-> ->].
Qed.

Lemma log_id_inj a b : log_id a = log_id b ↔ log_ref a = log_ref b.
Proof.
  unfold log_id, log_ref. split; [|by intros [= -> ->]].
  intros Hs. apply append_inj_length in Hs as [Hh Hi]; [|by rewrite !Hash_Hex_length].
  apply (f_equal Hash_UnmarshalText) in Hh. rewrite !Hash_text_roundtrip in Hh.
  injection Hh as ->. f_equal. apply uint_eq.
  change (String "/" (pretty (uval (lIndex a))) = String "/" (pretty (uval (lIndex b)))) in Hi.
  injection Hi as Hi. by apply (inj pretty) in Hi.
Qed.

Definition valid_log (from end_ : u64) (l : Log) : Prop :=
  lRemoved l = false ∧ uval from <= uval (lBlockNumber l) <= uval end_ ∧ lTopics l ≠ [].

Lemma validateLog_cases l from end_ :
  (validateLog l from end_ = Ok tt ∧ valid_log from end_ l) ∨
  (fails_with (validateLog l from end_) ErrFatal ∧ ¬ valid_log from end_ l).
Proof.
  unfold validateLog, valid_log, ult.
  destruct (lRemoved l); cbn [orb]; [right; split; [done | by intros [? _]]|].
  destruct (Z.ltb_spec (uval (lBlockNumber l)) (uval from)); cbn [orb].
  { right. split; [done|]. intros (_ & ? & _). lia. }
  destruct (Z.ltb_spec (uval end_) (uval (lBlockNumber l))); cbn [orb].
  { right. split; [done|]. intros (_ & ? & _). lia. }
  case_bool_decide.
  - right. split; [done | by intros (_ & _ & ?)].
  - left. split; [done|]. split_and!; [done | lia | lia | done].
Qed.

(** An address change of the AddressManager. *)
Definition address_event (cfg : Config) (l : Log) : Prop :=
  lAddress l = cAddressManager cfg ∧ head (lTopics l) = Some (EventID AddressSet).

(** [history cfg ctc ls ctc' rs]: starting with the chain at [ctc], the
    distinct logs [ls] move it to [ctc'] and announce the deposits [rs] for
    the configured L2 chain. *)
Inductive history (cfg : Config) : Address → list Log → Address → list DepositRecord → Prop :=
  | hi_nil ctc : history cfg ctc [] ctc []
  | hi_address ctc l new ls ctc' rs :
      address_event cfg l →
      unpack AddressSet (lData l) = Ok [AbiAddress new; AbiAddress ctc] →
      history cfg new ls ctc' rs →
      history cfg ctc (l :: ls) ctc' rs
  | hi_other ctc l ls ctc' rs :
      ¬ address_event cfg l → lAddress l ≠ ctc →
      history cfg ctc ls ctc' rs →
      history cfg ctc (l :: ls) ctc' rs
  | hi_deposit ctc l r chain ls ctc' rs :
      ¬ address_event cfg l → lAddress l = ctc → announces l r chain →
      history cfg ctc ls ctc' rs →
      history cfg ctc (l :: ls) ctc' (if chain =? uval (cL2ChainID cfg) then r :: rs else rs).

(** The first report of each log. *)
Fixpoint unique_from (refs : list (Hash * u64)) (ls : list Log) : list Log :=
  match ls with
  | [] => []
  | l :: ls =>
      if bool_decide (log_ref l ∈ refs) then unique_from refs ls
      else l :: unique_from (log_ref l :: refs) ls
  end.

(** [a] is not after [b] in the chain: by block, transaction and log index. *)
Definition chain_le (a b : Log) : Prop :=
  uval (lBlockNumber a) < uval (lBlockNumber b) ∨
  uval (lBlockNumber a) = uval (lBlockNumber b) ∧
    (uval (lTxIndex a) < uval (lTxIndex b) ∨
     uval (lTxIndex a) = uval (lTxIndex b) ∧ uval (lIndex a) <= uval (lIndex b)).

Lemma chain_le_antisym a b : chain_le a b → chain_le b a →
  lBlockNumber a = lBlockNumber b ∧ lTxIndex a = lTxIndex b ∧ lIndex a = lIndex b.
Proof. unfold chain_le. intros Hab Hba. split_and!; apply uint_eq; lia. Qed.

(** [out] is [ls] in the order of the chain. *)
Definition chain_ordered (ls out : list Log) : Prop := out ≡ₚ ls ∧ StronglySorted chain_le out.

Definition consistent (ls : list Log) : Prop :=
  ∀ a b, a ∈ ls → b ∈ ls → log_ref a = log_ref b → log_content a = log_content b.

Lemma is_address_set_cases cfg l :
  lTopics l ≠ [] →
  ∃ b, is_address_set cfg l = Ok b ∧ (b = true ↔ address_event cfg l).
Proof.
  intros Ht. unfold is_address_set, address_event. destruct (lTopics l) as [|t ts]; [done|].
  case_bool_decide as Ha.
  - change (at_ (t :: ts) 0) with (Ok t). cbn [bind]. eexists. split; [done|].
    rewrite bool_decide_eq_true. cbn. split; [by intros -> | by intros [_ [= ->]]].
  - exists false. split; [done|]. by split; [|intros [? _]].
Qed.

(** ** The loop *)

(** [seen] after the logs [done]. *)
Definition seen_ok (seen : gmap string Log) (refs : list (Hash * u64)) (past : list Log) : Prop :=
  (∀ l, log_ref l ∈ refs ↔ is_Some (seen !! log_id l)) ∧
  (∀ k l, seen !! k = Some l → l ∈ past ∧ k = log_id l) ∧
  (∀ l, l ∈ past → is_Some (seen !! log_id l)) ∧
  consistent past.

Lemma seen_ok_nil : seen_ok ∅ [] [].
Proof.
  split_and!; [|done| |].
  - intros l. rewrite lookup_empty. split; [by intros ?%elem_of_nil | by intros []].
  - intros l Hl. by apply elem_of_nil in Hl.
  - intros a b Ha. by apply elem_of_nil in Ha.
Qed.

Lemma seen_ok_fresh seen refs past l :
  seen_ok seen refs past → seen !! log_id l = None →
  seen_ok (<[log_id l := l]> seen) (log_ref l :: refs) (past ++ [l]).
Proof.
  intros (Href & Hin & Hpast & Hcons) Hl.
  assert (∀ x, x ∈ past → log_ref x ≠ log_ref l) as Hfresh.
  { intros x Hx E. apply log_id_inj in E. destruct (Hpast x Hx) as [y Hy].
    by rewrite E, Hl in Hy. }
  split_and!.
  - intros x. rewrite elem_of_cons, Href. destruct (decide (log_ref x = log_ref l)) as [E|E].
    + apply log_id_inj in E as E'. rewrite E', lookup_insert_eq. split; [by eexists | by left].
    + rewrite lookup_insert_ne; [|by rewrite log_id_inj]. split; [by intros [?|?] | by right].
  - intros k x [[<- <-]|[_ Hx]]%lookup_insert_Some; [split; [|done]|].
    + apply elem_of_app. right. by apply list_elem_of_singleton.
    + destruct (Hin k x Hx). split; [apply elem_of_app; by left | done].
  - intros x [Hx| ->%list_elem_of_singleton]%elem_of_app.
    + rewrite lookup_insert_ne; [by apply Hpast|]. rewrite log_id_inj.
      intros E. by apply (Hfresh x Hx).
    + by rewrite lookup_insert_eq; eexists.
  - intros a b [Ha| ->%list_elem_of_singleton]%elem_of_app
      [Hb| ->%list_elem_of_singleton]%elem_of_app E; [by apply Hcons| | |done].
    + by apply Hfresh in E.
    + symmetry in E. by apply Hfresh in E.
Qed.

Lemma seen_ok_again seen refs past l old :
  seen_ok seen refs past → seen !! log_id l = Some old → log_content old = log_content l →
  seen_ok seen refs (past ++ [l]).
Proof.
  intros (Href & Hin & Hpast & Hcons) Hl Hsame.
  destruct (Hin _ _ Hl) as [Hold Hid]. symmetry in Hid. apply log_id_inj in Hid.
  split_and!; [done| | |].
  - intros k x Hx. destruct (Hin k x Hx). split; [apply elem_of_app; by left | done].
  - intros x [Hx| ->%list_elem_of_singleton]%elem_of_app; [by apply Hpast | by eexists].
  - intros a b [Ha| ->%list_elem_of_singleton]%elem_of_app
      [Hb| ->%list_elem_of_singleton]%elem_of_app E; [by apply Hcons| | |done].
    + rewrite <-Hsame. apply Hcons; [done | done | congruence].
    + rewrite <-Hsame. apply Hcons; [done | done | congruence].
Qed.

Lemma history_cons cfg ctc l ls ctc' rs :
  history cfg ctc (l :: ls) ctc' rs ↔
  (address_event cfg l ∧ ∃ new, unpack AddressSet (lData l) = Ok [AbiAddress new; AbiAddress ctc] ∧
    history cfg new ls ctc' rs) ∨
  (¬ address_event cfg l ∧ lAddress l ≠ ctc ∧ history cfg ctc ls ctc' rs) ∨
  (¬ address_event cfg l ∧ lAddress l = ctc ∧ ∃ r chain rs', announces l r chain ∧
    history cfg ctc ls ctc' rs' ∧ rs = if chain =? uval (cL2ChainID cfg) then r :: rs' else rs').
Proof.
  split.
  - intros Hh. inversion Hh; subst; [left | right; left | right; right]; eauto 10.
  - intros [(Ha & new & Hu & Hh)|[(Ha & Hne & Hh)|(Ha & Heq & r & chain & rs' & Hr & Hh & ->)]].
    + by eapply hi_address.
    + by apply hi_other.
    + by eapply hi_deposit.
Qed.

(** One log seen for the first time. *)
Definition interpret (cfg : Config) (d : decoding) (l : Log) : result decoding :=
  let! address := is_address_set cfg l in
  if address then
    let! v := unpack AddressSet (lData l) in
    let! v1 := at_ v 1 in let! old := as_address v1 in
    fail_if negb (bool_decide (old = dcCTC d)) with fatal "address history mismatch" ;;
    let! v0 := at_ v 0 in let! new := as_address v0 in
    Ok (mkDecoding (dcRecords d) new (dcSeen d))
  else if negb (bool_decide (lAddress l = dcCTC d)) then Ok d
  else
    let! ' (r, chain) := Decode l in
    Ok (if chain =? uval (cL2ChainID cfg)
        then mkDecoding (dcRecords d ++ [r]) (dcCTC d) (dcSeen d) else d).

Lemma interpret_cases cfg d l :
  lTopics l ≠ [] →
  (∃ new rs, interpret cfg d l = Ok (mkDecoding (dcRecords d ++ rs) new (dcSeen d)) ∧
    (∀ ls ctc' rs', history cfg (dcCTC d) (l :: ls) ctc' rs' ↔
      ∃ rs'', rs' = rs ++ rs'' ∧ history cfg new ls ctc' rs'')) ∨
  (fails_with (interpret cfg d l) ErrFatal ∧
    ∀ ls ctc' rs, ¬ history cfg (dcCTC d) (l :: ls) ctc' rs).
Proof.
  intros Ht. unfold interpret. destruct (is_address_set_cases cfg l Ht) as (b & -> & Hb).
  cbn [bind]. setoid_rewrite history_cons. destruct b.
  - assert (address_event cfg l) as Ha by (by apply Hb).
    destruct (unpack_total AddressSet (lData l)) as [[v Hv]|Hf].
    2:{ right. split; [by apply fails_bind|]. destruct Hf as (e & Hf & _).
        intros ls ctc' rs [(_ & new & Hu & _)|[(Hna & _)|(Hna & _)]]; [congruence | done..]. }
    rewrite Hv. destruct (unpack_AddressSet _ _ Hv) as (new & old & ->).
    cbn [bind]. change (at_ [AbiAddress new; AbiAddress old] 1) with (Ok (AbiAddress old)).
    change (at_ [AbiAddress new; AbiAddress old] 0) with (Ok (AbiAddress new)).
    cbn [bind as_address]. case_bool_decide as Hold; cbn [negb].
    + left. exists new, []. rewrite app_nil_r. split; [done|]. subst old.
      intros ls ctc' rs'. split.
      * intros [(_ & new' & [= <-] & Hh)|[(Hna & _)|(Hna & _)]]; [by exists rs' | done..].
      * intros (rs'' & -> & Hh). left. eauto.
    + right. split; [done|].
      intros ls ctc' rs [(_ & new' & [= _ E] & _)|[(Hna & _)|(Hna & _)]]; congruence.
  - assert (¬ address_event cfg l) as Hna by (intros E; by apply Hb in E).
    case_bool_decide as Ha; cbn [negb].
    2:{ left. exists (dcCTC d), []. rewrite app_nil_r. split; [by destruct d|].
        intros ls ctc' rs'. split.
        - intros [(? & _)|[(_ & _ & Hh)|(_ & ? & _)]]; [done | by exists rs' | done].
        - intros (rs'' & -> & Hh). auto. }
    destruct (Decode_total l) as [[[r chain] Hd]|Hf].
    2:{ right. split; [by apply fails_bind|]. destruct Hf as (e & Hf & _).
        intros ls ctc' rs [(? & _)|[(_ & ? & _)|(_ & _ & r & chain & rs' & Hr & _)]]; [done..|].
        apply Decode_complete in Hr. congruence. }
    rewrite Hd. cbn [bind]. left. apply Decode_sound in Hd as Hann.
    exists (dcCTC d), (if chain =? uval (cL2ChainID cfg) then [r] else []). split.
    { destruct (chain =? _); [done|]. rewrite app_nil_r. by destruct d. }
    intros ls ctc' rs'. split.
    + intros [(? & _)|[(_ & ? & _)|(_ & _ & r' & chain' & rs0 & Hr & Hh & ->)]]; [done..|].
      apply Decode_complete in Hr. rewrite Hd in Hr. injection Hr as <- <-.
      exists rs0. by destruct (chain =? _).
    + intros (rs'' & -> & Hh). right. right. split_and!; [done..|].
      exists r, chain, rs''. split_and!; [done..|]. by destruct (chain =? _).
Qed.

Lemma decode_log_seen cfg from end_ d l old :
  validateLog l from end_ = Ok tt → dcSeen d !! log_id l = Some old →
  decode_log cfg from end_ d l =
    (fail_if negb (same_log old l) with fatal "conflicting log" ;; Ok d).
Proof. intros Hv Hs. unfold decode_log. rewrite Hv. cbn [bind]. by rewrite Hs. Qed.

Lemma decode_log_fresh cfg from end_ d l :
  validateLog l from end_ = Ok tt → dcSeen d !! log_id l = None →
  decode_log cfg from end_ d l =
    interpret cfg (mkDecoding (dcRecords d) (dcCTC d) (<[log_id l := l]> (dcSeen d))) l.
Proof. intros Hv Hs. unfold decode_log. rewrite Hv. cbn [bind]. by rewrite Hs. Qed.

(** The logs [todo], after [past], mean [rs] and [ctc']. *)
Definition meaning (cfg : Config) (from end_ : u64) (refs : list (Hash * u64))
    (past todo : list Log) (ctc ctc' : Address) (rs : list DepositRecord) : Prop :=
  Forall (valid_log from end_) todo ∧ consistent (past ++ todo) ∧
  history cfg ctc (unique_from refs todo) ctc' rs.

Lemma decode_logs_loop cfg from end_ todo : ∀ d refs past,
  seen_ok (dcSeen d) refs past →
  (∃ d' rs, foldM (decode_log cfg from end_) d todo = Ok d' ∧
    dcRecords d' = dcRecords d ++ rs ∧ meaning cfg from end_ refs past todo (dcCTC d) (dcCTC d') rs) ∨
  (fails_with (foldM (decode_log cfg from end_) d todo) ErrFatal ∧
    ∀ ctc' rs, ¬ meaning cfg from end_ refs past todo (dcCTC d) ctc' rs).
Proof.
  induction todo as [|l todo IH]; intros d refs past Hseen; cbn [foldM].
  { left. exists d, []. rewrite app_nil_r. split_and!; [done | done |].
    split_and!; [constructor | rewrite app_nil_r; apply Hseen | constructor]. }
  destruct (validateLog_cases l from end_) as [[Hv Hval]|[Hv Hval]].
  2:{ right. split.
      - apply fails_bind. unfold decode_log. by apply fails_bind.
      - intros ctc' rs (Hall & _). by apply Forall_cons in Hall as [? _]. }
  assert (past ++ l :: todo = (past ++ [l]) ++ todo) as Happ by by rewrite <-app_assoc.
  destruct (dcSeen d !! log_id l) as [old|] eqn:Hs.
  - rewrite (decode_log_seen _ _ _ _ _ old) by done.
    assert (log_ref l ∈ refs) as Hin by (apply Hseen; by eexists).
    destruct (same_log old l) eqn:Hsame; cbn [negb].
    + apply same_log_iff in Hsame. cbn [bind].
      destruct (IH d refs (past ++ [l])) as [(d' & rs & E & Hr & Hall & Hc & Hh)|[Hf Hn]].
      { by eapply seen_ok_again. }
      * left. exists d', rs. split_and!; [done | done |]. unfold meaning. cbn [unique_from].
        rewrite Happ, bool_decide_true by done. split_and!; [by constructor | done | done].
      * right. split; [done|]. intros ctc' rs. unfold meaning. cbn [unique_from].
        rewrite Happ, bool_decide_true by done. intros (Hall & Hc & Hh).
        apply (Hn ctc' rs). apply Forall_cons in Hall as [_ Hall]. by split_and!.
    + right. split; [by apply fails_bind|]. intros ctc' rs (_ & Hc & _).
      apply not_true_iff_false in Hsame. apply Hsame, same_log_iff.
      destruct Hseen as (_ & Hin' & _). destruct (Hin' _ _ Hs) as [Hp Hid].
      apply Hc; [apply elem_of_app; by left | apply elem_of_app; right; by left |].
      apply log_id_inj. congruence.
  - rewrite decode_log_fresh by done.
    assert (log_ref l ∉ refs) as Hnin.
    { intros E. apply Hseen in E. rewrite Hs in E. by destruct E. }
    set (d1 := mkDecoding _ _ _).
    destruct (interpret_cases cfg d1 l ltac:(apply Hval)) as [(new & rs0 & -> & Hhist)|[Hf Hn]].
    + cbn [bind]. destruct (IH (mkDecoding (dcRecords d1 ++ rs0) new (dcSeen d1))
        (log_ref l :: refs) (past ++ [l])) as [(d' & rs & E & Hr & Hall & Hc & Hh)|[Hf Hn]].
      { by apply seen_ok_fresh. }
      * left. exists d', (rs0 ++ rs). cbn [dcRecords dcCTC] in *. split_and!; [done | |].
        { by rewrite Hr, app_assoc. }
        unfold meaning. cbn [unique_from]. rewrite Happ, bool_decide_false by done.
        split_and!; [by constructor | done |]. apply Hhist. by exists rs.
      * right. split; [done|]. intros ctc' rs. unfold meaning. cbn [unique_from].
        rewrite Happ, bool_decide_false by done. intros (Hall & Hc & Hh).
        apply Hhist in Hh as (rs'' & -> & Hh). apply (Hn ctc' rs'').
        apply Forall_cons in Hall as [_ Hall]. by split_and!.
    + right. split; [by apply fails_bind|]. intros ctc' rs. unfold meaning. cbn [unique_from].
      rewrite bool_decide_false by done. intros (_ & _ & Hh). by apply Hn in Hh.
Qed.
End facts.
