(* ===== verification/LogTheorems.v ===== *)
(** * Interpreting the logs of a window *)
From S2P Require Import Prelude Word Json Geth Pebble StoreTypes Config Logs LogFacts.

(** ** The order of logs *)

Lemma log_less_iff a b :
  log_less a b = true ↔
  uval (lBlockNumber a) < uval (lBlockNumber b) ∨
  (uval (lBlockNumber a) = uval (lBlockNumber b) ∧
    (uval (lTxIndex a) < uval (lTxIndex b) ∨
     (uval (lTxIndex a) = uval (lTxIndex b) ∧ uval (lIndex a) < uval (lIndex b)))).
Proof.
  unfold log_less, ult. repeat case_bool_decide; cbn [negb]; rewrite ?uint_eq_iff in *;
    rewrite Z.ltb_lt; lia.
Qed.

Lemma log_less_false a b :
  log_less a b = false ↔
  uval (lBlockNumber b) < uval (lBlockNumber a) ∨
  (uval (lBlockNumber a) = uval (lBlockNumber b) ∧
    (uval (lTxIndex b) < uval (lTxIndex a) ∨
     (uval (lTxIndex a) = uval (lTxIndex b) ∧ uval (lIndex b) <= uval (lIndex a)))).
Proof. rewrite <-not_true_iff_false, log_less_iff. lia. Qed.

Lemma log_less_weak : weak_order log_less.
Proof.
  split.
  - intros a b c. rewrite !log_less_false. lia.
  - intros a b. rewrite log_less_iff, log_less_false. lia.
Qed.

(** The position of a log in the chain. *)
Definition log_position (l : Log) : u64 * u64 * u64 := (lBlockNumber l, lTxIndex l, lIndex l).

(** No two different logs share a position. *)
Definition one_per_position (logs : list Log) : Prop :=
  ∀ a b, a ∈ logs → b ∈ logs → log_position a = log_position b → a = b.

Lemma log_less_chain a b : log_less b a = false → chain_le a b.
Proof. rewrite log_less_false. unfold chain_le. lia. Qed.

(** Sorting puts logs in the order of the chain, and there is one such order
    when positions tell them apart. *)
Lemma sort_chain `{SortSliceLaws} logs : chain_ordered logs (sort_Slice log_less logs).
Proof.
  split; [apply sort_Slice_Permutation|].
  eapply StronglySorted_impl; [|apply sort_Slice_sorted, log_less_weak]. apply log_less_chain.
Qed.

Lemma chain_ordered_unique l1 l2 out1 out2 :
  l1 ≡ₚ l2 → one_per_position l1 → chain_ordered l1 out1 → chain_ordered l2 out2 → out1 = out2.
Proof.
  intros Hp Hpos [P1 S1] [P2 S2]. apply (StronglySorted_unique_strong chain_le); [|done|done|by rewrite P1, P2].
  intros a b Ha Hb Hab Hba. rewrite P1 in Ha. rewrite P2, <-Hp in Hb. apply Hpos; [done..|].
  destruct (chain_le_antisym a b Hab Hba) as (E1 & E2 & E3). unfold log_position. by rewrite E1, E2, E3.
Qed.

Lemma sort_unique `{SortSliceLaws} l1 l2 :
  l1 ≡ₚ l2 → one_per_position l1 → sort_Slice log_less l1 = sort_Slice log_less l2.
Proof. intros Hp Hpos. by apply (chain_ordered_unique l1 l2); [..|apply sort_chain|apply sort_chain]. Qed.

Section properties.
Context `{ABILaws, GethTextLaws, SortSliceLaws}.

Lemma consistent_perm l1 l2 : l1 ≡ₚ l2 → consistent l1 → consistent l2.
Proof. intros Hp Hc a b Ha Hb. apply Hc; by rewrite Hp. Qed.

(** What logs in the order [ordered] mean for the chain at [ctc]. *)
Definition means (cfg : Config) (ordered : list Log) (ctc : Address) (from end_ : u64)
    (ctc' : Address) (rs : list DepositRecord) : Prop :=
  Forall (valid_log from end_) ordered ∧ consistent ordered ∧
  history cfg ctc (unique_from [] ordered) ctc' rs.

(** The logs of a window and what they mean, in the order of the chain. *)
Definition window_meaning (cfg : Config) (logs : list Log) (ctc : Address) (from end_ : u64)
    (ctc' : Address) (rs : list DepositRecord) : Prop :=
  ∃ ordered, chain_ordered logs ordered ∧ means cfg ordered ctc from end_ ctc' rs.

Lemma decodeLogs_cases cfg logs ctc from end_ :
  let ordered := sort_Slice log_less logs in
  (∃ rs ctc', decodeLogs cfg logs ctc from end_ = Ok (rs, ctc') ∧
    means cfg ordered ctc from end_ ctc' rs) ∨
  (fails_with (decodeLogs cfg logs ctc from end_) ErrFatal ∧
    ∀ ctc' rs, ¬ means cfg ordered ctc from end_ ctc' rs).
Proof.
  intros ordered. unfold decodeLogs, means.
  destruct (decode_logs_loop cfg from end_ ordered (mkDecoding [] ctc ∅) [] []
    seen_ok_nil) as [(d & rs & Hd & Hr & Hall & Hc & Hh)|[Hf Hn]].
  - left. exists rs, (dcCTC d). fold ordered. rewrite Hd. cbn [bind]. rewrite Hr. by split_and!.
  - right. split; [by apply fails_bind|]. intros ctc' rs (Hall & Hc & Hh). by apply (Hn ctc' rs).
Qed.

(** [C31] [Decode] accepts a log exactly when it announces a deposit: four
    topics (the event, origin and target with twelve zero bytes, an index
    below 2^64) and canonical event data whose gas limit and timestamp fit 64
    bits.  It returns that deposit and its chain ID; every other log is
    refused with ErrFatal, without a panic. *)
Theorem Decode_exact l :
  (∃ r chain, Decode l = Ok (r, chain) ∧ announces l r chain) ∨
  (fails_with (Decode l) ErrFatal ∧ ∀ r chain, ¬ announces l r chain).
Proof.
  destruct (Decode_total l) as [[[r chain] Hd]|Hf].
  - left. exists r, chain. split; [done|]. by apply Decode_sound.
  - right. split; [done|]. intros r chain Ha%Decode_complete. destruct Hf as (e & Hf & _).
    congruence.
Qed.

(** [C6] [decodeLogs] decides what a window means.  Put in the order of the
    chain (block, then transaction, then log index: there is only one such
    order when positions tell the logs apart), it succeeds exactly when all
    logs are live, inside the window and consistent where they repeat, and the
    distinct ones form a history: every AddressSet of the AddressManager
    continues the address before it, and every other log of the chain's
    current address announces a deposit.  The result is then the chain's last
    address and the deposits for the configured L2 chain, in that order;
    otherwise it fails with ErrFatal and never panics. *)
Theorem decodeLogs_exact cfg logs ctc from end_ :
  ∃ ordered, chain_ordered logs ordered ∧
    (one_per_position logs → ∀ out, chain_ordered logs out → out = ordered) ∧
    ((∃ rs ctc', decodeLogs cfg logs ctc from end_ = Ok (rs, ctc') ∧
       means cfg ordered ctc from end_ ctc' rs) ∨
     (fails_with (decodeLogs cfg logs ctc from end_) ErrFatal ∧
       ∀ ctc' rs, ¬ means cfg ordered ctc from end_ ctc' rs)).
Proof.
  exists (sort_Slice log_less logs). split_and!; [apply sort_chain | | apply decodeLogs_cases].
  intros Hpos out Hout. apply (chain_ordered_unique logs logs); [done..|]. apply sort_chain.
Qed.

(** The order in which the node reports the logs of a window, and
    sort.Slice's choice between equal ones, do not matter when a log is
    determined by its position in the chain. *)
Theorem decodeLogs_order cfg logs1 logs2 ctc from end_ :
  logs1 ≡ₚ logs2 → one_per_position logs1 →
  decodeLogs cfg logs1 ctc from end_ = decodeLogs cfg logs2 ctc from end_.
Proof. intros Hp Hpos. unfold decodeLogs. by rewrite (sort_unique logs1 logs2). Qed.

End properties.

Module LogWitness.

#[local] Existing Instances HexText.text HexText.laws AbiWords.abi AbiWords.abi_laws
  merge_slice merge_slice_laws.

Definition manager : Address := wrap 160 7.
Definition ctc0 : Address := wrap 160 8.
Definition ctc1 : Address := wrap 160 9.
Definition cfg : Config :=
  mkConfig "rpc" (#64 1) (#64 1088) manager (#64 100) (#64 2) (#64 10) 1 "db" "listen" ""
    zero_address zero_address zero_address (#64 0).

Definition get_bytes (r : result bytes) : bytes := match r with Ok b => b | _ => [] end.

(** The chain moves from [ctc0] to [ctc1] in block 101. *)
Definition change_log : Log :=
  mkLog manager [EventID AddressSet; nameHash]
    (get_bytes (abi_Pack AddressSet [AbiAddress ctc1; AbiAddress ctc0]))
    (#64 101) (wrap 256 1) (#64 0) (wrap 256 5) (#64 0) false (#64 0).
(** Deposit [n] in block 102, reported by [ctc1]. *)
Definition deposit_log (n : Z) : Log :=
  mkLog ctc1 [EventID TransactionEnqueued; wrap 256 55; wrap 256 66; wrap 256 n]
    (get_bytes (abi_Pack TransactionEnqueued
       [AbiUint 1088; AbiUint 21000; AbiBytes [wrap 8 1; wrap 8 2]; AbiUint 1700]))
    (#64 102) (wrap 256 2) (#64 1) (wrap 256 6) (#64 n) false (#64 0).
Definition logs0 : list Log := [deposit_log 1; deposit_log 0; change_log; deposit_log 1].

Lemma Decode_exact_witness :
  is_ok (Decode (deposit_log 0)) = true ∧
  ((∃ r chain, Decode (deposit_log 0) = Ok (r, chain) ∧ announces (deposit_log 0) r chain) ∨
   (fails_with (Decode (deposit_log 0)) ErrFatal ∧
     ∀ r chain, ¬ announces (deposit_log 0) r chain)).
Proof. split; [vm_compute; reflexivity|]. apply Decode_exact. Defined.

Lemma decodeLogs_exact_witness :
  (∃ rs, decodeLogs cfg logs0 ctc0 (#64 101) (#64 110) = Ok (rs, ctc1) ∧
     (eIndex ∘ rEnqueue) <$> rs = [wrap 64 0; wrap 64 1]) ∧
  ∃ ordered, chain_ordered logs0 ordered ∧
    ((∃ rs ctc', decodeLogs cfg logs0 ctc0 (#64 101) (#64 110) = Ok (rs, ctc') ∧
       means cfg ordered ctc0 (#64 101) (#64 110) ctc' rs) ∨
     (fails_with (decodeLogs cfg logs0 ctc0 (#64 101) (#64 110)) ErrFatal ∧
       ∀ ctc' rs, ¬ means cfg ordered ctc0 (#64 101) (#64 110) ctc' rs)).
Proof.
  split; [eexists; split; vm_compute; reflexivity|].
  destruct (decodeLogs_exact cfg logs0 ctc0 (#64 101) (#64 110)) as (ordered & Ho & _ & Hd).
  exists ordered. split; [exact Ho | exact Hd].
Defined.

Lemma decodeLogs_order_witness :
  decodeLogs cfg [deposit_log 0; change_log] ctc0 (#64 101) (#64 110) =
  decodeLogs cfg [change_log; deposit_log 0] ctc0 (#64 101) (#64 110).
Proof.
  apply decodeLogs_order; [apply Permutation_swap|].
  intros a b Ha Hb. apply list_elem_of_In in Ha, Hb. cbn [In] in Ha, Hb.
  destruct Ha as [<-|[<-|[]]], Hb as [<-|[<-|[]]]; try reflexivity; intros E;
    apply (f_equal (λ p, uval p.1.1)) in E; vm_compute in E; discriminate E.
Defined.

End LogWitness.
