(* ===== verification/Auth.v ===== *)
(** * Inbox authorization (internal/blobingest/auth.go)

    Who may submit batches and blobs: the sender managers that have been
    active, and for each the senders it announced with the L1 height from
    which each is in effect.  The authorization is part of the blob
    checkpoint, so it is written as JSON and checked when it is read back. *)
From S2P Require Import Prelude Word Strconv Json Geth GoMap Config Logs.

(** A struct pointer in [Known] can be nil, and so can its maps. *)
Record senderSchedule : Type := mkSchedule {
  ssBatch : option (gmap u64 Address);
  ssBlob : option (gmap u64 Address);
}.

Record authorization : Type := mkAuthorization {
  auManager : Address;
  auKnown : option (gmap Address (option senderSchedule));
}.

#[export] Instance senderSchedule_eq_dec : EqDecision senderSchedule.
Proof. solve_decision. Defined.
#[export] Instance authorization_eq_dec : EqDecision authorization.
Proof. solve_decision. Defined.

Definition newAuthorization : authorization := mkAuthorization zero_address (Some ∅).
Definition new_schedule : senderSchedule := mkSchedule (Some ∅) (Some ∅).

(** [m[k]] reads nothing from a nil map; [m[k] = v] panics on one. *)
Definition map_get {K V} `{Countable K} (m : option (gmap K V)) (k : K) : option V :=
  m ≫= (.!! k).
Definition map_put {K V} `{Countable K} (m : option (gmap K V)) (k : K) (v : V) :
    result (option (gmap K V)) :=
  match m with None => Panic | Some m => Ok (Some (<[k := v]> m)) end.

(** [a.Known[address]], with nil for an absent entry. *)
Definition known (a : authorization) (address : Address) : option senderSchedule :=
  mjoin (map_get (auKnown a) address).

(** ** JSON *)

Section json.
Context `{GethText}.

#[export] Instance senderSchedule_codec : Codec senderSchedule := {|
  marshal s := JObj [("Batch", marshal (ssBatch s)); ("Blob", marshal (ssBlob s))];
  unmarshal j :=
    match j with
    | JNull => Some (mkSchedule None None)
    | JObj l => b ← field "Batch" l; x ← field "Blob" l; Some (mkSchedule b x)
    | _ => None
    end;
  zero_value := mkSchedule None None;
|}.

(** [Known], decoded into a variable that holds [newAuthorization()]: a field
    that is absent keeps the empty map. *)
Definition known_field (l : list (string * json)) :
    option (option (gmap Address (option senderSchedule))) :=
  match assoc "Known" l with Some j => unmarshal j | None => Some (Some ∅) end.

#[export] Instance authorization_codec : Codec authorization := {|
  marshal a := JObj [("Manager", marshal (auManager a)); ("Known", marshal (auKnown a))];
  unmarshal j :=
    match j with
    | JNull => Some newAuthorization
    | JObj l => m ← field "Manager" l; k ← known_field l; Some (mkAuthorization m k)
    | _ => None
    end;
  zero_value := newAuthorization;
|}.

Context `{!GethTextLaws}.

#[export] Instance senderSchedule_codec_laws : CodecLaws senderSchedule.
Proof. solve_codec. Qed.
#[export] Instance senderSchedule_non_null : NonNull senderSchedule.
Proof. done. Qed.

#[export] Instance authorization_codec_laws : CodecLaws authorization.
Proof. intros [m k]. unfold unmarshal at 1, marshal at 1. simpl. unfold field, known_field. simpl.
  rewrite unmarshal_marshal. simpl. by rewrite unmarshal_marshal. Qed.
End json.

(** ** Operations *)

(** [ensure]: it writes [Known] through the map, which must not be nil. *)
Definition ensure (a : authorization) (address : Address) : result authorization :=
  match known a address with
  | Some _ => Ok a
  | None =>
      let! m := map_put (auKnown a) address (Some new_schedule) in
      Ok (mkAuthorization (auManager a) m)
  end.

(** The variables of the loop in [sender]: [latest], [found], [fallback]. *)
Record search : Type := mkSearch { shLatest : u64; shFound : bool; shFallback : Address }.

Definition consider (height : u64) (s : search) (e : u64 * Address) : search :=
  let '(effective, address) := e in
  if ule effective height && (negb (shFound s) || ule (shLatest s) effective)
  then mkSearch effective true address else s.

Definition sender `{MapRange} (a : authorization) (height : u64) (blob : bool)
    (fallback : Address) : Address :=
  match known a (auManager a) with
  | None => fallback
  | Some table =>
      let entries := if blob then ssBlob table else ssBatch table in
      shFallback (fold_left (consider height) (map_range (default ∅ entries))
        (mkSearch (#64 0) false fallback))
  end.

(** The two loops of [decodeAuth] over [Known]. *)
Definition check_schedule (_ : unit) (e : Address * option senderSchedule) : result unit :=
  let '(address, schedule) := e in
  fail_if bool_decide (address = zero_address) ||
          match schedule with
          | None => true
          | Some s => bool_decide (ssBatch s = None) || bool_decide (ssBlob s = None)
          end
    with fatal "invalid stored sender schedule" ;;
  Ok tt.

Definition check_sender (_ : unit) (e : u64 * Address) : result unit :=
  fail_if bool_decide (e.2 = zero_address) with fatal "zero stored sender" ;;
  Ok tt.

Definition check_senders `{MapRange} (_ : unit) (e : Address * option senderSchedule) : result unit :=
  match e.2 with
  | None => Panic
  | Some s =>
      foldM (λ _ entries, foldM check_sender tt (map_range (default ∅ entries))) tt
        [ssBatch s; ssBlob s]
  end.

(** No document ([len(raw) == 0]) and null both leave [newAuthorization()]. *)
Definition decodeAuth `{GethText, MapRange} (raw : json) : result authorization :=
  match unmarshal raw with
  | Some (mkAuthorization manager (Some known) as a) =>
      let! _ := foldM check_schedule tt (map_range known) in
      fail_if negb (bool_decide (manager = zero_address)) &&
              bool_decide (mjoin (known !! manager) = None)
        with fatal "missing stored active manager" ;;
      let! _ := foldM check_senders tt (map_range known) in
      Ok a
  | _ => Err (fatal "invalid stored authorization")
  end.

Definition cloneAuth `{GethText, MapRange} (a : authorization) : result authorization :=
  decodeAuth (marshal a).

(** ** Logs *)

Definition positionLess (a b : Log) : bool :=
  if negb (bool_decide (lBlockNumber a = lBlockNumber b)) then ult (lBlockNumber a) (lBlockNumber b)
  else if negb (bool_decide (lTxIndex a = lTxIndex b)) then ult (lTxIndex a) (lTxIndex b)
  else ult (lIndex a) (lIndex b).

Definition validateLog (l : Log) (from end_ : u64) : result unit :=
  fail_if lRemoved l || ult (lBlockNumber l) from || ult end_ (lBlockNumber l)
          || (len (lTopics l) =? 0)
    with fatal "invalid authorization log range or metadata" ;;
  Ok tt.

Definition InboxSenderSet : string := "InboxSenderSet".

Section logs.
Context `{ABI}.

Definition senderManagerName : Hash := NameHash "Proxy__MVM_InboxSenderManager".
Definition senderTopic : Hash := EventID InboxSenderSet.

(** The new and the old manager of an AddressSet event. *)
Definition addressChange (l : Log) : result (Address * Address) :=
  fail_if negb (len (lTopics l) =? 2) with fatal "invalid sender manager event" ;;
  let! t0 := at_ (lTopics l) 0 in
  let! t1 := at_ (lTopics l) 1 in
  fail_if negb (bool_decide (t0 = EventID AddressSet)) ||
          negb (bool_decide (t1 = senderManagerName))
    with fatal "invalid sender manager event" ;;
  match abi_Unpack AddressSet (lData l) with
  | Panic => Panic
  | Err _ => Err (fatal "invalid sender manager ABI")
  | Ok values =>
      match abi_Pack AddressSet values with
      | Panic => Panic
      | Err _ => Err (fatal "noncanonical sender manager ABI")
      | Ok raw =>
          fail_if negb (bool_decide (raw = lData l)) with fatal "noncanonical sender manager ABI" ;;
          let! v0 := at_ values 0 in let! next := as_address v0 in
          let! v1 := at_ values 1 in let! old := as_address v1 in
          Ok (next, old)
      end
  end.

(** An AddressSet log of the AddressManager ([l.Topics[0]] is read only for
    its address). *)
Definition is_manager_change (l : Log) (managerAddress : Address) : result bool :=
  if bool_decide (lAddress l = managerAddress) then
    let! t0 := at_ (lTopics l) 0 in Ok (bool_decide (t0 = EventID AddressSet))
  else Ok false.

(** An InboxSenderSet log: the height, the kind (0 batch, 1 blob) and the
    sender it announces. *)
Definition sender_set (l : Log) : result (u64 * bool * Address) :=
  fail_if negb (len (lTopics l) =? 4) with fatal "invalid InboxSenderSet topics/data" ;;
  let! t0 := at_ (lTopics l) 0 in
  fail_if negb (bool_decide (t0 = senderTopic)) || negb (len (lData l) =? 0)
    with fatal "invalid InboxSenderSet topics/data" ;;
  let! t1 := at_ (lTopics l) 1 in let height := uval t1 in
  let! t3 := at_ (lTopics l) 3 in let kind := uval t3 in
  let! t2 := at_ (lTopics l) 2 in
  fail_if negb (IsUint64 height) || negb (IsUint64 kind) || (1 <? kind) || negb (high12_zero t2)
    with fatal "invalid InboxSenderSet values" ;;
  let sender := BytesToAddress t2 in
  fail_if bool_decide (sender = zero_address) with fatal "zero Inbox sender" ;;
  Ok (wrap 64 height, negb (kind =? 0), sender).

Definition apply (a : authorization) (l : Log) (managerAddress : Address) : result authorization :=
  let! change := is_manager_change l managerAddress in
  if change then
    let! ' (next, old) := addressChange l in
    fail_if negb (bool_decide (old = auManager a)) with fatal "sender manager address history mismatch" ;;
    Ok (mkAuthorization next (auKnown a))
  else
    let! ' (height, blob, sender) := sender_set l in
    match known a (lAddress l) with
    | None => Err (fatal "unknown sender manager log")
    | Some table =>
        let! table :=
          if blob then let! m := map_put (ssBlob table) height sender in Ok (mkSchedule (ssBatch table) m)
          else let! m := map_put (ssBatch table) height sender in Ok (mkSchedule m (ssBlob table)) in
        let! m := map_put (auKnown a) (lAddress l) (Some table) in
        Ok (mkAuthorization (auManager a) m)
    end.

End logs.

(** [fmt.Sprintf("%d/%d", l.BlockNumber, l.Index)] *)
Definition position_id (l : Log) : string :=
  pretty (uval (lBlockNumber l)) +:+ "/" +:+ pretty (uval (lIndex l)).

(** The loop of [orderedLogs]; [seen] has the bytes of each log. *)
Definition order_log `{LogJSON} (st : gmap string json * list Log) (l : Log) :
    result (gmap string json * list Log) :=
  let '(seen, out) := st in
  let id := position_id l in
  let raw := Log_MarshalJSON l in
  match seen !! id with
  | Some old =>
      fail_if negb (bool_decide (old = raw)) with fatal "conflicting authorization log" ;;
      Ok (seen, out)
  | None => Ok (<[id := raw]> seen, out ++ [l])
  end.

Definition orderedLogs `{LogJSON, SortSlice} (logs : list Log) : result (list Log) :=
  let! ' (_, out) := foldM order_log (∅, []) (sort_Slice positionLess logs) in
  Ok out.
