(* ===== verification/AuthFacts.v ===== *)
(** * What the authorization operations compute

    [authority] is the authorization without Go's nils: the active manager
    and each known manager's tables.  [decodeAuth] accepts exactly the
    documents of well-formed authorities, and [apply] computes the meaning of
    an event on them. *)
From S2P Require Import Prelude Word Strconv Json Geth GoMap Pebble StoreTypes Config Logs LogFacts Auth.

(** ** Authorities *)

Record tables : Type := mkTables { tb_batch : gmap u64 Address; tb_blob : gmap u64 Address }.

Record authority : Type := mkAuthority {
  ay_manager : Address;
  ay_known : gmap Address tables;
}.

#[export] Instance tables_eq_dec : EqDecision tables.
Proof. solve_decision. Defined.
#[export] Instance authority_eq_dec : EqDecision authority.
Proof. solve_decision. Defined.

Definition of_tables (t : tables) : senderSchedule :=
  mkSchedule (Some (tb_batch t)) (Some (tb_blob t)).
Definition of_authority (y : authority) : authorization :=
  mkAuthorization (ay_manager y) (Some (Some ∘ of_tables <$> ay_known y)).

Definition no_zero (m : gmap u64 Address) : Prop := map_Forall (λ _ s, s ≠ zero_address) m.

(** No zero address is a manager or a sender, and the active manager, if
    there is one, is known. *)
Record authority_ok (y : authority) : Prop := {
  ay_ok_manager : ay_manager y = zero_address ∨ is_Some (ay_known y !! ay_manager y);
  ay_ok_known : map_Forall (λ a t, a ≠ zero_address ∧ no_zero (tb_batch t) ∧ no_zero (tb_blob t))
    (ay_known y);
}.

Lemma known_of y a : known (of_authority y) a = of_tables <$> (ay_known y !! a).
Proof.
  unfold known, map_get, of_authority. simpl. rewrite lookup_fmap.
  by destruct (ay_known y !! a).
Qed.

Lemma of_tables_inj t1 t2 : of_tables t1 = of_tables t2 → t1 = t2.
Proof. destruct t1, t2. by intros [= -> ->]. Qed.

#[export] Instance of_authority_inj : Inj (=) (=) of_authority.
Proof.
  intros [m1 k1] [m2 k2] [= -> Hk]. f_equal. apply map_eq. intros a.
  apply (f_equal (.!! a)) in Hk. rewrite !lookup_fmap in Hk.
  destruct (k1 !! a) as [t1|], (k2 !! a) as [t2|]; simpl in Hk; try done.
  f_equal. apply of_tables_inj. congruence.
Qed.

Definition empty_authority : authority := mkAuthority zero_address ∅.
Lemma of_empty : of_authority empty_authority = newAuthorization.
Proof. done. Qed.
Lemma empty_authority_ok : authority_ok empty_authority.
Proof. split; [by left | apply map_Forall_empty]. Qed.

(** ** Loops that only check *)

Lemma foldM_check {A} (f : unit → A → result unit) (P : A → Prop) s l :
  (∀ x, x ∈ l → (P x ∧ f tt x = Ok tt) ∨ (¬ P x ∧ fails_with (f tt x) s)) →
  (Forall P l ∧ foldM f tt l = Ok tt) ∨ (¬ Forall P l ∧ fails_with (foldM f tt l) s).
Proof.
  intros Hf. induction l as [|x l IH]; [by left|]. cbn [foldM].
  destruct (Hf x) as [[Hx ->]|[Hx Hfail]]; [by left| |].
  - cbn [bind]. destruct IH as [[Hall Hl]|[Hall Hl]]; [by intros y Hy; apply Hf; right | |].
    + left. split; [by constructor | done].
    + right. split; [by inversion 1 | done].
  - right. split; [by inversion 1 | by apply fails_bind].
Qed.

Lemma fail_if_check (c : bool) msg (P : Prop) :
  (P ↔ c = false) →
  let r := (fail_if c with fatal msg ;; Ok tt) in
  (P ∧ r = Ok tt) ∨ (¬ P ∧ fails_with r ErrFatal).
Proof. intros HP. destruct c; [right | left]; split; try done; [by intros ?%HP | by apply HP]. Qed.

Section decode.
Context `{GethTextLaws, MapRangeLaws}.

Lemma Forall_map_range {K V} `{Countable K} (P : K * V → Prop) (m : gmap K V) :
  Forall P (map_range m) ↔ map_Forall (λ k v, P (k, v)) m.
Proof.
  rewrite Forall_forall. split.
  - intros Hall k v Hk. by apply Hall, elem_of_map_range.
  - intros Hall [k v] Hk%elem_of_map_range. by apply (Hall k v).
Qed.

Definition schedule_ok (e : Address * option senderSchedule) : Prop :=
  e.1 ≠ zero_address ∧ ∃ t, e.2 = Some (of_tables t).

Lemma check_schedule_cases e :
  (schedule_ok e ∧ check_schedule tt e = Ok tt) ∨
  (¬ schedule_ok e ∧ fails_with (check_schedule tt e) ErrFatal).
Proof.
  destruct e as [a s]. apply fail_if_check. unfold schedule_ok. simpl.
  rewrite orb_false_iff, bool_decide_eq_false. apply and_iff_compat_l.
  destruct s as [[[b|] [x|]]|]; simpl; split; try done.
  - intros _. by exists (mkTables b x).
  - by intros [t [=]].
  - by intros [t [=]].
  - by intros [t [=]].
  - by intros [t [=]].
Qed.

Lemma check_entries_cases (m : gmap u64 Address) :
  (no_zero m ∧ foldM check_sender tt (map_range m) = Ok tt) ∨
  (¬ no_zero m ∧ fails_with (foldM check_sender tt (map_range m)) ErrFatal).
Proof.
  destruct (foldM_check check_sender (λ e, e.2 ≠ zero_address) ErrFatal (map_range m))
    as [[Hall ?]|[Hall ?]].
  - intros e _. apply fail_if_check. by rewrite bool_decide_eq_false.
  - left. split; [by apply Forall_map_range in Hall | done].
  - right. split; [by rewrite Forall_map_range in Hall | done].
Qed.

Lemma check_senders_cases a t :
  (no_zero (tb_batch t) ∧ no_zero (tb_blob t) ∧ check_senders tt (a, Some (of_tables t)) = Ok tt) ∨
  (¬ (no_zero (tb_batch t) ∧ no_zero (tb_blob t)) ∧
   fails_with (check_senders tt (a, Some (of_tables t))) ErrFatal).
Proof.
  unfold check_senders, of_tables. cbn [snd ssBatch ssBlob foldM default].
  destruct (check_entries_cases (tb_batch t)) as [[Hb Eb]|[Hb Eb]]; cbn [default id].
  - unfold id. rewrite Eb. cbn [bind].
    destruct (check_entries_cases (tb_blob t)) as [[Hx Ex]|[Hx Ex]].
    + left. by rewrite Ex.
    + right. split; [by intros [_ ?] | by apply fails_bind].
  - right. split; [by intros [? _] | by apply fails_bind].
Qed.

(** The entries of [Known] that pass the first loop are tables. *)
Lemma tables_of (K : gmap Address (option senderSchedule)) :
  map_Forall (λ a s, schedule_ok (a, s)) K →
  ∃ k, K = Some ∘ of_tables <$> k ∧ map_Forall (λ a _, a ≠ zero_address) k.
Proof.
  induction K as [|a s K Ha IH] using map_ind; intros HK.
  { exists ∅. by rewrite fmap_empty. }
  apply map_Forall_insert in HK as [[Hz [t Ht]] HK]; [|done]. simpl in Ht.
  destruct (IH HK) as (k & -> & Hk). exists (<[a := t]> k). rewrite fmap_insert. subst s.
  rewrite lookup_fmap in Ha. split; [done|].
  apply map_Forall_insert; [by destruct (k !! a) | done].
Qed.

Lemma decodeAuth_known (m : Address) (k : gmap Address tables) :
  let y := mkAuthority m k in
  let r :=
    (let! _ := foldM check_schedule tt (map_range (Some ∘ of_tables <$> k)) in
     fail_if negb (bool_decide (m = zero_address)) &&
             bool_decide (mjoin ((Some ∘ of_tables <$> k) !! m) = None)
       with fatal "missing stored active manager" ;;
     let! _ := foldM check_senders tt (map_range (Some ∘ of_tables <$> k)) in
     Ok (of_authority y)) in
  (authority_ok y ∧ r = Ok (of_authority y)) ∨ (¬ authority_ok y ∧ fails_with r ErrFatal).
Proof.
  intros y r. subst r.
  destruct (foldM_check check_schedule schedule_ok ErrFatal (map_range (Some ∘ of_tables <$> k)))
    as [[Hall ->]|[Hall Hf]]; [intros ??; apply check_schedule_cases | |].
  2:{ right. split; [|by apply fails_bind]. intros [_ Hk]. apply Hall, Forall_map_range.
      intros a s. rewrite lookup_fmap. destruct (k !! a) as [t|] eqn:E; [|done]. intros [= <-].
      split; [by apply (Hk a t) | by exists t]. }
  cbn [bind]. rewrite Forall_map_range in Hall.
  assert (map_Forall (λ a _, a ≠ zero_address) k) as Hz.
  { intros a t Ha. apply (Hall a (Some (of_tables t))). by rewrite lookup_fmap, Ha. }
  destruct (_ && _) eqn:Em.
  { right. split; [|done]. apply andb_true_iff in Em as [E1 E2]. bool_to_prop.
    intros [[?|[t Ht]] _]; [done|]. simpl in Ht. by rewrite lookup_fmap, Ht in E2. }
  destruct (foldM_check check_senders
    (λ e, ∃ t, e.2 = Some (of_tables t) ∧ no_zero (tb_batch t) ∧ no_zero (tb_blob t)) ErrFatal
    (map_range (Some ∘ of_tables <$> k))) as [[Hs ->]|[Hs Hf]].
  - intros [a s] Hin%elem_of_map_range. rewrite lookup_fmap in Hin.
    destruct (k !! a) as [t|]; [|done]. injection Hin as <-.
    destruct (check_senders_cases a t) as [(?&?&?)|[Hn ?]]; [left; eauto|].
    right. split; [|done]. intros (t' & [= E1 E2] & Ht'). apply Hn.
    replace t with t' by (destruct t, t'; simpl in *; congruence). done.
  - left. split; [|done]. rewrite Forall_map_range in Hs. split; simpl.
    + apply andb_false_iff in Em as [Em|Em]; bool_to_prop; [by left | right].
      rewrite lookup_fmap in Em. by destruct (k !! m).
    + intros a t Ha. split; [by apply (Hz a t)|].
      destruct (Hs a (Some (of_tables t))) as (t' & Et & Ht'); [by rewrite lookup_fmap, Ha|].
      simpl in Et. injection Et as E1 E2. by rewrite E1, E2.
  - right. split; [|by apply fails_bind]. intros [_ Hk]. apply Hs, Forall_map_range.
    intros a s. rewrite lookup_fmap. destruct (k !! a) as [t|] eqn:E; [|done]. intros [= <-].
    exists t. split; [done|]. by apply (Hk a t).
Qed.

(** What [raw] says when it is the document of a well-formed authority. *)
Definition stores (raw : json) (y : authority) : Prop :=
  unmarshal raw = Some (of_authority y) ∧ authority_ok y.

Lemma decodeAuth_cases raw :
  (∃ y, stores raw y ∧ decodeAuth raw = Ok (of_authority y)) ∨
  ((∀ y, ¬ stores raw y) ∧ fails_with (decodeAuth raw) ErrFatal).
Proof.
  unfold decodeAuth, stores. destruct (unmarshal raw) as [[m [K|]]|] eqn:Hu;
    [|right; split; [by intros y [? _] | done]..].
  destruct (foldM_check check_schedule schedule_ok ErrFatal (map_range K)) as [[Hall E]|[Hall Hf]];
    [intros ??; apply check_schedule_cases | |].
  - apply Forall_map_range, tables_of in Hall as (k & -> & _).
    destruct (decodeAuth_known m k) as [[Hy Hr]|[Hy Hr]]; [left | right].
    + by exists (mkAuthority m k).
    + split; [|done]. intros y [[= Hm Hk] Hok]. apply Hy.
      replace (mkAuthority m k) with y; [done|]. apply (inj of_authority).
      destruct y as [m' k']. unfold of_authority in *. simpl in *. by rewrite Hm, Hk.
  - right. split; [|by apply fails_bind]. intros y [[= -> ->] [_ Hk]]. apply Hall, Forall_map_range.
    intros a s. rewrite lookup_fmap. destruct (ay_known y !! a) as [t|] eqn:E; [|done].
    intros [= <-]. split; [by apply (Hk a t) | by exists t].
Qed.

Lemma stores_marshal y : authority_ok y → stores (marshal (of_authority y)) y.
Proof. intros Hy. split; [apply unmarshal_marshal | done]. Qed.

Lemma stores_unique raw y1 y2 : stores raw y1 → stores raw y2 → y1 = y2.
Proof. intros [E1 _] [E2 _]. apply (inj of_authority). congruence. Qed.

Lemma decodeAuth_stores raw y : stores raw y → decodeAuth raw = Ok (of_authority y).
Proof.
  intros Hs. destruct (decodeAuth_cases raw) as [(y' & Hs' & ->)|[Hn _]]; [|by destruct (Hn y)].
  by rewrite (stores_unique _ _ _ Hs Hs').
Qed.

Lemma cloneAuth_Ok y : authority_ok y → cloneAuth (of_authority y) = Ok (of_authority y).
Proof. intros Hy. by apply decodeAuth_stores, stores_marshal. Qed.

(** ** The sender in effect *)

(** [s] is the sender of [m] at [height]: the one announced with the greatest
    height that is not above, or the initial one. *)
Definition in_effect (m : gmap u64 Address) (height : u64) (initial s : Address) : Prop :=
  (∃ e, m !! e = Some s ∧ uval e <= uval height ∧
     ∀ e' s', m !! e' = Some s' → uval e' <= uval height → uval e' <= uval e) ∨
  (s = initial ∧ ∀ e s', m !! e = Some s' → uval height < uval e).

(** The state of the search after the entries [l]. *)
Definition searched (l : list (u64 * Address)) (height : u64) (initial : Address) (s : search) : Prop :=
  (shFound s = true ∧ (shLatest s, shFallback s) ∈ l ∧ uval (shLatest s) <= uval height ∧
     ∀ e a, (e, a) ∈ l → uval e <= uval height → uval e <= uval (shLatest s)) ∨
  (shFound s = false ∧ shFallback s = initial ∧ ∀ e a, (e, a) ∈ l → uval height < uval e).

Lemma consider_searched height initial l : ∀ before s,
  searched before height initial s →
  searched (before ++ l) height initial (fold_left (consider height) l s).
Proof.
  induction l as [|[e a] l IH]; intros before s Hs; [by rewrite app_nil_r|].
  rewrite (cons_middle (e, a)), app_assoc. apply IH. clear IH.
  unfold consider, ule. destruct (Z.leb_spec (uval e) (uval height)); simpl.
  - destruct Hs as [(Hf & Hin & Hle & Hmax)|(Hf & Hfb & Hall)]; rewrite Hf; simpl.
    + destruct (Z.leb_spec (uval (shLatest s)) (uval e)); left; simpl; split_and!; try done;
        rewrite ?elem_of_app, ?list_elem_of_singleton; auto.
      * intros e' a' [Hi|[= -> ->]%list_elem_of_singleton]%elem_of_app Hl; [|lia].
        specialize (Hmax e' a' Hi Hl). lia.
      * intros e' a' [Hi|[= -> ->]%list_elem_of_singleton]%elem_of_app Hl; [eauto | lia].
    + left. simpl. split_and!; [done | | done |].
      * apply elem_of_app. right. by apply list_elem_of_singleton.
      * intros e' a' [Hi|[= -> ->]%list_elem_of_singleton]%elem_of_app Hl; [|lia].
        specialize (Hall e' a' Hi). lia.
  - destruct Hs as [(Hf & Hin & Hle & Hmax)|(Hf & Hfb & Hall)]; [left | right]; split_and!; try done.
    + apply elem_of_app. by left.
    + intros e' a' [Hi|[= -> ->]%list_elem_of_singleton]%elem_of_app Hl; [eauto | lia].
    + intros e' a' [Hi|[= -> ->]%list_elem_of_singleton]%elem_of_app; [eauto | lia].
Qed.

Lemma sender_in_effect y height (blob : bool) initial :
  match ay_known y !! ay_manager y with
  | Some t => in_effect (if blob then tb_blob t else tb_batch t) height initial
                (sender (of_authority y) height blob initial)
  | None => sender (of_authority y) height blob initial = initial
  end.
Proof.
  unfold sender. change (auManager (of_authority y)) with (ay_manager y). rewrite known_of.
  destruct (ay_known y !! ay_manager y) as [t|]; simpl; [|done].
  assert (∀ m : gmap u64 Address, in_effect m height initial
    (shFallback (fold_left (consider height) (map_range m) (mkSearch (#64 0) false initial)))) as Hall.
  { intros m. pose proof (consider_searched height initial (map_range m) []
      (mkSearch (#64 0) false initial)) as Hs.
    destruct Hs as [(_ & Hin & Hle & Hmax)|(_ & -> & Hmax)]; [|left|right].
    - right. split_and!; [done | done|]. by intros e a ?%elem_of_nil.
    - eexists. split; [by apply elem_of_map_range|]. split; [done|].
      intros e' s' He'. by apply (Hmax e' s'), elem_of_map_range.
    - split; [done|]. intros e s' He. by apply (Hmax e s'), elem_of_map_range. }
  destruct blob; apply Hall.
Qed.

(** [s] is the sender [y] authorizes at [height]. *)
Definition acts (y : authority) (height : u64) (blob : bool) (initial s : Address) : Prop :=
  match ay_known y !! ay_manager y with
  | Some t => in_effect (if blob then tb_blob t else tb_batch t) height initial s
  | None => s = initial
  end.

Lemma sender_acts y height blob initial :
  acts y height blob initial (sender (of_authority y) height blob initial).
Proof.
  pose proof (sender_in_effect y height blob initial) as Hs. unfold acts.
  by destruct (ay_known y !! ay_manager y).
Qed.

(** The rule determines the sender. *)
Lemma acts_unique y height blob initial s1 s2 :
  acts y height blob initial s1 → acts y height blob initial s2 → s1 = s2.
Proof.
  unfold acts. destruct (ay_known y !! ay_manager y) as [t|]; [|congruence].
  generalize (if blob then tb_blob t else tb_batch t). intros m.
  intros [(e1 & E1 & L1 & M1)|[-> N1]] [(e2 & E2 & L2 & M2)|[-> N2]]; [| | |done].
  - assert (e1 = e2) as -> by (apply uint_eq; pose proof (M1 _ _ E2 L2); pose proof (M2 _ _ E1 L1); lia).
    congruence.
  - pose proof (N2 _ _ E1). lia.
  - pose proof (N1 _ _ E2). lia.
Qed.

End decode.

(** ** The meaning of the events *)

Inductive auth_event : Type :=
  | ManagerChanged (old next : Address)
  | SenderSet (manager : Address) (height : u64) (blob : bool) (sender : Address).

Definition auth_step (y : authority) (ev : auth_event) : option authority :=
  match ev with
  | ManagerChanged old next =>
      if decide (old = ay_manager y) then Some (mkAuthority next (ay_known y)) else None
  | SenderSet manager height blob sender =>
      t ← ay_known y !! manager;
      let t := if blob then mkTables (tb_batch t) (<[height := sender]> (tb_blob t))
               else mkTables (<[height := sender]> (tb_batch t)) (tb_blob t) in
      Some (mkAuthority (ay_manager y) (<[manager := t]> (ay_known y)))
  end.

Definition event_ok (y : authority) (ev : auth_event) : Prop :=
  match ev with
  | ManagerChanged _ next => next = zero_address ∨ is_Some (ay_known y !! next)
  | SenderSet _ _ _ sender => sender ≠ zero_address
  end.

Lemma auth_step_ok y ev y' : authority_ok y → event_ok y ev → auth_step y ev = Some y' → authority_ok y'.
Proof.
  intros [Hm Hk] Hev. destruct ev as [old next|m h blob s]; simpl in *.
  - destruct (decide _); [|done]. intros [= <-]. by split.
  - destruct (ay_known y !! m) as [t|] eqn:Et; [|done]. intros [= <-].
    destruct (Hk m t Et) as (Hz & Hb & Hx). split; simpl.
    + destruct Hm as [Hm|Hm]; [by left | right]. rewrite lookup_insert_is_Some.
      destruct (decide (m = ay_manager y)); auto.
    + apply map_Forall_insert_2; [|done]. split; [done|].
      destruct blob; simpl; split; try done; by apply map_Forall_insert_2.
Qed.

(** The managers that are known never disappear. *)
Lemma auth_step_known y ev y' a :
  auth_step y ev = Some y' → is_Some (ay_known y !! a) ↔ is_Some (ay_known y' !! a).
Proof.
  destruct ev as [old next|m h blob s]; simpl.
  - destruct (decide _); [|done]. by intros [= <-].
  - destruct (ay_known y !! m) as [t|] eqn:Et; [|done]. intros [= <-]. simpl.
    rewrite lookup_insert_is_Some. destruct (decide (m = a)) as [->|?]; [|tauto].
    rewrite Et. split; auto.
Qed.

(** ** The events of logs *)

Section logs.
Context `{ABILaws}.

(** A canonical AddressSet event for the sender manager's name. *)
Definition change_log (l : Log) (old next : Address) : Prop :=
  lTopics l = [EventID AddressSet; senderManagerName] ∧
  abi_Unpack AddressSet (lData l) = Ok [AbiAddress next; AbiAddress old] ∧
  abi_Pack AddressSet [AbiAddress next; AbiAddress old] = Ok (lData l).

Definition kind_of (blob : bool) : Z := if blob then 1 else 0.

Definition set_log (l : Log) (height : u64) (blob : bool) (sender : Address) : Prop :=
  lTopics l = [senderTopic; wrap 256 (uval height); wrap 256 (uval sender); wrap 256 (kind_of blob)] ∧
  lData l = [] ∧ sender ≠ zero_address.

Definition changes_manager (l : Log) (mgr : Address) : Prop :=
  lAddress l = mgr ∧ head (lTopics l) = Some (EventID AddressSet).

(** What the log [l] announces, when [mgr] is the AddressManager. *)
Definition auth_log (mgr : Address) (l : Log) (ev : auth_event) : Prop :=
  match ev with
  | ManagerChanged old next => changes_manager l mgr ∧ change_log l old next
  | SenderSet manager height blob sender =>
      ¬ changes_manager l mgr ∧ lAddress l = manager ∧ set_log l height blob sender
  end.

Lemma is_manager_change_spec l mgr :
  lTopics l ≠ [] →
  ∃ b, is_manager_change l mgr = Ok b ∧ (b = true ↔ changes_manager l mgr).
Proof.
  intros Ht. unfold is_manager_change, changes_manager. destruct (lTopics l) as [|t ts]; [done|].
  change (at_ (t :: ts) 0) with (Ok t). cbn [bind head].
  case_bool_decide as Ha; eexists; (split; [done|]).
  - rewrite bool_decide_eq_true. naive_solver.
  - naive_solver.
Qed.

(** A log with the wrong number of topics is refused. *)
Ltac wrong_length :=
  unfold len; cbn [length];
  match goal with
  | |- fails_with (if negb (?n =? ?m) then _ else _) _ => destruct (Z.eqb_spec n m); [lia | apply fails_fatal]
  end.

Lemma addressChange_cases l :
  (∃ old next, change_log l old next ∧ addressChange l = Ok (next, old)) ∨
  ((∀ old next, ¬ change_log l old next) ∧ fails_with (addressChange l) ErrFatal).
Proof.
  unfold addressChange, change_log. destruct (lTopics l) as [|t0 [|t1 [|]]].
  1, 2, 4: right; split; [by intros ?? [? _] | wrong_length].
  change (at_ [t0; t1] 0) with (Ok t0). change (at_ [t0; t1] 1) with (Ok t1).
  change (negb (len [t0; t1] =? 2)) with false. cbn [bind].
  destruct (_ || _) eqn:Et.
  { right. split; [|done]. intros ?? [[= -> ->] _]. by rewrite !bool_decide_true in Et. }
  bool_to_prop. destruct (abi_Unpack AddressSet (lData l)) as [v|e|] eqn:Eu.
  2: right; split; [by intros ?? (_ & ? & _) | done].
  2: by destruct (Unpack_no_panic AddressSet (lData l)).
  destruct (Unpack_AddressSet _ _ Eu) as (next & old & ->).
  destruct (abi_Pack _ _) as [raw|e|] eqn:Ep.
  2: right; split; [|done]; intros ?? (_ & [= <- <-] & Hp); by rewrite Hp in Ep.
  2: by destruct (Pack_no_panic AddressSet [AbiAddress next; AbiAddress old]).
  destruct (negb (bool_decide (raw = lData l))) eqn:Er; bool_to_prop.
  - right. split; [|done]. intros ?? (_ & [= <- <-] & Hp). congruence.
  - left. exists old, next. split; [|done]. split_and!; [naive_solver | done | by subst].
Qed.

Lemma change_log_unique l old1 next1 old2 next2 :
  change_log l old1 next1 → change_log l old2 next2 → old1 = old2 ∧ next1 = next2.
Proof. intros (_ & E1 & _) (_ & E2 & _). rewrite E1 in E2. by injection E2 as -> ->. Qed.

Lemma topic_kind t : (1 <? uval t) = false → wrap 256 (kind_of (negb (uval t =? 0))) = t.
Proof.
  intros Ht. bool_to_prop. pose proof (uint_range t). apply uint_eq. rewrite uval_wrap.
  destruct (Z.eqb_spec (uval t) 0) as [->|]; [done|].
  change (kind_of (negb false)) with 1. change (1 `mod` modulus 256) with 1. lia.
Qed.

Lemma sender_set_cases l :
  (∃ h b s, set_log l h b s ∧ sender_set l = Ok (h, b, s)) ∨
  ((∀ h b s, ¬ set_log l h b s) ∧ fails_with (sender_set l) ErrFatal).
Proof.
  unfold sender_set, set_log. destruct (lTopics l) as [|t0 [|t1 [|t2 [|t3 [|]]]]].
  1, 2, 3, 4, 6: right; split; [by intros ??? [? _] | wrong_length].
  change (at_ [t0; t1; t2; t3] 0) with (Ok t0). change (at_ [t0; t1; t2; t3] 1) with (Ok t1).
  change (at_ [t0; t1; t2; t3] 2) with (Ok t2). change (at_ [t0; t1; t2; t3] 3) with (Ok t3).
  change (negb (len [t0; t1; t2; t3] =? 4)) with false. cbn [bind].
  destruct (_ || _) eqn:E0.
  { right. split; [|done]. intros ??? ([= -> _ _ _] & Hd & _). by rewrite Hd, bool_decide_true in E0. }
  bool_to_prop. destruct (_ || negb (high12_zero t2)) eqn:E1.
  { right. split; [|done]. intros h b s ([= _ -> -> ->] & _ & _).
    rewrite (proj2 (topic_index _)), (proj2 (topic_address _)) in E1.
    - destruct b; simpl in E1; done.
    - unfold BytesToAddress. f_equal. rewrite !uval_wrap. pose proof (uint_range s).
      change (modulus 160) with (2 ^ 160) in *.
      rewrite (Z.mod_small (uval s) (modulus 256)) by (change (modulus 256) with (2 ^ 160 * 2 ^ 96); nia).
      by apply Z.mod_small.
    - f_equal. rewrite !uval_wrap. pose proof (uint_range h).
      change (modulus 64) with (2 ^ 64) in *.
      rewrite (Z.mod_small (uval h) (modulus 256)) by (change (modulus 256) with (2 ^ 64 * 2 ^ 192); nia).
      by apply Z.mod_small. }
  apply orb_false_iff in E1 as [[[E1 E2]%orb_false_iff E3]%orb_false_iff E4%negb_false_iff].
  apply negb_false_iff, topic_index in E1. apply topic_address in E4.
  case_bool_decide as Ez.
  - right. split; [|done]. intros h b s ([= _ _ -> _] & _ & Hs). apply Hs.
    rewrite <-Ez. unfold BytesToAddress. apply uint_eq. rewrite !uval_wrap. pose proof (uint_range s).
    change (modulus 160) with (2 ^ 160) in *.
    rewrite (Z.mod_small (uval s) (modulus 256)) by (change (modulus 256) with (2 ^ 160 * 2 ^ 96); nia).
    symmetry. by apply Z.mod_small.
  - left. eexists _, _, _. split; [|done]. split_and!; [|by destruct (lData l)|done].
    rewrite E1, E4, (topic_kind t3 E3). by f_equal.
Qed.

Lemma set_log_unique l h1 b1 s1 h2 b2 s2 :
  set_log l h1 b1 s1 → set_log l h2 b2 s2 → h1 = h2 ∧ b1 = b2 ∧ s1 = s2.
Proof.
  assert (∀ w (x y : uint w), (w <= 256)%N →
    uval x `mod` modulus 256 = uval y `mod` modulus 256 → x = y) as Hinj.
  { intros w x y Hw E. apply uint_eq. pose proof (uint_range x). pose proof (uint_range y).
    assert (modulus w <= modulus 256) by (apply Z.pow_le_mono_r; lia).
    by rewrite !Z.mod_small in E by lia. }
  intros [E1 _] [E2 _]. rewrite E1 in E2. injection E2 as Eh Es Eb.
  split_and!; [by apply Hinj in Eh | by destruct b1, b2 | by apply Hinj in Es].
Qed.

Lemma auth_log_unique mgr l ev1 ev2 : auth_log mgr l ev1 → auth_log mgr l ev2 → ev1 = ev2.
Proof.
  destruct ev1 as [o1 n1|m1 h1 b1 s1], ev2 as [o2 n2|m2 h2 b2 s2]; simpl; try tauto.
  - intros [_ H1'] [_ H2']. by destruct (change_log_unique _ _ _ _ _ H1' H2') as [-> ->].
  - intros (_ & <- & H1') (_ & <- & H2').
    by destruct (set_log_unique _ _ _ _ _ _ _ H1' H2') as (-> & -> & ->).
Qed.

Definition applies (mgr : Address) (y : authority) (l : Log) (y' : authority) : Prop :=
  ∃ ev, auth_log mgr l ev ∧ auth_step y ev = Some y'.

Lemma apply_set y mgr l h b s :
  lTopics l ≠ [] → ¬ changes_manager l mgr → sender_set l = Ok (h, b, s) →
  match auth_step y (SenderSet (lAddress l) h b s) with
  | Some y' => apply (of_authority y) l mgr = Ok (of_authority y')
  | None => fails_with (apply (of_authority y) l mgr) ErrFatal
  end.
Proof.
  intros Ht Hc Hs. unfold apply.
  destruct (is_manager_change_spec l mgr Ht) as (c & -> & Hb). cbn [bind].
  destruct c; [by destruct Hc; apply Hb|]. rewrite Hs. cbn [bind auth_step]. rewrite known_of.
  destruct (ay_known y !! lAddress l) as [t|]; cbn [fmap option_fmap option_map mbind option_bind];
    [|apply fails_fatal].
  unfold of_authority. cbn [auKnown auManager ay_manager ay_known map_put bind].
  rewrite fmap_insert. by destruct b.
Qed.

Lemma apply_cases y mgr l :
  lTopics l ≠ [] →
  (∃ y', applies mgr y l y' ∧ apply (of_authority y) l mgr = Ok (of_authority y')) ∨
  ((∀ y', ¬ applies mgr y l y') ∧ fails_with (apply (of_authority y) l mgr) ErrFatal).
Proof.
  intros Ht. destruct (is_manager_change_spec l mgr Ht) as (c & Ec & Hb).
  destruct c.
  - assert (changes_manager l mgr) as Hc by by apply Hb.
    unfold apply. rewrite Ec. cbn [bind].
    destruct (addressChange_cases l) as [(old & next & Hl & ->)|[Hn Hf]].
    + cbn [bind]. change (auManager (of_authority y)) with (ay_manager y).
      destruct (decide (old = ay_manager y)) as [->|Hne].
      * left. exists (mkAuthority next (ay_known y)). rewrite bool_decide_true by done.
        split; [|done]. exists (ManagerChanged (ay_manager y) next). split; [done|].
        simpl. by rewrite decide_True.
      * right. rewrite bool_decide_false by done. split; [|apply fails_fatal].
        intros y' ([o n|? ? ? ?] & [? Hl'] & Hs); [|done].
        destruct (change_log_unique _ _ _ _ _ Hl Hl') as [<- <-]. simpl in Hs.
        by rewrite decide_False in Hs.
    + right. split; [|by apply fails_bind]. intros y' ([o n|? ? ? ?] & [? Hl'] & _); [|done].
      by apply (Hn o n).
  - assert (¬ changes_manager l mgr) as Hc by (by intros ?%Hb).
    destruct (sender_set_cases l) as [(h & b & s & Hl & Es)|[Hn Hf]].
    + pose proof (apply_set y mgr l h b s Ht Hc Es) as Hs.
      destruct (auth_step y (SenderSet (lAddress l) h b s)) as [y'|] eqn:Ey; [left | right].
      * exists y'. split; [|done]. eexists. split; [|done]. done.
      * split; [|done]. intros y' ([o n|m h' b' s'] & Hl' & Hst); [by destruct Hl'|].
        destruct Hl' as (_ & <- & Hl').
        destruct (set_log_unique _ _ _ _ _ _ _ Hl Hl') as (-> & -> & ->). by rewrite Ey in Hst.
    + right. split.
      * intros y' ([o n|m h' b' s'] & Hl' & _); [by destruct Hl' | by apply (Hn h' b' s'), Hl'].
      * unfold apply. rewrite Ec. cbn [bind]. by apply fails_bind.
Qed.

Lemma applies_unique mgr y l y1 y2 : applies mgr y l y1 → applies mgr y l y2 → y1 = y2.
Proof.
  intros (e1 & L1 & S1) (e2 & L2 & S2). rewrite (auth_log_unique _ _ _ _ L1 L2) in S1. congruence.
Qed.

(** ** Sequences of logs *)

Inductive history (mgr : Address) : authority → list Log → authority → Prop :=
  | history_nil y : history mgr y [] y
  | history_cons y l y1 ls y2 :
      applies mgr y l y1 → history mgr y1 ls y2 → history mgr y (l :: ls) y2.

Lemma history_app mgr y l1 l2 y2 :
  history mgr y (l1 ++ l2) y2 ↔ ∃ y1, history mgr y l1 y1 ∧ history mgr y1 l2 y2.
Proof.
  revert y. induction l1 as [|l l1 IH]; intros y; simpl.
  - split; [intros Hh; exists y; split; [constructor | done] | by intros (y1 & Hn & Hh); inversion Hn; subst].
  - split.
    + inversion 1 as [|? ? y1 ? ? Ha Hh]; subst. apply IH in Hh as (y' & ? & ?). exists y'.
      split; [by econstructor | done].
    + intros (y' & Hh & ?). inversion Hh as [|? ? y1 ? ? Ha Hh']; subst.
      econstructor; [done|]. apply IH. by exists y'.
Qed.

Definition apply_all (mgr : Address) (a : authorization) (ls : list Log) : result authorization :=
  foldM (λ a l, apply a l mgr) a ls.

Lemma apply_all_cases mgr ls : ∀ y,
  Forall (λ l, lTopics l ≠ []) ls →
  (∃ y', history mgr y ls y' ∧ apply_all mgr (of_authority y) ls = Ok (of_authority y')) ∨
  ((∀ y', ¬ history mgr y ls y') ∧ fails_with (apply_all mgr (of_authority y) ls) ErrFatal).
Proof.
  induction ls as [|l ls IH]; intros y Hls.
  { left. exists y. split; [constructor | done]. }
  apply Forall_cons in Hls as [Hl Hls]. unfold apply_all. cbn [foldM].
  destruct (apply_cases y mgr l Hl) as [(y1 & H1' & ->)|[Hn Hf]].
  - cbn [bind]. destruct (IH y1 Hls) as [(y2 & H2' & E2)|[Hn Hf]]; [left | right].
    + exists y2. split; [by econstructor | done].
    + split; [|done]. intros y'. inversion 1 as [|? ? y1' ? ? Ha Hh]; subst.
      rewrite <-(applies_unique _ _ _ _ _ H1' Ha) in Hh. by apply (Hn y').
  - right. split; [|by apply fails_bind]. intros y'. inversion 1; subst. by eapply Hn.
Qed.

(** The log, if it names a manager, names one that [y] knows. *)
Definition covered (mgr : Address) (y : authority) (l : Log) : Prop :=
  ∀ old next, auth_log mgr l (ManagerChanged old next) →
    next = zero_address ∨ is_Some (ay_known y !! next).

Lemma applies_ok mgr y l y' : authority_ok y → covered mgr y l → applies mgr y l y' → authority_ok y'.
Proof.
  intros Hy Hc (ev & Hl & Hs). apply (auth_step_ok y ev); [done | | done].
  destruct ev as [old next|m h b s]; [by apply (Hc old next) | apply Hl].
Qed.

Lemma history_ok mgr y ls y' :
  authority_ok y → Forall (covered mgr y) ls → history mgr y ls y' → authority_ok y'.
Proof.
  intros Hy Hc Hh. revert Hy Hc. induction Hh as [|y l y1 ls y2 Ha _ IH]; intros Hy Hc; [done|].
  apply Forall_cons in Hc as [Hl Hls]. apply IH; [by eapply applies_ok|].
  eapply Forall_impl; [exact Hls|]. intros l' Hl' old next Hev. destruct (Hl' old next Hev) as [?|Hk]; [by left|].
  destruct Ha as (ev & _ & Hs). right. by apply (auth_step_known _ _ _ _ Hs).
Qed.

Lemma history_known mgr y ls y' a :
  history mgr y ls y' → is_Some (ay_known y !! a) ↔ is_Some (ay_known y' !! a).
Proof.
  induction 1 as [|y l y1 ls y2 (ev & _ & Hs) _ IH]; [done|].
  by rewrite (auth_step_known _ _ _ _ Hs).
Qed.

End logs.

(** ** Putting logs in order *)

Definition position (l : Log) : u64 * u64 := (lBlockNumber l, lIndex l).

Lemma position_id_iff l1 l2 : position_id l1 = position_id l2 ↔ position l1 = position l2.
Proof.
  unfold position_id, position. split.
  - intros E. pose proof (uint_range (lBlockNumber l1)). pose proof (uint_range (lBlockNumber l2)).
    apply pretty_slash_inj in E as [E1 E2]; [|lia..].
    apply (inj pretty) in E2. by f_equal; apply uint_eq.
  - by intros [= -> ->].
Qed.

(** Two different logs at one position. *)
Definition conflict (logs : list Log) : Prop :=
  ∃ l1 l2, l1 ∈ logs ∧ l2 ∈ logs ∧ position l1 = position l2 ∧ l1 ≠ l2.

Lemma positionLess_iff a b :
  positionLess a b = true ↔
  uval (lBlockNumber a) < uval (lBlockNumber b) ∨ lBlockNumber a = lBlockNumber b ∧
    (uval (lTxIndex a) < uval (lTxIndex b) ∨ lTxIndex a = lTxIndex b ∧ uval (lIndex a) < uval (lIndex b)).
Proof.
  unfold positionLess, ult. repeat case_bool_decide; cbn [negb]; rewrite ?uint_eq_iff in *;
    rewrite ?Z.ltb_lt; lia.
Qed.

Lemma positionLess_weak : weak_order positionLess.
Proof.
  assert (∀ a b, positionLess a b = false ↔ ¬ positionLess a b = true) as Hf.
  { intros a b. by rewrite not_true_iff_false. }
  split.
  - intros a b c. rewrite !Hf, !positionLess_iff, !uint_eq_iff. lia.
  - intros a b. rewrite Hf, !positionLess_iff, !uint_eq_iff. lia.
Qed.

Lemma positionLess_chain a b : positionLess b a = false → chain_le a b.
Proof.
  rewrite <-not_true_iff_false, positionLess_iff, !uint_eq_iff. unfold chain_le. lia.
Qed.

Section ordering.
Context `{LogJSONLaws, SortSliceLaws}.

(** The loop's state after the logs [before]. *)
Record collected (before : list Log) (seen : gmap string json) (out : list Log) : Prop := {
  co_seen id raw : seen !! id = Some raw ↔ ∃ l, l ∈ out ∧ position_id l = id ∧ Log_MarshalJSON l = raw;
  co_all l : l ∈ before → l ∈ out;
  co_sub : sublist out before;
  co_once l1 l2 : l1 ∈ out → l2 ∈ out → position l1 = position l2 → l1 = l2;
  co_NoDup : NoDup (position <$> out);
}.

Lemma collected_no_conflict before seen out : collected before seen out → ¬ conflict before.
Proof. intros [] (l1 & l2 & ? & ? & ? & Hne). apply Hne. eauto. Qed.

Lemma order_log_cases before seen out l :
  collected before seen out →
  (∃ seen' out', order_log (seen, out) l = Ok (seen', out') ∧ collected (before ++ [l]) seen' out') ∨
  (conflict (before ++ [l]) ∧ fails_with (order_log (seen, out) l) ErrFatal).
Proof.
  intros C. unfold order_log. destruct (seen !! position_id l) as [old|] eqn:E.
  - apply (co_seen _ _ _ C) in E as (l' & Hin & Hid%position_id_iff & <-).
    destruct (decide (l' = l)) as [->|Hne].
    + left. exists seen, out. rewrite bool_decide_true by done. split; [done|].
      destruct C. split; try done.
      * intros x [?|Hx%list_elem_of_singleton]%elem_of_app; [auto | by subst x].
      * by apply sublist_inserts_r.
    + right. rewrite bool_decide_false by (intros E; by apply Hne, Log_MarshalJSON_inj).
      split; [|apply fails_fatal]. exists l', l. split_and!; [| |done..].
      * apply elem_of_app. left. eapply elem_of_submseteq; [done|]. apply sublist_submseteq, C.
      * apply elem_of_app. right. by left.
  - left. eexists _, _. split; [done|].
    assert (∀ l', l' ∈ out → position l' ≠ position l) as Hnew.
    { intros l' Hl' Hp%position_id_iff. rewrite (proj2 (co_seen _ _ _ C _ (Log_MarshalJSON l'))) in E; [done|].
      by exists l'. }
    destruct C as [Cs Ca Csub Co Cn]. split.
    + intros id raw. rewrite lookup_insert_Some, Cs. setoid_rewrite elem_of_app.
      setoid_rewrite list_elem_of_singleton. split.
      * intros [[<- <-]|(_ & l' & ? & ? & ?)]; [exists l; auto | exists l'; auto].
      * intros (l' & [Hl'|Hl'] & Hid & Hr); [right | left; subst l'; by split].
        split; [|by exists l']. intros Hid'. apply (Hnew l' Hl'), position_id_iff. congruence.
    + intros x [Hx|Hx]%elem_of_app; apply elem_of_app; auto.
    + by apply sublist_app.
    + intros l1 l2 H1'%elem_of_app H2'%elem_of_app Hp. rewrite !list_elem_of_singleton in H1', H2'.
      destruct H1' as [?|Ea], H2' as [?|Eb]; subst; auto; exfalso; by eapply Hnew.
    + rewrite fmap_app, NoDup_app. split_and!; [done| |apply NoDup_singleton].
      intros p (l' & -> & Hl')%list_elem_of_fmap Hx%list_elem_of_singleton. by apply (Hnew l').
Qed.

Lemma conflict_mono l1 l2 : l1 ⊆ l2 → conflict l1 → conflict l2.
Proof. intros Hs (a & b & Ha & Hb & ?). exists a, b. auto. Qed.

Lemma order_logs_cases ls : ∀ before seen out,
  collected before seen out →
  (∃ seen' out', foldM order_log (seen, out) ls = Ok (seen', out') ∧ collected (before ++ ls) seen' out') ∨
  (conflict (before ++ ls) ∧ fails_with (foldM order_log (seen, out) ls) ErrFatal).
Proof.
  induction ls as [|l ls IH]; intros before seen out C; cbn [foldM].
  { left. rewrite app_nil_r. eauto. }
  rewrite (cons_middle l), app_assoc.
  destruct (order_log_cases before seen out l C) as [(s1 & o1 & -> & C1)|[Hc Hf]].
  - cbn [bind]. apply IH, C1.
  - right. split; [|by apply fails_bind]. eapply conflict_mono; [|done]. set_solver.
Qed.

(** [out] has every log of [logs] once, in the order of the chain. *)
Record ordered (logs out : list Log) : Prop := {
  od_same l : l ∈ out ↔ l ∈ logs;
  od_once : NoDup (position <$> out);
  od_sorted : StronglySorted chain_le out;
}.

Lemma orderedLogs_cases logs :
  (∃ out, ordered logs out ∧ ¬ conflict logs ∧ orderedLogs logs = Ok out) ∨
  (conflict logs ∧ fails_with (orderedLogs logs) ErrFatal).
Proof.
  pose proof (sort_Slice_Permutation positionLess logs) as Hp. unfold orderedLogs.
  destruct (order_logs_cases (sort_Slice positionLess logs) [] ∅ [])
    as [(s1 & out & -> & C)|[Hc Hf]].
  - split; try done; [|by intros l1 l2 ?%elem_of_nil | constructor].
    intros id raw. rewrite lookup_empty. split; [done|]. by intros (l & ?%elem_of_nil & _).
  - left. exists out. cbn [bind]. split; [|split; [|done]].
    + split.
      * intros l. rewrite <-Hp. split; [|apply C].
        intros Hl. eapply elem_of_submseteq; [done|]. apply sublist_submseteq, C.
      * apply C.
      * eapply StronglySorted_sublist; [apply C|].
        eapply StronglySorted_impl; [|apply sort_Slice_sorted, positionLess_weak]. apply positionLess_chain.
    + intros (l1 & l2 & Hl). apply collected_no_conflict in C. apply C.
      exists l1, l2. by rewrite app_nil_l, !Hp.
  - right. split; [|by apply fails_bind]. destruct Hc as (l1 & l2 & Hl).
    exists l1, l2. by rewrite app_nil_l, !Hp in Hl.
Qed.

Lemma ordered_unique logs out1 out2 : ordered logs out1 → ordered logs out2 → out1 = out2.
Proof.
  intros [S1 N1 O1] [S2 N2 O2].
  eapply (StronglySorted_unique_strong _ _ _ _ O1 O2).
  apply NoDup_Permutation; [by eapply NoDup_fmap_1..|]. intros l. by rewrite S1, S2.
  Unshelve. intros a b Ha Hb Lab Lba. simpl in *.
  assert (b ∈ out1) as Hb1 by by apply S1, S2.
  assert (position a = position b) as Hp.
  { destruct (chain_le_antisym a b Lab Lba) as (E1 & _ & E2). unfold position. by rewrite E1, E2. }
  apply list_elem_of_lookup in Ha as [i Hi], Hb1 as [j Hj].
  assert (i = j) as ->; [|congruence].
  apply (NoDup_lookup _ i j (position a) N1); rewrite list_lookup_fmap; [by rewrite Hi | by rewrite Hj, Hp].
Qed.

End ordering.
