(* ===== verification/AuthTheorems.v ===== *)
(** * The Inbox's senders: properties

    What a stored authorization may be, which sender is in effect, what the
    events of the sender managers mean, and in which order they apply. *)
From S2P Require Import Prelude Word Strconv Json Geth GoMap Pebble StoreTypes Config Logs LogFacts Auth AuthFacts.

Section theorems.
Context `{GethTextLaws, MapRangeLaws}.

(** [C16] [decodeAuth] decides which documents are authorizations: it accepts
    a document exactly when it holds an active manager and a table of batch
    and of blob senders for each known manager, no address in it is zero, and
    the active manager, if there is one, is known; then it returns that
    authorization.  Everything else, missing tables and null entries
    included, is a fatal error and never a nil dereference, in whatever order
    the maps are traversed. *)
Theorem decodeAuth_exact raw :
  (∃ y, stores raw y ∧ decodeAuth raw = Ok (of_authority y)) ∨
  ((∀ y, ¬ stores raw y) ∧ fails_with (decodeAuth raw) ErrFatal).
Proof. apply decodeAuth_cases. Qed.

(** [C38] Storing and loading an authorization, and cloning it, gives it back:
    a well-formed authorization survives its JSON text unchanged. *)
Theorem cloneAuth_roundtrip y :
  authority_ok y →
  decodeAuth (marshal (of_authority y)) = Ok (of_authority y) ∧
  cloneAuth (of_authority y) = Ok (of_authority y).
Proof. intros Hy. split; [by apply decodeAuth_stores, stores_marshal | by apply cloneAuth_Ok]. Qed.

(** [C36] The sender in effect: [sender] returns the one that the active
    manager announced, of the given kind, with the greatest effective height
    that is not above the block, and the configured one when there is none or
    no manager is active; that sender is unique, whatever the order in which
    the map is traversed. *)
Theorem sender_exact y height (blob : bool) initial s :
  sender (of_authority y) height blob initial = s ↔ acts y height blob initial s.
Proof.
  split; [intros <-; apply sender_acts|]. intros Hs.
  eapply acts_unique; [apply sender_acts | exact Hs].
Qed.

End theorems.

Section events.
Context `{ABILaws}.

(** [C15] What an authorization log does.  [apply] accepts a log exactly when
    it announces an event, a canonically encoded address change of the sender
    manager by the AddressManager, or a sender (height and kind in range, not
    zero, no dirty address bytes, no data) by any other contract, and the
    event is possible: the change starts from the active manager, the sender's
    manager is known.  The result is the event's effect, the last announcement
    for a height and kind wins, and every other log is a fatal error. *)
Theorem apply_exact y mgr l :
  lTopics l ≠ [] →
  (∃ y' ev, auth_log mgr l ev ∧ auth_step y ev = Some y' ∧
     apply (of_authority y) l mgr = Ok (of_authority y')) ∨
  ((∀ y' ev, auth_log mgr l ev → auth_step y ev ≠ Some y') ∧
   fails_with (apply (of_authority y) l mgr) ErrFatal).
Proof.
  intros Ht. destruct (apply_cases y mgr l Ht) as [(y' & (ev & Hl & Hs) & E)|[Hn Hf]]; [left | right].
  - by exists y', ev.
  - split; [|done]. intros y' ev Hl Hs. apply (Hn y'). by exists ev.
Qed.

(** [C37] Order does not matter to the answer, only to the events: the logs of
    a range are accepted exactly when no two different ones share a position,
    and then the result is the unique list that has each of them once, by
    block, transaction and log index, however the node ordered or repeated
    them. *)
Theorem orderedLogs_exact `{LogJSONLaws, SortSliceLaws} logs :
  (∃ out, ordered logs out ∧ ¬ conflict logs ∧ orderedLogs logs = Ok out ∧
     ∀ out', ordered logs out' → out' = out) ∨
  (conflict logs ∧ fails_with (orderedLogs logs) ErrFatal).
Proof.
  destruct (orderedLogs_cases logs) as [(out & Ho & Hc & E)|?]; [left | by right].
  exists out. split_and!; [done..|]. intros out' Ho'. by eapply ordered_unique.
Qed.

End events.

Module AuthWitness.

#[local] Existing Instances HexText.text HexText.laws AbiWords.abi AbiWords.abi_laws
  NumberLog.log_json NumberLog.log_json_laws sorted_range sorted_range_laws merge_slice merge_slice_laws.

Definition manager : Address := wrap 160 12.
Definition a1 : Address := wrap 160 31.
Definition a2 : Address := wrap 160 32.

(** The manager announced batch senders from blocks 5 and 10 on. *)
Definition y0 : authority :=
  mkAuthority manager {[manager := mkTables {[#64 5 := a1; #64 10 := a2]} ∅]}.

Lemma y0_ok : authority_ok y0.
Proof.
  split.
  - right. exists (mkTables {[#64 5 := a1; #64 10 := a2]} ∅). reflexivity.
  - apply map_Forall_singleton. split_and!; [done | | apply map_Forall_empty].
    apply map_Forall_insert_2; [done | by apply map_Forall_singleton].
Qed.

(** A known manager without tables. *)
Definition bare : json := marshal (mkAuthorization zero_address (Some {[manager := None]})).

Lemma decodeAuth_exact_witness :
  is_ok (decodeAuth bare) = false ∧
  ((∃ y, stores bare y ∧ decodeAuth bare = Ok (of_authority y)) ∨
   ((∀ y, ¬ stores bare y) ∧ fails_with (decodeAuth bare) ErrFatal)).
Proof. split; [vm_compute; reflexivity|]. apply decodeAuth_exact. Defined.

Lemma cloneAuth_roundtrip_witness :
  decodeAuth (marshal (of_authority y0)) = Ok (of_authority y0) ∧
  cloneAuth (of_authority y0) = Ok (of_authority y0).
Proof. apply cloneAuth_roundtrip, y0_ok. Defined.

Lemma sender_exact_witness :
  acts y0 (#64 9) false zero_address a1 ∧ acts y0 (#64 10) false zero_address a2 ∧
  acts y0 (#64 4) false a2 a2.
Proof. split_and!; apply sender_exact; vm_compute; reflexivity. Defined.

(** The manager announces a blob sender from block 7 on. *)
Definition announcement : Log :=
  mkLog manager [senderTopic; wrap 256 7; wrap 256 31; wrap 256 1] [] (#64 6) (wrap 256 1)
    (#64 0) (wrap 256 5) (#64 0) false (#64 0).

Lemma apply_exact_witness :
  is_ok (apply (of_authority y0) announcement (wrap 160 7)) = true ∧
  ((∃ y' ev, auth_log (wrap 160 7) announcement ev ∧ auth_step y0 ev = Some y' ∧
      apply (of_authority y0) announcement (wrap 160 7) = Ok (of_authority y')) ∨
   ((∀ y' ev, auth_log (wrap 160 7) announcement ev → auth_step y0 ev ≠ Some y') ∧
    fails_with (apply (of_authority y0) announcement (wrap 160 7)) ErrFatal)).
Proof. split; [vm_compute; reflexivity|]. apply apply_exact. done. Defined.

Definition at_log (index : Z) (data : bytes) : Log :=
  mkLog manager [senderTopic] data (#64 6) (wrap 256 1) (#64 0) (wrap 256 5) (#64 index) false (#64 0).
Definition logs : list Log := [at_log 2 []; at_log 1 []; at_log 2 []].

Lemma orderedLogs_exact_witness :
  orderedLogs logs = Ok [at_log 1 []; at_log 2 []] ∧
  ((∃ out, ordered logs out ∧ ¬ conflict logs ∧ orderedLogs logs = Ok out ∧
      ∀ out', ordered logs out' → out' = out) ∨
   (conflict logs ∧ fails_with (orderedLogs logs) ErrFatal)).
Proof. split; [vm_compute; reflexivity|]. apply orderedLogs_exact. Defined.

End AuthWitness.
