(* ===== verification/BlobWorld.v ===== *)
(** * The blob loop's calls (internal/blobingest: auth.go, syncer.go)

    The blob syncer's own state, its checked calls to the node, and how it
    finds the authorization logs of a range: address changes first, then the
    whole history of a manager it did not know, page by page, before its
    first use. *)
From S2P Require Import Prelude StateMonad Word Json Geth GoMap Pebble StoreTypes DepositStore BlobStore.
From S2P Require Import Config Status Service Logs Auth.

Record senderBackfill : Type := mkBackfill {
  sbBefore : u64;
  sbNext : u64;
  sbAnchor : Hash;
  sbAuth : authorization;
}.

Record bootstrap : Type := mkBlobBootstrap {
  boNext : u64;
  boAnchor : Hash;
  boAuth : authorization;
  boReady : bool;
}.

(** The fields of [Syncer] that change; both can be nil. *)
Record progress : Type := mkProgress {
  pgBootstrap : option bootstrap;
  pgBackfills : option (gmap Address senderBackfill);
}.
Definition no_progress : progress := mkProgress None None.

(** The calls only the blob syncer makes: blocks and receipts, and the frames
    of a transaction's blobs ([BlobSource]). *)
Class BlobEnv : Type := {
  rpc_BlockByNumber : nat → u64 → option EthBlock + error;
  rpc_BlockByHash : nat → Hash → option EthBlock + error;
  rpc_TransactionReceipt : nat → Hash → option Receipt + error;
  src_Frames : nat → Header → list Hash → list Frame + error;
}.

Definition errBackfillPending : error := Error [ErrBackfillPending] "sender history backfill pending".

(** One complaint of [senderLogs]; its topics are not empty here. *)
Definition check_sender_log `{ABI} (addresses : list Address) (from end_ : u64) (_ : unit) (l : Log) :
    result unit :=
  let! _ := validateLog l from end_ in
  fail_if negb (bool_decide (lAddress l ∈ addresses)) with fatal "unexpected sender log" ;;
  let! t0 := at_ (lTopics l) 0 in
  fail_if negb (bool_decide (t0 = senderTopic)) with fatal "unexpected sender log" ;;
  Ok tt.

(** The last block of a page of at most [batch] blocks that starts at [next]. *)
Definition page_end (next last batch : u64) : u64 :=
  if ule batch (usub last next) then usub (uadd next batch) (#64 1) else last.

Section calls.
Context `{GethText, ABI, LogJSON, SortSlice, MapRange}.
Context {D : Type} `{Env D}.
Notation M := (M D progress).

Definition header (n : u64) : M Header := checked_header (fatal "invalid Blob scan header") n.

(** Block [n] still has this hash. *)
Definition check (n : u64) (hash : Hash) : M unit :=
  do! h := header n in
  raise_if negb (bool_decide (hHash h = hash)) with fatal "Blob scan anchor changed" ;;
  ret tt.

Definition checkpoint (st : BlobState) : M unit :=
  do! _ :=
    match bsRetentionHeight st with
    | Some n => check n (bsRetentionHash st)
    | None => ret tt
    end in
  match bsHeight st with
  | None => ret tt
  | Some n => check n (bsHash st)
  end.

Definition set_backfills (m : option (gmap Address senderBackfill)) : M unit :=
  do! p := get_priv in set_priv (mkProgress (pgBootstrap p) m).
Definition set_bootstrap (b : option bootstrap) : M unit :=
  do! p := get_priv in set_priv (mkProgress b (pgBackfills p)).

Definition senderLogs (addresses : list Address) (from end_ : u64) : M (list Log) :=
  do! logs := FilterLogs (mkQuery from end_ addresses [[senderTopic]]) in
  do! _ := lift (foldM (check_sender_log addresses from end_) tt logs) in
  ret logs.

(** The progress of a manager's backfill for the scan that starts at
    [before]: a new one is anchored at the block before. *)
Definition ensure_backfill (address : Address) (before : u64) : M senderBackfill :=
  do! p := get_priv in
  let backfills := default ∅ (pgBackfills p) in
  do! _ := set_backfills (Some backfills) in
  let fresh :=
    do! h := header (usub before (#64 1)) in
    do! initial := lift (ensure newAuthorization address) in
    let q := mkBackfill before (#64 0) (hHash h) initial in
    do! _ := set_backfills (Some (<[address := q]> backfills)) in
    ret q in
  match backfills !! address with
  | Some q => if bool_decide (sbBefore q = before) then ret q else fresh
  | None => fresh
  end.

(** One page of the history; [s.backfills] holds a pointer to [q]. *)
Definition backfill_page (cfg : Config) (address : Address) (before : u64) (q : senderBackfill) :
    M senderBackfill :=
  let stop := page_end (sbNext q) (usub before (#64 1)) (cBatchSize cfg) in
  do! updated := lift (cloneAuth (sbAuth q)) in
  do! prior := senderLogs [address] (sbNext q) stop in
  do! prior := lift (orderedLogs prior) in
  do! updated := lift (foldM (λ a l, apply a l (cAddressManager cfg)) updated prior) in
  do! _ := check (usub before (#64 1)) (sbAnchor q) in
  let q := mkBackfill (sbBefore q) (uadd stop (#64 1)) (sbAnchor q) updated in
  do! p := get_priv in
  do! _ := set_backfills (Some (<[address := q]> (default ∅ (pgBackfills p)))) in
  ret q.

Definition backfillManager (cfg : Config) (a : authorization) (address : Address) (before : u64) :
    M authorization :=
  if bool_decide (before = #64 0) then lift (ensure a address) else
  do! q := ensure_backfill address before in
  do! _ := check (usub before (#64 1)) (sbAnchor q) in
  do! q := if ult (sbNext q) before then backfill_page cfg address before q else ret q in
  raise_if ult (sbNext q) before with errBackfillPending ;;
  do! copy := lift (cloneAuth (sbAuth q)) in
  do! m := lift (map_put (auKnown a) address (known copy address)) in
  ret (mkAuthorization (auManager a) m).

(** One address change of a range. *)
Definition discover (cfg : Config) (from end_ : u64) (a : authorization) (l : Log) : M authorization :=
  do! _ := lift (validateLog l from end_) in
  raise_if negb (bool_decide (lAddress l = cAddressManager cfg))
    with fatal "wrong AddressManager log" ;;
  do! ' (next, _) := lift (addressChange l) in
  if bool_decide (next = zero_address) || bool_decide (is_Some (known a next)) then ret a
  else backfillManager cfg a next from.

Definition manager_query (cfg : Config) (from end_ : u64) : FilterQuery :=
  mkQuery from end_ [cAddressManager cfg] [[EventID AddressSet]; [senderManagerName]].

(** The authorization logs of a range, in order; [a] learns the managers
    they name. *)
Definition authLogs (cfg : Config) (a : authorization) (from end_ : u64) :
    M (authorization * list Log) :=
  do! changes := FilterLogs (manager_query cfg from end_) in
  do! a := forM (discover cfg from end_) a changes in
  let addresses := map_keys (default ∅ (auKnown a)) in
  do! logs :=
    if bool_decide (addresses = []) then ret changes else
    do! logs := senderLogs addresses from end_ in ret (changes ++ logs) in
  do! logs := lift (orderedLogs logs) in
  ret (a, logs).

End calls.
