(* ===== verification/BlobWorldFacts.v ===== *)
(** * What the blob loop knows of the Inbox's senders

    The progress of a backfill is always the meaning of the pages read so
    far; [authLogs] returns the logs of a range in order together with an
    authorization that knows every manager they name. *)
From S2P Require Import Prelude StateMonad Word Json Geth GoMap Pebble StoreTypes DepositStore BlobStore.
From S2P Require Import Config Status Service ServiceFacts Logs LogFacts Auth AuthFacts BlobWorld.

(** A manager without any announcement yet. *)
Definition fresh_authority (a : Address) : authority :=
  mkAuthority zero_address {[a := mkTables ∅ ∅]}.

Lemma ensure_Ok y a :
  ensure (of_authority y) a = Ok (of_authority (mkAuthority (ay_manager y)
    (if decide (is_Some (ay_known y !! a)) then ay_known y
     else <[a := mkTables ∅ ∅]> (ay_known y)))).
Proof.
  unfold ensure. rewrite known_of. case_decide as Hd.
  - destruct Hd as [t ->]. by destruct y.
  - apply eq_None_not_Some in Hd as ->. simpl. unfold of_authority. simpl. by rewrite fmap_insert.
Qed.

Lemma ensure_fresh a : ensure newAuthorization a = Ok (of_authority (fresh_authority a)).
Proof. rewrite <-of_empty, ensure_Ok. case_decide as Hd; [by destruct Hd|done]. Qed.

Lemma fresh_authority_ok a : a ≠ zero_address → authority_ok (fresh_authority a).
Proof.
  intros Ha. split; [by left|]. apply map_Forall_singleton.
  split_and!; [done | apply map_Forall_empty..].
Qed.

Lemma page_end_spec (next last batch : u64) :
  0 < uval batch → uval next <= uval last →
  uval next <= uval (page_end next last batch) <= uval last ∧
  uval (page_end next last batch) - uval next < uval batch.
Proof.
  intros Hb Hn. unfold page_end, ule. pose proof (uint_range last). pose proof (uint_range next).
  pose proof (uint_range batch). change (modulus 64) with (2 ^ 64) in *.
  assert (uval (usub last next) = uval last - uval next) as ->
    by (unfold usub; apply uval_wrap_small; change (modulus 64) with (2 ^ 64); lia).
  destruct (Z.leb_spec (uval batch) (uval last - uval next)); [|lia].
  assert (uval (usub (uadd next batch) (#64 1)) = uval next + uval batch - 1) as ->; [|lia].
  unfold usub, uadd. rewrite uval_wrap, (uval_wrap_small 64 (uval next + uval batch))
    by (change (modulus 64) with (2 ^ 64); lia).
  change (uval (#64 1)) with 1. apply Z.mod_small. change (modulus 64) with (2 ^ 64). lia.
Qed.

Section facts.
Context `{ABILaws, GethTextLaws, SortSliceLaws, LogJSONLaws, MapRangeLaws}.
Context {D : Type} `{!Env D} {K : Store D → Store D → Prop} `{!Keeps K}.
Context (cfg : Config).

Notation world := (world D progress).
Notation mgr := (cAddressManager cfg).

(** ** The invariant of the loop's own state *)

(** The logs of the manager [a] in [[from..stop]], as the node reported them
    at some time, in order. *)
Definition page_logs (a : Address) (from stop : u64) (ls : list Log) : Prop :=
  ∃ t raw, rpc_FilterLogs (D := D) t (mkQuery from stop [a] [[senderTopic]]) = inl raw ∧
    Forall (λ l, uval from <= uval (lBlockNumber l) <= uval stop ∧ lAddress l = a) raw ∧
    ordered raw ls.

(** The logs of the manager [a] in the blocks below [n], read in pages. *)
Inductive paged (a : Address) : Z → list Log → Prop :=
  | paged_start : paged a 0 []
  | paged_next n stop ls page :
      paged a (uval n) ls → uval n <= uval stop → page_logs a n stop page →
      paged a (uval stop + 1) (ls ++ page).

(** What the manager [a] announced in the blocks below [n]. *)
Definition announced (a : Address) (n : Z) (t : tables) : Prop :=
  ∃ ls y, paged a n ls ∧ history mgr (fresh_authority a) ls y ∧ ay_known y !! a = Some t.

Record backfill_ok (a : Address) (q : senderBackfill) : Prop := {
  bk_before : 0 < uval (sbBefore q);
  bk_next : uval (sbNext q) <= uval (sbBefore q);
  bk_zero : a ≠ zero_address;
  bk_auth : ∃ ls y, sbAuth q = of_authority y ∧ authority_ok y ∧
    (∀ b, is_Some (ay_known y !! b) ↔ b = a) ∧
    paged a (uval (sbNext q)) ls ∧ history mgr (fresh_authority a) ls y;
}.

(** ** The logs of a range *)

(** [y'] is [y] with more managers, each with its history before [from]. *)
Record learnt (from : Z) (y y' : authority) : Prop := {
  ln_ok : authority_ok y';
  ln_manager : ay_manager y' = ay_manager y;
  ln_old a t : ay_known y !! a = Some t → ay_known y' !! a = Some t;
  ln_new a t : ay_known y' !! a = Some t → ay_known y !! a = Some t ∨ announced a from t;
}.

(** A log of the range that [apply] can interpret. *)
Definition usable (y : authority) (from end_ : u64) (l : Log) : Prop :=
  uval from <= uval (lBlockNumber l) <= uval end_ ∧ lTopics l ≠ [] ∧ covered mgr y l.

(** What [authLogs] finds for [[from..end_]]: the node's reports of the
    address changes and of the logs of all managers that are then known, in
    order, and an authority that [apply] can take through them. *)
Record found (y : authority) (from end_ : u64) (y' : authority) (logs : list Log) : Prop := {
  fd_learnt : learnt (uval from) y y';
  fd_usable : Forall (usable y' from end_) logs;
  fd_replies : ∃ t changes sent,
    rpc_FilterLogs (D := D) t (manager_query cfg from end_) = inl changes ∧
    (ay_known y' = ∅ ∧ sent = [] ∨ ∃ t' addresses, (t < t')%nat ∧
      rpc_FilterLogs (D := D) t' (mkQuery from end_ addresses [[senderTopic]]) = inl sent ∧
      ∀ a, a ∈ addresses ↔ is_Some (ay_known y' !! a)) ∧
    ordered (changes ++ sent) logs;
}.

(** The authority that the chain below a block announces, read in ranges. *)
Inductive authority_before : Z → authority → Prop :=
  | before_start : authority_before 0 empty_authority
  | before_next n stop y y1 logs y2 :
      authority_before (uval n) y → uval n <= uval stop → found y n stop y1 logs →
      history mgr y1 logs y2 → authority_before (uval stop + 1) y2.

(** The bootstrap has read the blocks below its next one. *)
Definition bootstrap_ok (b : bootstrap) : Prop :=
  ∃ y, boAuth b = of_authority y ∧ authority_ok y ∧ authority_before (uval (boNext b)) y ∧
    if boReady b then boNext b = cInboxStart cfg else uval (boNext b) < uval (cInboxStart cfg).

Record progress_ok (p : progress) : Prop := {
  pk_backfills : ∀ m, pgBackfills p = Some m → map_Forall backfill_ok m;
  pk_bootstrap : ∀ b, pgBootstrap p = Some b → bootstrap_ok b;
}.

Lemma no_progress_ok : progress_ok no_progress.
Proof. by split. Qed.

Notation wp := (wp (good progress_ok) (calm_with K)).

(** ** Checks *)

Lemma wp_check (Q : world → unit → Prop) n hash w :
  (∀ w' h, saw_header (D := D) (wClock w) (wClock w') n h → hHash h = hash →
     calm_with K w w' → wPriv w' = wPriv w → Q w' tt) →
  wp Q (check n hash) w.
Proof.
  intros HQ. apply wp_bind; [apply _|]. apply wp_header. intros w' h Hs _ Hc Hp.
  apply wp_raise; [apply _|]. intros Hh. apply wp_ret; [apply _|]. intros _. bool_to_prop. by eapply HQ.
Qed.

(** The recorded anchors of a checkpoint were seen. *)
Definition anchored (t1 t2 : nat) (st : BlobState) : Prop :=
  (∀ n, bsRetentionHeight st = Some n → ∃ h, saw_header (D := D) t1 t2 n h ∧ hHash h = bsRetentionHash st) ∧
  (∀ n, bsHeight st = Some n → ∃ h, saw_header (D := D) t1 t2 n h ∧ hHash h = bsHash st).

Lemma wp_checkpoint (Q : world → unit → Prop) st w :
  (∀ w', anchored (wClock w) (wClock w') st → calm_with K w w' → wPriv w' = wPriv w → Q w' tt) →
  wp Q (checkpoint st) w.
Proof.
  intros HQ. apply wp_bind; [apply _|].
  assert (wp (λ w1 _, (∀ n, bsRetentionHeight st = Some n →
      ∃ h, saw_header (D := D) (wClock w) (wClock w1) n h ∧ hHash h = bsRetentionHash st) ∧
      calm_with K w w1 ∧ wPriv w1 = wPriv w)
    (match bsRetentionHeight st with
     | Some n => check n (bsRetentionHash st) | None => ret tt end) w) as H1'.
  { destruct (bsRetentionHeight st) as [n|].
    - apply wp_check. intros w1 h Hs Hh Hc Hp. split_and!; [|done..]. intros n' [= <-]. eauto.
    - apply wp_ret; [apply _|]. intros _. by split_and!. }
  eapply wp_mono; [exact H1'|]. intros w1 _ _ _ (Hr & Hc1 & Hp1).
  assert (∀ w2, calm_with K w1 w2 → ∀ n, bsRetentionHeight st = Some n →
    ∃ h, saw_header (D := D) (wClock w) (wClock w2) n h ∧ hHash h = bsRetentionHash st) as Hr2.
  { intros w2 Hc2 n Hn. destruct (Hr n Hn) as (h & Hs & Hh). exists h. split; [|done].
    eapply saw_header_mono; [| |exact Hs]; [lia | apply Hc2]. }
  destruct (bsHeight st) as [n|] eqn:E.
  - apply wp_check. intros w2 h Hs Hh Hc2 Hp2. apply HQ.
    + split; [by apply Hr2|]. intros n' Hn'. rewrite E in Hn'. injection Hn' as <-. exists h.
      split; [|done]. eapply saw_header_mono; [| |exact Hs]; [apply Hc1 | lia].
    + by etrans.
    + congruence.
  - apply wp_ret; [apply _|]. intros _. apply HQ; [|done..].
    split; [by apply Hr2|]. congruence.
Qed.

(** ** The logs of managers *)

Lemma check_sender_log_Ok addresses from end_ l :
  check_sender_log addresses from end_ tt l ≠ Panic ∧
  (check_sender_log addresses from end_ tt l = Ok tt →
   uval from <= uval (lBlockNumber l) <= uval end_ ∧ lAddress l ∈ addresses ∧
   head (lTopics l) = Some senderTopic).
Proof.
  unfold check_sender_log, validateLog. destruct (_ || _ || _ || _) eqn:E; [done|].
  apply orb_false_iff in E as [[[_ E1]%orb_false_iff E2]%orb_false_iff E3].
  unfold ult, len in *. bool_to_prop. cbn [bind]. destruct (negb _) eqn:Ea; [done|]. bool_to_prop.
  destruct (lTopics l) as [|t ts]; [done|]. change (at_ (t :: ts) 0) with (Ok t). cbn [bind head].
  destruct (negb _) eqn:Et; [done|]. bool_to_prop. split; [done|]. intros _. subst t. split_and!; try done; lia.
Qed.

(** A log of a sender manager. *)
Definition sender_log (addresses : list Address) (from end_ : u64) (l : Log) : Prop :=
  uval from <= uval (lBlockNumber l) <= uval end_ ∧ lAddress l ∈ addresses ∧
  head (lTopics l) = Some senderTopic.

Lemma wp_senderLogs (Q : world → list Log → Prop) addresses from end_ w :
  (∀ w' logs t, (wClock w < t <= wClock w')%nat →
     rpc_FilterLogs (D := D) t (mkQuery from end_ addresses [[senderTopic]]) = inl logs →
     Forall (sender_log addresses from end_) logs → calm_with K w w' → wPriv w' = wPriv w → Q w' logs) →
  wp Q (senderLogs addresses from end_) w.
Proof.
  intros HQ. apply wp_bind; [apply _|]. apply wp_answer. intros w1 logs Hc1 Hf Hcalm Hp.
  apply wp_bind; [apply _|]. apply wp_lift; [apply _| |].
  { apply foldM_no_panic. intros [] l. apply check_sender_log_Ok. }
  intros [] Hall _. apply wp_ret; [apply _|]. intros _.
  apply (HQ w1 logs (wClock w1)); [lia | done | | done..].
  clear -Hall. apply Forall_forall. intros l Hl.
  assert (∀ ls, foldM (check_sender_log addresses from end_) tt ls = Ok tt → l ∈ ls →
    check_sender_log addresses from end_ tt l = Ok tt) as Hin.
  { induction ls as [|l' ls IH]; [by intros _ ?%elem_of_nil|]. cbn [foldM].
    intros ([] & H1' & H2')%bind_Ok_inv [->|?]%elem_of_cons; auto. }
  by apply check_sender_log_Ok, (Hin logs).
Qed.

Lemma sender_log_covered addresses from end_ y l : sender_log addresses from end_ l → covered mgr y l.
Proof.
  intros (_ & _ & Ht) old next [[_ Hh] _]. rewrite Ht in Hh. injection Hh as Hh.
  by destruct EventID_distinct.
Qed.

Lemma sender_log_topics addresses from end_ l : sender_log addresses from end_ l → lTopics l ≠ [].
Proof. intros (_ & _ & Ht) E. by rewrite E in Ht. Qed.

Lemma apply_all_no_panic y ls : Forall (λ l, lTopics l ≠ []) ls → apply_all mgr (of_authority y) ls ≠ Panic.
Proof.
  intros Hls. destruct (apply_all_cases mgr ls y Hls) as [(y' & _ & ->)|[_ Hf]]; [done|].
  by eapply fails_no_panic.
Qed.

Lemma apply_all_Ok y ls a :
  Forall (λ l, lTopics l ≠ []) ls → apply_all mgr (of_authority y) ls = Ok a →
  ∃ y', a = of_authority y' ∧ history mgr y ls y'.
Proof.
  intros Hls E. destruct (apply_all_cases mgr ls y Hls) as [(y' & Hh & E')|[_ (e & E' & _)]];
    rewrite E in E'; [|done]. injection E' as ->. by exists y'.
Qed.

Lemma orderedLogs_no_panic logs : orderedLogs logs ≠ Panic.
Proof.
  destruct (orderedLogs_cases logs) as [(out & _ & _ & ->)|[_ Hf]]; [done | by eapply fails_no_panic].
Qed.

Lemma orderedLogs_Ok logs out : orderedLogs logs = Ok out → ordered logs out.
Proof.
  intros E. destruct (orderedLogs_cases logs) as [(out' & Ho & _ & E')|[_ (e & E' & _)]];
    rewrite E in E'; [|done]. by injection E' as ->.
Qed.

Lemma ordered_Forall (P : Log → Prop) logs out : ordered logs out → Forall P logs → Forall P out.
Proof. intros Ho Hl. rewrite Forall_forall in Hl |- *. intros l Hin%(od_same _ _ Ho). auto. Qed.


(** ** Backfilling a manager *)

Lemma wp_set_backfills (Q : world → unit → Prop) m w :
  (∀ m', m = Some m' → map_Forall backfill_ok m') →
  (∀ w', calm_with K w w' → wPriv w' = mkProgress (pgBootstrap (wPriv w)) m → Q w' tt) →
  wp Q (set_backfills m) w.
Proof.
  intros Hm HQ. apply wp_bind; [apply _|]. apply wp_get_priv. intros [_ Hb].
  apply wp_set_priv; [by split|]. intros w' Hc _ Hp. by apply HQ.
Qed.

Lemma insert_backfill p a q :
  progress_ok p → backfill_ok a q → map_Forall backfill_ok (<[a := q]> (default ∅ (pgBackfills p))).
Proof.
  intros [Hp _] Hq. apply map_Forall_insert_2; [done|].
  destruct (pgBackfills p) as [m|]; [by apply Hp | apply map_Forall_empty].
Qed.

(** Nothing of the loop's own state but the backfills changes. *)
Definition keeps_bootstrap (w w' : world) : Prop :=
  pgBootstrap (wPriv w') = pgBootstrap (wPriv w).

Lemma wp_ensure_backfill (Q : world → senderBackfill → Prop) a before w :
  a ≠ zero_address → 0 < uval before →
  (∀ w' q, backfill_ok a q → sbBefore q = before → calm_with K w w' → keeps_bootstrap w w' → Q w' q) →
  wp Q (ensure_backfill a before) w.
Proof.
  intros Ha Hb HQ. apply wp_bind; [apply _|]. apply wp_get_priv. intros Hp.
  set (m := default ∅ (pgBackfills (wPriv w))).
  assert (map_Forall backfill_ok m) as Hm.
  { unfold m. destruct Hp as [Hp _]. destruct (pgBackfills (wPriv w)) as [m0|]; [by apply Hp | apply map_Forall_empty]. }
  apply wp_bind; [apply _|]. apply wp_set_backfills; [by intros ? [= <-]|]. intros w1 C1 P1.
  match goal with |- wp _ (let _ := ?f in _) _ => set (fresh := f) end. cbv zeta.
  assert (wp Q fresh w1) as Hfresh.
  { apply wp_bind; [apply _|]. apply wp_header. intros w2 h _ _ C2 P2.
    apply wp_bind; [apply _|]. rewrite ensure_fresh. apply wp_lift; [apply _ | done|].
    intros y [= <-] _. apply wp_bind; [apply _|].
    assert (backfill_ok a (mkBackfill before (#64 0) (hHash h) (of_authority (fresh_authority a)))) as Hok.
    { split; cbn [sbBefore sbNext sbAuth]; try done.
      - change (uval (#64 0)) with 0. lia.
      - exists [], (fresh_authority a). split_and!; [done | by apply fresh_authority_ok| | constructor | constructor].
        intros b. simpl. rewrite lookup_singleton_is_Some. by split. }
    apply wp_set_backfills.
    { intros m' [= <-]. by apply map_Forall_insert_2. }
    intros w3 C3 P3. apply wp_ret; [apply _|]. intros _. apply HQ; [done | done | |].
    - etrans; [exact C1|]. by etrans.
    - unfold keeps_bootstrap. rewrite P3, P2, P1. done. }
  destruct (m !! a) as [q|] eqn:Eq; [|done]. case_bool_decide as Hbef; [|done].
  apply wp_ret; [apply _|]. intros _. apply HQ; [by apply Hm | done | done|].
  unfold keeps_bootstrap. by rewrite P1.
Qed.

Lemma wp_lift_bind {A A'} (Q : world → A' → Prop) (r : result A) (k : A → M D progress A') w :
  r ≠ Panic → (∀ a, r = Ok a → wp Q (k a) w) → wp Q (mbind (lift r) k) w.
Proof. intros Hr Hk. apply wp_bind; [apply _|]. apply wp_lift; [apply _ | done|]. auto. Qed.

Lemma wp_backfill_page (Q : world → senderBackfill → Prop) a before q w :
  0 < uval (cBatchSize cfg) → backfill_ok a q → sbBefore q = before → uval (sbNext q) < uval before →
  (∀ w' q', backfill_ok a q' → sbBefore q' = before → uval (sbNext q) < uval (sbNext q') →
     calm_with K w w' → keeps_bootstrap w w' → Q w' q') →
  wp Q (backfill_page cfg a before q) w.
Proof.
  intros Hbatch Hq Hbef Hnext HQ. destruct (bk_auth _ _ Hq) as (ls & y & Ea & Hy & Hdom & Hpg & Hh).
  unfold backfill_page. set (stop := page_end _ _ _).
  pose proof (uint_range before) as Hr. change (modulus 64) with (2 ^ 64) in Hr.
  pose proof (uint_range (sbNext q)).
  assert (uval (usub before (#64 1)) = uval before - 1) as Hlast.
  { unfold usub. change (uval (#64 1)) with 1. apply uval_wrap_small. change (modulus 64) with (2 ^ 64). lia. }
  destruct (page_end_spec (sbNext q) (usub before (#64 1)) (cBatchSize cfg)) as [Hstop _]; [done | lia|].
  fold stop in Hstop.
  assert (uval (uadd stop (#64 1)) = uval stop + 1) as Hsucc.
  { unfold uadd. change (uval (#64 1)) with 1. apply uval_wrap_small. change (modulus 64) with (2 ^ 64). lia. }
  apply wp_lift_bind; rewrite Ea, cloneAuth_Ok by done; [done|]. intros ? [= <-].
  apply wp_bind; [apply _|]. apply wp_senderLogs. intros w1 raw t Ht Hf Hraw C1 P1.
  apply wp_lift_bind; [apply orderedLogs_no_panic|]. intros page Hpage%orderedLogs_Ok.
  pose proof (ordered_Forall _ _ _ Hpage Hraw) as Hlogs.
  apply wp_lift_bind.
  { apply apply_all_no_panic. eapply Forall_impl; [exact Hlogs|]. intros l. apply sender_log_topics. }
  intros updated Hup. apply apply_all_Ok in Hup as (y' & -> & Hh').
  2:{ eapply Forall_impl; [exact Hlogs|]. intros l. apply sender_log_topics. }
  assert (authority_ok y') as Hy'.
  { eapply history_ok; [exact Hy | | exact Hh']. eapply Forall_impl; [exact Hlogs|].
    intros l. apply sender_log_covered. }
  apply wp_bind; [apply _|]. apply wp_check. intros w2 h _ _ C2 P2.
  apply wp_bind; [apply _|]. apply wp_get_priv. intros Hp. apply wp_bind; [apply _|].
  set (q' := mkBackfill _ _ _ _).
  assert (backfill_ok a q') as Hq'.
  { split; unfold q'; cbn [sbBefore sbNext sbAuth]; [apply Hq | rewrite Hbef; lia | apply Hq|].
    exists (ls ++ page), y'. split_and!; [done | done | | |].
    - intros b. rewrite <-Hdom. symmetry. by eapply history_known.
    - rewrite Hsucc. apply paged_next with (n := sbNext q); [done | lia|].
      exists t, raw. split; [done|]. split; [|done]. eapply Forall_impl; [exact Hraw|].
      intros l (? & ?%list_elem_of_singleton & _). done.
    - apply history_app. by exists y. }
  apply wp_set_backfills.
  { intros m' [= <-]. by apply insert_backfill. }
  intros w3 C3 P3. apply wp_ret; [apply _|]. intros _. apply HQ; [done | done | unfold q'; cbn [sbNext]; lia | |].
  - etrans; [exact C1|]. by etrans.
  - unfold keeps_bootstrap. rewrite P3, P2, P1. done.
Qed.

(** The authority that also knows the manager [a] with the tables [t]. *)
Definition learn (y : authority) (a : Address) (t : tables) : authority :=
  mkAuthority (ay_manager y) (<[a := t]> (ay_known y)).

Lemma history_no_zero ls a y t :
  authority_ok y → ay_known y !! a = Some t → history mgr (fresh_authority a) ls y →
  a ≠ zero_address ∧ no_zero (tb_batch t) ∧ no_zero (tb_blob t).
Proof. intros [_ Hk] Ht _. by apply (Hk a t). Qed.

Lemma learn_ok y a t :
  authority_ok y → a ≠ zero_address → no_zero (tb_batch t) → no_zero (tb_blob t) →
  authority_ok (learn y a t).
Proof.
  intros [Hm Hk] Ha Hb Hx. split; simpl.
  - destruct Hm as [?|Hm]; [by left | right]. rewrite lookup_insert_is_Some.
    destruct (decide (a = ay_manager y)); auto.
  - by apply map_Forall_insert_2.
Qed.

Lemma known_learn y a t : of_authority (learn y a t) =
  mkAuthorization (ay_manager y) (Some (<[a := Some (of_tables t)]> (Some ∘ of_tables <$> ay_known y))).
Proof. unfold of_authority. simpl. by rewrite fmap_insert. Qed.

(** A manager is learnt with the meaning of its whole history. *)
Lemma wp_backfillManager (Q : world → authorization → Prop) y a before w :
  0 < uval (cBatchSize cfg) → authority_ok y → a ≠ zero_address → ay_known y !! a = None →
  (∀ w' t, announced a (uval before) t → authority_ok (learn y a t) →
     calm_with K w w' → keeps_bootstrap w w' → Q w' (of_authority (learn y a t))) →
  wp Q (backfillManager cfg (of_authority y) a before) w.
Proof.
  intros Hbatch Hy Ha Hnone HQ. unfold backfillManager. case_bool_decide as Hz.
  { rewrite ensure_Ok. apply wp_lift; [apply _ | done|]. intros a' [= <-] _.
    rewrite Hnone. case_decide as Hd; [by destruct Hd|].
    apply (HQ w (mkTables ∅ ∅)); [| |done..].
    - exists [], (fresh_authority a). subst before. split_and!; [constructor | constructor|].
      apply lookup_singleton_eq.
    - apply learn_ok; [done | done | apply map_Forall_empty..]. }
  assert (0 < uval before) as Hb.
  { pose proof (uint_range before). destruct (decide (uval before = 0)) as [E|]; [|lia].
    destruct Hz. by apply uint_eq. }
  apply wp_bind; [apply _|]. apply wp_ensure_backfill; [done | done|]. intros w1 q Hq Hbef C1 B1.
  apply wp_bind; [apply _|]. apply wp_check. intros w2 h _ _ C2 P2.
  apply wp_bind; [apply _|].
  assert (wp (λ w3 q', backfill_ok a q' ∧ sbBefore q' = before ∧ calm_with K w w3 ∧ keeps_bootstrap w w3)
    (if ult (sbNext q) before then backfill_page cfg a before q else ret q) w2) as H3'.
  { assert (calm_with K w w2) as C12 by by etrans.
    assert (keeps_bootstrap w w2) as B12 by (unfold keeps_bootstrap in *; congruence).
    destruct (ult (sbNext q) before) eqn:Hlt.
    - unfold ult in Hlt. bool_to_prop. apply wp_backfill_page; [done..|].
      intros w3 q' Hq' Hbef' _ C3 B3. split_and!; [done | done | by etrans |].
      unfold keeps_bootstrap in *. congruence.
    - apply wp_ret; [apply _|]. by intros _. }
  eapply wp_mono; [exact H3'|]. intros w3 q' _ _ (Hq' & Hbef' & C3 & B3).
  apply wp_raise; [apply _|]. intros Hlt. unfold ult in Hlt. bool_to_prop.
  destruct (bk_auth _ _ Hq') as (ls & y' & Ea & Hy' & Hdom & Hpg & Hh).
  apply wp_lift_bind; rewrite Ea, cloneAuth_Ok by done; [done|]. intros ? [= <-].
  destruct (proj2 (Hdom a) eq_refl) as [t Ht]. rewrite known_of, Ht. simpl.
  apply wp_lift_bind; [done|]. intros m [= <-].
  apply wp_ret; [apply _|]. intros _. rewrite <-known_learn.
  destruct (history_no_zero _ _ _ _ Hy' Ht Hh) as (_ & Hb1 & Hb2).
  apply HQ; [|by apply learn_ok|done..].
  exists ls, y'. split_and!; [|done..].
  assert (uval (sbNext q') = uval before) as <-; [|done].
  pose proof (bk_next _ _ Hq'). rewrite Hbef' in *. lia.
Qed.


(** ** Learning the managers of a range *)

Lemma learnt_refl from y : authority_ok y → learnt from y y.
Proof. intros Hy. split; auto. Qed.

Lemma learnt_learn from y y1 a t :
  learnt from y y1 → authority_ok (learn y1 a t) → ay_known y1 !! a = None → announced a from t →
  learnt from y (learn y1 a t).
Proof.
  intros [_ Hm Ho Hn] Hok Hnone Ha. split; [done | done | |]; simpl.
  - intros b u Hb. apply Ho in Hb as Hb'. rewrite lookup_insert_ne; [done|]. congruence.
  - intros b u. rewrite lookup_insert_Some. intros [[<- <-]|[_ Hb]]; [by right | by apply Hn].
Qed.

Lemma usable_mono from end_ y y' z l : learnt z y y' → usable y from end_ l → usable y' from end_ l.
Proof.
  intros Hl (Hr & Ht & Hc). split_and!; [lia | lia | done |]. intros old next Hev.
  destruct (Hc old next Hev) as [?|[t Hn]]; [by left | right]. exists t. by apply (ln_old _ _ _ Hl).
Qed.

Lemma validate_auth_log l from end_ :
  validateLog l from end_ ≠ Panic ∧
  (validateLog l from end_ = Ok tt →
   uval from <= uval (lBlockNumber l) <= uval end_ ∧ lTopics l ≠ []).
Proof.
  unfold validateLog. destruct (_ || _ || _ || _) eqn:E; [done|]. split; [done|]. intros _.
  apply orb_false_iff in E as [[[_ E1]%orb_false_iff E2]%orb_false_iff E3].
  unfold ult, len in *. bool_to_prop. split; [lia|]. intros Ht. by rewrite Ht in E3.
Qed.

Lemma addressChange_no_panic l : addressChange l ≠ Panic.
Proof.
  destruct (addressChange_cases l) as [(? & ? & _ & ->)|[_ Hf]]; [done | by eapply fails_no_panic].
Qed.

Lemma change_covered y l old next :
  change_log l old next → next = zero_address ∨ is_Some (ay_known y !! next) → covered mgr y l.
Proof. intros Hl Hk o n [_ Hc]. by destruct (change_log_unique _ _ _ _ _ Hl Hc) as [-> ->]. Qed.

Lemma wp_discover (Q : world → authorization → Prop) from end_ y y1 l w :
  0 < uval (cBatchSize cfg) → learnt (uval from) y y1 →
  (∀ w' y2, learnt (uval from) y y2 → learnt (uval from) y1 y2 → usable y2 from end_ l →
     calm_with K w w' → keeps_bootstrap w w' → Q w' (of_authority y2)) →
  wp Q (discover cfg from end_ (of_authority y1) l) w.
Proof.
  intros Hbatch Hl HQ. destruct (validate_auth_log l from end_) as [Hnp Hval].
  apply wp_lift_bind; [done|]. intros [] [Hr Ht]%Hval.
  apply wp_raise; [apply _|]. intros _. apply wp_lift_bind; [apply addressChange_no_panic|].
  intros [next old] Hc.
  assert (change_log l old next) as Hcl.
  { destruct (addressChange_cases l) as [(o & n & Hcl & E)|[_ (e & E & _)]]; rewrite Hc in E; [|done].
    by injection E as -> ->. }
  rewrite known_of. destruct (_ || _) eqn:Ek.
  - apply wp_ret; [apply _|]. intros _. apply HQ; [done | apply learnt_refl, Hl | | done..].
    split_and!; [lia | lia | done|]. eapply change_covered; [done|].
    apply orb_true_iff in Ek as [Ek|Ek]; bool_to_prop; [by left | right].
    destruct (ay_known y1 !! next); [done | by destruct Ek].
  - bool_to_prop. assert (ay_known y1 !! next = None) as Hnone.
    { destruct (ay_known y1 !! next) as [t|]; [|done]. exfalso. simpl in *.
      match goal with Hn : ¬ is_Some _ |- _ => by destruct Hn end. }
    apply wp_backfillManager; [done | apply Hl | done | done|].
    intros w' t Ha Hok C B. apply HQ; [by apply learnt_learn | | | done..].
    + apply learnt_learn; [apply learnt_refl, Hl | done..].
    + split_and!; [lia | lia | done|]. eapply change_covered; [done|]. right. simpl.
      by rewrite lookup_insert_eq.
Qed.

Lemma map_keys_of y a : a ∈ map_keys (default ∅ (auKnown (of_authority y))) ↔ is_Some (ay_known y !! a).
Proof. rewrite elem_of_map_keys. simpl. by rewrite lookup_fmap, fmap_is_Some. Qed.

Lemma wp_authLogs (Q : world → authorization * list Log → Prop) y from end_ w :
  0 < uval (cBatchSize cfg) → authority_ok y →
  (∀ w' y' logs, found y from end_ y' logs → calm_with K w w' → keeps_bootstrap w w' →
     Q w' (of_authority y', logs)) →
  wp Q (authLogs cfg (of_authority y) from end_) w.
Proof.
  intros Hbatch Hy HQ. apply wp_bind; [apply _|]. apply wp_answer. intros w1 changes Hc1 Hch C1 P1.
  apply wp_bind; [apply _|].
  eapply wp_mono.
  { apply (wp_forM _ _ _ (λ before w2 a, ∃ y2, a = of_authority y2 ∧ learnt (uval from) y y2 ∧
      Forall (usable y2 from end_) before ∧ calm_with K w1 w2 ∧ keeps_bootstrap w1 w2) changes).
    - exists y. split_and!; [done | by apply learnt_refl | done..].
    - intros before l post a w2 _ (y2 & -> & Hl2 & Hu & C2 & B2).
      apply (wp_discover _ from end_ y y2); [done | done|].
      intros w3 y3 Hl3 Hl23 Hul C3 B3. exists y3. split_and!; [done | done | | by etrans |].
      + apply Forall_app. split; [|by constructor]. eapply Forall_impl; [exact Hu|].
        intros l'. by apply usable_mono with (z := uval from).
      + unfold keeps_bootstrap in *. congruence. }
  intros w2 a _ _ (y2 & -> & Hl2 & Hu & C2 & B2). cbv zeta.
  pose proof (map_keys_of y2) as Hkeys.
  set (addresses := map_keys _) in *.
  apply wp_bind; [apply _|].
  assert (wp (λ w3 logs, ∃ sent, logs = changes ++ sent ∧ Forall (usable y2 from end_) logs ∧
      (ay_known y2 = ∅ ∧ sent = [] ∨ ∃ t', (wClock w1 < t')%nat ∧
        rpc_FilterLogs (D := D) t' (mkQuery from end_ addresses [[senderTopic]]) = inl sent) ∧
      calm_with K w2 w3 ∧ wPriv w3 = wPriv w2)
    (if bool_decide (addresses = []) then ret changes
     else do! logs := senderLogs addresses from end_ in ret (changes ++ logs)) w2) as Hsent.
  { case_bool_decide as He.
    - apply wp_ret; [apply _|]. intros _. exists []. rewrite app_nil_r. split_and!; [done | done | | done..].
      left. split; [|done]. apply map_empty. intros b. apply eq_None_not_Some. rewrite <-Hkeys, He.
      apply not_elem_of_nil.
    - apply wp_bind; [apply _|]. apply wp_senderLogs. intros w3 sent t' Ht' Hf Hs C3 P3.
      apply wp_ret; [apply _|]. intros _. exists sent. split_and!; [done | | | done..].
      + apply Forall_app. split; [done|]. eapply Forall_impl; [exact Hs|].
        intros l Hl. split; [apply Hl|]. split; [by eapply sender_log_topics | exact (sender_log_covered _ _ _ _ _ Hl)].
      + right. exists t'. split; [|done]. pose proof (c_clock C2). lia. }
  eapply wp_mono; [exact Hsent|]. intros w3 logs _ _ (sent & -> & Hus & Hrep & C3 & P3).
  apply wp_lift_bind; [apply orderedLogs_no_panic|]. intros out Hout%orderedLogs_Ok.
  apply wp_ret; [apply _|]. intros _. apply HQ.
  - split; [done | by eapply ordered_Forall|]. exists (wClock w1), changes, sent.
    split; [done|]. split; [|done]. destruct Hrep as [?|(t' & Ht' & Hf)]; [by left | right].
    exists t', addresses. by split_and!.
  - etrans; [exact C1|]. by etrans.
  - unfold keeps_bootstrap in *. congruence.
Qed.

End facts.
