(* ===== verification/Scan.v ===== *)
(** * The Inbox scan (internal/blobingest/scan.go)

    A scanned range is walked transaction by transaction: authorization logs
    take effect in their place, a transaction to the Inbox is a batch
    submission when the sender in effect signed it, and the blob transactions
    it refers to are fetched, checked and assembled into channels. *)
From S2P Require Import Prelude StateMonad Word Json Geth GoMap Pebble StoreTypes DepositStore BlobStore.
From S2P Require Import Config Status Service Logs Auth BlobWorld BlobCodec SpanReader Span Channels.

(** ** The submission *)

Definition be_field (data : bytes) (i j : Z) : result Z :=
  let! b := slice data i j in Ok (be_value b).

(** One reference of a submission: the hashes so far, and the ones seen. *)
Definition read_reference (data : bytes) (st : list Hash * gset Hash) (k : Z) :
    result (list Hash * gset Hash) :=
  let '(hashes, seen) := st in
  let! z := be_field data (70 + 32 * k) (70 + 32 * k + 32) in
  let h : Hash := wrap 256 z in
  fail_if bool_decide (h = zero_hash) with fatal "zero Blob transaction reference" ;;
  Ok (if bool_decide (h ∈ seen) then (hashes, seen) else (hashes ++ [h], {[h]} ∪ seen)).

(** The loop runs over the offsets 70, 102, ... below the length. *)
Definition reference_count (data : bytes) : Z := (len data - 70 + 31) / 32.

Definition parseSubmission (tx : Transaction) (b : EthBlock) (sender : Address) :
    result (BlockBatch * list Hash) :=
  let data := txData tx in
  fail_if (len data <? 102) || negb ((len data - 70) mod 32 =? 0)
    with fatal "invalid Blob Inbox commitment" ;;
  let! d1 := at_ data 1 in
  fail_if negb (bool_decide (d1 = wrap 8 0)) with fatal "invalid Blob Inbox commitment" ;;
  let! index := be_field data 2 34 in
  let! start := be_field data 34 66 in
  let! size := be_field data 66 70 in
  let size : u64 := wrap 64 size in
  fail_if negb (IsUint64 index) || negb (IsUint64 start) || (start =? 0) ||
          bool_decide (size = #64 0) ||
          ult (usub max_uint64 (wrap 64 start)) (usub size (#64 1))
    with fatal "invalid Inbox batch range" ;;
  let batch := mkBatch (wrap 64 index) (bkParentHash b) size (usub (wrap 64 start) (#64 1)) ""
                 (NumberU64 b) (bkTime b) sender (txHash tx) in
  let! ' (hashes, _) := foldM (read_reference data) ([], ∅) (seqZ 0 (reference_count data)) in
  Ok (batch, hashes).

(** [types.Sender], and the chain of the submission. *)
Definition recover `{Signer} (cfg : Config) (tx : Transaction) : result Address :=
  match types_Sender (cL1ChainID cfg) tx with
  | inl a => Ok a
  | inr _ => Err (fatal "invalid Inbox transaction signature")
  end.

Definition check_chain (cfg : Config) (tx : Transaction) : result unit :=
  fail_if negb (txChainId tx =? uval (cL1ChainID cfg))
    with fatal "Inbox transaction L1 chain mismatch" ;;
  Ok tt.

Definition transactionSender `{Signer} (cfg : Config) (tx : Transaction) : result Address :=
  let! _ := check_chain cfg tx in recover cfg tx.

(** A referenced blob transaction [tx] of block [b], for the commitment at
    [commitIndex] of [commit]. *)
Definition checkSource `{Signer} (cfg : Config) (tx : Transaction) (b : EthBlock) (r : Receipt)
    (commit : EthBlock) (commitIndex : u64) (authorized : Address) : result unit :=
  let! sender := transactionSender cfg tx in
  fail_if negb (bool_decide (sender = authorized)) || negb (bool_decide (txTo tx = Some (cInbox cfg)))
    with fatal "unauthorized referenced Blob transaction" ;;
  fail_if (bkNumber commit <? bkNumber b) ||
          ((bkNumber b =? bkNumber commit) &&
           (negb (bool_decide (bkHash b = bkHash commit)) || ult commitIndex (rcTransactionIndex r)))
    with fatal "Blob reference is after its Inbox commitment" ;;
  Ok tt.

(** [scanResult] *)
Record scanResult : Type := mkScan {
  srTxs : list BlobTransaction;
  srChannels : list BlobChannel;
  srCache : gmap Hash BlobTransaction;
}.
Definition empty_scan : scanResult := mkScan [] [] ∅.

Section scan.
Context `{GethText, ABI, LogJSON, SortSlice, MapRange, Signer, BlobEnv}.
Context `{RLP, EthTx, Decompress}.
Context {D B : Type} `{Pebble D B, Env D}.
Notation M := (M D progress).

(** ** Receipts and source transactions *)

Definition receipt (hash : Hash) (b : EthBlock) (index : u64) : M Receipt :=
  do! r := answer (λ t, rpc_TransactionReceipt t hash) in
  match r with
  | None => fail (plain "L1 receipt unavailable; retry")
  | Some r =>
      raise_if negb (bool_decide (rcTxHash r = hash)) || negb (bool_decide (rcBlockHash r = bkHash b)) ||
               negb (bool_decide (rcBlockNumber r = Some (bkNumber b))) ||
               negb (bool_decide (rcTransactionIndex r = index))
        with fatal "receipt provenance mismatch" ;;
      ret r
  end.

Definition sourceBlock (hash : Hash) : M (EthBlock * Transaction * Receipt) :=
  do! r := answer (λ t, rpc_TransactionReceipt t hash) in
  match r with
  | None => fail (plain "blob transaction receipt unavailable; retry")
  | Some r =>
      do! b := answer (λ t, rpc_BlockByHash t (rcBlockHash r)) in
      match b with
      | None => fail (plain "blob transaction block unavailable; retry")
      | Some b =>
          raise_if negb (IsUint64 (bkNumber b)) ||
                   negb (bool_decide (rcBlockNumber r = Some (bkNumber b))) ||
                   negb (bool_decide (rcTxHash r = hash)) ||
                   negb (bool_decide (rcBlockHash r = bkHash b)) ||
                   (len (bkTransactions b) <=? uval (rcTransactionIndex r))
            with fatal "invalid Blob transaction receipt" ;;
          do! tx := lift (at_ (bkTransactions b) (uval (rcTransactionIndex r))) in
          raise_if negb (bool_decide (txHash tx = hash)) ||
                   negb (bool_decide (txType tx = BlobTxType)) ||
                   (len (txBlobHashes tx) =? 0) ||
                   negb (bool_decide (rcStatus r = ReceiptStatusSuccessful))
            with fatal "invalid referenced Blob transaction" ;;
          ret (b, tx, r)
      end
  end.

(** The record of a source, without its frames. *)
Definition source_record (hash : Hash) (b : EthBlock) (r : Receipt) : BlobTransaction :=
  mkBlobTransaction hash (bkHash b) (NumberU64 b) (bkTime b) (rcTransactionIndex r) false [].

Definition set_missing (t : BlobTransaction) : BlobTransaction :=
  mkBlobTransaction (btHash t) (btBlockHash t) (btHeight t) (btTimestamp t) (btTxIndex t) true
    (btFrames t).
Definition set_frames (t : BlobTransaction) (frames : list Frame) : BlobTransaction :=
  mkBlobTransaction (btHash t) (btBlockHash t) (btHeight t) (btTimestamp t) (btTxIndex t)
    (btMissing t) frames.

(** [Beacon.Frames]: missing data ([errors.Is(err, blob.ErrMissing)]) is an
    answer, not a failure. *)
Definition fetch_frames (h : Header) (hashes : list Hash) : M (option (list Frame)) := λ w,
  match answer (λ t, src_Frames t h hashes) w with
  | (w, Ok frames) => (w, Ok (Some frames))
  | (w, Err e) => if errors_Is e ErrMissing then (w, Ok None) else (w, Err e)
  | (w, Panic) => (w, Panic)
  end.

Definition fetchTransaction (cfg : Config) (hash : Hash) (commit : EthBlock) (index : u64)
    (sender : Address) (cutoff : u64) : M BlobTransaction :=
  do! ' (b, tx, r) := sourceBlock hash in
  do! _ := lift (checkSource cfg tx b r commit index sender) in
  let out := source_record hash b r in
  if ult (bkTime b) cutoff then ret out else
  do! frames := fetch_frames (bkHeader b) (txBlobHashes tx) in
  match frames with
  | None => ret (set_missing out)
  | Some frames => ret (set_frames out frames)
  end.

Definition validateSource (cfg : Config) (source : BlobTransaction) (commit : EthBlock)
    (index : u64) (sender : Address) : M unit :=
  do! ' (b, tx, r) := sourceBlock (btHash source) in
  raise_if negb (bool_decide (btBlockHash source = bkHash b)) ||
           negb (bool_decide (btHeight source = NumberU64 b)) ||
           negb (bool_decide (btTimestamp source = bkTime b)) ||
           negb (bool_decide (btTxIndex source = rcTransactionIndex r))
    with fatal "cached Blob provenance mismatch" ;;
  lift (checkSource cfg tx b r commit index sender).

(** [s.Store.BlobTransaction] *)
Definition stored_source (hash : Hash) : M (option BlobTransaction) :=
  wrap_error (wrapf ErrIntegrity) (read_store (λ s, StoreBlobTransaction s hash)).

Definition cached (result : scanResult) (hash : Hash) (source : BlobTransaction) : scanResult :=
  mkScan (srTxs result) (srChannels result) (<[hash := source]> (srCache result)).

Definition resolveSource (cfg : Config) (result : scanResult) (hash : Hash) (block : EthBlock)
    (index : u64) (sender : Address) (cutoff : u64) : M (scanResult * BlobTransaction) :=
  let validated (result : scanResult) (source : BlobTransaction) :=
    do! _ := validateSource cfg source block index sender in ret (result, source) in
  match srCache result !! hash with
  | Some source => validated result source
  | None =>
      do! saved := stored_source hash in
      match saved with
      | Some source => validated (cached result hash source) source
      | None =>
          do! source := fetchTransaction cfg hash block index sender cutoff in
          let result := cached result hash source in
          ret (if ule cutoff (btTimestamp source)
               then mkScan (srTxs result ++ [source]) (srChannels result) (srCache result)
               else result, source)
      end
  end.

(** The loop over the references; the sources inside the retention window. *)
Definition resolve_reference (cfg : Config) (block : EthBlock) (index : u64) (sender : Address)
    (cutoff : u64) (st : scanResult * list BlobTransaction) (hash : Hash) :
    M (scanResult * list BlobTransaction) :=
  let '(result, sources) := st in
  do! ' (result, source) := resolveSource cfg result hash block index sender cutoff in
  ret (result, if ule cutoff (btTimestamp source) then sources ++ [source] else sources).

(** [tx] is addressed to the Inbox and has a Blob submission's first byte. *)
Definition to_inbox (cfg : Config) (tx : Transaction) : bool :=
  bool_decide (txTo tx = Some (cInbox cfg)) && bool_decide (head (txData tx) = Some (wrap 8 3)).

Definition submission (cfg : Config) (a : authorization) (tx : Transaction) (block : EthBlock)
    (index : u64) (cutoff : u64) (result : scanResult) : M scanResult :=
  if negb (to_inbox cfg tx) then ret result else
  do! sender := lift (recover cfg tx) in
  if negb (bool_decide (sender = Auth.sender a (NumberU64 block) false (cInboxSender cfg)))
  then ret result else
  do! _ := lift (check_chain cfg tx) in
  do! r := receipt (txHash tx) block index in
  if negb (bool_decide (rcStatus r = ReceiptStatusSuccessful)) then ret result else
  do! ' (batch, hashes) := lift (parseSubmission tx block sender) in
  let blobSender := Auth.sender a (NumberU64 block) true (cBlobSender cfg) in
  do! ' (result, sources) :=
    forM (resolve_reference cfg block index blobSender cutoff) (result, []) hashes in
  do! decoded := lift (DecodeChannels sources batch (cL2ChainID cfg)) in
  ret (mkScan (srTxs result) (srChannels result ++ decoded) (srCache result)).

(** ** The walk *)

(** The variables of [scan]: the authorization, the logs that are still to
    be applied ([logs[position:]]) and the result. *)
Record walk : Type := mkWalk {
  wkAuth : authorization;
  wkLogs : list Log;
  wkResult : scanResult;
}.

(** [for position < len(logs) && due(logs[position]) { a.apply(...) }] *)
Fixpoint apply_due (mgr : Address) (due : Log → bool) (a : authorization) (logs : list Log) :
    result (authorization * list Log) :=
  match logs with
  | l :: rest => if due l then let! a := apply a l mgr in apply_due mgr due a rest else Ok (a, logs)
  | [] => Ok (a, [])
  end.

Definition due_before (height : u64) (i : u64) (l : Log) : bool :=
  ult (lBlockNumber l) height || (bool_decide (lBlockNumber l = height) && ult (lTxIndex l) i).
Definition due_in (height : u64) (l : Log) : bool := bool_decide (lBlockNumber l = height).

Definition scan_tx (cfg : Config) (cutoff height : u64) (block : EthBlock) (st : walk)
    (itx : nat * Transaction) : M walk :=
  let '(i, tx) := itx in
  let i := wrap 64 (Z.of_nat i) in
  do! ' (a, logs) := lift (apply_due (cAddressManager cfg) (due_before height i) (wkAuth st) (wkLogs st)) in
  do! result := submission cfg a tx block i cutoff (wkResult st) in
  ret (mkWalk a logs result).

Definition scan_block (cfg : Config) (cutoff : u64) (st : walk) (height : u64) : M walk :=
  do! block := answer (λ t, rpc_BlockByNumber t height) in
  match block with
  | None => fail (fatal "invalid Inbox block")
  | Some block =>
      raise_if negb (IsUint64 (bkNumber block)) || negb (bool_decide (NumberU64 block = height))
        with fatal "invalid Inbox block" ;;
      do! st := forM (scan_tx cfg cutoff height block) st (imap pair (bkTransactions block)) in
      do! ' (a, logs) := lift (apply_due (cAddressManager cfg) (due_in height) (wkAuth st) (wkLogs st)) in
      ret (mkWalk a logs (wkResult st))
  end.

(** [from], [from+1], ... up to and including [end] (which may be below). *)
Definition heights (from end_ : u64) : list u64 :=
  (λ i, uadd from (wrap 64 i)) <$> seqZ 0 (uval (usub end_ from) + 1).

(** [scan] changes the authorization it is given. *)
Definition scan (cfg : Config) (a : authorization) (logs : list Log) (from end_ cutoff : u64) :
    M (authorization * list BlobTransaction * list BlobChannel) :=
  do! st := forM (scan_block cfg cutoff) (mkWalk a logs empty_scan) (heights from end_) in
  raise_if negb (len (wkLogs st) =? 0) with fatal "unapplied authorization logs" ;;
  ret (wkAuth st, srTxs (wkResult st), srChannels (wkResult st)).

End scan.
