(* ===== verification/Submission.v ===== *)
(** * The commitment of an Inbox submission

    The calldata of a Blob submission: a kind byte, a zero byte, the batch
    index and the first L2 element as 32-byte words, the number of elements
    in four bytes, then one 32-byte transaction hash per reference.
    [parseSubmission] accepts exactly this form. *)
From S2P Require Import Prelude StateMonad Word Json Geth GoMap Pebble StoreTypes DepositStore BlobStore.
From S2P Require Import Config Status Service Logs LogFacts Auth BlobWorld BlobCodec SpanReader Span Channels Scan.

(** ** The form *)

Definition references (refs : list Hash) : bytes := concat ((λ h, be_bytes 32 (uval h)) <$> refs).

Definition commitment_data (kind : byte) (index start size : Z) (refs : list Hash) : bytes :=
  (kind :: wrap 8 0 :: be_bytes 32 index ++ be_bytes 32 start ++ be_bytes 4 size) ++ references refs.

(** What a submission says: the batch [index] holds the L2 elements
    [start - 1 .. start + size - 2], in the blobs of the transactions
    [refs]. *)
Record commits (data : bytes) (index start size : Z) (refs : list Hash) : Prop := {
  cm_data : ∃ kind, data = commitment_data kind index start size refs;
  cm_index : 0 <= index < 2 ^ 64;
  cm_start : 0 < start;
  cm_size : 0 < size < 2 ^ 32;
  cm_last : start + size <= 2 ^ 64;
  cm_refs : refs ≠ [] ∧ zero_hash ∉ refs;
}.

(** The distinct references, in the order of their first occurrence. *)
Fixpoint distinct (refs : list Hash) : list Hash :=
  match refs with
  | [] => []
  | h :: refs => h :: filter (λ x, x ≠ h) (distinct refs)
  end.

Lemma elem_of_distinct h refs : h ∈ distinct refs ↔ h ∈ refs.
Proof.
  induction refs as [|x refs IH]; [done|]. cbn [distinct].
  rewrite !elem_of_cons, list_elem_of_filter, IH. destruct (decide (h = x)); naive_solver.
Qed.

Lemma NoDup_distinct refs : NoDup (distinct refs).
Proof.
  induction refs as [|x refs IH]; [constructor|]. constructor; [|by apply NoDup_filter].
  rewrite list_elem_of_filter. naive_solver.
Qed.

(** ** Reading the references *)

Lemma length_references refs : length (references refs) = (32 * length refs)%nat.
Proof.
  unfold references. induction refs as [|h refs IH]; [done|].
  rewrite fmap_cons. cbn [concat length]. rewrite length_app, length_be_bytes, IH. lia.
Qed.

Lemma be_hash (h : Hash) : wrap 256 (be_value (be_bytes 32 (uval h))) = h.
Proof.
  rewrite be_value_be_bytes. change (256 ^ Z.of_nat 32) with (modulus 256).
  rewrite Z.mod_small by apply uint_range. apply wrap_uval.
Qed.

Lemma read_reference_at pre h post i hashes seen :
  len pre = 70 + 32 * i →
  read_reference (pre ++ be_bytes 32 (uval h) ++ post) (hashes, seen) i =
    (fail_if bool_decide (h = zero_hash) with fatal "zero Blob transaction reference" ;;
     Ok (if bool_decide (h ∈ seen) then (hashes, seen) else (hashes ++ [h], {[h]} ∪ seen))).
Proof.
  intros Hp. unfold read_reference, be_field.
  rewrite (slice_middle pre) by (rewrite ?Hp; unfold len; rewrite ?length_be_bytes; lia).
  cbn [bind]. by rewrite be_hash.
Qed.

(** References that are in [seen] already are left out. *)
Definition unseen (seen : gset Hash) (refs : list Hash) : list Hash := filter (λ h, h ∉ seen) refs.

Lemma unseen_cons seen h refs :
  unseen seen (distinct (h :: refs)) =
  if bool_decide (h ∈ seen) then unseen seen (distinct refs)
  else h :: unseen ({[h]} ∪ seen) (distinct refs).
Proof.
  unfold unseen. cbn [distinct]. rewrite filter_cons. case_bool_decide as Hs.
  - rewrite decide_False by (intros Hn; by apply Hn). rewrite list_filter_filter.
    apply list_filter_iff. intros x. split; [by intros [? _] | intros Hx; split; congruence].
  - rewrite decide_True by done. f_equal. rewrite list_filter_filter.
    apply list_filter_iff. intros x. set_solver.
Qed.

Lemma read_references refs : ∀ pre i hashes (seen : gset Hash),
  len pre = 70 + 32 * i →
  let r := foldM (read_reference (pre ++ references refs)) (hashes, seen)
             (seqZ i (Z.of_nat (length refs))) in
  if bool_decide (zero_hash ∈ refs) then fails_with r ErrFatal
  else ∃ seen', r = Ok (hashes ++ unseen seen (distinct refs), seen').
Proof.
  induction refs as [|h refs IH]; intros pre i hashes seen Hp; cbv zeta.
  { rewrite bool_decide_false by apply not_elem_of_nil. exists seen. cbn [length]. rewrite seqZ_nil by lia. change (unseen seen (distinct [])) with (@nil Hash). by rewrite (app_nil_r hashes). }
  cbn [length]. rewrite seqZ_cons by lia.
  replace (Z.pred (Z.of_nat (S (length refs)))) with (Z.of_nat (length refs)) by lia. cbn [foldM].
  unfold references. rewrite fmap_cons. cbn [concat]. fold (references refs).
  rewrite read_reference_at by done. destruct (decide (h = zero_hash)) as [Hz|Hz].
  { rewrite (bool_decide_true (h = zero_hash)) by done.
    rewrite bool_decide_true by (rewrite Hz; left). apply fails_fatal. }
  rewrite (bool_decide_false (h = zero_hash)) by done. rewrite bind_Ok, app_assoc.
  assert (len (pre ++ be_bytes 32 (uval h)) = 70 + 32 * Z.succ i) as Hp'.
  { rewrite len_app, Hp. unfold len. rewrite length_be_bytes. lia. }
  rewrite (bool_decide_ext (zero_hash ∈ h :: refs) (zero_hash ∈ refs))
    by (rewrite elem_of_cons; naive_solver).
  rewrite unseen_cons. destruct (bool_decide (h ∈ seen)).
  - apply (IH _ (Z.succ i) hashes seen Hp').
  - specialize (IH _ (Z.succ i) (hashes ++ [h]) ({[h]} ∪ seen) Hp'). cbv zeta in IH.
    destruct (bool_decide (zero_hash ∈ refs)); [done|].
    destruct IH as [seen' IH]. exists seen'. rewrite IH. by rewrite <-app_assoc.
Qed.

(** ** Parsing *)

Lemma len_references refs : len (references refs) = 32 * Z.of_nat (length refs).
Proof. unfold len. rewrite length_references. lia. Qed.

(** Any bytes of a multiple of 32 are references. *)
Lemma references_surj (b : bytes) n : length b = (32 * n)%nat → ∃ refs, length refs = n ∧ b = references refs.
Proof.
  revert b. induction n as [|n IH]; intros b Hb.
  { exists []. split; [done|]. by apply nil_length_inv. }
  destruct (IH (drop 32 b)) as (refs & Hl & Hr); [rewrite length_drop; lia|].
  exists (wrap 256 (be_value (take 32 b)) :: refs). split; [by rewrite <-Hl|].
  unfold references. rewrite fmap_cons. cbn [concat]. fold (references refs). rewrite <-Hr.
  assert (length (take 32 b) = 32%nat) as Ht by (rewrite length_take; lia).
  pose proof (be_value_range (take 32 b)) as Hrng. rewrite Ht in Hrng.
  change (256 ^ Z.of_nat 32) with (modulus 256) in Hrng.
  rewrite uval_wrap_small by done. rewrite be_bytes_value by done. by rewrite take_drop.
Qed.

(** The fields of calldata with a whole number of words. *)
Lemma data_fields (data : bytes) :
  102 <= len data → (len data - 70) mod 32 = 0 → at_ data 1 = Ok (wrap 8 0) →
  ∃ kind index start size refs,
    data = commitment_data kind index start size refs ∧ refs ≠ [] ∧
    0 <= index < 2 ^ 256 ∧ 0 <= start < 2 ^ 256 ∧ 0 <= size < 2 ^ 32.
Proof.
  intros Hlen Hmod H1. unfold len in *.
  destruct data as [|kind [|z data]]; simpl in Hlen; [lia..|].
  change (Ok z = Ok (wrap 8 0)) in H1. injection H1 as ->. cbn [length] in *.
  set (b := drop 68 data).
  assert (∃ n, length b = (32 * n)%nat ∧ n ≠ 0%nat) as (n & Hn & Hn0).
  { pose proof (Z.div_mod (Z.of_nat (S (S (length data))) - 70) 32 ltac:(lia)) as Hd.
    rewrite Hmod in Hd. exists (Z.to_nat ((Z.of_nat (S (S (length data))) - 70) / 32)).
    unfold b. rewrite length_drop. lia. }
  destruct (references_surj b n Hn) as (refs & Hl & Hr).
  pose proof (be_value_range (take 32 data)) as R1.
  pose proof (be_value_range (take 32 (drop 32 data))) as R2.
  pose proof (be_value_range (take 4 (drop 64 data))) as R3.
  rewrite length_take in R1. rewrite length_take, length_drop in R2, R3.
  replace (32 `min` length data)%nat with 32%nat in R1 by lia.
  replace (32 `min` (length data - 32))%nat with 32%nat in R2 by lia.
  replace (4 `min` (length data - 64))%nat with 4%nat in R3 by lia.
  change (256 ^ Z.of_nat 32) with (2 ^ 256) in *. change (256 ^ Z.of_nat 4) with (2 ^ 32) in *.
  exists kind, (be_value (take 32 data)), (be_value (take 32 (drop 32 data))),
    (be_value (take 4 (drop 64 data))), refs.
  split; [|split; [intros ->; simpl in Hl; lia|done]].
  unfold commitment_data. rewrite <-Hr, !be_bytes_value by (rewrite ?length_take, ?length_drop; lia).
  unfold b. cbn [app]. do 2 f_equal. rewrite <-!app_assoc.
  replace (drop 68 data) with (drop 4 (drop 64 data)) by by rewrite drop_drop.
  rewrite (take_drop 4). replace (drop 64 data) with (drop 32 (drop 32 data)) by by rewrite drop_drop.
  by rewrite !take_drop.
Qed.

Section fields.
Context (kind : byte) (index start size : Z) (refs : list Hash).
Let data := commitment_data kind index start size refs.

Lemma commitment_len : len data = 70 + 32 * Z.of_nat (length refs).
Proof.
  unfold data, commitment_data. rewrite len_app, len_references. unfold len. cbn [length].
  rewrite !length_app, !length_be_bytes. lia.
Qed.

Lemma commitment_zero : at_ data 1 = Ok (wrap 8 0).
Proof. done. Qed.

(** [p ++ q] is the data, [q] starting with the field. *)
Lemma commitment_field p n z q i j :
  data = p ++ be_bytes n z ++ q → i = len p → j = len p + Z.of_nat n →
  0 <= z < 256 ^ Z.of_nat n → be_field data i j = Ok z.
Proof.
  intros Hd -> -> Hz. unfold be_field. rewrite Hd.
  rewrite (slice_middle p (be_bytes n z)); [|done|unfold len; rewrite length_be_bytes; lia].
  cbn [bind]. rewrite be_value_be_bytes. by rewrite Z.mod_small.
Qed.

Lemma commitment_index : 0 <= index < 2 ^ 256 → be_field data 2 34 = Ok index.
Proof.
  intros Hz. apply (commitment_field [kind; wrap 8 0] 32 index
    (be_bytes 32 start ++ be_bytes 4 size ++ references refs)); [|done..].
  unfold data, commitment_data. cbn [app]. by rewrite <-!app_assoc.
Qed.

Lemma commitment_start : 0 <= start < 2 ^ 256 → be_field data 34 66 = Ok start.
Proof.
  intros Hz. apply (commitment_field (kind :: wrap 8 0 :: be_bytes 32 index) 32 start
    (be_bytes 4 size ++ references refs)); [| | |done].
  - unfold data, commitment_data. cbn [app]. by rewrite <-!app_assoc.
  - unfold len. cbn [length]. by rewrite length_be_bytes.
  - unfold len. cbn [length]. by rewrite length_be_bytes.
Qed.

Lemma commitment_size : 0 <= size < 2 ^ 32 → be_field data 66 70 = Ok size.
Proof.
  intros Hz. apply (commitment_field (kind :: wrap 8 0 :: be_bytes 32 index ++ be_bytes 32 start) 4 size
    (references refs)); [| | |done].
  - unfold data, commitment_data. cbn [app]. by rewrite <-!app_assoc.
  - unfold len. cbn [length]. rewrite length_app, !length_be_bytes. done.
  - unfold len. cbn [length]. rewrite length_app, !length_be_bytes. done.
Qed.

End fields.

(** ** The batch *)

Definition batch_of (tx : Transaction) (b : EthBlock) (sender : Address) (index start size : Z) : BlockBatch :=
  mkBatch (wrap 64 index) (bkParentHash b) (wrap 64 size) (wrap 64 (start - 1)) ""
    (NumberU64 b) (bkTime b) sender (txHash tx).

(** What is left of [parseSubmission] when the fields are read. *)
Lemma parse_fields tx b sender kind index start size refs :
  txData tx = commitment_data kind index start size refs → refs ≠ [] →
  0 <= index < 2 ^ 256 → 0 <= start < 2 ^ 256 → 0 <= size < 2 ^ 32 →
  if decide (index < 2 ^ 64 ∧ 0 < start < 2 ^ 64 ∧ 0 < size ∧ start + size <= 2 ^ 64 ∧ zero_hash ∉ refs)
  then parseSubmission tx b sender = Ok (batch_of tx b sender index start size, distinct refs)
  else fails_with (parseSubmission tx b sender) ErrFatal.
Proof.
  intros Hd Hne Hi Hs Hz. unfold parseSubmission. rewrite Hd. cbv zeta.
  pose proof (commitment_len kind index start size refs) as Hlen.
  assert (0 < Z.of_nat (length refs)) as Hn by (destruct refs; [done | cbn [length]; lia]).
  rewrite Hlen, (proj2 (Z.ltb_ge _ _)) by lia.
  replace (70 + 32 * Z.of_nat (length refs) - 70) with (Z.of_nat (length refs) * 32) by lia.
  rewrite Z.mod_mul by done. change (false || negb (0 =? 0)) with false. cbv iota.
  rewrite commitment_zero, bind_Ok, bool_decide_true by done. cbn [negb].
  rewrite commitment_index, bind_Ok, commitment_start, bind_Ok, commitment_size, bind_Ok by done.
  rewrite (bool_decide_ext (wrap 64 size = #64 0) (size = 0)).
  2:{ rewrite uint_eq_iff, uval_wrap_small; [done|]. change (modulus 64) with (2 ^ 64). lia. }
  assert ((negb (IsUint64 index) || negb (IsUint64 start) || (start =? 0) || bool_decide (size = 0) ||
    ult (usub max_uint64 (wrap 64 start)) (usub (wrap 64 size) (#64 1))) =
    negb (bool_decide (index < 2 ^ 64 ∧ 0 < start < 2 ^ 64 ∧ 0 < size ∧ start + size <= 2 ^ 64))) as ->.
  { unfold IsUint64, in_width, ult, usub. change (modulus 64) with (2 ^ 64).
    destruct (Z.ltb_spec index (2 ^ 64)), (Z.ltb_spec start (2 ^ 64)), (Z.eqb_spec start 0);
      rewrite ?(proj2 (Z.leb_le 0 index)), ?(proj2 (Z.leb_le 0 start)) by lia; cbn [negb andb orb];
      try (rewrite bool_decide_false by lia; done).
    case_bool_decide as Hz0; cbn [orb]; [by rewrite bool_decide_false by lia|].
    rewrite !uval_wrap. change (modulus 64) with (2 ^ 64). change (uval max_uint64) with (2 ^ 64 - 1).
    change (uval (#64 1)) with 1. rewrite !(Z.mod_small start), (Z.mod_small size) by lia.
    rewrite !Z.mod_small by (rewrite ?Z.mod_small; lia).
    destruct (Z.ltb_spec (2 ^ 64 - 1 - start) (size - 1));
      [rewrite bool_decide_false by lia | rewrite bool_decide_true by lia]; done. }
  case_bool_decide as Hok; cbn [negb]; [|rewrite decide_False by tauto; apply fails_fatal].
  unfold reference_count. rewrite Hlen.
  replace ((70 + 32 * Z.of_nat (length refs) - 70 + 31) / 32) with (Z.of_nat (length refs))
    by (apply Z.div_unique with 31; lia).
  pose proof (read_references refs (kind :: wrap 8 0 :: be_bytes 32 index ++ be_bytes 32 start ++ be_bytes 4 size)
    0 [] ∅) as Hr. cbv zeta in Hr. fold (commitment_data kind index start size refs) in Hr.
  case_bool_decide as Hin.
  - rewrite decide_False by tauto. apply fails_bind, Hr.
    unfold len. cbn [length]. by rewrite !length_app, !length_be_bytes.
  - rewrite decide_True by tauto. destruct Hr as [seen ->].
    { unfold len. cbn [length]. by rewrite !length_app, !length_be_bytes. }
    rewrite bind_Ok. unfold batch_of, unseen.
    replace (usub (wrap 64 start) (#64 1)) with (wrap 64 (start - 1)).
    2:{ apply uint_eq. unfold usub. rewrite !uval_wrap. change (uval (#64 1)) with 1.
        change (modulus 64) with (2 ^ 64). by rewrite (Z.mod_small start) by lia. }
    do 2 f_equal. rewrite (app_nil_l (filter _ _)). induction (distinct refs) as [|h l IH]; [done|].
    by rewrite filter_cons_True, IH by apply not_elem_of_empty.
Qed.

Lemma parseSubmission_cases tx b sender :
  (∃ index start size refs, commits (txData tx) index start size refs ∧
    parseSubmission tx b sender = Ok (batch_of tx b sender index start size, distinct refs)) ∨
  ((∀ index start size refs, ¬ commits (txData tx) index start size refs) ∧
    fails_with (parseSubmission tx b sender) ErrFatal).
Proof.
  set (bad := fails_with (parseSubmission tx b sender) ErrFatal).
  assert (∀ index start size refs, commits (txData tx) index start size refs → ∃ bt, parseSubmission tx b sender = Ok bt)
    as Hok.
  { intros index start size refs [[kind Hd] Hi Hs Hz Hl [Hne Hin]].
    pose proof (parse_fields tx b sender kind index start size refs Hd Hne) as Hp.
    rewrite decide_True in Hp by (split_and!; (done || lia)). eexists. apply Hp; lia. }
  cut ((∃ index start size refs, commits (txData tx) index start size refs ∧
    parseSubmission tx b sender = Ok (batch_of tx b sender index start size, distinct refs)) ∨ bad).
  { intros [?|Hbad]; [by left | right]. split; [|done]. intros index start size refs Hc.
    destruct (Hok _ _ _ _ Hc) as [bt E]. destruct Hbad as (e & E' & _). congruence. }
  destruct (decide (102 <= len (txData tx) ∧ (len (txData tx) - 70) mod 32 = 0 ∧
    at_ (txData tx) 1 = Ok (wrap 8 0))) as [(Hlen & Hmod & H1)|Hbad].
  - destruct (data_fields _ Hlen Hmod H1) as (kind & index & start & size & refs & Hd & Hne & Hi & Hs & Hz).
    pose proof (parse_fields tx b sender kind index start size refs Hd Hne Hi Hs Hz) as Hp.
    case_decide as Hc; [left | by right]. exists index, start, size, refs. split; [|done].
    split; [by exists kind | lia | lia | lia | lia | by split; [|apply Hc]].
  - right. subst bad. unfold parseSubmission.
    destruct (Z.ltb_spec (len (txData tx)) 102) as [|Hlen]; [apply fails_fatal|]. cbn [orb].
    destruct (Z.eqb_spec ((len (txData tx) - 70) mod 32) 0) as [Hmod|]; [|apply fails_fatal].
    cbn [negb]. destruct (at_no_panic (txData tx) 1 ltac:(lia)) as (d & Hd & _). rewrite Hd, bind_Ok.
    rewrite bool_decide_false; [apply fails_fatal|]. intros ->. apply Hbad. by split_and!.
Qed.

(** ** Properties *)

(** [C17] What a Blob submission means.  [parseSubmission] accepts exactly the
    calldata made of a kind byte, a zero byte, the batch index, the first
    element, the number of elements and at least one non-zero reference,
    whose numbers fit 64 bits without the last element wrapping around; it
    returns that batch, with the block's and the transaction's metadata, and
    the distinct references in the order of their first occurrence.
    Everything else is a fatal error, and nothing panics. *)
Theorem parseSubmission_exact tx b sender :
  (∃ index start size refs, commits (txData tx) index start size refs ∧
    parseSubmission tx b sender = Ok (batch_of tx b sender index start size, distinct refs)) ∨
  ((∀ index start size refs, ¬ commits (txData tx) index start size refs) ∧
    fails_with (parseSubmission tx b sender) ErrFatal).
Proof. apply parseSubmission_cases. Qed.

(** [C39] The batch range does not overflow: the elements a parsed submission
    covers, [PrevTotalElements .. PrevTotalElements + Size - 1], are numbers
    below 2^64, there is at least one, and the size fits 32 bits. *)
Theorem parseSubmission_bounds tx b sender batch hashes :
  parseSubmission tx b sender = Ok (batch, hashes) →
  0 < uval (baSize batch) < 2 ^ 32 ∧
  uval (baPrevTotalElements batch) + uval (baSize batch) <= 2 ^ 64 - 1 ∧
  NoDup hashes ∧ hashes ≠ [] ∧ zero_hash ∉ hashes.
Proof.
  intros E. destruct (parseSubmission_cases tx b sender) as
    [(index & start & size & refs & [_ Hi Hs Hz Hl [Hne Hin]] & E')|[_ (e & E' & _)]];
    rewrite E in E'; [|done]. injection E' as -> ->. cbn [baSize baPrevTotalElements batch_of].
  rewrite !uval_wrap_small by (change (modulus 64) with (2 ^ 64); lia).
  split_and!; try lia.
  - apply NoDup_distinct.
  - destruct refs as [|h refs]; [done|]. cbn [distinct]. done.
  - by rewrite elem_of_distinct.
Qed.

Module SubmissionWitness.

Definition refs : list Hash := [wrap 256 21; wrap 256 22; wrap 256 21].
Definition tx : Transaction :=
  mkTransaction (wrap 256 9) (wrap 8 2) 1 (Some (wrap 160 5))
    (commitment_data (wrap 8 3) 7 11 2 refs) [].
Definition block : EthBlock := mkEthBlock 100 (wrap 256 70) (wrap 256 69) (#64 1000) None [tx].
Definition parsed : result (BlockBatch * list Hash) := parseSubmission tx block (wrap 160 6).

Lemma parseSubmission_bounds_witness :
  ∃ batch hashes, parsed = Ok (batch, hashes) ∧ hashes = [wrap 256 21; wrap 256 22] ∧
    0 < uval (baSize batch) < 2 ^ 32 ∧
    uval (baPrevTotalElements batch) + uval (baSize batch) <= 2 ^ 64 - 1 ∧
    NoDup hashes ∧ hashes ≠ [] ∧ zero_hash ∉ hashes.
Proof.
  eexists _, _. split; [vm_compute; reflexivity|]. split; [reflexivity|].
  apply (parseSubmission_bounds tx block (wrap 160 6)). vm_compute. reflexivity.
Defined.

End SubmissionWitness.
