(* ===== verification/ScanFacts.v ===== *)
(** * Where scanned data comes from

    Every transaction and channel a scan returns is traced to what the node
    and the beacon reported during the scan: a successful Inbox transaction
    signed by the batch sender in effect, and referenced blob transactions
    signed by the blob sender in effect, no later than the commitment. *)
From S2P Require Import Prelude StateMonad Word Json Geth GoMap Pebble StoreTypes DepositStore BlobStore.
From S2P Require Import BlobStoreFacts BlobCommit BlobTheorems Config Status Service ServiceFacts.
From S2P Require Import Logs LogFacts Auth AuthFacts BlobWorld BlobWorldFacts.
From S2P Require Import BlobCodec SpanReader Span SpanFacts SpanTheorems Channels ChannelFacts ChannelTheorems.
From S2P Require Import Scan Submission.

(** A slice has fewer than 2^63 elements. *)
Class BlobEnvLaws `{BlobEnv} : Prop :=
  block_length : ∀ t n b, rpc_BlockByNumber t n = inl (Some b) → len (bkTransactions b) < 2 ^ 63.

Definition blobs_kept `{GethText, Pebble D B, !PebbleLaws D B} (s s' : Store D) : Prop :=
  ∀ A, archived (contents (st_db s)) A → archived (contents (st_db s')) A.

(** ** Evidence *)

(** It happened in the time [(t1, t2]]. *)
Definition seen (t1 t2 : nat) (P : nat → Prop) : Prop := ∃ t, (t1 < t <= t2)%nat ∧ P t.

Lemma seen_mono t1 t2 t2' P : (t2 <= t2')%nat → seen t1 t2 P → seen t1 t2' P.
Proof. intros ? (t & ? & ?). exists t. split; [lia | done]. Qed.

(** Positions in the chain; logs up to transaction [i] of block [h]. *)
Definition before_tx (h : u64) (i : nat) (l : Log) : Prop :=
  uval (lBlockNumber l) < uval h ∨ lBlockNumber l = h ∧ uval (lTxIndex l) < Z.of_nat i.
#[export] Instance before_tx_dec h i l : Decision (before_tx h i l).
Proof. unfold before_tx. apply _. Defined.

(** [y] is the authority right before transaction [i] of block [h]: that of
    the logs from the first one on as long as they are in earlier
    transactions. *)
Definition authority_at `{ABI} (mgr : Address) (y0 : authority) (logs : list Log) (h : u64) (i : nat)
    (y : authority) : Prop :=
  ∃ done rest, logs = done ++ rest ∧ Forall (before_tx h i) done ∧
    (∀ l, head rest = Some l → ¬ before_tx h i l) ∧ history mgr y0 done y.

Section evidence.
Context `{ABI, Signer, BlobEnv}.
Context (cfg : Config).

(** The blob transaction [hash] is transaction [tx] of block [b], with the
    successful receipt [r]. *)
Record source_seen (t1 t2 : nat) (hash : Hash) (b : EthBlock) (tx : Transaction) (r : Receipt) : Prop := {
  ss_receipt : seen t1 t2 (λ t, rpc_TransactionReceipt t hash = inl (Some r));
  ss_block : seen t1 t2 (λ t, rpc_BlockByHash t (rcBlockHash r) = inl (Some b));
  ss_place : bkHash b = rcBlockHash r ∧ rcBlockNumber r = Some (bkNumber b) ∧ IsUint64 (bkNumber b) = true;
  ss_tx : bkTransactions b !! Z.to_nat (uval (rcTransactionIndex r)) = Some tx;
  ss_hash : txHash tx = hash ∧ rcTxHash r = hash;
  ss_blob : txType tx = BlobTxType ∧ txBlobHashes tx ≠ [];
  ss_status : rcStatus r = ReceiptStatusSuccessful;
}.

(** The blob transaction [tx] may be referred to at [commitIndex] of
    [commit]: it is signed by [authorized] on this chain, sent to the Inbox,
    and not later. *)
Record may_refer (tx : Transaction) (b : EthBlock) (r : Receipt) (commit : EthBlock)
    (commitIndex : u64) (authorized : Address) : Prop := {
  mr_sender : types_Sender (cL1ChainID cfg) tx = inl authorized;
  mr_chain : txChainId tx = uval (cL1ChainID cfg);
  mr_to : txTo tx = Some (cInbox cfg);
  mr_order : bkNumber b < bkNumber commit ∨ bkNumber b = bkNumber commit ∧
    bkHash b = bkHash commit ∧ uval (rcTransactionIndex r) <= uval commitIndex;
}.

(** The record [s] is about the transaction [tx] of block [b]. *)
Definition about (s : BlobTransaction) (b : EthBlock) (tx : Transaction) (r : Receipt) : Prop :=
  btHash s = txHash tx ∧ btBlockHash s = bkHash b ∧ btHeight s = NumberU64 b ∧
  btTimestamp s = bkTime b ∧ btTxIndex s = rcTransactionIndex r.

Definition source_ok (t1 t2 : nat) (commit : EthBlock) (index : u64) (authorized : Address)
    (s : BlobTransaction) : Prop :=
  ∃ b tx r, source_seen t1 t2 (btHash s) b tx r ∧ may_refer tx b r commit index authorized ∧ about s b tx r.

(** The frames of a fetched record are what the beacon answered. *)
Definition frames_fetched (t1 t2 : nat) (s : BlobTransaction) : Prop :=
  ∃ b tx r, source_seen t1 t2 (btHash s) b tx r ∧ about s b tx r ∧
    seen t1 t2 (λ t,
      match src_Frames t (bkHeader b) (txBlobHashes tx) with
      | inl frames => btMissing s = false ∧ btFrames s = frames
      | inr e => errors_Is e ErrMissing = true ∧ btMissing s = true ∧ btFrames s = []
      end).

(** Transaction [i] of [block] commits the batch [batch] with the references
    [hashes], for the authority [y]. *)
Record submitted (t1 t2 : nat) (from end_ : u64) (y0 : authority) (logs : list Log)
    (block : EthBlock) (i : nat) (y : authority) (batch : BlockBatch) (hashes : list Hash) : Prop := {
  sm_block : seen t1 t2 (λ t, rpc_BlockByNumber t (NumberU64 block) = inl (Some block));
  sm_number : IsUint64 (bkNumber block) = true ∧ uval from <= bkNumber block <= uval end_;
  sm_authority : authority_at (cAddressManager cfg) y0 logs (NumberU64 block) i y;
  sm_tx : ∃ tx sender, bkTransactions block !! i = Some tx ∧
    txTo tx = Some (cInbox cfg) ∧ head (txData tx) = Some (wrap 8 3) ∧
    txChainId tx = uval (cL1ChainID cfg) ∧
    types_Sender (cL1ChainID cfg) tx = inl sender ∧
    acts y (NumberU64 block) false (cInboxSender cfg) sender ∧
    seen t1 t2 (λ t, ∃ r, rpc_TransactionReceipt t (txHash tx) = inl (Some r) ∧
      rcTxHash r = txHash tx ∧ rcBlockHash r = bkHash block ∧ rcTransactionIndex r = wrap 64 (Z.of_nat i) ∧
      rcStatus r = ReceiptStatusSuccessful) ∧
    ∃ index start size refs, commits (txData tx) index start size refs ∧
      batch = batch_of tx block sender index start size ∧ hashes = distinct refs;
}.

(** A referenced source of that submission, inside the retention window. *)
Definition referenced (t1 t2 : nat) (cutoff : u64) (block : EthBlock) (i : nat) (y : authority)
    (hashes : list Hash) (s : BlobTransaction) : Prop :=
  btHash s ∈ hashes ∧ uval cutoff <= uval (btTimestamp s) ∧
  ∃ authorized, acts y (NumberU64 block) true (cBlobSender cfg) authorized ∧
    source_ok t1 t2 block (wrap 64 (Z.of_nat i)) authorized s.

Section mono.
Context (t1 t2 t2' : nat) (Ht : (t2 <= t2')%nat).

Lemma source_seen_mono hash b tx r : source_seen t1 t2 hash b tx r → source_seen t1 t2' hash b tx r.
Proof. intros []. split; try done; by eapply seen_mono. Qed.

Lemma source_ok_mono c i a s : source_ok t1 t2 c i a s → source_ok t1 t2' c i a s.
Proof. intros (b & tx & r & Hs & ?). exists b, tx, r. split; [by apply source_seen_mono | done]. Qed.

Lemma frames_fetched_mono s : frames_fetched t1 t2 s → frames_fetched t1 t2' s.
Proof.
  intros (b & tx & r & Hs & Ha & Hf). exists b, tx, r.
  split_and!; [by apply source_seen_mono | done..| by eapply seen_mono].
Qed.

Lemma submitted_mono from end_ y0 logs block i y batch hashes :
  submitted t1 t2 from end_ y0 logs block i y batch hashes →
  submitted t1 t2' from end_ y0 logs block i y batch hashes.
Proof.
  intros [Hb Hn Ha (tx & s & H1' & H2' & H3' & H4' & H5' & H6' & H7' & H8')].
  split; [by eapply seen_mono | done | done|]. exists tx, s. split_and!; try done. by eapply seen_mono.
Qed.

Lemma referenced_mono cutoff block i y hashes s :
  referenced t1 t2 cutoff block i y hashes s → referenced t1 t2' cutoff block i y hashes s.
Proof.
  intros (Hh & Hc & a & Ha & Hs). split_and!; [done..|]. exists a. split; [done | by apply source_ok_mono].
Qed.
End mono.

Context `{RLP, EthTx, Decompress, GethText, SortSlice}.

(** A source is used as it was stored or as it was fetched. *)
Definition kept_or_fetched (A : archive) (t1 t2 : nat) (s : BlobTransaction) : Prop :=
  ar_txs A !! btHash s = Some s ∨ frames_fetched t1 t2 s.

Lemma kept_or_fetched_mono A t1 t2 t2' s :
  (t2 <= t2')%nat → kept_or_fetched A t1 t2 s → kept_or_fetched A t1 t2' s.
Proof. intros Ht [?|Hf]; [by left | right]. by eapply frames_fetched_mono. Qed.

(** A transaction record and a channel record with their provenance. *)
Definition tx_sound (t1 t2 : nat) (from end_ cutoff : u64) (y0 : authority) (logs : list Log)
    (s : BlobTransaction) : Prop :=
  frames_fetched t1 t2 s ∧ ∃ block i y batch hashes,
    submitted t1 t2 from end_ y0 logs block i y batch hashes ∧
    referenced t1 t2 cutoff block i y hashes s.

Definition channel_sound (A : archive) (t1 t2 : nat) (from end_ cutoff : u64) (y0 : authority) (logs : list Log)
    (ch : BlobChannel) : Prop :=
  ∃ block i y batch hashes sources chs,
    submitted t1 t2 from end_ y0 logs block i y batch hashes ∧
    Forall (λ s, referenced t1 t2 cutoff block i y hashes s ∧ kept_or_fetched A t1 t2 s) sources ∧
    DecodeChannels sources batch (cL2ChainID cfg) = Ok chs ∧ ch ∈ chs.

Lemma tx_sound_mono t1 t2 t2' from end_ cutoff y0 logs s :
  (t2 <= t2')%nat → tx_sound t1 t2 from end_ cutoff y0 logs s → tx_sound t1 t2' from end_ cutoff y0 logs s.
Proof.
  intros Ht (Hf & block & i & y & batch & hashes & Hs & Hr). split; [by eapply frames_fetched_mono|].
  exists block, i, y, batch, hashes. split; [by eapply submitted_mono | by eapply referenced_mono].
Qed.

Lemma channel_sound_mono A t1 t2 t2' from end_ cutoff y0 logs ch :
  (t2 <= t2')%nat → channel_sound A t1 t2 from end_ cutoff y0 logs ch →
  channel_sound A t1 t2' from end_ cutoff y0 logs ch.
Proof.
  intros Ht (block & i & y & batch & hashes & sources & chs & Hs & Hr & ?).
  exists block, i, y, batch, hashes, sources, chs. split; [by eapply submitted_mono|]. split; [|done].
  eapply Forall_impl; [exact Hr|]. intros s [Hrs Hk].
  split; [by eapply referenced_mono | by eapply kept_or_fetched_mono].
Qed.

End evidence.

(** ** The checks *)

Section scanning.
Context `{ABILaws, !GethText, !GethTextLaws, SortSliceLaws, LogJSONLaws, MapRangeLaws, Signer}.
Context `{!BlobEnv, !BlobEnvLaws, RLPLaws, EthTxLaws, Decompress}.
Context {D B : Type} `{!Pebble D B, !PebbleLaws D B, !NoPanic D B, !Env D, !Keeps blobs_kept}.
Context (cfg : Config).

Notation world := (world D progress).
Notation wp := (wp (good (progress_ok cfg)) (calm_with blobs_kept)).

Definition still (w w' : world) : Prop := calm_with blobs_kept w w' ∧ wPriv w' = wPriv w.

#[export] Instance still_preorder : PreOrder still.
Proof.
  split; [by split|]. intros w1 w2 w3 [C1 P1] [C2 P2]. split; [by etrans | congruence].
Qed.

Lemma checkSource_spec tx b r commit index authorized :
  checkSource cfg tx b r commit index authorized ≠ Panic ∧
  (checkSource cfg tx b r commit index authorized = Ok tt →
   may_refer cfg tx b r commit index authorized).
Proof.
  unfold checkSource, transactionSender, check_chain, recover.
  destruct (negb _) eqn:Ec; [done|]. bool_to_prop. cbn [bind].
  destruct (types_Sender _ tx) as [s|e] eqn:Es; [|done]. cbn [bind].
  destruct (_ || _) eqn:E1; [done|]. bool_to_prop.
  destruct (_ || _) eqn:E2; [done|]. split; [done|]. intros _. subst s.
  apply orb_false_iff in E2 as [E2 E3]. unfold ult in E3. bool_to_prop. split; try done.
  destruct E3 as [E3|E3]; [bool_to_prop; left; lia|]. bool_to_prop.
  destruct (decide (bkNumber b = bkNumber commit)); [right | left; lia].
  split_and!; [done | done | lia].
Qed.

(** ** Sources *)

Context (T0 : nat) (A : archive).

(** The loop is past the time [T0], and the database still holds [A]. *)
Definition here (w : world) : Prop :=
  (T0 <= wClock w)%nat ∧ archived (contents (st_db (wStore w))) A.

Lemma here_still w w' : still w w' → here w → here w'.
Proof. intros [Hc _] [Ht Ha]. split; [etrans; [done | apply Hc] | by apply (c_kept Hc)]. Qed.

Lemma wp_seen {X} (Q : world → X → Prop) (f : nat → X + error) w :
  (T0 <= wClock w)%nat →
  (∀ w' x, still w w' → seen T0 (wClock w') (λ t, f t = inl x) → Q w' x) →
  wp Q (answer f) w.
Proof.
  intros Ht HQ. apply wp_answer. intros w' x Hc Hf Hcalm Hp. apply HQ; [by split|].
  exists (wClock w'). split; [lia | done].
Qed.

Lemma wp_sourceBlock (Q : world → EthBlock * Transaction * Receipt → Prop) hash w :
  (T0 <= wClock w)%nat →
  (∀ w' b tx r, source_seen T0 (wClock w') hash b tx r → still w w' → Q w' (b, tx, r)) →
  wp Q (sourceBlock hash) w.
Proof.
  intros Ht HQ. apply wp_bind; [apply _|]. apply wp_seen; [done|]. intros w1 [r|] S1 Hr; [|apply wp_fail, _].
  pose proof (c_clock (proj1 S1)).
  apply wp_bind; [apply _|]. apply wp_seen; [lia|]. intros w2 [b|] S2 Hb; [|apply wp_fail, _].
  pose proof (c_clock (proj1 S2)).
  apply wp_raise; [apply _|]. intros E. bool_to_prop.
  apply wp_lift_bind; [unfold at_; repeat case_match; try done|].
  { exfalso. match goal with Hn : _ !! _ = None |- _ => apply lookup_ge_None in Hn end. unfold len in *. lia. }
  { pose proof (uint_range (rcTransactionIndex r)). lia. }
  intros tx Htx. apply wp_raise; [apply _|]. intros E'. bool_to_prop.
  apply wp_ret; [apply _|]. intros _. apply HQ; [|by etrans].
  split; try done.
  - by eapply seen_mono.
  - unfold at_ in Htx. destruct (0 <=? _); [|done].
    destruct (bkTransactions b !! _) as [x|]; [congruence | done].
  - split; [done|]. intros Hn. unfold len in *. rewrite Hn in *. done.
Qed.

Lemma answer_Err {X} (f : nat → X + error) (w w' : world) e :
  status_ok (wStatus w) → answer f w = (w', Err e) → (wClock w < wClock w')%nat ∧ f (wClock w') = inr e.
Proof.
  intros Hw. unfold answer, mbind. destruct (yield_Ok (K := blobs_kept) w Hw) as (w1 & Ey & _). rewrite Ey.
  apply yield_clock in Ey. destruct (f (wClock w1)) eqn:Ef; [done|]. intros [= <- <-]. split; [lia | done].
Qed.

Lemma wp_fetch_frames (Q : world → option (list Frame) → Prop) h hashes w :
  (T0 <= wClock w)%nat →
  (∀ w' o, still w w' →
     seen T0 (wClock w') (λ t, match o with
       | Some frames => src_Frames t h hashes = inl frames
       | None => ∃ e, src_Frames t h hashes = inr e ∧ errors_Is e ErrMissing = true end) → Q w' o) →
  wp Q (fetch_frames h hashes) w.
Proof.
  intros Ht HQ [Hw HJ]. unfold fetch_frames.
  destruct (safe_answer (K := blobs_kept) (λ t, src_Frames t h hashes) w Hw) as [Hq Hp].
  pose proof (keeps_priv_answer (P := progress) (λ t, src_Frames t h hashes) w) as Hk.
  destruct (answer _ w) as [w' [frames|e|]] eqn:Ea; simpl in *; [| |done].
  - apply answer_Ok in Ea as [Hc Hf]. assert (calm_with blobs_kept w w') as Hcalm by by apply quiet_calm.
    split_and!; [split; [apply Hq | by rewrite Hk] | done | done|].
    intros o [= <-]. apply HQ; [by split|]. exists (wClock w'). split; [lia | done].
  - apply answer_Err in Ea as [Hc Hf]; [|done].
    assert (calm_with blobs_kept w w') as Hcalm by by apply quiet_calm.
    destruct (errors_Is e ErrMissing) eqn:Em; simpl.
    + split_and!; [split; [apply Hq | by rewrite Hk] | done | done|].
      intros o [= <-]. apply HQ; [by split|]. exists (wClock w'). split; [lia | by exists e].
    + split_and!; [split; [apply Hq | by rewrite Hk] | done | done|]. done.
Qed.


Lemma wp_fetchTransaction (Q : world → BlobTransaction → Prop) hash commit index sender cutoff w :
  (T0 <= wClock w)%nat →
  (∀ w' s, btHash s = hash → source_ok cfg T0 (wClock w') commit index sender s →
     (uval cutoff <= uval (btTimestamp s) → frames_fetched T0 (wClock w') s) → still w w' → Q w' s) →
  wp Q (fetchTransaction cfg hash commit index sender cutoff) w.
Proof.
  intros Ht HQ. apply wp_bind; [apply _|]. apply wp_sourceBlock; [done|].
  intros w1 b tx r Hs S1. pose proof (c_clock (proj1 S1)).
  destruct (checkSource_spec tx b r commit index sender) as [Hnp Hok].
  apply wp_lift_bind; [done|]. intros [] Hm%Hok.
  assert (about (source_record hash b r) b tx r) as Hab.
  { split_and!; try done. simpl. symmetry. apply Hs. }
  destruct (ult (bkTime b) cutoff) eqn:Eu; unfold ult in Eu; bool_to_prop.
  { apply wp_ret; [apply _|]. intros _. apply HQ; [done | by exists b, tx, r | simpl; lia | done]. }
  apply wp_bind; [apply _|]. apply wp_fetch_frames; [lia|]. intros w2 o S2 Hf.
  pose proof (c_clock (proj1 S2)).
  assert (source_seen T0 (wClock w2) hash b tx r) as Hs2 by (by eapply source_seen_mono; [|exact Hs]).
  destruct o as [frames|]; (apply wp_ret; [apply _|]; intros _); (apply HQ; [done | by exists b, tx, r | | by etrans]).
  - intros _. exists b, tx, r. split_and!; [done | apply Hab..|]. destruct Hf as (t & Ht' & Hf).
    exists t. split; [done|]. by rewrite Hf.
  - intros _. exists b, tx, r. split_and!; [done | apply Hab..|]. destruct Hf as (t & Ht' & e & Hf & He).
    exists t. split; [done|]. by rewrite Hf.
Qed.

Lemma wp_validateSource (Q : world → unit → Prop) s commit index sender w :
  (T0 <= wClock w)%nat →
  (∀ w', source_ok cfg T0 (wClock w') commit index sender s → still w w' → Q w' tt) →
  wp Q (validateSource cfg s commit index sender) w.
Proof.
  intros Ht HQ. apply wp_bind; [apply _|]. apply wp_sourceBlock; [done|].
  intros w1 b tx r Hs S1. apply wp_raise; [apply _|]. intros E. bool_to_prop.
  destruct (checkSource_spec tx b r commit index sender) as [Hnp Hok].
  apply wp_lift; [apply _ | done|]. intros [] Hm%Hok _. apply HQ; [|done].
  exists b, tx, r. split_and!; [done | done |]. split_and!; try done. symmetry. apply Hs.
Qed.

(** What the loop keeps of the sources it has seen. *)
Definition cache_ok (t2 : nat) (cutoff : u64) (c : gmap Hash BlobTransaction) : Prop :=
  map_Forall (λ h s, btHash s = h ∧ (uval cutoff <= uval (btTimestamp s) → kept_or_fetched A T0 t2 s)) c.

Lemma cache_ok_mono t2 t2' cutoff c : (t2 <= t2')%nat → cache_ok t2 cutoff c → cache_ok t2' cutoff c.
Proof.
  intros Ht Hc. eapply map_Forall_impl; [exact Hc|]. intros h s [Hh Hk]. split; [done|].
  intros Hcut. eapply kept_or_fetched_mono; [exact Ht | auto].
Qed.

(** A resolved reference: the new result and the source. *)
Record resolved (t2 : nat) (cutoff : u64) (commit : EthBlock) (index : u64) (sender : Address)
    (hash : Hash) (result result' : scanResult) (s : BlobTransaction) : Prop := {
  rs_hash : btHash s = hash;
  rs_source : source_ok cfg T0 t2 commit index sender s;
  rs_kept : uval cutoff <= uval (btTimestamp s) → kept_or_fetched A T0 t2 s;
  rs_cache : cache_ok t2 cutoff (srCache result');
  rs_channels : srChannels result' = srChannels result;
  rs_txs : srTxs result' = srTxs result ∨
    srTxs result' = srTxs result ++ [s] ∧ uval cutoff <= uval (btTimestamp s) ∧ frames_fetched T0 t2 s;
}.

Lemma StoreBlobTransaction_spec (s : Store D) hash :
  StoreBlobTransaction s hash ≠ Panic ∧
  (archived (contents (st_db s)) A → ∀ t, StoreBlobTransaction s hash = Ok (Some t) →
   btHash t = hash ∧ ar_txs A !! hash = Some t).
Proof.
  unfold StoreBlobTransaction. destruct (st_closed s); [done|]. split.
  - apply bind_no_panic.
    + unfold readJSON. apply bind_no_panic.
      * unfold readValue. pose proof (db_Get_no_panic (st_db s) (blobKey "tx" (hash_bytes hash))).
        destruct (Get _ _) as [v|e|]; [done | by destruct (errors_Is e ErrNotFound) | done].
      * intros [raw|] _; [|done]. destruct (json_Unmarshal raw); [|done]. by destruct (bool_decide _).
    + intros [t|] _; [|done]. by destruct (negb _).
  - intros HA t E. apply bind_Ok_inv in E as (o & Ho & E). destruct o as [t'|]; [|done].
    destruct (negb _) eqn:Eh; [done|]. injection E as ->. bool_to_prop. split; [done|].
    apply (readJSON_Ok _ _ _ (ar_txs A !! hash)) in Ho; [naive_solver|].
    apply (hk_lookup _ _ _ (av_layout _ _ HA) (KTx hash)).
Qed.

Lemma wp_resolveSource (Q : world → scanResult * BlobTransaction → Prop) result hash block index sender cutoff w :
  here w → cache_ok (wClock w) cutoff (srCache result) →
  (∀ w' result' s, resolved (wClock w') cutoff block index sender hash result result' s →
     still w w' → Q w' (result', s)) →
  wp Q (resolveSource cfg result hash block index sender cutoff) w.
Proof.
  intros Hw Hcache HQ. unfold resolveSource.
  assert (∀ w1 result1 s, still w w1 → btHash s = hash → srChannels result1 = srChannels result →
    srTxs result1 = srTxs result → cache_ok (wClock w1) cutoff (srCache result1) →
    (uval cutoff <= uval (btTimestamp s) → kept_or_fetched A T0 (wClock w1) s) →
    wp Q (do! _ := validateSource cfg s block index sender in ret (result1, s)) w1) as Hval.
  { intros w1 result1 s S1 Hh Hch Htx Hc Hk. apply wp_bind; [apply _|].
    apply wp_validateSource; [by apply (here_still _ _ S1)|]. intros w2 Hs S2.
    pose proof (c_clock (proj1 S2)). apply wp_ret; [apply _|]. intros _.
    apply HQ; [|by etrans]. split; [done | done | | by eapply cache_ok_mono | done | by left].
    intros Hcut. eapply kept_or_fetched_mono; [done | auto]. }
  destruct (srCache result !! hash) as [s|] eqn:Es.
  { destruct (Hcache hash s Es) as [Hh Hk]. by apply Hval. }
  apply wp_bind; [apply _|]. apply wp_wrap. apply wp_read_store; [intros d; apply (StoreBlobTransaction_spec d hash)|].
  intros w1 saved Hsaved C1 P1. assert (still w w1) as S1 by by split.
  pose proof (here_still _ _ S1 Hw) as Hw1. pose proof (c_clock C1).
  assert (cache_ok (wClock w1) cutoff (srCache result)) as Hcache1 by by eapply cache_ok_mono.
  destruct saved as [s|].
  { apply StoreBlobTransaction_spec in Hsaved as [Hh Hin]; [|apply Hw1].
    assert (kept_or_fetched A T0 (wClock w1) s) as Hk by (left; by rewrite Hh).
    apply Hval; [done..| |done]. apply map_Forall_insert_2; [done | exact Hcache1]. }
  apply wp_bind; [apply _|]. apply wp_fetchTransaction; [apply Hw1|]. intros w2 s Hh Hs Hf S2.
  pose proof (c_clock (proj1 S2)). apply wp_ret; [apply _|]. intros _. apply HQ; [|by etrans].
  assert (uval cutoff <= uval (btTimestamp s) → kept_or_fetched A T0 (wClock w2) s) as Hk by (intros ?; right; auto).
  assert (cache_ok (wClock w2) cutoff (<[hash := s]> (srCache result))) as Hc2.
  { apply map_Forall_insert_2; [done | by eapply cache_ok_mono]. }
  unfold ule. destruct (Z.leb_spec (uval cutoff) (uval (btTimestamp s))); split; try done; [right | by left].
  split_and!; [done | done | auto].
Qed.


(** ** Submissions *)

Context (from end_ cutoff : u64) (y0 : authority) (logs : list Log).

Record result_ok (t2 : nat) (r : scanResult) : Prop := {
  ro_cache : cache_ok t2 cutoff (srCache r);
  ro_txs : Forall (tx_sound cfg T0 t2 from end_ cutoff y0 logs) (srTxs r);
  ro_channels : Forall (channel_sound cfg A T0 t2 from end_ cutoff y0 logs) (srChannels r);
}.

Lemma result_ok_mono t2 t2' r : (t2 <= t2')%nat → result_ok t2 r → result_ok t2' r.
Proof.
  intros Ht [Hc Htx Hch]. split.
  - by eapply cache_ok_mono.
  - eapply Forall_impl; [exact Htx|]. intros s. by apply tx_sound_mono.
  - eapply Forall_impl; [exact Hch|]. intros s. by apply channel_sound_mono.
Qed.

Lemma wp_still {X} (Q : world → X → Prop) m w :
  wp (λ w' x, still w w' → Q w' x) m w → keeps_priv m → wp Q m w.
Proof.
  intros Hm Hk Hw. destruct (Hm Hw) as (Hi & Hc & Hp & HQ). split_and!; [done..|].
  intros a Ha. apply HQ; [done|]. split; [done | apply Hk].
Qed.

Lemma wp_receipt (Q : world → Receipt → Prop) hash block index w :
  (T0 <= wClock w)%nat →
  (∀ w' r, still w w' →
     seen T0 (wClock w') (λ t, rpc_TransactionReceipt t hash = inl (Some r)) →
     rcTxHash r = hash → rcBlockHash r = bkHash block → rcTransactionIndex r = index → Q w' r) →
  wp Q (receipt hash block index) w.
Proof.
  intros Ht HQ. apply wp_bind; [apply _|]. apply wp_seen; [done|]. intros w1 [r|] S1 Hr; [|apply wp_fail, _].
  apply wp_raise; [apply _|]. intros E. bool_to_prop. apply wp_ret; [apply _|]. intros _. by apply HQ.
Qed.

(** The loop over the references of a submission. *)
Definition collected_sources (t2 : nat) (block : EthBlock) (i : nat) (authorized : Address)
    (before : list Hash) (channels : list BlobChannel) (txs : list BlobTransaction)
    (st : scanResult * list BlobTransaction) : Prop :=
  cache_ok t2 cutoff (srCache st.1) ∧ srChannels st.1 = channels ∧
  (∃ new, srTxs st.1 = txs ++ new ∧
     Forall (λ s, btHash s ∈ before ∧ uval cutoff <= uval (btTimestamp s) ∧
       source_ok cfg T0 t2 block (wrap 64 (Z.of_nat i)) authorized s ∧ frames_fetched T0 t2 s) new) ∧
  Forall (λ s, btHash s ∈ before ∧ uval cutoff <= uval (btTimestamp s) ∧
    source_ok cfg T0 t2 block (wrap 64 (Z.of_nat i)) authorized s ∧ kept_or_fetched A T0 t2 s) st.2.

Lemma collected_sources_mono t2 t2' block i a before chs txs st :
  (t2 <= t2')%nat → collected_sources t2 block i a before chs txs st →
  collected_sources t2' block i a before chs txs st.
Proof.
  intros Ht (Hc & Hch & (new & Hn & Hnew) & Hs). split_and!; [by eapply cache_ok_mono | done | |].
  - exists new. split; [done|]. eapply Forall_impl; [exact Hnew|]. intros s (? & ? & Hs1 & Hs2).
    split_and!; [done..| by eapply source_ok_mono | by eapply frames_fetched_mono].
  - eapply Forall_impl; [exact Hs|]. intros s (? & ? & Hs1 & Hs2).
    split_and!; [done..| by eapply source_ok_mono | by eapply kept_or_fetched_mono].
Qed.

Lemma wp_resolve_reference block i a before chs txs hash st w :
  here w → collected_sources (wClock w) block i a before chs txs st →
  wp (λ w' st', still w w' ∧ collected_sources (wClock w') block i a (before ++ [hash]) chs txs st')
    (resolve_reference cfg block (wrap 64 (Z.of_nat i)) a cutoff st hash) w.
Proof.
  intros Hw Hcol. destruct st as [result sources]. apply wp_bind; [apply _|].
  apply wp_resolveSource; [done | apply Hcol|]. intros w1 result1 s Hr S1.
  apply wp_ret; [apply _|]. intros _. split; [done|].
  pose proof (c_clock (proj1 S1)) as Hc.
  destruct (collected_sources_mono _ _ _ _ _ _ _ _ _ Hc Hcol) as (_ & Hch & (new & Hn & Hnew) & Hs).
  destruct Hr as [Hh Hsrc Hk Hcache Hchs Htxs]. simpl in *.
  assert (∀ P : BlobTransaction → Prop, (∀ x, P x → True) →
    (∀ l, Forall (λ s, btHash s ∈ before ∧ P s) l → Forall (λ s, btHash s ∈ before ++ [hash] ∧ P s) l)) as Hmore.
  { intros P _ l Hl. eapply Forall_impl; [exact Hl|]. intros x [? ?]. split; [set_solver | done]. }
  split_and!; simpl; [done | congruence | |].
  - destruct Htxs as [->|(-> & Hcut & Hf)].
    + exists new. split; [done|]. by apply Hmore.
    + exists (new ++ [s]). rewrite Hn, app_assoc. split; [done|]. apply Forall_app. split; [by apply Hmore|].
      constructor; [|done]. split_and!; [set_solver | done..].
  - unfold ule. destruct (Z.leb_spec (uval cutoff) (uval (btTimestamp s))); [|by apply Hmore].
    apply Forall_app. split; [by apply Hmore|]. constructor; [|done]. split_and!; [set_solver | done..| auto].
Qed.

Lemma wp_resolve_references block i a result hashes w :
  here w → cache_ok (wClock w) cutoff (srCache result) →
  wp (λ w' st', still w w' ∧ collected_sources (wClock w') block i a hashes
        (srChannels result) (srTxs result) st')
    (forM (resolve_reference cfg block (wrap 64 (Z.of_nat i)) a cutoff) (result, []) hashes) w.
Proof.
  intros Hw Hcache.
  apply (wp_forM _ _ _ (λ before w' st', still w w' ∧ collected_sources (wClock w') block i a before
        (srChannels result) (srTxs result) st') hashes).
  - split; [done|]. split_and!; [done | done | | constructor]. exists []. split; [by rewrite app_nil_r | done].
  - intros before hash post st w1 _ [S1 Hc]. eapply wp_mono.
    { apply wp_resolve_reference; [by eapply here_still | exact Hc]. }
    intros w2 st' _ _ [S2 Hc']. split; [by etrans | done].
Qed.

Lemma DecodeChannels_no_panic txs batch chain : DecodeChannels txs batch chain ≠ Panic.
Proof. destruct (DecodeChannels_cases txs batch chain) as [(? & ? & -> & _)|(? & -> & _)]; done. Qed.

Lemma wp_submission y tx block i result w :
  here w → result_ok (wClock w) result →
  seen T0 (wClock w) (λ t, rpc_BlockByNumber t (NumberU64 block) = inl (Some block)) →
  IsUint64 (bkNumber block) = true → uval from <= bkNumber block <= uval end_ →
  authority_at (cAddressManager cfg) y0 logs (NumberU64 block) i y →
  bkTransactions block !! i = Some tx →
  wp (λ w' r, still w w' ∧ result_ok (wClock w') r)
    (submission cfg (of_authority y) tx block (wrap 64 (Z.of_nat i)) cutoff result) w.
Proof.
  intros Hw Hres Hblk Hnum Hrange Hauth Htx. unfold submission.
  assert (∀ w1, still w w1 → still w w1 ∧ result_ok (wClock w1) result) as Hkeep.
  { intros w1 S1. split; [done|]. eapply result_ok_mono; [apply S1 | done]. }
  destruct (negb (to_inbox cfg tx)) eqn:Eto.
  { apply wp_ret; [apply _|]. intros _. by apply Hkeep. }
  unfold to_inbox in Eto. bool_to_prop.
  apply wp_lift_bind; [unfold recover; by destruct (types_Sender _ _)|]. intros sender Hsender.
  assert (types_Sender (cL1ChainID cfg) tx = inl sender) as Hs.
  { unfold recover in Hsender. destruct (types_Sender _ _); [by injection Hsender as -> | done]. }
  case_bool_decide as Hact; cbn [negb].
  2:{ apply wp_ret; [apply _|]. intros _. by apply Hkeep. }
  pose proof (sender_acts y (NumberU64 block) false (cInboxSender cfg)) as Hacts. rewrite <-Hact in Hacts.
  apply wp_lift_bind; [unfold check_chain; by destruct (negb _)|]. intros [] Hchain.
  unfold check_chain in Hchain. destruct (negb _) eqn:Ech in Hchain; [done|]. bool_to_prop.
  apply wp_bind; [apply _|]. apply wp_receipt; [apply Hw|]. intros w1 r S1 Hr Hrh Hrb Hri.
  pose proof (c_clock (proj1 S1)) as Hc1.
  case_bool_decide as Hst; cbn [negb].
  2:{ apply wp_ret; [apply _|]. intros _. by apply Hkeep. }
  destruct (parseSubmission_cases tx block sender) as
    [(index & start & size & refs & Hcm & Hp)|[_ (e & Hp & _)]]; rewrite Hp.
  2:{ apply wp_lift_bind; [done|]. done. }
  apply wp_lift_bind; [done|]. intros [batch hashes] [= <- <-].
  set (batch := batch_of tx block sender index start size).
  assert (submitted cfg T0 (wClock w1) from end_ y0 logs block i y batch (distinct refs)) as Hsub.
  { split; [by eapply seen_mono | done | done|]. exists tx, sender. split_and!; try done.
    - destruct Hr as (t & Ht & Hr). exists t. split; [done|]. by exists r.
    - by exists index, start, size, refs. }
  pose proof (sender_acts y (NumberU64 block) true (cBlobSender cfg)) as Hblob.
  apply wp_bind; [apply _|]. eapply wp_mono.
  { apply wp_resolve_references; [by eapply here_still|]. eapply result_ok_mono; [exact Hc1 | done]. }
  intros w2 [result2 sources] _ _ [S2 (Hcache & Hchs & (new & Hn & Hnew) & Hsrc)]. simpl in *.
  pose proof (c_clock (proj1 S2)) as Hc2.
  pose proof (submitted_mono _ _ _ _ Hc2 _ _ _ _ _ _ _ _ _ Hsub) as Hsub2.
  apply wp_lift_bind; [apply DecodeChannels_no_panic|]. intros decoded Hdec.
  apply wp_ret; [apply _|]. intros _. split; [by etrans|].
  destruct (result_ok_mono (wClock w) (wClock w2) result ltac:(lia) Hres) as [_ Rtx Rch].
  split; cbn [srCache srTxs srChannels]; [done | |].
  - rewrite Hn. apply Forall_app. split; [done|]. eapply Forall_impl; [exact Hnew|].
    intros s (Hin & Hcut & Hok & Hf). split; [done|]. exists block, i, y, batch, (distinct refs).
    split; [done|]. split_and!; [done..|]. by eexists.
  - rewrite Hchs. apply Forall_app. split; [done|]. apply Forall_forall. intros ch Hch.
    exists block, i, y, batch, (distinct refs), sources, decoded. split_and!; [done | | done..].
    eapply Forall_impl; [exact Hsrc|]. intros s (Hin & Hcut & Hok & Hk). split; [|done].
    split_and!; [done..|]. by eexists.
Qed.

End scanning.
