(* ===== verification/ScanWalk.v ===== *)
(** * The walk over a scanned range

    The authorization logs are applied in their order, each before the first
    transaction that is later than it: every submission is judged by the
    senders that were announced before it, and a scan returns the authority
    that all the logs lead to. *)
From S2P Require Import Prelude StateMonad Word Json Geth GoMap Pebble StoreTypes DepositStore BlobStore.
From S2P Require Import BlobStoreFacts BlobCommit BlobTheorems Config Status Service ServiceFacts.
From S2P Require Import Logs LogFacts Auth AuthFacts BlobWorld BlobWorldFacts.
From S2P Require Import BlobCodec SpanReader Span SpanFacts SpanTheorems Channels ChannelFacts ChannelTheorems.
From S2P Require Import Scan Submission ScanFacts.

(** ** Applying the logs that are due *)

Lemma apply_due_cases `{ABILaws} mgr due ls : ∀ y,
  Forall (λ l, lTopics l ≠ []) ls →
  apply_due mgr due (of_authority y) ls ≠ Panic ∧
  ∀ a rest, apply_due mgr due (of_authority y) ls = Ok (a, rest) →
    ∃ y' now, a = of_authority y' ∧ ls = now ++ rest ∧ history mgr y now y' ∧
      Forall (λ l, due l = true) now ∧ (∀ l, head rest = Some l → due l = false).
Proof.
  induction ls as [|l ls IH]; intros y Ht; cbn [apply_due].
  { split; [done|]. intros ? ? [= <- <-]. exists y, []. split_and!; [done | done | constructor | done..]. }
  apply Forall_cons in Ht as [Hl Ht]. destruct (due l) eqn:Ed.
  - destruct (apply_cases y mgr l Hl) as [(y1 & Ha & ->)|[_ (e & -> & _)]]; [|done]. cbn [bind].
    destruct (IH y1 Ht) as [Hnp Hok]. split; [done|]. intros a rest E.
    destruct (Hok a rest E) as (y' & now & -> & -> & Hh & Hnow & Hrest).
    exists y', (l :: now). split_and!; [done | done | by econstructor | by constructor | done].
  - split; [done|]. intros ? ? [= <- <-]. exists y, [].
    split_and!; [done | done | constructor | done|]. by intros ? [= <-].
Qed.

Lemma due_before_iff h i l :
  Z.of_nat i < 2 ^ 64 → due_before h (wrap 64 (Z.of_nat i)) l = true ↔ before_tx h i l.
Proof.
  intros Hi. unfold due_before, before_tx, ult.
  rewrite uval_wrap_small by (change (modulus 64) with (2 ^ 64); lia).
  rewrite orb_true_iff, andb_true_iff, bool_decide_eq_true, !Z.ltb_lt. done.
Qed.

Section walk.
Context `{ABILaws, !GethText, !GethTextLaws, SortSliceLaws, LogJSONLaws, MapRangeLaws, Signer}.
Context `{!BlobEnv, !BlobEnvLaws, RLPLaws, EthTxLaws, Decompress}.
Context {D B : Type} `{!Pebble D B, !PebbleLaws D B, !NoPanic D B, !Env D, !Keeps blobs_kept}.
Context (cfg : Config).

Notation world := (world D progress).
Notation wp := (wp (good (progress_ok cfg)) (calm_with blobs_kept)).
Notation mgr := (cAddressManager cfg).

Context (T0 : nat) (A : archive) (from end_ cutoff : u64) (y0 : authority) (logs : list Log).
Context (Htopics : Forall (λ l, lTopics l ≠ []) logs).

Notation result_ok := (result_ok cfg T0 A from end_ cutoff y0 logs).
Notation here := (here T0 A).

(** The applied logs satisfy [P]; the rest is still to come. *)
Definition applied (P : Log → Prop) (st : walk) (y : authority) : Prop :=
  wkAuth st = of_authority y ∧
  ∃ past, logs = past ++ wkLogs st ∧ Forall P past ∧ history mgr y0 past y.

Definition walked (P : Log → Prop) (w : world) (st : walk) : Prop :=
  here w ∧ result_ok (wClock w) (wkResult st) ∧ ∃ y, applied P st y.

Lemma walked_still P w w' st : still w w' → walked P w st → walked P w' st.
Proof.
  intros S (Hw & Hr & Hy). split_and!; [by eapply here_still | | done].
  eapply result_ok_mono; [apply S | done].
Qed.

Lemma walked_impl (P P' : Log → Prop) w st : (∀ l, P l → P' l) → walked P w st → walked P' w st.
Proof.
  intros HP (Hw & Hr & y & Ha & past & Hl & Hp & Hh). split_and!; [done..|].
  exists y. split; [done|]. exists past. split_and!; [done | by eapply Forall_impl | done].
Qed.

(** Applying what is due, in the middle of the walk. *)
Lemma applied_due (P : Log → Prop) due st y :
  (∀ l, due l = true → P l) → applied P st y →
  apply_due mgr due (wkAuth st) (wkLogs st) ≠ Panic ∧
  ∀ a rest, apply_due mgr due (wkAuth st) (wkLogs st) = Ok (a, rest) →
    ∃ y', a = of_authority y' ∧ (∀ r, applied P (mkWalk a rest r) y') ∧
      ∀ l, head rest = Some l → due l = false.
Proof.
  intros Hdue (-> & past & Hl & Hpast & Hh).
  assert (Forall (λ l, lTopics l ≠ []) (wkLogs st)) as Ht.
  { rewrite Hl in Htopics. by apply Forall_app in Htopics as [_ ?]. }
  destruct (apply_due_cases mgr due (wkLogs st) y Ht) as [Hnp Hok]. split; [done|].
  intros a rest E. destruct (Hok a rest E) as (y' & now & -> & Hnow & Hh' & Hd & Hrest).
  exists y'. split_and!; [done | | done]. intros r. split; [done|]. exists (past ++ now). cbn [wkLogs].
  split_and!; [by rewrite <-app_assoc, <-Hnow | |].
  - apply Forall_app. split; [done|]. eapply Forall_impl; [exact Hd|]. auto.
  - apply history_app. by exists y.
Qed.

Lemma wp_scan_tx block i tx st w :
  walked (before_tx (NumberU64 block) i) w st →
  seen T0 (wClock w) (λ t, rpc_BlockByNumber t (NumberU64 block) = inl (Some block)) →
  IsUint64 (bkNumber block) = true → uval from <= bkNumber block <= uval end_ →
  bkTransactions block !! i = Some tx → Z.of_nat i < 2 ^ 63 →
  wp (λ w' st', still w w' ∧ walked (before_tx (NumberU64 block) (S i)) w' st')
    (scan_tx cfg cutoff (NumberU64 block) block st (i, tx)) w.
Proof.
  intros (Hw & Hr & y & Hy) Hb Hn Hrange Htx Hi. unfold scan_tx.
  destruct (applied_due (before_tx (NumberU64 block) i)
    (due_before (NumberU64 block) (wrap 64 (Z.of_nat i))) st y) as [Hnp Hok]; [|done|].
  { intros l. apply due_before_iff. lia. }
  apply wp_lift_bind; [done|]. intros [a rest] E. destruct (Hok a rest E) as (y' & -> & Hap & Hrest).
  apply wp_bind; [apply _|]. eapply wp_mono.
  { apply (wp_submission cfg T0 A from end_ cutoff y0 logs y'); try done.
    destruct (Hap (wkResult st)) as (_ & past & Hl & Hp & Hh). exists past, rest. split_and!; try done.
    intros l Hl' Hbef. apply (due_before_iff _ i l ltac:(lia)) in Hbef. by rewrite (Hrest l Hl') in Hbef. }
  intros w1 r _ _ [S1 Hr1]. apply wp_ret; [apply _|]. intros _. split; [done|].
  apply (walked_impl (before_tx (NumberU64 block) i)).
  { intros l [?|[? ?]]; [by left | right; split; [done | lia]]. }
  split_and!; [by eapply here_still | done|]. by exists y'.
Qed.

(** The logs of the blocks below [n]. *)
Definition below (n : Z) (l : Log) : Prop := uval (lBlockNumber l) < n.

Lemma wp_scan_block height st w :
  walked (below (uval height)) w st → uval from <= uval height <= uval end_ →
  wp (λ w' st', still w w' ∧ walked (below (uval height + 1)) w' st')
    (scan_block cfg cutoff st height) w.
Proof.
  intros Hst Hrange. apply wp_bind; [apply _|]. apply (wp_seen cfg T0); [apply Hst|].
  intros w1 [block|] S1 Hb; [|apply wp_fail, _]. apply wp_raise; [apply _|]. intros E. apply orb_false_iff in E as [En Eh].
  bool_to_prop. subst height.
  assert (len (bkTransactions block) < 2 ^ 63) as Hlen.
  { destruct Hb as (t & _ & Hb). by apply block_length in Hb. }
  assert (uval (NumberU64 block) = bkNumber block) as Hnum.
  { apply IsUint64_iff in En. unfold NumberU64. apply uval_wrap_small. exact En. }
  apply wp_bind; [apply _|]. eapply wp_mono.
  { apply (wp_forM _ _ _ (λ pre w2 st', still w1 w2 ∧
      walked (before_tx (NumberU64 block) (length pre)) w2 st') (imap pair (bkTransactions block))).
    - split; [done|]. apply (walked_still _ w); [done|]. eapply walked_impl; [|exact Hst].
      intros l. unfold below. by left.
    - intros pre [i tx] post st1 w2 Hpre [S2 Hst1].
      assert (i = length pre ∧ bkTransactions block !! i = Some tx) as [-> Htx].
      { assert (imap pair (bkTransactions block) !! length pre = Some (i, tx)) as Hi
          by (rewrite Hpre; apply list_lookup_middle; done).
        rewrite list_lookup_imap in Hi. destruct (bkTransactions block !! length pre) eqn:Et; [|done].
        simpl in Hi. injection Hi as <- <-. done. }
      apply lookup_lt_Some in Htx as Hlt. unfold len in Hlen.
      eapply wp_mono.
      { apply wp_scan_tx; try done; [|lia..].
        eapply seen_mono; [|exact Hb]. apply S2. }
      intros w3 st3 _ _ [S3 Hst3]. split; [by etrans|].
      by rewrite length_app, Nat.add_1_r. }
  intros w2 st2 _ _ [S2 Hst2].
  apply (walked_impl _ (below (uval (NumberU64 block) + 1))) in Hst2.
  2:{ unfold below. intros l [?|[-> _]]; lia. }
  destruct Hst2 as (Hw2 & Hr2 & y & Hy).
  destruct (applied_due (below (uval (NumberU64 block) + 1)) (due_in (NumberU64 block)) st2 y)
    as [Hnp Hok]; [|done|].
  { intros l. unfold due_in, below. rewrite bool_decide_eq_true. intros ->. lia. }
  apply wp_lift_bind; [done|]. intros [a rest] Ea. destruct (Hok a rest Ea) as (y' & -> & Hap & _).
  apply wp_ret; [apply _|]. intros _. split; [by etrans|]. split_and!; [done..|]. by exists y'.
Qed.

Lemma heights_at pre h post :
  uval from <= uval end_ → heights from end_ = pre ++ h :: post →
  uval h = uval from + len pre ∧ uval h <= uval end_.
Proof.
  intros Hfe Hl.
  assert (heights from end_ !! length pre = Some h) as Hh by (rewrite Hl; by apply list_lookup_middle).
  unfold heights in Hh. rewrite list_lookup_fmap in Hh. apply fmap_Some in Hh as (z & Hz & ->).
  apply lookup_seqZ in Hz as [-> Hz]. fold (len pre) in *.
  assert (0 <= len pre) by (unfold len; lia).
  assert (uval (usub end_ from) = uval end_ - uval from) as Hd by ulia. rewrite Hd in Hz. ulia.
Qed.

Lemma heights_length : uval from <= uval end_ → len (heights from end_) = uval end_ - uval from + 1.
Proof.
  intros Hfe. unfold heights, len. rewrite length_fmap, length_seqZ.
  assert (uval (usub end_ from) = uval end_ - uval from) as -> by ulia. lia.
Qed.

Lemma empty_scan_ok t : result_ok t empty_scan.
Proof. split; [apply map_Forall_empty | constructor | constructor]. Qed.

(** A scan that returns has applied all the logs. *)
Lemma wp_scan (Q : world → authorization * list BlobTransaction * list BlobChannel → Prop) w :
  here w → uval from <= uval end_ →
  (∀ w' y txs chs, history mgr y0 logs y →
     Forall (tx_sound cfg T0 (wClock w') from end_ cutoff y0 logs) txs →
     Forall (channel_sound cfg A T0 (wClock w') from end_ cutoff y0 logs) chs →
     still w w' → Q w' (of_authority y, txs, chs)) →
  wp Q (scan cfg (of_authority y0) logs from end_ cutoff) w.
Proof.
  intros Hw Hfe HQ. apply wp_bind; [apply _|]. eapply wp_mono.
  { apply (wp_forM _ _ _ (λ pre w1 st, still w w1 ∧ walked (below (uval from + len pre)) w1 st)
      (heights from end_)).
    - split; [done|]. split_and!; [done | apply empty_scan_ok|]. exists y0. split; [done|].
      exists []. split_and!; [done | done | constructor].
    - intros pre h post st w1 Hl [S1 Hst]. destruct (heights_at _ _ _ Hfe Hl) as [Hh Hle].
      eapply wp_mono.
      { apply wp_scan_block; [by rewrite Hh|]. unfold len in *. lia. }
      intros w2 st2 _ _ [S2 Hst2]. split; [by etrans|].
      unfold len in *. rewrite length_app. simpl. rewrite Hh in Hst2.
      replace (uval from + Z.of_nat (length pre + 1)) with (uval from + Z.of_nat (length pre) + 1) by lia.
      done. }
  intros w1 st _ _ [S1 (_ & [_ Htx Hch] & y & -> & past & Hl & _ & Hh)].
  apply wp_raise; [apply _|]. intros E. bool_to_prop. apply wp_ret; [apply _|]. intros _.
  assert (wkLogs st = []) as Hn by (destruct (wkLogs st); [done | unfold len in E; simpl in E; lia]).
  rewrite Hn, app_nil_r in Hl. subst past. by apply HQ.
Qed.

End walk.
