(* ===== verification/BlobSync.v ===== *)
(** * Blob ingestion (internal/blobingest/syncer.go)

    [Step] first moves the retention cutoff, then scans one range of L1
    blocks and commits what it recovered with the new checkpoint. *)
From S2P Require Import Prelude StateMonad Word Json Geth GoMap Pebble StoreTypes DepositStore BlobStore.
From S2P Require Import Config Status Service Logs Auth BlobWorld BlobCodec SpanReader Span Channels Scan.

Section sync.
Context `{GethText, ABI, LogJSON, SortSlice, MapRange, Signer, BlobEnv}.
Context `{RLP, EthTx, Decompress}.
Context {D B : Type} `{Pebble D B, Env D}.
Notation M := (M D progress).

Definition commit (before after : BlobState) (txs : list BlobTransaction)
    (channels : list BlobChannel) : M unit :=
  commit_with (λ s, CommitBlob s before after txs channels).

Definition read_state : M BlobState := wrap_error (wrapf ErrIntegrity) (read_store StoreBlobState).

(** ** The retention window *)

Definition with_retention (st : BlobState) (cutoff height : u64) (hash : Hash) : BlobState :=
  mkBlobState (bsRevision st) (bsHeight st) (bsHash st) cutoff (Some height) hash
    (bsLatest st) (bsAuth st).

(** [st.Height != nil && *st.Height >= target] *)
Definition caught_up (st : BlobState) (target : u64) : bool :=
  match bsHeight st with Some n => ule target n | None => false end.

Definition prepare (cfg : Config) : M (BlobState * u64) :=
  do! st := read_state in
  do! _ := checkpoint st in
  do! tip := HeaderByNumber None in
  match header_number tip with
  | None => fail (fatal "invalid L1 tip")
  | Some tip =>
      let target := if ule (cConfirmations cfg) tip then usub tip (cConfirmations cfg) else #64 0 in
      do! confirmed := header target in
      do! _ := status_SetBlobReady (caught_up st target) in
      let cutoff :=
        if ule BlobRetentionSeconds (hTime confirmed)
        then usub (hTime confirmed) BlobRetentionSeconds else #64 0 in
      if ult (bsCutoff st) cutoff then
        do! _ := check target (hHash confirmed) in
        do! _ := checkpoint st in
        do! _ := commit st (with_retention st cutoff target (hHash confirmed)) [] [] in
        do! st := read_state in
        ret (st, target)
      else ret (st, target)
  end.

(** ** The authorization a scan starts from *)

(** The history before the Inbox start, page by page; nothing until it is
    complete. *)
Definition bootstrap_page (cfg : Config) (b : bootstrap) : M (option authorization) :=
  let end_ := usub (cInboxStart cfg) (#64 1) in
  do! _ := check end_ (boAnchor b) in
  if boReady b then do! a := lift (cloneAuth (boAuth b)) in ret (Some a) else
  let stop := page_end (boNext b) end_ (cBatchSize cfg) in
  do! a := lift (cloneAuth (boAuth b)) in
  do! ' (a, logs) := authLogs cfg a (boNext b) stop in
  do! a := lift (foldM (λ a l, apply a l (cAddressManager cfg)) a logs) in
  do! _ := check end_ (boAnchor b) in
  let ready := bool_decide (stop = end_) in
  do! _ := set_priv (mkProgress (Some (mkBlobBootstrap (uadd stop (#64 1)) (boAnchor b) a ready)) None) in
  if negb ready then ret None else
  do! a := lift (cloneAuth a) in ret (Some a).

(** A stored document is never empty text, so [len(st.Auth) == 0] is not a
    case here. *)
Definition initialize (cfg : Config) (st : BlobState) : M (option authorization) :=
  match bsHeight st with
  | Some _ => do! a := lift (decodeAuth (bsAuth st)) in ret (Some a)
  | None =>
      if bool_decide (cInboxStart cfg = #64 0) then ret (Some newAuthorization) else
      do! p := get_priv in
      do! b :=
        match pgBootstrap p with
        | Some b => ret b
        | None =>
            do! h := header (usub (cInboxStart cfg) (#64 1)) in
            let b := mkBlobBootstrap (#64 0) (hHash h) newAuthorization false in
            do! _ := set_bootstrap (Some b) in
            ret b
        end in
      bootstrap_page cfg b
  end.

(** ** The step *)

(** [errors.Is(err, errBackfillPending)]: no result yet, and no failure. *)
Definition unless_pending {A} (m : M (option A)) : M (option A) := λ w,
  match m w with
  | (w, Err e) => if errors_Is e ErrBackfillPending then (w, Ok None) else (w, Err e)
  | x => x
  end.

Definition with_scan (st : BlobState) (end_ : u64) (hash : Hash) (auth : json) : BlobState :=
  mkBlobState (bsRevision st) (Some end_) hash (bsCutoff st) (bsRetentionHeight st)
    (bsRetentionHash st) (bsLatest st) auth.

(** The anchor of the bootstrap is checked before the first commit. *)
Definition check_bootstrap (cfg : Config) (st : BlobState) : M unit :=
  if bool_decide (bsHeight st = None) && ult (#64 0) (cInboxStart cfg) then
    do! p := get_priv in
    match pgBootstrap p with
    | None => lift Panic
    | Some b => check (usub (cInboxStart cfg) (#64 1)) (boAnchor b)
    end
  else ret tt.

(** The scan of [from..end], from the logs to the commit. *)
Definition scan_and_commit (cfg : Config) (st : BlobState) (from end_ : u64) (anchor : Header)
    (a : authorization) (logs : list Log) : M unit :=
  do! ' (a, txs, channels) := scan cfg a logs from end_ (bsCutoff st) in
  do! _ := check end_ (hHash anchor) in
  do! _ := checkpoint st in
  do! _ := check_bootstrap cfg st in
  do! _ := commit st (with_scan st end_ (hHash anchor) (marshal a)) txs channels in
  set_priv no_progress.

Definition Step (cfg : Config) : M bool :=
  do! ' (_, err) := status_Snapshot in
  match err with
  | Some e => fail e
  | None =>
      do! ' (st, target) := prepare cfg in
      if caught_up st target || ult target (cInboxStart cfg) then
        do! _ := status_SetBlobReady true in ret true
      else
      do! a := unless_pending (initialize cfg st) in
      match a with
      | None => ret false
      | Some a =>
          let from := match bsHeight st with
                      | None => cInboxStart cfg
                      | Some n => uadd n (#64 1)
                      end in
          let end_ := page_end from target (cBatchSize cfg) in
          do! anchor := header end_ in
          do! logs := unless_pending (do! r := authLogs cfg a from end_ in ret (Some r)) in
          match logs with
          | None => ret false
          | Some (a, logs) =>
              do! _ := scan_and_commit cfg st from end_ anchor a logs in
              let caught := bool_decide (end_ = target) in
              do! _ := status_SetBlobReady caught in
              ret caught
          end
      end
  end.

(** ** The loop *)

(** One round of [Run] up to the timer. *)
Definition run_round (cfg : Config) : M next := λ w,
  let '(w, r) := Step cfg w in
  match r with
  | Panic => (w, Panic)
  | Ok caught => (w, Ok (if caught then Wait else Continue))
  | Err e =>
      (do! _ := status_SetBlobReady false in
       if errors_Is e ErrFatal || errors_Is e ErrIntegrity || errors_Is e ErrInvalid then
         do! _ := status_Set false (Some e) in ret Stop
       else λ w, (w, Ok (match ctx_Err (wClock w) with Some _ => Stop | None => Wait end))) w
  end.

(** [Run] for at most [fuel] rounds; [None] when they are used up.  Its
    context is done when the status' channel is closed; it is checked before
    each round and while waiting. *)
Fixpoint Run (fuel : nat) (cfg : Config) : M (option unit) :=
  match fuel with
  | O => ret None
  | S fuel => λ w,
      match ctx_Err (wClock w) with
      | Some _ => (w, Ok (Some tt))
      | None =>
          (do! n := run_round cfg in
           match n with
           | Stop => ret (Some tt)
           | Continue => Run fuel cfg
           | Wait =>
               do! c := status_Done in
               match c with
               | ChanClosed => ret (Some tt)
               | ChanOpen => Run fuel cfg
               end
           end) w
      end
  end.

End sync.
