(* ===== verification/BlobSyncFacts.v ===== *)
(** * What a step of blob ingestion does to the archive

    Two transitions move the archive: the retention window advances, or a
    scanned range is committed.  Every computation of the loop keeps the
    archive a result of such transitions, whatever the node, the beacon and
    the other goroutines do. *)
From S2P Require Import Prelude StateMonad Word Json Geth GoMap Pebble StoreTypes DepositStore BlobStore StorePanics.
From S2P Require Import BlobStoreFacts BlobCommit BlobTheorems Config Status Service ServiceFacts.
From S2P Require Import Logs LogFacts Auth AuthFacts BlobWorld BlobWorldFacts.
From S2P Require Import BlobCodec SpanReader Span SpanFacts SpanTheorems Channels ChannelFacts ChannelTheorems.
From S2P Require Import Scan Submission ScanFacts ScanWalk BlobSync.

Section sync.
Context `{ABILaws, !GethText, !GethTextLaws, SortSliceLaws, LogJSONLaws, MapRangeLaws, Signer}.
Context `{!BlobEnv, !BlobEnvLaws, RLPLaws, EthTxLaws, Decompress}.
Context {D B : Type} `{!Pebble D B, !PebbleLaws D B, !NoPanic D B, !Env D, !Keeps blobs_kept}.
Context (cfg : Config).

Notation world := (world D progress).
Notation mgr := (cAddressManager cfg).

Definition holds_archive (w : world) (A : archive) : Prop := archived (contents (st_db (wStore w))) A.

(** ** The transitions *)

(** [target] is [Confirmations] blocks below a tip that was seen. *)
Definition confirmed_target (t1 t2 : nat) (target : u64) : Prop :=
  ∃ t tip n, (t1 < t <= t2)%nat ∧ rpc_Header (D := D) t None = inl (Some tip) ∧
    hNumber tip = Some n ∧ uval target = Z.max 0 (n - uval (cConfirmations cfg)).

(** The retention window moves up: seven days before the confirmed block,
    which the node showed before and after. *)
Definition retention_moved (t1 t2 : nat) (A A' : archive) : Prop :=
  ∃ target h h' tm cutoff, let st := ar_state A in
    (t1 <= tm <= t2)%nat ∧ confirmed_target t1 tm target ∧ saw_header (D := D) t1 tm target h ∧
    saw_header (D := D) tm t2 target h' ∧ hHash h' = hHash h ∧ anchored (D := D) tm t2 st ∧
    uval cutoff = Z.max 0 (uval (hTime h) - 7 * 24 * 60 * 60) ∧ uval (bsCutoff st) < uval cutoff ∧
    blob_commit A st (mkBlobState (bsRevision st) (bsHeight st) (bsHash st) cutoff (Some target)
      (hHash h) (bsLatest st) (bsAuth st)) [] [] A'.

(** The authority a scan of the archive's next range starts from: what the
    checkpoint stores, or what the chain announced before the Inbox start. *)
Definition start_authority (st : BlobState) (y0 : authority) : Prop :=
  match bsHeight st with
  | Some _ => stores (bsAuth st) y0
  | None => authority_before (D := D) cfg (uval (cInboxStart cfg)) y0
  end.

(** The range [[from..end_]] was scanned from [y0]; its logs lead to [y2]. *)
Record scan_commit (t1 t2 : nat) (A : archive) (from end_ : u64) (y0 y1 y2 : authority)
    (logs : list Log) (txs : list BlobTransaction) (chs : list BlobChannel) (A' : archive) : Prop := {
  sc_target : ∃ target, confirmed_target t1 t2 target ∧ uval end_ <= uval target;
  sc_from : match bsHeight (ar_state A) with
            | None => from = cInboxStart cfg
            | Some n => uval from = uval n + 1
            end;
  sc_range : uval from <= uval end_ ∧ uval end_ - uval from < uval (cBatchSize cfg);
  sc_start : authority_ok y0 ∧ start_authority (ar_state A) y0;
  sc_found : found (D := D) cfg y0 from end_ y1 logs;
  sc_history : history mgr y1 logs y2;
  sc_ok : authority_ok y2;
  sc_evidence : ∃ tm1 tm2 h h' raw, let st := ar_state A in
    (t1 <= tm1 <= tm2)%nat ∧ (tm2 <= t2)%nat ∧ saw_header (D := D) t1 tm1 end_ h ∧
    Forall (tx_sound cfg tm1 tm2 from end_ (bsCutoff st) y1 logs) txs ∧
    Forall (channel_sound cfg A tm1 tm2 from end_ (bsCutoff st) y1 logs) chs ∧
    saw_header (D := D) tm2 t2 end_ h' ∧ hHash h' = hHash h ∧ anchored (D := D) tm2 t2 st ∧
    stores raw y2 ∧
    blob_commit A st (mkBlobState (bsRevision st) (Some end_) (hHash h) (bsCutoff st)
      (bsRetentionHeight st) (bsRetentionHash st) (bsLatest st) raw) txs chs A';
}.

Definition scanned (t1 t2 : nat) (A A' : archive) : Prop :=
  ∃ from end_ y0 y1 y2 logs txs chs, scan_commit t1 t2 A from end_ y0 y1 y2 logs txs chs A'.

Definition committed (t1 t2 : nat) (A A' : archive) : Prop :=
  retention_moved t1 t2 A A' ∨ scanned t1 t2 A A'.
Definition evolves (t1 t2 : nat) : archive → archive → Prop := rtc (committed t1 t2).

(** ** Evidence of a longer time *)

Lemma confirmed_target_mono t1 t1' t2 t2' target :
  (t1' <= t1)%nat → (t2 <= t2')%nat → confirmed_target t1 t2 target → confirmed_target t1' t2' target.
Proof. intros ?? (t & tip & n & ? & ?). exists t, tip, n. split; [lia | done]. Qed.

Lemma anchored_mono t1 t2 t2' st :
  (t2 <= t2')%nat → anchored (D := D) t1 t2 st → anchored (D := D) t1 t2' st.
Proof.
  intros Ht [Hr Hh]. split; intros n Hn.
  - destruct (Hr n Hn) as (h & ? & ?). exists h. split; [|done]. by eapply saw_header_mono; [| |done].
  - destruct (Hh n Hn) as (h & ? & ?). exists h. split; [|done]. by eapply saw_header_mono; [| |done].
Qed.

Lemma committed_mono t1 t1' t2 t2' A A' :
  (t1' <= t1)%nat → (t2 <= t2')%nat → committed t1 t2 A A' → committed t1' t2' A A'.
Proof.
  intros H1' H2' [(target & h & h' & tm & cutoff & Ht & Hc & Hs & Hs' & Hh & Ha & Hrest)|
    (from & end_ & y0 & y1 & y2 & logs & txs & chs & [(target & Htg & Hle) ? ? ? ? ? ? Hev])]; [left | right].
  - exists target, h, h', tm, cutoff. split_and!; [lia | lia | | | | done | |apply Hrest..].
    + eapply confirmed_target_mono; [| |done]; lia.
    + eapply saw_header_mono; [| |done]; lia.
    + eapply saw_header_mono; [| |done]; lia.
    + by eapply anchored_mono.
  - exists from, end_, y0, y1, y2, logs, txs, chs. split; try done.
    + exists target. split; [|done]. by eapply confirmed_target_mono.
    + destruct Hev as (tm1 & tm2 & h & h' & raw & ? & ? & Hs & Htx & Hch & Hs' & Hh & Ha & Hrest).
      exists tm1, tm2, h, h', raw. split_and!; [lia | lia | lia | | done | done | | done | | apply Hrest..].
      * eapply saw_header_mono; [| |done]; lia.
      * eapply saw_header_mono; [| |done]; lia.
      * by eapply anchored_mono.
Qed.

Lemma evolves_mono t1 t1' t2 t2' A A' :
  (t1' <= t1)%nat → (t2 <= t2')%nat → evolves t1 t2 A A' → evolves t1' t2' A A'.
Proof. intros ?? Hs. eapply rtc_subrel; [|exact Hs]. intros ??. by apply committed_mono. Qed.

(** ** The loop's invariant *)

Context (T0 : nat) (A0 : archive).

(** Since the time [T0] the archive [A0] has evolved. *)
Definition tracked (w : world) : Prop :=
  good (progress_ok cfg) w ∧ (T0 <= wClock w)%nat ∧
  ∃ A, holds_archive w A ∧ evolves T0 (wClock w) A0 A.

(** Nothing is committed after a fatal error. *)
Record advanced (w w' : world) : Prop := {
  ad_fatal : keeps_fatal (wStatus w) (wStatus w');
  ad_clock : (wClock w <= wClock w')%nat;
  ad_barrier : stFatal (wStatus w) ≠ None → blobs_kept (wStore w) (wStore w');
}.

Lemma keeps_fatal_some s s' : keeps_fatal s s' → stFatal s ≠ None → stFatal s' ≠ None.
Proof. intros Hk Hs. destruct (stFatal s) as [e|] eqn:E; [|done]. by rewrite (Hk e E). Qed.

#[export] Instance advanced_preorder : PreOrder advanced.
Proof.
  split.
  - intros w. split; [by intros ? | lia | by intros _ ?].
  - intros w1 w2 w3 [F1 C1 B1] [F2 C2 B2]. split; [intros e He; auto | lia|].
    intros Hf A HA. apply B2; [by eapply keeps_fatal_some | by apply B1].
Qed.

Notation cwp := (wp (good (progress_ok cfg)) (calm_with blobs_kept)).
Notation awp := (wp tracked advanced).

Lemma calm_advanced w w' : calm_with blobs_kept w w' → advanced w w'.
Proof. intros [Hf Hc Hk]. by split. Qed.

Lemma holds_archive_calm w w' A : calm_with blobs_kept w w' → holds_archive w A → holds_archive w' A.
Proof. intros Hc. apply (c_kept Hc). Qed.

(** What does not commit keeps the invariant. *)
Lemma awp_calm {X} (Q : world → X → Prop) m w : cwp Q m w → awp Q m w.
Proof.
  intros Hm (Hw & Ht & A & HA & He). destruct (Hm Hw) as (Hw' & Hc & Hp & HQ).
  pose proof (c_clock Hc). split_and!; [|by apply calm_advanced|done..].
  split_and!; [done | lia|]. exists A. split; [by eapply holds_archive_calm|].
  by eapply evolves_mono; [| |exact He].
Qed.

(** ** Reading and writing the archive *)

Lemma StoreBlobState_Ok (s : Store D) st A :
  archived (contents (st_db s)) A → StoreBlobState s = Ok st → st = ar_state A.
Proof.
  intros HA. unfold StoreBlobState. destruct (st_closed s); [done|].
  apply (readBlobState_Ok (contents (st_db s)) (st_db s) st A), (av_layout _ _ HA).
Qed.

Definition holding (w : world) (A : archive) : Prop :=
  holds_archive w A ∧ evolves T0 (wClock w) A0 A.

Lemma holding_calm w w' A : calm_with blobs_kept w w' → holding w A → holding w' A.
Proof.
  intros Hc [HA He]. split; [by eapply holds_archive_calm|].
  eapply evolves_mono; [| |exact He]; [lia | apply Hc].
Qed.

Lemma awp_read_state (Q : world → BlobState → Prop) w :
  (∀ w' A, calm_with blobs_kept w w' → holding w' A → Q w' (ar_state A)) → awp Q read_state w.
Proof.
  intros HQ. apply wp_intro. intros (_ & _ & A & HA & He). apply awp_calm, wp_wrap, wp_read_store.
  { intros s. apply StoreBlobState_no_panic. }
  intros w' st Hst Hc _. assert (holding w' A) as Hh by by (eapply holding_calm; [exact Hc|]).
  rewrite (StoreBlobState_Ok _ _ _ (proj1 Hh) Hst). by apply HQ.
Qed.

(** A commit is one transition of the archive. *)
Lemma awp_commit (Q : world → unit → Prop) before after txs chs w A :
  holding w A →
  (∀ A' t2, (wClock w < t2)%nat → blob_commit A before after txs chs A' → committed T0 t2 A A') →
  (∀ w' A', (wClock w < wClock w')%nat → holding w' A' → blob_commit A before after txs chs A' → Q w' tt) →
  awp Q (commit before after txs chs) w.
Proof.
  intros [HA He] Hstep HQ ([Hw HJ] & Ht & _). unfold commit.
  destruct (commit_with _ w) as [w' r] eqn:E.
  assert (progress_ok cfg (wPriv w')) as HJ'.
  { pose proof (keeps_priv_commit (λ s, CommitBlob s before after txs chs) w) as Hp.
    rewrite E in Hp. simpl in Hp. by rewrite Hp. }
  apply (commit_with_cases (K := blobs_kept)) in E; [|intros s; apply CommitBlob_no_panic | done].
  destruct E as [(Hq & Hp & Hn)|(-> & Hs & Hf & Hc & Hnf & _ & s & Hk & Hok)].
  - pose proof (quiet_calm _ _ Hq) as Hc. simpl. split_and!; [|by apply calm_advanced|done|].
    + split_and!; [by split; [apply Hq|] | pose proof (c_clock Hc); lia|]. exists A.
      by apply (holding_calm w).
    + intros a Ha. by destruct (Hn a).
  - destruct (CommitBlob_step _ _ _ _ _ _ _ (Hk A HA) Hok) as (A' & HC & HA' & _).
    assert (holding w' A') as Hh.
    { split; [done|]. eapply rtc_r; [|by apply Hstep; [exact Hc|]].
      eapply evolves_mono; [| |exact He]; lia. }
    simpl. split_and!; [|split; [done | lia|] | done | intros [] _; by eapply HQ].
    + split_and!; [done | lia|]. by exists A'.
    + intros Hbar. by destruct (keeps_fatal_some _ _ Hf Hbar).
Qed.

(** ** The retention window *)

Lemma tip_target (tip : option Header) (n : u64) :
  header_number tip = Some n → ∃ h, tip = Some h ∧ hNumber h = Some (uval n).
Proof. destruct tip as [h|]; [|done]. intros Hn%header_number_Some. by exists h. Qed.

(** The target is where the scan has to get. *)
Definition ready_for (w : world) (st : BlobState) (target : u64) : Prop :=
  ∃ A, holding w A ∧ st = ar_state A ∧ confirmed_target T0 (wClock w) target.

Lemma awp_prepare (Q : world → BlobState * u64 → Prop) w :
  (∀ w' st target, ready_for w' st target → Q w' (st, target)) → awp Q (prepare cfg) w.
Proof.
  intros HQ. apply wp_intro. intros (_ & Ht & _).
  apply wp_bind; [apply _|]. apply awp_read_state. intros w1 A C1 A1.
  apply wp_bind; [apply _|]. apply awp_calm, wp_checkpoint. intros w2 _ C2 _.
  apply wp_bind; [apply _|]. apply awp_calm, wp_answer. intros w3 tip Hc3 Htip C3 _.
  destruct (header_number tip) as [n|] eqn:En; [|apply wp_fail, _].
  apply tip_target in En as (tiph & -> & En). set (target := if ule _ _ then _ else _). cbv zeta.
  pose proof (c_clock C1). pose proof (c_clock C2). pose proof (c_clock C3).
  assert (confirmed_target T0 (wClock w3) target) as Htarget.
  { exists (wClock w3), tiph, (uval n). split_and!; [lia | lia | done | done | apply usub_clamped]. }
  apply wp_bind; [apply _|]. apply awp_calm, wp_header. intros w4 h Hs4 Hc4 C4 _.
  apply wp_bind; [apply _|]. apply awp_calm, wp_SetBlobReady. intros w5 C5 _.
  pose proof (c_clock C5). set (cutoff := if ule _ _ then _ else _). cbv zeta.
  assert (holding w5 A) as A5 by (do 4 (eapply holding_calm; [eassumption|]); done).
  assert (confirmed_target T0 (wClock w5) target) as Htarget5
    by (eapply confirmed_target_mono; [| |exact Htarget]; lia).
  destruct (ult (bsCutoff (ar_state A)) cutoff) eqn:Ecut; unfold ult in Ecut; bool_to_prop.
  2:{ apply wp_ret; [apply _|]. intros _. apply HQ. by exists A. }
  apply wp_bind; [apply _|]. apply awp_calm, wp_check. intros w6 h' Hs6 Hh6 C6 _.
  apply wp_bind; [apply _|]. apply awp_calm, wp_checkpoint. intros w7 Hs7 C7 _.
  pose proof (c_clock C6). pose proof (c_clock C7).
  apply wp_bind; [apply _|]. apply (awp_commit _ _ _ _ _ _ A).
  { do 2 (eapply holding_calm; [eassumption|]). done. }
  { intros A' t2 Ht2 HC. left. exists target, h, h', (wClock w5), cutoff.
    split_and!; [lia | lia | done | | | done | | apply usub_clamped | done | exact HC].
    - eapply saw_header_mono; [| |exact Hs4]; lia.
    - eapply saw_header_mono; [| |exact Hs6]; lia.
    - split; intros m Hm.
      + destruct (proj1 Hs7 m Hm) as (x & ? & ?). exists x. split; [|done].
        eapply saw_header_mono; [| |eassumption]; lia.
      + destruct (proj2 Hs7 m Hm) as (x & ? & ?). exists x. split; [|done].
        eapply saw_header_mono; [| |eassumption]; lia. }
  intros w8 A8 Hc8 _ _. apply wp_bind; [apply _|]. apply awp_read_state. intros w9 A9 C9 Hold9.
  pose proof (c_clock C9). apply wp_ret; [apply _|]. intros _. apply HQ. exists A9. split_and!; [done | done|].
  eapply confirmed_target_mono; [| |exact Htarget5]; lia.
Qed.

(** ** The authority a scan starts from *)

(** [initialize] found the authority, or it has to go on in the next step;
    the bootstrap stays until the first scan is committed. *)
Definition initialized (st : BlobState) (w : world) (o : option authorization) : Prop :=
  match o with
  | None => True
  | Some a => ∃ y, a = of_authority y ∧ authority_ok y ∧ start_authority st y ∧
      (bsHeight st = None → 0 < uval (cInboxStart cfg) → is_Some (pgBootstrap (wPriv w)))
  end.

Lemma last_before (n : u64) : 0 < uval n →
  uval (usub n (#64 1)) = uval n - 1 ∧ uadd (usub n (#64 1)) (#64 1) = n.
Proof.
  intros Hn. assert (uval (usub n (#64 1)) = uval n - 1) as E by ulia. split; [done|].
  apply uint_eq. unfold uadd. rewrite E. ulia.
Qed.

Lemma cwp_bootstrap_page (Q : world → option authorization → Prop) st b w :
  0 < uval (cBatchSize cfg) → bsHeight st = None → 0 < uval (cInboxStart cfg) →
  pgBootstrap (wPriv w) = Some b → bootstrap_ok (D := D) cfg b →
  (∀ w' o, initialized st w' o → calm_with blobs_kept w w' → Q w' o) →
  cwp Q (bootstrap_page cfg b) w.
Proof.
  intros Hbatch Hst Hpos Hp (y & Ey & Hy & Hbef & Hnext) HQ. destruct (last_before _ Hpos) as [Hlast Hsucc].
  apply wp_bind; [apply _|]. apply wp_check. intros w1 h _ _ C1 P1.
  assert (∀ w' y', calm_with blobs_kept w w' → authority_ok y' → is_Some (pgBootstrap (wPriv w')) →
    authority_before (D := D) cfg (uval (cInboxStart cfg)) y' → Q w' (Some (of_authority y'))) as Hdone.
  { intros w' y' C Hy' Hb Hbefore. apply HQ; [|done]. exists y'. unfold start_authority. rewrite Hst.
    by split_and!. }
  destruct (boReady b) eqn:Er.
  { rewrite Ey. apply wp_lift_bind; rewrite cloneAuth_Ok by done; [done|]. intros ? [= <-].
    apply wp_ret; [apply _|]. intros _. apply Hdone; [done | done | by rewrite P1, Hp | by rewrite <-Hnext]. }
  set (stop := page_end _ _ _). rewrite Ey.
  destruct (page_end_spec (boNext b) (usub (cInboxStart cfg) (#64 1)) (cBatchSize cfg) Hbatch) as [Hstop _];
    [lia|]. fold stop in Hstop.
  apply wp_lift_bind; rewrite cloneAuth_Ok by done; [done|]. intros ? [= <-].
  apply wp_bind; [apply _|]. apply wp_authLogs; [done | done|]. intros w2 y1 logs Hf C2 B2.
  assert (Forall (λ l, lTopics l ≠ []) logs) as Htop.
  { eapply Forall_impl; [apply (fd_usable _ _ _ _ _ _ Hf)|]. by intros l (_ & ? & _). }
  apply wp_lift_bind; [by apply apply_all_no_panic|]. intros a (y2 & -> & Hh)%apply_all_Ok; [|done].
  assert (authority_ok y2) as Hy2.
  { eapply history_ok; [apply (fd_learnt _ _ _ _ _ _ Hf) | | exact Hh].
    eapply Forall_impl; [apply (fd_usable _ _ _ _ _ _ Hf)|]. by intros l (_ & _ & ?). }
  assert (uval (uadd stop (#64 1)) = uval stop + 1) as Hup by (pose proof (uint_range (cInboxStart cfg)); ulia).
  assert (authority_before (D := D) cfg (uval (uadd stop (#64 1))) y2) as Hbef2.
  { rewrite Hup. eapply before_next; [done | lia | done | done]. }
  apply wp_bind; [apply _|]. apply wp_check. intros w3 h' _ _ C3 P3.
  apply wp_bind; [apply _|]. apply wp_set_priv.
  { split; [done|]. intros ? [= <-]. exists y2. cbn [boAuth boNext boReady]. split_and!; [done | done | done|].
    case_bool_decide as Hs; [by rewrite Hs, Hsucc|]. rewrite Hup.
    assert (uval stop ≠ uval (usub (cInboxStart cfg) (#64 1))) by (by intros ?%uint_eq). lia. }
  intros w4 C4 _ P4. assert (calm_with blobs_kept w w4) as C14.
  { etrans; [exact C1|]. etrans; [exact C2|]. by etrans. }
  case_bool_decide as Hs; cbn [negb].
  2:{ apply wp_ret; [apply _|]. intros _. by apply HQ. }
  apply wp_lift_bind; rewrite cloneAuth_Ok by done; [done|]. intros ? [= <-].
  apply wp_ret; [apply _|]. intros _. apply Hdone; [done | done | by rewrite P4 |].
  by rewrite Hs, Hsucc in Hbef2.
Qed.

Lemma decodeAuth_no_panic raw : decodeAuth raw ≠ Panic.
Proof. destruct (decodeAuth_cases raw) as [(y & _ & ->)|[_ Hf]]; [done | by eapply fails_no_panic]. Qed.

Lemma cwp_initialize (Q : world → option authorization → Prop) st w :
  0 < uval (cBatchSize cfg) →
  (∀ w' o, initialized st w' o → calm_with blobs_kept w w' → Q w' o) →
  cwp Q (initialize cfg st) w.
Proof.
  intros Hbatch HQ. unfold initialize. destruct (bsHeight st) as [n|] eqn:En.
  { apply wp_lift_bind; [apply decodeAuth_no_panic|]. intros a Ha.
    destruct (decodeAuth_cases (bsAuth st)) as [(y & Hs & E)|[_ (e & E & _)]]; rewrite E in Ha; [|done].
    injection Ha as <-. apply wp_ret; [apply _|]. intros _. apply HQ; [|done]. exists y.
    unfold start_authority. rewrite En. split_and!; [done | apply Hs | done | done]. }
  case_bool_decide as Hz.
  { apply wp_ret; [apply _|]. intros _. apply HQ; [|done]. exists empty_authority.
    rewrite of_empty. unfold start_authority. rewrite En, Hz.
    split_and!; [done | apply empty_authority_ok | constructor | done]. }
  assert (0 < uval (cInboxStart cfg)) as Hpos.
  { pose proof (uint_range (cInboxStart cfg)). destruct (decide (uval (cInboxStart cfg) = 0)) as [E|]; [|lia].
    destruct Hz. by apply uint_eq. }
  apply wp_bind; [apply _|]. apply wp_get_priv. intros Hp.
  apply wp_bind; [apply _|].
  assert (cwp (λ w' b, pgBootstrap (wPriv w') = Some b ∧ bootstrap_ok (D := D) cfg b ∧ calm_with blobs_kept w w')
    (match pgBootstrap (wPriv w) with
     | Some b => ret b
     | None =>
         do! h := header (usub (cInboxStart cfg) (#64 1)) in
         let b := mkBlobBootstrap (#64 0) (hHash h) newAuthorization false in
         do! _ := set_bootstrap (Some b) in
         ret b
     end) w) as Hb.
  { destruct (pgBootstrap (wPriv w)) as [b|] eqn:Eb.
    - apply wp_ret; [apply _|]. intros _. split_and!; [done | by apply (pk_bootstrap _ _ Hp) | done].
    - apply wp_bind; [apply _|]. apply wp_header. intros w1 h _ _ C1 P1. cbv zeta.
      assert (bootstrap_ok (D := D) cfg (mkBlobBootstrap (#64 0) (hHash h) newAuthorization false)) as Hok.
      { exists empty_authority. cbn [boAuth boNext boReady]. rewrite of_empty.
        split_and!; [done | apply empty_authority_ok | constructor | done]. }
      apply wp_bind; [apply _|]. apply wp_bind; [apply _|]. apply wp_get_priv. intros [Hp1 _].
      apply wp_set_priv; [split; [done | by intros ? [= <-]]|]. intros w2 C2 _ P2.
      apply wp_ret; [apply _|]. intros _. rewrite P2. split_and!; [done | done | by etrans]. }
  eapply wp_mono; [exact Hb|]. intros w1 b _ _ (Hb1 & Hok & C1).
  apply (cwp_bootstrap_page _ st); try done. intros w2 o Ho C2. apply HQ; [done | by etrans].
Qed.

(** ** A range *)

Lemma cwp_check_bootstrap (Q : world → unit → Prop) st w :
  (bsHeight st = None → 0 < uval (cInboxStart cfg) → is_Some (pgBootstrap (wPriv w))) →
  (∀ w', calm_with blobs_kept w w' → Q w' tt) → cwp Q (check_bootstrap cfg st) w.
Proof.
  intros Hb HQ. unfold check_bootstrap, ult. destruct (_ && _) eqn:E.
  - bool_to_prop. apply wp_bind; [apply _|]. apply wp_get_priv. intros _.
    destruct Hb as [b ->]; [done | change (uval (#64 0)) with 0 in *; lia|].
    apply wp_check. intros w' h _ _ C _. by apply HQ.
  - apply wp_ret; [apply _|]. intros _. by apply HQ.
Qed.

Lemma anchored_within t1 t1' t2 t2' st :
  (t1' <= t1)%nat → (t2 <= t2')%nat → anchored (D := D) t1 t2 st → anchored (D := D) t1' t2' st.
Proof.
  intros ?? Hs. split; intros m Hm.
  - destruct (proj1 Hs m Hm) as (x & ? & ?). exists x. split; [|done]. by eapply saw_header_mono.
  - destruct (proj2 Hs m Hm) as (x & ? & ?). exists x. split; [|done]. by eapply saw_header_mono.
Qed.

Lemma awp_scan_and_commit (Q : world → unit → Prop) A from end_ h y0 y1 logs target w :
  holding w A → confirmed_target T0 (wClock w) target → uval end_ <= uval target →
  match bsHeight (ar_state A) with
  | None => from = cInboxStart cfg | Some n => uval from = uval n + 1 end →
  uval from <= uval end_ → uval end_ - uval from < uval (cBatchSize cfg) →
  authority_ok y0 → start_authority (ar_state A) y0 → found (D := D) cfg y0 from end_ y1 logs →
  (bsHeight (ar_state A) = None → 0 < uval (cInboxStart cfg) → is_Some (pgBootstrap (wPriv w))) →
  saw_header (D := D) T0 (wClock w) end_ h →
  (∀ w' A', holding w' A' → bsHeight (ar_state A') = Some end_ → (wClock w <= wClock w')%nat → Q w' tt) →
  awp Q (scan_and_commit cfg (ar_state A) from end_ h (of_authority y1) logs) w.
Proof.
  intros Hw Htarget Hle Hfrom Hrange Hbatch Hy0 Hstart Hfound Hboot Hsaw HQ.
  assert (Forall (λ l, lTopics l ≠ []) logs) as Htop.
  { eapply Forall_impl; [apply (fd_usable _ _ _ _ _ _ Hfound)|]. by intros l (_ & ? & _). }
  apply wp_intro. intros (_ & HT0 & _).
  apply wp_bind; [apply _|]. apply awp_calm.
  apply (wp_scan cfg (wClock w) A from end_ (bsCutoff (ar_state A)) y1 logs Htop); [by split; [|apply Hw] | done|].
  intros w1 y2 txs chs Hh Htxs Hchs [C1 P1].
  assert (authority_ok y2) as Hy2.
  { eapply history_ok; [apply (fd_learnt _ _ _ _ _ _ Hfound) | | exact Hh].
    eapply Forall_impl; [apply (fd_usable _ _ _ _ _ _ Hfound)|]. by intros l (_ & _ & ?). }
  apply wp_bind; [apply _|]. apply awp_calm, wp_check. intros w2 h' Hs2 Hh2 C2 P2.
  apply wp_bind; [apply _|]. apply awp_calm, wp_checkpoint. intros w3 Hs3 C3 P3.
  apply wp_bind; [apply _|]. apply awp_calm, cwp_check_bootstrap; [by rewrite P3, P2, P1|]. intros w4 C4.
  pose proof (c_clock C1). pose proof (c_clock C2). pose proof (c_clock C3). pose proof (c_clock C4).
  apply wp_bind; [apply _|]. apply (awp_commit _ _ _ _ _ _ A).
  { do 4 (eapply holding_calm; [eassumption|]). done. }
  { intros A' t2 Ht2 HC. right. exists from, end_, y0, y1, y2, logs, txs, chs. split; try done.
    - exists target. split; [|done]. eapply confirmed_target_mono; [| |exact Htarget]; lia.
    - exists (wClock w), (wClock w1), h, h', (marshal (of_authority y2)).
      split_and!; [lia | lia | lia | | done | done | | done | | by apply stores_marshal | exact HC].
      + eapply saw_header_mono; [| |exact Hsaw]; lia.
      + eapply saw_header_mono; [| |exact Hs2]; lia.
      + eapply anchored_within; [| |exact Hs3]; lia. }
  intros w5 A5 Hc5 Hw5 HC. apply awp_calm, wp_set_priv; [apply no_progress_ok|].
  intros w6 C6 Hc6 _. apply (HQ _ A5).
  - by eapply holding_calm.
  - destruct (bc_state _ _ _ _ _ _ HC) as (latest & _ & ->). done.
  - lia.
Qed.

(** ** The step *)

(** What is true when a step says that it caught up. *)
Definition caught (w : world) : Prop :=
  ∃ A target, holding w A ∧ confirmed_target T0 (wClock w) target ∧
    (uval target < uval (cInboxStart cfg) ∨ ∃ n, bsHeight (ar_state A) = Some n ∧ uval target <= uval n).

Lemma caught_calm w w' : calm_with blobs_kept w w' → caught w → caught w'.
Proof.
  intros C (A & target & HA & Ht & Hc). exists A, target. split_and!; [by eapply holding_calm | | done].
  eapply confirmed_target_mono; [| |exact Ht]; [lia | apply C].
Qed.

Lemma cwp_unless_pending {X} (Q : world → option X → Prop) (m : M D progress (option X)) w :
  cwp (λ w' o, calm_with blobs_kept w w' → Q w' o) m w →
  (∀ w', calm_with blobs_kept w w' → Q w' None) → cwp Q (unless_pending m) w.
Proof.
  intros Hm HN Hw. destruct (Hm Hw) as (Hw' & Hc & Hp & HQ). unfold unless_pending.
  destruct (m w) as [w' [o|e|]]; simpl in *; [|destruct (errors_Is e ErrBackfillPending)|done]; simpl.
  - split_and!; [done..|]. intros ? [= <-]. by apply HQ.
  - split_and!; [done..|]. intros ? [= <-]. by apply HN.
  - split_and!; [done..|]. by intros.
Qed.

Lemma awp_Step w :
  0 < uval (cBatchSize cfg) → awp (λ w' b, b = true → caught w') (Step cfg) w.
Proof.
  intros Hbatch. apply wp_bind; [apply _|]. apply awp_calm, wp_safe; [apply safe_Snapshot | |].
  { by apply keeps_priv_after. }
  intros w0 [b err] _ _ _ C0 _. destruct err as [e|]; [apply wp_fail, _|].
  apply wp_bind; [apply _|]. apply awp_prepare. intros w1 st target (A & Hw1 & -> & Htarget).
  destruct (_ || _) eqn:Ecaught.
  { apply wp_bind; [apply _|]. apply awp_calm, wp_SetBlobReady. intros w2 C2 _.
    apply wp_ret; [apply _|]. intros _ _. apply (caught_calm w1); [done|]. exists A, target.
    split_and!; [done | done|]. unfold caught_up, ule, ult in Ecaught.
    apply orb_true_iff in Ecaught as [E|E]; [right | left; by bool_to_prop].
    destruct (bsHeight (ar_state A)) as [n|]; [|done]. bool_to_prop. eauto. }
  apply orb_false_iff in Ecaught as [Eup Est]. unfold ult in Est. bool_to_prop.
  apply wp_bind; [apply _|]. apply awp_calm, cwp_unless_pending.
  2:{ intros w2 C2. by apply wp_ret; [apply _|]. }
  apply cwp_initialize; [done|]. intros w2 o Ho C2 _. destruct o as [a|].
  2:{ by apply wp_ret; [apply _|]. }
  destruct Ho as (y0 & -> & Hy0 & Hstart & Hboot). apply wp_intro. intros (_ & HT2 & _).
  match goal with |- wp _ _ _ (let _ := ?f in _) _ => set (from := f) end. cbv zeta.
  assert (match bsHeight (ar_state A) with
    | None => from = cInboxStart cfg | Some n => uval from = uval n + 1 end ∧ uval from <= uval target)
    as [Hfrom Hft].
  { unfold from. unfold caught_up, ule in Eup. destruct (bsHeight (ar_state A)) as [n|]; [|by split; [|lia]].
    bool_to_prop. pose proof (uint_range target).
    assert (uval (uadd n (#64 1)) = uval n + 1) as -> by ulia. lia. }
  destruct (page_end_spec from target (cBatchSize cfg) Hbatch Hft) as [Hend Hspan].
  set (end_ := page_end _ _ _) in *.
  pose proof (holding_calm _ _ _ C2 Hw1) as Hw2.
  apply wp_bind; [apply _|]. apply awp_calm, wp_header. intros w3 h Hs3 Hc3 C3 P3.
  apply wp_bind; [apply _|]. apply awp_calm, cwp_unless_pending.
  2:{ intros w4 C4. by apply wp_ret; [apply _|]. }
  apply wp_bind; [apply _|]. apply wp_authLogs; [done | done|]. intros w4 y1 logs Hfound C4 B4.
  apply wp_ret; [apply _|]. intros _ _.
  pose proof (c_clock C2). pose proof (c_clock C3). pose proof (c_clock C4).
  apply wp_bind; [apply _|].
  apply (awp_scan_and_commit _ A from end_ h y0 y1 logs target); try done; [| |lia|lia| | |].
  - do 2 (eapply holding_calm; [eassumption|]). done.
  - eapply confirmed_target_mono; [| |exact Htarget]; lia.
  - intros ??. rewrite B4, P3. by apply Hboot.
  - eapply saw_header_mono; [| |exact Hs3]; lia.
  - intros w5 A5 Hw5 HA5 Hc5. apply wp_bind; [apply _|]. apply awp_calm, wp_SetBlobReady. intros w6 C6 _.
    apply wp_ret; [apply _|]. intros _ Hd. bool_to_prop. apply (caught_calm w5); [done|].
    exists A5, target. split_and!; [done | eapply confirmed_target_mono; [| |exact Htarget]; lia|].
    right. exists end_. split; [done|]. by rewrite Hd.
Qed.

(** After a fatal error a step fails. *)
Lemma Step_fatal w :
  status_ok (wStatus w) → stFatal (wStatus w) ≠ None → ∃ e, (Step cfg w).2 = Err e.
Proof.
  intros Hw Hf. destruct (Snapshot_total (K := blobs_kept) w Hw) as (w1 & b & E & Hq).
  unfold Step, mbind at 1. rewrite E.
  destruct (stFatal (wStatus w1)) as [e|] eqn:Ef; [by exists e|].
  by destruct (keeps_fatal_some _ _ (q_fatal _ _ Hq) Hf).
Qed.

End sync.
