(* ===== verification/BlobSyncTheorems.v ===== *)
(** * What blob ingestion guarantees

    [Step] and [Run] refine the archive: it only moves by the two
    transitions, under every schedule and every answer of the node, and what
    the checkpoint stores is always what the chain announced. *)
From S2P Require Import Prelude StateMonad Word Json Geth GoMap Pebble StoreTypes DepositStore BlobStore StorePanics.
From S2P Require Import BlobStoreFacts BlobCommit BlobTheorems Config Status Service ServiceFacts.
From S2P Require Import Logs LogFacts Auth AuthFacts BlobWorld BlobWorldFacts.
From S2P Require Import BlobCodec SpanReader Span SpanFacts SpanTheorems Channels ChannelFacts ChannelTheorems.
From S2P Require Import Scan Submission ScanFacts ScanWalk BlobSync BlobSyncFacts.

Section theorems.
Context `{ABILaws, !GethText, !GethTextLaws, SortSliceLaws, LogJSONLaws, MapRangeLaws, Signer}.
Context `{!BlobEnv, !BlobEnvLaws, RLPLaws, EthTxLaws, Decompress}.
Context {D B : Type} `{!Pebble D B, !PebbleLaws D B, !NoPanic D B, !Env D, !Keeps blobs_kept}.
Context (cfg : Config).

Notation world := (world D progress).

(** ** The invariants of the archive *)

(** The stored authority is what the chain announced up to the checkpoint. *)
Definition sound (A : archive) : Prop :=
  match bsHeight (ar_state A) with
  | None => True
  | Some n => ∃ y, stores (bsAuth (ar_state A)) y ∧ authority_before (D := D) cfg (uval n + 1) y
  end.

Definition height_of (A : archive) : Z :=
  match bsHeight (ar_state A) with None => -1 | Some n => uval n end.
Definition cutoff_of (A : archive) : Z := uval (bsCutoff (ar_state A)).

(** The archive goes forward, and keeps what has not expired. *)
Record grows (A A' : archive) : Prop := {
  gr_height : height_of A <= height_of A';
  gr_cutoff : cutoff_of A <= cutoff_of A';
  gr_revision : A' = A ∨ uval (bsRevision (ar_state A)) < uval (bsRevision (ar_state A'));
  gr_txs h t : ar_txs A !! h = Some t → cutoff_of A' <= uval (btTimestamp t) → ar_txs A' !! h = Some t;
  gr_channels id r : ar_channels A !! id = Some r → cutoff_of A' <= uval (crExpiresAt r) →
    ar_channels A' !! id = Some r;
  gr_blocks n id b r : ar_channels A !! id = Some r → cutoff_of A' <= uval (crExpiresAt r) →
    ar_blocks A !! n = Some (id, b) → ar_blocks A' !! n = Some (id, b);
}.

#[export] Instance grows_preorder : PreOrder grows.
Proof.
  split; [split; auto; lia|]. intros A1 A2 A3 G1 G2. pose proof (gr_cutoff _ _ G1). pose proof (gr_cutoff _ _ G2).
  split.
  - pose proof (gr_height _ _ G1). pose proof (gr_height _ _ G2). lia.
  - lia.
  - destruct (gr_revision _ _ G1) as [->|R1]; [apply G2|].
    right. destruct (gr_revision _ _ G2) as [->|R2]; [done | lia].
  - intros h t Ht Hc. apply (gr_txs _ _ G2), Hc. apply (gr_txs _ _ G1 h t Ht). lia.
  - intros id r Hr Hc. apply (gr_channels _ _ G2), Hc. apply (gr_channels _ _ G1 id r Hr). lia.
  - intros n id b r Hr Hc Hb. apply (gr_blocks _ _ G2 n id b r); [|done|].
    + apply (gr_channels _ _ G1 id r Hr). lia.
    + apply (gr_blocks _ _ G1 n id b r Hr); [lia | done].
Qed.

Lemma blob_commit_grows A after txs chs A' :
  blob_commit A (ar_state A) after txs chs A' →
  height_of A <= match bsHeight after with None => -1 | Some n => uval n end → grows A A'.
Proof.
  intros [_ Hrev Hcut (latest & _ & Hst) Htx Hch Hblk] Hh.
  split; unfold height_of, cutoff_of in *; rewrite ?Hst; cbn [set_commit bsHeight bsCutoff bsRevision].
  - done.
  - done.
  - right. ulia.
  - intros h t Ht Hc. apply Htx. auto.
  - intros id r Hr Hc. apply Hch. auto.
  - intros n id b r Hr Hc Hb. apply Hblk. split; [|by left]. exists r. apply Hch. auto.
Qed.

Lemma committed_grows t1 t2 A A' : committed (D := D) cfg t1 t2 A A' → grows A A'.
Proof.
  intros [(target & h & h' & tm & cutoff & _ & _ & _ & _ & _ & _ & _ & _ & HC)|
    (from & end_ & y0 & y1 & y2 & logs & txs & chs & [_ Hf [Hr _] _ _ _ _
      (tm1 & tm2 & h & h' & raw & _ & _ & _ & _ & _ & _ & _ & _ & _ & HC)])];
    (eapply blob_commit_grows; [exact HC|]); unfold height_of; cbn [bsHeight]; [done|].
  destruct (bsHeight (ar_state A)) as [n|]; [lia|]. pose proof (uint_range end_). lia.
Qed.

Lemma committed_sound t1 t2 A A' : committed (D := D) cfg t1 t2 A A' → sound A → sound A'.
Proof.
  intros [(target & h & h' & tm & cutoff & _ & _ & _ & _ & _ & _ & _ & _ & HC)|
    (from & end_ & y0 & y1 & y2 & logs & txs & chs & [_ Hf [Hr _] [_ Hs] Hfound Hh _
      (tm1 & tm2 & h & h' & raw & _ & _ & _ & _ & _ & _ & _ & _ & Hraw & HC)])] Hsound;
    destruct (bc_state _ _ _ _ _ _ HC) as (latest & _ & Hst); unfold sound in *; rewrite Hst;
    cbn [set_commit bsHeight bsAuth]; [done|].
  exists y2. split; [done|]. eapply before_next; [| |exact Hfound|exact Hh]; [|done].
  unfold start_authority in Hs. destruct (bsHeight (ar_state A)) as [n|]; [|by rewrite Hf].
  destruct Hsound as (y & Hy & Hb). rewrite (stores_unique _ _ _ Hs Hy), Hf. done.
Qed.

Lemma evolves_invariants t1 t2 A A' :
  evolves (D := D) cfg t1 t2 A A' → grows A A' ∧ (sound A → sound A').
Proof.
  induction 1 as [A|A A1 A2 Hc _ [IHg IHs]]; [done|]. split.
  - etrans; [by eapply committed_grows | done].
  - intros HA. by eapply IHs, committed_sound.
Qed.

(** ** The loop *)

Section loop.
Context (T0 : nat) (A0 : archive) (Hbatch : 0 < uval (cBatchSize cfg)).
Notation awp := (wp (tracked (D := D) cfg T0 A0) advanced).

Lemma awp_run_round (w : world) : awp (λ _ _, True) (run_round cfg) w.
Proof.
  intros Hw. destruct (awp_Step cfg T0 A0 w Hbatch Hw) as (Hi & Hr & Hp & _). unfold run_round.
  destruct (Step cfg w) as [w1 [c|e|]]; simpl in *; [by split_and!| |done].
  set (m := do! _ := status_SetBlobReady false in _).
  assert (awp (λ _ _, True) m w1) as Hm.
  { apply wp_bind; [apply _|]. apply awp_calm, wp_SetBlobReady. intros w2 _ _.
    destruct (_ || _ || _).
    - apply wp_bind; [apply _|]. apply awp_calm, wp_safe; [apply safe_Set | apply keeps_priv_Set|].
      intros w3 [] _ _ _ _ _. by apply wp_ret; [apply _|].
    - intros Hw2. by split_and!. }
  destruct (Hm Hi) as (Hi' & Hr' & Hp' & _). split_and!; [done | by etrans | done..].
Qed.

Lemma awp_Run fuel : ∀ w : world, awp (λ _ _, True) (Run fuel cfg) w.
Proof.
  induction fuel as [|fuel IH]; intros w; cbn [Run]; [by apply wp_ret; [apply _|]|].
  intros Hw. destruct (ctx_Err (wClock w)); [by split_and!|].
  set (m := do! n := run_round cfg in _). cut (awp (λ _ _, True) m w); [by intros Hm; apply Hm|].
  apply wp_bind; [apply _|]. eapply wp_mono; [apply awp_run_round|].
  intros w1 n _ _ _. destruct n; [by apply wp_ret; [apply _|] | apply IH |].
  apply wp_bind; [apply _|]. apply awp_calm, wp_safe; [apply safe_Done | |].
  { apply keeps_priv_after. intros w2. by destruct (Done _). }
  intros w2 c _ _ _ _ _. destruct c; [|by apply wp_ret; [apply _|]]. apply IH.
Qed.

End loop.

Lemma tracked_start (w : world) A :
  status_ok (wStatus w) → progress_ok (D := D) cfg (wPriv w) → holds_archive w A →
  tracked cfg (wClock w) A w.
Proof. intros. split; [by split|]. split; [lia|]. by exists A; split; [|constructor]. Qed.

(** ** Properties *)

(** [C2] One step of blob ingestion refines the archive.  Whatever the node,
    the beacon and the other goroutines do, [Step] never panics, keeps a
    published fatal error and its own progress consistent, and moves the
    archive only by these transitions.  Retention: the cutoff goes up to
    seven days before a confirmed block that the node showed before and after
    the old anchors were checked.  Scan: the range right after the checkpoint
    (or from the Inbox start), at most a batch of blocks and never beyond the
    confirmed target, is committed once, with the hash its last block had
    before and after the scan; its senders are those of the stored checkpoint
    (or of the whole chain before the Inbox start) and of the range's logs in
    order, and every recovered transaction and channel goes back to a
    submission the sender in effect signed and to blob transactions its blob
    sender signed, not later, as the node reported them.  After a fatal error
    nothing changes, and a step that says it caught up did. *)
Theorem blob_Step_refines (w w' : world) r A :
  0 < uval (cBatchSize cfg) → status_ok (wStatus w) → progress_ok (D := D) cfg (wPriv w) →
  holds_archive w A → Step cfg w = (w', r) →
  r ≠ Panic ∧ status_ok (wStatus w') ∧ progress_ok (D := D) cfg (wPriv w') ∧
  keeps_fatal (wStatus w) (wStatus w') ∧
  (∃ A', holds_archive w' A' ∧ evolves cfg (wClock w) (wClock w') A A') ∧
  (stFatal (wStatus w) ≠ None → holds_archive w' A ∧ ∃ e, r = Err e) ∧
  (r = Ok true → caught cfg (wClock w) A w').
Proof.
  intros Hb Hw HJ HA E.
  destruct (wp_run _ _ _ _ _ _ _ (awp_Step cfg (wClock w) A w Hb) (tracked_start w A Hw HJ HA) E)
    as ([[Hw' HJ'] [_ He]] & [Hk _ Hbar] & Hp & HQ).
  split_and!; [done..| |].
  - intros Hf. split; [by apply Hbar|]. destruct (Step_fatal cfg w Hw Hf) as [e He']. exists e.
    by rewrite E in He'.
  - intros Hr. by apply (HQ true).
Qed.

(** [C10] Along any run of the blob loop, from any consistent state: the
    archive only goes forward (height, cutoff and revision), every
    transaction, channel and block stays as it was written until it expires,
    and the authority in the checkpoint is exactly what the chain announced
    in the blocks up to its height, every manager with its whole history.
    The run never panics, and changes nothing after a fatal error. *)
Theorem blob_Run_invariant fuel (w w' : world) r A :
  0 < uval (cBatchSize cfg) → status_ok (wStatus w) → progress_ok (D := D) cfg (wPriv w) →
  holds_archive w A → sound A → Run fuel cfg w = (w', r) →
  r ≠ Panic ∧ ∃ A', holds_archive w' A' ∧ grows A A' ∧ sound A' ∧
    (stFatal (wStatus w) ≠ None → holds_archive w' A).
Proof.
  intros Hb Hw HJ HA Hs E.
  destruct (wp_run _ _ _ _ _ _ _ (awp_Run (wClock w) A Hb fuel w) (tracked_start w A Hw HJ HA) E)
    as ([_ [_ (A' & HA' & He)]] & [_ _ Hbar] & Hp & _).
  destruct (evolves_invariants _ _ _ _ He) as [Hg Hs']. split; [done|]. exists A'.
  split_and!; [done | done | by apply Hs' |]. intros Hf. by apply Hbar.
Qed.

(** [C35] The blob loop stops on errors that retrying cannot cure: when a step
    fails with ErrFatal, ErrIntegrity or ErrInvalid the round publishes it as
    the fatal error, turns blob readiness off and ends the loop; on any other
    error it waits, or ends when its context is done. *)
Theorem blob_Run_halts (w w1 : world) e fuel :
  0 < uval (cBatchSize cfg) → status_ok (wStatus w) → progress_ok (D := D) cfg (wPriv w) →
  (∃ A, holds_archive w A) → ctx_Err (D := D) (wClock w) = None → Step cfg w = (w1, Err e) →
  (errors_Is e ErrFatal || errors_Is e ErrIntegrity || errors_Is e ErrInvalid = true →
     ∃ w', Run (S fuel) cfg w = (w', Ok (Some tt)) ∧ stFatal (wStatus w') ≠ None) ∧
  (errors_Is e ErrFatal || errors_Is e ErrIntegrity || errors_Is e ErrInvalid = false →
     ∃ w' n, run_round cfg w = (w', Ok n) ∧ n ≠ Continue ∧
       (n = Stop ↔ is_Some (ctx_Err (D := D) (wClock w')))).
Proof.
  intros Hb Hw HJ [A HA] Hctx Hs. assert (status_ok (wStatus w1)) as Hw1.
  { destruct (wp_run _ _ _ _ _ _ _ (awp_Step cfg (wClock w) A w Hb) (tracked_start w A Hw HJ HA) Hs)
      as ([[? _] _] & _). done. }
  cbn [Run]. rewrite Hctx. unfold mbind at 1, run_round. rewrite Hs.
  destruct (status_SetBlobReady_Ok (K := blobs_kept) false w1 Hw1) as (w2 & E2 & Q2).
  unfold mbind. rewrite E2. split; intros ->.
  - destruct (status_Set_total (K := blobs_kept) false (Some e) w2 (q_ok _ _ Q2)) as (w3 & E3 & _ & Hf).
    rewrite E3. exists w3. split; [done|]. by apply (Hf e).
  - exists w2. destruct (ctx_Err (wClock w2)) as [c|]; eexists; (split; [done|]); (split; [done|]).
    + by split; [eexists|].
    + split; [done|]. by intros [? ?].
Qed.

End theorems.

(** ** A concrete chain *)

Module BlobSyncWitness.

#[local] Existing Instances HexText.text HexText.laws AbiWords.abi AbiWords.abi_laws
  merge_slice merge_slice_laws NumberLog.log_json NumberLog.log_json_laws sorted_range sorted_range_laws
  SpanWitness.rlp0 SpanWitness.rlp0_laws SpanWitness.eth0 SpanWitness.eth0_laws SpanWitness.zip0
  MemKV.pebble MemKV.laws MemKV.no_panic.

(** Block 2 has a blob transaction of sender 8 and the commitment of sender 6
    to it: batch 7 with the element 12, the block 11. *)
Definition blob_tx : Transaction :=
  mkTransaction (wrap 256 21) BlobTxType 1 (Some (wrap 160 5)) [] [wrap 256 99].
Definition inbox_tx : Transaction :=
  mkTransaction (wrap 256 22) (wrap 8 2) 1 (Some (wrap 160 5))
    (commitment_data (wrap 8 3) 7 12 1 [wrap 256 21]) [].
Definition node_block (n : Z) : EthBlock :=
  mkEthBlock n (wrap 256 (1000 + n)) (wrap 256 (999 + n)) (#64 (600000 + n)) None
    (if n =? 2 then [blob_tx; inbox_tx] else []).
Definition node_receipt (h : Hash) : option Receipt :=
  if bool_decide (h = wrap 256 21) then Some (mkReceipt h (wrap 256 1002) (Some 2) (#64 0) (#64 1))
  else if bool_decide (h = wrap 256 22) then Some (mkReceipt h (wrap 256 1002) (Some 2) (#64 1) (#64 1))
  else None.

#[local] Instance signer : Signer := λ _ tx,
  inl (if bool_decide (txHash tx = wrap 256 21) then wrap 160 8 else wrap 160 6).

(** The node is at block 12, and shows no event. *)
#[local] Instance env : Env MemKV.db := {|
  rpc_Header _ n := inl (Some (bkHeader (node_block match n with Some n => uval n | None => 12 end)));
  rpc_FilterLogs _ _ := inl [];
  ctx_Err _ := None;
  env_status t := if (t =? 5)%nat then [OpEnableBlob] else [];
  env_store _ s := s;
|}.
#[local] Instance blob_env : BlobEnv := {|
  rpc_BlockByNumber _ n := inl (Some (node_block (uval n)));
  rpc_BlockByHash _ h := inl (Some (node_block (uval h - 1000)));
  rpc_TransactionReceipt _ h := inl (node_receipt h);
  src_Frames _ _ _ := inl [ChannelWitness.frame 0 true SpanWitness.channel0];
|}.

#[local] Instance blob_env_laws : BlobEnvLaws.
Proof. intros t n b [= <-]. unfold node_block, len. simpl. by destruct (uval n =? 2). Qed.
#[local] Instance keeps : Keeps (D := MemKV.db) (blobs_kept (B := MemKV.batch)).
Proof. split; [by intros ?? | intros s1 s2 s3 K1 K2 A HA; by apply K2, K1 | by intros t s A HA]. Qed.

Definition cfg (batch : Z) : Config :=
  mkConfig "rpc" (#64 1) (#64 1088) (wrap 160 7) (#64 0) (#64 10) (#64 batch) 1 "db" "listen" "beacon"
    (wrap 160 5) (wrap 160 6) (wrap 160 8) (#64 0).

Definition w0 : world MemKV.db progress := mkWorld BlobWitness.b0 new_Status no_progress 0.
Definition step1 := Step (B := MemKV.batch) (cfg 50) w0.

Lemma w0_archive : holds_archive (B := MemKV.batch) w0 empty_archive.
Proof. exact BlobWitness.b0_archived. Qed.

(** The step recovers block 11. *)
Definition recovered : option u64 :=
  match GetBlock (B := MemKV.batch) (wStore step1.1) None with
  | Ok r => bIndex <$> respBlock r
  | _ => None
  end.

Lemma blob_Step_refines_witness :
  step1.2 = Ok true ∧ recovered = Some (wrap 64 11) ∧
  step1.2 ≠ Panic ∧ status_ok (wStatus step1.1) ∧
  progress_ok (D := MemKV.db) (cfg 50) (wPriv step1.1) ∧
  keeps_fatal (wStatus w0) (wStatus step1.1) ∧
  (∃ A', holds_archive (B := MemKV.batch) step1.1 A' ∧
     evolves (cfg 50) (wClock w0) (wClock step1.1) empty_archive A') ∧
  (stFatal (wStatus w0) ≠ None →
     holds_archive (B := MemKV.batch) step1.1 empty_archive ∧ ∃ e, step1.2 = Err e) ∧
  (step1.2 = Ok true → caught (B := MemKV.batch) (cfg 50) (wClock w0) empty_archive step1.1).
Proof.
  split; [vm_compute; reflexivity|]. split; [vm_compute; reflexivity|].
  apply (blob_Step_refines (cfg 50) w0 step1.1 step1.2 empty_archive).
  - vm_compute. reflexivity.
  - exact new_Status_ok.
  - apply no_progress_ok.
  - exact w0_archive.
  - apply surjective_pairing.
Defined.

(** Two rounds, one block at a time. *)
Definition run2 := Run (B := MemKV.batch) 2 (cfg 1) w0.

Lemma blob_Run_invariant_witness :
  run2.2 ≠ Panic ∧ ∃ A', holds_archive (B := MemKV.batch) run2.1 A' ∧ grows empty_archive A' ∧
    sound (D := MemKV.db) (cfg 1) A' ∧
    (stFatal (wStatus w0) ≠ None → holds_archive (B := MemKV.batch) run2.1 empty_archive).
Proof.
  apply (blob_Run_invariant (cfg 1) 2 w0 run2.1 run2.2 empty_archive).
  - vm_compute. reflexivity.
  - exact new_Status_ok.
  - apply no_progress_ok.
  - exact w0_archive.
  - exact I.
  - apply surjective_pairing.
Defined.

(** A checkpoint whose authority is not a document: the loop stops. *)
Definition bad_state : BlobState :=
  mkBlobState (#64 0) (Some (#64 0)) (wrap 256 1000) (#64 0) None zero_hash None (JNum 7).
Definition broken : Store MemKV.db :=
  BlobWitness.get_store (CommitBlob BlobWitness.b0 zero_BlobState bad_state [] []).
Lemma broken_commit : CommitBlob BlobWitness.b0 zero_BlobState bad_state [] [] = Ok broken.
Proof. vm_cast_no_check (eq_refl (Ok broken)). Qed.
Definition w1 : world MemKV.db progress := mkWorld broken new_Status no_progress 0.
Definition step2 := Step (B := MemKV.batch) (cfg 1) w1.
Definition bad_authority : error := fatal "invalid stored authorization".

Lemma blob_Run_halts_witness :
  ∃ w', Run (B := MemKV.batch) 4 (cfg 1) w1 = (w', Ok (Some tt)) ∧ stFatal (wStatus w') ≠ None.
Proof.
  apply (blob_Run_halts (B := MemKV.batch) (cfg 1) w1 step2.1 bad_authority 3).
  - vm_compute. reflexivity.
  - exact new_Status_ok.
  - apply no_progress_ok.
  - destruct (CommitBlob_refines _ _ _ _ _ _ _ BlobWitness.b0_archived broken_commit) as (A & _ & HA & _).
    by exists A.
  - reflexivity.
  - assert (step2.2 = Err bad_authority) as E by (vm_compute; reflexivity).
    rewrite (surjective_pairing (Step _ _)). unfold step2 in *. rewrite E. reflexivity.
  - reflexivity.
Defined.

End BlobSyncWitness.
