(* ===== verification/Ingest.v ===== *)
(** * Deposit ingestion (internal/ingest: ingest.go, syncer_step.go, bootstrap.go)

    [Step] scans one window of L1 blocks and commits its deposits with the
    new checkpoint.  The loop's own state in its world (Service.v) is the
    progress of the bootstrap. *)
From S2P Require Import Prelude StateMonad Word Json Geth Pebble StoreTypes DepositStore Config.
From S2P Require Import Logs Status Service.

(** [bootstrapState] *)
Record bootstrapState : Type := mkBootstrap {
  bsAnchor : Hash;
  bsNext : u64;
  bsReady : bool;
  bsCTC : Address;
}.

Record bootstrapPage : Type := mkPage {
  pgFrom : u64;
  pgEnd : u64;
  pgLogs : list Log;
}.

Record scanWindow : Type := mkWindow {
  swBefore : State;
  swFrom : u64;
  swEnd : u64;
  swTarget : u64;
  swEndHash : Hash;
  swCTC : Address;
}.
Definition zero_window : scanWindow :=
  mkWindow zero_State (#64 0) (#64 0) (#64 0) zero_hash zero_address.

Section ingest.
Context `{GethText, ABI, SortSlice}.
Context {D B : Type} `{Pebble D B, Env D}.
Notation M D := (M D (option bootstrapState)).

(** ** Shared state *)

Definition store_State : M D State := read_store StoreState.

(** [s.bootstrap], which only the syncer uses. *)
Definition get_bootstrap : M D (option bootstrapState) := get_priv.
Definition set_bootstrap (b : option bootstrapState) : M D unit := set_priv b.

(** The commit at the end of [commitWindow]. *)
Definition commit_store (before after : State) (records : list DepositRecord) : M D unit :=
  commit_with (λ s, Commit s before after records).

Definition header (n : u64) : M D Header := checked_header (fatal "invalid header") n.

(** ** The window *)

Definition prepareWindow (cfg : Config) : M D (scanWindow * bool) :=
  do! before := wrap_error (wrapf ErrIntegrity) store_State in
  do! _ :=
    match sHeight before with
    | None => ret tt
    | Some n =>
        do! h := header n in
        raise_if negb (bool_decide (hHash h = sHash before))
          with fatal "committed block changed" ;;
        ret tt
    end in
  do! tip := HeaderByNumber None in
  match header_number tip with
  | None => fail (fatal "invalid tip")
  | Some tip =>
      let target := if ule (cConfirmations cfg) tip then usub tip (cConfirmations cfg) else #64 0 in
      do! from :=
        match sHeight before with
        | None => ret (Some (cStart cfg))
        | Some n =>
            if ule target n then
              do! _ := status_Set true None in ret None
            else ret (Some (uadd n (#64 1)))
        end in
      match from with
      | None => ret (zero_window, true)
      | Some from =>
          if ult target from then ret (zero_window, true) else
          do! _ := status_Set false None in
          let end_ :=
            if ule (cBatchSize cfg) (usub target from)
            then usub (uadd from (cBatchSize cfg)) (#64 1) else target in
          ret (mkWindow before from end_ target zero_hash (sCTC before), false)
      end
  end.

(** ** Bootstrap: finding the chain's address before the start block *)

Definition checkBootstrap (cfg : Config) : M D unit :=
  do! b := get_bootstrap in
  match b with
  | None => ret tt
  | Some b =>
      do! h := header (usub (cStart cfg) (#64 1)) in
      raise_if negb (bool_decide (hHash h = bsAnchor b))
        with fatal "initialization anchor changed" ;;
      ret tt
  end.

Definition address_query (cfg : Config) (from end_ : u64) : FilterQuery :=
  mkQuery from end_ [cAddressManager cfg] [[EventID AddressSet]; [nameHash]].

(** An AddressSet log of the AddressManager for the chain's name. *)
Definition address_log (cfg : Config) (l : Log) : bool :=
  bool_decide (lAddress l = cAddressManager cfg) &&
  bool_decide (lTopics l = [EventID AddressSet; nameHash]).

Definition check_page_log (cfg : Config) (from end_ : u64) (_ : unit) (l : Log) : result unit :=
  let! _ := validateLog l from end_ in
  fail_if negb (address_log cfg l) with fatal "unexpected initialization log" ;;
  let! _ := unpack AddressSet (lData l) in
  Ok tt.

Definition loadBootstrapPage (cfg : Config) (end_ : u64) : M D bootstrapPage :=
  raise_if bool_decide (cBatchSize cfg = #64 0) with plain "batch size must be positive" ;;
  let from :=
    if ule (cBatchSize cfg) end_ then uadd (usub end_ (cBatchSize cfg)) (#64 1) else #64 0 in
  do! logs := FilterLogs (address_query cfg from end_) in
  do! _ := lift (foldM (check_page_log cfg from end_) tt logs) in
  ret (mkPage from end_ logs).

Definition decodeBootstrapPage (cfg : Config) (page : bootstrapPage) : result Address :=
  match pgLogs page with
  | [] => Ok zero_address
  | _ =>
      let logs := sort_Slice log_less (pgLogs page) in
      let! l0 := at_ logs 0 in
      let! vals := unpack AddressSet (lData l0) in
      let! v1 := at_ vals 1 in let! old := as_address v1 in
      let initial := if bool_decide (pgFrom page = #64 0) then zero_address else old in
      let! ' (_, ctc) := decodeLogs cfg logs initial (pgFrom page) (pgEnd page) in
      Ok ctc
  end.

(** The first step fixes the anchor. *)
Definition ensure_bootstrap (n : u64) (b : option bootstrapState) : M D unit :=
  match b with
  | Some _ => ret tt
  | None =>
      do! h := header n in
      set_bootstrap (Some (mkBootstrap (hHash h) n false zero_address))
  end.

(** One page of history: either the page before it is next, or the address
    is known. *)
Definition bootstrap_step (cfg : Config) (b : bootstrapState) : M D (option Address) :=
  if bsReady b then ret (Some (bsCTC b)) else
  do! page := loadBootstrapPage cfg (bsNext b) in
  do! ctc := lift (decodeBootstrapPage cfg page) in
  do! _ := checkBootstrap cfg in
  if bool_decide (pgLogs page = []) && negb (bool_decide (pgFrom page = #64 0)) then
    do! _ := set_bootstrap (Some (mkBootstrap (bsAnchor b) (usub (pgFrom page) (#64 1))
                                    (bsReady b) (bsCTC b))) in
    ret None
  else
    do! _ := set_bootstrap (Some (mkBootstrap (bsAnchor b) (bsNext b) true ctc)) in
    ret (Some ctc).

(** [w.ctc] is set through the pointer: the window comes back with the
    flag. *)
Definition initializeCTC (cfg : Config) (w : scanWindow) : M D (bool * scanWindow) :=
  match sHeight (swBefore w) with
  | Some _ => do! _ := set_bootstrap None in ret (true, w)
  | None =>
      if bool_decide (swFrom w = #64 0) then ret (true, w) else
      do! _ := status_Set false None in
      do! b := get_bootstrap in
      do! _ := ensure_bootstrap (usub (swFrom w) (#64 1)) b in
      do! _ := checkBootstrap cfg in
      do! b := get_bootstrap in
      match b with
      | None => lift Panic
      | Some b =>
          do! ctc := bootstrap_step cfg b in
          match ctc with
          | None => ret (false, w)
          | Some a =>
              ret (true, mkWindow (swBefore w) (swFrom w) (swEnd w) (swTarget w)
                           (swEndHash w) a)
          end
      end
  end.

(** ** Scanning *)

Definition anchorWindow (w : scanWindow) : M D scanWindow :=
  do! h := header (swEnd w) in
  ret (mkWindow (swBefore w) (swFrom w) (swEnd w) (swTarget w) (hHash h) (swCTC w)).

(** The addresses a change log adds to the query. *)
Definition check_change (cfg : Config) (from end_ : u64) (addresses : gset Address) (l : Log) :
    result (gset Address) :=
  let! _ := validateLog l from end_ in
  fail_if negb (address_log cfg l) with fatal "unexpected address log" ;;
  let! v := unpack AddressSet (lData l) in
  let! v0 := at_ v 0 in let! a := as_address v0 in
  Ok (if bool_decide (a = zero_address) then addresses else {[a]} ∪ addresses).

Definition loadLogs (cfg : Config) (w : scanWindow) : M D (list Log) :=
  do! changes := FilterLogs (address_query cfg (swFrom w) (swEnd w)) in
  let addresses : gset Address :=
    if bool_decide (swCTC w = zero_address) then ∅ else {[swCTC w]} in
  do! addresses := lift (foldM (check_change cfg (swFrom w) (swEnd w)) addresses changes) in
  if bool_decide (elements addresses = []) then ret changes else
  do! enqueues := FilterLogs (mkQuery (swFrom w) (swEnd w) (elements addresses)
                                [[EventID TransactionEnqueued]]) in
  ret (changes ++ enqueues).

Definition commitWindow (cfg : Config) (w : scanWindow) (ctc : Address)
    (records : list DepositRecord) : M D unit :=
  do! _ :=
    match sHeight (swBefore w) with
    | None => checkBootstrap cfg
    | Some _ => ret tt
    end in
  raise_if bool_decide (swEnd w = swTarget w) && bool_decide (ctc = zero_address)
    with fatal "no active CanonicalTransactionChain at confirmed tip" ;;
  do! h := header (swEnd w) in
  raise_if negb (bool_decide (hHash h = swEndHash w)) with fatal "scan changed before commit" ;;
  do! _ :=
    match sHeight (swBefore w) with
    | None => ret tt
    | Some n =>
        do! h := header n in
        raise_if negb (bool_decide (hHash h = sHash (swBefore w)))
          with fatal "checkpoint changed before commit" ;;
        ret tt
    end in
  commit_store (swBefore w) (mkState (Some (swEnd w)) (swEndHash w) ctc None) records.

Definition Step (cfg : Config) : M D bool :=
  do! ' (_, err) := status_Snapshot in
  match err with
  | Some e => fail e
  | None =>
      do! ' (w, done) := prepareWindow cfg in
      if done then ret true else
      do! ' (ready, w) := initializeCTC cfg w in
      if negb ready then ret false else
      do! w := anchorWindow w in
      do! logs := loadLogs cfg w in
      do! ' (records, ctc) := lift (decodeLogs cfg logs (swCTC w) (swFrom w) (swEnd w)) in
      do! _ := commitWindow cfg w ctc records in
      let caught := bool_decide (swEnd w = swTarget w) in
      do! _ := status_Set caught None in
      ret caught
  end.

(** ** The loop *)

(** One round of [Run] up to the timer. *)
Definition run_round (cfg : Config) : M D next := λ w,
  let '(w, r) := Step cfg w in
  match r with
  | Panic => (w, Panic)
  | Ok caught =>
      (do! ' (_, f) := status_Snapshot in
       match f with
       | Some _ => ret Stop
       | None => ret (if caught then Wait else Continue)
       end) w
  | Err e =>
      (do! ' (_, f) := status_Snapshot in
       match f with
       | Some _ => ret Stop
       | None =>
           do! _ := status_Set false None in
           if errors_Is e ErrFatal || errors_Is e ErrIntegrity then
             do! _ := status_Set false (Some e) in ret Stop
           else ret Wait
       end) w
  end.

(** [Run] for at most [fuel] rounds; [None] when they are used up.  The
    context is checked before each round and with [Done] while waiting. *)
Fixpoint Run (fuel : nat) (cfg : Config) : M D (option unit) :=
  match fuel with
  | O => ret None
  | S fuel => λ w,
      match ctx_Err (wClock w) with
      | Some _ => (w, Ok (Some tt))
      | None =>
          (do! n := run_round cfg in
           match n with
           | Stop => ret (Some tt)
           | Continue => Run fuel cfg
           | Wait =>
               do! c := status_Done in
               match c with
               | ChanClosed => ret (Some tt)
               | ChanOpen => Run fuel cfg
               end
           end) w
      end
  end.

End ingest.
