(* ===== verification/IngestFacts.v ===== *)
(** * Reasoning about deposit ingestion

    Everything [Step] does before its commit is safe: it leaves the deposits
    alone and never panics. *)
From S2P Require Import Prelude StateMonad Word Json Geth Pebble StoreTypes DepositStore Config Logs.
From S2P Require Import BlobStore StorePanics.
From S2P Require Import LogFacts LogTheorems Status Service ServiceFacts Ingest.

(** The other goroutines leave the deposits alone: the blob syncer writes
    keys of its own, HTTP handlers only read. *)
Class EnvLaws (D B : Type) `{GethText, PebbleLaws D B, !NoPanic D B, Env D} : Prop := {
  env_store_frame t (s : Store D) l :
    represents (contents (st_db s)) l → represents (contents (st_db (env_store t s))) l;
}.

Definition deposits_kept `{GethText, PebbleLaws D B} (s s' : Store D) : Prop :=
  ∀ l, represents (contents (st_db s)) l → represents (contents (st_db s')) l.

#[export] Instance deposits_keeps `{GethText, PebbleLaws D B, !NoPanic D B, !Env D, !EnvLaws D B} :
  Keeps deposits_kept.
Proof. split; [by intros s l | intros s1 s2 s3; unfold deposits_kept; auto | intros t s l; apply env_store_frame]. Qed.

Notation quiet := (quiet_with deposits_kept).
Notation safe := (safe_for deposits_kept).
Notation safe_at := (safe_at_for deposits_kept).
Notation gave_up := (gave_up_for deposits_kept).

Section facts.
Context `{ABILaws, GethTextLaws, SortSliceLaws}.
Context {D B : Type} `{!Pebble D B, !PebbleLaws D B, !NoPanic D B, !Env D, !EnvLaws D B}.

Notation world := (world D (option bootstrapState)).
Notation M := (M D (option bootstrapState)).

Lemma q_store (w w' : world) :
  quiet w w' → ∀ l, represents (contents (st_db (wStore w))) l →
  represents (contents (st_db (wStore w'))) l.
Proof. intros Hq. apply (q_kept _ _ Hq). Qed.

Lemma safe_store_State : safe store_State.
Proof.
  apply safe_read_store. intros d. unfold StoreState.
  destruct (st_closed _); [done | apply readState_no_panic].
Qed.

Lemma safe_get_bootstrap : safe get_bootstrap.
Proof. apply safe_get_priv. Qed.

Lemma safe_set_bootstrap b : safe (set_bootstrap b).
Proof. apply safe_set_priv. Qed.

Lemma safe_header n : safe (header n).
Proof. apply safe_checked_header. Qed.

End facts.

#[export] Hint Resolve safe_store_State safe_get_bootstrap safe_set_bootstrap safe_header : safe.

Section composed.
Context `{ABILaws, GethTextLaws, SortSliceLaws}.
Context {D B : Type} `{!Pebble D B, !PebbleLaws D B, !NoPanic D B, !Env D, !EnvLaws D B}.

Notation world := (world D (option bootstrapState)).
Notation M := (M D (option bootstrapState)).

Lemma safe_checkBootstrap cfg : safe (checkBootstrap cfg).
Proof. unfold checkBootstrap. solve_safe. Qed.

#[local] Hint Resolve safe_checkBootstrap : safe.

Lemma safe_prepareWindow cfg : safe (prepareWindow cfg).
Proof. unfold prepareWindow. solve_safe. Qed.

Lemma safe_anchorWindow win : safe (anchorWindow win).
Proof. unfold anchorWindow. solve_safe. Qed.

(** ** Pure parts do not panic *)

Lemma validateLog_no_panic l from end_ : validateLog l from end_ ≠ Panic.
Proof. unfold validateLog. by destruct (_ || _). Qed.

Lemma check_page_log_no_panic cfg from end_ u l : check_page_log cfg from end_ u l ≠ Panic.
Proof.
  unfold check_page_log. apply bind_no_panic; [apply validateLog_no_panic|]. intros _ _.
  destruct (negb _); [done|]. apply bind_no_panic; [|done].
  apply total_no_panic, unpack_total.
Qed.

Lemma check_change_no_panic cfg from end_ a l : check_change cfg from end_ a l ≠ Panic.
Proof.
  unfold check_change. apply bind_no_panic; [apply validateLog_no_panic|]. intros _ _.
  destruct (negb _); [done|]. apply bind_no_panic; [apply total_no_panic, unpack_total|].
  intros v (new & old & ->)%unpack_AddressSet. done.
Qed.

Lemma decodeLogs_no_panic cfg logs ctc from end_ : decodeLogs cfg logs ctc from end_ ≠ Panic.
Proof.
  destruct (decodeLogs_cases cfg logs ctc from end_) as [(rs & ctc' & -> & _)|[Hf _]]; [done|].
  by eapply fails_no_panic.
Qed.

Lemma decodeBootstrapPage_no_panic cfg page : decodeBootstrapPage cfg page ≠ Panic.
Proof.
  unfold decodeBootstrapPage. destruct (pgLogs page) as [|l0 ls]; [done|].
  pose proof (sort_Slice_Permutation log_less (l0 :: ls)) as Hp.
  destruct (sort_Slice log_less (l0 :: ls)) as [|l1 ls'].
  { apply Permutation_nil in Hp. done. }
  change (at_ (l1 :: ls') 0) with (Ok l1). cbn [bind].
  apply bind_no_panic; [apply total_no_panic, unpack_total|].
  intros v (new & old & ->)%unpack_AddressSet.
  change (at_ [AbiAddress new; AbiAddress old] 1) with (Ok (AbiAddress old)). cbn [bind as_address].
  apply bind_no_panic; [apply decodeLogs_no_panic|]. by intros [rs ctc].
Qed.

Lemma safe_loadBootstrapPage cfg end_ : safe (loadBootstrapPage cfg end_).
Proof.
  unfold loadBootstrapPage. solve_safe.
  apply safe_lift, foldM_no_panic. intros. apply check_page_log_no_panic.
Qed.

Lemma safe_loadLogs cfg win : safe (loadLogs cfg win).
Proof.
  unfold loadLogs. apply safe_bind; [eauto with safe|]. intros.
  apply safe_bind; [|intros; solve_safe].
  apply safe_lift, foldM_no_panic. intros. apply check_change_no_panic.
Qed.

(** ** The bootstrap state *)

Lemma keeps_priv_check cfg : keeps_priv (checkBootstrap cfg).
Proof.
  apply keeps_priv_bind; [done|]. intros [b|]; [|done].
  apply keeps_priv_bind; [apply keeps_priv_header|]. intros h. by destruct (negb _).
Qed.

Lemma safe_ensure n b : safe (ensure_bootstrap n b).
Proof. unfold ensure_bootstrap. solve_safe. Qed.

Lemma ensure_bootstrap_Some n b w w' u :
  wPriv w = b → ensure_bootstrap n b w = (w', Ok u) → is_Some (wPriv w').
Proof.
  intros Hb. unfold ensure_bootstrap. destruct b as [b|].
  - intros [= <- _]. by rewrite Hb; eexists.
  - unfold mbind. destruct (header n w) as [w1 [h|e|]]; [|done..].
    intros [= <- _]. by eexists.
Qed.

Lemma safe_bootstrap_step cfg b : safe (bootstrap_step cfg b).
Proof.
  unfold bootstrap_step. destruct (bsReady b); [solve_safe|].
  apply safe_bind; [apply safe_loadBootstrapPage|]. intros page _ _ _.
  apply safe_bind; [apply safe_lift, decodeBootstrapPage_no_panic|]. intros ctc _ _ _.
  solve_safe.
Qed.

Lemma safe_initializeCTC cfg win : safe (initializeCTC cfg win).
Proof.
  unfold initializeCTC. destruct (sHeight (swBefore win)); [solve_safe|].
  destruct (bool_decide _); [solve_safe|].
  apply safe_bind; [eauto with safe|]. intros _ _ _ _ w.
  apply safe_at_bind; [eauto with safe|]. intros b w1 [= <- <-].
  apply safe_at_bind; [apply safe_ensure|]. intros u w2 E%ensure_bootstrap_Some; [|done].
  apply safe_at_bind; [eauto with safe|]. intros u' w3 Hc.
  apply keeps_priv_Ok in Hc; [|apply keeps_priv_check]. rewrite <-Hc in E.
  apply safe_at_bind; [eauto with safe|]. intros b w4 [= <- <-].
  destruct (wPriv w3) as [b|]; [|by destruct E]. apply safe_safe_at.
  apply safe_bind; [apply safe_bootstrap_step|]. intros [a|] _ _ _; solve_safe.
Qed.

End composed.

#[export] Hint Resolve safe_checkBootstrap safe_prepareWindow safe_anchorWindow
  safe_loadLogs safe_initializeCTC : safe.
