(* ===== verification/IngestTheorems.v ===== *)
(** * What a step of deposit ingestion guarantees

    [Step] refines the ledger: it leaves the deposits alone or commits one
    scanned window to them, and it commits only what the node confirmed
    before and after the window's logs were read. *)
From S2P Require Import Prelude StateMonad Word Json Geth Pebble StoreTypes DepositStore Config Logs.
From S2P Require Import BlobStore StorePanics.
From S2P Require Import LogFacts LogTheorems Status Service ServiceFacts Ingest IngestFacts.

#[local] Notation mbind_cases := (mbind_cases (K := deposits_kept)).
#[local] Notation raise_if_cases := (raise_if_cases (K := deposits_kept)).
#[local] Notation safe_Ok := (safe_Ok (K := deposits_kept)).

Section facts.
Context `{ABILaws, GethTextLaws, SortSliceLaws}.
Context {D B : Type} `{!Pebble D B, !PebbleLaws D B, !NoPanic D B, !Env D, !EnvLaws D B}.

Notation world := (world D (option bootstrapState)).
Notation M D := (M D (option bootstrapState)).

Definition holds (w : world) (l : ledger) : Prop := represents (contents (st_db (wStore w))) l.

(** ** The window *)

(** The window [win] as chosen in the time [(t1, t2]] for the ledger [l]: it
    starts right after the checkpoint, or at the configured start, ends at
    most a batch later and never beyond the confirmed part of the chain. *)
Record window_ok (cfg : Config) (t1 t2 : nat) (l : ledger) (win : scanWindow) : Prop := {
  wk_before : swBefore win = lg_state l;
  wk_from : match sHeight (lg_state l) with
            | None => swFrom win = cStart cfg
            | Some n => uval (swFrom win) = uval n + 1
            end;
  wk_range : uval (swFrom win) <= uval (swEnd win) <= uval (swTarget win);
  wk_batch : uval (swEnd win) - uval (swFrom win) < uval (cBatchSize cfg);
  wk_tip : ∃ t tip n, (t1 < t <= t2)%nat ∧ rpc_Header (D := D) t None = inl (Some tip) ∧
    hNumber tip = Some n ∧ uval (swTarget win) = Z.max 0 (n - uval (cConfirmations cfg));
  wk_checkpoint : match sHeight (lg_state l) with
                  | None => True
                  | Some n => ∃ h, saw_header (D := D) t1 t2 n h ∧ hHash h = sHash (lg_state l)
                  end;
}.

Lemma store_State_Ok w w' st l :
  status_ok (wStatus w) → holds w l → store_State w = (w', Ok st) → st = lg_state l.
Proof.
  intros Hw Hl (Hq & _ & Hs)%read_store_Ok; [|done]. unfold StoreState in Hs.
  destruct (st_closed _); [done|].
  apply (readState_rep (st_db (wStore w')) l); [by eapply q_store | done].
Qed.

Lemma window_end (from target batch : u64) :
  0 < uval batch → uval from <= uval target →
  let end_ := if ule batch (usub target from) then usub (uadd from batch) (#64 1) else target in
  uval from <= uval end_ <= uval target ∧ uval end_ - uval from < uval batch.
Proof.
  intros Hb Hft. pose proof (uint_range target). pose proof (uint_range from).
  unfold ule. rewrite usub_le by done.
  destruct (Z.leb_spec (uval batch) (uval target - uval from)); [|lia].
  assert (uval (uadd from batch) = uval from + uval batch) as Ha by (apply uadd_fit; lia).
  assert (uval (usub (uadd from batch) (#64 1)) = uval from + uval batch - 1) as ->.
  { rewrite usub_le; change (uval (#64 1)) with 1; lia. }
  lia.
Qed.

Lemma prepareWindow_Ok cfg w w' win l :
  0 < uval (cBatchSize cfg) → status_ok (wStatus w) → holds w l →
  prepareWindow cfg w = (w', Ok (win, false)) →
  window_ok cfg (wClock w) (wClock w') l win ∧ swCTC win = sCTC (lg_state l).
Proof.
  intros Hbatch Hw Hl Hp.
  pose proof (safe_Ok _ _ _ _ (safe_prepareWindow cfg) Hw Hp) as Hq.
  apply mbind_Ok in Hp as (before & w1 & Hb%wrap_error_Ok & Hp).
  pose proof (store_State_Ok _ _ _ _ Hw Hl Hb) as ->.
  pose proof (safe_Ok _ _ _ _ safe_store_State Hw Hb) as Q1.
  apply mbind_Ok in Hp as (u & w2 & Hchk & Hp).
  apply mbind_Ok in Hp as (tip & w3 & [C3 Htip]%answer_Ok & Hp).
  destruct (header_number tip) as [tipn|] eqn:Etip; [|done].
  destruct tip as [tip|]; [|done]. apply header_number_Some in Etip.
  set (target := if ule _ _ then _ else _) in Hp.
  pose proof (usub_clamped tipn (cConfirmations cfg)) as Htarget. fold target in Htarget.
  apply mbind_Ok in Hp as (from & w4 & Hfrom & Hp).
  destruct from as [from|]; [|done]. destruct (ult target from) eqn:Hlt; [done|].
  apply mbind_Ok in Hp as (u5 & w5 & Hset & Hp). injection Hp as <- <-.
  assert ((wClock w3 <= wClock w4)%nat ∧ match sHeight (lg_state l) with
    | None => from = cStart cfg
    | Some n => uval from = uval n + 1
    end) as [C4 Hf].
  { destruct (sHeight (lg_state l)) as [n|].
    - destruct (ule target n) eqn:Hle.
      + by apply mbind_Ok in Hfrom as (? & ? & _ & ?).
      + injection Hfrom as <- <-. split; [lia|]. unfold ule in Hle. bool_to_prop.
        pose proof (uint_range target). apply uadd_fit. change (uval (#64 1)) with 1. lia.
    - by injection Hfrom as <- <-. }
  assert ((wClock w1 <= wClock w2)%nat ∧ match sHeight (lg_state l) with
    | None => True
    | Some n => ∃ h, saw_header (D := D) (wClock w1) (wClock w2) n h ∧ hHash h = sHash (lg_state l)
    end) as [C2 Hck].
  { destruct (sHeight (lg_state l)) as [n|].
    - apply mbind_Ok in Hchk as (h & wh & [Hsaw Hc]%checked_header_Ok & Hh).
      destruct (negb _) eqn:Hne; [done|]. injection Hh as <- <-. bool_to_prop.
      split; [lia|]. by exists h.
    - by injection Hchk as <- <-. }
  apply mbind_Ok in Hset as (u6 & w6 & Hy%yield_clock & Hset).
  assert (wClock w5 = wClock w6) as C5.
  { destruct (Set_ _ _ _); [|done..]. by injection Hset as <- _. }
  pose proof (q_clock _ _ Q1) as C1.
  unfold ult in Hlt. bool_to_prop.
  destruct (window_end from target (cBatchSize cfg) Hbatch Hlt) as [Hr Hbt].
  split; [|done]. split; cbn [swBefore swFrom swEnd swTarget]; try done.
  - exists (wClock w3), tip, (uval tipn). split_and!; [lia | lia | done | done | done].
  - destruct (sHeight (lg_state l)) as [n|]; [|done].
    destruct Hck as (h & (t & Ht & Hs) & Hh). exists h. split; [|done].
    exists t. split; [lia | done].
Qed.
(** Changing the address or the end hash keeps the window. *)
Lemma window_ok_with cfg t1 t2 l win h a :
  window_ok cfg t1 t2 l win →
  window_ok cfg t1 t2 l (mkWindow (swBefore win) (swFrom win) (swEnd win) (swTarget win) h a).
Proof. intros []. by split. Qed.

Lemma initializeCTC_Ok cfg win w w' win' :
  initializeCTC cfg win w = (w', Ok (true, win')) →
  win' = mkWindow (swBefore win) (swFrom win) (swEnd win) (swTarget win) (swEndHash win)
           (swCTC win') ∧
  (is_Some (sHeight (swBefore win)) → swCTC win' = swCTC win).
Proof.
  unfold initializeCTC. destruct (sHeight (swBefore win)) as [n|] eqn:Eh.
  { intros (u & w1 & _ & E)%mbind_Ok. injection E as _ <-. split; [by destruct win | done]. }
  destruct (bool_decide _).
  { intros [= _ <-]. split; [by destruct win | done]. }
  intros (u1 & w1 & _ & E)%mbind_Ok. apply mbind_Ok in E as (b & w2 & _ & E).
  apply mbind_Ok in E as (u3 & w3 & _ & E). apply mbind_Ok in E as (u4 & w4 & _ & E).
  apply mbind_Ok in E as (b' & w5 & _ & E). destruct b' as [b'|]; [|done].
  apply mbind_Ok in E as ([a|] & w6 & _ & E); [|done]. injection E as _ <-.
  split; [done | by intros []].
Qed.

(** ** The logs *)

(** The logs of [win] the node reported in the time [(t1, t2]]: its address
    changes and the deposits of every address the chain can have in it. *)
Definition window_logs (cfg : Config) (t1 t2 : nat) (win : scanWindow) (logs : list Log) : Prop :=
  ∃ t changes, (t1 < t <= t2)%nat ∧
    rpc_FilterLogs (D := D) t (mkQuery (swFrom win) (swEnd win) [cAddressManager cfg]
      [[EventID AddressSet]; [nameHash]]) = inl changes ∧
    ∃ addresses : gset Address,
      (∀ a, a ∈ addresses ↔ a ≠ zero_address ∧ (a = swCTC win ∨ ∃ l old, l ∈ changes ∧
         unpack AddressSet (lData l) = Ok [AbiAddress a; AbiAddress old])) ∧
      ((addresses = ∅ ∧ logs = changes) ∨
       ∃ t' enqueues, (t < t' <= t2)%nat ∧
         rpc_FilterLogs (D := D) t' (mkQuery (swFrom win) (swEnd win) (elements addresses)
           [[EventID TransactionEnqueued]]) = inl enqueues ∧
         logs = changes ++ enqueues).

Lemma check_change_Ok cfg from end_ s l s' :
  check_change cfg from end_ s l = Ok s' →
  ∀ a, a ∈ s' ↔ a ∈ s ∨ (a ≠ zero_address ∧ ∃ old,
    unpack AddressSet (lData l) = Ok [AbiAddress a; AbiAddress old]).
Proof.
  unfold check_change. intros (u & _ & E)%bind_Ok_inv.
  destruct (negb _); [done|]. apply bind_Ok_inv in E as (v & Hv & E).
  destruct (unpack_AddressSet _ _ Hv) as (new & old & ->).
  change (at_ [AbiAddress new; AbiAddress old] 0) with (Ok (AbiAddress new)) in E.
  cbn [bind as_address] in E. rewrite Hv. intros a. case_bool_decide as Hz; injection E as <-.
  - subst new. split; [by left|]. intros [?|(Hne & old' & [= <- _])]; done.
  - rewrite elem_of_union, elem_of_singleton. split.
    + intros [->|?]; [right; split; [done | by exists old] | by left].
    + intros [?|(_ & old' & [= <- _])]; auto.
Qed.

Lemma check_changes_Ok cfg from end_ changes : ∀ s s',
  foldM (check_change cfg from end_) s changes = Ok s' →
  ∀ a, a ∈ s' ↔ a ∈ s ∨ (a ≠ zero_address ∧ ∃ l old, l ∈ changes ∧
    unpack AddressSet (lData l) = Ok [AbiAddress a; AbiAddress old]).
Proof.
  induction changes as [|l ls IH]; intros s s'; cbn [foldM].
  { intros [= <-] a. split; [by left|]. by intros [?|(_ & l & _ & ?%elem_of_nil & _)]. }
  intros (s1 & H1' & H2')%bind_Ok_inv a.
  rewrite (IH _ _ H2' a), (check_change_Ok _ _ _ _ _ _ H1' a). setoid_rewrite elem_of_cons.
  naive_solver.
Qed.

Lemma loadLogs_Ok cfg win w w' logs :
  loadLogs cfg win w = (w', Ok logs) → window_logs cfg (wClock w) (wClock w') win logs.
Proof.
  intros (changes & w1 & [C1 Hch]%answer_Ok & E)%mbind_Ok.
  apply mbind_Ok in E as (addresses & w2 & Hf & E). injection Hf as <- Hf.
  pose proof (check_changes_Ok _ _ _ _ _ _ Hf) as Hin.
  assert (∀ a, a ∈ addresses ↔ a ≠ zero_address ∧ (a = swCTC win ∨ ∃ l old, l ∈ changes ∧
    unpack AddressSet (lData l) = Ok [AbiAddress a; AbiAddress old])) as Haddr.
  { intros a. rewrite Hin. case_bool_decide as Hz.
    - rewrite elem_of_empty, Hz. naive_solver.
    - rewrite elem_of_singleton. naive_solver. }
  destruct (bool_decide (elements addresses = [])) eqn:Ee; bool_to_prop.
  - injection E as <- <-. exists (wClock w1), changes. split; [lia|]. split; [done|].
    exists addresses. split; [done|]. left. split; [|done].
    apply elements_empty_iff in Ee. by apply leibniz_equiv.
  - apply mbind_Ok in E as (enq & w3 & [C3 Henq]%answer_Ok & E). injection E as <- <-.
    exists (wClock w1), changes. split; [lia|]. split; [done|].
    exists addresses. split; [done|]. right. exists (wClock w3), enq. split_and!; [lia..| done | done].
Qed.

(** ** The commit *)

(** The node confirmed the window [win] in the time [(t1, t2]]: its last
    block, and the block of the checkpoint, still have the hashes seen
    before. *)
Definition confirmed (t1 t2 : nat) (l : ledger) (win : scanWindow) : Prop :=
  (∃ h, saw_header (D := D) t1 t2 (swEnd win) h ∧ hHash h = swEndHash win) ∧
  match sHeight (lg_state l) with
  | None => True
  | Some n => ∃ h, saw_header (D := D) t1 t2 n h ∧ hHash h = sHash (lg_state l)
  end.

(** The commit: nothing happens, or the ledger takes the records; never
    after a fatal error or when the context is done. *)
Lemma commit_store_cases before after rs w w' r l :
  status_ok (wStatus w) → holds w l → commit_store before after rs w = (w', r) →
  (quiet w w' ∧ r ≠ Panic ∧ (∀ u, r ≠ Ok u)) ∨
  (r = Ok tt ∧ status_ok (wStatus w') ∧ keeps_fatal (wStatus w) (wStatus w') ∧
   (wClock w < wClock w')%nat ∧ stFatal (wStatus w') = None ∧
   ctx_Err (D := D) (wClock w') = None ∧
   ∃ l', ledger_commit l before after rs = Some l' ∧ holds w' l').
Proof.
  intros Hw Hl Hc.
  apply commit_with_cases in Hc as [Hg|(-> & Hok & Hk & Hclk & Hf & Hctx & s & Hs & Hc)];
    [by left | right | intros s; apply Commit_no_panic | done].
  split_and!; try done.
  destruct (Commit_step s _ l before after rs (Hs l Hl) Hc) as (l' & Hl' & Hrep & _). by exists l'.
Qed.

(** Re-reading the checkpoint. *)
Definition recheck (st : State) (msg : string) : M D unit :=
  match sHeight st with
  | None => ret tt
  | Some n =>
      do! h := header n in
      raise_if negb (bool_decide (hHash h = sHash st)) with fatal msg ;; ret tt
  end.

Lemma safe_recheck st msg : safe (recheck st msg).
Proof. unfold recheck. solve_safe. Qed.

Lemma recheck_Ok st msg w w' u :
  recheck st msg w = (w', Ok u) →
  match sHeight st with
  | None => w' = w
  | Some n => ∃ h, saw_header (D := D) (wClock w) (wClock w') n h ∧ hHash h = sHash st
  end.
Proof.
  unfold recheck. destruct (sHeight st) as [n|]; [|by intros [= <- _]].
  intros (h & w1 & [Hs Hc]%checked_header_Ok & E)%mbind_Ok. destruct (negb _) eqn:Hn; [done|].
  injection E as <- _. bool_to_prop. by exists h.
Qed.

(** The checks before the commit. *)
Lemma commitWindow_cases cfg win ctc rs w w' r l :
  status_ok (wStatus w) → holds w l → swBefore win = lg_state l →
  commitWindow cfg win ctc rs w = (w', r) →
  gave_up w w' r ∨
  (r = Ok tt ∧ status_ok (wStatus w') ∧ keeps_fatal (wStatus w) (wStatus w') ∧
   (wClock w < wClock w')%nat ∧ stFatal (wStatus w') = None ∧
   ctx_Err (D := D) (wClock w') = None ∧
   confirmed (wClock w) (wClock w') l win ∧
   (swEnd win = swTarget win → ctc ≠ zero_address) ∧
   ∃ l', ledger_commit l (lg_state l) (mkState (Some (swEnd win)) (swEndHash win) ctc None) rs
           = Some l' ∧ holds w' l').
Proof.
  intros Hw Hl Hbefore Hc. unfold commitWindow in Hc. rewrite Hbefore in Hc.
  apply mbind_cases in Hc as [Hg|(u & w1 & _ & Q1 & Hc)]; [by left | | | done].
  2:{ solve_safe. }
  apply raise_if_cases in Hc as [Hg|[Hz Hc]]; [left; by eapply gave_up_trans | | apply Q1].
  apply mbind_cases in Hc as [Hg|(h & w2 & Hh & Q2 & Hc)];
    [left; by eapply gave_up_trans | | apply safe_header | apply Q1].
  pose proof (quiet_trans _ _ _ Q1 Q2) as Q12.
  apply raise_if_cases in Hc as [Hg|[Hhash Hc]]; [left; by eapply gave_up_trans | | apply Q2].
  apply (mbind_cases (recheck (lg_state l) _)) in Hc as [Hg|(u3 & w3 & H3' & Q3 & Hc)];
    [left; by eapply gave_up_trans | | apply safe_recheck | apply Q2].
  pose proof (quiet_trans _ _ _ Q12 Q3) as Q13.
  destruct (commit_store_cases _ _ _ _ _ _ l (q_ok _ _ Q3) (q_store _ _ Q13 l Hl) Hc)
    as [Hg|(-> & Hok & Hk & Hclk & Hf & Hctx & Hcommit)]; [left; by eapply gave_up_trans|].
  right. apply checked_header_Ok in Hh as [Hsaw Hc2]. bool_to_prop.
  pose proof (q_clock _ _ Q1). pose proof (q_clock _ _ Q3). apply recheck_Ok in H3'.
  split_and!; try done.
  - intros e He. apply Hk, (q_fatal _ _ Q13 e He).
  - lia.
  - split.
    + exists h. split; [|done]. eapply saw_header_mono; [| |exact Hsaw]; lia.
    + destruct (sHeight (lg_state l)) as [n|]; [|done]. destruct H3' as (h3 & Hs3 & Hh3).
      exists h3. split; [|done]. eapply saw_header_mono; [| |exact Hs3]; lia.
  - intros Heq. rewrite !bool_decide_eq_false in Hz. tauto.
Qed.

(** ** A step *)

(** The window [win] that a step scanned in the time [(t1, t2]] for the
    ledger [l], with the outcome of its logs: the chain's last address and
    the deposits. *)
Definition scanned (cfg : Config) (t1 t2 : nat) (l : ledger) (win : scanWindow)
    (ctc : Address) (rs : list DepositRecord) : Prop :=
  window_ok cfg t1 t2 l win ∧
  (is_Some (sHeight (lg_state l)) → swCTC win = sCTC (lg_state l)) ∧
  (* anchored, read, interpreted and confirmed, in this order *)
  (∃ ta tb logs h, (t1 <= ta <= tb)%nat ∧ (tb <= t2)%nat ∧
    saw_header (D := D) t1 ta (swEnd win) h ∧ hHash h = swEndHash win ∧
    window_logs cfg ta tb win logs ∧
    window_meaning cfg logs (swCTC win) (swFrom win) (swEnd win) ctc rs ∧
    confirmed tb t2 l win) ∧
  (swEnd win = swTarget win → ctc ≠ zero_address).

(** What a step did: nothing to the deposits, or one commit. *)
Definition step_outcome (cfg : Config) (l : ledger) (w w' : world) (r : result bool) : Prop :=
  holds w' l ∨
  ∃ win ctc rs l', scanned cfg (wClock w) (wClock w') l win ctc rs ∧
    ledger_commit l (lg_state l) (mkState (Some (swEnd win)) (swEndHash win) ctc None) rs = Some l' ∧
    holds w' l' ∧ r = Ok (bool_decide (swEnd win = swTarget win)).

Lemma confirmed_mono t1 t2 t2' l win :
  (t2 <= t2')%nat → confirmed t1 t2 l win → confirmed t1 t2' l win.
Proof.
  intros Ht [(h & Hs & Hh) Hck]. split.
  - exists h. split; [|done]. by eapply saw_header_mono; [| |exact Hs].
  - destruct (sHeight (lg_state l)); [|done]. destruct Hck as (h' & Hs' & Hh').
    exists h'. split; [|done]. by eapply saw_header_mono; [| |exact Hs'].
Qed.

Lemma window_logs_mono cfg t1 t2 t1' t2' win logs :
  (t1' <= t1)%nat → (t2 <= t2')%nat → window_logs cfg t1 t2 win logs →
  window_logs cfg t1' t2' win logs.
Proof.
  intros H1' H2' (t & ch & Ht & Hch & ad & Had & Hl). exists t, ch. split; [lia|].
  split; [done|]. exists ad. split; [done|]. destruct Hl as [?|(t' & enq & Ht' & ?)]; [by left|].
  right. exists t', enq. split; [lia | done].
Qed.

Lemma window_ok_mono cfg t1 t2 t1' t2' l win :
  (t1' <= t1)%nat → (t2 <= t2')%nat → window_ok cfg t1 t2 l win → window_ok cfg t1' t2' l win.
Proof.
  intros H1' H2' []. split; try done.
  - destruct wk_tip0 as (t & tip & n & Ht & ?). exists t, tip, n. split; [lia | done].
  - destruct (sHeight (lg_state l)); [|done]. destruct wk_checkpoint0 as (h & Hs & ?).
    exists h. split; [|done]. by eapply saw_header_mono; [| |exact Hs].
Qed.

Lemma scanned_mono cfg t1 t1' t2 l win ctc rs :
  (t1' <= t1)%nat → scanned cfg t1 t2 l win ctc rs → scanned cfg t1' t2 l win ctc rs.
Proof.
  intros Ht (Hwin & Hc & (ta & tb & logs & h & Hab & Hb & Hsaw & Hrest) & Hz).
  split_and!; [| done | |done].
  - by eapply window_ok_mono; [| |exact Hwin].
  - exists ta, tb, logs, h. split; [lia|]. split; [lia|]. split; [|done].
    by eapply saw_header_mono; [| |exact Hsaw].
Qed.

(** What holds of every step, whatever it did to the ledger [l]. *)
Definition sound (cfg : Config) (l : ledger) (w w' : world) (r : result bool) : Prop :=
  r ≠ Panic ∧ status_ok (wStatus w') ∧ keeps_fatal (wStatus w) (wStatus w') ∧
  (wClock w <= wClock w')%nat ∧ step_outcome cfg l w w' r.

Lemma quiet_sound cfg l w w' (r : result bool) :
  holds w l → quiet w w' → r ≠ Panic → sound cfg l w w' r.
Proof.
  intros Hl Hq Hp. split_and!; [done | apply Hq.. | left]. by apply (q_store _ _ Hq).
Qed.

Lemma gave_up_sound cfg l w w1 w' (r : result bool) :
  holds w l → quiet w w1 → gave_up w1 w' r → sound cfg l w w' r.
Proof. intros Hl Hq (Hq' & Hp & _). apply quiet_sound; [done | by eapply quiet_trans | done]. Qed.

(** The end of a step: the commit and the new readiness. *)
Definition finish (cfg : Config) (win : scanWindow) (ctc : Address) (rs : list DepositRecord) :
    M D bool :=
  do! _ := commitWindow cfg win ctc rs in
  let caught := bool_decide (swEnd win = swTarget win) in
  do! _ := status_Set caught None in
  ret caught.

Lemma finish_cases cfg win ctc rs w w' r l :
  status_ok (wStatus w) → holds w l → swBefore win = lg_state l →
  finish cfg win ctc rs w = (w', r) →
  gave_up w w' r ∨
  (r = Ok (bool_decide (swEnd win = swTarget win)) ∧ status_ok (wStatus w') ∧
   keeps_fatal (wStatus w) (wStatus w') ∧ (wClock w <= wClock w')%nat ∧
   confirmed (wClock w) (wClock w') l win ∧ (swEnd win = swTarget win → ctc ≠ zero_address) ∧
   ∃ l', ledger_commit l (lg_state l) (mkState (Some (swEnd win)) (swEndHash win) ctc None) rs
           = Some l' ∧ holds w' l').
Proof.
  intros Hw Hl Hb Hs. unfold finish in Hs. unfold mbind at 1 in Hs.
  destruct (commitWindow cfg win ctc rs w) as [w1 r1] eqn:Ec.
  destruct (commitWindow_cases _ _ _ _ _ _ _ l Hw Hl Hb Ec)
    as [(Hq & Hp & Hn)|(-> & Hok & Hk & Hc & _ & _ & Hconf & Hz & l' & Hl' & Hh)].
  { left. destruct r1 as [u|e|]; [by destruct (Hn u) | | done]. injection Hs as <- <-.
    by split_and!. }
  destruct (status_Set_Ok (K := deposits_kept) (bool_decide (swEnd win = swTarget win)) None w1 Hok)
    as (w2 & Es & Hq).
  unfold mbind in Hs. rewrite Es in Hs. injection Hs as <- <-. right.
  pose proof (q_clock _ _ Hq). split_and!; [done | apply Hq | | lia | | done |].
  - intros e He. by apply (q_fatal _ _ Hq), Hk.
  - eapply confirmed_mono; [|exact Hconf]. lia.
  - exists l'. split; [done|]. by apply (q_store _ _ Hq).
Qed.

(** The scan of a chosen window. *)
Definition scan (cfg : Config) (win : scanWindow) : M D bool :=
  do! win := anchorWindow win in
  do! logs := loadLogs cfg win in
  do! ' (rs, ctc) := lift (decodeLogs cfg logs (swCTC win) (swFrom win) (swEnd win)) in
  finish cfg win ctc rs.

Lemma decodeLogs_meaning cfg logs ctc from end_ rs ctc' :
  decodeLogs cfg logs ctc from end_ = Ok (rs, ctc') → window_meaning cfg logs ctc from end_ ctc' rs.
Proof.
  intros E. exists (sort_Slice log_less logs). split; [apply sort_chain|].
  destruct (decodeLogs_cases cfg logs ctc from end_) as [(rs' & c' & E' & Hm)|[(e & E' & _) _]];
    rewrite E in E'; [by injection E' as <- <- | done].
Qed.

Lemma scan_sound cfg t0 win w w' r l :
  (t0 <= wClock w)%nat → status_ok (wStatus w) → holds w l →
  window_ok cfg t0 (wClock w) l win →
  (is_Some (sHeight (lg_state l)) → swCTC win = sCTC (lg_state l)) →
  scan cfg win w = (w', r) →
  gave_up w w' r ∨
  (r ≠ Panic ∧ status_ok (wStatus w') ∧ keeps_fatal (wStatus w) (wStatus w') ∧
   (wClock w <= wClock w')%nat ∧
   ∃ win' ctc rs l', scanned cfg t0 (wClock w') l win' ctc rs ∧
     ledger_commit l (lg_state l) (mkState (Some (swEnd win')) (swEndHash win') ctc None) rs = Some l' ∧
     holds w' l' ∧ r = Ok (bool_decide (swEnd win' = swTarget win'))).
Proof.
  intros Ht Hw Hl Hwok Hctc Hs. unfold scan in Hs.
  apply mbind_cases in Hs as [Hg|(win1 & w1 & Hanc & Q1 & Hs)]; [by left| |eauto with safe|done].
  apply mbind_Ok in Hanc as (h & wh & [Hsaw Hch]%checked_header_Ok & E). injection E as <- <-.
  apply mbind_cases in Hs as [Hg|(logs & w2 & Hlogs%loadLogs_Ok & Q2 & Hs)];
    [left; by eapply gave_up_trans | |eauto with safe|apply Q1].
  pose proof (quiet_trans _ _ _ Q1 Q2) as Q12.
  apply mbind_cases in Hs as [Hg|([rs ctc] & w3 & Hdec & Q3 & Hs)];
    [left; by eapply gave_up_trans | |apply safe_lift, decodeLogs_no_panic|apply Q2].
  injection Hdec as <- Hdec%decodeLogs_meaning.
  set (win1 := mkWindow _ _ _ _ (hHash h) _) in *.
  apply (finish_cases _ _ _ _ _ _ _ l) in Hs
    as [Hg|(-> & Hok & Hk & Hc & Hconf & Hz & l' & Hl' & Hh)];
    [left; by eapply gave_up_trans | | apply Q2 | by apply (q_store _ _ Q12) | apply Hwok].
  pose proof (q_clock _ _ Q1). pose proof (q_clock _ _ Q2). right.
  split_and!; [done | done | | lia |].
  { intros e He. apply Hk, (q_fatal _ _ Q12 e He). }
  exists win1, ctc, rs, l'. split_and!; [|done..].
  split_and!; [| done | |done].
  - apply window_ok_with. eapply window_ok_mono; [| |exact Hwok]; lia.
  - exists (wClock wh), (wClock w2), logs, h. split; [lia|]. split; [lia|]. split; [|done].
    eapply saw_header_mono; [| |exact Hsaw]; lia.
Qed.

Lemma Step_cases cfg w w' r l :
  0 < uval (cBatchSize cfg) → status_ok (wStatus w) → holds w l → Step cfg w = (w', r) →
  r ≠ Panic ∧ status_ok (wStatus w') ∧ keeps_fatal (wStatus w) (wStatus w') ∧
  (wClock w <= wClock w')%nat ∧ (stFatal (wStatus w) ≠ None → quiet w w' ∧ ∃ e, r = Err e) ∧
  step_outcome cfg l w w' r.
Proof.
  intros Hbatch Hw Hl Hs. unfold Step in Hs.
  apply mbind_cases in Hs as [Hg|([rd f] & w1 & Hsnap & Q1 & Hs)]; [ | | eauto with safe | done].
  { destruct Hg as (Hq & Hp & Hn).
    split_and!; [done | apply Hq.. | |left; by apply (q_store _ _ Hq)].
    intros _. split; [done|]. destruct r as [b|e|]; [by destruct (Hn b) | by exists e | done]. }
  assert (f = stFatal (wStatus w1)) as ->.
  { apply mbind_Ok in Hsnap as (u & w0 & _ & E). injection E as -> _ <-. done. }
  destruct (stFatal (wStatus w1)) as [f|] eqn:Ef.
  { injection Hs as <- <-. split_and!; [done | apply Q1 | apply Q1 | apply Q1 | eauto |].
    left. by apply (q_store _ _ Q1). }
  assert (stFatal (wStatus w) = None) as Hnf.
  { destruct (stFatal (wStatus w)) as [e|] eqn:E; [|done].
    pose proof (q_fatal _ _ Q1 e E). congruence. }
  cut (sound cfg l w w' r); [intros (?&?&?&?&?); by split_and!|].
  assert (∀ w1 b, quiet w w1 → ret b w1 = (w', r) → sound cfg l w w' r) as Hret.
  { intros w2 b Hq [= <- <-]. by apply quiet_sound. }
  pose proof (q_store _ _ Q1 l Hl) as Hl1.
  apply mbind_cases in Hs as [Hg|([win done] & w2 & Hwin & Q2 & Hs)];
    [by eapply gave_up_sound | | eauto with safe | apply Q1].
  pose proof (quiet_trans _ _ _ Q1 Q2) as Q12. pose proof (q_store _ _ Q12 l Hl) as Hl2.
  destruct done; [by eapply Hret|].
  destruct (prepareWindow_Ok cfg w1 w2 win l Hbatch (q_ok _ _ Q1) Hl1 Hwin) as [Hwok Hctc].
  apply mbind_cases in Hs as [Hg|([rdy win'] & w3 & Hini & Q3 & Hs)];
    [by apply (gave_up_sound _ _ _ w2) | | eauto with safe | apply Q2].
  pose proof (quiet_trans _ _ _ Q12 Q3) as Q13.
  destruct rdy; cbn [negb] in Hs; [|by eapply Hret].
  apply initializeCTC_Ok in Hini as [Hw' Hctc'].
  pose proof (q_clock _ _ Q1). pose proof (q_clock _ _ Q2). pose proof (q_clock _ _ Q3).
  destruct (scan_sound cfg (wClock w1) win' w3 w' r l) as [Hg|(Hp & Hok & Hk & Hc & win3 & ctc & rs & l' & Hsc & Hrest)].
  - lia.
  - apply Q3.
  - by apply (q_store _ _ Q13).
  - rewrite Hw'. apply window_ok_with. eapply window_ok_mono; [| |exact Hwok]; lia.
  - intros Hh. rewrite Hctc', Hctc; [done|]. by rewrite (wk_before _ _ _ _ _ Hwok).
  - exact Hs.
  - by apply (gave_up_sound _ _ _ w3).
  - split_and!; [done | done | | lia |].
    { intros e He. by apply Hk, (q_fatal _ _ Q13). }
    right. exists win3, ctc, rs, l'. split; [|done]. by eapply scanned_mono.
Qed.

(** ** The loop *)

(** The checkpoint's height, before any block when there is none. *)
Definition height (l : ledger) : Z :=
  match sHeight (lg_state l) with None => -1 | Some n => uval n end.

(** What any number of steps may do to the ledger. *)
Definition extends (l l' : ledger) : Prop :=
  lg_records l `prefix_of` lg_records l' ∧ height l <= height l' ∧
  (l' = l ∨ height l < height l').

Lemma extends_refl l : extends l l.
Proof. split_and!; [done | lia | by left]. Qed.

Lemma extends_trans l1 l2 l3 : extends l1 l2 → extends l2 l3 → extends l1 l3.
Proof.
  intros (P1 & H1' & E1) (P2 & H2' & E2).
  split_and!; [by etrans | lia |]. destruct E1 as [->|], E2 as [->|]; auto; right; lia.
Qed.

Lemma outcome_extends cfg l w w' r :
  step_outcome cfg l w w' r → ∃ l', holds w' l' ∧ extends l l'.
Proof.
  intros [Hl|(win & ctc & rs & l' & (Hwok & _) & Hc & Hl' & _)].
  { exists l. split; [done | apply extends_refl]. }
  exists l'. split; [done|]. unfold ledger_commit in Hc.
  rewrite decide_True in Hc by done.
  destruct (ledger_append (lg_records l) rs) as [rs'|] eqn:Ea; [|done].
  injection Hc as <-. apply ledger_append_sound in Ea as [Hpre _].
  assert (height l < uval (swEnd win)) as Hlt.
  { pose proof (wk_from _ _ _ _ _ Hwok) as Hf. pose proof (wk_range _ _ _ _ _ Hwok) as Hr.
    unfold height. destruct (sHeight (lg_state l)) as [n|]; [lia|].
    pose proof (uint_range (swEnd win)). lia. }
  unfold extends, height in *. cbn [lg_state lg_records sHeight set_latest]. 
  split_and!; [done | lia | by right].
Qed.

(** Quiet rounds and committed rounds, seen together. *)
Definition evolves (w w' : world) (l l' : ledger) : Prop :=
  status_ok (wStatus w') ∧ keeps_fatal (wStatus w) (wStatus w') ∧ holds w' l' ∧ extends l l' ∧
  (stFatal (wStatus w) ≠ None → l' = l).

Lemma quiet_evolves w w' l : quiet w w' → holds w l → evolves w w' l l.
Proof.
  intros Hq Hl. split_and!; [apply Hq | apply Hq | by apply (q_store _ _ Hq) | apply extends_refl | done].
Qed.

Lemma evolves_quiet w w1 w' l l1 : evolves w w1 l l1 → quiet w1 w' → evolves w w' l l1.
Proof.
  intros (H1' & H2' & H3' & H4' & H5') Hq. split_and!; [apply Hq | | by apply (q_store _ _ Hq) | done | done].
  intros e He. by apply (q_fatal _ _ Hq), H2'.
Qed.

Lemma evolves_trans w1 w2 w3 l1 l2 l3 :
  evolves w1 w2 l1 l2 → evolves w2 w3 l2 l3 → evolves w1 w3 l1 l3.
Proof.
  intros (A1 & A2 & A3 & A4 & A5) (B1 & B2 & B3 & B4 & B5).
  split_and!; [done | | done | by eapply extends_trans |].
  - intros e He. by apply B2, A2.
  - intros Hne. rewrite B5, A5; [done | done |].
    destruct (stFatal (wStatus w1)) as [e|] eqn:E; [|done]. by rewrite (A2 e E).
Qed.

Lemma Step_evolves cfg w w' r l :
  0 < uval (cBatchSize cfg) → status_ok (wStatus w) → holds w l → Step cfg w = (w', r) →
  r ≠ Panic ∧ ∃ l', evolves w w' l l'.
Proof.
  intros Hb Hw Hl Hs.
  destruct (Step_cases cfg w w' r l Hb Hw Hl Hs) as (Hp & Hok & Hk & Hc & Hf & Ho).
  split; [done|]. destruct (stFatal (wStatus w)) as [e|] eqn:E.
  - destruct Hf as [Hq _]; [done|]. exists l. by apply quiet_evolves.
  - destruct (outcome_extends _ _ _ _ _ Ho) as (l' & Hl' & He). exists l'.
    split_and!; done.
Qed.

Lemma run_round_evolves cfg w w' r l :
  0 < uval (cBatchSize cfg) → status_ok (wStatus w) → holds w l → run_round cfg w = (w', r) →
  r ≠ Panic ∧ ∃ l', evolves w w' l l'.
Proof.
  intros Hb Hw Hl Hr. unfold run_round in Hr. destruct (Step cfg w) as [w1 r1] eqn:Es.
  destruct (Step_evolves cfg w w1 r1 l Hb Hw Hl Es) as [Hp (l1 & He)].
  assert (∀ (m : M D next), safe m → m w1 = (w', r) → r ≠ Panic ∧ ∃ l', evolves w w' l l') as Htail.
  { intros m Hm E. specialize (Hm w1 (proj1 He)). rewrite E in Hm. destruct Hm as [Hq Hn].
    split; [done|]. exists l1. by eapply evolves_quiet. }
  destruct r1 as [caught|e|]; [| |done]; (eapply Htail; [|exact Hr]); solve_safe.
Qed.

Lemma Run_evolves cfg fuel : ∀ w w' r l,
  0 < uval (cBatchSize cfg) → status_ok (wStatus w) → holds w l → Run fuel cfg w = (w', r) →
  r ≠ Panic ∧ ∃ l', evolves w w' l l'.
Proof.
  induction fuel as [|fuel IH]; intros w w' r l Hb Hw Hl Hr; cbn [Run] in Hr.
  { injection Hr as <- <-. split; [done|]. exists l. apply quiet_evolves; [by apply quiet_refl | done]. }
  destruct (ctx_Err (wClock w)).
  { injection Hr as <- <-. split; [done|]. exists l. apply quiet_evolves; [by apply quiet_refl | done]. }
  unfold mbind at 1 in Hr. destruct (run_round cfg w) as [w1 r1] eqn:Er.
  destruct (run_round_evolves cfg w w1 r1 l Hb Hw Hl Er) as [Hp (l1 & He)].
  destruct r1 as [n|e|]; [|by injection Hr as <- <-; split; [|by exists l1]|done].
  assert (∀ w2 l2, evolves w w2 l l2 → Run fuel cfg w2 = (w', r) →
    r ≠ Panic ∧ ∃ l', evolves w w' l l') as Hrec.
  { intros w2 l2 He2 Hr2. destruct (IH w2 w' r l2 Hb) as [Hp' (l3 & He3)]; [apply He2 | apply He2 | done |].
    split; [done|]. exists l3. by eapply evolves_trans. }
  destruct n; [by injection Hr as <- <-; split; [|by exists l1] | by eapply Hrec |].
  unfold mbind in Hr. pose proof (safe_Done w1 (proj1 He)) as Hd.
  destruct (status_Done w1) as [w2 [c|e|]]; destruct Hd as [Hq Hn]; [| |done].
  - pose proof (evolves_quiet _ _ w2 _ _ He Hq) as He2.
    destruct c; [by eapply Hrec | by injection Hr as <- <-; split; [|by exists l1]].
  - injection Hr as <- <-. split; [done|]. exists l1. by eapply evolves_quiet.
Qed.

(** ** Halting *)

Definition integrity (e : error) : bool := errors_Is e ErrFatal || errors_Is e ErrIntegrity.

Lemma run_round_fails cfg w w1 e :
  status_ok (wStatus w1) → Step cfg w = (w1, Err e) →
  ∃ w2 n, run_round cfg w = (w2, Ok n) ∧ quiet w1 w2 ∧
    (n = Stop ∧ stFatal (wStatus w2) ≠ None ∨
     n = Wait ∧ integrity e = false ∧ stFatal (wStatus w1) = None).
Proof.
  intros Hw Hs. unfold run_round. rewrite Hs.
  destruct (Snapshot_total (K := deposits_kept) w1 Hw) as (w2 & b & Hsn & Q2). unfold mbind at 1. rewrite Hsn.
  destruct (stFatal (wStatus w2)) as [f|] eqn:Ef.
  { exists w2, Stop. split; [done|]. split; [done|]. left. by rewrite Ef. }
  destruct (status_Set_total (K := deposits_kept) false None w2 (q_ok _ _ Q2)) as (w3 & E3 & Q3 & _).
  unfold mbind at 1. rewrite E3. fold (integrity e). destruct (integrity e).
  - destruct (status_Set_total (K := deposits_kept) false (Some e) w3 (q_ok _ _ Q3)) as (w4 & E4 & Q4 & Hf).
    unfold mbind. rewrite E4. exists w4, Stop. split; [done|].
    split; [eapply quiet_trans; [exact Q2 | by eapply quiet_trans]|].
    left. split; [done|]. by apply (Hf e).
  - exists w3, Wait. split; [done|]. split; [by eapply quiet_trans|]. right. split_and!; [done..|].
    destruct (stFatal (wStatus w1)) as [f|] eqn:E1; [|done].
    pose proof (q_fatal _ _ Q2 f E1). congruence.
Qed.

(** A round that nobody else ends, after an error that may be retried. *)
Lemma run_round_waits cfg w w1 e :
  status_ok (wStatus w1) → Step cfg w = (w1, Err e) →
  integrity e = false → stFatal (next_status w1) = None →
  ∃ w', run_round cfg w = (w', Ok Wait) ∧ quiet w1 w' ∧ stReady (wStatus w') = false ∧
    stFatal (wStatus w') = stFatal (next_status (elapse w1)).
Proof.
  intros Hw Hs Hi Hf. destruct (yield_elapse (K := deposits_kept) w1 Hw) as [_ Q1].
  destruct (status_Set_elapse (K := deposits_kept) false None (elapse w1) (q_ok _ _ Q1)) as (w' & E & Q2 & Hf' & Hr').
  exists w'. split; [|split; [by eapply quiet_trans|split; [done|]]].
  - unfold run_round. rewrite Hs. unfold mbind. rewrite (Snapshot_elapse (K := deposits_kept) w1 Hw).
    unfold Snapshot. rewrite Hf, E. fold (integrity e). by rewrite Hi.
  - rewrite Hf'. by destruct (stFatal (next_status (elapse w1))).
Qed.

(** ** Bootstrap *)

(** The first block of the page that ends at [next]. *)
Definition page_from (cfg : Config) (next : u64) : Z :=
  Z.max 0 (uval next - uval (cBatchSize cfg) + 1).

Lemma page_from_eq cfg next :
  0 < uval (cBatchSize cfg) →
  uval (if ule (cBatchSize cfg) next then uadd (usub next (cBatchSize cfg)) (#64 1) else #64 0)
  = page_from cfg next.
Proof.
  intros Hb. pose proof (uint_range next). pose proof (uint_range (cBatchSize cfg)).
  unfold ule, page_from. destruct (Z.leb_spec (uval (cBatchSize cfg)) (uval next)).
  - assert (uval (usub next (cBatchSize cfg)) = uval next - uval (cBatchSize cfg)) as E
      by (apply usub_le; done).
    rewrite uadd_fit, E; change (uval (#64 1)) with 1; lia.
  - change (uval (#64 0)) with 0. lia.
Qed.

(** An AddressSet of the AddressManager for the chain's name. *)
Definition address_page_log (cfg : Config) (l : Log) : Prop :=
  lAddress l = cAddressManager cfg ∧ lTopics l = [EventID AddressSet; nameHash].

Lemma page_logs_valid cfg from end_ logs :
  foldM (check_page_log cfg from end_) tt logs = Ok tt →
  Forall (λ l, valid_log from end_ l ∧ address_page_log cfg l) logs.
Proof.
  intros Hf. apply (foldM_inv (check_page_log cfg from end_)
    (λ past _, Forall (λ l, valid_log from end_ l ∧ address_page_log cfg l) past) tt logs tt);
    [constructor | | done].
  intros past l [] [] Hp _ Hl. apply Forall_app. split; [done|]. apply Forall_singleton.
  unfold check_page_log in Hl. apply bind_Ok_inv in Hl as (u & Hv & Hl).
  destruct (validateLog_cases l from end_) as [[_ ?]|[(e & E & _) _]]; [|congruence].
  destruct (address_log cfg l) eqn:Ea; [|done]. unfold address_log in Ea. bool_to_prop. by split_and!.
Qed.

(** The outcome of one page of the search for the chain's address. *)
Definition page_outcome (cfg : Config) (b : bootstrapState) (w w' : world)
    (o : option Address) : Prop :=
  ∃ from t logs, uval from = page_from cfg (bsNext b) ∧ (wClock w < t <= wClock w')%nat ∧
    rpc_FilterLogs (D := D) t (mkQuery from (bsNext b) [cAddressManager cfg]
      [[EventID AddressSet]; [nameHash]]) = inl logs ∧
    Forall (λ l, valid_log from (bsNext b) l ∧ address_page_log cfg l) logs ∧
    match o with
    | None =>
        (* an empty page: the page before it is next *)
        logs = [] ∧ 0 < uval from ∧ ∃ next', uval next' = uval from - 1 ∧
        wPriv w' = Some (mkBootstrap (bsAnchor b) next' false (bsCTC b))
    | Some ctc =>
        wPriv w' = Some (mkBootstrap (bsAnchor b) (bsNext b) true ctc) ∧
        (logs = [] ∧ uval from = 0 ∧ ctc = zero_address ∨
         logs ≠ [] ∧ ∃ initial rs, (uval from = 0 → initial = zero_address) ∧
           window_meaning cfg logs initial from (bsNext b) ctc rs)
    end.

Lemma decodeBootstrapPage_Ok cfg page ctc :
  decodeBootstrapPage cfg page = Ok ctc →
  (pgLogs page = [] ∧ ctc = zero_address) ∨
  (pgLogs page ≠ [] ∧ ∃ initial rs, (uval (pgFrom page) = 0 → initial = zero_address) ∧
    window_meaning cfg (pgLogs page) initial (pgFrom page) (pgEnd page) ctc rs).
Proof.
  unfold decodeBootstrapPage. destruct (pgLogs page) as [|l0 ls]; [intros [= <-]; by left|].
  intros Hd. right. split; [done|]. apply bind_Ok_inv in Hd as (l1 & _ & Hd).
  apply bind_Ok_inv in Hd as (v & _ & Hd). apply bind_Ok_inv in Hd as (v1 & _ & Hd).
  apply bind_Ok_inv in Hd as (old & _ & Hd). apply bind_Ok_inv in Hd as ([rs ctc'] & Hdec & Hd).
  injection Hd as ->. set (initial := if bool_decide _ then _ else _) in Hdec.
  exists initial, rs. split.
  - intros Hz. unfold initial. rewrite bool_decide_true; [done|]. by apply uint_eq.
  - apply decodeLogs_meaning in Hdec as (out & [Hp Hs] & Hm). exists out. split; [split; [|done]|done].
    by rewrite Hp, sort_Slice_Permutation.
Qed.

Lemma loadBootstrapPage_Ok cfg end_ w w' page :
  0 < uval (cBatchSize cfg) → loadBootstrapPage cfg end_ w = (w', Ok page) →
  pgEnd page = end_ ∧ uval (pgFrom page) = page_from cfg end_ ∧ (wClock w < wClock w')%nat ∧
  rpc_FilterLogs (D := D) (wClock w') (address_query cfg (pgFrom page) end_) = inl (pgLogs page) ∧
  Forall (λ l, valid_log (pgFrom page) end_ l ∧ address_page_log cfg l) (pgLogs page).
Proof.
  intros Hb. unfold loadBootstrapPage. destruct (bool_decide (cBatchSize cfg = #64 0)); [done|].
  intros (logs & w1 & [C1 Hlogs]%answer_Ok & E)%mbind_Ok.
  apply mbind_Ok in E as ([] & w2 & Hf & E). injection E as <- <-. injection Hf as <- Hf.
  cbn [pgFrom pgEnd pgLogs]. split_and!; [done | by apply page_from_eq | done | done |].
  by apply page_logs_valid.
Qed.

Lemma keeps_priv_load cfg end_ : keeps_priv (loadBootstrapPage cfg end_).
Proof.
  unfold loadBootstrapPage. destruct (bool_decide _); [done|].
  apply keeps_priv_bind; [|intros logs; apply keeps_priv_bind; done].
  apply keeps_priv_bind; [apply keeps_priv_yield|]. intros _ w. by destruct (rpc_FilterLogs _ _).
Qed.

Lemma bootstrap_step_Ok cfg b w w' o :
  0 < uval (cBatchSize cfg) → status_ok (wStatus w) → bsReady b = false →
  bootstrap_step cfg b w = (w', Ok o) → page_outcome cfg b w w' o.
Proof.
  intros Hb Hw Hr. unfold bootstrap_step. rewrite Hr. intros Hs.
  apply mbind_Ok in Hs as (page & w1 & Hload & Hs).
  pose proof (safe_Ok _ _ _ _ (safe_loadBootstrapPage cfg (bsNext b)) Hw Hload) as Q1.
  apply loadBootstrapPage_Ok in Hload as (Hend & Hfrom & C1 & Hlogs & Hvalid); [|done].
  apply mbind_Ok in Hs as (ctc & w2 & Hdec & Hs). injection Hdec as <- Hdec.
  apply mbind_Ok in Hs as (u & w3 & Hchk & Hs).
  pose proof (q_clock _ _ (safe_Ok _ _ _ _ (safe_checkBootstrap cfg) (q_ok _ _ Q1) Hchk)) as C3.
  assert (wClock w' = wClock w3) as Cw.
  { destruct (_ && _); by apply mbind_Ok in Hs as (? & ? & [= <- _] & [= <- _]). }
  exists (pgFrom page), (wClock w1), (pgLogs page).
  split; [done|]. split; [lia|]. split; [done|]. split; [done|].
  destruct (bool_decide (pgLogs page = []) && _) eqn:Hempty; bool_to_prop;
    apply mbind_Ok in Hs as (u' & w4 & [= <- _] & [= <- <-]); cbn [wPriv].
  - assert (0 < uval (pgFrom page)) as Hpos.
    { pose proof (uint_range (pgFrom page)). assert (uval (pgFrom page) ≠ 0); [|lia].
      intros Hz. match goal with H : pgFrom page ≠ _ |- _ => apply H end. by apply uint_eq. }
    split_and!; [done | done |]. exists (usub (pgFrom page) (#64 1)).
    by rewrite usub_le by (change (uval (#64 1)) with 1; lia).
  - split; [done|]. apply decodeBootstrapPage_Ok in Hdec as [[Hnil ->]|(Hne & ini & rs & Hi & Hm)].
    + left. split_and!; [done | | done]. destruct Hempty as [Hne|Hz]; [|].
      * by apply bool_decide_eq_false_1 in Hne.
      * apply negb_false_iff, bool_decide_eq_true_1 in Hz. by rewrite Hz.
    + right. split; [done|]. exists ini, rs. rewrite <-Hend. done.
Qed.

(** ** Properties *)

(** [C1] One step of deposit ingestion refines the ledger.  Whatever the node
    answers and the other goroutines do, [Step] does not panic, keeps a
    published fatal error, and either leaves the deposits as they were or
    commits exactly one window: the ledger takes the deposits of the window's
    logs and the new checkpoint in one commit.  The window starts right after
    the checkpoint (or at the configured start), spans at most a batch of
    blocks, and ends at least [Confirmations] below the tip; its last block
    was read before the logs and confirmed after them, the old checkpoint is
    still on the chain, the query covered every address the chain can have in
    the window, and at the confirmed tip the chain has an address.  An error
    never commits, and after a fatal error nothing is committed. *)
Theorem Step_refines cfg w w' r l :
  0 < uval (cBatchSize cfg) → status_ok (wStatus w) → holds w l → Step cfg w = (w', r) →
  r ≠ Panic ∧ status_ok (wStatus w') ∧ keeps_fatal (wStatus w) (wStatus w') ∧
  (wClock w <= wClock w')%nat ∧ (stFatal (wStatus w) ≠ None → quiet w w' ∧ ∃ e, r = Err e) ∧
  step_outcome cfg l w w' r.
Proof. apply Step_cases. Qed.

(** [C9] Along any run of the ingestion loop the deposits only grow: the
    ledger at the end has the one at the start as a prefix, the checkpoint
    never goes back, and it advances whenever the ledger changes.  A run that
    starts after a fatal error changes nothing, and no run panics. *)
Theorem Run_append_only cfg fuel w w' r l :
  0 < uval (cBatchSize cfg) → status_ok (wStatus w) → holds w l → Run fuel cfg w = (w', r) →
  r ≠ Panic ∧ ∃ l', holds w' l' ∧ lg_records l `prefix_of` lg_records l' ∧
    height l <= height l' ∧ (l' = l ∨ height l < height l') ∧
    (stFatal (wStatus w) ≠ None → l' = l).
Proof.
  intros Hb Hw Hl Hr.
  destruct (Run_evolves cfg fuel w w' r l Hb Hw Hl Hr) as [Hp (l' & _ & _ & Hl' & (P & Hh & E) & Hf)].
  split; [done|]. exists l'. by split_and!.
Qed.

(** [C22] Integrity errors halt the service: when a step fails with ErrFatal
    or ErrIntegrity, the round publishes a fatal error and the loop stops;
    once a fatal error is published the loop stops in the next round at the
    latest.  Any other error only makes it wait and try again: unless another
    goroutine publishes a fatal error, the round withdraws readiness,
    publishes nothing and waits, and the loop goes on with the next round. *)
Theorem Run_halts cfg w w1 w2 e fuel :
  0 < uval (cBatchSize cfg) → status_ok (wStatus w) → (∃ l, holds w l) →
  Step cfg w = (w1, Err e) →
  (integrity e = true → ∃ w', run_round cfg w = (w', Ok Stop) ∧ stFatal (wStatus w') ≠ None) ∧
  (stFatal (wStatus w) ≠ None → ∃ w', Run (S fuel) cfg w = (w', Ok (Some tt))) ∧
  (run_round cfg w = (w2, Ok Wait) → integrity e = false) ∧
  (integrity e = false → stFatal (next_status w1) = None →
   ∃ w', run_round cfg w = (w', Ok Wait) ∧ quiet w1 w' ∧ stReady (wStatus w') = false ∧
     stFatal (wStatus w') = stFatal (next_status (elapse w1)) ∧
     (ctx_Err (D := D) (wClock w) = None → stFatal (next_status w') = None →
      ∃ w3, quiet w' w3 ∧ Run (S fuel) cfg w = Run fuel cfg w3)).
Proof.
  intros Hb Hw [l Hl] Hs.
  destruct (Step_cases cfg w w1 (Err e) l Hb Hw Hl Hs) as (_ & Hok & Hk & _).
  destruct (run_round_fails cfg w w1 e Hok Hs) as (w3 & n & Hr & _ & Hn). rewrite Hr.
  split_and!.
  - intros Hi. destruct Hn as [[-> Hf]|(_ & Hni & _)]; [by exists w3 | congruence].
  - intros Hf. assert (n = Stop) as ->.
    { destruct Hn as [[-> _]|(_ & _ & Hnf)]; [done|].
      destruct (stFatal (wStatus w)) as [f|] eqn:E; [|done]. rewrite (Hk f E) in Hnf. done. }
    cbn [Run]. destruct (ctx_Err (wClock w)); [by eexists|].
    unfold mbind. rewrite Hr. by eexists.
  - intros [= _ ->]. destruct Hn as [[? _]|(_ & ? & _)]; done.
  - intros Hi Hf. destruct (run_round_waits cfg w w1 e Hok Hs Hi Hf) as (w' & E & Hq & Hready & Hfatal).
    rewrite Hr in E. injection E as -> ->. exists w'. split_and!; [done..|].
    intros Hctx Hnone. destruct (status_Done_open w' (q_ok _ _ Hq) Hnone) as (w4 & Ed & Q4).
    exists w4. split; [done|]. cbn [Run]. rewrite Hctx. unfold mbind. by rewrite Hr, Ed.
Qed.

(** [C23] The search for the chain's address before the start block goes down
    page by page and ends.  A page covers the [BatchSize] blocks up to the
    next one, without underflow; when the node reports no event in it and it
    does not reach block 0, the next page ends right below it, so the search
    takes at most next / BatchSize further pages; otherwise the address is
    known: zero when there is no event down to block 0, or what the page's
    events mean, which at block 0 start from the zero address. *)
Theorem bootstrap_descends cfg b w w' o :
  0 < uval (cBatchSize cfg) → status_ok (wStatus w) → bsReady b = false →
  bootstrap_step cfg b w = (w', Ok o) →
  page_outcome cfg b w w' o ∧
  (o = None → ∃ b', wPriv w' = Some b' ∧ bsReady b' = false ∧ bsAnchor b' = bsAnchor b ∧
    uval (bsNext b') = uval (bsNext b) - uval (cBatchSize cfg) ∧
    uval (bsNext b') / uval (cBatchSize cfg) = uval (bsNext b) / uval (cBatchSize cfg) - 1).
Proof.
  intros Hb Hw Hr Hs. pose proof (bootstrap_step_Ok cfg b w w' o Hb Hw Hr Hs) as Ho.
  split; [done|]. intros ->.
  destruct Ho as (from & t & logs & Hfrom & _ & _ & _ & _ & Hpos & next' & Hn & Hboot).
  eexists. split; [exact Hboot|]. cbn [bsReady bsAnchor bsNext]. unfold page_from in Hfrom.
  assert (uval next' = uval (bsNext b) - uval (cBatchSize cfg)) as E by lia.
  split_and!; [done | done | done |]. rewrite E.
  replace (uval (bsNext b) - uval (cBatchSize cfg))
    with (uval (bsNext b) + (-1) * uval (cBatchSize cfg)) by lia.
  rewrite Z.div_add by lia. lia.
Qed.

End facts.

(** ** A concrete node *)

Module IngestWitness.

#[local] Existing Instances HexText.text HexText.laws AbiWords.abi AbiWords.abi_laws
  merge_slice merge_slice_laws MemKV.pebble MemKV.laws MemKV.no_panic.

(** In block 1 the manager [7] names the chain [9]; block 2 has a deposit. *)
Definition change : Log :=
  mkLog (wrap 160 7) [EventID AddressSet; nameHash]
    (LogWitness.get_bytes (abi_Pack AddressSet [AbiAddress (wrap 160 9); AbiAddress zero_address]))
    (#64 1) (wrap 256 1) (#64 0) (wrap 256 5) (#64 0) false (#64 0).
Definition deposit : Log :=
  mkLog (wrap 160 9) [EventID TransactionEnqueued; wrap 256 55; wrap 256 66; wrap 256 0]
    (LogWitness.get_bytes (abi_Pack TransactionEnqueued
       [AbiUint 1088; AbiUint 21000; AbiBytes [wrap 8 1]; AbiUint 1700]))
    (#64 2) (wrap 256 2) (#64 1) (wrap 256 6) (#64 0) false (#64 0).

(** The node is at block 200; the blob syncer turns itself on meanwhile. *)
Definition node_header (n : option u64) : option Header :=
  let n := match n with Some n => uval n | None => 200 end in
  Some (mkHeader (Some n) (#64 n) (wrap 256 (1000 + n)) None).
Definition node_logs (q : FilterQuery) : list Log :=
  filter (λ l, uval (qFrom q) <= uval (lBlockNumber l) <= uval (qTo q) ∧ lAddress l ∈ qAddresses q)
    [change; deposit].

#[local] Instance env : Env MemKV.db := {|
  rpc_Header _ n := inl (node_header n);
  rpc_FilterLogs _ q := inl (node_logs q);
  ctx_Err _ := None;
  env_status t := if (t =? 3)%nat then [OpEnableBlob; OpSetBlobReady true] else [];
  env_store _ s := s;
|}.

#[local] Instance env_laws : EnvLaws MemKV.db MemKV.batch.
Proof. by split. Qed.

Definition cfg (start batch manager : Z) : Config :=
  mkConfig "rpc" (#64 1) (#64 1088) (wrap 160 manager) (#64 start) (#64 10) (#64 batch) 1 "db"
    "listen" "" zero_address zero_address zero_address (#64 0).

Definition w0 : world MemKV.db (option bootstrapState) := mkWorld DepositWitness.s0 new_Status None 0.
Definition w1 : world MemKV.db (option bootstrapState) := (Step (B := MemKV.batch) (cfg 0 50 7) w0).1.
Definition r1 : result bool := (Step (B := MemKV.batch) (cfg 0 50 7) w0).2.

Lemma w0_holds : holds (B := MemKV.batch) w0 empty_ledger.
Proof. exact DepositWitness.s0_represents. Qed.

Lemma Step_refines_witness :
  r1 = Ok false ∧
  r1 ≠ Panic ∧ status_ok (wStatus w1) ∧ keeps_fatal (wStatus w0) (wStatus w1) ∧
  (wClock w0 <= wClock w1)%nat ∧
  (stFatal (wStatus w0) ≠ None → quiet w0 w1 ∧ ∃ e, r1 = Err e) ∧
  step_outcome (B := MemKV.batch) (cfg 0 50 7) empty_ledger w0 w1 r1.
Proof.
  split; [vm_compute; reflexivity|].
  apply (Step_refines (cfg 0 50 7) w0 w1 r1 empty_ledger).
  - vm_compute. reflexivity.
  - exact new_Status_ok.
  - exact w0_holds.
  - apply surjective_pairing.
Defined.

Definition run2 := Run (B := MemKV.batch) 2 (cfg 0 50 7) w0.

Lemma Run_append_only_witness :
  run2.2 ≠ Panic ∧ ∃ l', holds (B := MemKV.batch) run2.1 l' ∧
    lg_records empty_ledger `prefix_of` lg_records l' ∧
    height empty_ledger <= height l' ∧ (l' = empty_ledger ∨ height empty_ledger < height l') ∧
    (stFatal (wStatus w0) ≠ None → l' = empty_ledger).
Proof.
  apply (Run_append_only (cfg 0 50 7) 2 w0 run2.1 run2.2 empty_ledger).
  - vm_compute. reflexivity.
  - exact new_Status_ok.
  - exact w0_holds.
  - apply surjective_pairing.
Defined.

(** A manager without events: at the confirmed tip the chain has no address. *)
Definition w2 : world MemKV.db (option bootstrapState) := (Step (B := MemKV.batch) (cfg 0 1000 8) w0).1.
Definition no_chain : error := fatal "no active CanonicalTransactionChain at confirmed tip".

Lemma w2_step : Step (B := MemKV.batch) (cfg 0 1000 8) w0 = (w2, Err no_chain).
Proof.
  assert ((Step (B := MemKV.batch) (cfg 0 1000 8) w0).2 = Err no_chain) as E by (vm_compute; reflexivity).
  rewrite (surjective_pairing (Step _ _)), E. reflexivity.
Qed.

Lemma Run_halts_witness :
  ∃ w', run_round (B := MemKV.batch) (cfg 0 1000 8) w0 = (w', Ok Stop) ∧
    stFatal (wStatus w') ≠ None.
Proof.
  assert (0 < uval (cBatchSize (cfg 0 1000 8))) as Hb by (vm_compute; reflexivity).
  destruct (Run_halts (cfg 0 1000 8) w0 w2 w0 no_chain 0 Hb new_Status_ok
    (ex_intro _ empty_ledger w0_holds) w2_step) as (Hh & _).
  exact (Hh eq_refl).
Defined.

(** The page [90, 99] is empty. *)
Definition b0 : bootstrapState := mkBootstrap (wrap 256 1099) (#64 99) false zero_address.
Definition w3 : world MemKV.db (option bootstrapState) := mkWorld DepositWitness.s0 new_Status (Some b0) 0.
Definition w4 : world MemKV.db (option bootstrapState) := (bootstrap_step (cfg 100 10 7) b0 w3).1.

Lemma bootstrap_descends_witness :
  ∃ b', wPriv w4 = Some b' ∧ bsReady b' = false ∧ bsAnchor b' = wrap 256 1099 ∧
    uval (bsNext b') = 89 ∧ uval (bsNext b') / 10 = 8.
Proof.
  apply (bootstrap_descends (cfg 100 10 7) b0 w3 w4 None).
  - vm_compute. reflexivity.
  - exact new_Status_ok.
  - reflexivity.
  - assert ((bootstrap_step (cfg 100 10 7) b0 w3).2 = Ok None) as E
      by (vm_compute; reflexivity).
    rewrite (surjective_pairing (bootstrap_step _ _ _)), E. reflexivity.
  - reflexivity.
Defined.

End IngestWitness.
