(* ===== verification/Server.v ===== *)
(** * The HTTP server (internal/server)

    The routes, the guard that all data routes share, and the handlers.  A
    handler reads the store and the health status under the same interleaving
    as the ingestion loops; an error it meets in the store is published as a
    fatal error.  [net/http] itself (connections, the text of its own 404 and
    405 answers) is left out: [Handler] answers nothing where no route
    matches. *)
From S2P Require Import Prelude StateMonad Word Strconv Json Geth Pebble StoreTypes DepositStore BlobStore.
From S2P Require Import Config Status Service.

(** ** Requests and answers *)

(** The path parameters by name, and the values of the query's [backend]. *)
Record request : Type := mkRequest {
  rqPath : gmap string string;
  rqBackend : option (list string);
}.

(** [r.PathValue]: empty when the route has no such parameter. *)
Definition PathValue (r : request) (name : string) : string := default "" (rqPath r !! name).

Definition StatusOK : Z := 200.
Definition StatusBadRequest : Z := 400.
Definition StatusServiceUnavailable : Z := 503.

(** The status code and the JSON body of [reply]; a map's keys are sorted. *)
Definition answered : Type := Z * json.

Definition error_body (e : error) : json := JObj [("error", JStr (err_msg e))].

Definition uintParam (value : string) : result u64 :=
  fail_if bool_decide (value = "") with plain "empty integer" ;;
  fail_if negb (all_digits value) with plain "invalid integer" ;;
  ParseUint value.

Definition validateRequest (cfg : Config) (r : request) : result (option u64) :=
  let chain := PathValue r "chainId" in
  fail_if negb (bool_decide (chain = "")) &&
          match uintParam chain with
          | Ok chainID => negb (bool_decide (chainID = cL2ChainID cfg))
          | _ => true
          end
    with plain "unknown or invalid chain ID" ;;
  fail_if match rqBackend r with
          | Some backend => negb (bool_decide (backend = ["l1"]))
          | None => false
          end
    with plain "only backend=l1 is supported" ;;
  let raw := PathValue r "index" in
  if bool_decide (raw = "") then Ok None else
  match uintParam raw with
  | Ok index => Ok (Some index)
  | Err _ => Err (plain "invalid index")
  | Panic => Panic
  end.

(** ** JSON bodies *)

Section bodies.
Context `{GethText}.

Definition enqueue_body (e : Enqueue) : json := JObj [
  ("index", marshal (eIndex e)); ("target", marshal (eTarget e)); ("data", marshal (eData e));
  ("gasLimit", marshal (eGasLimit e)); ("origin", marshal (eOrigin e));
  ("blockNumber", marshal (eBlockNumber e)); ("timestamp", marshal (eTimestamp e));
  ("ctcIndex", marshal (eCTCIndex e))].

Definition no_enqueue_body : json := JObj [
  ("blockNumber", JNull); ("ctcIndex", JNull); ("data", JNull); ("gasLimit", JNull);
  ("index", JNull); ("origin", JNull); ("target", JNull); ("timestamp", JNull)].

Definition block_body (r : BlockResponse) : json := JObj [
  ("block", marshal (respBlock r)); ("batch", marshal (respBatch r))].

Definition no_block_body : json := JObj [("batch", JNull); ("block", JNull)].

Definition context_body (number : json) (hash timestamp : json) : json := JObj [
  ("blockHash", hash); ("blockNumber", number); ("timestamp", timestamp)].
End bodies.

(** ** Handlers *)

(** [time.Now], in seconds. *)
Class Clock : Type := now_Unix : nat → Z.

Section handlers.
Context `{GethText, Clock}.
Context {D B : Type} `{Pebble D B, Env D}.
Notation M := (M D unit).

(** What an endpoint returns: a code, and a body or an error. *)
Definition outcome : Type := Z * (json + error).
Definition endpoint : Type := Config → request → option u64 → M outcome.

(** [s.Status.Set(false, err)] and 503. *)
Definition unavailable (e : error) : M outcome :=
  do! _ := status_Set false (Some e) in ret (StatusServiceUnavailable, inr e).

Definition health : M answered := ret (StatusOK, JObj [("alive", JBool true)]).

Definition readiness : M answered :=
  do! ' (ready, err) := status_Snapshot in
  if negb ready || negb (is_nil err)
  then ret (StatusServiceUnavailable, JObj [("ready", JBool false)])
  else ret (StatusOK, JObj [("ready", JBool true)]).

Definition enqueue : endpoint := λ _ _ index,
  do! deposit := attempt (read_store (λ s, StoreGet s index)) in
  match deposit with
  | inr e => unavailable e
  | inl (Some e) => ret (StatusOK, inl (enqueue_body e))
  | inl None => ret (StatusOK, inl no_enqueue_body)
  end.

Definition highestL1 : endpoint := λ _ _ _,
  do! state := attempt (read_store StoreState) in
  match state with
  | inr e => unavailable e
  | inl st => ret (StatusOK, inl (JObj [("blockNumber", marshal (sHeight st))]))
  end.

Definition syncing : endpoint := λ _ _ _,
  do! ' (ready, _) := status_Snapshot in
  ret (StatusOK, inl (JObj [("currentTransactionIndex", JNum 0); ("syncing", JBool (negb ready))])).

Definition transaction : endpoint := λ _ _ _,
  ret (StatusOK, inl (JObj [("batch", JNull); ("transaction", JNull)])).

Definition block : endpoint := λ cfg _ index,
  if negb (BlobEnabled cfg) then ret (StatusOK, inl no_block_body) else
  do! out := attempt (read_store (λ s, GetBlock s index)) in
  match out with
  | inr e => unavailable e
  | inl out => ret (StatusOK, inl (block_body out))
  end.

(** *** The L1 context *)

Definition read_clock : M Z := do! _ := yield in λ w, (w, Ok (now_Unix (wClock w))).

(** [number], when the route has one. *)
Definition requested_number (r : request) : result (option u64) :=
  let raw := PathValue r "number" in
  if bool_decide (raw = "") then Ok None else
  match uintParam raw with
  | Ok n => Ok (Some n)
  | Err e => Err e
  | Panic => Panic
  end.

(** The part that answers 503 on any error. *)
Definition confirmed_context (cfg : Config) (requested : option u64) : M json :=
  do! tip := HeaderByNumber None in
  match header_number tip with
  | None => fail (plain "invalid L1 tip")
  | Some tip =>
      let confirmed := if ule (cConfirmations cfg) tip then usub tip (cConfirmations cfg) else #64 0 in
      if match requested with Some n => ult confirmed n | None => false end
      then ret (context_body JNull JNull JNull) else
      let n := default confirmed requested in
      do! h := checked_header (plain "invalid L1 header") n in
      do! timestamp :=
        match requested with
        | Some _ => ret (hTime h)
        | None => do! t := read_clock in ret (wrap 64 t)
        end in
      ret (context_body (marshal n) (marshal (hHash h)) (marshal timestamp))
  end.

Definition l1Context : endpoint := λ cfg r _,
  match requested_number r with
  | Panic => lift Panic
  | Err e => ret (StatusBadRequest, inr e)
  | Ok requested =>
      do! out := attempt (confirmed_context cfg requested) in
      match out with
      | inr e => ret (StatusServiceUnavailable, inr e)
      | inl body => ret (StatusOK, inl body)
      end
  end.

(** ** The guard of the data routes *)

Definition dataHandler (handle : endpoint) (cfg : Config) (r : request) : M answered :=
  do! ' (_, err) := status_Snapshot in
  match err with
  | Some e => ret (StatusServiceUnavailable, error_body e)
  | None =>
      match validateRequest cfg r with
      | Panic => lift Panic
      | Err e => ret (StatusBadRequest, error_body e)
      | Ok index =>
          do! ' (code, out) := handle cfg r index in
          ret (code, match out with inl body => body | inr e => error_body e end)
      end
  end.

(** ** Routes *)

Inductive segment : Type := Lit (s : string) | Wild (name : string).

Inductive route : Type :=
  | Probe (f : M answered)
  | Data (f : endpoint).

Definition routes : list (list segment * route) := [
  ([Lit "healthz"], Probe health);
  ([Lit "readyz"], Probe readiness);
  ([Lit "enqueue"; Lit "latest"; Wild "chainId"], Data enqueue);
  ([Lit "enqueue"; Lit "index"; Wild "index"; Wild "chainId"], Data enqueue);
  ([Lit "eth"; Lit "context"; Lit "latest"], Data l1Context);
  ([Lit "eth"; Lit "context"; Lit "blocknumber"; Wild "number"], Data l1Context);
  ([Lit "highest"; Lit "l1"], Data highestL1);
  ([Lit "eth"; Lit "syncing"; Wild "chainId"], Data syncing);
  ([Lit "transaction"; Lit "latest"; Wild "chainId"], Data transaction);
  ([Lit "transaction"; Lit "index"; Wild "index"; Wild "chainId"], Data transaction);
  ([Lit "block"; Lit "latest"; Wild "chainId"], Data block);
  ([Lit "block"; Lit "index"; Wild "index"; Wild "chainId"], Data block)].

(** A wildcard takes one segment, which is not empty. *)
Fixpoint match_path (pattern : list segment) (path : list string) : option (gmap string string) :=
  match pattern, path with
  | [], [] => Some ∅
  | Lit s :: pattern, s' :: path => if bool_decide (s = s') then match_path pattern path else None
  | Wild name :: pattern, s' :: path =>
      if bool_decide (s' = "") then None else <[name := s']> <$> match_path pattern path
  | _, _ => None
  end.

Fixpoint find_route (l : list (list segment * route)) (path : list string) :
    option (gmap string string * route) :=
  match l with
  | [] => None
  | (pattern, f) :: l =>
      match match_path pattern path with
      | Some m => Some (m, f)
      | None => find_route l path
      end
  end.

(** A GET of the path with these segments; no two patterns match one path. *)
Definition Handler (cfg : Config) (path : list string) (backend : option (list string)) :
    option (M answered) :=
  match find_route routes path with
  | None => None
  | Some (m, Probe f) => Some f
  | Some (m, Data f) => Some (dataHandler f cfg (mkRequest m backend))
  end.

End handlers.
