(* ===== verification/ServerTheorems.v ===== *)
(** * What the HTTP server promises

    Every route answers every request, in every state; no data is served
    after a fatal error or for a malformed request; what is served is what
    the store holds, and the L1 context stays below the confirmed tip. *)
From S2P Require Import Prelude StateMonad Word Strconv Json Geth Pebble StoreTypes DepositStore BlobStore StorePanics.
From S2P Require Import BlobStoreFacts BlobCommit BlobTheorems Config Status Service ServiceFacts Server.

(** ** Parameters *)

(** The decimal text [s] means [n]; leading zeros are allowed. *)
Definition denotes (s : string) (n : u64) : Prop :=
  s ≠ "" ∧ all_digits s = true ∧ decimal 0 s = uval n.

Lemma denotes_unique s n1 n2 : denotes s n1 → denotes s n2 → n1 = n2.
Proof. intros (_ & _ & E1) (_ & _ & E2). apply uint_eq. congruence. Qed.

Lemma uintParam_cases s :
  (∃ n, denotes s n ∧ uintParam s = Ok n) ∨
  ((∀ n, ¬ denotes s n) ∧ ∃ e, uintParam s = Err e).
Proof.
  unfold uintParam. case_bool_decide as He; cbn [negb]; [right; split; [by intros n [? _] | eauto]|].
  destruct (all_digits s) eqn:Ha; cbn [negb]; [|right; split; [by intros n (_ & ? & _); congruence | eauto]].
  destruct (ParseUint_cases s) as [(n & -> & Hs)|(msg & -> & Hs)]; [left; by exists n | right].
  split; [|eauto]. intros n (_ & _ & Hd). pose proof (uint_range n) as Hr.
  change (modulus 64) with (2 ^ 64) in Hr. rewrite Hd in Hs. destruct Hs as [?|[?|[?|?]]]; [done | congruence | lia | lia].
Qed.

(** The parameters of a well-formed request, and the index it asks for. *)
Definition request_ok (cfg : Config) (r : request) (index : option u64) : Prop :=
  (PathValue r "chainId" = "" ∨ denotes (PathValue r "chainId") (cL2ChainID cfg)) ∧
  (rqBackend r = None ∨ rqBackend r = Some ["l1"]) ∧
  match index with
  | None => PathValue r "index" = ""
  | Some n => denotes (PathValue r "index") n
  end.

Lemma chain_cases (s : string) (id : u64) :
  negb (bool_decide (s = "")) &&
    match uintParam s with Ok n => negb (bool_decide (n = id)) | _ => true end = false ↔
  s = "" ∨ denotes s id.
Proof.
  case_bool_decide as Hs; cbn [negb andb]; [by split; [left|]|].
  destruct (uintParam_cases s) as [(n & Hn & ->)|[Hn (e & ->)]].
  - case_bool_decide as Hid; cbn [negb]; split; [right; by subst | done | done |].
    intros [?|Hd]; [done|]. by destruct Hid; eapply denotes_unique.
  - split; [done|]. intros [?|Hd]; [done | by destruct (Hn id)].
Qed.

Lemma validateRequest_cases cfg r :
  (∃ index, request_ok cfg r index ∧ validateRequest cfg r = Ok index) ∨
  ((∀ index, ¬ request_ok cfg r index) ∧ ∃ e, validateRequest cfg r = Err e).
Proof.
  unfold validateRequest. destruct (_ && _) eqn:Ec.
  { right. split; [|eauto]. intros i (Hc & _). apply chain_cases in Hc. congruence. }
  apply chain_cases in Ec.
  destruct (rqBackend r) as [b|] eqn:Eb.
  - case_bool_decide as Hb; cbn [negb]; [|right; split; [|eauto]; intros i (_ & [?|?] & _); congruence].
    subst b. case_bool_decide as Hi.
    + left. exists None. split; [|done]. split_and!; [done | by right | done].
    + destruct (uintParam_cases (PathValue r "index")) as [(n & Hn & ->)|[Hn (e & ->)]]; [left | right].
      * exists (Some n). split; [|done]. split_and!; [done | by right | done].
      * split; [|eauto]. intros [i|] (_ & _ & Hx); [by apply (Hn i) | done].
  - case_bool_decide as Hi.
    + left. exists None. split; [|done]. split_and!; [done | by left | done].
    + destruct (uintParam_cases (PathValue r "index")) as [(n & Hn & ->)|[Hn (e & ->)]]; [left | right].
      * exists (Some n). split; [|done]. split_and!; [done | by left | done].
      * split; [|eauto]. intros [i|] (_ & _ & Hx); [by apply (Hn i) | done].
Qed.

Section handlers.
Context `{GethText, Clock}.
Context {D B : Type} `{!Pebble D B, !NoPanic D B, !Env D}.
Context {K : Store D → Store D → Prop} `{!Keeps K}.

Notation world := (world D unit).
Notation anything := (λ _ : unit, True).
Notation wp := (wp (good anything) (calm_with K)).

(** ** Outcomes of the endpoints *)




Lemma wp_Snapshot (Q : world → bool * option error → Prop) (w : world) :
  (∀ w' b, calm_with K w w' → Q w' (b, stFatal (wStatus w'))) → wp Q status_Snapshot w.
Proof.
  intros HQ [Hw HJ]. destruct (Snapshot_total (K := K) w Hw) as (w1 & b & E & Hq). rewrite E.
  split_and!; [by split; [apply Hq|] | by apply quiet_calm | done|].
  intros ? [= <-]. simpl. apply HQ. by apply quiet_calm.
Qed.

(** ** The L1 context *)

(** A tip was seen, [Confirmations] above the block [n]. *)
Definition confirmed_at (cfg : Config) (t1 t2 : nat) (n : Z) : Prop :=
  ∃ t tip m, (t1 < t <= t2)%nat ∧ rpc_Header (D := D) t None = inl (Some tip) ∧
    hNumber tip = Some m ∧ n = Z.max 0 (m - uval (cConfirmations cfg)).

(** The body for the request: nothing above the confirmed block, otherwise
    the block the node showed, at its own time when it was asked for by
    number, and now when it is the latest. *)
Definition context_ok (cfg : Config) (t1 t2 : nat) (requested : option u64) (body : json) : Prop :=
  ∃ c, confirmed_at cfg t1 t2 c ∧
    match requested with
    | Some n =>
        (c < uval n ∧ body = JObj [("blockHash", JNull); ("blockNumber", JNull); ("timestamp", JNull)]) ∨
        (uval n <= c ∧ ∃ h, saw_header (D := D) t1 t2 n h ∧
           body = JObj [("blockHash", marshal (hHash h)); ("blockNumber", JNum (uval n));
                        ("timestamp", JNum (uval (hTime h)))])
    | None => ∃ n h t, uval n = c ∧ saw_header (D := D) t1 t2 n h ∧ (t1 < t <= t2)%nat ∧
        body = JObj [("blockHash", marshal (hHash h)); ("blockNumber", JNum c);
                     ("timestamp", JNum (now_Unix t mod 2 ^ 64))]
    end.

Lemma wp_read_clock (Q : world → Z → Prop) (w : world) :
  (∀ w', (wClock w < wClock w')%nat → calm_with K w w' → Q w' (now_Unix (wClock w'))) →
  wp Q read_clock w.
Proof.
  intros HQ. apply wp_safe.
  - by apply safe_after_yield, safe_read.
  - by apply keeps_priv_after.
  - intros w' a ([] & w1 & Hy%yield_clock & E)%mbind_Ok _ _ Hc _. injection E as <- <-. apply HQ; [lia | done].
Qed.

Lemma wp_confirmed_context cfg requested (w : world) :
  wp (λ w' body, context_ok cfg (wClock w) (wClock w') requested body)
    (confirmed_context cfg requested) w.
Proof.
  apply wp_bind; [apply _|]. apply wp_answer. intros w1 tip Hc1 Htip C1 _.
  destruct (header_number tip) as [n|] eqn:En; [|apply wp_fail, _].
  destruct tip as [tip|]; [|done]. apply header_number_Some in En.
  set (confirmed := if ule _ _ then _ else _). cbv zeta.
  pose proof (usub_clamped n (cConfirmations cfg)) as Hconf. fold confirmed in Hconf.
  assert (∀ t2, (wClock w1 <= t2)%nat → confirmed_at cfg (wClock w) t2 (uval confirmed)) as Hat.
  { intros t2 Ht. exists (wClock w1), tip, (uval n). split_and!; [lia | lia | done | done | done]. }
  destruct requested as [m|]; cbn [default].
  - destruct (ult confirmed m) eqn:Elt; unfold ult in Elt; bool_to_prop.
    { apply wp_ret; [apply _|]. intros _. exists (uval confirmed). split; [by apply Hat|]. by left. }
    apply wp_bind; [apply _|]. apply wp_header. intros w2 h Hs Hc2 C2 _.
    apply wp_bind; [apply _|]. apply wp_ret; [apply _|]. intros _. apply wp_ret; [apply _|]. intros _.
    exists (uval confirmed). split; [apply Hat; lia|]. right. split; [done|]. exists h. split; [|done].
    eapply saw_header_mono; [| |exact Hs]; lia.
  - apply wp_bind; [apply _|]. apply wp_header. intros w2 h Hs Hc2 C2 _.
    apply wp_bind; [apply _|]. apply wp_bind; [apply _|]. apply wp_read_clock. intros w3 Hc3 C3.
    apply wp_ret; [apply _|]. intros _. apply wp_ret; [apply _|]. intros _.
    exists (uval confirmed). split; [apply Hat; lia|]. exists confirmed, h, (wClock w3).
    split_and!; [done | | lia | lia | done]. eapply saw_header_mono; [| |exact Hs]; lia.
Qed.

(** The route has a number, and it denotes none. *)
Definition bad_number (r : request) : Prop :=
  PathValue r "number" ≠ "" ∧ ∀ n, ¬ denotes (PathValue r "number") n.

(** The node failed: it answered no usable tip, or another block than the
    one it was asked for. *)
Definition node_failed (t1 t2 : nat) : Prop :=
  ∃ t, (t1 < t <= t2)%nat ∧
    ((∀ tip m, rpc_Header (D := D) t None = inl (Some tip) → hNumber tip = Some m → ¬ 0 <= m < 2 ^ 64) ∨
     ∃ n : u64, ∀ h, rpc_Header (D := D) t (Some n) = inl (Some h) → hNumber h ≠ Some (uval n)).

(** What the context route answers. *)
Definition context_outcome (cfg : Config) (t1 t2 : nat) (r : request) (o : outcome) : Prop :=
  match o with
  | (code, inl body) => code = 200 ∧ ∃ requested,
      match requested with
      | None => PathValue r "number" = ""
      | Some n => denotes (PathValue r "number") n
      end ∧ context_ok cfg t1 t2 requested body
  | (code, inr _) => code = 400 ∧ bad_number r ∨ code = 503 ∧ ¬ bad_number r ∧ node_failed t1 t2
  end.

Lemma answer_failed {X} (f : nat → X + error) (w w' : world) e :
  status_ok (wStatus w) → answer f w = (w', Err e) → (wClock w < wClock w')%nat ∧ f (wClock w') = inr e.
Proof.
  intros Hw E. unfold answer, mbind in E. rewrite (proj1 (yield_elapse (K := K) w Hw)) in E.
  destruct (f _) eqn:Ef; [done|]. injection E as <- <-. split; [simpl; lia | done].
Qed.

Lemma header_fails c n (w w' : world) e :
  status_ok (wStatus w) → checked_header c n w = (w', Err e) → node_failed (wClock w) (wClock w').
Proof.
  intros Hw [E|(h & w1 & [Hc Hh]%answer_Ok & E)]%mbind_Err.
  - apply answer_failed in E as [Hc Hh]; [|done]. exists (wClock w'). split; [lia|]. right. exists n. intros h. by rewrite Hh.
  - exists (wClock w1). destruct h as [h|]; [|injection E as <- _; split; [lia|]; right; exists n; intros h; by rewrite Hh].
    destruct (negb _) eqn:En; [|done]. injection E as <- _. bool_to_prop. split; [lia|]. right. exists n.
    intros h'. rewrite Hh. intros [= <-] Hn. apply header_number_Some in Hn. done.
Qed.

(** The context fails only when the node does. *)
Lemma confirmed_context_fails cfg requested (w w' : world) e :
  status_ok (wStatus w) → confirmed_context cfg requested w = (w', Err e) →
  node_failed (wClock w) (wClock w').
Proof.
  intros Hw E. unfold confirmed_context in E. apply mbind_Err in E as [E|(tip & w1 & Ha & E)].
  { apply answer_failed in E as [Hc Hh]; [|done]. exists (wClock w'). split; [lia|]. left. intros tip m. by rewrite Hh. }
  pose proof (q_ok _ _ (safe_Ok _ _ _ _ (safe_answer (K := K) (λ t, rpc_Header t None)) Hw Ha)) as Hw1.
  pose proof (answer_Ok (λ t, rpc_Header t None) _ _ _ Ha) as [Hc Hh].
  destruct (header_number tip) as [n|] eqn:En.
  2:{ injection E as <- _. exists (wClock w1). split; [lia|]. left. intros tip' m. rewrite Hh. intros [= ->] Hm Hr.
      unfold header_number in En. rewrite Hm in En. destruct (IsUint64 m) eqn:Ei; [done|].
      unfold IsUint64, in_width in Ei. change (modulus 64) with (2 ^ 64) in Ei.
      rewrite (proj2 (Z.leb_le _ _)), (proj2 (Z.ltb_lt _ _)) in Ei by lia. done. }
  cbv zeta in E. destruct (match requested with Some _ => _ | None => _ end) eqn:Eq in E; [done|].
  apply mbind_Err in E as [E|(h & w2 & Hx & E)].
  { apply header_fails in E as (t & ? & Hf); [|done]. exists t. split; [lia | done]. }
  exfalso. pose proof (q_ok _ _ (safe_Ok _ _ _ _ (safe_checked_header (K := K) _ _) Hw1 Hx)) as Hw2.
  apply mbind_Err in E as [E|(? & ? & _ & E)]; [|done]. destruct requested; [done|].
  apply mbind_Err in E as [E|(? & ? & _ & E)]; [|done]. unfold read_clock, mbind in E.
  by rewrite (proj1 (yield_elapse (K := K) w2 Hw2)) in E.
Qed.

Lemma wp_l1Context cfg r i (w : world) :
  wp (λ w' o, context_outcome cfg (wClock w) (wClock w') r o) (l1Context cfg r i) w.
Proof.
  assert (∀ requested, match requested with
      | None => PathValue r "number" = ""
      | Some n => denotes (PathValue r "number") n
      end →
    ¬ bad_number r →
    wp (λ w' o, context_outcome cfg (wClock w) (wClock w') r o)
      (do! out := attempt (confirmed_context cfg requested) in
       match out with
       | inr e => ret (StatusServiceUnavailable, inr e)
       | inl body => ret (StatusOK, inl body)
       end) w) as Hgo.
  { intros requested Hr Hgood. apply wp_intro. intros [Hw _]. apply wp_bind; [apply _|]. apply wp_attempt.
    - eapply wp_mono; [apply wp_confirmed_context|]. intros w1 body _ _ Hb.
      apply wp_ret; [apply _|]. intros _. split; [done|]. by exists requested.
    - intros w1 e _ _ E. apply wp_ret; [apply _|]. intros _. right.
      split_and!; [done | done | by eapply confirmed_context_fails]. }
  unfold l1Context, requested_number. case_bool_decide as Hn; [apply (Hgo None); [done | by intros [? _]]|].
  destruct (uintParam_cases (PathValue r "number")) as [(n & Hd & ->)|[Hd (e & ->)]].
  - apply (Hgo (Some n)); [done|]. intros [_ Hbad]. by apply (Hbad n).
  - apply wp_ret; [apply _|]. intros _. by left.
Qed.

(** ** The routes *)















(** ** Every request is answered *)

Create HintDb answering.

(** The computation returns, without an error of its own. *)
Definition answering {X} (m : M D unit X) : Prop :=
  ∀ w : world, good anything w → good anything (m w).1 ∧ ∃ x, (m w).2 = Ok x.

Lemma answering_ret {X} (x : X) : answering (ret x).
Proof. intros w Hw. split; [done|]. by exists x. Qed.

Lemma answering_bind {X Y} (m : M D unit X) (k : X → M D unit Y) :
  answering m → (∀ x, answering (k x)) → answering (mbind m k).
Proof.
  intros Hm Hk w Hw. unfold mbind. destruct (Hm w Hw) as [Hw' [x Hx]].
  destruct (m w) as [w1 r]. simpl in *. subst r. by apply Hk.
Qed.

Lemma answering_attempt {X} (m : M D unit X) : (∀ w, wp (λ _ _, True) m w) → answering (attempt m).
Proof.
  intros Hm w Hw. destruct (Hm w Hw) as (Hw' & _ & Hp & _). unfold attempt.
  destruct (m w) as [w1 [x|e|]]; [by split; [|eexists].. | done].
Qed.

Lemma answering_Snapshot : answering status_Snapshot.
Proof.
  intros w [Hw HJ]. destruct (Snapshot_total (K := K) w Hw) as (w1 & b & -> & Hq).
  split; [by split; [apply Hq|] | by eexists].
Qed.

Lemma answering_unavailable e : answering (unavailable e).
Proof.
  apply answering_bind; [|intros x; apply answering_ret]. intros w [Hw HJ].
  destruct (status_Set_total (K := K) false (Some e) w Hw) as (w1 & -> & Hq & _).
  split; [by split; [apply Hq|] | by eexists].
Qed.

Lemma answering_read {X} (f : Store D → result X) : (∀ s, f s ≠ Panic) → answering (attempt (read_store f)).
Proof. intros Hf. apply answering_attempt. intros w. by apply wp_read_store. Qed.

#[local] Hint Resolve answering_ret answering_Snapshot answering_unavailable StoreGet_no_panic StoreState_no_panic
  GetBlock_no_panic : answering.

Lemma answering_endpoint pattern f cfg r i : (pattern, Data f) ∈ routes → answering (f cfg r i).
Proof.
  intros Hin.
  assert (f = enqueue ∨ f = highestL1 ∨ f = block ∨ f = l1Context ∨ f = syncing ∨ f = transaction)
    as [->|[->|[->|[->|[->| ->]]]]].
  { unfold routes in Hin. repeat (apply elem_of_cons in Hin as [Hin|Hin];
      [first [discriminate Hin | injection Hin as _ ->; tauto]|]). by apply elem_of_nil in Hin. }
  - apply answering_bind; [apply answering_read; auto with answering|].
    intros [[e|]|e]; auto with answering.
  - apply answering_bind; [apply answering_read; auto with answering|]. intros [e|e]; auto with answering.
  - unfold block. destruct (negb _); auto with answering.
    apply answering_bind; [apply answering_read; auto with answering|]. intros [e|e]; auto with answering.
  - unfold l1Context, requested_number. case_bool_decide as Hn; [|].
    + apply answering_bind; [|intros [e|e]; auto with answering].
      apply answering_attempt. intros w. eapply wp_mono; [apply wp_confirmed_context | done].
    + destruct (uintParam_cases (PathValue r "number")) as [(n & _ & ->)|[_ (e & ->)]]; auto with answering.
      apply answering_bind; [|intros [e|e]; auto with answering].
      apply answering_attempt. intros w. eapply wp_mono; [apply wp_confirmed_context | done].
  - apply answering_bind; [auto with answering|]. intros [b e]. auto with answering.
  - unfold transaction. auto with answering.
Qed.

Lemma answering_dataHandler pattern f cfg r : (pattern, Data f) ∈ routes → answering (dataHandler f cfg r).
Proof.
  intros Hin. apply answering_bind; [auto with answering|]. intros [b [e|]]; auto with answering.
  destruct (validateRequest_cases cfg r) as [(index & _ & ->)|[_ (e & ->)]]; auto with answering.
  apply answering_bind; [by eapply answering_endpoint|]. intros [code out]. auto with answering.
Qed.

Lemma answering_run {X} (m : M D unit X) (w w' : world) res :
  answering m → status_ok (wStatus w) → m w = (w', res) → ∃ x, res = Ok x.
Proof. intros Hm Hw E. destruct (Hm w (conj Hw I)) as [_ [x Hx]]. rewrite E in Hx. by exists x. Qed.

(** ** Properties *)

(** Whether two patterns match a common path. *)
Fixpoint overlap (p1 p2 : list segment) : bool :=
  match p1, p2 with
  | [], [] => true
  | Lit a :: p1, Lit b :: p2 => bool_decide (a = b) && overlap p1 p2
  | _ :: p1, _ :: p2 => overlap p1 p2
  | _, _ => false
  end.

Lemma match_overlap p1 : ∀ p2 path,
  is_Some (match_path p1 path) → is_Some (match_path p2 path) → overlap p1 p2 = true.
Proof.
  induction p1 as [|[a|a] p1 IH]; intros [|[b|b] p2] [|s path]; cbn [match_path overlap];
    try (by intros [? ?]); try (by intros _ [? ?]); try done;
    repeat case_bool_decide; try (by intros [? ?]); try (by intros _ [? ?]); try congruence; cbn [andb];
    rewrite ?fmap_is_Some; eauto.
Qed.

(** No path has two routes, so their order does not matter. *)
Lemma routes_disjoint i j p1 p2 f1 f2 path :
  routes (D := D) !! i = Some (p1, f1) → routes (D := D) !! j = Some (p2, f2) →
  is_Some (match_path p1 path) → is_Some (match_path p2 path) → i = j.
Proof.
  intros H1' H2' M1 M2. pose proof (match_overlap _ _ _ M1 M2) as Ho.
  pose proof (lookup_lt_Some _ _ _ H1') as L1. pose proof (lookup_lt_Some _ _ _ H2') as L2.
  destruct (decide (i = j)) as [|Hij]; [done | exfalso].
  assert (∀ k p f, routes (D := D) !! k = Some (p, f) → (routes (D := D)).*1 !! k = Some p) as Hp
    by (intros k p f E; by rewrite list_lookup_fmap, E).
  apply Hp in H1', H2'.
  assert (forallb (λ i, forallb (λ j, bool_decide (i = j) ||
    negb (overlap ((routes (D := D)).*1 !!! i) ((routes (D := D)).*1 !!! j))) (seq 0 12)) (seq 0 12) = true)
    as Hall by (vm_compute; reflexivity).
  rewrite forallb_forall in Hall. specialize (Hall i ltac:(apply in_seq; simpl in L1; lia)).
  rewrite forallb_forall in Hall. specialize (Hall j ltac:(apply in_seq; simpl in L2; lia)).
  rewrite (list_lookup_total_correct _ _ _ H1'), (list_lookup_total_correct _ _ _ H2'), Ho in Hall.
  by rewrite bool_decide_false in Hall.
Qed.


(** [C25] The L1 context stays below the confirmed tip: a number above it gets
    nulls, a number up to it the hash and the time of the block the node
    showed under exactly that number, and the latest context is the confirmed
    block itself with the current time.  A malformed number, and nothing
    else, gets 400; otherwise 503 says that the node has shown no usable tip
    or no block of the number it was asked for. *)
Theorem l1Context_confirmed cfg r index (w w' : world) res :
  status_ok (wStatus w) → l1Context cfg r index w = (w', res) →
  ∃ o, res = Ok o ∧ context_outcome cfg (wClock w) (wClock w') r o ∧ calm_with K w w'.
Proof.
  intros Hw E.
  assert (answering (l1Context cfg r index)) as Ha.
  { apply (answering_endpoint [Lit "eth"; Lit "context"; Lit "latest"]). unfold routes.
    repeat (try (by left); right). }
  destruct (answering_run _ _ _ _ Ha Hw E) as [o ->].
  destruct (wp_run _ _ _ _ _ _ _ (wp_l1Context cfg r index w) (conj Hw I) E) as (_ & C & _ & HQ).
  exists o. split_and!; [done | by apply HQ | done].
Qed.

End handlers.

(** ** What is served *)

Section served.
Context `{GethTextLaws, Clock}.
Context {D B : Type} `{!Pebble D B, !PebbleLaws D B, !NoPanic D B, !Env D}.

(** The other goroutines only append to the ledger, and do not close it. *)
Definition ledger_grows (s s' : Store D) : Prop :=
  (st_closed s = false → st_closed s' = false) ∧
  ∀ l, represents (contents (st_db s)) l →
    ∃ l', represents (contents (st_db s')) l' ∧ lg_records l `prefix_of` lg_records l'.

Context `{!Keeps ledger_grows}.
Notation world := (world D unit).
Notation wp := (wp (good (λ _ : unit, True)) (calm_with ledger_grows)).

(** The deposit document, or the one with nulls. *)
Definition deposit_body (o : option DepositRecord) : json :=
  match rEnqueue <$> o with
  | Some (mkEnqueue index target data gas origin block ts ctc) => JObj [
      ("index", marshal index); ("target", marshal target); ("data", marshal data);
      ("gasLimit", marshal gas); ("origin", marshal origin); ("blockNumber", marshal block);
      ("timestamp", marshal ts); ("ctcIndex", marshal ctc)]
  | None => JObj [
      ("blockNumber", JNull); ("ctcIndex", JNull); ("data", JNull); ("gasLimit", JNull);
      ("index", JNull); ("origin", JNull); ("target", JNull); ("timestamp", JNull)]
  end.

(** The deposit at [index], in the ledger at the time of the answer. *)
Definition served_deposit (l : ledger) (index : option u64) (w' : world) (o : outcome) : Prop :=
  ∃ l', represents (contents (st_db (wStore w'))) l' ∧ lg_records l `prefix_of` lg_records l' ∧
    o = (200, inl (deposit_body (ledger_get l' index))).

Lemma wp_enqueue `{!Reliable D B} cfg r index l (w : world) :
  st_closed (wStore w) = false → represents (contents (st_db (wStore w))) l →
  wp (served_deposit l index) (enqueue cfg r index) w.
Proof.
  intros Hopen Hl. apply wp_intro. intros [Hw _].
  assert (∀ w1, calm_with ledger_grows w w1 → ∃ l', represents (contents (st_db (wStore w1))) l' ∧
    lg_records l `prefix_of` lg_records l' ∧
    StoreGet (wStore w1) index = Ok (rEnqueue <$> ledger_get l' index)) as Hget.
  { intros w1 [_ _ [Hc Hk]]. destruct (Hk l Hl) as (l' & Hl' & Hp). exists l'. split_and!; [done | done|].
    unfold StoreGet. rewrite (Hc Hopen). by apply readEnqueue_total. }
  apply wp_bind; [apply _|]. apply wp_attempt.
  - apply wp_read_store; [intros s; apply StoreGet_no_panic|]. intros w1 o Ho C _.
    destruct (Hget w1 C) as (l' & Hl' & Hp & E). rewrite E in Ho. injection Ho as <-.
    assert (∀ body, body = deposit_body (ledger_get l' index) →
      wp (served_deposit l index) (ret (StatusOK, inl body)) w1) as Hret.
    { intros body ->. apply wp_ret; [apply _|]. intros _. by exists l'. }
    unfold deposit_body in Hret. destruct (rEnqueue <$> ledger_get l' index) as [[]|]; by apply Hret.
  - intros w1 e _ C E. exfalso. apply mbind_Err in E as [E|([] & w2 & Hy & E)].
    + destruct (yield_Ok (K := ledger_grows) w Hw) as (w2 & Ey & _). congruence.
    + injection E as <- E. destruct (Hget w2 C) as (l' & _ & _ & Hok). congruence.
Qed.

Lemma request_ok_unique cfg r i1 i2 : request_ok cfg r i1 → request_ok cfg r i2 → i1 = i2.
Proof.
  intros (_ & _ & H1') (_ & _ & H2'). destruct i1 as [n1|], i2 as [n2|]; [|by destruct H1'|by destruct H2'|done].
  f_equal. by eapply denotes_unique.
Qed.

Lemma wp_served_route `{!Reliable D B} cfg r index l (w : world) :
  st_closed (wStore w) = false → represents (contents (st_db (wStore w))) l → request_ok cfg r index →
  wp (λ w' '(code, body),
    (code = 200 ∧ ∃ l', represents (contents (st_db (wStore w'))) l' ∧
        lg_records l `prefix_of` lg_records l' ∧ body = deposit_body (ledger_get l' index)) ∨
    (code = 503 ∧ stFatal (wStatus w') ≠ None)) (dataHandler enqueue cfg r) w.
Proof.
  intros Hopen Hl Hr. apply wp_bind; [apply _|]. apply wp_Snapshot. intros w1 b C1.
  destruct (stFatal (wStatus w1)) as [e|] eqn:Ef.
  { apply wp_ret; [apply _|]. intros _. right. by rewrite Ef. }
  destruct (validateRequest_cases cfg r) as [(index' & Hr' & ->)|[Hn _]]; [|by destruct (Hn index)].
  rewrite (request_ok_unique _ _ _ _ Hr' Hr). clear index' Hr'.
  destruct (c_kept C1) as [Hopen1 Hk1]. destruct (Hk1 l Hl) as (l1 & Hl1 & Hp1).
  apply wp_bind; [apply _|]. eapply wp_mono; [by apply (wp_enqueue cfg r index l1); [apply Hopen1|]|].
  intros w2 o _ _ (l2 & Hl2 & Hp2 & ->). apply wp_ret; [apply _|]. intros _. left. split; [done|].
  exists l2. split_and!; [done | by etrans | done].
Qed.

(** [C26] The deposit routes serve the ledger: without I/O errors a
    well-formed request on an open store that holds the ledger is answered
    with the deposit at its index, or the latest one, as the ledger holds it
    at that moment (the ingestion may have appended meanwhile), or with nulls
    when there is none; the only other answer is 503 after another goroutine
    published a fatal error.  A stored deposit is never reported missing. *)
Theorem enqueue_serves `{!Reliable D B} cfg r index l (w w' : world) res :
  status_ok (wStatus w) → st_closed (wStore w) = false →
  represents (contents (st_db (wStore w))) l → request_ok cfg r index →
  dataHandler enqueue cfg r w = (w', res) →
  ∃ code body, res = Ok (code, body) ∧
    ((code = 200 ∧ ∃ l', represents (contents (st_db (wStore w'))) l' ∧
        lg_records l `prefix_of` lg_records l' ∧ body = deposit_body (ledger_get l' index)) ∨
     (code = 503 ∧ stFatal (wStatus w') ≠ None)).
Proof.
  intros Hw Hopen Hl Hr E.
  assert (([Lit "enqueue"; Lit "latest"; Wild "chainId"], Data enqueue) ∈ routes (D := D)) as Hin
    by (unfold routes; repeat (try (by left); right)).
  destruct (answering_run _ _ _ _ (answering_dataHandler (K := ledger_grows) _ _ cfg r Hin) Hw E) as [[code body] ->].
  exists code, body. split; [done|].
  destruct (wp_run _ _ _ _ _ _ _ (wp_served_route cfg r index l w Hopen Hl Hr) (conj Hw I) E) as (_ & _ & _ & HQ).
  exact (HQ _ eq_refl).
Qed.

End served.

(** ** A concrete service *)

Module ServerWitness.

#[local] Existing Instances HexText.text HexText.laws MemKV.pebble MemKV.laws MemKV.no_panic MemKV.reliable.

(** The node is at block 12; the clock shows the scheduling point. *)
#[local] Instance env : Env MemKV.db := {|
  rpc_Header _ n :=
    let n := match n with Some n => uval n | None => 12 end in
    inl (Some (mkHeader (Some n) (#64 (600000 + n)) (wrap 256 (1000 + n)) None));
  rpc_FilterLogs _ _ := inl [];
  ctx_Err _ := None;
  env_status _ := [OpSetBlobReady true];
  env_store _ s := s;
|}.
#[local] Instance clock : Clock := λ t, 1700000000 + Z.of_nat t.

#[local] Instance keeps : Keeps (D := MemKV.db) (ledger_grows (B := MemKV.batch)).
Proof.
  split.
  - intros s. split; [done|]. intros l Hl. by exists l.
  - intros s1 s2 s3 [C1 K1] [C2 K2]. split; [auto|]. intros l Hl.
    destruct (K1 l Hl) as (l1 & Hl1 & P1). destruct (K2 l1 Hl1) as (l2 & Hl2 & P2).
    exists l2. split; [done | by etrans].
  - intros t s. split; [done|]. intros l Hl. by exists l.
Qed.

Definition cfg : Config :=
  mkConfig "rpc" (#64 1) (#64 1088) (wrap 160 7) (#64 0) (#64 10) (#64 50) 1 "db" "listen" ""
    zero_address zero_address zero_address (#64 0).
Definition w0 : world MemKV.db unit := mkWorld DepositWitness.s0 new_Status tt 0.





(** Block 2 is confirmed, block 3 is not. *)
Definition numbered (s : string) : request := mkRequest {["number" := s]} None.
Definition context2 := l1Context cfg (numbered "2") None w0.

Lemma l1Context_confirmed_witness :
  (∃ body, context2.2 = Ok (200, inl body) ∧ body ≠ context_body JNull JNull JNull) ∧
  ∃ o, context2.2 = Ok o ∧ context_outcome cfg 0 (wClock context2.1) (numbered "2") o ∧
    calm_with (ledger_grows (B := MemKV.batch)) w0 context2.1.
Proof.
  split; [eexists; split; [vm_compute; reflexivity | done]|].
  apply (l1Context_confirmed (K := ledger_grows (B := MemKV.batch)) cfg (numbered "2") None w0).
  - exact new_Status_ok.
  - apply surjective_pairing.
Defined.

(** The second deposit of the store. *)
Definition second : request := mkRequest {["chainId" := "1088"; "index" := "01"]} (Some ["l1"]).
Definition w1 : world MemKV.db unit := mkWorld BlobWitness.b1 new_Status tt 0.
Definition asked := dataHandler (enqueue (B := MemKV.batch)) cfg second w1.

Lemma enqueue_serves_witness :
  match asked.2 with Ok (code, JObj (("index", i) :: _)) => code = 200 ∧ i = JNum 1 | _ => False end ∧
  ∃ l code body, asked.2 = Ok (code, body) ∧
    ((code = 200 ∧ ∃ l', represents (contents (st_db (wStore asked.1))) l' ∧
        lg_records l `prefix_of` lg_records l' ∧ body = deposit_body (ledger_get l' (Some (wrap 64 1)))) ∨
     (code = 503 ∧ stFatal (wStatus asked.1) ≠ None)).
Proof.
  split; [vm_compute; done|]. destruct BlobWitness.b1_ledger as [l Hl]. exists l.
  apply (enqueue_serves (B := MemKV.batch) cfg second (Some (wrap 64 1)) l w1).
  - exact new_Status_ok.
  - vm_compute. reflexivity.
  - exact Hl.
  - split_and!; [right; by split_and! | by right | by split_and!].
  - apply surjective_pairing.
Defined.

End ServerWitness.
