(* ===== verification/Command.v ===== *)
(** * The command (cmd/metis-l1dtl)

    [run] (main.go), [runHealthcheck] (healthcheck.go) and the start of the
    service, [runService] up to [serve] (service.go).  The node, the network
    and the host name of a URL are parameters. *)
From S2P Require Import Prelude Word Strconv Json Geth Pebble StoreTypes DepositStore BlobStore.
From S2P Require Import Status Flags Config.

(** What the process meets outside: the L1 node when it starts, the listener
    it asks for, and the probe of the health check. *)
Class Outside : Type := {
  ethclient_Dial : string → option error;            (* nil or an error *)
  rpc_ChainID : Z + error;
  rpc_CodeAt : Address → bytes + error;
  net_Listen : string → option error;
  url_Hostname : URL → string;                       (* URL.Hostname *)
  client_Get : string → Z → Z + error;               (* the status, redirects not followed *)
}.

(** ** Health check *)

Section healthcheck.
Context `{ConfigText, Outside}.

Record probe : Type := mkProbe { pbURL : string; pbTimeout : Z }.

Definition default_probe : probe := mkProbe "http://127.0.0.1:7878/healthz" (3 * 1000000000).

Definition probe_flags : FlagSet (V := probe) := [
  ("url", λ s p, Ok (mkProbe s (pbTimeout p)));
  ("timeout", λ s p,
     match time_ParseDuration s with
     | Some d => Ok (mkProbe (pbURL p) d)
     | None => Err (plain "parse error")
     end)].

Definition runHealthcheck (args : list string) : result unit :=
  let! f := Parse_flags probe_flags default_probe [] args in
  let p := fsVars f in
  fail_if negb (bool_decide (fsArgs f = [])) || (pbTimeout p <=? 0)
    with plain "healthcheck requires a positive --timeout and no positional arguments" ;;
  fail_if match url_Parse (pbURL p) with
          | None => true
          | Some u => negb (bool_decide (urlScheme u = "http")) && negb (bool_decide (urlScheme u = "https")) ||
              bool_decide (url_Hostname u = "")
          end
    with plain "healthcheck --url must be an absolute HTTP(S) URL" ;;
  match client_Get (pbURL p) (pbTimeout p) with
  | inr e => Err e
  | inl status =>
      fail_if negb (status =? 200) with plain "healthcheck: unexpected HTTP status" ;;
      Ok tt
  end.

End healthcheck.

(** ** Start of the service *)

Inductive worker : Type := BlobWorker | DepositWorker.

(** What [serve] is given. *)
Record service (D : Type) : Type := mkService {
  svStore : Store D;
  svStatus : Status;
  svWorkers : list worker;
}.
Arguments mkService {D} svStore svStatus svWorkers.
Arguments svStore {D} _.
Arguments svStatus {D} _.
Arguments svWorkers {D} _.

Section service.
Context `{GethText, ConfigText, Outside}.
Context {D B : Type} `{Pebble D B}.

Definition validateL1 (cfg : Config) : result unit :=
  match rpc_ChainID with
  | inr e => Err e
  | inl id =>
      fail_if negb (IsUint64 id) || negb (bool_decide (wrap 64 id = cL1ChainID cfg))
        with plain "L1 chain ID mismatch" ;;
      match rpc_CodeAt (cAddressManager cfg) with
      | inr e => Err e
      | inl code =>
          fail_if len code =? 0 with plain "AddressManager has no code" ;;
          Ok tt
      end
  end.

Definition identity_of (cfg : Config) : Identity :=
  mkIdentity (Int 1 eq_refl) (cL1ChainID cfg) (cL2ChainID cfg) (cStart cfg) (cAddressManager cfg).
Definition blob_identity_of (cfg : Config) : BlobIdentity :=
  mkBlobIdentity (Int 1 eq_refl) (cInbox cfg) (cInboxSender cfg) (cBlobSender cfg) (cInboxStart cfg).

(** [runService] until [serve], from the database directory as it is. *)
Definition start (cfg : Config) (disk : D) : result (service D) :=
  match ethclient_Dial (cRPC cfg) with
  | Some e => Err e
  | None =>
      let! _ := validateL1 cfg in
      let! db := Open disk (identity_of cfg) in
      let! ' (db, status, workers) :=
        if BlobEnabled cfg then
          let! db := InitBlob db (blob_identity_of cfg) in
          Ok (db, EnableBlob new_Status, [BlobWorker])
        else Ok (db, new_Status, []) in
      match net_Listen (cListen cfg) with
      | Some e => Err e
      | None => Ok (mkService db status (workers ++ [DepositWorker]))
      end
  end.

(** ** The program *)

(** [serve] is the rest of [runService]; it returns nil or an error. *)
Definition runService (serve : service D → result unit) (disk : D) (cfg : Config) : result unit :=
  let! s := start cfg disk in serve s.

(** [os.Args] without the program. *)
Definition run (serve : service D → result unit) (disk : D) (args : list string) : result unit :=
  match args with
  | "healthcheck" :: rest => runHealthcheck rest
  | _ => let! cfg := Parse args in runService serve disk cfg
  end.

(** The exit status; a panic exits with 2. *)
Definition main (serve : service D → result unit) (disk : D) (args : list string) : Z :=
  match run serve disk args with
  | Ok _ => 0
  | Err e => if negb (errors_Is e ErrHelp) then 1 else 0
  | Panic => 2
  end.

End service.
