(* ===== verification/CommandTheorems.v ===== *)
(** * From the command line to the running service *)
From S2P Require Import Prelude Word Strconv Json Geth Pebble StoreTypes DepositStore BlobStore.
From S2P Require Import BlobStoreFacts BlobTheorems Status Flags Config ConfigTheorems Command.

Section facts.
Context `{GethText, !GethTextLaws, ConfigText, !ConfigTextLaws, Outside}.
Context {D B : Type} `{PebbleLaws D B}.

(** A new database, or one that a service has left: with its ledger, and with
    an archive unless blobs were never enabled. *)
Definition left_over (m : gmap bytes raw) : Prop :=
  (∀ k, m !! k = None) ∨
  (∃ l, represents m l) ∧ ((∀ k, is_blob k → m !! k = None) ∨ ∃ A, archived m A).

(** The node is the one the configuration names. *)
Definition right_chain (cfg : Config) : Prop :=
  rpc_ChainID = inl (uval (cL1ChainID cfg)) ∧
  ∃ code, rpc_CodeAt (cAddressManager cfg) = inl code ∧ code ≠ [].

Lemma validateL1_cases cfg :
  (validateL1 cfg = Ok tt ∧ right_chain cfg) ∨ (∃ e, validateL1 cfg = Err e) ∧ ¬ right_chain cfg.
Proof.
  unfold validateL1, right_chain. destruct rpc_ChainID as [id|e]; [|right; split; [by eexists | by intros [? _]]].
  destruct (negb (IsUint64 id) || _) eqn:E.
  { right. split; [by eexists|]. intros [[= ->] _]. rewrite wrap_uval, bool_decide_true in E by done.
    pose proof (uint_range (cL1ChainID cfg)). unfold IsUint64, in_width in E.
    rewrite (proj2 (Z.leb_le _ _)), (proj2 (Z.ltb_lt _ _)) in E by lia. done. }
  apply orb_false_iff in E as [E1 E2]. apply negb_false_iff in E1. bool_to_prop.
  assert (id = uval (cL1ChainID cfg)) as ->.
  { rewrite <-E2. unfold IsUint64, in_width in E1. bool_to_prop. by rewrite uval_wrap_small. }
  destruct (rpc_CodeAt _) as [code|e]; [|right; split; [by eexists | by intros (_ & ? & ? & _)]].
  unfold len. destruct code as [|x code]; cbn [length]; [right | left].
  - split; [by eexists|]. by intros (_ & ? & [= <-] & ?).
  - rewrite (proj2 (Z.eqb_neq _ _)) by lia. split_and!; [done..|]. by exists (x :: code).
Qed.

Lemma represents_opened m id l :
  represents m l → (∀ k, m !! k = None) → represents (<[identityKey := json_Marshal (A := Identity) id]> m) l.
Proof.
  intros Hl Hm. eapply represents_same_owned; [| |done].
  - by rewrite lookup_insert_ne.
  - intros i. by rewrite lookup_insert_ne by apply not_eq_sym, key_not_identity.
Qed.

(** What opening does to a database that was left. *)
Lemma Open_left (d : D) id s :
  left_over (contents d) → Open d id = Ok s →
  st_closed s = false ∧ contents (st_db s) !! identityKey = Some (json_Marshal id) ∧
  (∃ l, represents (contents (st_db s)) l) ∧
  (∀ l, represents (contents d) l → represents (contents (st_db s)) l) ∧
  (∀ k, is_blob k → contents (st_db s) !! k = contents d !! k).
Proof.
  intros Hd Ho. unfold Open in Ho. inv_bind. simpl.
  apply initIdentity_Ok in Hv as [[-> Hid]|[Hempty Hc]].
  - split_and!; [done | done | | done | done]. destruct Hd as [Hd|[? _]]; [by rewrite Hd in Hid | done].
  - rewrite Hc. split_and!; [done | by rewrite lookup_insert_eq | | |].
    + eexists. by apply represents_identity.
    + intros l Hl. by apply represents_opened.
    + intros k Hk. rewrite lookup_insert_ne; [done|]. intros <-. by apply not_blob_identity.
Qed.

Lemma InitBlob_left (s s' : Store D) id :
  (∀ k, is_blob k → contents (st_db s) !! k = None) ∨ (∃ A, archived (contents (st_db s)) A) →
  InitBlob s id = Ok s' →
  st_closed s' = false ∧ identified (contents (st_db s')) id ∧ (∃ A, archived (contents (st_db s')) A) ∧
  (∀ A, archived (contents (st_db s)) A → archived (contents (st_db s')) A) ∧
  (∀ k, ¬ is_blob k → contents (st_db s') !! k = contents (st_db s) !! k).
Proof.
  intros Hs Hi. pose proof (InitBlob_Ok _ _ _ Hi) as [Hcl _].
  destruct (InitBlob_step _ _ _ Hi) as (Ho & Hid & Ha & Hnew). split_and!; try done.
  destruct Hs as [Hn|[A HA]]; [|by eauto]. destruct Hnew as [->|?]; [|by eauto].
  destruct Hid as (r & Hr & _). by rewrite Hn in Hr by apply identity_is_blob.
Qed.

(** The state [serve] starts in. *)
Record started (cfg : Config) (disk : D) (s : service D) : Prop := {
  sd_open : st_closed (svStore s) = false;
  sd_status : status_ok (svStatus s);
  sd_healthy : stFatal (svStatus s) = None;
  sd_enabled : stBlobEnabled (svStatus s) = BlobEnabled cfg;
  sd_workers : svWorkers s = if BlobEnabled cfg then [BlobWorker; DepositWorker] else [DepositWorker];
  sd_identity : contents (st_db (svStore s)) !! identityKey = Some (json_Marshal (identity_of cfg));
  sd_ledger : ∃ l, represents (contents (st_db (svStore s))) l;
  sd_same_ledger l : represents (contents disk) l → represents (contents (st_db (svStore s))) l;
  sd_archive : BlobEnabled cfg = true →
    identified (contents (st_db (svStore s))) (blob_identity_of cfg) ∧
    ∃ A, archived (contents (st_db (svStore s))) A;
  sd_same_archive A : archived (contents disk) A → archived (contents (st_db (svStore s))) A;
}.

Lemma start_Ok cfg (disk : D) s :
  left_over (contents disk) → start cfg disk = Ok s → right_chain cfg ∧ started cfg disk s.
Proof.
  intros Hd Hs. unfold start in Hs. destruct (ethclient_Dial _); [done|].
  destruct (validateL1_cases cfg) as [[Hv Hr]|[[e He] _]]; [|by rewrite He in Hs].
  rewrite Hv in Hs. cbn [bind] in Hs. split; [done|].
  destruct (Open disk (identity_of cfg)) as [db| |] eqn:Eo; try done. cbn [bind] in Hs.
  destruct (Open_left _ _ _ Hd Eo) as (Hcl & Hid & Hl & Hsame & Hblob).
  assert (∀ A, archived (contents disk) A → archived (contents (st_db db)) A) as Harch.
  { intros A. by apply archived_blob_keys. }
  destruct (BlobEnabled cfg) eqn:Eb.
  - destruct (InitBlob db (blob_identity_of cfg)) as [db'| |] eqn:Ei; try done. cbn [bind] in Hs.
    destruct (net_Listen _); [done|]. injection Hs as <-.
    assert ((∀ k, is_blob k → contents (st_db db) !! k = None) ∨ (∃ A, archived (contents (st_db db)) A)) as Hdb.
    { destruct Hd as [Hn|[_ [Hn|[A HA]]]]; [left | left | by eauto]; intros k Hk; rewrite Hblob by done; auto. }
    destruct (InitBlob_left _ _ _ Hdb Ei) as (Hcl' & Hbid & HA & Hkeep & Hother).
    assert (∀ l, represents (contents (st_db db)) l → represents (contents (st_db db')) l) as Hrep.
    { intros l Hl'. eapply represents_other_keys; [|done]. exact Hother. }
    assert (∃ l, represents (contents (st_db db')) l) as Hl' by (destruct Hl as [l Hl]; eauto).
    split; simpl; [done | by split | done | by rewrite Eb | by rewrite Eb
      | by rewrite Hother by apply not_blob_identity | done | eauto | done | eauto].
  - cbn [bind] in Hs. destruct (net_Listen _); [done|]. injection Hs as <-.
    split; simpl; [done | by split | done | by rewrite Eb | by rewrite Eb | done..| by rewrite Eb | done].
Qed.

Lemma start_wrong_chain cfg (disk : D) : ¬ right_chain cfg → ∃ e, start cfg disk = Err e.
Proof.
  intros Hn. unfold start. destruct (ethclient_Dial _); [by eexists|].
  destruct (validateL1_cases cfg) as [[_ ?]|[[e ->] _]]; [done | by eexists].
Qed.

(** [C11] From the command line to the running service.  On a new database or
    one that a service has left, a start that succeeds has met the L1 chain
    of the configuration, with code at the address manager (on any other
    chain it fails), and hands [serve] what the theorems about both loops
    assume: a positive batch size, an open store with the configured
    identities that holds a ledger (the one that was left, if any) and, when
    blobs are enabled, an archive (again the one that was left); a healthy
    status that waits for the blob loop exactly when it runs. *)
Theorem service_starts args cfg (disk : D) :
  Parse args = Ok cfg → left_over (contents disk) →
  0 < uval (cBatchSize cfg) ∧
  (∀ s, start cfg disk = Ok s → right_chain cfg ∧ started cfg disk s) ∧
  (¬ right_chain cfg → ∃ e, start cfg disk = Err e).
Proof.
  intros Hp Hd. split; [by apply va_BatchSize; eapply Parse_valid|].
  split; [intros s; by apply start_Ok | apply start_wrong_chain].
Qed.

End facts.

Module CommandWitness.

#[local] Existing Instances HexText.text HexText.laws MemKV.pebble MemKV.laws
  ConfigWitness.text ConfigWitness.text_laws.

(** The node of the configuration of [ConfigWitness]. *)
#[local] Instance outside : Outside := {|
  ethclient_Dial _ := None;
  rpc_ChainID := inl 1;
  rpc_CodeAt a := inl (if bool_decide (a = wrap 160 7) then [wrap 8 1] else []);
  net_Listen _ := None;
  url_Hostname u := urlHost u;
  client_Get _ _ := inl 200;
|}.

Definition disk : MemKV.db := MemKV.Db ∅.

Definition begun : result (service MemKV.db) := start (B := MemKV.batch) ConfigWitness.parsed_args disk.

Lemma begins : match begun with Ok _ => true | _ => false end = true.
Proof. vm_compute. reflexivity. Qed.

Lemma begun_Ok : ∃ s, begun = Ok s.
Proof. pose proof begins as Hb. destruct begun as [s| |]; [by exists s | done..]. Qed.

Lemma service_starts_witness :
  0 < uval (cBatchSize ConfigWitness.parsed_args) ∧
  ∃ s, begun = Ok s ∧ started ConfigWitness.parsed_args disk s.
Proof.
  assert (Parse ConfigWitness.args = Ok ConfigWitness.parsed_args) as Hp by (vm_compute; reflexivity).
  assert (left_over (contents disk)) as Hd by (left; exact lookup_empty).
  destruct (service_starts (B := MemKV.batch) _ _ _ Hp Hd) as (Hb & Hs & _). split; [exact Hb|].
  destruct begun_Ok as [s E]. exists s. split; [exact E | exact (proj2 (Hs s E))].
Defined.

End CommandWitness.
