(* ===== verification/Lifecycle.v ===== *)
(** * The life of the service ([serve], cmd/metis-l1dtl/service.go)

    [serve] starts the workers and the HTTP server as goroutines, waits for a
    signal or for the server, stops everything and returns; its caller then
    closes the database and the node's client.  The goroutines are concurrent,
    so this is a step relation: the main goroutine goes from phase to phase,
    the others may step between.  [http.Server] behaves as documented:
    [Serve] returns only with an error, ErrServerClosed once [Shutdown] was
    called; [Shutdown] returns nil only when no connection is active, and
    none becomes active afterwards; after an error of it (its ten seconds
    passed, or the listener failed) [Close] ends connections, but handlers
    that run go on. *)
From S2P Require Import Prelude Command.

(** What [httpServer.Serve] returns. *)
Inductive serve_error : Type :=
  | ServerClosed                (* http.ErrServerClosed *)
  | Failed (e : error).

(** Where the main goroutine is; from [Stopping] on with [serveErr]. *)
Inductive phase : Type :=
  | Selecting                            (* select *)
  | Stopping (e : option error)          (* stop() *)
  | ShuttingDown (e : option error)      (* shutdownHTTP *)
  | Waiting (e : option error)           (* <-syncDone *)
  | Leaving (e : option error)           (* serve returned: deferred db.Close *)
  | Closing (e : option error)           (* deferred rpc.Close *)
  | Exited (e : option error).

Record process : Type := mkProcess {
  prPhase : phase;
  prSignal : bool;                (* ctx is done *)
  prCancelled : bool;             (* syncCtx is done *)
  prRunning : list worker;        (* the workers that have not returned *)
  prServed : option serve_error;  (* what the server has sent to [served] *)
  prShutdown : bool;              (* Shutdown was called *)
  prHandlers : nat;               (* handlers that run *)
  prQuiet : bool;                 (* Shutdown returned nil *)
  prStore : bool;                 (* the database is open *)
  prRPC : bool;                   (* the node's client is open *)
}.

Definition begin (workers : list worker) : process :=
  mkProcess Selecting false false workers None false 0 false true true.

(** [if err := shutdownHTTP(httpServer); serveErr == nil { serveErr = err }] *)
Definition first_error (serveErr err : option error) : option error :=
  match serveErr with None => err | Some e => Some e end.

(** [serveErr = <-served], without ErrServerClosed. *)
Definition serve_result (r : serve_error) : option error :=
  match r with ServerClosed => None | Failed e => Some e end.

Inductive step : process → process → Prop :=
  (* outside: a signal; workers return when they like; requests come and go *)
  | s_signal p sg c run sv sd h q st rp :
      step (mkProcess p sg c run sv sd h q st rp) (mkProcess p true true run sv sd h q st rp)
  | s_worker p sg c run1 w run2 sv sd h q st rp :
      step (mkProcess p sg c (run1 ++ w :: run2) sv sd h q st rp) (mkProcess p sg c (run1 ++ run2) sv sd h q st rp)
  | s_request p sg c run sv sd h st rp :
      step (mkProcess p sg c run sv sd h false st rp) (mkProcess p sg c run sv sd (S h) false st rp)
  | s_answered p sg c run sv sd h q st rp :
      step (mkProcess p sg c run sv sd (S h) q st rp) (mkProcess p sg c run sv sd h q st rp)
  (* the goroutine of the HTTP server *)
  | s_accept_fails p sg c run e h q st rp :
      step (mkProcess p sg c run None false h q st rp) (mkProcess p sg c run (Some (Failed e)) false h q st rp)
  | s_closed p sg c run h q st rp :
      step (mkProcess p sg c run None true h q st rp) (mkProcess p sg c run (Some ServerClosed) true h q st rp)
  (* serve *)
  | s_select_signal c run sv sd h q st rp :
      step (mkProcess Selecting true c run sv sd h q st rp) (mkProcess (Stopping None) true c run sv sd h q st rp)
  | s_select_served sg c run r sd h q st rp :
      step (mkProcess Selecting sg c run (Some r) sd h q st rp)
           (mkProcess (Stopping (serve_result r)) sg c run (Some r) sd h q st rp)
  | s_stop e sg c run sv sd h q st rp :
      step (mkProcess (Stopping e) sg c run sv sd h q st rp)
           (mkProcess (ShuttingDown e) sg true run sv true h q st rp)
  | s_shutdown e sg c run sv sd q st rp :
      step (mkProcess (ShuttingDown e) sg c run sv sd 0 q st rp) (mkProcess (Waiting e) sg c run sv sd 0 true st rp)
  | s_shutdown_fails e err sg c run sv sd h q st rp :
      step (mkProcess (ShuttingDown e) sg c run sv sd h q st rp)
           (mkProcess (Waiting (first_error e (Some err))) sg c run sv sd h q st rp)
  | s_joined e sg c sv sd h q st rp :
      step (mkProcess (Waiting e) sg c [] sv sd h q st rp) (mkProcess (Leaving e) sg c [] sv sd h q st rp)
  (* runService's deferred calls *)
  | s_close_store e sg c run sv sd h q st rp :
      step (mkProcess (Leaving e) sg c run sv sd h q st rp) (mkProcess (Closing e) sg c run sv sd h q false rp)
  | s_close_rpc e sg c run sv sd h q st rp :
      step (mkProcess (Closing e) sg c run sv sd h q st rp) (mkProcess (Exited e) sg c run sv sd h q st false).

Definition reachable (workers : list worker) : process → Prop := rtc step (begin workers).

(** ** The invariant *)

(** What holds in every phase. *)
Definition phase_ok (p : process) : Prop :=
  match prPhase p with
  | Selecting => prShutdown p = false ∧ prQuiet p = false ∧ prStore p = true ∧ prRPC p = true
  | Stopping e => prShutdown p = false ∧ prQuiet p = false ∧ prStore p = true ∧ prRPC p = true ∧
      (e = None → prSignal p = true) ∧ (∀ err, e = Some err → prServed p = Some (Failed err))
  | ShuttingDown e => prCancelled p = true ∧ prShutdown p = true ∧ prQuiet p = false ∧
      prStore p = true ∧ prRPC p = true ∧
      (e = None → prSignal p = true) ∧ (∀ err, e = Some err → prServed p = Some (Failed err))
  | Waiting e => prCancelled p = true ∧ prStore p = true ∧ prRPC p = true ∧
      (e = None → prSignal p = true ∧ prQuiet p = true)
  | Leaving e => prCancelled p = true ∧ prRunning p = [] ∧ prStore p = true ∧ prRPC p = true ∧
      (e = None → prSignal p = true ∧ prQuiet p = true)
  | Closing e => prCancelled p = true ∧ prRunning p = [] ∧ prStore p = false ∧ prRPC p = true ∧
      (e = None → prSignal p = true ∧ prQuiet p = true)
  | Exited e => prCancelled p = true ∧ prRunning p = [] ∧ prStore p = false ∧ prRPC p = false ∧
      (e = None → prSignal p = true ∧ prQuiet p = true)
  end.

Record process_ok (p : process) : Prop := {
  po_phase : phase_ok p;
  po_quiet : prQuiet p = true → prHandlers p = 0%nat;
  po_served : prShutdown p = false → prServed p ≠ Some ServerClosed;
}.

Lemma begin_ok workers : process_ok (begin workers).
Proof. by split; [|done|]. Qed.

Lemma step_quiet p p' :
  step p p' → (prQuiet p = true → prHandlers p = 0%nat) → prQuiet p' = true → prHandlers p' = 0%nat.
Proof. destruct 1; simpl; intros Hq E; try done; specialize (Hq E); lia. Qed.

Lemma step_served p p' :
  step p p' → (prShutdown p = false → prServed p ≠ Some ServerClosed) →
  prShutdown p' = false → prServed p' ≠ Some ServerClosed.
Proof. by destruct 1. Qed.

(** The other goroutines keep what a phase has established. *)
Lemma phase_ok_env ph sg c run sv sd h q st rp sg' c' run' sv' h' :
  (sg = true → sg' = true) → (c = true → c' = true) → (run = [] → run' = []) →
  (∀ r, sv = Some r → sv' = Some r) →
  phase_ok (mkProcess ph sg c run sv sd h q st rp) → phase_ok (mkProcess ph sg' c' run' sv' sd h' q st rp).
Proof. intros Hs Hc Hr Hv. unfold phase_ok. simpl. destruct ph; intuition eauto. Qed.

Lemma step_phase p p' : step p p' → process_ok p → phase_ok p'.
Proof.
  intros Hs [Hp _ Hv]. destruct Hs;
    try (by (eapply phase_ok_env; [| | | |exact Hp]); [try done..];
      intros Hn; first [by apply app_nil in Hn as [_ ?] | by injection Hn]);
    unfold phase_ok in *; simpl in *.
  - destruct Hp as (? & ? & ? & ?). by split_and!.
  - destruct Hp as (Hsd & ? & ? & ?). specialize (Hv Hsd). split_and!; try done; destruct r; simpl; congruence.
  - destruct Hp as (? & ? & ? & ? & ? & ?). by split_and!.
  - destruct Hp as (? & ? & ? & ? & ? & ? & ?). split_and!; auto.
  - destruct Hp as (? & ? & ? & ? & ? & ? & ?). split_and!; try done. by destruct e.
  - destruct Hp as (? & ? & ? & ?). by split_and!.
  - destruct Hp as (? & ? & ? & ? & ?). by split_and!.
  - destruct Hp as (? & ? & ? & ? & ?). by split_and!.
Qed.

Lemma step_ok p p' : step p p' → process_ok p → process_ok p'.
Proof.
  intros Hs Hp. split; [by eapply step_phase | eapply step_quiet; [done|apply Hp] | eapply step_served; [done|apply Hp]].
Qed.

Lemma reachable_ok workers p : reachable workers p → process_ok p.
Proof.
  unfold reachable. intros Hr.
  assert (∀ p0, process_ok p0 → rtc step p0 p → process_ok p) as Hgen; [|by eapply Hgen, Hr; apply begin_ok].
  clear Hr. intros p0 H0 Hr. induction Hr as [|p1 p2 p3 Hs _ IH]; [done|]. by eapply IH, step_ok.
Qed.

(** ** It can always end *)

Definition exits (p : process) : Prop := ∃ p' e, rtc step p p' ∧ prPhase p' = Exited e.

Lemma exits_step p p' : step p p' → exits p' → exits p.
Proof. intros Hs (q & e & Hr & Hq). exists q, e. split; [by eapply rtc_l | done]. Qed.

Lemma exits_leaving e sg c run sv sd h q st rp : exits (mkProcess (Leaving e) sg c run sv sd h q st rp).
Proof.
  eapply exits_step; [apply s_close_store|]. eapply exits_step; [apply s_close_rpc|].
  eexists _, e. by split; [apply rtc_refl|].
Qed.

Lemma exits_waiting e sg c run sv sd h q st rp : exits (mkProcess (Waiting e) sg c run sv sd h q st rp).
Proof.
  induction run as [|w run IH].
  - eapply exits_step; [apply s_joined | apply exits_leaving].
  - eapply exits_step; [|exact IH]. apply (s_worker _ _ _ [] w run).
Qed.

Lemma exits_from p : prPhase p ≠ Selecting ∨ prSignal p = true ∨ prServed p ≠ None → exits p.
Proof.
  destruct p as [ph sg c run sv sd h q st rp]. simpl.
  assert (∀ e sg c sv sd q, exits (mkProcess (ShuttingDown e) sg c run sv sd h q st rp)) as Hdown.
  { intros. induction h as [|h IH]; [eapply exits_step; [apply s_shutdown | apply exits_waiting]|].
    eapply exits_step; [apply s_answered | apply IH]. }
  assert (∀ e sg c sv sd q, exits (mkProcess (Stopping e) sg c run sv sd h q st rp)) as Hstop.
  { intros. eapply exits_step; [apply s_stop | apply Hdown]. }
  destruct ph as [|e|e|e|e|e|e]; intros Hp; [| apply Hstop | apply Hdown | apply exits_waiting | apply exits_leaving | |].
  - destruct Hp as [?|[->|Hsv]]; [done | by eapply exits_step; [apply s_select_signal | apply Hstop] |].
    destruct sv as [r|]; [|done]. eapply exits_step; [apply s_select_served | apply Hstop].
  - eapply exits_step; [apply s_close_rpc|]. eexists _, e. by split; [apply rtc_refl|].
  - eexists _, e. by split; [apply rtc_refl|].
Qed.

(** ** Properties *)

(** [C14] The database is closed last.  In every interleaving of the workers,
    the HTTP server, the requests, a signal and [serve] itself: while a worker
    runs the database and the node's client are open; they are closed only
    after the workers were told to stop and have all returned, the database
    first.  When [serve] returned nil, a signal ended the service, and no
    handler runs any more.  And once there is a signal, or the server has
    failed, the service can exit. *)
Theorem serve_closes_last workers p :
  reachable workers p →
  (prRunning p ≠ [] → prStore p = true ∧ prRPC p = true) ∧
  (prStore p = false → prCancelled p = true ∧ prRunning p = []) ∧
  (prRPC p = false → prStore p = false) ∧
  (prPhase p = Exited None → prSignal p = true ∧ prHandlers p = 0%nat) ∧
  (prSignal p = true ∨ prServed p ≠ None → exits p).
Proof.
  intros Hr%reachable_ok. destruct Hr as [Hp Hq _]. unfold phase_ok in Hp.
  split_and!; [| | | |intros Hs; apply exits_from; tauto].
  - destruct (prPhase p); intuition congruence.
  - destruct (prPhase p); intuition congruence.
  - destruct (prPhase p); intuition congruence.
  - intros E. rewrite E in Hp. destruct Hp as (_ & _ & _ & _ & Hn). destruct (Hn eq_refl). auto.
Qed.

(** A handler outlives a shutdown that takes too long, but [serve] then
    returns an error. *)
Lemma serve_closes_last_witness :
  ∃ p, reachable [BlobWorker; DepositWorker] p ∧ prStore p = false ∧ prHandlers p = 1%nat ∧
    (prCancelled p = true ∧ prRunning p = []).
Proof.
  set (late := plain "context deadline exceeded").
  exists (mkProcess (Closing (Some late)) true true [] None true 1 false false true).
  assert (reachable [BlobWorker; DepositWorker]
    (mkProcess (Closing (Some late)) true true [] None true 1 false false true)) as Hr.
  { eapply rtc_l; [apply s_request|]. eapply rtc_l; [apply s_signal|]. eapply rtc_l; [apply s_select_signal|].
    eapply rtc_l; [apply s_stop|]. eapply rtc_l; [apply (s_worker _ _ _ [BlobWorker] DepositWorker [])|].
    eapply rtc_l; [apply (s_shutdown_fails _ late)|]. eapply rtc_l; [apply (s_worker _ _ _ [] BlobWorker [])|].
    eapply rtc_l; [apply s_joined|]. eapply rtc_l; [apply s_close_store|]. apply rtc_refl. }
  destruct (serve_closes_last _ _ Hr) as (_ & Hc & _).
  split; [exact Hr|]. split; [reflexivity|]. split; [reflexivity|]. by apply Hc.
Defined.
